(* ===== verification/_CoqProject ===== *)
-Q . S2P
Prelude.v
CMemory.v
Kernel.v
CircularBuffer.v
RingSearches.v
CharDriver.v
DriverWrite.v
DriverRead.v
DriverModule.v
DriverConcurrency.v
DriverTypes.v
DriverSystem.v
DriverTraces.v
DriverCallSteps.v
DriverInterleaving.v
DriverSafety.v
QueueMemory.v
TailQueue.v
QueueFamily.v
SList.v
STailQ.v
LList.v
QueueFamilies.v
QueueDebug.v
ClientAddress.v
Server.v
ServerMain.v
ServerSystem.v
ServerProgress.v
SystemCalls.v
Threading.v
Writer.v
Validate.v
