(* ===== verification/Prelude.v ===== *)
(** * Verification library of the AESD assignments repository

    The repository holds a Linux character driver that keeps the last ten lines
    written to it ([src/aesd-char-driver]), a socket server that appends the
    packets of its clients to a file and sends the file back ([src/server]), and
    smaller programs: the writer utility ([src/finder-app/writer.c]), the system
    call and threading examples ([src/examples]).  The driver and the server are
    separate programs (the server is built on a file in /var/tmp), each with a
    lower component of its own: the driver calls the circular buffer, and the main
    thread of the server keeps its threads in a queue of [queue.h].

    ** Files

    - [Prelude] (this file): machine integers, faults, the result and state
      monads, checked array accesses, the last-ten operation on lists, the tactics
      and rewrite databases.  An operation of a model returns [Fault] where the C
      code has undefined behaviour (an access out of bounds or through a null or
      freed pointer, a bad free, a second join, a bad format, a closed stream, a
      destroyed mutex).
    - [CMemory]: blocks of bytes, [strlen], [strstr], [strcpy], [strcat], [free].  A
      block may be longer than its request, so that a read past the request finds
      what the allocator left there, and a read past the block is a fault.
    - [Kernel]: the services of the kernel that the driver calls, as type classes of
      operations ([Kernel], [RwSem], [Chrdev], and [Vfs] for the descriptors and
      positions of open files) with classes of laws ([KernelOk], [RwSemOk],
      [ChrdevOk], [VfsOk]).  [KernelZero] is what one theorem asks of a request of 0
      bytes besides.  They are parameters: their code is not in the repository.  No law
      says that an allocation succeeds or what a block holds: where a theorem needs that,
      it is a condition on the run.  Instances that satisfy the laws are at the end
      of the file, for concrete executions.
    - [CircularBuffer]: [aesd-circular-buffer.c] and [.h].  State: the array of ten
      entries, the two [uint8_t] offsets, the [full] flag.  [view] is the list of
      the live entries, [wf] the representation invariant, [push_bounded] and
      [locate] the specifications of the insertion and of the search.
    - [RingSearches]: searches that overlap, as the readers of the driver make them,
      cut into single accesses to the ring ([search_step]); [commit_order] is the
      order in which they take effect, [linear] their invariant.
    - [CharDriver]: [main.c] and [aesdchar.h] of the driver.  State: the kernel heap,
      the user memory, the device.  [aesd_read] and [aesd_write] follow the C
      functions statement by statement; [aesd_read_lookup], [aesd_read_copy],
      [write_partial], [write_line], [write_locked] and [aesd_write_fail] are
      parts of them.  [dev_inv] says that the pointers of the device are to live
      blocks of their own, [leaked] that a block cannot be reached.
    - [DriverWrite], [DriverRead], [DriverModule]: the theorems on the write, the
      read and the load and unload of the module.  [adevice] is the abstract
      device, the lines it keeps and the partial line; [holds] relates it to a
      state; [cat] is a reader that reads to the end of file.
    - [DriverConcurrency]: reads and writes of several processes, interleaved.  A step
      of [call_step] is one call of the kernel, of a string function or of the ring, or
      one read of a field of an entry; [ArgOrder] is the order in which the compiler
      reads the two arguments of [copy_to_user].  [read_alone] and [write_alone] put the
      steps of the handlers together again.
    - [DriverTypes]: the type of every value of the driver, and that the handlers and
      the steps of their interleavings keep it.
    - [DriverSystem]: the driver in use.  [run] takes the calls of processes (open,
      close, read, write on any number of descriptors) through [aesd_fops] to the
      handlers; [contents] is the abstract device of all of them, the lines with
      what a search past their end does to them, and [a_run] the calls on it.
      [writes_all] evaluates a condition on each write of a run.
    - [DriverTraces], [DriverCallSteps], [DriverInterleaving]: the interleaved calls
      against [contents].  A schedule has a trace of searches and critical sections,
      each at one step ([event_of]); [call_inv] is what is known of one call between its
      steps, with the blocks that it owns, [calls_inv] of all of them; [explained] is
      the part that a call which has returned has in the trace.
      [run_terminated] is the condition on a schedule that its texts are terminated.
    - [DriverSafety]: the calls of [DriverSystem] with allocations and copies that fail.
    - [QueueMemory]: what the queues of [src/server/src/queue.h] share.  The memory is
      the heads and the elements, for any type of each; a [struct type **] is a
      [link]; the loops of the FOREACH macros, the walks, [containerof].
    - [TailQueue]: the TAILQ macros.  [queue] is the representation predicate of one
      list, [repr] of several disjoint lists, [a_op] the operations on the lists.
    - [QueueFamily]: the interface of the other families.  Their structures are those
      of TAILQ with fields left out: [QueueErasure] says which, [sim] that an
      operation on the smaller structures follows one of TAILQ, and from there
      [fam_runs_refine] and the lemmas on the loops hold for each family.
    - [SList], [STailQ], [LList]: the SLIST, STAILQ and LIST macros, each with its
      instance of the interface; [QueueFamilies]: programs on all four.
    - [QueueDebug]: the macros in a build with QUEUE_MACRO_DEBUG.  [dmem] is the
      memory and the traces of heads and elements, the parameter [debug] says which
      build it is, [tracks] that a macro does in both what it does without traces;
      [QueueTrash] is the interface of the families whose removals trash links.
    - [ClientAddress]: [get_client_info], the copy of its result and the line logged.
    - [Server]: [aesdsocket_thread.c] ([thread_socket_receive],
      [send_file_to_client]) and [timer_thread.c].  A thread is a program counter
      with its locals, a step function takes an event of the outside, [sys_step]
      interleaves the threads, new connections and the signal, and [reachable] is
      its closure.  [aserver] is the abstract server, a log and the replies.
    - [ServerMain]: [aesdsocket.c] and the thread list functions, on [TailQueue], and
      [timespec_add] of [aesdsocket.h].  The operations of the main thread are taken
      alone here: a join gives the state after the wait.
    - [ServerSystem]: the whole server, [Server] and [ServerMain] in one state.  The
      main thread has a program counter ([mpc]) from the test of the flag to the exit
      of the process, its joins block, [exec] performs an [action] of any part and
      [server_reachable] is every state that follows a start that succeeded.  A
      [pthread_t] can come again for a new thread after its join ([m_ids]), and each
      signal has its handler once ([m_handled]).
      [shape] says which connections and joined threads there can be at each point.
    - [ServerProgress]: who the whole server waits for, and its end after a signal.
    - [SystemCalls], [Threading], [Writer], [Validate]: [systemcalls.c],
      [threading.c], [writer.c], [autotest-validate.c] with its test.

    ** What the theorems show

    The ring: an insertion refines a bounded push and keeps the invariant, any
    sequence of insertions keeps the last ten entries and hands back each earlier
    one once, the search finds the byte of the concatenated entries, no sequence
    of calls leaves the array.  A search that fails resets the ring, and what this
    does to later searches and insertions is stated too.  Searches that overlap are
    linearizable.

    The driver: with the services of the kernel available a write refines the
    abstract device, keeps the invariant and loses no block; lines written to a
    fresh device are read back; the read is described on every branch; the error
    and contended exits are described; memory safety holds under an exact
    condition, a NUL after the copied text, and fails without it and on a write of 0
    bytes.  A sequence of calls on any number of files returns what the abstract
    contents say if the kernel served its writes and each text was terminated
    ([write_ready]), and is memory safe, whatever fails but for one unchecked allocation,
    if each text was terminated ([write_terminated]): the code puts no NUL after a text,
    so these are conditions on the run.  Interleaved
    calls exclude each other while a write holds the semaphore, and implement the
    contents under the same condition ([run_terminated]): searches and critical sections take effect one after the other, and a
    read gives the whole line that it found.  But a read uses its entry after the
    release: when a write takes its slot meanwhile it reads a freed block, and nothing
    is promised of it.  A load and unload of the module is undone, a
    failed load leaves nothing registered.  All its values keep their types.

    The queues: any program on the queues of one family implements lists, and the
    same program gives the same lists on the four families; forward and reverse
    loops visit the elements in order and end, the safe loop allows its body to
    free; SLIST and STAILQ removals of an absent element fault.  The debug build
    keeps the same lists with traces that are described exactly, and a plain loop
    that removes what it visits works in the normal build only.

    The server: under every interleaving the mutex gives mutual exclusion, what a
    thread writes is contiguous in the file, the owner of the mutex waits only in
    [recv]; served one after the other, packets and timestamps implement the
    log, with any outcome of each [send], if no stale newline or NUL misleads the search
    for the end of a packet ([job_ok]).  The stack byte after [buf], the search for
    the newline past the received bytes, the peer that closes early, the release of
    the threads (which faults on every list of the program that is not empty) and the
    exact outcomes of the start have theorems of their own.  The whole
    server has a run that handles its first client from [accept] to [accept]; it has at
    most two connections, and with the second the main thread never leaves the walk and
    joins a [pthread_t] twice; it exits
    with success only if it accepted none; a timer thread can write to the closed
    stream.  It never deadlocks, it waits only for clients, and after the signal its
    threads end in a bounded number of steps.  The address of an IPv4 client is recorded exactly.

    The small programs: what each returns for each outcome of the system calls it
    makes, where this differs from its comments, and when the writer writes its
    text.

    ** Bounds and fuel

    The search of the ring runs ten iterations as the C loop does, the FOREACH of
    the ring eleven tests.  [cat] reads at most eleven times, which ends as a ring
    holds ten lines and each read takes a whole line.  The loops of the queues
    take a bound and say whether they ended; their theorems ask for a bound of at
    least the length of the queue, and [ServerMain] uses the number of allocated
    elements, which is enough by [queue_size].  The walks inside the macros are
    allowed one step more than the allocated elements.  [budget] in
    [ServerProgress] bounds the steps that the threads still take after a signal.  A read
    of the driver has returned after ten steps of its own and a write after eleven
    ([steps_left]).  Integers have the width of a
    64-bit target; where a theorem bounds them it says so.  A block of [kmalloc]
    has at most 2^32 bytes ([KMALLOC_LIMIT]).

    ** What is not modelled

    Printing and logging (but the strings that [PDEBUG] reads are read, and the line
    with the address of the client is formed), the CLASS variants of [queue.h], which
    are for C++, scripts and build files.  A macro evaluates its arguments more than
    once; the arguments of the models are values.  The calls of [DriverSystem] and
    [DriverSafety] hold no write of 0 bytes; [DriverWrite] says what that does.  In an
    interleaving of the driver a search of the ring and an insertion are one step each:
    an insertion has the ring for itself, and searches that race are the subject of
    [RingSearches].  Memory accesses are sequentially consistent, and a copy to or from a
    user is one step.  In the server, the return of [accept] and the insertion of the
    node are one step of the main thread, as the new thread uses neither.  A [send] that
    fails is an event that sends nothing, or in [ServerSystem] the SIGPIPE that ends the
    process.  [aesdsocket.c] defines _POSIX_C_SOURCE, with which the C library takes the
    [signal] of System V: the first SIGTERM sets the flag and a second ends the process,
    and so for SIGINT.  An [accept] that a signal interrupts returns -1, which is an
    [accept] like any other here, as it is not tested.  [remove] succeeds. *)
From Stdlib Require Import ZArith Lia.
From stdpp Require Import base tactics list gmap sets numbers.

Open Scope Z_scope.

Declare Scope aesd_scope.
Delimit Scope aesd_scope with aesd.

(** ** Machine integers *)

(** Conversion to [uint8_t], [size_t], [loff_t]/[ssize_t] and [int] on the
    64-bit targets of the repository. *)
Definition u8 (x : Z) : Z := x mod 2 ^ 8.
Definition u64 (x : Z) : Z := x mod 2 ^ 64.
Definition i64 (x : Z) : Z := (x + 2 ^ 63) mod 2 ^ 64 - 2 ^ 63.
Definition i32 (x : Z) : Z := (x + 2 ^ 31) mod 2 ^ 32 - 2 ^ 31.

(** The null pointer, and the two characters the code looks for. *)
Definition NULL : Z := 0.
Definition NUL : Z := 0.
Definition NL : Z := 10.

(** ** Faults and the result monad *)

(** What a C execution can do wrong: the operations of the models return a
    fault where the C code has undefined behaviour. *)
Inductive fault : Type :=
| OutOfBounds
| NullDeref
| UseAfterFree
| BadFree
| BadJoin
| BadFormat
| BadStream
| BadMutex.

Inductive res (A : Type) : Type :=
| Ok (a : A)
| Fault (f : fault).
Arguments Ok {_} _.
Arguments Fault {_} _.

#[export] Instance fault_eq_dec : EqDecision fault.
Proof. solve_decision. Defined.

#[export] Instance res_ret : MRet res := λ A a, Ok a.
#[export] Instance res_bind : MBind res :=
  λ A B k m, match m with Ok a => k a | Fault f => Fault f end.

(** A state transformer over [res]: the operations that change the kernel or
    the process state are written in it. *)
Definition st (S A : Type) : Type := S → res (A * S).
#[export] Instance st_ret {S} : MRet (st S) := λ A a s, Ok (a, s).
#[export] Instance st_bind {S} : MBind (st S) :=
  λ A B k m s, match m s with Ok (a, s') => k a s' | Fault f => Fault f end.

Definition st_get {S} : st S S := λ s, Ok (s, s).
Definition st_put {S} (s : S) : st S unit := λ _, Ok (tt, s).
Definition st_lift {S A} (m : res A) : st S A :=
  λ s, match m with Ok a => Ok (a, s) | Fault f => Fault f end.
Definition st_fault {S A} (f : fault) : st S A := λ _, Fault f.

Notation "m ;;; k" := (mbind (λ _, k) m)
  (at level 100, k at level 200, right associativity, only parsing) : aesd_scope.
Open Scope aesd_scope.

(** ** C arrays *)

(** [a[i]] read and written; an index outside the array is a fault. *)
Definition arr_get {A} (l : list A) (i : Z) : res A :=
  if bool_decide (0 ≤ i) then
    match l !! Z.to_nat i with Some x => Ok x | None => Fault OutOfBounds end
  else Fault OutOfBounds.

Definition arr_set {A} (l : list A) (i : Z) (x : A) : res (list A) :=
  if bool_decide (0 ≤ i < Z.of_nat (length l)) then Ok (<[Z.to_nat i:=x]> l)
  else Fault OutOfBounds.

(** ** Automation *)

(** The hints for sizes and offsets that are in the range of their type. *)
Create HintDb width discriminated.
Create Rewrite HintDb width_rw.

(** Inverts the results of the monads that appear in the hypotheses. *)
Ltac res_inv :=
  repeat match goal with
  | H : Ok _ = Ok _ |- _ => injection H as H
  | H : Fault _ = Fault _ |- _ => injection H as H
  | H : Ok _ = Fault _ |- _ => discriminate H
  | H : Fault _ = Ok _ |- _ => discriminate H
  | H : (_, _) = (_, _) |- _ => injection H as H
  | H : Some _ = Some _ |- _ => injection H as H
  end; subst.

(** Splits the boolean tests of the code into their two cases. *)
Ltac cases :=
  repeat match goal with
  | |- context [bool_decide ?P] => destruct (bool_decide_reflect P)
  | |- context [Z.ltb ?x ?y] => destruct (Z.ltb_spec x y)
  | |- context [Z.leb ?x ?y] => destruct (Z.leb_spec x y)
  | |- context [Z.eqb ?x ?y] => destruct (Z.eqb_spec x y)
  end.

(** ** Lemmas *)

Lemma NL_NUL : NL ≠ NUL.
Proof. done. Qed.

Lemma u8_small x : 0 ≤ x < 2 ^ 8 → u8 x = x.
Proof. apply Z.mod_small. Qed.

Lemma u64_small x : 0 ≤ x < 2 ^ 64 → u64 x = x.
Proof. apply Z.mod_small. Qed.

Lemma u64_range x : 0 ≤ u64 x < 2 ^ 64.
Proof. apply Z.mod_pos_bound. lia. Qed.

Lemma i64_small x : - 2 ^ 63 ≤ x < 2 ^ 63 → i64 x = x.
Proof. intros ?. unfold i64. rewrite Z.mod_small; lia. Qed.

Lemma i32_small x : - 2 ^ 31 ≤ x < 2 ^ 31 → i32 x = x.
Proof. intros ?. unfold i32. rewrite Z.mod_small; lia. Qed.

#[export] Hint Resolve u64_range : width.
#[export] Hint Rewrite u8_small u64_small i64_small i32_small
  using (repeat split; lia) : width_rw.

Lemma arr_get_ok {A} (l : list A) i x :
  arr_get l i = Ok x ↔ 0 ≤ i ∧ l !! Z.to_nat i = Some x.
Proof.
  unfold arr_get. cases; [|naive_solver].
  destruct (l !! Z.to_nat i); naive_solver.
Qed.

Lemma arr_get_nat {A} (l : list A) (i : nat) x :
  l !! i = Some x → arr_get l (Z.of_nat i) = Ok x.
Proof. intros ?. apply arr_get_ok. rewrite Nat2Z.id. eauto with lia. Qed.

Lemma arr_get_in_range {A} (l : list A) i :
  0 ≤ i < Z.of_nat (length l) → ∃ x, arr_get l i = Ok x ∧ l !! Z.to_nat i = Some x.
Proof.
  intros ?. destruct (lookup_lt_is_Some_2 l (Z.to_nat i)) as [x Hx]; [lia|].
  exists x. split; [apply arr_get_ok; eauto with lia|done].
Qed.

Lemma arr_get_out {A} (l : list A) i :
  Z.of_nat (length l) ≤ i → arr_get l i = Fault OutOfBounds.
Proof.
  intros ?. unfold arr_get. cases; [|done].
  rewrite lookup_ge_None_2; [done|lia].
Qed.

Lemma arr_set_ok {A} (l : list A) i x :
  0 ≤ i < Z.of_nat (length l) → arr_set l i x = Ok (<[Z.to_nat i:=x]> l).
Proof. intros ?. unfold arr_set. by rewrite bool_decide_eq_true_2. Qed.

Lemma arr_set_out {A} (l : list A) i x :
  Z.of_nat (length l) ≤ i → arr_set l i x = Fault OutOfBounds.
Proof. intros ?. unfold arr_set. rewrite bool_decide_eq_false_2; [done|lia]. Qed.

Lemma res_bind_ok {A B} (m : res A) (k : A → res B) b :
  (m ≫= k) = Ok b ↔ ∃ a, m = Ok a ∧ k a = Ok b.
Proof. destruct m; naive_solver. Qed.

Lemma st_bind_ok {S A B} (m : st S A) (k : A → st S B) s r :
  (m ≫= k) s = Ok r ↔ ∃ a s', m s = Ok (a, s') ∧ k a s' = Ok r.
Proof. unfold mbind, st_bind. destruct (m s) as [[??]|]; naive_solver. Qed.

(** Runs the first operation of a sequence whose outcome is known. *)
Lemma st_bind_step {S A B} (m : st S A) (k : A → st S B) s a s' :
  m s = Ok (a, s') → (m ≫= k) s = k a s'.
Proof. unfold mbind, st_bind. by intros ->. Qed.

Lemma st_bind_fault {S A B} (m : st S A) (k : A → st S B) s f :
  m s = Fault f → (m ≫= k) s = Fault f.
Proof. unfold mbind, st_bind. by intros ->. Qed.

Lemma tail_drop {A} (l : list A) : tail l = drop 1 l.
Proof. by destruct l. Qed.

Lemma Forall2_Forall_impl {A B} (P Q : A → B → Prop) (U : A → Prop) l k :
  Forall2 P l k → Forall U l → (∀ x y, P x y → U x → Q x y) → Forall2 Q l k.
Proof.
  intros HP HU HQ. induction HP as [|x y l k Hxy _ IH]; inversion HU; subst; constructor; auto.
Qed.

(** The last ten elements, and how they change when one is added. *)
Definition last_ten {A} (l : list A) : list A := drop (length l - 10) l.

Lemma last_ten_app {A} (l k : list A) : last_ten (last_ten l ++ k) = last_ten (l ++ k).
Proof.
  unfold last_ten. rewrite !length_app, length_drop.
  destruct (decide (length l ≤ 10)%nat).
  - replace (length l - 10)%nat with 0%nat by lia. by rewrite drop_0, Nat.sub_0_r.
  - replace (length l + length k - 10)%nat with (length l - 10 + length k)%nat by lia.
    rewrite <-(drop_drop _ _ (length l - 10)), (drop_app_le _ _ (length l - 10)) by lia.
    f_equal. lia.
Qed.

Lemma last_ten_short {A} (l : list A) : (length l ≤ 10)%nat → last_ten l = l.
Proof. intros ?. unfold last_ten. by replace (length l - 10)%nat with 0%nat by lia. Qed.
