(* ===== verification/CMemory.v ===== *)
(** * C memory and strings

    The part of the C language and of its standard library that the drivers and
    the servers use: a heap of allocated blocks, reads and writes of bytes
    inside a block, and the string functions [strlen], [strstr], [strcpy] and
    [strcat].  A block may be longer than the size that was requested, as an
    allocator may return more than it was asked for; the bytes after the
    requested size are whatever was there.  A function that runs past the end of
    a block faults. *)
From Stdlib Require Import ZArith Lia.
From stdpp Require Import base tactics list gmap sets numbers strings.
From S2P Require Import Prelude.

(** ** Blocks and strings *)

Abbreviation block := (list Z) (only parsing).
Abbreviation heap := (gmap Z (list Z)) (only parsing).

(** The C string at the start of a block: the bytes before the first NUL, [None]
    when there is none in the block. *)
Fixpoint cstr (l : block) : option (list Z) :=
  match l with
  | [] => None
  | c :: l' => if c =? NUL then Some [] else cons c <$> cstr l'
  end.

(** The bytes of a string literal, without its NUL. *)
Definition text (s : string) : list Z :=
  (λ c, Z.of_nat (Ascii.nat_of_ascii c)) <$> String.list_ascii_of_string s.

(** The offset of the first occurrence of [needle]. *)
Fixpoint str_index (needle s : list Z) : option nat :=
  if bool_decide (take (length needle) s = needle) then Some O
  else match s with [] => None | _ :: s' => S <$> str_index needle s' end.

(** Stores the bytes [bs] from offset [off] of a block on. *)
Definition store_bytes (b : block) (off : nat) (bs : list Z) : res (list Z) :=
  if bool_decide (off + length bs ≤ length b)%nat
  then Ok (take off b ++ bs ++ drop (off + length bs) b)
  else Fault OutOfBounds.

Definition load_bytes (b : block) (n : Z) : res (list Z) :=
  if bool_decide (n ≤ Z.of_nat (length b)) then Ok (take (Z.to_nat n) b)
  else Fault OutOfBounds.

(** ** The heap *)

Definition block_at (h : heap) (p : Z) : res (list Z) :=
  if p =? NULL then Fault NullDeref
  else match h !! p with Some b => Ok b | None => Fault UseAfterFree end.

Definition cstring_at (h : heap) (p : Z) : res (list Z) :=
  b ← block_at h p;
  match cstr b with Some s => Ok s | None => Fault OutOfBounds end.

Definition store_at (h : heap) (p : Z) (off : nat) (bs : list Z) : res heap :=
  b ← block_at h p; b' ← store_bytes b off bs; Ok (<[p:=b']> h).

Definition strlen (h : heap) (p : Z) : res Z :=
  s ← cstring_at h p; Ok (Z.of_nat (length s)).

(** The offset found in the string, [None] for the null pointer. *)
Definition strstr (h : heap) (p : Z) (needle : list Z) : res (option nat) :=
  s ← cstring_at h p; Ok (str_index needle s).

Definition strcpy (h : heap) (dst src : Z) : res heap :=
  s ← cstring_at h src; store_at h dst 0 (s ++ [NUL]).

Definition strcat (h : heap) (dst src : Z) : res heap :=
  d ← cstring_at h dst; s ← cstring_at h src; store_at h dst (length d) (s ++ [NUL]).

(** [free] and [kfree]: the null pointer is accepted. *)
Definition free_block (h : heap) (p : Z) : res heap :=
  if p =? NULL then Ok h
  else match h !! p with Some _ => Ok (delete p h) | None => Fault BadFree end.

(** ** Lemmas *)

Create HintDb cmem discriminated.

Lemma cstr_app_nul s l : NUL ∉ s → cstr (s ++ NUL :: l) = Some s.
Proof.
  induction s as [|c s IH]; [done|]. rewrite not_elem_of_cons. intros [Hc Hs]. simpl.
  destruct (Z.eqb_spec c NUL); [congruence|]. by rewrite IH.
Qed.

Lemma cstr_Some l s : cstr l = Some s → NUL ∉ s ∧ l = s ++ (NUL :: drop (S (length s)) l).
Proof.
  revert s. induction l as [|c l IH]; intros s; simpl; [done|].
  destruct (Z.eqb_spec c NUL) as [->|Hc]; intros H; simplify_eq/=.
  - split; [apply not_elem_of_nil|]. by rewrite drop_0.
  - destruct (cstr l) as [s'|]; simplify_eq/=. destruct (IH s' eq_refl) as [Hs Hl].
    split; [rewrite not_elem_of_cons; auto|]. simpl in Hl. by rewrite <-Hl.
Qed.

Lemma cstr_is_Some l : is_Some (cstr l) ↔ NUL ∈ l.
Proof.
  split.
  - intros [s Hs]. apply cstr_Some in Hs as [_ ->]. set_solver.
  - induction l as [|c l IH]; [by intros ?%elem_of_nil|]. simpl.
    destruct (Z.eqb_spec c NUL); [eauto|].
    intros [?|Hl]%elem_of_cons; [congruence|]. destruct (IH Hl) as [s ->]. by eexists.
Qed.

Lemma cstr_None l : cstr l = None ↔ NUL ∉ l.
Proof. rewrite <-cstr_is_Some, <-eq_None_not_Some. done. Qed.

Lemma cstr_length l s : cstr l = Some s → (length s < length l)%nat.
Proof.
  intros [_ Hl]%cstr_Some. rewrite Hl, length_app. simpl. lia.
Qed.

(** The string of a block whose first [S n] bytes hold a NUL has at most [n]
    bytes. *)
Lemma cstr_bound l n :
  NUL ∈ take (S n) l → ∃ s, cstr l = Some s ∧ (length s ≤ n)%nat.
Proof.
  revert l. induction n as [|n IH]; intros [|c l]; simpl; try by intros ?%elem_of_nil.
  - destruct (Z.eqb_spec c NUL); [intros _; exists []; split; [done|simpl; lia]|].
    intros [?|?%elem_of_nil]%elem_of_cons; [congruence|done].
  - destruct (Z.eqb_spec c NUL); [intros _; exists []; split; [done|simpl; lia]|].
    intros [?|Hl]%elem_of_cons; [congruence|].
    destruct (IH l Hl) as (s & -> & ?). exists (c :: s). simpl. split; [done|lia].
Qed.

(** [strstr] for a one-character needle. *)
Lemma str_index_single c s : is_Some (str_index [c] s) ↔ c ∈ s.
Proof.
  induction s as [|x s IH].
  - simpl. split; [by intros []|by intros ?%elem_of_nil].
  - simpl. rewrite take_0, elem_of_cons. cases.
    + split; [|eauto]. intros _. left. congruence.
    + rewrite fmap_is_Some, IH. split; [by right|]. intros [?|?]; [congruence|done].
Qed.

Lemma str_index_single_None c s : str_index [c] s = None ↔ c ∉ s.
Proof. rewrite <-str_index_single, <-eq_None_not_Some. done. Qed.

Lemma store_bytes_ok b off bs :
  (off + length bs ≤ length b)%nat →
  store_bytes b off bs = Ok (take off b ++ bs ++ drop (off + length bs) b).
Proof. intros ?. unfold store_bytes. by rewrite bool_decide_eq_true_2. Qed.

Lemma load_bytes_ok b n :
  0 ≤ n ≤ Z.of_nat (length b) → load_bytes b n = Ok (take (Z.to_nat n) b).
Proof. intros ?. unfold load_bytes. rewrite bool_decide_eq_true_2; [done|lia]. Qed.

Lemma block_at_ok h p b : p ≠ NULL → h !! p = Some b → block_at h p = Ok b.
Proof. intros Hp Hb. unfold block_at. destruct (Z.eqb_spec p NULL); [done|]. by rewrite Hb. Qed.

Lemma block_at_freed h p : p ≠ NULL → h !! p = None → block_at h p = Fault UseAfterFree.
Proof. intros Hp Hb. unfold block_at. destruct (Z.eqb_spec p NULL); [done|]. by rewrite Hb. Qed.

Lemma cstring_at_ok h p b s :
  p ≠ NULL → h !! p = Some b → cstr b = Some s → cstring_at h p = Ok s.
Proof. intros Hp Hb Hs. unfold cstring_at. rewrite (block_at_ok h p b) by done. simpl. by rewrite Hs. Qed.

Lemma cstring_at_unterminated h p b :
  p ≠ NULL → h !! p = Some b → NUL ∉ b → cstring_at h p = Fault OutOfBounds.
Proof.
  intros Hp Hb Hs%cstr_None. unfold cstring_at. rewrite (block_at_ok h p b) by done.
  simpl. by rewrite Hs.
Qed.

Lemma free_block_ok h p b : h !! p = Some b → p ≠ NULL → free_block h p = Ok (delete p h).
Proof. intros Hb Hp. unfold free_block. destruct (Z.eqb_spec p NULL); [done|]. by rewrite Hb. Qed.

Lemma free_block_null h : free_block h NULL = Ok h.
Proof. done. Qed.

#[export] Hint Resolve block_at_ok cstring_at_ok free_block_ok : cmem.

(** [strcpy] and [strcat] into a block that is large enough. *)
Lemma strcpy_ok h dst p b b1 str :
  dst ≠ NULL → p ≠ NULL → h !! dst = Some b → h !! p = Some b1 → cstr b1 = Some str →
  (length str < length b)%nat →
  ∃ b', strcpy h dst p = Ok (<[dst:=b']> h) ∧ cstr b' = Some str ∧ length b' = length b.
Proof.
  intros Hd Hp Hb Hb1 Hs Hlen. destruct (cstr_Some _ _ Hs) as [Hn _].
  unfold strcpy, store_at. rewrite (cstring_at_ok h p b1 str) by done. simpl.
  rewrite (block_at_ok h dst b) by done. simpl.
  rewrite store_bytes_ok by (rewrite length_app; simpl; lia). simpl.
  eexists. split; [done|]. rewrite <-app_assoc. simpl.
  split; [by apply cstr_app_nul|].
  rewrite length_app. simpl. rewrite length_drop, length_app. simpl. lia.
Qed.

Lemma strcat_ok h dst p b b1 s1 s2 :
  dst ≠ NULL → p ≠ NULL → h !! dst = Some b → h !! p = Some b1 →
  cstr b = Some s1 → cstr b1 = Some s2 → (length s1 + length s2 < length b)%nat →
  ∃ b', strcat h dst p = Ok (<[dst:=b']> h) ∧ cstr b' = Some (s1 ++ s2) ∧ length b' = length b.
Proof.
  intros Hd Hp Hb Hb1 Hs1 Hs2 Hlen. destruct (cstr_Some _ _ Hs1) as [Hn1 E].
  destruct (cstr_Some _ _ Hs2) as [Hn2 _].
  unfold strcat, store_at. rewrite (cstring_at_ok h dst b s1) by done. simpl.
  rewrite (cstring_at_ok h p b1 s2) by done. simpl. rewrite (block_at_ok h dst b) by done. simpl.
  rewrite store_bytes_ok by (rewrite length_app; simpl; lia). simpl.
  eexists. split; [done|].
  assert (take (length s1) b = s1) as -> by (rewrite E; by rewrite take_app_length).
  rewrite <-(app_assoc s2), (app_assoc s1 s2). simpl. split; [apply cstr_app_nul; set_solver|].
  rewrite !length_app. simpl. rewrite length_drop. lia.
Qed.

Lemma strcpy_strcat h dst p1 p2 b b1 b2 s1 s2 :
  dst ≠ NULL → p1 ≠ NULL → p2 ≠ NULL → p1 ≠ dst → p2 ≠ dst →
  h !! dst = Some b → h !! p1 = Some b1 → h !! p2 = Some b2 →
  cstr b1 = Some s1 → cstr b2 = Some s2 →
  (length s1 + length s2 < length b)%nat →
  ∃ b', (h' ← strcpy h dst p1; strcat h' dst p2) = Ok (<[dst:=b']> h) ∧
        cstr b' = Some (s1 ++ s2) ∧ length b' = length b.
Proof.
  intros Hd H1 H2 Hd1 Hd2 Hb Hb1 Hb2 Hs1 Hs2 Hlen.
  destruct (strcpy_ok h dst p1 b b1 s1) as (b3 & -> & Hs3 & Hl3); try done; [lia|]. simpl.
  destruct (strcat_ok (<[dst:=b3]> h) dst p2 b3 b2 s1 s2) as (b4 & -> & Hs4 & Hl4); try done;
    [apply lookup_insert_eq|by rewrite lookup_insert_ne|lia|].
  exists b4. rewrite insert_insert_eq, Hl4. done.
Qed.
