(* ===== verification/Kernel.v ===== *)
(** * The kernel services the character driver calls

    The kernel is not part of the repository: each service is an operation of a
    class, and what the driver relies on is a law of the class that goes with
    it.  [Kernel] is memory ([kmalloc] and the two user copies), [RwSem] is the
    reader/writer semaphore with its try-lock calls, [Chrdev] is the registry of
    character devices, [Vfs] is what [open], [read] and [write] do around the
    handlers of a file.  The instances at the end of the file satisfy the laws;
    they are used for concrete executions only. *)
From Stdlib Require Import ZArith Lia.
From stdpp Require Import base tactics list gmap sets numbers.
From S2P Require Import Prelude CMemory.

(** ** User memory *)

(** The bytes of the user's address space that are mapped. *)
Abbreviation umem := (gmap Z Z) (only parsing).

Fixpoint umem_read (u : umem) (p : Z) (n : nat) : option (list Z) :=
  match n with
  | O => Some []
  | S n' => c ← u !! p; bs ← umem_read u (p + 1) n'; Some (c :: bs)
  end.

Fixpoint umem_write (u : umem) (p : Z) (bs : list Z) : umem :=
  match bs with
  | [] => u
  | c :: bs' => umem_write (<[p:=c]> u) (p + 1) bs'
  end.

(** ** Services *)

(** A bound on the size of the blocks of [kmalloc], far above
    [KMALLOC_MAX_SIZE] on every architecture. *)
Definition KMALLOC_LIMIT : Z := 2 ^ 32.

(** What [kmalloc] returns for 0 bytes.  No other block is there or below
    ([ZERO_OR_NULL_PTR]) and nothing there can be read or written: its block is
    empty. *)
Definition ZERO_SIZE_PTR : Z := 16.

(** [kmalloc t h n]: the pointer and the block for the [t]-th allocation of [n]
    bytes on heap [h], or [None] when it fails.  [copy_from_user t u p n]: the
    [n] bytes stored in the destination and the number of bytes that could not
    be read.  [copy_to_user t u p bs]: the user memory and the number of bytes
    that could not be written.  The counter [t] leaves the outcome of every call
    free.  The laws of [kmalloc] are for a positive size. *)
Class Kernel : Type := {
  kmalloc : nat → heap → Z → option (Z * block);
  copy_from_user : nat → umem → Z → nat → list Z * Z;
  copy_to_user : nat → umem → Z → list Z → umem * Z
}.

Class KernelOk (K : Kernel) : Prop := {
  kmalloc_fresh t h n p b : 0 < n → kmalloc t h n = Some (p, b) → h !! p = None;
  kmalloc_not_zero_size t h n p b :
    0 < n → kmalloc t h n = Some (p, b) → ZERO_SIZE_PTR < p;
  kmalloc_size t h n p b : 0 < n → kmalloc t h n = Some (p, b) → n ≤ Z.of_nat (length b);
  kmalloc_max t h n p b : 0 < n → kmalloc t h n = Some (p, b) →
    Z.of_nat (length b) ≤ KMALLOC_LIMIT;
  copy_from_user_length t u p n bs left :
    copy_from_user t u p n = (bs, left) → length bs = n;
  copy_from_user_all t u p n bs :
    copy_from_user t u p n = (bs, 0) → umem_read u p n = Some bs;
  copy_from_user_mapped t u p n :
    (∀ a, p ≤ a < p + Z.of_nat n → is_Some (u !! a)) → (copy_from_user t u p n).2 = 0;
  copy_to_user_all t u p bs u' :
    copy_to_user t u p bs = (u', 0) → u' = umem_write u p bs;
  copy_to_user_mapped t u p bs :
    (∀ a, p ≤ a < p + Z.of_nat (length bs) → is_Some (u !! a)) →
    (copy_to_user t u p bs).2 = 0
}.

(** A byte, and the values of [size_t] and of a pointer. *)
Definition byte (c : Z) : Prop := 0 ≤ c < 2 ^ 8.
Definition word (n : Z) : Prop := 0 ≤ n < 2 ^ 64.

(** What memory holds and the pointers to it have their types. *)
Class KernelTyped (K : Kernel) : Prop := {
  kmalloc_typed t h n p b : kmalloc t h n = Some (p, b) → word p ∧ Forall byte b;
  copy_from_user_typed t u p n bs left :
    map_Forall (λ _, byte) u → copy_from_user t u p n = (bs, left) → Forall byte bs;
  copy_to_user_typed t u p bs u' left :
    map_Forall (λ _, byte) u → Forall byte bs → copy_to_user t u p bs = (u', left) →
    map_Forall (λ _, byte) u'
}.

(** The try-lock calls return 1 on success; [readers] and [writer] say who holds
    the semaphore. *)
Class RwSem : Type := {
  rw_semaphore : Type;
  init_rwsem : rw_semaphore;
  down_read_trylock : rw_semaphore → Z * rw_semaphore;
  up_read : rw_semaphore → rw_semaphore;
  down_write_trylock : rw_semaphore → Z * rw_semaphore;
  up_write : rw_semaphore → rw_semaphore;
  readers : rw_semaphore → nat;
  writer : rw_semaphore → bool
}.

Class RwSemOk (R : RwSem) : Prop := {
  init_rwsem_free : readers init_rwsem = O ∧ writer init_rwsem = false;
  down_read_held s s' : down_read_trylock s = (1, s') →
    writer s = false ∧ readers s' = S (readers s) ∧ writer s' = false;
  down_read_contended s r s' : down_read_trylock s = (r, s') → r ≠ 1 →
    readers s' = readers s ∧ writer s' = writer s;
  down_read_free s : writer s = false → readers s = O → (down_read_trylock s).1 = 1;
  up_read_held s : readers (up_read s) = pred (readers s) ∧ writer (up_read s) = writer s;
  down_write_held s s' : down_write_trylock s = (1, s') →
    writer s = false ∧ readers s = O ∧ readers s' = O ∧ writer s' = true;
  down_write_contended s r s' : down_write_trylock s = (r, s') → r ≠ 1 →
    readers s' = readers s ∧ writer s' = writer s;
  down_write_free s : writer s = false → readers s = O → (down_write_trylock s).1 = 1;
  up_write_held s : readers (up_write s) = readers s ∧ writer (up_write s) = false
}.

(** The registry of character devices.  [alloc_chrdev_region] returns the error
    code, the first device number and the registry. *)
Class Chrdev : Type := {
  registry : Type;
  alloc_chrdev_region : registry → Z → Z → Z * Z * registry;
  unregister_chrdev_region : registry → Z → Z → registry;
  cdev_add : registry → Z → Z → Z * registry;
  cdev_del : registry → Z → registry;
  MAJOR : Z → Z;
  MKDEV : Z → Z → Z
}.

Class ChrdevOk (C : Chrdev) : Prop := {
  alloc_chrdev_region_failed r minor n ret dev r' :
    alloc_chrdev_region r minor n = (ret, dev, r') → ret < 0 → r' = r;
  alloc_chrdev_region_undone r minor n ret dev r' :
    alloc_chrdev_region r minor n = (ret, dev, r') → 0 ≤ ret →
    unregister_chrdev_region r' dev n = r;
  alloc_chrdev_region_dev r minor n ret dev r' :
    alloc_chrdev_region r minor n = (ret, dev, r') → 0 ≤ ret →
    MKDEV (MAJOR dev) minor = dev;
  cdev_add_failed r dev n err r' : cdev_add r dev n = (err, r') → err ≠ 0 → r' = r;
  cdev_add_undone r dev n r' : cdev_add r dev n = (0, r') → cdev_del r' dev = r
}.

(** A request of 0 bytes. *)
Class KernelZero (K : Kernel) : Prop :=
  kmalloc_zero t h : kmalloc t h 0 = Some (ZERO_SIZE_PTR, []).

(** The calls of a process on a file: the descriptor of a file just opened, from
    the set of those in use, and the position that is stored after a call that
    returns [ret], from the position before and the one the handler left in
    [*f_pos]. *)
Class Vfs : Type := {
  get_unused_fd : gset Z → Z;
  store_pos : Z → Z → Z → Z
}.

Class VfsOk (V : Vfs) : Prop := {
  get_unused_fd_fresh X : get_unused_fd X ∉ X;
  store_pos_done ret old new : 0 ≤ ret → store_pos ret old new = new;
  store_pos_failed ret old new : ret < 0 → store_pos ret old new = old
}.

(** ** Instances for concrete executions *)

(** Every block is followed by the bytes [slack] of an earlier use of the memory;
    an allocation fails when the address of its turn is in use or the block or the
    address too large. *)
Definition demo_kernel (slack : list Z) : Kernel := {|
  kmalloc t h n :=
    let p := 4096 * (Z.of_nat t + 1) in
    if n =? 0 then Some (ZERO_SIZE_PTR, [])
    else if bool_decide (Z.of_nat (Z.to_nat n + length slack) ≤ KMALLOC_LIMIT ∧ p < 2 ^ 64) then
      match h !! p with
      | Some _ => None
      | None => Some (p, replicate (Z.to_nat n) 170 ++ slack)
      end
    else None;
  copy_from_user t u p n :=
    match umem_read u p n with
    | Some bs => (bs, 0)
    | None => (replicate n 0, Z.of_nat n + 1)
    end;
  copy_to_user t u p bs :=
    match umem_read u p (length bs) with
    | Some _ => (umem_write u p bs, 0)
    | None => (u, Z.of_nat (length bs) + 1)
    end
|}.

(** A number above [k] and those of a list. *)
Definition above (k : Z) (l : list Z) : Z := foldr Z.max k l + 1.

(** A kernel that always has memory: the block is at an address above those in
    use and one byte longer than requested. *)
Definition roomy_kernel : Kernel := {|
  kmalloc t h n :=
    if n =? 0 then Some (ZERO_SIZE_PTR, [])
    else if bool_decide (0 < n < KMALLOC_LIMIT)
    then Some (above ZERO_SIZE_PTR (map_to_list h).*1, replicate (Z.to_nat n) 170 ++ [NUL])
    else None;
  copy_from_user := @copy_from_user (demo_kernel []);
  copy_to_user := @copy_to_user (demo_kernel [])
|}.

#[export] Instance demo_vfs : Vfs := {|
  get_unused_fd X := above 2 (elements X);
  store_pos ret old new := if ret <? 0 then old else new
|}.

#[export] Instance demo_rwsem : RwSem := {|
  rw_semaphore := nat * bool;
  init_rwsem := (O, false);
  down_read_trylock s := if s.2 then (0, s) else (1, (S s.1, false));
  up_read s := (pred s.1, s.2);
  down_write_trylock s :=
    match s with (O, false) => (1, (O, true)) | _ => (0, s) end;
  up_write s := (s.1, false);
  readers s := s.1;
  writer s := s.2
|}.

(** One device at most; the registry says whether its region and its entry are
    taken. *)
#[export] Instance demo_chrdev : Chrdev := {|
  registry := bool * bool;
  alloc_chrdev_region r minor n :=
    if r.1 then (-16, 0, r) else (0, 240 * 2 ^ 20 + minor, (true, r.2));
  unregister_chrdev_region r dev n := (false, r.2);
  cdev_add r dev n := if r.2 then (-16, r) else (0, (r.1, true));
  cdev_del r dev := (r.1, false);
  MAJOR dev := 240;
  MKDEV ma mi := ma * 2 ^ 20 + mi
|}.

(** ** Lemmas *)

Lemma umem_read_length u p n bs : umem_read u p n = Some bs → length bs = n.
Proof.
  revert p bs. induction n as [|n IH]; intros p bs; simpl; [by intros [= <-]|].
  destruct (u !! p); simpl; [|done].
  destruct (umem_read u (p + 1) n) as [bs'|] eqn:E; simpl; [|done].
  intros [= <-]. simpl. by rewrite (IH _ _ E).
Qed.

Lemma umem_read_typed u p n bs :
  map_Forall (λ _, byte) u → umem_read u p n = Some bs → Forall byte bs.
Proof.
  intros Hu. revert p bs. induction n as [|n IH]; intros p bs; simpl; [by intros [= <-]|].
  destruct (u !! p) as [c|] eqn:Hc; simpl; [|done].
  destruct (umem_read u (p + 1) n) as [bs'|] eqn:E; simpl; [|done].
  intros [= <-]. constructor; [by apply (Hu p)|by eapply IH].
Qed.

Lemma umem_write_typed u p bs :
  map_Forall (λ _, byte) u → Forall byte bs → map_Forall (λ _, byte) (umem_write u p bs).
Proof.
  intros Hu Hbs. revert u p Hu. induction Hbs as [|c bs Hc _ IH]; intros u p Hu; simpl; [done|].
  by apply IH, map_Forall_insert_2.
Qed.

Lemma umem_read_mapped u p n :
  (∀ a, p ≤ a < p + Z.of_nat n → is_Some (u !! a)) → is_Some (umem_read u p n).
Proof.
  revert p. induction n as [|n IH]; intros p Hu; simpl; [eauto|].
  destruct (Hu p) as [c ->]; [lia|]. simpl.
  destruct (IH (p + 1)) as [bs ->]; [|eauto]. intros a Ha. apply Hu. lia.
Qed.

Lemma umem_read_addresses u p n bs :
  umem_read u p n = Some bs → ∀ a, p ≤ a < p + Z.of_nat n → is_Some (u !! a).
Proof.
  revert p bs. induction n as [|n IH]; intros p bs; simpl; [lia|].
  destruct (u !! p) as [c|] eqn:Hc; simpl; [|done].
  destruct (umem_read u (p + 1) n) as [bs'|] eqn:E; simpl; [|done]. intros _ a Ha.
  destruct (decide (a = p)) as [->|]; [by eexists|]. apply (IH _ _ E). lia.
Qed.

Lemma umem_write_ne u p bs q :
  q < p ∨ p + Z.of_nat (length bs) ≤ q → umem_write u p bs !! q = u !! q.
Proof.
  revert u p. induction bs as [|c bs IH]; intros u p; simpl; [done|].
  intros Hq. rewrite IH by lia. apply lookup_insert_ne. lia.
Qed.

Lemma umem_write_lookup u p bs i :
  (i < length bs)%nat → umem_write u p bs !! (p + Z.of_nat i) = bs !! i.
Proof.
  revert u p i. induction bs as [|c bs IH]; intros u p [|i]; simpl; [lia..| |].
  - intros _. rewrite Z.add_0_r, umem_write_ne by lia. apply lookup_insert_eq.
  - intros Hi. rewrite <-(IH (<[p:=c]> u) (p + 1)) by lia. f_equal. lia.
Qed.

Lemma umem_write_mapped u p bs a : is_Some (u !! a) → is_Some (umem_write u p bs !! a).
Proof.
  revert u p. induction bs as [|c bs IH]; intros u p Ha; simpl; [done|].
  apply IH, lookup_insert_is_Some'. by right.
Qed.

Lemma umem_read_write u p bs n :
  (n ≤ length bs)%nat → umem_read (umem_write u p bs) p n = Some (take n bs).
Proof.
  revert u p n. induction bs as [|c bs IH]; intros u p [|n]; simpl; try done; [lia|].
  intros Hn. rewrite umem_write_ne, lookup_insert_eq by lia. simpl.
  rewrite IH by lia. done.
Qed.

#[export] Instance demo_kernel_ok slack : KernelOk (demo_kernel slack).
Proof.
  split; simpl; intros;
    try (destruct (Z.eqb_spec n 0); [lia|]; case_bool_decide; [|done];
         destruct (h !! _) eqn:E; simplify_eq; rewrite ?length_app, ?length_replicate).
  - done.
  - unfold ZERO_SIZE_PTR. lia.
  - lia.
  - unfold KMALLOC_LIMIT in *. lia.
  - destruct (umem_read u p n) eqn:E; simplify_eq; eauto using umem_read_length, length_replicate.
  - destruct (umem_read u p n); simplify_eq; [done|lia].
  - by destruct (umem_read_mapped u p n) as [? ->].
  - destruct (umem_read u p _); simplify_eq; [done|lia].
  - by destruct (umem_read_mapped u p (length bs)) as [? ->].
Qed.

Lemma demo_kernel_typed slack : Forall byte slack → KernelTyped (demo_kernel slack).
Proof.
  intros Hs. split; simpl; intros.
  - destruct (Z.eqb_spec n 0); [simplify_eq; by split|].
    case_bool_decide as Hd; [|done]. destruct (h !! _); simplify_eq.
    split; [unfold word; lia|]. apply Forall_app. split; [|done].
    apply Forall_replicate. unfold byte. lia.
  - destruct (umem_read u p n) eqn:E; simplify_eq; [by eapply umem_read_typed|].
    apply Forall_replicate. unfold byte. lia.
  - destruct (umem_read u p _); simplify_eq; [by apply umem_write_typed|done].
Qed.

#[export] Instance demo_rwsem_ok : RwSemOk demo_rwsem.
Proof.
  split; simpl; try done.
  - intros [n []] s'; simpl; intros; by simplify_eq.
  - intros [n []] r s'; simpl; intros; by simplify_eq.
  - intros [n []]; naive_solver.
  - intros [[] []] s'; simpl; intros; by simplify_eq.
  - intros [[] []] r s'; simpl; intros; by simplify_eq.
  - intros [[] []]; naive_solver.
Qed.

#[export] Instance demo_chrdev_ok : ChrdevOk demo_chrdev.
Proof.
  split; simpl.
  - intros [[] []] ? ? ? ? ? ?; simplify_eq/=; done || lia.
  - intros [[] []] ? ? ? ? ? ?; simplify_eq/=; done || lia.
  - intros [[] []] ? ? ? ? ? ?; simplify_eq/=; done || lia.
  - intros [? []] ? ? ? ? ?; by simplify_eq/=.
  - intros [? []] ? ? ? ?; by simplify_eq/=.
Qed.

#[export] Instance demo_kernel_zero slack : KernelZero (demo_kernel slack).
Proof. by intros t h. Qed.

(** A block of [kmalloc] is not at the null pointer. *)
Lemma kmalloc_not_null `{K : Kernel, !KernelOk K} t h n p b :
  0 < n → kmalloc t h n = Some (p, b) → p ≠ NULL.
Proof. intros Hn Hm. pose proof (kmalloc_not_zero_size t h n p b Hn Hm). by intros ->. Qed.

Lemma above_bound k l x : x = k ∨ x ∈ l → x < above k l.
Proof.
  unfold above. induction l as [|y l IH]; simpl; [intros [->|?%elem_of_nil]; [lia|done]|].
  intros Hx. destruct (decide (x = y)) as [->|]; [lia|].
  assert (x = k ∨ x ∈ l) as Hl by set_solver. specialize (IH Hl). lia.
Qed.

Lemma above_fresh k l : above k l ∉ l.
Proof. intros Hx. pose proof (above_bound k l _ (or_intror Hx)). lia. Qed.

#[export] Instance roomy_kernel_ok : KernelOk roomy_kernel.
Proof.
  split; try apply (demo_kernel_ok []); simpl; intros t h n p b Hn;
    (destruct (Z.eqb_spec n 0); [lia|]);
    case_bool_decide; try done; intros [= <- <-]; rewrite ?length_app, ?length_replicate; simpl.
  - apply eq_None_not_Some. intros [b Hb].
    apply (above_fresh ZERO_SIZE_PTR (map_to_list h).*1), list_elem_of_fmap.
    exists (above ZERO_SIZE_PTR (map_to_list h).*1, b).
    split; [done|]. by apply elem_of_map_to_list.
  - apply above_bound. by left.
  - lia.
  - unfold KMALLOC_LIMIT in *. lia.
Qed.

#[export] Instance demo_vfs_ok : VfsOk demo_vfs.
Proof.
  split; simpl; intros.
  - rewrite <-elem_of_elements. apply above_fresh.
  - by destruct (Z.ltb_spec ret 0); [lia|].
  - by destruct (Z.ltb_spec ret 0); [|lia].
Qed.
