(* ===== verification/CircularBuffer.v ===== *)
(** * The circular buffer of the character driver

    Models [src/aesd-char-driver/aesd-circular-buffer.c] and [.h]: the ring of
    the last ten write operations, with its array of entries, the two [uint8_t]
    offsets and the [full] flag.  The abstract state is the list of the live
    entries, oldest first ([view]); [add_entry] refines a bounded push on it
    and [find_entry_offset_for_fpos] a search in it.  The file also states what
    the search that fails does to the ring. *)
From Stdlib Require Import ZArith Lia.
From stdpp Require Import base tactics list gmap sets numbers.
From S2P Require Import Prelude.

(** ** Data *)

Definition AESDCHAR_MAX_WRITE_OPERATIONS_SUPPORTED : Z := 10.
Definition ENTRY_SIZE : Z := AESDCHAR_MAX_WRITE_OPERATIONS_SUPPORTED.

Record aesd_buffer_entry : Type := mkEntry {
  buffptr : Z;
  size : Z
}.

Record aesd_circular_buffer : Type := mkBuffer {
  entry : list aesd_buffer_entry;
  in_offs : Z;
  out_offs : Z;
  full : bool
}.

#[export] Instance aesd_buffer_entry_eq_dec : EqDecision aesd_buffer_entry.
Proof. solve_decision. Defined.
#[export] Instance aesd_circular_buffer_eq_dec : EqDecision aesd_circular_buffer.
Proof. solve_decision. Defined.

(** The entry of an all-zero memory: [{0,}]. *)
Definition zero_entry : aesd_buffer_entry := mkEntry NULL 0.

(** ** Operations *)

(** The [for] loop of the search: [n] is the number of iterations left.  The
    result is the slot whose address is returned with the value stored
    through [entry_offset_byte_rtn], or [None] when the loop runs to its end. *)
Fixpoint find_loop (n : nat) (buffer : aesd_circular_buffer) (offset char_offset : Z)
    : res (option (Z * Z)) :=
  match n with
  | O => Ok None
  | S n' =>
    e ← arr_get (entry buffer) offset;
    if char_offset <? size e then Ok (Some (offset, char_offset))
    else find_loop n' buffer (u8 (Z.rem (offset + 1) ENTRY_SIZE))
           (u64 (char_offset - size e))
  end.

(** Returns the slot found ([None] for the null pointer), the value of
    [*entry_offset_byte_rtn] at the exit, and the buffer, which a failed search
    changes. *)
Definition aesd_circular_buffer_find_entry_offset_for_fpos
    (buffer : aesd_circular_buffer) (char_offset entry_offset_byte_rtn : Z)
    : res (option Z * Z * aesd_circular_buffer) :=
  r ← find_loop (Z.to_nat ENTRY_SIZE) buffer (out_offs buffer) char_offset;
  match r with
  | Some (offset, byte) => Ok (Some offset, byte, buffer)
  | None => Ok (None, entry_offset_byte_rtn, mkBuffer (entry buffer) 0 0 false)
  end.

(** Returns the entry that was overwritten (all zero when the buffer was not
    full) and the new buffer. *)
Definition aesd_circular_buffer_add_entry
    (buffer : aesd_circular_buffer) (add_entry : aesd_buffer_entry)
    : res (aesd_buffer_entry * aesd_circular_buffer) :=
  p ← (if full buffer
       then e ← arr_get (entry buffer) (out_offs buffer);
            Ok (e, u8 (Z.rem (out_offs buffer + 1) ENTRY_SIZE))
       else Ok (zero_entry, out_offs buffer));
  let '(evicted, out') := (p : aesd_buffer_entry * Z) in
  entry' ← arr_set (entry buffer) (in_offs buffer) add_entry;
  let in' := u8 (Z.rem (in_offs buffer + 1) ENTRY_SIZE) in
  let full' := if in' =? out' then true else full buffer in
  Ok (evicted, mkBuffer entry' in' out' full').

(** [memset] to zero; the contents of the buffer before do not matter. *)
Definition aesd_circular_buffer_init (_ : aesd_circular_buffer)
    : aesd_circular_buffer :=
  mkBuffer (replicate (Z.to_nat ENTRY_SIZE) zero_entry) 0 0 false.

(** The body of [AESD_CIRCULAR_BUFFER_FOREACH] applied to the slots in the
    order of the macro: index 0 up to the last slot, whatever the offsets. *)
Fixpoint foreach_loop {A} (n : nat) (buffer : aesd_circular_buffer) (index : Z)
    (body : Z → aesd_buffer_entry → A → res A) (a : A) : res A :=
  match n with
  | O => Ok a
  | S n' =>
    if index <? AESDCHAR_MAX_WRITE_OPERATIONS_SUPPORTED then
      e ← arr_get (entry buffer) index;
      a' ← body index e a;
      foreach_loop n' buffer (u8 (index + 1)) body a'
    else Ok a
  end.

Definition AESD_CIRCULAR_BUFFER_FOREACH {A} (buffer : aesd_circular_buffer)
    (body : Z → aesd_buffer_entry → A → res A) (a : A) : res A :=
  foreach_loop (S (Z.to_nat AESDCHAR_MAX_WRITE_OPERATIONS_SUPPORTED)) buffer 0 body a.

(** ** Abstract state *)

(** The ten slots in the order in which the search visits them. *)
Definition slots (b : aesd_circular_buffer) : list aesd_buffer_entry :=
  rotate (Z.to_nat (out_offs b)) (entry b).

(** How many slots are live, from the offsets and the flag. *)
Definition count (b : aesd_circular_buffer) : nat :=
  if full b then Z.to_nat ENTRY_SIZE
  else Z.to_nat ((in_offs b - out_offs b) mod ENTRY_SIZE).

(** The live entries, oldest first. *)
Definition view (b : aesd_circular_buffer) : list aesd_buffer_entry :=
  take (count b) (slots b).

(** Well-formedness of the representation: the offsets are in the array. *)
Record wf (b : aesd_circular_buffer) : Prop := {
  wf_length : length (entry b) = Z.to_nat ENTRY_SIZE;
  wf_in : 0 ≤ in_offs b < ENTRY_SIZE;
  wf_out : 0 ≤ out_offs b < ENTRY_SIZE;
  wf_full : full b = true → in_offs b = out_offs b;
  wf_size : Forall (λ e, 0 ≤ size e < 2 ^ 64) (entry b)
}.

(** The slots that are not live are zero, as [init] left them. *)
Definition clean (b : aesd_circular_buffer) : Prop :=
  Forall (λ e, e = zero_entry) (drop (count b) (slots b)).

(** The specification of [add_entry]: a bounded push at the end. *)
Definition push_bounded (h : list aesd_buffer_entry) (e : aesd_buffer_entry)
    : aesd_buffer_entry * list aesd_buffer_entry :=
  if bool_decide (length h = Z.to_nat ENTRY_SIZE)
  then (default zero_entry (head h), tail h ++ [e])
  else (zero_entry, h ++ [e]).

(** The specification of the search: which entry, and which byte of it, holds
    the byte number [off] of the entries laid end to end. *)
Fixpoint locate (l : list aesd_buffer_entry) (off : Z) : option (nat * Z) :=
  match l with
  | [] => None
  | e :: l' =>
    if off <? size e then Some (O, off)
    else (λ p, (S p.1, p.2)) <$> locate l' (off - size e)
  end.

Definition total_size (l : list aesd_buffer_entry) : Z :=
  foldr (λ e n, size e + n) 0 l.

(** The slot number of the [k]-th slot in search order. *)
Definition slot_of (b : aesd_circular_buffer) (k : nat) : Z :=
  (out_offs b + Z.of_nat k) mod ENTRY_SIZE.

(** A buffer initialised on top of arbitrary memory, and one after twelve
    insertions, for the concrete instances below. *)
Definition init_buffer : aesd_circular_buffer :=
  aesd_circular_buffer_init (mkBuffer [] 255 7 true).

Definition line (k : Z) : aesd_buffer_entry := mkEntry (1000 + k) (k + 1).

Definition wrapped_buffer : aesd_circular_buffer :=
  mkBuffer (line <$> [10; 11; 2; 3; 4; 5; 6; 7; 8; 9]) 2 2 true.

(** The entries added one after the other, with what each call returned. *)
Fixpoint add_all (b : aesd_circular_buffer) (es : list aesd_buffer_entry)
    : res (list aesd_buffer_entry * aesd_circular_buffer) :=
  match es with
  | [] => Ok ([], b)
  | e :: es' =>
    r ← aesd_circular_buffer_add_entry b e;
    r' ← add_all r.2 es';
    Ok (r.1 :: r'.1, r'.2)
  end.

(** The calls a user of the buffer can make, in any order. *)
Inductive ring_op : Type :=
| OpInit
| OpAdd (e : aesd_buffer_entry)
| OpFind (char_offset : Z).

Definition run_op (o : ring_op) (b : aesd_circular_buffer) : res aesd_circular_buffer :=
  match o with
  | OpInit => Ok (aesd_circular_buffer_init b)
  | OpAdd e => r ← aesd_circular_buffer_add_entry b e; Ok r.2
  | OpFind off =>
    r ← aesd_circular_buffer_find_entry_offset_for_fpos b off 0; Ok r.2
  end.

(** The arguments are values of their C types. *)
Definition op_typed (o : ring_op) : Prop :=
  match o with
  | OpInit => True
  | OpAdd e => 0 ≤ size e < 2 ^ 64
  | OpFind off => 0 ≤ off < 2 ^ 64
  end.

Fixpoint run_ops (os : list ring_op) (b : aesd_circular_buffer) : res aesd_circular_buffer :=
  match os with
  | [] => Ok b
  | o :: os' => b' ← run_op o b; run_ops os' b'
  end.

Create HintDb ring discriminated.

(** ** Offsets *)

Lemma entry_size_nat : Z.to_nat ENTRY_SIZE = 10%nat.
Proof. done. Qed.

(** The offsets of the code stay in the ring and their [uint8_t] never wraps. *)
Lemma next_offset x :
  0 ≤ x < ENTRY_SIZE → u8 (Z.rem (x + 1) ENTRY_SIZE) = (x + 1) mod ENTRY_SIZE.
Proof.
  unfold ENTRY_SIZE, AESDCHAR_MAX_WRITE_OPERATIONS_SUPPORTED. intros ?.
  rewrite Z.rem_mod_nonneg by lia. apply u8_small.
  pose proof (Z.mod_pos_bound (x + 1) 10). lia.
Qed.

Lemma mod_offset x : 0 ≤ x mod ENTRY_SIZE < ENTRY_SIZE.
Proof. by apply Z.mod_pos_bound. Qed.

Lemma slot_of_range b k : 0 ≤ slot_of b k < ENTRY_SIZE.
Proof. apply mod_offset. Qed.

Lemma slot_of_lt b k : (Z.to_nat (slot_of b k) < 10)%nat.
Proof.
  pose proof (slot_of_range b k).
  unfold ENTRY_SIZE, AESDCHAR_MAX_WRITE_OPERATIONS_SUPPORTED in *. lia.
Qed.

(** The ten slots in search order are distinct. *)
Lemma slot_of_inj b i j :
  (i < 10)%nat → (j < 10)%nat → Z.to_nat (slot_of b i) = Z.to_nat (slot_of b j) → i = j.
Proof.
  intros ?? E. apply Z2Nat.inj in E; [|apply slot_of_range..]. revert E. unfold slot_of.
  unfold ENTRY_SIZE, AESDCHAR_MAX_WRITE_OPERATIONS_SUPPORTED in *.
  Z.to_euclidean_division_equations. lia.
Qed.

Lemma slot_of_10 b : slot_of b 10 = slot_of b 0.
Proof.
  unfold slot_of, ENTRY_SIZE, AESDCHAR_MAX_WRITE_OPERATIONS_SUPPORTED.
  by rewrite <-Z.add_mod_idemp_r.
Qed.

Lemma slot_of_nat b k :
  wf b → Z.to_nat (slot_of b k) =
    rotate_nat_add (Z.to_nat (out_offs b)) k (length (entry b)).
Proof.
  intros Hwf. unfold rotate_nat_add, slot_of.
  rewrite (wf_length b Hwf), Z2Nat.id by apply (wf_out b Hwf).
  by rewrite Z2Nat.id by (unfold ENTRY_SIZE, AESDCHAR_MAX_WRITE_OPERATIONS_SUPPORTED; lia).
Qed.

Lemma length_slots b : wf b → length (slots b) = 10%nat.
Proof. intros Hwf. unfold slots. by rewrite length_rotate, (wf_length b Hwf). Qed.

Lemma slots_lookup b k :
  wf b → (k < 10)%nat → slots b !! k = entry b !! Z.to_nat (slot_of b k).
Proof.
  intros Hwf Hk. unfold slots. rewrite slot_of_nat by done.
  apply lookup_rotate_r. rewrite (wf_length b Hwf), entry_size_nat. lia.
Qed.

Lemma slots_size b : wf b → Forall (λ e, 0 ≤ size e < 2 ^ 64) (slots b).
Proof.
  intros Hwf. pose proof (wf_size b Hwf) as H. rewrite list.Forall_forall in *.
  intros e. unfold slots. rewrite elem_of_rotate. apply H.
Qed.

Lemma slot_of_0 b : wf b → slot_of b 0 = out_offs b.
Proof.
  intros Hwf. unfold slot_of. rewrite Z.add_0_r. apply Z.mod_small, wf_out, Hwf.
Qed.

Lemma slot_of_S b k : u8 (Z.rem (slot_of b k + 1) ENTRY_SIZE) = slot_of b (S k).
Proof.
  rewrite next_offset by apply slot_of_range. unfold slot_of.
  rewrite Zplus_mod_idemp_l. f_equal. lia.
Qed.

Lemma arr_get_slot b k :
  wf b → (k < 10)%nat →
  ∃ e, arr_get (entry b) (slot_of b k) = Ok e ∧ slots b !! k = Some e ∧ 0 ≤ size e < 2 ^ 64.
Proof.
  intros Hwf Hk.
  destruct (arr_get_in_range (entry b) (slot_of b k)) as (e & He & Hl).
  { rewrite (wf_length b Hwf). apply slot_of_range. }
  pose proof (Forall_lookup_1 _ _ _ _ (wf_size b Hwf) Hl).
  exists e. by rewrite slots_lookup.
Qed.

(** ** The search *)

Lemma find_loop_spec b n k off :
  wf b → (k + n = 10)%nat → 0 ≤ off < 2 ^ 64 →
  find_loop n b (slot_of b k) off =
  Ok ((λ p, (slot_of b (k + p.1), p.2)) <$> locate (drop k (slots b)) off).
Proof.
  intros Hwf. revert k off. induction n as [|n IH]; intros k off Hk Hoff; simpl.
  - by rewrite drop_ge by (rewrite length_slots by done; lia).
  - destruct (arr_get_slot b k) as (e & -> & He & Hs); [done|lia|].
    rewrite (drop_S _ e) by done. simpl. destruct (Z.ltb_spec off (size e)); simpl.
    + by rewrite Nat.add_0_r.
    + rewrite slot_of_S, u64_small, IH by lia.
      destruct (locate _ _) as [[k' o]|]; simpl; [|done].
      by rewrite Nat.add_succ_r.
Qed.

(** The search on any well-formed buffer: it is [locate] on the slots in search
    order, and it resets the offsets and the flag when it fails. *)
Lemma find_slots b off rtn :
  wf b → 0 ≤ off < 2 ^ 64 →
  aesd_circular_buffer_find_entry_offset_for_fpos b off rtn =
  Ok (match locate (slots b) off with
      | Some (k, o) => (Some (slot_of b k), o, b)
      | None => (None, rtn, mkBuffer (entry b) 0 0 false)
      end).
Proof.
  intros Hwf Hoff. unfold aesd_circular_buffer_find_entry_offset_for_fpos.
  rewrite <-(slot_of_0 b) by done.
  rewrite (find_loop_spec b _ 0) by done. rewrite drop_0.
  by destruct (locate (slots b) off) as [[??]|].
Qed.

Lemma locate_app l1 l2 off :
  0 ≤ off → locate (l1 ++ l2) off =
  match locate l1 off with
  | Some p => Some p
  | None => (λ p, (length l1 + p.1, p.2)%nat) <$> locate l2 (off - total_size l1)
  end.
Proof.
  revert off. induction l1 as [|e l1 IH]; intros off Hoff; simpl.
  - rewrite Z.sub_0_r. by destruct (locate l2 off) as [[]|].
  - destruct (Z.ltb_spec off (size e)); [done|].
    rewrite IH by lia. destruct (locate l1 _) as [[]|]; simpl; [done|].
    rewrite Z.sub_add_distr. by destruct (locate l2 _) as [[]|].
Qed.

Lemma locate_zeros l off :
  Forall (λ e, e = zero_entry) l → 0 ≤ off → locate l off = None.
Proof.
  intros H. revert off. induction H as [|e l -> _ IH]; intros off Hoff; simpl; [done|].
  destruct (Z.ltb_spec off 0); [lia|]. by rewrite IH by lia.
Qed.

(** What [locate] promises: the entry and the byte are the ones of the
    concatenation. *)
Lemma locate_Some l off k o :
  0 ≤ off → locate l off = Some (k, o) →
  ∃ e, l !! k = Some e ∧ 0 ≤ o < size e ∧ off = total_size (take k l) + o.
Proof.
  revert off k. induction l as [|e l IH]; intros off k Hoff; simpl; [done|].
  destruct (Z.ltb_spec off (size e)); intros H'; simplify_eq/=; [eauto with lia|].
  destruct (locate l _) as [[k' o']|] eqn:E; simplify_eq/=.
  destruct (IH (off - size e) k') as (e' & ? & ? & ?); [lia|done|]. exists e'. split_and!; [done|lia..].
Qed.

Lemma total_size_app l1 l2 : total_size (l1 ++ l2) = total_size l1 + total_size l2.
Proof. induction l1; simpl; lia. Qed.

Lemma total_size_nonneg l : Forall (λ e, 0 ≤ size e) l → 0 ≤ total_size l.
Proof. induction 1; simpl; lia. Qed.

Lemma locate_None l off :
  Forall (λ e, 0 ≤ size e) l → 0 ≤ off → locate l off = None ↔ total_size l ≤ off.
Proof.
  intros H. revert off. induction H as [|e l He Hl IH]; intros off Hoff; simpl; [naive_solver lia|].
  destruct (Z.ltb_spec off (size e)).
  - split; [done|]. pose proof (total_size_nonneg l Hl). lia.
  - rewrite fmap_None, IH by lia. lia.
Qed.

(** ** The abstract state *)

Lemma count_le b : (count b ≤ 10)%nat.
Proof.
  unfold count. rewrite entry_size_nat. destruct (full b); [done|].
  pose proof (mod_offset (in_offs b - out_offs b)).
  unfold ENTRY_SIZE, AESDCHAR_MAX_WRITE_OPERATIONS_SUPPORTED in *. lia.
Qed.

Lemma count_full b : full b = true → count b = 10%nat.
Proof. unfold count. by intros ->. Qed.

Lemma count_not_full b : full b = false → (count b < 10)%nat.
Proof.
  unfold count. intros ->. pose proof (mod_offset (in_offs b - out_offs b)).
  unfold ENTRY_SIZE, AESDCHAR_MAX_WRITE_OPERATIONS_SUPPORTED in *. lia.
Qed.

Lemma length_view b : wf b → length (view b) = count b.
Proof.
  intros Hwf. unfold view. rewrite length_take, length_slots by done.
  pose proof (count_le b). lia.
Qed.

Lemma length_view_le b : wf b → (length (view b) ≤ 10)%nat.
Proof. intros ?. rewrite length_view by done. apply count_le. Qed.

Lemma slots_view b : slots b = view b ++ drop (count b) (slots b).
Proof. unfold view. by rewrite take_drop. Qed.

Lemma view_size b : wf b → Forall (λ e, 0 ≤ size e < 2 ^ 64) (view b).
Proof. intros ?. by apply Forall_take, slots_size. Qed.

Lemma in_offs_slot b : wf b → in_offs b = slot_of b (count b).
Proof.
  intros Hwf. pose proof (wf_in b Hwf) as Hin. pose proof (wf_out b Hwf) as Hout.
  unfold slot_of, count. destruct (full b) eqn:Hf.
  - rewrite (wf_full b Hwf Hf). rewrite entry_size_nat.
    unfold ENTRY_SIZE, AESDCHAR_MAX_WRITE_OPERATIONS_SUPPORTED in *.
    rewrite <-Z.add_mod_idemp_r by lia. rewrite Z.mod_same by lia.
    rewrite Z.add_0_r, Z.mod_small; lia.
  - rewrite Z2Nat.id by apply mod_offset. rewrite Zplus_mod_idemp_r.
    rewrite Zplus_minus. rewrite Z.mod_small; lia.
Qed.

(** When the flag is off, one more slot is live after an insertion, and the
    buffer is full exactly when [in_offs] meets [out_offs] again. *)
Lemma count_step b :
  wf b → full b = false →
  let in' := (in_offs b + 1) mod ENTRY_SIZE in
  (if in' =? out_offs b then 10%nat
   else Z.to_nat ((in' - out_offs b) mod ENTRY_SIZE)) = S (count b).
Proof.
  intros Hwf Hf in'. unfold in', count. rewrite Hf.
  pose proof (wf_in b Hwf). pose proof (wf_out b Hwf).
  unfold ENTRY_SIZE, AESDCHAR_MAX_WRITE_OPERATIONS_SUPPORTED in *.
  rewrite Zminus_mod_idemp_l.
  destruct (Z.eqb_spec ((in_offs b + 1) mod 10) (out_offs b)) as [E|E]; Z.to_euclidean_division_equations; lia.
Qed.

(** ** Insertion *)

Lemma slots_insert b k e b' :
  wf b → (k < 10)%nat → out_offs b' = out_offs b →
  entry b' = <[Z.to_nat (slot_of b k):=e]> (entry b) →
  slots b' = <[k:=e]> (slots b).
Proof.
  intros Hwf Hk Ho He. unfold slots. rewrite Ho, He, slot_of_nat by done.
  apply rotate_insert_l. rewrite (wf_length b Hwf), entry_size_nat. lia.
Qed.

Lemma slots_overwrite b e b' :
  wf b → wf b' → out_offs b' = slot_of b 1 →
  entry b' = <[Z.to_nat (slot_of b 0):=e]> (entry b) →
  slots b' = drop 1 (slots b) ++ [e].
Proof.
  intros Hwf Hwf' Ho He.
  apply (list_eq_same_length _ _ 10).
  { by rewrite length_app, length_drop, length_slots. }
  { by apply length_slots. }
  intros i x y Hi. rewrite slots_lookup, He by done.
  assert (slot_of b' i = slot_of b (S i)) as ->.
  { unfold slot_of at 1. rewrite Ho. unfold slot_of. rewrite Zplus_mod_idemp_l. f_equal. lia. }
  destruct (decide (i = 9)%nat) as [->|].
  - rewrite slot_of_10, list_lookup_insert_eq
      by (rewrite (wf_length b Hwf); exact (slot_of_lt b 0)).
    rewrite lookup_app_r by (by rewrite length_drop, length_slots).
    rewrite length_drop, length_slots by done. by intros ??; simplify_eq/=.
  - rewrite list_lookup_insert_ne by (intros E%slot_of_inj; lia).
    rewrite lookup_app_l by (rewrite length_drop, length_slots by done; lia).
    rewrite lookup_drop, slots_lookup by (done || lia). simpl. congruence.
Qed.

Lemma wf_update b e i o f :
  wf b → 0 ≤ size e < 2 ^ 64 → 0 ≤ i < ENTRY_SIZE → 0 ≤ o < ENTRY_SIZE →
  (f = true → i = o) →
  wf (mkBuffer (<[Z.to_nat (in_offs b):=e]> (entry b)) i o f).
Proof.
  intros Hwf He Hi Ho Hf. split; simpl; [|done..|].
  - rewrite length_insert. apply Hwf.
  - apply Forall_insert; [apply Hwf|done].
Qed.

(** The buffer after an insertion that overwrites the oldest entry, and after one
    that takes a free slot. *)
Definition overwritten (b : aesd_circular_buffer) (e : aesd_buffer_entry) :=
  mkBuffer (<[Z.to_nat (in_offs b):=e]> (entry b)) (slot_of b 1) (slot_of b 1) true.

Definition appended (b : aesd_circular_buffer) (e : aesd_buffer_entry) :=
  mkBuffer (<[Z.to_nat (in_offs b):=e]> (entry b)) (slot_of b (S (count b)))
    (out_offs b) (bool_decide (count b = 9%nat)).

Lemma in_offs_range b :
  wf b → 0 ≤ in_offs b < Z.of_nat (length (entry b)).
Proof. intros Hwf. rewrite (wf_length b Hwf). apply (wf_in b Hwf). Qed.

Lemma add_entry_full b e :
  wf b → full b = true →
  ∃ e0, slots b !! 0%nat = Some e0 ∧
        aesd_circular_buffer_add_entry b e = Ok (e0, overwritten b e).
Proof.
  intros Hwf Hf. destruct (arr_get_slot b 0) as (e0 & Hget & He0 & _); [done|lia|].
  exists e0. split; [done|]. unfold aesd_circular_buffer_add_entry, overwritten.
  rewrite slot_of_0 in Hget by done. rewrite Hf, Hget. simpl.
  rewrite arr_set_ok by (by apply in_offs_range). simpl.
  rewrite (wf_full b Hwf Hf), <-(slot_of_0 b), slot_of_S by done. by rewrite Z.eqb_refl.
Qed.

Lemma add_entry_free b e :
  wf b → full b = false →
  aesd_circular_buffer_add_entry b e = Ok (zero_entry, appended b e).
Proof.
  intros Hwf Hf. unfold aesd_circular_buffer_add_entry, appended. rewrite Hf. simpl.
  rewrite arr_set_ok by (by apply in_offs_range). simpl.
  rewrite (in_offs_slot b), slot_of_S by done. do 3 f_equal.
  pose proof (count_step b Hwf Hf) as Hc. cbv zeta in Hc. pose proof (count_not_full b Hf).
  rewrite in_offs_slot, <-next_offset, slot_of_S in Hc by (done || apply slot_of_range).
  revert Hc. destruct (Z.eqb_spec (slot_of b (S (count b))) (out_offs b)) as [E|E]; intros Hc.
  - rewrite bool_decide_eq_true_2; [done|lia].
  - rewrite bool_decide_eq_false_2; [done|]. intros Hc9. rewrite Hc9 in E.
    by rewrite slot_of_10, slot_of_0 in E.
Qed.

Lemma overwritten_wf b e : wf b → 0 ≤ size e < 2 ^ 64 → wf (overwritten b e).
Proof. intros ??. apply wf_update; auto using slot_of_range. Qed.

Lemma appended_wf b e : wf b → 0 ≤ size e < 2 ^ 64 → wf (appended b e).
Proof.
  intros Hwf ?. apply wf_update; auto using slot_of_range, wf_out.
  intros Hc%bool_decide_eq_true. by rewrite Hc, slot_of_10, slot_of_0.
Qed.

Lemma overwritten_slots b e :
  wf b → full b = true → 0 ≤ size e < 2 ^ 64 →
  slots (overwritten b e) = tail (slots b) ++ [e].
Proof.
  intros Hwf Hf He. rewrite tail_drop. apply slots_overwrite; auto using overwritten_wf.
  simpl. by rewrite slot_of_0, (wf_full b Hwf Hf).
Qed.

Lemma appended_slots b e :
  wf b → full b = false → slots (appended b e) = <[count b:=e]> (slots b).
Proof.
  intros Hwf Hf. apply slots_insert; auto using count_not_full.
  simpl. by rewrite in_offs_slot.
Qed.

Lemma appended_count b e : wf b → full b = false → count (appended b e) = S (count b).
Proof.
  intros Hwf Hf. pose proof (count_not_full b Hf). unfold count at 1. simpl.
  cases; [rewrite entry_size_nat; lia|].
  unfold slot_of. rewrite Zminus_mod_idemp_l, Z.add_simpl_l.
  rewrite Z.mod_small; [lia|]. unfold ENTRY_SIZE, AESDCHAR_MAX_WRITE_OPERATIONS_SUPPORTED. lia.
Qed.

Lemma view_full b : wf b → full b = true → view b = slots b.
Proof.
  intros Hwf Hf. unfold view. rewrite (count_full b Hf). apply take_ge.
  by rewrite length_slots.
Qed.

Lemma appended_view b e :
  wf b → full b = false → view (appended b e) = view b ++ [e].
Proof.
  intros Hwf Hf. pose proof (count_not_full b Hf).
  unfold view. rewrite appended_count, appended_slots by done.
  rewrite (take_S_r _ _ e), take_insert_ge; [done..|].
  apply list_lookup_insert_eq. by rewrite length_slots.
Qed.

(** The slots that are not live after an insertion: one fewer, the rest as
    they were. *)
Lemma appended_rest b e :
  wf b → full b = false →
  drop (count (appended b e)) (slots (appended b e)) = tail (drop (count b) (slots b)).
Proof.
  intros Hwf Hf. rewrite appended_count, appended_slots by done.
  rewrite drop_insert_lt, tail_drop, drop_drop by lia. f_equal. lia.
Qed.

Lemma full_clean b : wf b → full b = true → clean b.
Proof.
  intros Hwf Hf. unfold clean. rewrite drop_ge; [constructor|].
  by rewrite length_slots, count_full.
Qed.

Lemma appended_clean b e : wf b → full b = false → clean b → clean (appended b e).
Proof.
  intros Hwf Hf Hc. unfold clean. rewrite appended_rest by done.
  rewrite tail_drop. by apply Forall_drop.
Qed.

Lemma push_bounded_full h e : length h = 10%nat → ∀ e0, head h = Some e0 →
  push_bounded h e = (e0, tail h ++ [e]).
Proof.
  intros Hl e0 He. unfold push_bounded. rewrite entry_size_nat, Hl, He. done.
Qed.

Lemma push_bounded_free h e : (length h < 10)%nat →
  push_bounded h e = (zero_entry, h ++ [e]).
Proof.
  intros Hl. unfold push_bounded. rewrite entry_size_nat, bool_decide_eq_false_2; [done|lia].
Qed.

Lemma add_entry_step b e :
  wf b → 0 ≤ size e < 2 ^ 64 →
  ∃ b', aesd_circular_buffer_add_entry b e = Ok ((push_bounded (view b) e).1, b') ∧
        wf b' ∧ view b' = (push_bounded (view b) e).2 ∧ (clean b → clean b').
Proof.
  intros Hwf He. destruct (full b) eqn:Hf.
  - destruct (add_entry_full b e) as (e0 & He0 & Hadd); [done..|].
    exists (overwritten b e). rewrite (view_full b), (push_bounded_full _ _ (length_slots b Hwf) e0)
      by (by rewrite ?head_lookup). simpl.
    rewrite view_full, overwritten_slots by auto using overwritten_wf.
    split_and!; auto using overwritten_wf, full_clean.
  - exists (appended b e). rewrite push_bounded_free
      by (rewrite length_view; auto using count_not_full). simpl.
    split_and!; auto using add_entry_free, appended_wf, appended_view, appended_clean.
Qed.

Lemma init_wf b : wf (aesd_circular_buffer_init b).
Proof. split; simpl; try done. by repeat constructor. Qed.

Lemma init_clean b : clean (aesd_circular_buffer_init b).
Proof. unfold clean. simpl. by repeat constructor. Qed.

Lemma init_view b : view (aesd_circular_buffer_init b) = [].
Proof. done. Qed.

Lemma reset_wf b : wf b → wf (mkBuffer (entry b) 0 0 false).
Proof. intros Hwf. split; simpl; try done; apply Hwf. Qed.

Lemma reset_slots b : wf b → slots (mkBuffer (entry b) 0 0 false) = entry b.
Proof.
  intros Hwf. unfold slots, rotate. simpl. rewrite (wf_length b Hwf). simpl.
  by rewrite drop_0, app_nil_r.
Qed.

Lemma find_wf b off rtn p o b' :
  wf b → 0 ≤ off < 2 ^ 64 →
  aesd_circular_buffer_find_entry_offset_for_fpos b off rtn = Ok (p, o, b') → wf b'.
Proof.
  intros Hwf Hoff. rewrite find_slots by done.
  destruct (locate (slots b) off) as [[??]|]; intros; res_inv; auto using reset_wf.
Qed.

#[export] Hint Resolve init_wf init_clean reset_wf overwritten_wf appended_wf
  full_clean appended_clean slot_of_range mod_offset : ring.

Lemma clean_locate b off :
  wf b → clean b → 0 ≤ off → locate (slots b) off = locate (view b) off.
Proof.
  intros Hwf Hc Hoff. rewrite slots_view, locate_app by done.
  destruct (locate (view b) off) as [p|] eqn:E; [done|].
  rewrite locate_zeros; [done|done|].
  apply locate_None in E; [lia| |done]. eapply list.Forall_impl; [by apply view_size|].
  simpl. lia.
Qed.

Lemma add_all_spec es b :
  wf b → clean b → Forall (λ e, 0 ≤ size e < 2 ^ 64) es →
  let all := view b ++ es in
  ∃ b', add_all b es =
    Ok (replicate (length es `min` (10 - length (view b))) zero_entry ++
        take (length all - 10) all, b') ∧
    wf b' ∧ clean b' ∧ view b' = drop (length all - 10) all.
Proof.
  intros Hwf Hc Hes. revert b Hwf Hc.
  induction Hes as [|e es He Hes IH]; intros b Hwf Hc; cbv zeta;
    pose proof (length_view_le b Hwf) as Hle.
  { exists b. rewrite app_nil_r. replace (length (view b) - 10)%nat with 0%nat by lia.
    by rewrite drop_0. }
  destruct (add_entry_step b e Hwf He) as (b1 & Hadd & Hwf1 & Hv1 & Hc1).
  destruct (IH b1 Hwf1 (Hc1 Hc)) as (b' & Hall & Hwf' & Hc' & Hv'). clear IH.
  exists b'. simpl. rewrite Hadd. simpl. rewrite Hall. simpl. rewrite Hv', Hv1.
  destruct (decide (length (view b) = 10)%nat) as [Hl|Hl].
  - destruct (view b) as [|e0 h] eqn:Hh; [done|].
    rewrite (push_bounded_full _ e Hl e0) by done. simpl in *.
    rewrite !length_app. simpl. rewrite <-!app_assoc. simpl.
    replace (length h) with 9%nat by lia. simpl. rewrite !Nat.min_0_r. simpl.
    replace (length es - 0)%nat with (length es) by lia. done.
  - rewrite push_bounded_free by lia. simpl. rewrite !length_app. simpl.
    rewrite <-!app_assoc. simpl.
    replace (10 - length (view b))%nat with (S (10 - (length (view b) + 1)))%nat by lia.
    simpl. rewrite <-!Nat.add_assoc. done.
Qed.

Lemma find_content l off k o (content : aesd_buffer_entry → list Z) :
  Forall (λ e, Z.of_nat (length (content e)) = size e) l →
  0 ≤ off → locate l off = Some (k, o) →
  concat (content <$> l) !! Z.to_nat off =
  (e ← l !! k; content e !! Z.to_nat o).
Proof.
  intros Hl. revert off k. induction Hl as [|e l He _ IH]; intros off k Hoff; simpl; [done|].
  destruct (Z.ltb_spec off (size e)); intros ?; simplify_eq/=.
  - by rewrite lookup_app_l by lia.
  - destruct (locate l _) as [[k' o']|] eqn:E; simplify_eq/=.
    rewrite lookup_app_r by lia. rewrite <-(IH (off - size e)) by (done || lia).
    f_equal. lia.
Qed.

Lemma foreach_loop_spec {A} (body : Z → aesd_buffer_entry → A → res A) b n i r :
  wf b → (i + n = 10)%nat →
  (a ← r; foreach_loop (S n) b (Z.of_nat i) body a) =
  foldl (λ r ie, a ← r; body ie.1 ie.2 a) r (drop i (zip (seqZ 0 10) (entry b))).
Proof.
  intros Hwf. revert i r. induction n as [|n IH]; intros i r Hin.
  - replace i with 10%nat by lia. rewrite drop_ge; [by destruct r|].
    rewrite length_zip_with, (wf_length b Hwf). done.
  - destruct (lookup_lt_is_Some_2 (entry b) i) as [e He].
    { rewrite (wf_length b Hwf), entry_size_nat. lia. }
    rewrite (drop_S _ (Z.of_nat i, e)).
    2:{ apply lookup_zip_with_Some. exists (Z.of_nat i), e. split_and!; [done| |done].
        apply lookup_seqZ. lia. }
    simpl foldl. rewrite <-IH by lia. destruct r as [a|f]; [|done]. simpl.
    unfold AESDCHAR_MAX_WRITE_OPERATIONS_SUPPORTED at 1.
    destruct (Z.ltb_spec (Z.of_nat i) 10); [|lia].
    rewrite (arr_get_nat _ _ e) by done. simpl.
    destruct (body (Z.of_nat i) e a); [|done]. simpl.
    rewrite u8_small by lia. by replace (Z.of_nat i + 1) with (Z.of_nat (S i)) by lia.
Qed.

Lemma run_op_wf o b : wf b → op_typed o → ∃ b', run_op o b = Ok b' ∧ wf b'.
Proof.
  intros Hwf Ho. destruct o as [|e|off]; simpl in *.
  - eauto with ring.
  - destruct (add_entry_step b e Hwf Ho) as (b' & -> & ? & _). eauto.
  - rewrite find_slots by done. destruct (locate _ _) as [[]|]; simpl; eauto with ring.
Qed.

Lemma run_ops_wf os b : wf b → Forall op_typed os → ∃ b', run_ops os b = Ok b' ∧ wf b'.
Proof.
  intros Hwf Hos. revert b Hwf. induction Hos as [|o os Ho _ IH]; intros b Hwf; simpl; [eauto|].
  destruct (run_op_wf o b Hwf Ho) as (b' & -> & ?). simpl. auto.
Qed.

(** What the driver relies on: an insertion replaces one slot, and what it
    returns is the old contents of that slot or the zero entry; it is the old
    contents when the dead slots are zero. *)
Lemma add_entry_slot b e :
  wf b → 0 ≤ size e < 2 ^ 64 →
  ∃ old b', aesd_circular_buffer_add_entry b e = Ok (old, b') ∧ wf b' ∧
    entry b' = <[Z.to_nat (in_offs b):=e]> (entry b) ∧
    (Z.to_nat (in_offs b) < 10)%nat ∧
    (old = zero_entry ∨ entry b !! Z.to_nat (in_offs b) = Some old) ∧
    (clean b → clean b' ∧ entry b !! Z.to_nat (in_offs b) = Some old) ∧
    (old, view b') = push_bounded (view b) e.
Proof.
  intros Hwf He. destruct (add_entry_step b e Hwf He) as (b1 & Hadd & Hwf1 & Hv1 & Hc1).
  eexists _, b1. split; [exact Hadd|]. split_and!; [done|..].
  - destruct (full b) eqn:Hf.
    + destruct (add_entry_full b e Hwf Hf) as (? & _ & H). rewrite H in Hadd. by simplify_eq.
    + rewrite (add_entry_free b e Hwf Hf) in Hadd. by simplify_eq.
  - rewrite in_offs_slot by done. apply slot_of_lt.
  - destruct (full b) eqn:Hf.
    + right. destruct (add_entry_full b e Hwf Hf) as (e0 & He0 & H).
      rewrite H in Hadd. injection Hadd as <- _. rewrite (wf_full b Hwf Hf).
      rewrite <-(slot_of_0 b), <-slots_lookup by (done || lia). done.
    + left. rewrite (add_entry_free b e Hwf Hf) in Hadd. by injection Hadd as <- _.
  - intros Hc. split; [by apply Hc1|].
    destruct (full b) eqn:Hf.
    + destruct (add_entry_full b e Hwf Hf) as (e0 & He0 & H).
      rewrite H in Hadd. injection Hadd as <- _. rewrite (wf_full b Hwf Hf).
      rewrite <-(slot_of_0 b), <-slots_lookup by (done || lia). done.
    + rewrite (add_entry_free b e Hwf Hf) in Hadd. injection Hadd as <- _.
      pose proof (count_not_full b Hf).
      rewrite in_offs_slot, <-slots_lookup by done.
      destruct (lookup_lt_is_Some_2 (slots b) (count b)) as [e' He'].
      { by rewrite length_slots. }
      rewrite He'. f_equal. unfold clean in Hc. rewrite list.Forall_forall in Hc.
      apply Hc. apply list_elem_of_lookup. exists 0%nat.
      by rewrite lookup_drop, Nat.add_0_r.
  - rewrite Hv1. by destruct (push_bounded (view b) e).
Qed.

Lemma wrapped_wf : wf wrapped_buffer.
Proof. split; simpl; try done. repeat constructor; simpl; lia. Qed.

(** ** Properties *)

(** C7: [aesd_circular_buffer_add_entry] refines a bounded push: on every
    well-formed buffer it does not fault, the live entries become the old ones
    with the new entry at the end and, when there were ten, without the oldest,
    which is the entry returned (the zero entry otherwise), and both the
    representation invariant and the cleanness of the dead slots are kept. *)
Theorem add_entry_refines_push b e :
  wf b → 0 ≤ size e < 2 ^ 64 →
  ∃ b', aesd_circular_buffer_add_entry b e = Ok ((push_bounded (view b) e).1, b') ∧
        wf b' ∧ view b' = (push_bounded (view b) e).2 ∧ (clean b → clean b').
Proof. apply add_entry_step. Qed.

Lemma add_entry_refines_push_witness :
  ∃ b', aesd_circular_buffer_add_entry wrapped_buffer (line 12) =
          Ok (line 2, b') ∧ view b' = line <$> [3; 4; 5; 6; 7; 8; 9; 10; 11; 12].
Proof.
  destruct (add_entry_refines_push wrapped_buffer (line 12)) as (b' & H & _ & Hv & _).
  - apply wrapped_wf.
  - simpl. lia.
  - exists b'. split; [exact H|exact Hv].
Defined.

(** From an initialised buffer, any sequence of insertions keeps exactly the
    last ten entries in order, and the entries returned to the callers are the
    earlier ones, each once and in order, after a zero entry for each of the
    first ten calls: no entry is lost or returned twice. *)
Lemma add_all_keeps_last_ten b0 es :
  Forall (λ e, 0 ≤ size e < 2 ^ 64) es →
  ∃ b, add_all (aesd_circular_buffer_init b0) es =
    Ok (replicate (length es `min` 10) zero_entry ++ take (length es - 10) es, b) ∧
    wf b ∧ clean b ∧ view b = drop (length es - 10) es.
Proof.
  intros Hes. apply (add_all_spec es (aesd_circular_buffer_init b0)); auto with ring.
Qed.

(** C16: The search returns the place of a byte of the concatenated entries: on a
    buffer whose dead slots are zero, it finds a slot exactly when [char_offset]
    is below the total size of the live entries, and the slot and the byte
    offset it returns hold the byte number [char_offset] of the concatenation of
    the live entries, whatever contents the entries have.  A successful search
    does not change the buffer; a failed one leaves
    [*entry_offset_byte_rtn] unset. *)
Theorem find_returns_byte_of_concatenation b off rtn :
  wf b → clean b → 0 ≤ off < 2 ^ 64 →
  ∃ p o b', aesd_circular_buffer_find_entry_offset_for_fpos b off rtn = Ok (p, o, b') ∧
  match p with
  | None => total_size (view b) ≤ off ∧ o = rtn
  | Some s => off < total_size (view b) ∧ b' = b ∧
    ∃ k e, s = slot_of b k ∧ entry b !! Z.to_nat s = Some e ∧ view b !! k = Some e ∧
      0 ≤ o < size e ∧ off = total_size (take k (view b)) + o ∧
      ∀ content : aesd_buffer_entry → list Z,
        Forall (λ e, Z.of_nat (length (content e)) = size e) (view b) →
        concat (content <$> view b) !! Z.to_nat off = content e !! Z.to_nat o
  end.
Proof.
  intros Hwf Hc Hoff. rewrite find_slots, clean_locate by (done || lia).
  assert (Forall (λ e, 0 ≤ size e) (view b)) as Hsz.
  { eapply list.Forall_impl; [by apply view_size|]. simpl. lia. }
  destruct (locate (view b) off) as [[k o]|] eqn:E; do 3 eexists; (split; [reflexivity|]).
  - assert (off < total_size (view b)) as Hlt.
    { apply Znot_ge_lt. intros ?. rewrite (proj2 (locate_None _ _ Hsz (proj1 Hoff))) in E by lia. done. }
    destruct (locate_Some (view b) off k o) as (e & Hk & Ho & Heq); [lia|done|].
    split_and!; [done..|]. exists k, e. split_and!; try (done || lia).
    + rewrite <-slots_lookup; [|done|]. { rewrite slots_view. by apply lookup_app_l_Some. }
      apply lookup_lt_Some in Hk. pose proof (length_view_le b Hwf). lia.
    + intros content Hct. erewrite find_content by (done || lia). by rewrite Hk.
  - split; [|done]. apply locate_None in E; [done..|lia].
Qed.

Lemma find_returns_byte_of_concatenation_witness :
  ∃ p o b', aesd_circular_buffer_find_entry_offset_for_fpos wrapped_buffer 7 99 =
    Ok (p, o, b') ∧ p = Some 4 ∧ o = 0 ∧ b' = wrapped_buffer.
Proof.
  destruct (find_returns_byte_of_concatenation wrapped_buffer 7 99) as (p & o & b' & H & _).
  - apply wrapped_wf.
  - constructor.
  - lia.
  - exists p, o, b'. split; [exact H|]. vm_compute in H. by simplify_eq.
Defined.

(** A search that fails empties the ring: on a well-formed buffer whose dead
    slots are zero and an offset past the end, the call returns the null pointer
    and leaves a well-formed buffer with no live entry, in which searches go
    through the slots in array order (from slot 0) and not from the oldest
    entry. *)
Lemma failed_search_resets b off rtn :
  wf b → clean b → total_size (view b) ≤ off < 2 ^ 64 →
  ∃ b', aesd_circular_buffer_find_entry_offset_for_fpos b off rtn = Ok (None, rtn, b') ∧
    wf b' ∧ view b' = [] ∧ entry b' = entry b ∧
    ∀ off' rtn', 0 ≤ off' < 2 ^ 64 → off' < total_size (entry b) →
      ∃ k o, locate (entry b) off' = Some (k, o) ∧
      aesd_circular_buffer_find_entry_offset_for_fpos b' off' rtn' =
        Ok (Some (Z.of_nat k), o, b').
Proof.
  intros Hwf Hc Hoff.
  assert (Forall (λ e, 0 ≤ size e) (view b)) as Hsz.
  { eapply list.Forall_impl; [by apply view_size|]. simpl. lia. }
  pose proof (total_size_nonneg _ Hsz).
  assert (locate (view b) off = None) as E by (apply locate_None; done || lia).
  rewrite find_slots, clean_locate, E by (done || lia).
  eexists. split; [done|]. split_and!; auto with ring.
  intros off' rtn' Hoff' Hlt. rewrite find_slots, reset_slots by auto with ring.
  destruct (locate (entry b) off') as [[k o]|] eqn:E'.
  - exists k, o. split; [done|]. apply locate_Some in E' as (e & Hk & _); [|lia].
    apply lookup_lt_Some in Hk. rewrite (wf_length b Hwf), entry_size_nat in Hk.
    unfold slot_of, ENTRY_SIZE, AESDCHAR_MAX_WRITE_OPERATIONS_SUPPORTED. simpl.
    by rewrite Z.mod_small by lia.
  - apply locate_None in E'; [lia| |lia].
    eapply list.Forall_impl; [apply (wf_size b Hwf)|]. simpl. lia.
Qed.

(** After a failed search the entries that were live are lost: the next ten
    insertions return the zero entry to their callers although each overwrites a
    slot, so the entry that was in the slot is neither live nor returned. *)
Lemma insertion_after_reset_drops b e :
  wf b → 0 ≤ size e < 2 ^ 64 →
  ∃ b', aesd_circular_buffer_add_entry (mkBuffer (entry b) 0 0 false) e =
          Ok (zero_entry, b') ∧
    view b' = [e] ∧ entry b' = e :: tail (entry b).
Proof.
  intros Hwf He. eexists. split; [by apply add_entry_free; auto with ring|].
  rewrite appended_view by auto with ring. split; [done|]. simpl.
  pose proof (wf_length b Hwf). by destruct (entry b).
Qed.

(** Memory safety of the module: once the buffer is initialised, over any
    previous contents, no sequence of calls faults (no index outside the array)
    and the offsets stay below ten, the [uint8_t] never wraps. *)
Lemma ring_never_faults b os :
  Forall op_typed os →
  ∃ b', run_ops (OpInit :: os) b = Ok b' ∧ length (entry b') = 10%nat ∧
        0 ≤ in_offs b' < 10 ∧ 0 ≤ out_offs b' < 10 ∧
        (full b' = true → in_offs b' = out_offs b').
Proof.
  intros Hos. destruct (run_ops_wf os _ (init_wf b) Hos) as (b' & Hr & Hwf').
  exists b'. split; [exact Hr|]. destruct Hwf' as [? ? ? ? _]. auto.
Qed.

(** [AESD_CIRCULAR_BUFFER_FOREACH] runs its body once on each of the ten slots
    in array order, live or not, stops at the first fault of the body, and ends. *)
Lemma foreach_visits_every_slot {A} (body : Z → aesd_buffer_entry → A → res A) b a :
  wf b →
  AESD_CIRCULAR_BUFFER_FOREACH b body a =
  foldl (λ r ie, a ← r; body ie.1 ie.2 a) (Ok a) (zip (seqZ 0 10) (entry b)).
Proof. intros Hwf. apply (foreach_loop_spec body b 10 0 (Ok a)); done. Qed.

