(* ===== verification/RingSearches.v ===== *)
(** * Overlapping searches of the circular buffer

    [aesd_read] searches the ring under the semaphore taken for reading, which
    several readers hold at once, and a search that fails writes to the ring: the
    searches of [src/aesd-char-driver/aesd-circular-buffer.c] race.  Here a search
    is cut into steps of one access to the ring each, and the steps of any number of
    searches are interleaved.  The theorem is that they are linearizable: whatever
    the schedule, they return what they return one after the other in the order in
    which they take effect, and leave the same ring.  This is why the search is one
    step in [DriverConcurrency]. *)
From Stdlib Require Import ZArith Lia.
From stdpp Require Import base tactics list gmap sets numbers.
From S2P Require Import Prelude CircularBuffer.

(** ** The steps of a search *)

(** Before the read of [out_offs], before the comparison of an iteration, in its
    [else] branch, before each of the three stores, and after the return. *)
Inductive search : Type :=
| SEnter (char_offset : Z)
| STest (i offset char_offset : Z)
| SNext (i offset char_offset : Z)
| SFull
| SIn
| SOut
| SDone (r : option (Z * Z)).

Definition search_step (c : search) (b : aesd_circular_buffer)
    : res (search * aesd_circular_buffer) :=
  match c with
  | SEnter char_offset => Ok (STest 0 (out_offs b) char_offset, b)
  | STest i offset char_offset =>
    if i <? ENTRY_SIZE then
      e ← arr_get (entry b) offset;
      Ok (if char_offset <? size e then SDone (Some (offset, char_offset))
          else SNext i offset char_offset, b)
    else Ok (SFull, b)
  | SNext i offset char_offset =>
    e ← arr_get (entry b) offset;
    Ok (STest (i + 1) (u8 (Z.rem (offset + 1) ENTRY_SIZE)) (u64 (char_offset - size e)), b)
  | SFull => Ok (SIn, mkBuffer (entry b) (in_offs b) (out_offs b) false)
  | SIn => Ok (SOut, mkBuffer (entry b) 0 (out_offs b) (full b))
  | SOut => Ok (SDone None, mkBuffer (entry b) (in_offs b) 0 (full b))
  | SDone r => Ok (SDone r, b)
  end.

Definition finished (c : search) : bool := match c with SDone _ => true | _ => false end.

(** A schedule: the searches that make the next steps, in order. *)
Fixpoint run_searches (sched : list nat) (cs : list search) (b : aesd_circular_buffer)
    : res (list search * aesd_circular_buffer) :=
  match sched with
  | [] => Ok (cs, b)
  | j :: sched' =>
    match cs !! j with
    | Some c => '(c', b') ← search_step c b; run_searches sched' (<[j:=c']> cs) b'
    | None => run_searches sched' cs b
    end
  end.

(** The step at which a search takes effect: one that will find its byte when it
    reads [out_offs], one that will fail when it stores it. *)
Definition commits (b : aesd_circular_buffer) (c : search) : bool :=
  match c with
  | SEnter char_offset => char_offset <? total_size (entry b)
  | SOut => true
  | _ => false
  end.

(** The searches of a schedule in the order in which they take effect. *)
Fixpoint commit_order (sched : list nat) (cs : list search) (b : aesd_circular_buffer) : list nat :=
  match sched with
  | [] => []
  | j :: sched' =>
    match cs !! j with
    | Some c =>
      match search_step c b with
      | Ok (c', b') =>
        (if commits b c then [j] else []) ++ commit_order sched' (<[j:=c']> cs) b'
      | Fault _ => []
      end
    | None => commit_order sched' cs b
    end
  end.

(** The steps that a search still makes. *)
Definition steps_of (c : search) : Z :=
  match c with
  | SEnter _ => 25
  | STest i _ _ => 2 * (ENTRY_SIZE - i) + 4
  | SNext i _ _ => 2 * (ENTRY_SIZE - i) + 3
  | SFull => 3
  | SIn => 2
  | SOut => 1
  | SDone _ => 0
  end.

Section Atomic.
(** What is in [entry_offset_byte_rtn] before the calls. *)
Context (rtn : Z).

(** The searches one after the other, each to its end. *)
Fixpoint find_calls (xs : list Z) (b : aesd_circular_buffer)
    : res (list (option Z * Z) * aesd_circular_buffer) :=
  match xs with
  | [] => Ok ([], b)
  | x :: xs' =>
    '(r, b1) ← aesd_circular_buffer_find_entry_offset_for_fpos b x rtn;
    '(rs, b2) ← find_calls xs' b1;
    Ok (r :: rs, b2)
  end.

(** What the caller has after a return. *)
Definition returned (r : option (Z * Z)) : option Z * Z :=
  match r with Some (offset, byte) => (Some offset, byte) | None => (None, rtn) end.

Lemma find_calls_snoc xs x b rs a r a' :
  find_calls xs b = Ok (rs, a) →
  aesd_circular_buffer_find_entry_offset_for_fpos a x rtn = Ok (r, a') →
  find_calls (xs ++ [x]) b = Ok (rs ++ [r], a').
Proof.
  revert b rs. induction xs as [|y xs IH]; intros b rs; simpl.
  - intros [= <- <-] ->. done.
  - destruct (aesd_circular_buffer_find_entry_offset_for_fpos b y rtn) as [[r1 b1]|f]; simpl; [|done].
    destruct (find_calls xs b1) as [[rs1 b2]|f] eqn:E; simpl; [|done].
    intros [= <- <-] Hf. by rewrite (IH b1 rs1 E Hf).
Qed.

(** ** The atomic search *)

Lemma find_loop_entries n b b' o x : entry b = entry b' → find_loop n b o x = find_loop n b' o x.
Proof.
  intros E. revert o x. induction n as [|n IH]; intros o x; simpl; [done|].
  rewrite E. destruct (arr_get (entry b') o) as [e|f]; simpl; [|done].
  destruct (x <? size e); [done|apply IH].
Qed.

Lemma total_size_slots b : total_size (slots b) = total_size (entry b).
Proof.
  unfold slots, rotate. rewrite total_size_app, Z.add_comm, <-total_size_app. by rewrite take_drop.
Qed.

Definition reset (b : aesd_circular_buffer) : aesd_circular_buffer := mkBuffer (entry b) 0 0 false.

(** Whether a search fails does not depend on where it starts. *)
Lemma atomic_find b x :
  wf b → 0 ≤ x < 2 ^ 64 →
  ∃ r, find_loop (Z.to_nat ENTRY_SIZE) b (out_offs b) x = Ok r ∧
    aesd_circular_buffer_find_entry_offset_for_fpos b x rtn =
      Ok (returned r, match r with Some _ => b | None => reset b end) ∧
    (r = None ↔ total_size (entry b) ≤ x).
Proof.
  intros Hb Hx. pose proof (find_loop_spec b (Z.to_nat ENTRY_SIZE) 0 x Hb eq_refl Hx) as Hl.
  rewrite slot_of_0, drop_0 in Hl by done. eexists. split; [exact Hl|].
  unfold aesd_circular_buffer_find_entry_offset_for_fpos. rewrite Hl.
  rewrite <-total_size_slots, <-(locate_None (slots b) x);
    [|eapply list.Forall_impl; [by apply slots_size|simpl; lia]|lia].
  destruct (locate (slots b) x) as [[k o]|]; simpl; by split.
Qed.

End Atomic.

(** ** The invariant *)

(** The stores that a search has made. *)
Definition cleared_full (c : search) : bool :=
  match c with SIn | SOut | SDone None => true | _ => false end.
Definition cleared_in (c : search) : bool :=
  match c with SOut | SDone None => true | _ => false end.
Definition cleared_out (c : search) : bool := match c with SDone None => true | _ => false end.

Lemma existsb_update {A} (P : A → bool) l j c c' :
  l !! j = Some c → (P c = true → P c' = true) → existsb P (<[j:=c']> l) = existsb P l || P c'.
Proof.
  revert j. induction l as [|x l IH]; intros [|j]; simpl; try done.
  - intros [= ->] HP. destruct (P c), (P c'), (existsb P l); simpl; try done. by discriminate HP.
  - intros Hj HP. by rewrite (IH j Hj HP), orb_assoc.
Qed.

Lemma existsb_lookup {A} (P : A → bool) l j c :
  l !! j = Some c → P c = true → existsb P l = true.
Proof.
  intros Hc HP. apply existsb_exists. exists c. split; [|done].
  apply list_elem_of_In. by eapply list_elem_of_lookup_2.
Qed.

Section Linearization.
Context (rtn : Z) (b0 : aesd_circular_buffer) (xs : list Z).
Context (b0_wf : wf b0) (xs_size : Forall (λ x, 0 ≤ x < 2 ^ 64) xs).

(** The search for [x] will return [f] (or, before its first step, can). *)
Definition tracks (x : Z) (c : search) (f : option (Z * Z)) : Prop :=
  (f = None ↔ total_size (entry b0) ≤ x) ∧
  match c with
  | SEnter y => y = x
  | STest i o y => 0 ≤ i ≤ ENTRY_SIZE ∧ find_loop (Z.to_nat (ENTRY_SIZE - i)) b0 o y = Ok f
  | SNext i o y =>
    0 ≤ i < ENTRY_SIZE ∧ find_loop (Z.to_nat (ENTRY_SIZE - i)) b0 o y = Ok f ∧
    ∃ e, arr_get (entry b0) o = Ok e ∧ size e ≤ y
  | SFull | SIn | SOut => f = None
  | SDone r => r = f
  end.

Definition committed (c : search) (f : option (Z * Z)) : Prop :=
  match c with
  | STest _ _ _ | SNext _ _ _ => f ≠ None
  | SDone _ => True
  | _ => False
  end.

(** The ring, from the stores made. *)
Definition ring_of (cs : list search) : aesd_circular_buffer :=
  mkBuffer (entry b0) (if existsb cleared_in cs then 0 else in_offs b0)
    (if existsb cleared_out cs then 0 else out_offs b0)
    (full b0 && negb (existsb cleared_full cs)).

(** The ring after the searches that have taken effect. *)
Definition atomic_of (cs : list search) : aesd_circular_buffer :=
  if existsb cleared_out cs then reset b0 else b0.

Definition offsets (log : list nat) : list Z := (λ i, default 0 (xs !! i)) <$> log.

Record linear (log : list nat) (rs : list (option Z * Z)) (cs : list search) : Prop := {
  li_calls : find_calls rtn (offsets log) b0 = Ok (rs, atomic_of cs);
  li_length : length cs = length xs;
  li_search i c x : cs !! i = Some c → xs !! i = Some x → ∃ f, tracks x c f ∧
    (∀ k r, log !! k = Some i → rs !! k = Some r → r = returned rtn f) ∧
    (i ∈ log ↔ committed c f);
  li_log : NoDup log;
  li_rs : length rs = length log;
  li_range i : i ∈ log → (i < length xs)%nat
}.

Lemma atomic_wf cs : wf (atomic_of cs).
Proof. unfold atomic_of. destruct (existsb _ _); [by apply reset_wf|done]. Qed.

Lemma atomic_entry cs : entry (atomic_of cs) = entry b0.
Proof. unfold atomic_of. by destruct (existsb _ _). Qed.

(** The other searches do not see a step of [j], nor the end of the log. *)
Lemma others_keep log rs cs j c' log' rs' :
  linear log rs cs → (log' = log ∧ rs' = rs ∨ ∃ r, log' = log ++ [j] ∧ rs' = rs ++ [r]) →
  ∀ i c x, i ≠ j → <[j:=c']> cs !! i = Some c → xs !! i = Some x → ∃ f, tracks x c f ∧
    (∀ k r, log' !! k = Some i → rs' !! k = Some r → r = returned rtn f) ∧
    (i ∈ log' ↔ committed c f).
Proof.
  intros HI Hlog i c x Hij Hc Hx. rewrite list_lookup_insert_ne in Hc by done.
  destruct (li_search _ _ _ HI i c x Hc Hx) as (f & Ht & Hr & Hcom). exists f.
  destruct Hlog as [[-> ->]|(r0 & -> & ->)]; [done|]. split_and!; [done| |].
  - intros k r Hk. apply lookup_snoc_Some in Hk as [[Hlt Hk]|[_ Hk]]; [|congruence].
    rewrite lookup_app_l by (rewrite (li_rs _ _ _ HI); lia). by apply Hr.
  - rewrite elem_of_app, list_elem_of_singleton, Hcom. naive_solver.
Qed.

(** A step that takes no effect. *)
Lemma linear_silent log rs cs j c c' x :
  linear log rs cs → cs !! j = Some c → xs !! j = Some x →
  cleared_out c = cleared_out c' →
  (∀ f, tracks x c f → ∃ f', tracks x c' f' ∧ (committed c f ↔ committed c' f') ∧
     (committed c f → f' = f)) →
  linear log rs (<[j:=c']> cs).
Proof.
  intros HI Hc Hx Hout Hstep. split; try apply HI.
  - rewrite (li_calls _ _ _ HI). do 2 f_equal. unfold atomic_of.
    rewrite (existsb_update _ _ _ c) by (done || congruence). rewrite <-Hout.
    destruct (cleared_out c) eqn:E; [|by rewrite orb_false_r].
    by rewrite orb_true_r, (existsb_lookup _ _ _ _ Hc E).
  - rewrite length_insert. apply HI.
  - intros i d y Hd Hy. destruct (decide (i = j)) as [->|Hij].
    + rewrite list_lookup_insert_eq in Hd by (by eapply lookup_lt_Some).
      injection Hd as <-. assert (y = x) as -> by congruence.
      destruct (li_search _ _ _ HI j c x Hc Hx) as (f & Ht & Hr & Hcom).
      destruct (Hstep f Ht) as (f' & Ht' & Hcc & Hf). exists f'. split_and!; [done| |by rewrite <-Hcc].
      intros k r Hk Hrk. rewrite Hf; [by apply (Hr k)|]. apply Hcom. by eapply list_elem_of_lookup_2.
    + apply (others_keep log rs cs j c' log rs HI (or_introl (conj eq_refl eq_refl)) i d y); done.
Qed.

(** The step at which a search takes effect. *)
Lemma linear_commit log rs cs j c c' x f :
  linear log rs cs → cs !! j = Some c → xs !! j = Some x →
  aesd_circular_buffer_find_entry_offset_for_fpos (atomic_of cs) x rtn =
    Ok (returned rtn f, atomic_of (<[j:=c']> cs)) →
  (∀ f, tracks x c f → ¬ committed c f) → tracks x c' f → committed c' f →
  linear (log ++ [j]) (rs ++ [returned rtn f]) (<[j:=c']> cs).
Proof.
  intros HI Hc Hx Hfind Hno Ht Hyes.
  destruct (li_search _ _ _ HI j c x Hc Hx) as (f0 & Ht0 & _ & Hcom0).
  assert (j ∉ log) as Hj by (rewrite Hcom0; by apply Hno). split.
  - unfold offsets. rewrite fmap_app. simpl. rewrite Hx. simpl.
    eapply find_calls_snoc; [apply HI|done].
  - rewrite length_insert. apply HI.
  - intros i d y Hd Hy. destruct (decide (i = j)) as [->|Hij].
    + rewrite list_lookup_insert_eq in Hd by (by eapply lookup_lt_Some).
      injection Hd as <-. assert (y = x) as -> by congruence.
      exists f. split_and!; [done| |split; [done|intros _; apply elem_of_app; right; by left]].
      intros k r Hk. apply lookup_snoc_Some in Hk as [[_ Hk]|[-> _]].
      { destruct Hj. by eapply list_elem_of_lookup_2. }
      rewrite lookup_snoc_Some, (li_rs _ _ _ HI). intros [[? _]|[_ ?]]; [lia|done].
    + apply (others_keep log rs cs j c' _ _ HI (or_intror (ex_intro _ _ (conj eq_refl eq_refl))) i d y); done.
  - apply list.NoDup_app. split_and!; [apply HI| |apply NoDup_singleton].
    intros i Hi ->%list_elem_of_singleton. done.
  - rewrite !length_app, (li_rs _ _ _ HI). done.
  - intros i [Hi| ->%list_elem_of_singleton]%elem_of_app; [by apply (li_range _ _ _ HI)|].
    by eapply lookup_lt_Some.
Qed.

(** The ring after a step that stores nothing, and after a store. *)
Lemma ring_same cs j c c' :
  cs !! j = Some c → cleared_in c' = cleared_in c → cleared_out c' = cleared_out c →
  cleared_full c' = cleared_full c → ring_of (<[j:=c']> cs) = ring_of cs.
Proof.
  intros Hc Hi Ho Hf. unfold ring_of.
  rewrite !(existsb_update _ _ _ c) by (done || congruence). rewrite Hi, Ho, Hf.
  assert (∀ P, existsb P cs || P c = existsb P cs) as Hor; [|by rewrite !Hor].
  intros P. destruct (P c) eqn:E; [|by rewrite orb_false_r]. by rewrite orb_true_r, (existsb_lookup _ _ _ _ Hc E).
Qed.

Lemma out_offs_atomic cs : out_offs (ring_of cs) = out_offs (atomic_of cs).
Proof. unfold ring_of, atomic_of. simpl. by destruct (existsb _ _). Qed.

(** The first element of a search that has an iteration left. *)
Lemma find_loop_unfold i o y f :
  0 ≤ i < ENTRY_SIZE → find_loop (Z.to_nat (ENTRY_SIZE - i)) b0 o y = Ok f →
  ∃ e, arr_get (entry b0) o = Ok e ∧
    (if y <? size e then Ok (Some (o, y))
     else find_loop (Z.to_nat (ENTRY_SIZE - (i + 1))) b0 (u8 (Z.rem (o + 1) ENTRY_SIZE)) (u64 (y - size e))) =
    Ok f.
Proof.
  intros Hi. replace (Z.to_nat (ENTRY_SIZE - i)) with (S (Z.to_nat (ENTRY_SIZE - (i + 1)))) by lia.
  simpl. destruct (arr_get (entry b0) o) as [e|]; simpl; [|done]. eauto.
Qed.

(** A search that makes a step keeps the order of effects, and comes closer to its
    end. *)
Definition advances (log : list nat) (cs : list search) (j : nat) (c : search) : Prop :=
  ∃ c', search_step c (ring_of cs) = Ok (c', ring_of (<[j:=c']> cs)) ∧
    0 ≤ steps_of c' ≤ Z.max 0 (steps_of c - 1) ∧
    ∃ rs, linear (log ++ if commits (ring_of cs) c then [j] else []) rs (<[j:=c']> cs).

Section Step.
Context (log : list nat) (rs : list (option Z * Z)) (cs : list search) (j : nat) (x : Z).
Context (lin : linear log rs cs) (j_x : xs !! j = Some x).

Lemma advances_silent c c' :
  cs !! j = Some c → search_step c (ring_of cs) = Ok (c', ring_of (<[j:=c']> cs)) →
  0 ≤ steps_of c' ≤ Z.max 0 (steps_of c - 1) → commits (ring_of cs) c = false →
  cleared_out c = cleared_out c' →
  (∀ f, tracks x c f → ∃ f', tracks x c' f' ∧ (committed c f ↔ committed c' f') ∧
     (committed c f → f' = f)) →
  advances log cs j c.
Proof.
  intros Hc Hs Hn Hcom Hout Hf. exists c'. split; [done|]. split; [done|]. exists rs.
  rewrite Hcom, app_nil_r. by apply (linear_silent _ _ _ _ c c' x lin).
Qed.

Lemma advances_enter y : cs !! j = Some (SEnter y) → advances log cs j (SEnter y).
Proof.
  intros Hc. destruct (li_search _ _ _ lin j _ x Hc j_x) as (f & [_ Hy] & _). simpl in Hy. subst y.
  pose proof (Forall_lookup_1 _ _ _ _ xs_size j_x) as Hx. simpl in Hx.
  destruct (atomic_find rtn (atomic_of cs) x (atomic_wf cs) Hx) as (r & Hl & Hfind & Hr).
  rewrite atomic_entry in Hr. set (c' := STest 0 (out_offs (ring_of cs)) x).
  assert (search_step (SEnter x) (ring_of cs) = Ok (c', ring_of (<[j:=c']> cs))) as Hs.
  { by rewrite (ring_same _ _ _ c' Hc). }
  assert (0 ≤ steps_of c' ≤ Z.max 0 (steps_of (SEnter x) - 1)) as Hn.
  { simpl. unfold ENTRY_SIZE, AESDCHAR_MAX_WRITE_OPERATIONS_SUPPORTED. lia. }
  assert (tracks x c' r) as Ht.
  { split; [done|]. split; [done|]. rewrite out_offs_atomic, <-Hl. apply find_loop_entries.
    by rewrite atomic_entry. }
  destruct (Z.ltb_spec x (total_size (entry b0))) as [Hlt|Hge].
  - exists c'. split; [exact Hs|]. split; [exact Hn|].
    exists (rs ++ [returned rtn r]). simpl. destruct (Z.ltb_spec x (total_size (entry b0))); [|lia].
    assert (r ≠ None) as Hne by (rewrite Hr; lia).
    apply (linear_commit _ _ _ _ _ c' x r lin Hc j_x); [|by intros ? _ []|exact Ht|exact Hne].
    rewrite Hfind. unfold atomic_of. rewrite (existsb_update _ _ _ _ c' Hc), orb_false_r by done.
    by destruct r.
  - apply (advances_silent _ c'); [exact Hc|exact Hs|exact Hn| |done|].
    + simpl. destruct (Z.ltb_spec x (total_size (entry b0))); [lia|done].
    + intros f' _. exists r. split; [exact Ht|]. split; [|by intros []].
      split; [by intros []|]. intros Hne. apply Hne, Hr, Hge.
Qed.

Lemma advances_test i o y : cs !! j = Some (STest i o y) → advances log cs j (STest i o y).
Proof.
  intros Hc. destruct (li_search _ _ _ lin j _ x Hc j_x) as (f & [Hf [Hi Hl]] & _).
  destruct (Z.ltb_spec i ENTRY_SIZE) as [Hlt|Hge].
  - destruct (find_loop_unfold i o y f) as (e & He & Hrest); [lia|done|].
    set (c' := if y <? size e then SDone (Some (o, y)) else SNext i o y).
    apply (advances_silent _ c'); [done| | |done|by unfold c'; destruct (y <? size e)|].
    + simpl. destruct (Z.ltb_spec i ENTRY_SIZE); [|lia]. rewrite He. simpl.
      by rewrite (ring_same _ _ _ c' Hc) by (unfold c'; by destruct (y <? size e)).
    + unfold c'. destruct (y <? size e); simpl; lia.
    + intros f' [Hf' [_ Hl']]. assert (f' = f) as -> by congruence. exists f. unfold c'.
      destruct (Z.ltb_spec y (size e)).
      * injection Hrest as <-. split; [by split|done].
      * split; [|done]. split; [exact Hf|]. split; [lia|]. split; [exact Hl|]. by exists e.
  - assert (i = ENTRY_SIZE) as -> by lia. apply (advances_silent _ SFull); [done| | |done..|].
    + simpl. by rewrite (ring_same _ _ _ SFull Hc).
    + simpl. lia.
    + intros f' [Hf' [_ Hl']]. simpl in Hl'. injection Hl' as <-. exists None.
      split; [by split|]. split; [by split|done].
Qed.

Lemma advances_next i o y : cs !! j = Some (SNext i o y) → advances log cs j (SNext i o y).
Proof.
  intros Hc. destruct (li_search _ _ _ lin j _ x Hc j_x) as (f & [Hf (Hi & Hl & e & He & Hy)] & _).
  set (c' := STest (i + 1) (u8 (Z.rem (o + 1) ENTRY_SIZE)) (u64 (y - size e))).
  apply (advances_silent _ c'); [done| | |done..|].
  - simpl. rewrite He. simpl. by rewrite (ring_same _ _ _ c' Hc).
  - simpl. lia.
  - intros f' [Hf' (_ & Hl' & _)]. assert (f' = f) as -> by congruence. exists f.
    split; [|done]. split; [exact Hf|]. split; [lia|].
    destruct (find_loop_unfold i o y f Hi Hl) as (e' & He' & Hrest).
    assert (e' = e) as -> by congruence. by destruct (Z.ltb_spec y (size e)); [lia|].
Qed.

Lemma advances_store c :
  cs !! j = Some c → c = SFull ∨ c = SIn ∨ c = SOut → advances log cs j c.
Proof.
  intros Hc Hcases. destruct (li_search _ _ _ lin j _ x Hc j_x) as (f & [Hf Ht] & _).
  destruct Hcases as [->|[->| ->]]; simpl in Ht; subst f.
  - apply (advances_silent _ SIn); [done| |simpl; lia|done..|].
    + simpl. unfold ring_of. rewrite !(existsb_update _ _ _ _ SIn Hc) by done. simpl.
      by rewrite !orb_false_r, orb_true_r, andb_false_r.
    + intros f' [_ ->]. by exists None.
  - apply (advances_silent _ SOut); [done| |simpl; lia|done..|].
    + simpl. unfold ring_of. rewrite !(existsb_update _ _ _ _ SOut Hc) by done. simpl.
      rewrite (existsb_lookup cleared_full cs j SIn Hc eq_refl).
      by rewrite !orb_false_r, !orb_true_r, andb_false_r.
    + intros f' [_ ->]. by exists None.
  - exists (SDone None). split; [|split; [simpl; lia|]].
    + simpl. unfold ring_of. rewrite !(existsb_update _ _ _ _ (SDone None) Hc) by done. simpl.
      rewrite (existsb_lookup cleared_full cs j SOut Hc eq_refl).
      by rewrite (existsb_lookup cleared_in cs j SOut Hc eq_refl), !orb_true_r.
    + exists (rs ++ [returned rtn None]). pose proof (Forall_lookup_1 _ _ _ _ xs_size j_x) as Hx.
      destruct (atomic_find rtn (atomic_of cs) x (atomic_wf cs) Hx) as (r & _ & Hfind & Hr).
      rewrite atomic_entry in Hr. assert (r = None) as -> by (by apply Hr, Hf).
      apply (linear_commit _ _ _ _ SOut (SDone None) x None lin Hc j_x); [|by intros ? _ []|by split|done].
      rewrite Hfind. unfold atomic_of at 2. rewrite (existsb_update _ _ _ _ (SDone None) Hc), orb_true_r by done.
      do 2 f_equal. unfold reset. by rewrite atomic_entry.
Qed.

Lemma advances_any c : cs !! j = Some c → advances log cs j c.
Proof.
  intros Hc. destruct c as [y|i o y|i o y| | | |r];
    auto using advances_enter, advances_test, advances_next, advances_store.
  apply (advances_silent _ (SDone r)); [done| |simpl; lia|done|done|intros f Hf; exists f; by split].
  simpl. by rewrite (ring_same _ _ _ (SDone r) Hc).
Qed.

End Step.

(** A search that is not at its end has steps left. *)
Lemma tracks_steps x c f : tracks x c f → 0 ≤ steps_of c ∧ (steps_of c = 0 → finished c = true).
Proof.
  intros [_ Ht]. destruct c; simpl in *;
    unfold ENTRY_SIZE, AESDCHAR_MAX_WRITE_OPERATIONS_SUPPORTED in *; lia || done || idtac.
Qed.

Lemma linear_steps log rs cs j c :
  linear log rs cs → cs !! j = Some c → 0 ≤ steps_of c ∧ (steps_of c = 0 → finished c = true).
Proof.
  intros HI Hc. assert (is_Some (xs !! j)) as [x Hx].
  { apply lookup_lt_is_Some. rewrite <-(li_length _ _ _ HI). by eapply lookup_lt_Some. }
  destruct (li_search _ _ _ HI j c x Hc Hx) as (f & Ht & _). by apply (tracks_steps x c f).
Qed.

(** Any schedule. *)
Lemma run_searches_linear sched log rs cs :
  linear log rs cs →
  ∃ cs', run_searches sched cs (ring_of cs) = Ok (cs', ring_of cs') ∧
    (∃ rs', linear (log ++ commit_order sched cs (ring_of cs)) rs' cs') ∧
    ∀ j c, cs !! j = Some c → ∃ c', cs' !! j = Some c' ∧
      0 ≤ steps_of c' ≤ Z.max 0 (steps_of c - Z.of_nat (count_occ Nat.eq_dec sched j)).
Proof.
  revert log rs cs. induction sched as [|j sched IH]; intros log rs cs HI; simpl.
  { exists cs. split; [done|]. rewrite app_nil_r. split; [by exists rs|].
    intros j c Hc. exists c. split; [done|].
    pose proof (linear_steps _ _ _ _ _ HI Hc). lia. }
  destruct (cs !! j) as [c|] eqn:Hc.
  - assert (is_Some (xs !! j)) as [x Hx].
    { apply lookup_lt_is_Some. rewrite <-(li_length _ _ _ HI). by eapply lookup_lt_Some. }
    destruct (advances_any log rs cs j x HI Hx c Hc) as (c' & Hs & Hn & rs1 & HI1). rewrite Hs. simpl.
    destruct (IH _ _ _ HI1) as (cs' & Hr & [rs' HI'] & Hsteps). exists cs'. split; [done|].
    rewrite app_assoc. split; [by exists rs'|].
    intros i d Hd. destruct (decide (i = j)) as [->|Hij].
    + assert (d = c) as -> by congruence.
      destruct (Hsteps j c') as (c2 & Hc2 & Hb); [rewrite list_lookup_insert_eq; [done|by eapply lookup_lt_Some]|].
      exists c2. split; [done|]. destruct (Nat.eq_dec j j); [|done]. lia.
    + destruct (Hsteps i d) as (c2 & Hc2 & Hb); [by rewrite list_lookup_insert_ne|].
      exists c2. split; [done|]. destruct (Nat.eq_dec j i); [congruence|done].
  - destruct (IH log rs cs HI) as (cs' & Hr & HI' & Hsteps). exists cs'. split_and!; [done..|].
    intros i d Hd. destruct (Hsteps i d Hd) as (c2 & ? & ?). exists c2. split; [done|].
    destruct (Nat.eq_dec j i); [congruence|done].
Qed.

(** The searches before their first steps, and after their last ones. *)
Lemma linear_start : linear [] [] (SEnter <$> xs) ∧ ring_of (SEnter <$> xs) = b0.
Proof.
  assert (∀ P, (∀ x, P (SEnter x) = false) → existsb P (SEnter <$> xs) = false) as Hno.
  { intros P HP. clear xs_size. induction xs as [|x l IH]; [done|]. cbn. by rewrite HP, IH. }
  unfold ring_of, atomic_of. split.
  - split; [|by rewrite length_fmap| |by apply list.NoDup_nil|done|by intros i ?%elem_of_nil].
    + simpl. unfold atomic_of. by rewrite Hno.
    + intros i c x Hc Hx. rewrite list_lookup_fmap, Hx in Hc. injection Hc as <-.
      exists (if x <? total_size (entry b0) then Some (0, 0) else None).
      split_and!; [|done|set_solver]. split; [|done].
      destruct (Z.ltb_spec x (total_size (entry b0))); split; (done || lia).
  - rewrite !Hno by done. destruct b0 as [en i o fl]. simpl. by rewrite andb_true_r.
Qed.

Lemma ring_finished cs : Forall finished cs → ring_of cs = atomic_of cs.
Proof.
  intros Hf. unfold ring_of, atomic_of.
  assert (existsb cleared_in cs = existsb cleared_out cs ∧
          existsb cleared_full cs = existsb cleared_out cs) as [-> ->].
  { induction Hf as [|c cs Hc _ [IH1 IH2]]; simpl; [done|]. rewrite IH1, IH2.
    by destruct c as [| | | | | |[]]. }
  destruct (existsb cleared_out cs); simpl; [by rewrite andb_false_r|].
  rewrite andb_true_r. by destruct b0.
Qed.

Lemma linear_finished log rs cs :
  linear log rs cs → Forall finished cs →
  log ≡ₚ seq 0 (length xs) ∧ find_calls rtn (offsets log) b0 = Ok (rs, ring_of cs) ∧
  ∀ k j r, log !! k = Some j → rs !! k = Some r → ∃ f, cs !! j = Some (SDone f) ∧ r = returned rtn f.
Proof.
  intros HI Hf. split_and!.
  - apply NoDup_Permutation; [apply HI|apply NoDup_seq|]. intros j. rewrite elem_of_seq. split.
    + intros Hj. pose proof (li_range _ _ _ HI j Hj). lia.
    + intros [_ Hj]. destruct (lookup_lt_is_Some_2 xs j Hj) as [x Hx].
      destruct (lookup_lt_is_Some_2 cs j) as [c Hc]; [by rewrite (li_length _ _ _ HI)|].
      destruct (li_search _ _ _ HI j c x Hc Hx) as (f & _ & _ & Hcom). apply Hcom.
      pose proof (Forall_lookup_1 _ _ _ _ Hf Hc). by destruct c.
  - rewrite ring_finished by done. apply HI.
  - intros k j r Hk Hr. pose proof (li_range _ _ _ HI j (list_elem_of_lookup_2 _ _ _ Hk)) as Hj.
    destruct (lookup_lt_is_Some_2 xs j Hj) as [x Hx].
    destruct (lookup_lt_is_Some_2 cs j) as [c Hc]; [by rewrite (li_length _ _ _ HI)|].
    destruct (li_search _ _ _ HI j c x Hc Hx) as (f & [_ Ht] & Hrs & _).
    pose proof (Forall_lookup_1 _ _ _ _ Hf Hc) as Hfin. destruct c as [| | | | | |g]; try done.
    exists g. simpl in Ht. subst g. split; [done|]. by apply (Hrs k).
Qed.

End Linearization.

(** ** Properties *)

(** C22: The searches of any number of readers that hold the semaphore at once are
    linearizable, although the ones that fail write to the ring: whatever the
    schedule of their accesses none faults, a search that is given 25 steps has
    returned, and when all have, each has returned what it returns when they run
    one after the other in the order in which they took effect, which leaves the
    same ring.  Each takes effect at a step of its own. *)
Theorem searches_linearize rtn b xs sched :
  wf b → Forall (λ x, 0 ≤ x < 2 ^ 64) xs →
  ∃ cs b', run_searches sched (SEnter <$> xs) b = Ok (cs, b') ∧
    (∀ j c, cs !! j = Some c → (25 ≤ count_occ Nat.eq_dec sched j)%nat → finished c = true) ∧
    (Forall finished cs →
      let order := commit_order sched (SEnter <$> xs) b in
      order ≡ₚ seq 0 (length xs) ∧
      ∃ rs, find_calls rtn (offsets xs order) b = Ok (rs, b') ∧
        ∀ k j r, order !! k = Some j → rs !! k = Some r →
          ∃ f, cs !! j = Some (SDone f) ∧ r = returned rtn f).
Proof.
  intros Hb Hxs. destruct (linear_start rtn b xs Hb Hxs) as [HI Hring].
  destruct (run_searches_linear rtn b xs Hb Hxs sched [] [] _ HI) as (cs & Hr & [rs HI'] & Hsteps).
  rewrite Hring in Hr, HI'. simpl in HI'. exists cs, (ring_of b cs). split; [done|]. split.
  - intros j c Hc Hn. apply (linear_steps rtn b xs _ _ _ j c HI' Hc).
    assert (is_Some (xs !! j)) as [x Hx].
    { apply lookup_lt_is_Some. rewrite <-(li_length _ _ _ _ _ _ HI'). by eapply lookup_lt_Some. }
    destruct (Hsteps j (SEnter x)) as (c' & Hc' & Hb'); [by rewrite list_lookup_fmap, Hx|].
    assert (c' = c) as -> by congruence. simpl in Hb'. lia.
  - intros Hf. destruct (linear_finished rtn b xs Hb _ _ _ HI' Hf) as (Hp & Hc & Hres). eauto.
Qed.

(** ** Concrete searches *)

(** Two searches past the end and one for byte 5 of the ring after twelve insertions:
    the last one ends alone, then the two others alternate. *)
Definition demo_searches : list Z := [5; 1000; 1000].
Definition demo_schedule : list nat :=
  [1%nat] ++ replicate 25 2%nat ++ mjoin (replicate 25 [0; 1]%nat).

Lemma searches_linearize_witness :
  ∃ cs b' rs, run_searches demo_schedule (SEnter <$> demo_searches) wrapped_buffer = Ok (cs, b') ∧
    commit_order demo_schedule (SEnter <$> demo_searches) wrapped_buffer = [2; 0; 1]%nat ∧
    find_calls 0 [1000; 5; 1000] wrapped_buffer = Ok (rs, b').
Proof.
  destruct (searches_linearize 0 wrapped_buffer demo_searches demo_schedule)
    as (cs & b' & Hr & Hfin & Hlin).
  - apply wrapped_wf.
  - repeat constructor; simpl; lia.
  - destruct Hlin as (_ & rs & Hc & _).
    + apply Forall_lookup_2. intros j c Hc. rewrite (Hfin j c Hc); [done|].
      vm_compute in Hr. injection Hr as <- _. do 3 (destruct j; [vm_compute; lia|]). done.
    + exists cs, b', rs. split; [exact Hr|]. split; [vm_compute; reflexivity|exact Hc].
Defined.
