(* ===== verification/CharDriver.v ===== *)
(** * The character driver

    Models [src/aesd-char-driver/main.c] and [aesdchar.h]: [aesd_open],
    [aesd_release], [aesd_read], [aesd_write], the module's [init] and [exit]
    functions.  The state is the kernel heap, the user's memory and the one
    device [aesd_device]; the services of the kernel are the classes of
    [Kernel].  The handlers are written in the state and fault monad, statement
    by statement.  [PDEBUG] prints, which is modelled by the read of the string
    its [%s] conversion makes, as [AESD_DEBUG] is defined in the header. *)
From Stdlib Require Import ZArith Lia.
From stdpp Require Import base tactics list gmap sets numbers.
From S2P Require Import Prelude CMemory Kernel CircularBuffer.

(** ** Constants *)

Definition AESD_DEBUG : bool := true.
Definition ENOMEM : Z := 12.
Definition EFAULT : Z := 14.
Definition ERESTARTSYS : Z := 512.

(** ** State *)

Record aesd_dev `{R : RwSem} : Type := mkDev {
  dev_buffer : aesd_circular_buffer;
  sem : rw_semaphore;
  temp_char_buffer : Z
}.
Arguments mkDev {_} _ _ _.

(** What an open file keeps for the driver: the device and the position. *)
Record file : Type := mkFile {
  private_data : Z;
  f_pos : Z
}.

Record kstate `{R : RwSem} : Type := mkK {
  kheap : heap;
  ktick : nat;
  kumem : umem;
  kdev : aesd_dev
}.
Arguments mkK {_} _ _ _ _.

Section Driver.
Context `{K : Kernel} `{R : RwSem}.

Definition set_heap (h : heap) (s : kstate) : kstate :=
  mkK h (ktick s) (kumem s) (kdev s).
Definition set_umem (u : umem) (s : kstate) : kstate :=
  mkK (kheap s) (ktick s) u (kdev s).
Definition set_dev (d : aesd_dev) (s : kstate) : kstate :=
  mkK (kheap s) (ktick s) (kumem s) d.
Definition tick (s : kstate) : kstate :=
  mkK (kheap s) (S (ktick s)) (kumem s) (kdev s).

Definition set_buffer (b : aesd_circular_buffer) (s : kstate) : kstate :=
  set_dev (mkDev b (sem (kdev s)) (temp_char_buffer (kdev s))) s.
Definition set_sem (m : rw_semaphore) (s : kstate) : kstate :=
  set_dev (mkDev (dev_buffer (kdev s)) m (temp_char_buffer (kdev s))) s.
Definition set_temp (p : Z) (s : kstate) : kstate :=
  set_dev (mkDev (dev_buffer (kdev s)) (sem (kdev s)) p) s.

Definition ring (s : kstate) : aesd_circular_buffer := dev_buffer (kdev s).
Definition temp (s : kstate) : Z := temp_char_buffer (kdev s).
Definition dsem (s : kstate) : rw_semaphore := sem (kdev s).

(** ** The calls of the handlers *)

(** An operation on the heap, lifted to the state. *)
Definition on_heap (f : heap → res heap) : st kstate unit :=
  λ s, match f (kheap s) with Ok h => Ok (tt, set_heap h s) | Fault e => Fault e end.

Definition of_heap {A} (f : heap → res A) : st kstate A :=
  λ s, match f (kheap s) with Ok a => Ok (a, s) | Fault e => Fault e end.

Definition k_malloc (n : Z) : st kstate Z :=
  λ s, match kmalloc (ktick s) (kheap s) n with
       | Some (p, b) => Ok (p, tick (set_heap (<[p:=b]> (kheap s)) s))
       | None => Ok (NULL, tick s)
       end.

Definition k_copy_from_user (to from n : Z) : st kstate Z :=
  λ s, let '(bs, nleft) := copy_from_user (ktick s) (kumem s) from (Z.to_nat n) in
       match store_at (kheap s) to 0 bs with
       | Ok h => Ok (nleft, tick (set_heap h s))
       | Fault e => Fault e
       end.

Definition k_copy_to_user (to from n : Z) : st kstate Z :=
  λ s, match (b ← block_at (kheap s) from; load_bytes b n) with
       | Ok bs => let '(u, nleft) := copy_to_user (ktick s) (kumem s) to bs in
                  Ok (nleft, tick (set_umem u s))
       | Fault e => Fault e
       end.

Definition k_free (p : Z) : st kstate unit := on_heap (λ h, free_block h p).

(** [PDEBUG] with a [%s] conversion; [printk] prints an address of the first page,
    as are [NULL] and [ZERO_SIZE_PTR], without reading there. *)
Definition PDEBUG_s (p : Z) : st kstate unit :=
  of_heap (λ h, if AESD_DEBUG then
                  if p <=? ZERO_SIZE_PTR then Ok tt else (_ ← cstring_at h p; Ok tt)
                else Ok tt).

Definition k_down_read_trylock : st kstate Z :=
  λ s, let '(r, m) := down_read_trylock (dsem s) in Ok (r, set_sem m s).
Definition k_up_read : st kstate unit := λ s, Ok (tt, set_sem (up_read (dsem s)) s).
Definition k_down_write_trylock : st kstate Z :=
  λ s, let '(r, m) := down_write_trylock (dsem s) in Ok (r, set_sem m s).
Definition k_up_write : st kstate unit := λ s, Ok (tt, set_sem (up_write (dsem s)) s).

(** The two calls of the ring on the device's buffer. *)
Definition k_find (char_offset : Z) : st kstate (option Z) :=
  λ s, match aesd_circular_buffer_find_entry_offset_for_fpos (ring s) char_offset 0 with
       | Ok (p, _, b) => Ok (p, set_buffer b s)
       | Fault e => Fault e
       end.

Definition k_add (e : aesd_buffer_entry) : st kstate aesd_buffer_entry :=
  λ s, match aesd_circular_buffer_add_entry (ring s) e with
       | Ok (old, b) => Ok (old, set_buffer b s)
       | Fault f => Fault f
       end.

Definition k_entry (slot : Z) : st kstate aesd_buffer_entry :=
  λ s, match arr_get (entry (ring s)) slot with Ok e => Ok (e, s) | Fault f => Fault f end.

Definition k_temp : st kstate Z := λ s, Ok (temp s, s).
Definition k_set_temp (p : Z) : st kstate unit := λ s, Ok (tt, set_temp p s).

(** ** The handlers *)

(** [container_of] yields the device of the inode. *)
Definition aesd_open (inode_dev : Z) (filp : file) : Z * file :=
  (0, mkFile inode_dev (f_pos filp)).

Definition aesd_release (inode_dev : Z) (filp : file) : Z * file := (0, filp).

(** The part of [aesd_read] up to [up_read]: [None] when the lock is contended,
    otherwise the entry found ([Some None] for the null pointer). *)
Definition aesd_read_lookup (pos : Z) : st kstate (option (option Z)) :=
  r ← k_down_read_trylock;
  if negb (r =? 1) then mret None
  else entry ← k_find (u64 pos);
       k_up_read ;;; mret (Some entry).

(** The rest of [aesd_read], which runs without the lock. *)
Definition aesd_read_copy (entry : option Z) (buf count pos : Z) : st kstate (Z * Z) :=
  match entry with
  | Some slot =>
    e ← k_entry slot;
    let retval := if count <=? size e then i64 count else i64 (size e) in
    let pos' := i64 (pos + retval) in
    PDEBUG_s (buffptr e) ;;;
    nleft ← k_copy_to_user buf (buffptr e) (size e);
    if negb (nleft =? 0) then mret (- EFAULT, pos') else mret (retval, pos')
  | None => mret (0, pos)
  end.

(** Returns [retval] and the new [*f_pos]. *)
Definition aesd_read (buf count pos : Z) : st kstate (Z * Z) :=
  r ← aesd_read_lookup pos;
  match r with
  | None => mret (- ERESTARTSYS, pos)
  | Some entry => aesd_read_copy entry buf count pos
  end.

(** The label [aesd_write_fail]. *)
Definition aesd_write_fail (buffer retval : Z) : st kstate Z :=
  (if negb (buffer =? NULL) then k_free buffer else mret tt) ;;; mret retval.

(** The write that holds no newline. *)
Definition write_partial (buffer count : Z) : st kstate unit :=
  t ← k_temp;
  if t =? NULL then k_set_temp buffer
  else len ← of_heap (λ h, strlen h t);
       let malloc_size := u64 (count + len + 1) in
       concat_buffer ← k_malloc malloc_size;
       on_heap (λ h, strcpy h concat_buffer t) ;;;
       on_heap (λ h, strcat h concat_buffer buffer) ;;;
       k_free buffer ;;;
       k_free t ;;;
       k_set_temp concat_buffer.

(** The write that holds a newline. *)
Definition write_line (entry : aesd_buffer_entry) : st kstate unit :=
  entry_output ← k_add entry;
  if negb (buffptr entry_output =? NULL) then
    PDEBUG_s (buffptr entry_output) ;;; k_free (buffptr entry_output)
  else mret tt.

(** What runs between [down_write_trylock] and [up_write]. *)
Definition write_locked (buffer count : Z) : st kstate unit :=
  nl ← of_heap (λ h, strstr h buffer [NL]);
  match nl with
  | None => write_partial buffer count
  | Some _ => write_line (mkEntry buffer count)
  end.

Definition aesd_write (buf count : Z) : st kstate Z :=
  buffer ← k_malloc count;
  if buffer =? NULL then aesd_write_fail buffer (- ENOMEM)
  else nleft ← k_copy_from_user buffer buf count;
       if negb (nleft =? 0) then aesd_write_fail buffer (- EFAULT)
       else PDEBUG_s buffer ;;;
            let retval := i64 count in
            r ← k_down_write_trylock;
            if negb (r =? 1) then aesd_write_fail buffer retval
            else write_locked buffer count ;;; k_up_write ;;; mret retval.

End Driver.

(** ** The module *)

Section Module.
Context `{K : Kernel} `{R : RwSem} `{C : Chrdev}.

(** The global variables of the module and the state of the kernel. *)
Record mstate : Type := mkM {
  mreg : registry;
  aesd_major : Z;
  aesd_minor : Z;
  mkernel : kstate
}.

(** Returns the error code and the registry; the character device is registered
    under the module's numbers. *)
Definition aesd_setup_cdev (m : mstate) : Z * mstate :=
  let devno := MKDEV (aesd_major m) (aesd_minor m) in
  let '(err, r) := cdev_add (mreg m) devno 1 in
  (err, mkM r (aesd_major m) (aesd_minor m) (mkernel m)).

Definition aesd_init_module (m : mstate) : Z * mstate :=
  let '(result, dev, r) := alloc_chrdev_region (mreg m) (aesd_minor m) 1 in
  let m := mkM r (MAJOR dev) (aesd_minor m) (mkernel m) in
  if result <? 0 then (result, m)
  else
    let zeroed := mkDev (mkBuffer (replicate (Z.to_nat ENTRY_SIZE) zero_entry) 0 0 false)
                    init_rwsem NULL in
    let dev0 := mkDev (aesd_circular_buffer_init (dev_buffer zeroed)) (sem zeroed)
                  (temp_char_buffer zeroed) in
    let m := mkM (mreg m) (aesd_major m) (aesd_minor m) (set_dev dev0 (mkernel m)) in
    let '(result, m) := aesd_setup_cdev m in
    if negb (result =? 0)
    then (result, mkM (unregister_chrdev_region (mreg m) dev 1) (aesd_major m)
                    (aesd_minor m) (mkernel m))
    else (result, m).

Definition aesd_cleanup_module (m : mstate) : mstate :=
  let devno := MKDEV (aesd_major m) (aesd_minor m) in
  let r := cdev_del (mreg m) devno in
  mkM (unregister_chrdev_region r devno 1) (aesd_major m) (aesd_minor m) (mkernel m).

End Module.

(** ** Invariants *)

Section Invariants.
Context `{K : Kernel} `{R : RwSem}.

(** Every pointer the device keeps is to a live block of its own: no dangling
    pointer and no block owned twice. *)
Record dev_inv (s : kstate) : Prop := {
  di_ring : wf (ring s);
  di_null : kheap s !! NULL = None;
  di_limit : map_Forall (λ _ b, Z.of_nat (length b) ≤ KMALLOC_LIMIT) (kheap s);
  di_zero i e : entry (ring s) !! i = Some e → buffptr e = NULL → e = zero_entry;
  di_slot i e : entry (ring s) !! i = Some e → buffptr e ≠ NULL →
    ∃ b, kheap s !! buffptr e = Some b ∧ size e ≤ Z.of_nat (length b) ∧ NUL ∈ b;
  di_inj i j e e' : entry (ring s) !! i = Some e → entry (ring s) !! j = Some e' →
    buffptr e ≠ NULL → buffptr e = buffptr e' → i = j;
  di_temp : temp s ≠ NULL → ∃ b, kheap s !! temp s = Some b ∧ NUL ∈ b;
  di_temp_sep i e : entry (ring s) !! i = Some e → buffptr e ≠ NULL → buffptr e ≠ temp s
}.

(** A live block that the device does not reach. *)
Definition leaked (s : kstate) (p : Z) : Prop :=
  is_Some (kheap s !! p) ∧ p ≠ temp s ∧
  ∀ i e, entry (ring s) !! i = Some e → buffptr e ≠ p.

(** Nobody holds the semaphore. *)
Definition idle (s : kstate) : Prop := readers (dsem s) = O ∧ writer (dsem s) = false.

(** The block of a write after [copy_from_user]: the user's bytes, then what the
    block held before. *)
Definition filled (data b : list Z) : list Z := data ++ drop (length data) b.

(** The state after the allocation and the copy of [aesd_write]. *)
Definition copied (s : kstate) (p : Z) (b : list Z) : kstate :=
  mkK (<[p:=b]> (kheap s)) (S (S (ktick s))) (kumem s) (kdev s).

End Invariants.

(** ** Steps of the handlers *)

(** Runs the next call of a handler, whose outcome is given. *)
Ltac kstep H := rewrite (st_bind_step _ _ _ _ _ H); simpl.

Section Steps.
Context `{K : Kernel} `{R : RwSem} `{!KernelOk K} `{!RwSemOk R}.
Implicit Types s : kstate.

Lemma k_malloc_some s n p b :
  kmalloc (ktick s) (kheap s) n = Some (p, b) →
  k_malloc n s = Ok (p, tick (set_heap (<[p:=b]> (kheap s)) s)).
Proof. unfold k_malloc. by intros ->. Qed.

Lemma k_malloc_none s n :
  kmalloc (ktick s) (kheap s) n = None → k_malloc n s = Ok (NULL, tick s).
Proof. unfold k_malloc. by intros ->. Qed.

Lemma of_heap_ok {A} (f : heap → res A) s a : f (kheap s) = Ok a → of_heap f s = Ok (a, s).
Proof. unfold of_heap. by intros ->. Qed.

Lemma on_heap_ok (f : heap → res heap) s h :
  f (kheap s) = Ok h → on_heap f s = Ok (tt, set_heap h s).
Proof. unfold on_heap. by intros ->. Qed.

Lemma k_free_ok s p b :
  kheap s !! p = Some b → p ≠ NULL → k_free p s = Ok (tt, set_heap (delete p (kheap s)) s).
Proof. intros Hb Hp. by apply on_heap_ok, (free_block_ok _ _ b). Qed.

Lemma PDEBUG_s_ok s p b :
  kheap s !! p = Some b → p ≠ NULL → NUL ∈ b → PDEBUG_s p s = Ok (tt, s).
Proof.
  intros Hb Hp [str Hs]%cstr_is_Some. apply of_heap_ok. simpl.
  destruct (Z.leb_spec p ZERO_SIZE_PTR); [done|]. by rewrite (cstring_at_ok _ _ b str).
Qed.

Lemma PDEBUG_s_unterminated s p b :
  kheap s !! p = Some b → ZERO_SIZE_PTR < p → NUL ∉ b → PDEBUG_s p s = Fault OutOfBounds.
Proof.
  intros Hb Hp Hs. unfold PDEBUG_s, of_heap. simpl. destruct (Z.leb_spec p ZERO_SIZE_PTR); [lia|].
  assert (p ≠ NULL) by (unfold ZERO_SIZE_PTR, NULL in *; lia).
  by rewrite (cstring_at_unterminated _ _ b).
Qed.

Lemma aesd_write_fail_ok s p b retval :
  kheap s !! p = Some b → p ≠ NULL →
  aesd_write_fail p retval s = Ok (retval, set_heap (delete p (kheap s)) s).
Proof.
  intros Hb Hp. unfold aesd_write_fail. destruct (Z.eqb_spec p NULL); [done|]. simpl.
  by kstep (k_free_ok s p b Hb Hp).
Qed.

(** [aesd_write] up to the copy from the user. *)
Lemma aesd_write_copied s buf count p b d nleft :
  0 < count →
  kmalloc (ktick s) (kheap s) count = Some (p, b) →
  copy_from_user (S (ktick s)) (kumem s) buf (Z.to_nat count) = (d, nleft) →
  p ≠ NULL ∧ kheap s !! p = None ∧ length d = Z.to_nat count ∧
  0 ≤ count ≤ KMALLOC_LIMIT ∧ length (filled d b) = length b ∧ count ≤ Z.of_nat (length b) ∧
  Z.of_nat (length b) ≤ KMALLOC_LIMIT ∧
  aesd_write buf count s =
  (if negb (nleft =? 0) then aesd_write_fail p (- EFAULT)
   else PDEBUG_s p ;;;
        r ← k_down_write_trylock;
        if negb (r =? 1) then aesd_write_fail p (i64 count)
        else write_locked p count ;;; k_up_write ;;; mret (i64 count))
  (copied s p (filled d b)).
Proof.
  intros Hc Hm Hd. pose proof (kmalloc_not_null _ _ _ _ _ Hc Hm) as Hp.
  pose proof (kmalloc_size _ _ _ _ _ Hc Hm). pose proof (kmalloc_max _ _ _ _ _ Hc Hm).
  pose proof (copy_from_user_length _ _ _ _ _ _ Hd) as Hl.
  split_and!; try lia; try done; [by eapply kmalloc_fresh| |].
  { unfold filled. rewrite length_app, length_drop. lia. }
  unfold aesd_write. kstep (k_malloc_some s count p b Hm).
  destruct (Z.eqb_spec p NULL); [done|].
  assert (k_copy_from_user p buf count (tick (set_heap (<[p:=b]> (kheap s)) s)) =
          Ok (nleft, copied s p (filled d b))) as Hcfu.
  { unfold k_copy_from_user. simpl. rewrite Hd. unfold store_at.
    rewrite (block_at_ok _ p b) by (auto; apply lookup_insert_eq). simpl.
    rewrite store_bytes_ok by lia. simpl. by rewrite insert_insert_eq. }
  by kstep Hcfu.
Qed.

(** The exits of [aesd_write] that free the buffer give the heap back. *)
Lemma copied_freed s p b :
  kheap s !! p = None →
  set_heap (delete p (kheap (copied s p b))) (copied s p b) =
  mkK (kheap s) (S (S (ktick s))) (kumem s) (kdev s).
Proof. intros Hp. unfold set_heap, copied. simpl. by rewrite delete_insert_id. Qed.

End Steps.

(** ** The critical section *)

Section Critical.
Context `{K : Kernel} `{R : RwSem} `{!KernelOk K} `{!RwSemOk R}.
Implicit Types s : kstate.

(** A block of [n] bytes or more that the device does not own yet. *)
Record fresh_block (s : kstate) (p n : Z) (b : list Z) : Prop := {
  fb_ptr : p ≠ NULL;
  fb_heap : kheap s !! p = Some b;
  fb_size : 0 ≤ n ≤ Z.of_nat (length b);
  fb_nul : NUL ∈ b;
  fb_slot i e : entry (ring s) !! i = Some e → buffptr e ≠ p;
  fb_temp : temp s ≠ p
}.

Lemma dev_inv_live s p :
  dev_inv s → p ≠ NULL → kheap s !! p = None →
  temp s ≠ p ∧ ∀ i e, entry (ring s) !! i = Some e → buffptr e ≠ p.
Proof.
  intros Hi Hp Hn. split.
  - intros Ht. destruct (di_temp s Hi) as (b & Hb & _); [by rewrite Ht|].
    rewrite Ht in Hb. congruence.
  - intros i e He E. destruct (di_slot s Hi i e He) as (b & Hb & _); [by rewrite E|].
    rewrite E in Hb. congruence.
Qed.

(** Allocating a block keeps the invariant. *)
Lemma dev_inv_copied s p b :
  dev_inv s → p ≠ NULL → kheap s !! p = None → Z.of_nat (length b) ≤ KMALLOC_LIMIT →
  dev_inv (copied s p b).
Proof.
  intros Hi Hp Hn Hl. destruct (dev_inv_live s p Hi Hp Hn) as [Ht He].
  destruct Hi as [H1 H2 H3 H4 H5 H6 H7 H8]. split; simpl; try done.
  - by rewrite lookup_insert_ne.
  - by apply map_Forall_insert_2.
  - intros i e Hie Hnn. rewrite lookup_insert_ne by (intros ?; by eapply He). eauto.
  - intros Htn. rewrite lookup_insert_ne by (intros E; apply Ht; symmetry; exact E). auto.
Qed.

(** The semaphore plays no part in the invariant. *)
Lemma dev_inv_sem s m : dev_inv s → dev_inv (set_sem m s).
Proof. intros [H1 H2 H3 H4 H5 H6 H7 H8]. by split. Qed.

(** The device after a complete line: the entry is in the ring and the block of
    the entry that was returned is freed. *)
Definition line_written (old : aesd_buffer_entry) (b' : aesd_circular_buffer)
    (s : kstate) : kstate :=
  set_heap (delete (buffptr old) (kheap s)) (set_buffer b' s).

(** Replacing one slot and freeing its old block keeps the invariant. *)
Lemma dev_inv_replace s i old e b b' :
  dev_inv s → fresh_block s (buffptr e) (size e) b →
  wf b' → entry b' = <[i:=e]> (entry (ring s)) → (i < 10)%nat →
  old = zero_entry ∨ entry (ring s) !! i = Some old →
  dev_inv (line_written old b' s).
Proof.
  intros Hi [Hp Hb Hn Hnul Hs Ht] Hwf' He Hi10 Hold.
  assert (buffptr old ≠ buffptr e) as Hoe.
  { destruct Hold as [->|Ho]; [by intros ?; apply Hp|by eapply Hs]. }
  assert (buffptr old ≠ NULL → buffptr old ≠ temp s) as Hot.
  { destruct Hold as [->|Ho]; [done|]. by eapply di_temp_sep. }
  assert (∀ j e', j ≠ i → entry (ring s) !! j = Some e' → buffptr e' ≠ NULL →
    buffptr old ≠ buffptr e') as Hoj.
  { intros j e' Hj Hje' Hn' E. destruct Hold as [->|Ho]; [by apply Hn'|].
    apply Hj. eapply (di_inj s Hi); eauto. }
  destruct Hi as [H1 H2 H3 H4 H5 H6 H7 H8].
  split; unfold line_written, ring, temp in *; simpl; try done.
  - apply lookup_delete_None. by right.
  - by apply map_Forall_delete.
  - intros j e'. rewrite He. intros [(-> & -> & _)|[Hj Hje']]%list_lookup_insert_Some; [done|eauto].
  - intros j e'. rewrite He.
    intros [(-> & -> & _)|[Hj Hje']]%list_lookup_insert_Some Hn'; rewrite lookup_delete_ne; eauto.
    by exists b; split_and!; [..|lia|].
  - intros j k e1 e2. rewrite He.
    intros [(-> & -> & _)|[Hj Hj']]%list_lookup_insert_Some
           [(-> & -> & _)|[Hk Hk']]%list_lookup_insert_Some Hn' E; eauto.
    + by destruct (Hs _ _ Hk').
    + by destruct (Hs _ _ Hj').
  - intros Htn. rewrite lookup_delete_ne; [eauto|]. intros E. destruct (Hot); congruence.
  - intros j e'. rewrite He.
    intros [(-> & -> & _)|[Hj Hje']]%list_lookup_insert_Some Hn'; [congruence|eauto].
Qed.

Lemma k_add_ok s e old b' :
  aesd_circular_buffer_add_entry (ring s) e = Ok (old, b') →
  k_add e s = Ok (old, set_buffer b' s).
Proof. unfold k_add. by intros ->. Qed.

Lemma write_line_ok s p n b :
  dev_inv s → fresh_block s p n b → n < 2 ^ 64 →
  ∃ old b', aesd_circular_buffer_add_entry (ring s) (mkEntry p n) = Ok (old, b') ∧
    write_line (mkEntry p n) s = Ok (tt, line_written old b' s) ∧
    dev_inv (line_written old b' s) ∧
    (old, view b') = push_bounded (view (ring s)) (mkEntry p n) ∧
    (clean (ring s) → clean b' ∧
       ∀ q, leaked (line_written old b' s) q → leaked s q ∧ q ≠ p).
Proof.
  intros Hi Hf Hn. pose proof (fb_size _ _ _ _ Hf) as Hsz.
  destruct (add_entry_slot (ring s) (mkEntry p n)) as
    (old & b' & Hadd & Hwf' & He & Hi10 & Hold & Hc & Hpush); [apply Hi|simpl; lia|].
  exists old, b'. split; [done|]. split; [|split; [|split]].
  - unfold write_line. kstep (k_add_ok _ _ _ _ Hadd).
    destruct (Z.eqb_spec (buffptr old) NULL) as [E|E]; simpl.
    + unfold line_written. rewrite E, delete_id by apply Hi. done.
    + destruct Hold as [->|Ho]; [done|]. destruct (di_slot s Hi _ _ Ho E) as (bo & Hbo & _ & Hno).
      kstep (PDEBUG_s_ok (set_buffer b' s) _ bo Hbo E Hno).
      by rewrite (k_free_ok (set_buffer b' s) _ bo Hbo E).
  - by apply (dev_inv_replace s (Z.to_nat (in_offs (ring s))) old (mkEntry p n) b).
  - done.
  - intros Hcl. destruct (Hc Hcl) as [Hcl' Ho]. split; [done|].
    intros q ([bq Hbq] & Hqt & Hqs). unfold line_written, ring, temp in *. simpl in *.
    apply lookup_delete_Some in Hbq as [Hqo Hbq]. rewrite He in Hqs. split; [split; [by eexists|split; [done|]]|].
    + intros j e' Hj E. destruct (decide (j = Z.to_nat (in_offs (dev_buffer (kdev s))))) as [->|Hne].
      * pose proof (eq_trans (eq_sym Hj) Ho) as [= ->]. by apply Hqo.
      * apply (Hqs j e'); [|done]. by rewrite list_lookup_insert_ne.
    + intros ->. apply (Hqs (Z.to_nat (in_offs (dev_buffer (kdev s)))) (mkEntry p n)); [|done].
      apply list_lookup_insert_eq. exact (eq_ind_r (lt _) Hi10 (wf_length _ (di_ring s Hi))).
Qed.

(** The branch that the critical section takes. *)
Lemma strstr_text s p n b str :
  fresh_block s p n b → cstr b = Some str →
  of_heap (λ h, strstr h p [NL]) s = Ok (str_index [NL] str, s).
Proof.
  intros Hf Hstr. apply of_heap_ok. unfold strstr.
  by rewrite (cstring_at_ok _ _ b str (fb_ptr _ _ _ _ Hf) (fb_heap _ _ _ _ Hf) Hstr).
Qed.

Lemma write_locked_text s p n b str :
  fresh_block s p n b → cstr b = Some str →
  write_locked p n s =
  (if bool_decide (NL ∈ str) then write_line (mkEntry p n) else write_partial p n) s.
Proof.
  intros Hf Hstr. unfold write_locked. kstep (strstr_text s p n b str Hf Hstr). destruct (str_index [NL] str) as [k|] eqn:E.
  - by rewrite bool_decide_eq_true_2 by (apply str_index_single; eauto).
  - by rewrite bool_decide_eq_false_2 by (by apply str_index_single_None).
Qed.

(** Two heap operations in a row. *)
Lemma on_heap_seq {A} (f g : heap → res heap) (k : st kstate A) s h :
  (h' ← f (kheap s); g h') = Ok h →
  (on_heap f ;;; on_heap g ;;; k) s = k (set_heap h s).
Proof.
  intros (h1 & H1 & H2)%res_bind_ok. kstep (on_heap_ok f s h1 H1).
  by kstep (on_heap_ok g (set_heap h1 s) h H2).
Qed.

(** The device after a partial write that is joined to an earlier one. *)
Definition joined (p c : Z) (bc : list Z) (s : kstate) : kstate :=
  set_temp c (set_heap (delete (temp s) (delete p (<[c:=bc]> (kheap s)))) (tick s)).

Lemma write_partial_join s p n b bt st_ sb :
  dev_inv s → fresh_block s p n b → temp s ≠ NULL →
  kheap s !! temp s = Some bt → cstr bt = Some st_ → cstr b = Some sb →
  Z.of_nat (length sb) ≤ n →
  match kmalloc (ktick s) (kheap s) (n + Z.of_nat (length st_) + 1) with
  | None => write_partial p n s = Fault NullDeref
  | Some (c, _) => ∃ bc, cstr bc = Some (st_ ++ sb) ∧ Z.of_nat (length bc) ≤ KMALLOC_LIMIT ∧
      c ≠ NULL ∧ kheap s !! c = None ∧ write_partial p n s = Ok (tt, joined p c bc s)
  end.
Proof.
  intros Hi [Hp Hb Hn Hnul Hs Htp] Ht Hbt Hst Hsb Hle.
  pose proof (map_Forall_lookup_1 _ _ _ _ (di_limit s Hi) Hb) as Hlb. simpl in Hlb.
  pose proof (map_Forall_lookup_1 _ _ _ _ (di_limit s Hi) Hbt) as Hlt. simpl in Hlt.
  pose proof (cstr_length _ _ Hst). unfold KMALLOC_LIMIT in *.
  unfold write_partial. kstep (eq_refl : k_temp s = Ok (temp s, s)).
  destruct (Z.eqb_spec (temp s) NULL); [done|].
  assert (of_heap (λ h, strlen h (temp s)) s = Ok (Z.of_nat (length st_), s)) as Hlen.
  { apply of_heap_ok. unfold strlen. by rewrite (cstring_at_ok _ _ bt st_). }
  kstep Hlen. rewrite u64_small by lia.
  assert (0 < n + Z.of_nat (length st_) + 1) as Hpos by lia.
  destruct (kmalloc _ _ _) as [[c bc]|] eqn:Hm.
  - pose proof (kmalloc_not_null _ _ _ _ _ Hpos Hm) as Hc.
    pose proof (kmalloc_fresh _ _ _ _ _ Hpos Hm) as Hcf.
    pose proof (kmalloc_size _ _ _ _ _ Hpos Hm). pose proof (kmalloc_max _ _ _ _ _ Hpos Hm).
    assert (temp s ≠ c) as Htc by congruence. assert (p ≠ c) as Hpc by congruence.
    destruct (strcpy_strcat (<[c:=bc]> (kheap s)) c (temp s) p bc bt b st_ sb)
      as (b' & Hcat & Hs' & Hl');
      rewrite ?lookup_insert_eq, ?lookup_insert_ne by congruence; try done; [lia|].
    exists b'. rewrite Hl'. split_and!; try done.
    kstep (k_malloc_some s _ c bc Hm).
    rewrite (on_heap_seq (λ h, strcpy h c (temp s)) (λ h, strcat h c p)
      _ _ (<[c:=b']> (kheap s))).
    2:{ simpl. by rewrite insert_insert_eq in Hcat. }
    set (s1 := set_heap (<[c:=b']> (kheap s)) _).
    assert (kheap s1 !! p = Some b) as Hbp by (simpl; by rewrite lookup_insert_ne).
    kstep (k_free_ok s1 p b Hbp Hp).
    set (s2 := set_heap _ s1).
    assert (kheap s2 !! temp s = Some bt) as Hb2.
    { simpl. by rewrite lookup_delete_ne, lookup_insert_ne. }
    by kstep (k_free_ok s2 (temp s) bt Hb2 Ht).
  - kstep (k_malloc_none s _ Hm). apply st_bind_fault. unfold on_heap, strcpy.
    by rewrite (cstring_at_ok _ _ bt st_).
Qed.

Lemma write_partial_first s p n : temp s = NULL → write_partial p n s = Ok (tt, set_temp p s).
Proof.
  intros Ht. unfold write_partial. kstep (eq_refl : k_temp s = Ok (temp s, s)). by rewrite Ht.
Qed.

(** Another block becomes that of the partial text. *)
Lemma dev_inv_set_temp s p n b : dev_inv s → fresh_block s p n b → dev_inv (set_temp p s).
Proof.
  intros Hi [Hp Hb Hn Hnul Hs _]. destruct Hi as [H1 H2 H3 H4 H5 H6 H7 H8].
  split; try done; simpl; eauto.
Qed.

Lemma dev_inv_first s p n b :
  dev_inv s → fresh_block s p n b → temp s = NULL →
  dev_inv (set_temp p s) ∧ ∀ q, leaked (set_temp p s) q → leaked s q ∧ q ≠ p.
Proof.
  intros Hi Hf Ht. split; [by eapply dev_inv_set_temp|].
  intros q ([bq Hbq] & Hqt & Hqs). split; [|done]. split; [by eexists|]. split; [|done].
  rewrite Ht. intros ->. simpl in Hbq. by rewrite (di_null s Hi) in Hbq.
Qed.

Lemma dev_inv_joined s p n b c bc :
  dev_inv s → fresh_block s p n b → temp s ≠ NULL → c ≠ NULL → kheap s !! c = None →
  NUL ∈ bc → Z.of_nat (length bc) ≤ KMALLOC_LIMIT →
  dev_inv (joined p c bc s) ∧ ∀ q, leaked (joined p c bc s) q → leaked s q ∧ q ≠ p.
Proof.
  intros Hi [Hp Hb Hn Hnul Hs Htp] Ht Hc Hcn Hbc Hlim.
  destruct (dev_inv_live s c Hi Hc Hcn) as [Htc Hsc].
  destruct (di_temp s Hi Ht) as (bt & Hbt & _).
  assert (p ≠ c) as Hpc by congruence. split.
  - destruct Hi as [H1 H2 H3 H4 H5 H6 H7 H8].
    split; unfold joined, ring, temp in *; simpl; try done.
    + rewrite !lookup_delete_None, lookup_insert_ne by done. auto.
    + by apply map_Forall_delete, map_Forall_delete, map_Forall_insert_2.
    + intros i e He Hn'. destruct (H5 i e He Hn') as (b' & Hb' & ?).
      exists b'. split; [|done]. rewrite !lookup_delete_ne, lookup_insert_ne; [done|..].
      * intros E. by apply (Hsc i e He).
      * intros E. by apply (Hs i e He).
      * intros E. by apply (H8 i e He).
    + intros _. exists bc. split; [|done].
      rewrite !lookup_delete_ne, lookup_insert_eq; done.
    + intros i e He Hn'. by eapply Hsc.
  - intros q ([bq Hbq] & Hqt & Hqs). unfold joined, ring, temp in *. simpl in *.
    apply lookup_delete_Some in Hbq as [Hq1 Hbq]. apply lookup_delete_Some in Hbq as [Hq2 Hbq].
    rewrite lookup_insert_ne in Hbq by done.
    split; [|done]. split; [by eexists|]. split; [done|exact Hqs].
Qed.

End Critical.
