(* ===== verification/DriverWrite.v ===== *)
(** * Writes to the character driver

    The theorems on [aesd_write]: memory safety with the exact condition under
    which it holds, the exits, and the refinement of an abstract device, the
    list of the lines it keeps and the partial line. *)
From Stdlib Require Import ZArith Lia.
From stdpp Require Import base tactics list gmap sets numbers.
From S2P Require Import Prelude CMemory Kernel CircularBuffer CharDriver.

(** ** The abstract device *)

(** The lines the device keeps, oldest first, and the text of the writes that
    held no newline. *)
Record adevice : Type := mkA {
  a_lines : list (list Z);
  a_partial : option (list Z)
}.

(** A write of the bytes [d]: with a newline it is a line of its own, whatever
    was partial; without one it is added to the partial text. *)
Definition a_write (d : list Z) (a : adevice) : adevice :=
  if bool_decide (NL ∈ d) then mkA (last_ten (a_lines a ++ [d])) (a_partial a)
  else mkA (a_lines a) (Some (default [] (a_partial a) ++ d)).

Section Write.
Context `{K : Kernel} `{R : RwSem}.

(** The block of an entry holds the line. *)
Definition entry_holds (h : heap) (e : aesd_buffer_entry) (l : list Z) : Prop :=
  buffptr e ≠ NULL ∧ size e = Z.of_nat (length l) ∧
  ∃ b, h !! buffptr e = Some b ∧ take (length l) b = l.

Definition partial_holds (h : heap) (p : Z) (t : option (list Z)) : Prop :=
  match t with
  | None => p = NULL
  | Some str => p ≠ NULL ∧ ∃ b, h !! p = Some b ∧ cstr b = Some str
  end.

(** The abstraction relation. *)
Definition holds (s : kstate) (a : adevice) : Prop :=
  Forall2 (entry_holds (kheap s)) (view (ring s)) (a_lines a) ∧
  partial_holds (kheap s) (temp s) (a_partial a).

(** The invariant of the device as long as no search failed. *)
Record good (s : kstate) : Prop := {
  good_inv : dev_inv s;
  good_clean : clean (ring s);
  good_leak p : ¬ leaked s p;
  good_idle : idle s
}.

(** The services of the kernel are available for a write of [d] from [buf]: the
    allocations succeed, the user's memory can be read and holds [d], which is
    not empty, and the byte after the copy is a NUL. *)
Record write_served (s : kstate) (buf : Z) (d : list Z) : Prop := {
  ws_alloc : ∃ p b, kmalloc (ktick s) (kheap s) (Z.of_nat (length d)) = Some (p, b) ∧
    b !! length d = Some NUL ∧
    ∀ bt str, kheap s !! temp s = Some bt → cstr bt = Some str →
      is_Some (kmalloc (S (S (ktick s))) (<[p:=filled d b]> (kheap s))
                 (Z.of_nat (length d) + Z.of_nat (length str) + 1));
  ws_copy : copy_from_user (S (ktick s)) (kumem s) buf (length d) = (d, 0);
  ws_text : NUL ∉ d;
  ws_nonempty : d ≠ []
}.

(** What [write_served] asks of the kernel, for any [count] bytes at [buf], which may not
    be readable: the block is there with a NUL after the bytes asked for, and so is the
    block for the text joined to the partial text. *)
Definition write_ready (s : kstate) (buf count : Z) : bool :=
  match kmalloc (ktick s) (kheap s) count with
  | None => false
  | Some (p, b) =>
    bool_decide (b !! Z.to_nat count = Some NUL) &&
    let '(d, nleft) := copy_from_user (S (ktick s)) (kumem s) buf (Z.to_nat count) in
    match kheap s !! temp s ≫= cstr with
    | Some str => negb (nleft =? 0) || bool_decide (is_Some
        (kmalloc (S (S (ktick s))) (<[p:=filled d b]> (kheap s)) (count + Z.of_nat (length str) + 1)))
    | None => true
    end
  end.

(** The text is terminated when it is used: unless the allocation or the copy fails, there
    is a NUL in the first [count + 1] bytes of the block after the copy. *)
Definition write_terminated (s : kstate) (buf count : Z) : bool :=
  match kmalloc (ktick s) (kheap s) count with
  | None => true
  | Some (p, b) =>
    let '(d, nleft) := copy_from_user (S (ktick s)) (kumem s) buf (Z.to_nat count) in
    negb (nleft =? 0) || bool_decide (NUL ∈ take (S (Z.to_nat count)) (filled d b))
  end.

Context `{!KernelOk K} `{!RwSemOk R}.
Implicit Types s : kstate.

Lemma write_terminated_spec s buf count p b d :
  write_terminated s buf count = true → kmalloc (ktick s) (kheap s) count = Some (p, b) →
  copy_from_user (S (ktick s)) (kumem s) buf (Z.to_nat count) = (d, 0) →
  NUL ∈ take (S (Z.to_nat count)) (filled d b).
Proof. unfold write_terminated. intros H Hm Hd. rewrite Hm, Hd in H. by apply bool_decide_eq_true in H. Qed.

Lemma filled_fresh s p b d :
  dev_inv s → p ≠ NULL → kheap s !! p = None → NUL ∈ filled d b →
  (length d ≤ length b)%nat → Z.of_nat (length b) ≤ KMALLOC_LIMIT →
  dev_inv (copied s p (filled d b)) ∧
  fresh_block (copied s p (filled d b)) p (Z.of_nat (length d)) (filled d b) ∧
  ∀ q, leaked (copied s p (filled d b)) q → leaked s q ∨ q = p.
Proof.
  intros Hi Hp Hn Hnul Hl Hlim. destruct (dev_inv_live s p Hi Hp Hn) as [Ht Hs].
  assert (length (filled d b) = length b) as Hlf.
  { unfold filled. rewrite length_app, length_drop. lia. }
  split; [|split].
  - apply dev_inv_copied; auto. by rewrite Hlf.
  - split; simpl; auto; [by rewrite lookup_insert_eq|lia].
  - intros q ([bq Hbq] & Hqt & Hqs). destruct (decide (q = p)) as [->|Hqp]; [by right|left].
    simpl in Hbq. rewrite lookup_insert_ne in Hbq by done. split; [by eexists|done].
Qed.

(** The state at the exit: only the semaphore differs from that of the critical
    section, and it is free when it was. *)
Lemma trylock_write s :
  ∃ r m, k_down_write_trylock s = Ok (r, set_sem m s) ∧
    (r = 1 → idle s ∧ idle (set_sem (up_write m) s)) ∧
    (r ≠ 1 → idle s → False) ∧ (r ≠ 1 → readers m = readers (dsem s) ∧ writer m = writer (dsem s)).
Proof.
  unfold k_down_write_trylock. destruct (down_write_trylock (dsem s)) as [r m] eqn:E.
  exists r, m. split; [done|]. split_and!.
  - intros ->. destruct (down_write_held _ _ E) as (? & ? & ? & ?).
    destruct (up_write_held m). unfold idle, dsem in *; simpl. split; split; congruence.
  - intros Hr [H1 H2]. apply Hr. rewrite <-(down_write_free _ H2 H1). by rewrite E.
  - intros Hr. by apply down_write_contended in E.
Qed.

(** The critical section and the exit of a write whose block is terminated. *)
Lemma write_locked_run s p n b :
  dev_inv s → fresh_block s p n b → n ≤ KMALLOC_LIMIT → NUL ∈ take (S (Z.to_nat n)) b →
  (∃ s', write_locked p n s = Ok (tt, s') ∧ dev_inv s' ∧ dsem s' = dsem s ∧
     (clean (ring s) → clean (ring s') ∧ ∀ q, leaked s' q → leaked s q ∧ q ≠ p)) ∨
  (write_locked p n s = Fault NullDeref ∧ temp s ≠ NULL ∧
     ∃ bt str, kheap s !! temp s = Some bt ∧ cstr bt = Some str ∧
       kmalloc (ktick s) (kheap s) (n + Z.of_nat (length str) + 1) = None).
Proof.
  intros Hi Hf Hn Hnul. pose proof Hf as Hfe. destruct Hf as [Hp Hb Hsz Hbn Hs Ht].
  pose proof Hfe as Hf.
  destruct (cstr_bound b (Z.to_nat n) Hnul) as (str & Hstr & Hlen).
  rewrite (write_locked_text s p n b str Hfe Hstr). case_bool_decide.
  - left. destruct (write_line_ok s p n b Hi Hf) as (old & b' & _ & Hw & Hi' & _ & Hc).
    { unfold KMALLOC_LIMIT in Hn. lia. }
    eexists. split; [exact Hw|]. split_and!; [done..|]. exact Hc.
  - destruct (decide (temp s = NULL)) as [Htn|Htn].
    + left. eexists. split; [by apply write_partial_first|].
      destruct (dev_inv_first s p n b Hi Hf Htn) as [Hi' Hl].
      split_and!; [done..|]. intros Hc. split; [exact Hc|done].
    + destruct (di_temp s Hi Htn) as (bt & Hbt & [st_ Hst]%cstr_is_Some).
      pose proof (write_partial_join s p n b bt st_ str Hi Hf Htn Hbt Hst Hstr) as Hj.
      destruct (kmalloc (ktick s) (kheap s) _) as [[c bc0]|] eqn:Hm; [left|right].
      * destruct Hj as (bc & Hbc & Hlim & Hc & Hcn & Hw); [lia|].
        eexists. split; [exact Hw|].
        destruct (dev_inv_joined s p n b c bc Hi Hf Htn Hc Hcn) as [Hi' Hl]; [|done|].
        { by apply cstr_is_Some. }
        split_and!; [done..|]. intros Hcl. split; [exact Hcl|done].
      * split; [apply Hj; lia|eauto 10].
Qed.

Lemma fresh_block_sem s m p n b : fresh_block s p n b → fresh_block (set_sem m s) p n b.
Proof. intros [H1 H2 H3 H4 H5 H6]. by split. Qed.

Lemma idle_sem s s' : dsem s' = dsem s → idle s → idle s'.
Proof. unfold idle. by intros ->. Qed.

(** What a write of [count] bytes may do to a device: nothing unsafe and nothing
    lost, or the fault of the unchecked allocation for the joined text. *)
Definition write_outcome (s : kstate) (count : Z) (r : res (Z * kstate)) : Prop :=
  (∃ ret s', r = Ok (ret, s') ∧ dev_inv s' ∧ (idle s → idle s') ∧
     (clean (ring s) → clean (ring s') ∧ ∀ q, leaked s' q → leaked s q)) ∨
  (r = Fault NullDeref ∧ temp s ≠ NULL ∧
     ∃ p b bt str, kheap s !! temp s = Some bt ∧ cstr bt = Some str ∧
       kmalloc (S (S (ktick s))) (<[p:=b]> (kheap s))
         (count + Z.of_nat (length str) + 1) = None).

Lemma exit_restores s p b ret :
  dev_inv s → kheap s !! p = None → p ≠ NULL →
  aesd_write_fail p ret (copied s p b) =
  Ok (ret, mkK (kheap s) (S (S (ktick s))) (kumem s) (kdev s)).
Proof.
  intros Hi Hn Hp. rewrite (aesd_write_fail_ok _ p b) by (done || apply lookup_insert_eq).
  by rewrite copied_freed.
Qed.

Lemma same_device s t : dev_inv s → dev_inv (mkK (kheap s) t (kumem s) (kdev s)).
Proof. intros [H1 H2 H3 H4 H5 H6 H7 H8]. by split. Qed.

Lemma write_safe s buf count p b d :
  dev_inv s → 0 < count →
  kmalloc (ktick s) (kheap s) count = Some (p, b) →
  copy_from_user (S (ktick s)) (kumem s) buf (Z.to_nat count) = (d, 0) →
  NUL ∈ take (S (Z.to_nat count)) (filled d b) →
  write_outcome s count (aesd_write buf count s).
Proof.
  intros Hi Hc Hm Hd Hnul.
  destruct (aesd_write_copied s buf count p b d 0 Hc Hm Hd)
    as (Hp & Hpn & Hld & Hcl & Hlf & Hcb & Hlim & ->). simpl.
  assert (NUL ∈ filled d b) as Hnul' by exact (subseteq_take _ _ _ Hnul).
  destruct (filled_fresh s p b d Hi Hp Hpn Hnul') as (Hi1 & Hf1 & Hl1); [lia|done|].
  rewrite Hld, Z2Nat.id in Hf1 by lia.
  kstep (PDEBUG_s_ok (copied s p (filled d b)) p (filled d b) (fb_heap _ _ _ _ Hf1) Hp Hnul').
  destruct (trylock_write (copied s p (filled d b))) as (r & m & Htry & H1 & Hid & Hcon).
  kstep Htry. destruct (Z.eqb_spec r 1) as [->|Hr]; simpl.
  - set (s1 := set_sem m (copied s p (filled d b))).
    destruct (write_locked_run s1 p count (filled d b)) as [(s' & Hw & Hi' & Hsem & Hcl')|(Hw & Ht & bt & str & Hbt & Hst & Hn)].
    { by apply dev_inv_sem. } { by apply fresh_block_sem. } { lia. } { done. }
    + left. kstep Hw. eexists _, _. split; [reflexivity|]. split_and!.
      * by apply dev_inv_sem.
      * intros Hids. destruct (H1 eq_refl) as [_ Hid']. by rewrite Hsem.
      * intros Hcln. destruct (Hcl' Hcln) as [? Hlk]. split; [done|].
        intros q Hq. destruct (Hlk q Hq) as [Hq' ?]. by destruct (Hl1 q Hq').
    + right. rewrite (st_bind_fault _ _ _ _ Hw). split_and!; [done..|].
      destruct (dev_inv_live s p Hi Hp Hpn) as [Htp _]. simpl in Hbt.
      rewrite lookup_insert_ne in Hbt by (intros E; apply Htp; symmetry; exact E).
      eexists _, _, _, _. split_and!; [exact Hbt|exact Hst|exact Hn].
  - left. rewrite (aesd_write_fail_ok _ p (filled d b)) by (done || apply lookup_insert_eq).
    eexists _, _. split; [reflexivity|]. simpl. rewrite delete_insert_id by done. split_and!.
    + apply (dev_inv_sem (mkK (kheap s) (S (S (ktick s))) (kumem s) (kdev s)) m).
      by apply same_device.
    + intros Hids. by destruct (Hid Hr).
    + intros Hcln. split; [done|]. by intros q.
Qed.

Lemma write_enomem s buf count :
  kmalloc (ktick s) (kheap s) count = None →
  aesd_write buf count s = Ok (- ENOMEM, tick s).
Proof. intros Hm. unfold aesd_write. by kstep (k_malloc_none s count Hm). Qed.

Lemma write_efault s buf count p b d nleft :
  dev_inv s → 0 < count →
  kmalloc (ktick s) (kheap s) count = Some (p, b) →
  copy_from_user (S (ktick s)) (kumem s) buf (Z.to_nat count) = (d, nleft) → nleft ≠ 0 →
  aesd_write buf count s = Ok (- EFAULT, mkK (kheap s) (S (S (ktick s))) (kumem s) (kdev s)).
Proof.
  intros Hi Hc Hm Hd Hn.
  destruct (aesd_write_copied s buf count p b d nleft Hc Hm Hd) as (Hp & Hpn & _ & _ & _ & _ & _ & ->).
  destruct (Z.eqb_spec nleft 0); [done|]. by apply exit_restores.
Qed.

(** All the outcomes of a write. *)
Lemma write_cases s buf count :
  dev_inv s → 0 < count →
  (∀ p b d, kmalloc (ktick s) (kheap s) count = Some (p, b) →
     copy_from_user (S (ktick s)) (kumem s) buf (Z.to_nat count) = (d, 0) →
     NUL ∈ take (S (Z.to_nat count)) (filled d b)) →
  write_outcome s count (aesd_write buf count s).
Proof.
  intros Hi Hc Hnul. destruct (kmalloc (ktick s) (kheap s) count) as [[p b]|] eqn:Hm.
  - destruct (copy_from_user (S (ktick s)) (kumem s) buf (Z.to_nat count)) as [d nleft] eqn:Hd.
    destruct (decide (nleft = 0)) as [->|Hn]; [eauto using write_safe|].
    left. rewrite (write_efault s buf count p b d nleft) by done.
    eexists _, _. split; [reflexivity|]. split_and!; [by apply same_device|done|].
    intros Hcl. by split; [|intros q].
  - left. rewrite write_enomem by done. eexists _, _. split; [reflexivity|].
    split_and!; [by apply same_device|done|]. intros Hcl. by split; [|intros q].
Qed.

(** A write that finds the semaphore held frees its buffer and reports success. *)
Lemma write_contended s buf count p b d :
  dev_inv s → 0 < count →
  kmalloc (ktick s) (kheap s) count = Some (p, b) →
  copy_from_user (S (ktick s)) (kumem s) buf (Z.to_nat count) = (d, 0) →
  NUL ∈ filled d b → (down_write_trylock (dsem s)).1 ≠ 1 →
  ∃ m, aesd_write buf count s =
    Ok (count, mkK (kheap s) (S (S (ktick s))) (kumem s)
                 (mkDev (ring s) m (temp s))).
Proof.
  intros Hi Hc Hm Hd Hnul Hr.
  destruct (aesd_write_copied s buf count p b d 0 Hc Hm Hd)
    as (Hp & Hpn & Hld & Hcl & Hlf & Hcb & Hlim & ->). simpl.
  kstep (PDEBUG_s_ok (copied s p (filled d b)) p (filled d b) (lookup_insert_eq _ _ _) Hp Hnul).
  unfold k_down_write_trylock at 1. unfold mbind, st_bind at 1.
  change (dsem (copied s p (filled d b))) with (dsem s).
  destruct (down_write_trylock (dsem s)) as [r m]. simpl in Hr.
  destruct (Z.eqb_spec r 1); [done|]. simpl. exists m.
  rewrite (aesd_write_fail_ok _ p (filled d b)) by (done || apply lookup_insert_eq).
  unfold set_heap, set_sem, set_dev. simpl. rewrite delete_insert_id by done.
  rewrite i64_small by (unfold KMALLOC_LIMIT in *; lia). done.
Qed.

(** A write of 0 bytes. *)
Lemma empty_write `{!KernelZero K} s buf :
  ((down_write_trylock (dsem s)).1 = 1 → aesd_write buf 0 s = Fault OutOfBounds) ∧
  ((down_write_trylock (dsem s)).1 ≠ 1 → ∃ s', aesd_write buf 0 s = Ok (0, s')).
Proof.
  set (s1 := copied s ZERO_SIZE_PTR []).
  assert (kheap s1 !! ZERO_SIZE_PTR = Some []) as Hz by apply lookup_insert_eq.
  assert (aesd_write buf 0 s = (r ← k_down_write_trylock;
    if negb (r =? 1) then aesd_write_fail ZERO_SIZE_PTR (i64 0)
    else write_locked ZERO_SIZE_PTR 0 ;;; k_up_write ;;; mret (i64 0)) s1) as ->.
  { unfold aesd_write. kstep (k_malloc_some s 0 _ _ (kmalloc_zero _ _)). simpl.
    assert (k_copy_from_user ZERO_SIZE_PTR buf 0
      (tick (set_heap (<[ZERO_SIZE_PTR:=[]]> (kheap s)) s)) = Ok (0, s1)) as Hcfu; [|by kstep Hcfu].
    unfold k_copy_from_user. simpl.
    destruct (copy_from_user _ _ _ _) as [bs left] eqn:E.
    pose proof (copy_from_user_length _ _ _ _ _ _ E) as Hl.
    assert (left = 0) as ->.
    { change left with ((bs, left).2). rewrite <-E. apply copy_from_user_mapped. simpl. lia. }
    destruct bs; [|done]. unfold store_at. rewrite (block_at_ok _ ZERO_SIZE_PTR []);
      [|done|apply lookup_insert_eq]. simpl. by rewrite insert_insert_eq. }
  destruct (down_write_trylock (dsem s)) as [r m] eqn:E.
  assert (k_down_write_trylock s1 = Ok (r, set_sem m s1)) as Htry.
  { unfold k_down_write_trylock. change (dsem s1) with (dsem s). by rewrite E. }
  rewrite (st_bind_step _ _ _ _ _ Htry). cbn [fst]. split; intros Hr.
  - rewrite Hr. simpl. do 2 apply st_bind_fault. unfold of_heap, strstr. simpl.
    by rewrite (cstring_at_unterminated _ _ []) by (done || set_solver).
  - destruct (Z.eqb_spec r 1); [done|]. cbn [negb].
    rewrite (aesd_write_fail_ok _ ZERO_SIZE_PTR []) by done. eauto.
Qed.

(** ** Refinement *)

Lemma view_entry s e : e ∈ view (ring s) → ∃ i, entry (ring s) !! i = Some e.
Proof.
  intros He. apply list_elem_of_lookup. unfold view, slots in He.
  rewrite <-(elem_of_rotate _ (Z.to_nat (out_offs (ring s)))). by eapply subseteq_take.
Qed.

(** Blocks that are still live hold the same lines. *)
Lemma entry_holds_kept h h' e l :
  (∀ b, h' !! buffptr e = Some b → h !! buffptr e = Some b) →
  is_Some (h' !! buffptr e) → entry_holds h e l → entry_holds h' e l.
Proof.
  intros Hh [b Hb] (Hn & Hl & b' & Hb' & Ht). split_and!; [done..|].
  exists b. split; [done|]. rewrite (Hh b Hb) in Hb'. by simplify_eq.
Qed.

Lemma dev_inv_view_live s :
  dev_inv s → Forall (λ e, buffptr e ≠ NULL → is_Some (kheap s !! buffptr e)) (view (ring s)).
Proof.
  intros Hi. apply list.Forall_forall. intros e [i He]%view_entry Hn.
  destruct (di_slot s Hi i e He Hn) as (b & Hb & _). by eexists.
Qed.

Lemma push_bounded_lines (P : aesd_buffer_entry → list Z → Prop) h ls e l :
  Forall2 P h ls → P e l → (length h ≤ 10)%nat →
  Forall2 P (push_bounded h e).2 (last_ten (ls ++ [l])).
Proof.
  intros Hf He Hl. pose proof (Forall2_length Hf) as Hll.
  unfold last_ten. rewrite length_app. simpl.
  destruct (decide (length h = 10)%nat) as [H10|H10].
  - destruct Hf as [|e0 l0 h ls H0 Hf]; [done|]. rewrite (push_bounded_full _ e H10 e0) by done.
    simpl in *. replace (length ls + 1 - 9)%nat with 1%nat by lia. simpl.
    apply Forall2_app; auto.
  - rewrite push_bounded_free by lia. simpl.
    replace (length ls + 1 - 10)%nat with 0%nat by lia. apply Forall2_app; auto.
Qed.

Lemma holds_kept s s' ls :
  dev_inv s' → ring s' = ring s →
  (∀ e b, e ∈ view (ring s) → kheap s' !! buffptr e = Some b → kheap s !! buffptr e = Some b) →
  Forall2 (entry_holds (kheap s)) (view (ring s)) ls →
  Forall2 (entry_holds (kheap s')) (view (ring s')) ls.
Proof.
  intros Hi Hr Hk Hls. pose proof (dev_inv_view_live s' Hi) as Hlive. rewrite Hr in *.
  apply (Forall2_Forall_impl (entry_holds (kheap s)) _
    (λ e, e ∈ view (ring s) ∧ (buffptr e ≠ NULL → is_Some (kheap s' !! buffptr e)))); [done| |].
  - apply list.Forall_forall. intros e He. rewrite list.Forall_forall in Hlive. auto.
  - intros e l He [Hev Hl]. eapply entry_holds_kept; [|apply Hl, He|exact He]. eauto.
Qed.

(** The partial text after a complete line and after a text that was joined to it. *)
Lemma partial_line s old b' t :
  dev_inv (line_written old b' s) → partial_holds (kheap s) (temp s) t →
  partial_holds (delete (buffptr old) (kheap s)) (temp s) t.
Proof.
  intros Hi. destruct t as [str|]; [|done]. intros (Ht & bt & Hbt & Hst).
  split; [done|]. exists bt. split; [|done].
  destruct (di_temp _ Hi Ht) as (bt' & Hbt' & _). simpl in Hbt'.
  pose proof Hbt' as [_ E]%lookup_delete_Some. unfold temp in *. simpl in *. congruence.
Qed.

Lemma partial_joined s p c bc str :
  dev_inv (joined p c bc s) → c ≠ NULL → cstr bc = Some str →
  partial_holds (kheap (joined p c bc s)) c (Some str).
Proof.
  intros Hi Hc Hs. split; [done|]. exists bc. split; [|done].
  destruct (di_temp _ Hi Hc) as (b2 & Hb2 & _). change (temp (joined p c bc s)) with c in Hb2.
  rewrite Hb2. simpl in Hb2.
  apply lookup_delete_Some in Hb2 as [_ [_ Hb2]%lookup_delete_Some].
  by rewrite lookup_insert_eq in Hb2.
Qed.

Lemma locked_refines s a p b d :
  dev_inv s → holds s a → fresh_block s p (Z.of_nat (length d)) b →
  cstr b = Some d → Z.of_nat (length d) < 2 ^ 64 →
  (∀ bt str, kheap s !! temp s = Some bt → cstr bt = Some str →
     is_Some (kmalloc (ktick s) (kheap s) (Z.of_nat (length d) + Z.of_nat (length str) + 1))) →
  ∃ s', write_locked p (Z.of_nat (length d)) s = Ok (tt, s') ∧ holds s' (a_write d a) ∧
        kumem s' = kumem s.
Proof.
  intros Hi [Hls Hpt] Hf Hcd Hlen Halloc.
  destruct (cstr_Some _ _ Hcd) as [Hnd Hbd].
  assert (take (length d) b = d) as Htake by (rewrite Hbd; by rewrite take_app_length).
  rewrite (write_locked_text s p _ b d Hf Hcd). unfold a_write. case_bool_decide as Hnl.
  - destruct (write_line_ok s p _ b Hi Hf Hlen) as (old & b' & _ & Hw & Hi' & Hpush & _).
    eexists. split; [exact Hw|]. split; [split; simpl|done].
    + pose proof (dev_inv_view_live _ Hi') as Hlive. simpl in Hlive.
      eapply (Forall2_Forall_impl (entry_holds (kheap s))); [|exact Hlive|].
      * change (view (ring _)) with (view b'). rewrite (f_equal snd Hpush : view b' = _).
        apply push_bounded_lines; [done| |apply length_view_le, Hi].
        split_and!; [apply Hf|done|]. exists b. split; [apply Hf|done].
      * intros e l He Hl. eapply entry_holds_kept; [|apply Hl, He|exact He].
        simpl. by intros b0 [_ ?]%lookup_delete_Some.
    + exact (partial_line s old b' _ Hi' Hpt).
  - destruct (a_partial a) as [str|]; simpl in *.
    + destruct Hpt as (Ht & bt & Hbt & Hst).
      pose proof (write_partial_join s p _ b bt str d Hi Hf Ht Hbt Hst Hcd) as Hj.
      destruct (Halloc bt str Hbt Hst) as [[c bc0] Hm]. rewrite Hm in Hj.
      destruct Hj as (bc & Hbc & Hlim & Hc & Hcn & Hw); [lia|].
      destruct (dev_inv_joined s p _ b c bc Hi Hf Ht Hc Hcn) as [Hi' _]; [by apply cstr_is_Some|done|].
      eexists. split; [exact Hw|]. split; [split; simpl|done].
      * apply (holds_kept s (joined p c bc s)); try done. intros e be [i He]%view_entry. simpl.
        intros [_ [_ Hbe]%lookup_delete_Some]%lookup_delete_Some.
        rewrite lookup_insert_ne in Hbe; [done|].
        intros ->. destruct (dev_inv_live s _ Hi Hc Hcn) as [_ Hs]. by apply (Hs i e He).
      * by apply partial_joined.
    + eexists. split; [by apply write_partial_first|]. split; [split; simpl|done]; [done|].
      split; [apply Hf|]. exists b. split; [apply Hf|done].
Qed.

Lemma filled_text d b :
  NUL ∉ d → b !! length d = Some NUL → cstr (filled d b) = Some d ∧
  NUL ∈ take (S (length d)) (filled d b).
Proof.
  intros Hd Hb. unfold filled. rewrite (drop_S _ NUL) by done.
  split; [by apply cstr_app_nul|]. rewrite take_app_ge by lia.
  rewrite elem_of_app. right. replace (S (length d) - length d)%nat with 1%nat by lia.
  simpl. set_solver.
Qed.

Lemma holds_copied s p b a :
  dev_inv s → p ≠ NULL → kheap s !! p = None → holds s a → holds (copied s p b) a.
Proof.
  intros Hi Hp Hn [Hls Hpt]. destruct (dev_inv_live s p Hi Hp Hn) as [Ht Hs]. split; simpl.
  - pose proof (dev_inv_view_live s Hi) as Hlive.
    eapply (Forall2_Forall_impl (entry_holds (kheap s)) _
      (λ e, buffptr e ≠ NULL → is_Some (kheap s !! buffptr e))); [exact Hls|exact Hlive|].
    intros e l He Hl. assert (p ≠ buffptr e) as Hne.
    { intros ->. destruct He as (_ & _ & b' & Hb' & _). congruence. }
    apply (entry_holds_kept (kheap s)); [intros b'| |exact He]; rewrite lookup_insert_ne by done;
      [done|apply Hl, He].
  - destruct (a_partial a) as [str|]; [|done]. destruct Hpt as (Htn & bt & Hbt & Hst).
    split; [done|]. exists bt. split; [|done]. by rewrite lookup_insert_ne.
Qed.

(** What a served write does before and after its critical section: its block is
    allocated and holds the text, and the lock is obtained. *)
Lemma write_enters s buf d :
  dev_inv s → idle s → write_served s buf d →
  ∃ p b m, let s1 := set_sem m (copied s p b) in
    p ≠ NULL ∧ kheap s !! p = None ∧ Z.of_nat (length d) ≤ KMALLOC_LIMIT ∧
    cstr b = Some d ∧ NUL ∈ take (S (length d)) b ∧
    dev_inv s1 ∧ fresh_block s1 p (Z.of_nat (length d)) b ∧ idle (set_sem (up_write m) s1) ∧
    (∀ q, leaked s1 q → leaked s q ∨ q = p) ∧
    (∀ bt str, kheap s1 !! temp s1 = Some bt → cstr bt = Some str →
       is_Some (kmalloc (ktick s1) (kheap s1)
                  (Z.of_nat (length d) + Z.of_nat (length str) + 1))) ∧
    ∀ s', write_locked p (Z.of_nat (length d)) s1 = Ok (tt, s') →
      aesd_write buf (Z.of_nat (length d)) s =
        Ok (Z.of_nat (length d), set_sem (up_write (dsem s')) s').
Proof.
  intros Hi Hid [(p & b & Hm & Hnul & Halloc) Hcp Htx Hne].
  assert (0 < Z.of_nat (length d)) as Hpos by (destruct d; [done|simpl; lia]).
  rewrite <-(Nat2Z.id (length d)) in Hcp at 1.
  destruct (aesd_write_copied s buf _ p b d 0 Hpos Hm Hcp)
    as (Hp & Hpn & _ & Hlc & Hlf & Hcb & Hlim & Hrun). simpl in Hrun.
  destruct (filled_text d b Htx Hnul) as [Hcd Hnt].
  assert (NUL ∈ filled d b) as Hnb by (apply cstr_is_Some; by eexists).
  destruct (filled_fresh s p b d Hi Hp Hpn Hnb) as (Hi1 & Hf1 & Hl1); [lia|done|].
  destruct (trylock_write (copied s p (filled d b))) as (r & m & Htry & H1 & Hid1 & _).
  destruct (decide (r = 1)) as [->|Hr]; [|by destruct (Hid1 Hr)].
  destruct (H1 eq_refl) as [_ Hid'].
  exists p, (filled d b), m. split_and!; try done.
  - lia.
  - by apply dev_inv_sem.
  - by apply fresh_block_sem.
  - intros bt str Hbt Hst. simpl in *. destruct (dev_inv_live s p Hi Hp Hpn) as [Htp _].
    rewrite lookup_insert_ne in Hbt by (intros E; apply Htp; symmetry; exact E). eauto.
  - intros s' Hw. rewrite Hrun.
    kstep (PDEBUG_s_ok (copied s p (filled d b)) p (filled d b) (fb_heap _ _ _ _ Hf1) Hp Hnb).
    kstep Htry. kstep Hw. rewrite i64_small by (unfold KMALLOC_LIMIT in *; lia). done.
Qed.

Lemma write_refines s a buf d :
  good s → holds s a → write_served s buf d →
  ∃ s', aesd_write buf (Z.of_nat (length d)) s = Ok (Z.of_nat (length d), s') ∧
        good s' ∧ holds s' (a_write d a) ∧ kumem s' = kumem s.
Proof.
  intros [Hi Hcl Hlk Hid] Ha Hsv.
  destruct (write_enters s buf d Hi Hid Hsv) as
    (p & b & m & Hp & Hpn & Hlim & Hcd & Hnt & Hi1 & Hf1 & Hid' & Hl1 & Halloc & Hrun).
  destruct (locked_refines (set_sem m (copied s p b)) a p b d) as (s' & Hw & Ha' & Hu); try done.
  { by apply holds_copied. } { unfold KMALLOC_LIMIT in Hlim. lia. }
  exists (set_sem (up_write (dsem s')) s').
  split; [by apply Hrun|split; [|split; [exact Ha'|exact Hu]]].
  destruct (write_locked_run (set_sem m (copied s p b)) p (Z.of_nat (length d)) b) as
    [(s2 & Hw2 & Hi2 & Hsem & Hcl2)|(Hw2 & _)]; [done..|by rewrite Nat2Z.id| |congruence].
  rewrite Hw in Hw2. injection Hw2 as <-. destruct (Hcl2 Hcl) as [Hcl' Hlk']. split.
  - by apply dev_inv_sem.
  - done.
  - intros q Hq. destruct (Hlk' q Hq) as [Hq' Hqp]. by destruct (Hl1 q Hq') as [?%Hlk|?].
  - by rewrite Hsem.
Qed.

End Write.

(** ** A concrete device *)

Section Fresh.
Context `{R : RwSem} `{!RwSemOk R}.

(** A device just initialised, with an empty heap. *)
Lemma fresh_device_good t u :
  good (mkK ∅ t u (mkDev init_buffer init_rwsem NULL)) ∧
  holds (mkK ∅ t u (mkDev init_buffer init_rwsem NULL)) (mkA [] None).
Proof.
  assert (∀ i e, entry init_buffer !! i = Some e → e = zero_entry) as Hz.
  { intros i e He. by apply (lookup_replicate_1 (Z.to_nat ENTRY_SIZE) zero_entry e i) in He as [-> _]. }
  split; [split; [split|..]|split]; simpl; try done.
  - apply init_wf.
  - intros i e He _. exact (Hz i e He).
  - intros i e He Hn. by rewrite (Hz i e He) in Hn.
  - intros i j e e' He _ Hn. by rewrite (Hz i e He) in Hn.
  - by apply init_clean.
  - intros p [[b Hb] _]. simpl in Hb. by rewrite lookup_empty in Hb.
  - apply init_rwsem_free.
Qed.

End Fresh.

(** The user's text is at address 100. *)
Definition demo_state (text : list Z) : kstate :=
  mkK ∅ 0 (umem_write ∅ 100 text) (mkDev init_buffer init_rwsem NULL).

(** The text [ab\n]. *)
Definition demo_text : list Z := [97; 98; NL].

Lemma demo_inv text : dev_inv (demo_state text).
Proof. apply fresh_device_good. Qed.

(** ** Properties *)

Section Properties.
Context `{K : Kernel} `{R : RwSem} `{!KernelOk K} `{!RwSemOk R}.
Implicit Types s : kstate.

(** C9: Memory safety of an [aesd_write] of at least one byte that finds a terminator: on
    a device whose pointers are to live blocks of their own, and when there is a NUL in
    the first [count + 1] bytes of the block after the copy (which the code does not
    ensure: it puts none after the text), the call never reads or writes outside a
    block, uses a freed block or frees one twice; the pointers of the device stay valid
    and the semaphore is free if it was.  If also the dead slots of the ring are zero (a
    search that failed leaves others), no block becomes unreachable.  The one exception
    is the second [kmalloc], whose null result is not tested: the call then dereferences
    it. *)
Theorem aesd_write_memory_safe s buf count :
  dev_inv s → 0 < count →
  (∀ p b d, kmalloc (ktick s) (kheap s) count = Some (p, b) →
     copy_from_user (S (ktick s)) (kumem s) buf (Z.to_nat count) = (d, 0) →
     NUL ∈ take (S (Z.to_nat count)) (filled d b)) →
  write_outcome s count (aesd_write buf count s).
Proof. apply write_cases. Qed.

(** C3: [aesd_write] refines the abstract device: when the services of the kernel
    are available and the byte after the copied text is a NUL, a write of the text
    [d] returns its length and changes the lines and the partial text as [a_write]
    does: a text with a newline becomes the last of the ten kept lines on its own,
    without the partial text of earlier writes, which stays where it is; a text
    without one is added to the partial text.  No pointer dangles and no block is
    lost. *)
Theorem aesd_write_refines_device s a buf d :
  good s → holds s a → write_served s buf d →
  ∃ s', aesd_write buf (Z.of_nat (length d)) s = Ok (Z.of_nat (length d), s') ∧
        good s' ∧ holds s' (a_write d a) ∧ kumem s' = kumem s.
Proof. apply write_refines. Qed.

(** The error exits of [aesd_write]: a failed allocation gives [-ENOMEM] and an
    incomplete copy from the user [-EFAULT], and the heap and the device are as
    before the call (the buffer of the second case is freed). *)
Lemma aesd_write_error_exits s buf count :
  dev_inv s → 0 < count →
  match kmalloc (ktick s) (kheap s) count with
  | None => ∃ s', aesd_write buf count s = Ok (- ENOMEM, s') ∧
      kheap s' = kheap s ∧ kdev s' = kdev s
  | Some _ =>
    (copy_from_user (S (ktick s)) (kumem s) buf (Z.to_nat count)).2 ≠ 0 →
    ∃ s', aesd_write buf count s = Ok (- EFAULT, s') ∧
      kheap s' = kheap s ∧ kdev s' = kdev s
  end.
Proof.
  intros Hi Hc. destruct (kmalloc (ktick s) (kheap s) count) as [[p b]|] eqn:Hm.
  - destruct (copy_from_user _ _ _ _) as [d nleft] eqn:Hd. simpl. intros Hn.
    rewrite (write_efault s buf count p b d nleft) by done. eauto.
  - rewrite write_enomem by done. eauto.
Qed.

(** A write that finds the semaphore held loses its data and reports success:
    it returns [count], and the heap, the ring and the partial text are unchanged
    (the return value was set before the lock was tried). *)
Lemma aesd_write_contended_drops_data s buf count p b d :
  dev_inv s → 0 < count →
  kmalloc (ktick s) (kheap s) count = Some (p, b) →
  copy_from_user (S (ktick s)) (kumem s) buf (Z.to_nat count) = (d, 0) →
  NUL ∈ filled d b → (down_write_trylock (dsem s)).1 ≠ 1 →
  ∃ s', aesd_write buf count s = Ok (count, s') ∧
    kheap s' = kheap s ∧ ring s' = ring s ∧ temp s' = temp s.
Proof.
  intros Hi Hc Hm Hd Hnul Hr.
  destruct (write_contended s buf count p b d Hi Hc Hm Hd Hnul Hr) as [m ->]. eauto.
Qed.

(** C31: The buffer of [aesd_write] is not terminated: when neither the user's text
    nor what the allocator left after it holds a NUL, the call reads past the
    end of the block.  A write of 0 bytes always does when it gets the semaphore: it
    searches [ZERO_SIZE_PTR], which [kmalloc] returned, for a newline, while it holds
    the semaphore; when the semaphore is held it returns 0. *)
Theorem aesd_write_overreads `{!KernelZero K} s buf :
  (∀ count p b d, 0 < count →
     kmalloc (ktick s) (kheap s) count = Some (p, b) →
     copy_from_user (S (ktick s)) (kumem s) buf (Z.to_nat count) = (d, 0) →
     NUL ∉ filled d b → aesd_write buf count s = Fault OutOfBounds) ∧
  ((down_write_trylock (dsem s)).1 = 1 → aesd_write buf 0 s = Fault OutOfBounds) ∧
  ((down_write_trylock (dsem s)).1 ≠ 1 → ∃ s', aesd_write buf 0 s = Ok (0, s')).
Proof.
  split; [|apply empty_write]. intros count p b d Hc Hm Hd Hnul.
  destruct (aesd_write_copied s buf count p b d 0 Hc Hm Hd) as (_ & _ & _ & _ & _ & _ & _ & ->).
  simpl. apply st_bind_fault, (PDEBUG_s_unterminated _ _ (filled d b)); [|by eapply kmalloc_not_zero_size|done].
  apply lookup_insert_eq.
Qed.

End Properties.

Lemma aesd_write_memory_safe_witness :
  write_outcome (K:=demo_kernel [NUL]) (demo_state demo_text) 3
    (aesd_write (K:=demo_kernel [NUL]) 100 3 (demo_state demo_text)).
Proof.
  apply (aesd_write_memory_safe (K:=demo_kernel [NUL])).
  - apply demo_inv.
  - lia.
  - intros p b d Hm Hd. vm_compute in Hm. vm_compute in Hd. simplify_eq.
    apply elem_of_take. exists 3%nat. vm_compute. split; [reflexivity|lia].
Defined.

Lemma demo_served : write_served (K:=demo_kernel [NUL]) (demo_state demo_text) 100 demo_text.
Proof.
  split.
  - exists 4096, [170; 170; 170; NUL]. split; [reflexivity|]. split; [reflexivity|].
    intros bt str Hbt. by vm_compute in Hbt.
  - reflexivity.
  - unfold demo_text, NUL, NL. set_solver.
  - done.
Qed.

Lemma aesd_write_refines_device_witness :
  ∃ s', aesd_write (K:=demo_kernel [NUL]) 100 3 (demo_state demo_text) = Ok (3, s') ∧
        holds s' (mkA [demo_text] None).
Proof.
  destruct (aesd_write_refines_device (K:=demo_kernel [NUL]) (demo_state demo_text) (mkA [] None)
    100 demo_text) as (s' & H & _ & Ha & _).
  - apply fresh_device_good.
  - apply fresh_device_good.
  - apply demo_served.
  - exists s'. split; [exact H|exact Ha].
Defined.

Lemma aesd_write_overreads_witness :
  aesd_write (K:=demo_kernel [7; 7]) 100 3 (demo_state demo_text) = Fault OutOfBounds ∧
  aesd_write (K:=demo_kernel [NUL]) 100 0 (demo_state demo_text) = Fault OutOfBounds.
Proof.
  split.
  - apply (proj1 (aesd_write_overreads (K:=demo_kernel [7; 7]) (demo_state demo_text) 100) 3 4096
      [170; 170; 170; 7; 7] demo_text); [lia|reflexivity|reflexivity|].
    vm_compute. set_solver.
  - apply (aesd_write_overreads (K:=demo_kernel [NUL])). reflexivity.
Defined.
