(* ===== verification/DriverRead.v ===== *)
(** * Reads from the character driver

    The theorems on [aesd_read]: what one call does on each of its branches, and
    what a reader gets that calls it until it returns 0, as [cat] does in
    [src/aesd-char-driver/test.sh]. *)
From Stdlib Require Import ZArith Lia.
From stdpp Require Import base tactics list gmap sets numbers.
From S2P Require Import Prelude CMemory Kernel CircularBuffer CharDriver DriverWrite.

(** ** A reader *)

Section Reader.
Context `{K : Kernel} `{R : RwSem}.

(** Reads of [count] bytes into [buf] until one returns 0; [None] when the fuel is
    out or a call fails. *)
Fixpoint cat (fuel : nat) (buf count pos : Z) (s : kstate) (acc : list Z)
    : option (list Z * kstate) :=
  match fuel with
  | O => None
  | S fuel' =>
    match aesd_read buf count pos s with
    | Ok (ret, pos', s') =>
      if ret =? 0 then Some (acc, s')
      else if ret <? 0 then None
      else match umem_read (kumem s') buf (Z.to_nat ret) with
           | Some bs => cat fuel' buf count pos' s' (acc ++ bs)
           | None => None
           end
    | Fault _ => None
    end
  end.

(** The bytes of an entry. *)
Definition content (h : heap) (e : aesd_buffer_entry) : list Z :=
  match h !! buffptr e with
  | Some b => take (Z.to_nat (size e)) b
  | None => []
  end.

(** The user's buffer can be written. *)
Definition mapped (s : kstate) (buf count : Z) : Prop :=
  ∀ a, buf ≤ a < buf + count → is_Some (kumem s !! a).

(** The ring that a failed search leaves. *)
Definition reset (b : aesd_circular_buffer) : aesd_circular_buffer :=
  mkBuffer (entry b) 0 0 false.

Context `{!KernelOk K} `{!RwSemOk R}.
Implicit Types s : kstate.

(** ** One call *)

Lemma trylock_read s :
  idle s → ∃ m, k_down_read_trylock s = Ok (1, set_sem m s) ∧
    idle (set_sem (up_read m) s).
Proof.
  intros [H1 H2]. unfold k_down_read_trylock.
  pose proof (down_read_free _ H2 H1) as Hf.
  destruct (down_read_trylock (dsem s)) as [r m] eqn:E. simpl in Hf. subst r.
  exists m. split; [done|]. destruct (down_read_held _ _ E) as (_ & Hr & Hw).
  destruct (up_read_held m) as [Hr' Hw']. unfold idle, dsem in *. simpl. rewrite Hr', Hw', Hr, Hw.
  split; [|done]. by rewrite H1.
Qed.

Lemma lookup_run s pos m p o b' :
  k_down_read_trylock s = Ok (1, set_sem m s) → 0 ≤ pos < 2 ^ 64 →
  aesd_circular_buffer_find_entry_offset_for_fpos (ring s) pos 0 = Ok (p, o, b') →
  aesd_read_lookup pos s = Ok (Some p, set_sem (up_read m) (set_buffer b' s)).
Proof.
  intros Htry Hpos Hf. unfold aesd_read_lookup. kstep Htry.
  rewrite u64_small by done.
  assert (k_find pos (set_sem m s) = Ok (p, set_buffer b' (set_sem m s))) as Hk.
  { unfold k_find. change (ring (set_sem m s)) with (ring s). by rewrite Hf. }
  by kstep Hk.
Qed.

Lemma copy_run s slot e b buf count pos :
  arr_get (entry (ring s)) slot = Ok e → buffptr e ≠ NULL →
  kheap s !! buffptr e = Some b → NUL ∈ b → 0 ≤ size e ≤ Z.of_nat (length b) →
  aesd_read_copy (Some slot) buf count pos s =
  let retval := if count <=? size e then i64 count else i64 (size e) in
  let '(u, nleft) := copy_to_user (ktick s) (kumem s) buf (take (Z.to_nat (size e)) b) in
  Ok (if nleft =? 0 then retval else - EFAULT, i64 (pos + retval), tick (set_umem u s)).
Proof.
  intros Hg Hn Hb Hnul Hsz. unfold aesd_read_copy.
  assert (k_entry slot s = Ok (e, s)) as Hk by (unfold k_entry; by rewrite Hg).
  kstep Hk. kstep (PDEBUG_s_ok s (buffptr e) b Hb Hn Hnul).
  unfold k_copy_to_user, mbind, st_bind, res_bind.
  rewrite (block_at_ok _ _ b) by done. rewrite load_bytes_ok by done.
  destruct (copy_to_user _ _ _ _) as [u nleft].
  by destruct (nleft =? 0).
Qed.

Lemma dev_inv_size s e :
  dev_inv s → e ∈ slots (ring s) → 0 < size e →
  buffptr e ≠ NULL ∧ ∃ b, kheap s !! buffptr e = Some b ∧ NUL ∈ b ∧
    size e ≤ Z.of_nat (length b) ∧ size e ≤ KMALLOC_LIMIT.
Proof.
  intros Hi He Hsz. unfold slots in He. rewrite elem_of_rotate in He.
  apply list_elem_of_lookup in He as [i He].
  assert (buffptr e ≠ NULL) as Hn.
  { intros E. rewrite (di_zero s Hi i e He E) in Hsz. simpl in Hsz. lia. }
  split; [done|]. destruct (di_slot s Hi i e He Hn) as (b & Hb & Hl & Hnul).
  exists b. split_and!; try done.
  pose proof (map_Forall_lookup_1 _ _ _ _ (di_limit s Hi) Hb) as Hlim. simpl in Hlim. lia.
Qed.

Lemma total_size_bound l c : Forall (λ e, size e ≤ c) l → total_size l ≤ Z.of_nat (length l) * c.
Proof. induction 1; cbn [total_size foldr length]; [lia|]. unfold total_size in *. lia. Qed.

Lemma dev_inv_total s k :
  dev_inv s → total_size (take k (slots (ring s))) ≤ 10 * KMALLOC_LIMIT.
Proof.
  intros Hi.
  assert (Forall (λ e, size e ≤ KMALLOC_LIMIT) (take k (slots (ring s)))) as H.
  { apply Forall_take, list.Forall_forall. intros e He.
    destruct (decide (0 < size e)) as [Hs|Hs]; [|unfold KMALLOC_LIMIT; lia].
    by destruct (dev_inv_size s e Hi He Hs) as (_ & b & _ & _ & _ & ?). }
  pose proof (total_size_bound _ _ H). pose proof (length_take (slots (ring s)) k) as Hl.
  rewrite (length_slots _ (di_ring s Hi)) in Hl. unfold KMALLOC_LIMIT in *. lia.
Qed.

(** A read whose position is in an entry. *)
Lemma read_found s buf count pos k o e :
  dev_inv s → idle s → 0 ≤ pos < 2 ^ 63 → 0 ≤ count →
  locate (slots (ring s)) pos = Some (k, o) → slots (ring s) !! k = Some e →
  ∃ b m, kheap s !! buffptr e = Some b ∧ size e ≤ Z.of_nat (length b) ∧
    idle (set_sem m s) ∧
    aesd_read buf count pos s =
    let '(u, nleft) := copy_to_user (ktick s) (kumem s) buf (take (Z.to_nat (size e)) b) in
    Ok (if nleft =? 0 then count `min` size e else - EFAULT, pos + count `min` size e,
        tick (set_umem u (set_sem m s))).
Proof.
  intros Hi Hid Hpos Hc Hloc Hk.
  destruct (locate_Some (slots (ring s)) pos k o) as (e' & Hk' & Ho & Heq); [lia|done|].
  assert (e' = e) as -> by congruence.
  destruct (dev_inv_size s e Hi) as (Hn & b & Hb & Hnul & Hl & Hlim);
    [apply list_elem_of_lookup; eauto|lia|].
  destruct (trylock_read s Hid) as (m & Htry & Hid').
  exists b, (up_read m). split_and!; [done..|].
  pose proof (find_slots (ring s) pos 0 (di_ring s Hi) ltac:(lia)) as Hf. rewrite Hloc in Hf.
  unfold aesd_read. rewrite (st_bind_step _ _ _ _ _ (lookup_run s pos m _ _ _ Htry ltac:(lia) Hf)).
  rewrite (copy_run _ (slot_of (ring s) k) e b); try done; [| |lia].
  2:{ apply arr_get_ok. split; [apply slot_of_range|]. simpl.
      rewrite <-slots_lookup; [done|apply Hi|].
      apply lookup_lt_Some in Hk. by rewrite (length_slots _ (di_ring s Hi)) in Hk. }
  pose proof (dev_inv_total s k Hi). unfold KMALLOC_LIMIT in *. cbv zeta.
  replace (if count <=? size e then i64 count else i64 (size e)) with (count `min` size e).
  2:{ cases; rewrite i64_small; lia. }
  rewrite i64_small by lia. done.
Qed.

(** A read past the end. *)
Lemma read_eof s buf count pos :
  dev_inv s → idle s → 0 ≤ pos < 2 ^ 64 → locate (slots (ring s)) pos = None →
  ∃ m, idle (set_sem m s) ∧
    aesd_read buf count pos s = Ok (0, pos, set_sem m (set_buffer (reset (ring s)) s)).
Proof.
  intros Hi Hid Hpos Hloc. destruct (trylock_read s Hid) as (m & Htry & Hid').
  exists (up_read m). split; [done|].
  pose proof (find_slots (ring s) pos 0 (di_ring s Hi) Hpos) as Hf. rewrite Hloc in Hf.
  unfold aesd_read.
  by rewrite (st_bind_step _ _ _ _ _ (lookup_run s pos m _ _ _ Htry Hpos Hf)).
Qed.

Lemma read_contended s buf count pos :
  (down_read_trylock (dsem s)).1 ≠ 1 →
  ∃ m, aesd_read buf count pos s = Ok (- ERESTARTSYS, pos, set_sem m s).
Proof.
  intros Hr. unfold aesd_read, aesd_read_lookup, k_down_read_trylock.
  unfold mbind, st_bind. destruct (down_read_trylock (dsem s)) as [r m]. simpl in Hr.
  destruct (Z.eqb_spec r 1); [done|]. simpl. by exists m.
Qed.

(** ** Reading to the end *)

Lemma dev_inv_umem s u : dev_inv s → dev_inv (set_umem u s).
Proof. intros [H1 H2 H3 H4 H5 H6 H7 H8]. by split. Qed.

Lemma dev_inv_tick s : dev_inv s → dev_inv (tick s).
Proof. intros [H1 H2 H3 H4 H5 H6 H7 H8]. by split. Qed.

Lemma dev_inv_reset s : dev_inv s → dev_inv (set_buffer (reset (ring s)) s).
Proof. intros [H1 H2 H3 H4 H5 H6 H7 H8]. split; try done. by apply reset_wf. Qed.

Lemma locate_prefix pre e l :
  Forall (λ e, 0 ≤ size e) pre → 0 < size e →
  locate (pre ++ e :: l) (total_size pre) = Some (length pre, 0).
Proof.
  intros Hp He. pose proof (total_size_nonneg pre Hp).
  rewrite locate_app by done. rewrite (proj2 (locate_None pre _ Hp ltac:(done))) by lia.
  rewrite Z.sub_diag. simpl. destruct (Z.ltb_spec 0 (size e)); [|lia]. simpl.
  by rewrite Nat.add_0_r.
Qed.

Lemma content_empty h e : size e = 0 → content h e = [].
Proof. intros E. unfold content. rewrite E. by destruct (h !! buffptr e). Qed.

(** What a read keeps: everything but the user's memory, the counter and the
    state of the free semaphore. *)
Record same_data (s s' : kstate) : Prop := {
  sd_heap : kheap s' = kheap s;
  sd_temp : temp s' = temp s;
  sd_inv : dev_inv s';
  sd_idle : idle s'
}.

Lemma prefix_nonneg s pre l :
  dev_inv s → slots (ring s) = pre ++ l → Forall (λ e, 0 ≤ size e) pre ∧
  0 ≤ total_size pre < 2 ^ 63.
Proof.
  intros Hi Hsl. pose proof (slots_size _ (di_ring s Hi)) as Hwf. rewrite Hsl in Hwf.
  apply Forall_app in Hwf as [Hpre _].
  assert (Forall (λ e, 0 ≤ size e) pre) as H0 by (eapply list.Forall_impl; [exact Hpre|simpl; lia]).
  split; [done|]. split; [by apply total_size_nonneg|].
  pose proof (dev_inv_total s (length pre) Hi) as Hb. rewrite Hsl, take_app_length in Hb.
  unfold KMALLOC_LIMIT in Hb. lia.
Qed.

(** The last read of a reader. *)
Lemma cat_end fuel buf count s acc :
  dev_inv s → idle s →
  ∃ s', cat (S fuel) buf count (total_size (slots (ring s))) s acc = Some (acc, s') ∧
    same_data s s' ∧ kumem s' = kumem s ∧ ring s' = reset (ring s).
Proof.
  intros Hi Hid. destruct (prefix_nonneg s (slots (ring s)) [] Hi) as [H0 Hb];
    [by rewrite app_nil_r|].
  destruct (read_eof s buf count (total_size (slots (ring s)))) as (m & Hid' & Hr); try done; [lia| |].
  { apply locate_None; done || lia. }
  simpl. rewrite Hr. simpl. eexists. split; [done|]. split_and!; try done.
  split; try done. by apply (dev_inv_sem (set_buffer (reset (ring s)) s)), dev_inv_reset.
Qed.

(** A read at the start of a slot that holds bytes. *)
Lemma cat_one fuel buf count pre e l s acc :
  dev_inv s → idle s → mapped s buf count → slots (ring s) = pre ++ e :: l →
  0 < size e ≤ count →
  ∃ s', cat (S fuel) buf count (total_size pre) s acc =
          cat fuel buf count (total_size (pre ++ [e])) s' (acc ++ content (kheap s) e) ∧
    same_data s s' ∧ mapped s' buf count ∧ ring s' = ring s.
Proof.
  intros Hi Hid Hm Hsl He. destruct (prefix_nonneg s pre _ Hi Hsl) as [H0 Hb0].
  destruct (read_found s buf count (total_size pre) (length pre) 0 e)
    as (b & m & Hb & Hlb & Hid' & Hr); try done; [lia|..].
  { rewrite Hsl. apply locate_prefix; [done|lia]. }
  { by rewrite Hsl, list_lookup_middle. }
  set (bs := take (Z.to_nat (size e)) b) in *.
  assert (length bs = Z.to_nat (size e)) as Hlbs by (unfold bs; rewrite length_take; lia).
  destruct (copy_to_user (ktick s) (kumem s) buf bs) as [u nleft] eqn:Hcu.
  assert (nleft = 0) as ->.
  { change nleft with ((u, nleft).2). rewrite <-Hcu. apply copy_to_user_mapped.
    intros a Ha. apply Hm. lia. }
  apply copy_to_user_all in Hcu. simpl in Hr. rewrite Z.min_r in Hr by lia.
  exists (tick (set_umem u (set_sem m s))). split.
  - cbn [cat]. rewrite Hr.
    destruct (Z.eqb_spec (size e) 0); [lia|]. destruct (Z.ltb_spec (size e) 0); [lia|].
    simpl kumem. rewrite Hcu, umem_read_write, take_ge by lia.
    rewrite total_size_app. simpl. rewrite Z.add_0_r. unfold content. by rewrite Hb.
  - split; [|split; [|done]].
    + split; try done. by apply dev_inv_tick, dev_inv_umem, dev_inv_sem.
    + intros a Ha. simpl. rewrite Hcu. apply umem_write_mapped, Hm. lia.
Qed.

(** A reader gets the bytes of the slots in search order, and leaves the ring
    reset. *)
Lemma cat_slots buf count l pre fuel s acc :
  dev_inv s → idle s → mapped s buf count →
  Forall (λ e, size e ≤ count) (slots (ring s)) →
  slots (ring s) = pre ++ l → (length l < fuel)%nat →
  ∃ s', cat fuel buf count (total_size pre) s acc =
          Some (acc ++ concat (content (kheap s) <$> l), s') ∧
    same_data s s' ∧ mapped s' buf count ∧ ring s' = reset (ring s).
Proof.
  revert pre fuel s acc.
  induction l as [|e l IH]; intros pre [|fuel] s acc Hi Hid Hm Hsz Hsl Hfuel; simpl in Hfuel; try lia.
  - rewrite app_nil_r in Hsl. subst pre.
    destruct (cat_end fuel buf count s acc Hi Hid) as (s' & Hcat & Hsd & Hu & Hr).
    exists s'. rewrite Hcat, app_nil_r. unfold mapped. rewrite Hu. eauto.
  - assert (e ∈ slots (ring s)) as Hin by (rewrite Hsl; set_solver).
    rewrite list.Forall_forall in Hsz. pose proof (Hsz e Hin) as Hec.
    pose proof (slots_size _ (di_ring s Hi)) as Hnn. rewrite list.Forall_forall in Hnn.
    destruct (decide (size e = 0)) as [Hz|Hz].
    + destruct (IH (pre ++ [e]) (S fuel) s acc) as (s' & Hcat & Hrest); try done;
        [by apply list.Forall_forall|by rewrite <-app_assoc|lia|].
      exists s'. split; [|done]. rewrite total_size_app in Hcat. simpl in Hcat.
      rewrite Hz, !Z.add_0_r in Hcat. rewrite fmap_cons. simpl. by rewrite content_empty.
    + destruct (cat_one fuel buf count pre e l s acc) as (s1 & Hone & [Hh Ht Hi1 Hid1] & Hm1 & Hr1);
        try done; [specialize (Hnn e Hin); lia|].
      destruct (IH (pre ++ [e]) fuel s1 (acc ++ content (kheap s) e))
        as (s' & Hcat & [Hh' Ht' Hi' Hid'] & Hm' & Hr'); rewrite ?Hr1; try done;
        [by apply list.Forall_forall|by rewrite <-app_assoc|lia|].
      exists s'. rewrite Hone, Hcat, Hh, Hr', Hr1, fmap_cons. simpl. rewrite <-app_assoc.
      split; [done|]. split; [|done]. split; congruence.
Qed.

(** ** The lines a reader gets *)

(** Writes one after the other; before each the user stores what it wants in its
    memory. *)
Inductive writes : kstate → list (list Z) → kstate → Prop :=
| writes_nil s : writes s [] s
| writes_cons s u buf d s1 ds s2 :
    write_served (set_umem u s) buf d →
    aesd_write buf (Z.of_nat (length d)) (set_umem u s) = Ok (Z.of_nat (length d), s1) →
    writes s1 ds s2 → writes s (d :: ds) s2.

Lemma good_umem s u : good s → good (set_umem u s).
Proof. intros [H1 H2 H3 H4]. split; try done. by apply dev_inv_umem. Qed.

Lemma writes_lines s ls ds s' :
  good s → holds s (mkA ls None) → last_ten ls = ls → Forall (λ d, NL ∈ d) ds →
  writes s ds s' → good s' ∧ holds s' (mkA (last_ten (ls ++ ds)) None).
Proof.
  intros Hg Ha Hls Hds Hw. revert ls Hg Ha Hls Hds.
  induction Hw as [s|s u buf d s1 ds s2 Hs Hwr _ IH]; intros ls Hg Ha Hls Hds.
  { by rewrite app_nil_r, Hls. }
  apply list.Forall_cons in Hds as [Hd Hds].
  destruct (write_refines (set_umem u s) (mkA ls None) buf d) as (s1' & Hwr' & Hg1 & Ha1 & _);
    [by apply good_umem|exact Ha|done|].
  rewrite Hwr in Hwr'. injection Hwr' as <-.
  unfold a_write in Ha1. rewrite bool_decide_eq_true_2 in Ha1 by done. simpl in Ha1.
  assert (∀ k, last_ten (last_ten (ls ++ [d]) ++ k) = last_ten (ls ++ d :: k)) as Hk.
  { intros k. rewrite last_ten_app. by rewrite <-app_assoc. }
  destruct (IH (last_ten (ls ++ [d]))) as [Hg2 Ha2]; try done.
  { pose proof (Hk []) as Hnil. by rewrite app_nil_r in Hnil. }
  by rewrite Hk in Ha2.
Qed.

Lemma holds_content s a :
  holds s a → content (kheap s) <$> view (ring s) = a_lines a.
Proof.
  intros [Hls _]. induction Hls as [|e l v ls He _ IH]; [done|]. rewrite fmap_cons, IH. f_equal.
  destruct He as (_ & Hsz & b & Hb & Ht). unfold content. by rewrite Hb, Hsz, Nat2Z.id.
Qed.

Lemma clean_content s :
  dev_inv s → clean (ring s) →
  concat (content (kheap s) <$> slots (ring s)) = concat (content (kheap s) <$> view (ring s)).
Proof.
  intros Hi Hc. rewrite slots_view at 1. rewrite fmap_app, concat_app.
  rewrite <-(app_nil_r (concat (content _ <$> view _))) at 2. f_equal.
  unfold clean in Hc. induction Hc as [|e l -> _ IH]; [done|]. rewrite fmap_cons. simpl.
  rewrite IH. unfold content. simpl. by rewrite (di_null s Hi).
Qed.

Lemma holds_sizes s a count :
  good s → holds s a → 0 ≤ count → Forall (λ l, Z.of_nat (length l) ≤ count) (a_lines a) →
  Forall (λ e, size e ≤ count) (slots (ring s)).
Proof.
  intros [_ Hcl _ _] [Hls _] Hc Hl. rewrite slots_view. apply Forall_app. split.
  - clear Hcl. revert Hl. induction Hls as [|e l v ls He _ IH]; intros Hl; [constructor|].
    apply list.Forall_cons in Hl as [Hl Hls]. constructor; [|auto].
    destruct He as (_ & -> & _). done.
  - eapply list.Forall_impl; [exact Hcl|]. by intros e ->.
Qed.

Lemma cat_lines s a buf count :
  good s → holds s a → 0 ≤ count → mapped s buf count →
  Forall (λ l, Z.of_nat (length l) ≤ count) (a_lines a) →
  ∃ s', cat 11 buf count 0 s [] = Some (concat (a_lines a), s') ∧
    same_data s s' ∧ mapped s' buf count ∧ ring s' = reset (ring s).
Proof.
  intros Hg Ha Hc Hm Hl. destruct Hg as [Hi Hcl Hlk Hid] eqn:E. clear E.
  destruct (cat_slots buf count (slots (ring s)) [] 11 s []) as (s' & Hcat & Hrest); try done.
  { by eapply holds_sizes. } { by rewrite (length_slots _ (di_ring s Hi)); lia. }
  exists s'. split; [|done].
  by rewrite clean_content, (holds_content s a Ha) in Hcat.
Qed.

Lemma entry_rotated b :
  wf b → let j := (10 - Z.to_nat (out_offs b))%nat in
  entry b = drop j (slots b) ++ take j (slots b).
Proof.
  intros Hwf j. pose proof (wf_length b Hwf) as Hl. rewrite entry_size_nat in Hl.
  pose proof (wf_out b Hwf) as Ho.
  unfold ENTRY_SIZE, AESDCHAR_MAX_WRITE_OPERATIONS_SUPPORTED in Ho.
  unfold slots, rotate. rewrite Hl, Nat.mod_small by lia.
  assert (length (drop (Z.to_nat (out_offs b)) (entry b)) = j) as Hd by (rewrite length_drop; lia).
  rewrite drop_app_length' by done. rewrite take_app_length' by done. by rewrite take_drop.
Qed.

End Reader.

(** ** A concrete device *)

(** The device after the eleven one-digit lines 0 to 10: the ring is full and its
    oldest entry is in slot 1. *)
Definition demo_ptr (i : nat) : Z := 8192 + 64 * Z.of_nat i.
Definition demo_line (k : Z) : list Z := [48 + k; NL].
Definition demo_lines : list (list Z) := demo_line <$> [10; 1; 2; 3; 4; 5; 6; 7; 8; 9].
Definition demo_blocks : list (Z * list Z) :=
  imap (λ i l, (demo_ptr i, l ++ [NUL])) demo_lines.
Definition demo_ring : aesd_circular_buffer :=
  mkBuffer (imap (λ i _, mkEntry (demo_ptr i) 2) demo_lines) 1 1 true.
Definition demo_full : kstate :=
  mkK (list_to_map demo_blocks) 22 (umem_write ∅ 100 (replicate 16 0))
    (mkDev demo_ring init_rwsem NULL).

Lemma demo_ring_entry i e :
  entry demo_ring !! i = Some e → (i < 10)%nat ∧ e = mkEntry (demo_ptr i) 2.
Proof.
  intros He. unfold demo_ring in He. cbn [entry] in He.
  rewrite list_lookup_imap in He. destruct (demo_lines !! i) eqn:E; [|done].
  simplify_eq/=. apply lookup_lt_Some in E. split; [exact E|done].
Qed.

Lemma demo_full_block i :
  (i < 10)%nat → ∃ l, demo_lines !! i = Some l ∧ length l = 2%nat ∧
    kheap demo_full !! demo_ptr i = Some (l ++ [NUL]).
Proof.
  intros Hi. do 10 (destruct i as [|i]; [by eexists; split_and!; vm_compute|]). lia.
Qed.

Lemma demo_full_good : good demo_full.
Proof.
  assert (∀ i, demo_ptr i ≠ NULL) as Hn by (unfold demo_ptr, NULL; lia).
  split; [split|..]; change (ring demo_full) with demo_ring.
  - split; [done|by vm_compute|by vm_compute|done|].
    apply Forall_lookup. intros i e [_ ->]%demo_ring_entry. simpl. lia.
  - done.
  - intros p b Hb%elem_of_list_to_map_2. apply elem_of_lookup_imap in Hb as (i & l & [= -> ->] & Hl).
    destruct (demo_full_block i) as (l' & Hl' & Hlen & _); [by apply lookup_lt_Some in Hl|].
    assert (l' = l) as -> by congruence. rewrite length_app, Hlen. simpl.
    unfold KMALLOC_LIMIT. lia.
  - intros i e [_ ->]%demo_ring_entry. intros E. by destruct (Hn i).
  - intros i e [Hi ->]%demo_ring_entry _.
    destruct (demo_full_block i Hi) as (l & _ & Hl & Hb). exists (l ++ [NUL]).
    split; [exact Hb|]. rewrite length_app, Hl. simpl. split; [lia|set_solver].
  - intros i j e e' [_ ->]%demo_ring_entry [_ ->]%demo_ring_entry _. unfold demo_ptr. simpl. lia.
  - done.
  - intros i e [_ ->]%demo_ring_entry _. apply Hn.
  - constructor.
  - intros p ([b Hb] & _ & Hs). apply elem_of_list_to_map_2 in Hb.
    unfold demo_blocks in Hb. apply elem_of_lookup_imap in Hb as (i & l & [= -> ->] & Hl).
    apply (Hs i (mkEntry (demo_ptr i) 2)); [|done].
    change (imap (λ i (_ : list Z), mkEntry (demo_ptr i) 2) demo_lines !! i =
            Some (mkEntry (demo_ptr i) 2)).
    by rewrite list_lookup_imap, Hl.
  - done.
Qed.

(** ** Properties *)

Section Properties.
Context `{K : Kernel} `{R : RwSem} `{!KernelOk K} `{!RwSemOk R}.
Implicit Types s : kstate.

(** C18: What [aesd_read] does with the semaphore free, on every branch.  When the
    position is in an entry, it returns the smaller of [count] and the size of the
    entry, advances the position by that much (also when it then returns
    [-EFAULT]), and copies the whole entry from its first byte to the user's
    buffer, whatever the position inside the entry and the [count] are; the device
    is unchanged.  When the position is past the last byte, it returns 0, leaves
    the position, the heap and the user's memory, and resets the ring. *)
Theorem aesd_read_branches s buf count pos :
  dev_inv s → idle s → 0 ≤ pos < 2 ^ 63 → 0 ≤ count →
  match locate (slots (ring s)) pos with
  | Some (k, _) => ∃ e b u nleft s', slots (ring s) !! k = Some e ∧
      kheap s !! buffptr e = Some b ∧
      copy_to_user (ktick s) (kumem s) buf (take (Z.to_nat (size e)) b) = (u, nleft) ∧
      aesd_read buf count pos s =
        Ok (if nleft =? 0 then count `min` size e else - EFAULT,
            pos + count `min` size e, s') ∧
      kheap s' = kheap s ∧ ring s' = ring s ∧ temp s' = temp s ∧ kumem s' = u ∧ idle s'
  | None => ∃ s', aesd_read buf count pos s = Ok (0, pos, s') ∧
      kheap s' = kheap s ∧ ring s' = reset (ring s) ∧ temp s' = temp s ∧
      kumem s' = kumem s ∧ idle s'
  end.
Proof.
  intros Hi Hid Hpos Hc. destruct (locate (slots (ring s)) pos) as [[k o]|] eqn:E.
  - destruct (locate_Some (slots (ring s)) pos k o) as (e & Hk & _); [lia|done|].
    destruct (read_found s buf count pos k o e) as (b & m & Hb & _ & Hid' & Hr); try done.
    destruct (copy_to_user _ _ _ _) as [u nleft] eqn:Hcu.
    eexists e, b, u, nleft, _. split_and!; try done.
  - destruct (read_eof s buf count pos) as (m & Hid' & Hr); try done; [lia|]. eauto 10.
Qed.

(** A read that finds the semaphore held for writing returns [-ERESTARTSYS] at
    once, and changes neither the position nor the heap, the ring, the partial
    text or the user's memory. *)
Lemma aesd_read_contended_keeps_all s buf count pos :
  writer (dsem s) = true →
  ∃ s', aesd_read buf count pos s = Ok (- ERESTARTSYS, pos, s') ∧
    kheap s' = kheap s ∧ ring s' = ring s ∧ temp s' = temp s ∧ kumem s' = kumem s.
Proof.
  intros Hw. destruct (read_contended s buf count pos) as [m ->]; [|eauto 10].
  destruct (down_read_trylock (dsem s)) as [r m] eqn:E. simpl. intros ->.
  apply down_read_held in E as [E _]. congruence.
Qed.

(** A short read writes past the user's buffer: when [count] is smaller than the
    entry and the copy succeeds, every byte of the entry from [count] on is stored
    after the [count] bytes the caller gave. *)
Lemma aesd_read_overruns_user_buffer s buf count pos k o e i :
  dev_inv s → idle s → 0 ≤ pos < 2 ^ 63 →
  locate (slots (ring s)) pos = Some (k, o) → slots (ring s) !! k = Some e →
  mapped s buf (size e) → 0 ≤ count ≤ i → i < size e →
  ∃ s' b, aesd_read buf count pos s = Ok (count, pos + count, s') ∧
    kheap s !! buffptr e = Some b ∧ kumem s' !! (buf + i) = b !! Z.to_nat i.
Proof.
  intros Hi Hid Hpos Hloc Hk Hm Hc Hlt.
  destruct (read_found s buf count pos k o e) as (b & m & Hb & Hlb & _ & Hr); try done; [lia|].
  set (bs := take (Z.to_nat (size e)) b) in *.
  assert (length bs = Z.to_nat (size e)) as Hlbs by (unfold bs; rewrite length_take; lia).
  destruct (copy_to_user _ _ _ bs) as [u nleft] eqn:Hcu.
  assert (nleft = 0) as ->.
  { change nleft with ((u, nleft).2). rewrite <-Hcu. apply copy_to_user_mapped.
    intros a Ha. apply Hm. lia. }
  simpl in Hr. rewrite Z.min_l in Hr by lia. eexists _, b. split; [exact Hr|]. split; [done|].
  apply copy_to_user_all in Hcu. simpl. rewrite Hcu.
  replace (buf + i) with (buf + Z.of_nat (Z.to_nat i)) by lia.
  rewrite umem_write_lookup by lia. unfold bs. apply lookup_take_lt. lia.
Qed.

(** C4: Round trip of the driver: after any sequence of writes of complete lines to
    an empty device, a reader whose buffer holds the longest line gets exactly the
    last ten lines, in order and complete, and then the end of file. *)
Theorem write_then_read_round_trip s ds s' buf count :
  good s → holds s (mkA [] None) → Forall (λ d, NL ∈ d) ds → writes s ds s' →
  0 ≤ count → mapped s' buf count → Forall (λ d, Z.of_nat (length d) ≤ count) ds →
  ∃ s'', cat 11 buf count 0 s' [] = Some (concat (last_ten ds), s'').
Proof.
  intros Hg Ha Hnl Hw Hc Hm Hl.
  destruct (writes_lines s [] ds s' Hg Ha eq_refl Hnl Hw) as [Hg' Ha'].
  destruct (cat_lines s' _ buf count Hg' Ha' Hc Hm) as (s'' & Hcat & _); [|eauto].
  simpl. by apply Forall_drop.
Qed.

(** Reading to the end changes what the next reader gets: on a full device the
    first reader gets the lines in the order in which they were written, and a
    second one gets them starting from slot 0, that is, rotated whenever the
    oldest line is not in that slot. *)
Lemma second_reader_gets_rotated_lines s ls buf count :
  good s → holds s (mkA ls None) → full (ring s) = true → 0 ≤ count →
  mapped s buf count → Forall (λ l, Z.of_nat (length l) ≤ count) ls →
  let j := (10 - Z.to_nat (out_offs (ring s)))%nat in
  ∃ s1 s2, cat 11 buf count 0 s [] = Some (concat ls, s1) ∧
           cat 11 buf count 0 s1 [] = Some (concat (drop j ls ++ take j ls), s2).
Proof.
  intros Hg Ha Hf Hc Hm Hl j.
  destruct (cat_lines s _ buf count Hg Ha Hc Hm Hl) as (s1 & Hcat & [Hh Ht Hi1 Hid1] & Hm1 & Hr1).
  pose proof (good_inv s Hg) as Hi. pose proof (di_ring s Hi) as Hwf.
  assert (slots (ring s1) = entry (ring s)) as Hs1 by (rewrite Hr1; by apply reset_slots).
  destruct (cat_slots buf count (slots (ring s1)) [] 11 s1 []) as (s2 & Hcat2 & _); try done.
  { rewrite Hs1, (entry_rotated _ Hwf). pose proof (holds_sizes s _ count Hg Ha Hc Hl).
    apply Forall_app. split; [by apply Forall_drop|by apply Forall_take]. }
  { rewrite (length_slots _ (di_ring s1 Hi1)). lia. }
  exists s1, s2. split; [exact Hcat|]. rewrite Hs1, Hh in Hcat2.
  rewrite (entry_rotated _ Hwf), fmap_app, fmap_drop, fmap_take in Hcat2.
  rewrite <-(view_full _ Hwf Hf), (holds_content s _ Ha) in Hcat2. exact Hcat2.
Qed.

End Properties.

Lemma aesd_read_branches_witness :
  ∃ s', aesd_read (K:=demo_kernel [NUL]) 100 1 3 demo_full = Ok (1, 4, s') ∧
        umem_read (kumem s') 100 2 = Some [50; NL].
Proof.
  pose proof (aesd_read_branches (K:=demo_kernel [NUL]) demo_full 100 1 3
    (good_inv _ demo_full_good) (good_idle _ demo_full_good) ltac:(lia) ltac:(lia)) as H.
  vm_compute locate in H. cbv iota beta in H.
  destruct H as (e & b & u & nleft & s' & He & Hb & Hcu & Hr & _ & _ & _ & Hu & _).
  vm_compute in He. injection He as <-. vm_compute in Hb. injection Hb as <-.
  vm_compute in Hcu. injection Hcu as <- <-. exists s'. split; [exact Hr|].
  rewrite Hu. reflexivity.
Defined.

Lemma demo_writes : ∃ s', writes (K:=demo_kernel [NUL]) (demo_state demo_text) [demo_text] s' ∧
  mapped s' 100 3.
Proof.
  destruct (write_refines (K:=demo_kernel [NUL]) (demo_state demo_text) (mkA [] None) 100 demo_text)
    as (s' & Hw & _ & _ & Hu); [apply fresh_device_good..|apply demo_served|].
  exists s'. split.
  - eapply (writes_cons _ (kumem (demo_state demo_text)) 100 demo_text);
      [apply demo_served|exact Hw|constructor].
  - intros a Ha. rewrite Hu. assert (a = 100 ∨ a = 101 ∨ a = 102) as [->|[->| ->]] by lia;
      by eexists.
Qed.

Lemma write_then_read_round_trip_witness :
  ∃ s' s'', writes (K:=demo_kernel [NUL]) (demo_state demo_text) [demo_text] s' ∧
    cat (K:=demo_kernel [NUL]) 11 100 3 0 s' [] = Some (demo_text, s'').
Proof.
  destruct demo_writes as (s' & Hw & Hm).
  destruct (write_then_read_round_trip (K:=demo_kernel [NUL]) (demo_state demo_text) [demo_text]
    s' 100 3) as (s'' & H).
  - apply fresh_device_good.
  - apply fresh_device_good.
  - constructor; [|constructor]. unfold demo_text. set_solver.
  - exact Hw.
  - lia.
  - exact Hm.
  - constructor; [|constructor]. simpl. lia.
  - exists s', s''. split; [exact Hw|exact H].
Defined.

