(* ===== verification/DriverModule.v ===== *)
(** * Loading and unloading the character driver

    The theorems on [aesd_init_module], [aesd_setup_cdev] and
    [aesd_cleanup_module] of [src/aesd-char-driver/main.c]. *)
From Stdlib Require Import ZArith Lia.
From stdpp Require Import base tactics list gmap sets numbers.
From S2P Require Import Prelude CMemory Kernel CircularBuffer CharDriver DriverWrite.

Section ModuleLife.
Context `{K : Kernel} `{R : RwSem} `{C : Chrdev} `{!KernelOk K} `{!RwSemOk R} `{!ChrdevOk C}.
Implicit Types (m : mstate) (s : kstate).

(** The module with another state of the kernel: what the driver did since. *)
Definition with_kernel (s : kstate) (m : mstate) : mstate :=
  mkM (mreg m) (aesd_major m) (aesd_minor m) s.

(** ** Lemmas *)

(** The two ways in which [aesd_init_module] can go on after the region. *)
Lemma init_module_cases m result dev r :
  alloc_chrdev_region (mreg m) (aesd_minor m) 1 = (result, dev, r) → 0 ≤ result →
  MKDEV (MAJOR dev) (aesd_minor m) = dev ∧
  unregister_chrdev_region r dev 1 = mreg m ∧
  ∃ err r', cdev_add r dev 1 = (err, r') ∧
    (err ≠ 0 → r' = r ∧ (aesd_init_module m).1 = err ∧ mreg (aesd_init_module m).2 = mreg m) ∧
    (err = 0 → (aesd_init_module m).1 = 0 ∧ cdev_del r' dev = r ∧
       mreg (aesd_init_module m).2 = r' ∧ aesd_major (aesd_init_module m).2 = MAJOR dev ∧
       aesd_minor (aesd_init_module m).2 = aesd_minor m ∧
       mkernel (aesd_init_module m).2 =
         set_dev (mkDev init_buffer init_rwsem NULL) (mkernel m)).
Proof.
  intros Ha Hr. pose proof (alloc_chrdev_region_dev _ _ _ _ _ _ Ha Hr) as Hdev.
  pose proof (alloc_chrdev_region_undone _ _ _ _ _ _ Ha Hr) as Hun.
  split; [done|]. split; [done|]. destruct (cdev_add r dev 1) as [err r'] eqn:Hadd.
  exists err, r'. split; [done|]. unfold aesd_init_module, aesd_setup_cdev. rewrite Ha. simpl.
  destruct (Z.ltb_spec result 0); [lia|]. simpl. rewrite Hdev, Hadd.
  destruct (Z.eqb_spec err 0) as [->|He]; simpl; split; intros He'; try done.
  - split_and!; try done. by apply cdev_add_undone in Hadd.
  - pose proof (cdev_add_failed _ _ _ _ _ Hadd He) as ->. by split_and!.
Qed.

(** A load that succeeds, and the registry after an unload. *)
Lemma init_module_loaded m :
  (aesd_init_module m).1 = 0 →
  let m1 := (aesd_init_module m).2 in
  mkernel m1 = set_dev (mkDev init_buffer init_rwsem NULL) (mkernel m) ∧
  ∀ s, mreg (aesd_cleanup_module (with_kernel s m1)) = mreg m.
Proof.
  intros H0 m1.
  destruct (alloc_chrdev_region (mreg m) (aesd_minor m) 1) as [[result dev] r] eqn:Ha.
  assert (0 ≤ result) as Hp.
  { destruct (Z.ltb_spec result 0) as [Hn|]; [|done]. unfold aesd_init_module in H0.
    rewrite Ha in H0. simpl in H0. destruct (Z.ltb_spec result 0); simpl in H0; lia. }
  destruct (init_module_cases m _ _ _ Ha Hp) as (Hdev & Hun & err & r' & Hadd & Hf & Hs).
  destruct (decide (err = 0)) as [E|E]; [|destruct (Hf E) as (_ & He & _); congruence].
  destruct (Hs E) as (_ & Hdel & Hr & Hma & Hmi & Hk). split; [exact Hk|].
  intros s. unfold aesd_cleanup_module, with_kernel. simpl.
  unfold m1. by rewrite Hr, Hma, Hmi, Hdev, Hdel.
Qed.

(** ** Properties *)

(** A load that fails leaves nothing registered: when [aesd_init_module] returns
    an error, which is that of the call that failed, the registry is as before,
    the region included when [cdev_add] fails after its allocation. *)
Lemma init_failure_unregisters m :
  (aesd_init_module m).1 ≠ 0 → mreg (aesd_init_module m).2 = mreg m.
Proof.
  destruct (alloc_chrdev_region (mreg m) (aesd_minor m) 1) as [[result dev] r] eqn:Ha.
  destruct (Z.ltb_spec result 0) as [Hn|Hp].
  - intros _. pose proof (alloc_chrdev_region_failed _ _ _ _ _ _ Ha Hn) as ->.
    unfold aesd_init_module. rewrite Ha. simpl. by destruct (Z.ltb_spec result 0); [|lia].
  - destruct (init_module_cases m _ _ _ Ha Hp) as (_ & _ & err & r' & _ & Hf & Hs).
    destruct (decide (err = 0)) as [E|E]; [by destruct (Hs E) as [-> _]|].
    by destruct (Hf E) as (_ & _ & ->).
Qed.

(** C19: A load that succeeds gives a working empty device, and unloading undoes the
    registration whatever the device did in between; but it frees none of the
    device's blocks: every line that was kept is still in memory. *)
Theorem module_load_and_unload m :
  (aesd_init_module m).1 = 0 → kheap (mkernel m) = ∅ →
  let m1 := (aesd_init_module m).2 in
  good (mkernel m1) ∧ holds (mkernel m1) (mkA [] None) ∧
  ∀ s a, holds s a →
    let m2 := aesd_cleanup_module (with_kernel s m1) in
    mreg m2 = mreg m ∧ kheap (mkernel m2) = kheap s ∧
    ∀ l, l ∈ a_lines a → ∃ p b, kheap (mkernel m2) !! p = Some b ∧ take (length l) b = l.
Proof.
  intros H0 Hh m1. destruct (init_module_loaded m H0) as [Hk Hun].
  assert (mkernel m1 = mkK ∅ (ktick (mkernel m)) (kumem (mkernel m))
    (mkDev init_buffer init_rwsem NULL)) as Hk1.
  { unfold m1. rewrite Hk. unfold set_dev. by rewrite Hh. }
  rewrite Hk1. split; [apply fresh_device_good|]. split; [apply fresh_device_good|].
  intros s a [Hl _] m2. split; [apply Hun|]. split; [done|].
  intros l (i & Hi)%list_elem_of_lookup.
  destruct (Forall2_lookup_r _ _ _ _ _ Hl Hi) as (e & _ & _ & _ & b & Hb & Ht).
  by exists (buffptr e), b.
Qed.

End ModuleLife.

(** ** Concrete loads *)

(** A registry in which the entry is taken, and one that is empty. *)
Definition demo_module (taken : bool) : mstate (C:=demo_chrdev) :=
  mkM (C:=demo_chrdev) (false, taken) 0 0 (demo_state []).

Lemma module_load_and_unload_witness :
  holds (mkernel (aesd_init_module (demo_module false)).2) (mkA [] None) ∧
  mreg (aesd_cleanup_module (aesd_init_module (demo_module false)).2) = (false, false).
Proof.
  destruct (module_load_and_unload (C:=demo_chrdev) (demo_module false)) as (_ & Hh & H);
    [reflexivity|reflexivity|].
  split; [exact Hh|]. apply (H _ _ Hh).
Defined.
