(* ===== verification/DriverConcurrency.v ===== *)
(** * Concurrent calls of the character driver

    The reads and writes of several processes, interleaved.  A call is a program
    counter with its locals; its steps are the pieces of [aesd_read] and
    [aesd_write] of [src/aesd-char-driver/main.c] between two calls of the kernel,
    and, after the read has released the semaphore, between two accesses to its
    entry ([read_alone] and [write_alone]: run alone, they are the handlers); the calls
    of [string.h] and those of the ring count as calls of the kernel.  The
    semaphore is that of [Kernel]. *)
From Stdlib Require Import ZArith Lia.
From stdpp Require Import base tactics list gmap sets numbers.
From S2P Require Import Prelude CMemory Kernel CircularBuffer CharDriver DriverWrite DriverRead.

(** ** Calls *)

(** The order in which the two fields of the entry are read for the arguments of
    [copy_to_user], which C leaves to the compiler. *)
Class ArgOrder : Type := size_first : bool.

(** From [RSized] on a read has its result, its new position and its entry; the
    number after them is the pointer to print, or the argument read first. *)
Inductive dcall : Type :=
| RStart (buf count pos : Z)
| RLocked (buf count pos : Z)
| RFound (buf count pos : Z) (entry : option Z)
| RUnlocked (buf count pos : Z) (entry : option Z)
| RMore (buf count pos slot : Z)
| RSized (buf retval pos slot : Z)
| RPrint (buf retval pos slot p : Z)
| RArgs (buf retval pos slot : Z)
| RArg (buf retval pos slot a : Z)
| RCopy (buf retval pos p n : Z)
| RDone (retval pos : Z)
| WStart (buf count : Z)
| WAlloc (buf count buffer : Z)
| WCopied (count buffer : Z)
| WLocked (count buffer : Z)
| WPartial (count buffer : Z)
| WJoin (count buffer concat : Z)
| WCat (count buffer concat : Z)
| WFree (count buffer concat : Z)
| WSwap (count concat : Z)
| WSwapped (count concat : Z)
| WLine (count buffer : Z)
| WOld (count old : Z)
| WDrop (count old : Z)
| WStored (count : Z)
| WDone (retval : Z).

Section Returns.
Context `{R : RwSem}.

(** Every result of the operation satisfies [P]. *)
Definition returns {A} (P : A → Prop) (f : st kstate A) : Prop :=
  ∀ s a s', f s = Ok (a, s') → P a.

Lemma returns_ret {A} (P : A → Prop) a : P a → returns P (mret a).
Proof. by intros HP s b s' [= <- _]. Qed.

Lemma returns_bind {A B} (P : B → Prop) (f : st kstate A) (g : A → st kstate B) :
  (∀ a, returns P (g a)) → returns P (f ≫= g).
Proof. intros Hg s b s' (a & s1 & _ & H)%st_bind_ok. by eapply Hg. Qed.

End Returns.

(** Goes through the calls of a step. *)
Ltac returns :=
  repeat match goal with
  | |- returns _ (_ ≫= _) => apply returns_bind; intros ?
  | |- returns _ (if ?b then _ else _) => destruct b
  | |- returns _ (match ?x with _ => _ end) => destruct x
  | |- returns _ (mret _) => apply returns_ret
  | |- context [if size_first then _ else _] => destruct size_first
  end.

Section Concurrency.
Context `{K : Kernel} `{R : RwSem} `{AO : ArgOrder}.
Implicit Types s : kstate.

Definition call_step (c : dcall) : st kstate dcall :=
  match c with
  | RStart buf count pos =>
    r ← k_down_read_trylock;
    if negb (r =? 1) then mret (RDone (- ERESTARTSYS) pos) else mret (RLocked buf count pos)
  | RLocked buf count pos => entry ← k_find (u64 pos); mret (RFound buf count pos entry)
  | RFound buf count pos entry => k_up_read ;;; mret (RUnlocked buf count pos entry)
  | RUnlocked buf count pos (Some slot) =>
    e ← k_entry slot;
    if count <=? size e then mret (RSized buf (i64 count) (i64 (pos + i64 count)) slot)
    else mret (RMore buf count pos slot)
  | RUnlocked buf count pos None => mret (RDone 0 pos)
  | RMore buf count pos slot =>
    e ← k_entry slot;
    let retval := i64 (size e) in mret (RSized buf retval (i64 (pos + retval)) slot)
  | RSized buf retval pos slot =>
    e ← k_entry slot; mret (RPrint buf retval pos slot (buffptr e))
  | RPrint buf retval pos slot p => PDEBUG_s p ;;; mret (RArgs buf retval pos slot)
  | RArgs buf retval pos slot =>
    e ← k_entry slot;
    mret (RArg buf retval pos slot (if size_first then size e else buffptr e))
  | RArg buf retval pos slot a =>
    e ← k_entry slot;
    mret (if size_first then RCopy buf retval pos (buffptr e) a
          else RCopy buf retval pos a (size e))
  | RCopy buf retval pos p n =>
    nleft ← k_copy_to_user buf p n;
    mret (RDone (if negb (nleft =? 0) then - EFAULT else retval) pos)
  | RDone retval pos => mret (RDone retval pos)
  | WStart buf count =>
    buffer ← k_malloc count;
    if buffer =? NULL then retval ← aesd_write_fail buffer (- ENOMEM); mret (WDone retval)
    else mret (WAlloc buf count buffer)
  | WAlloc buf count buffer =>
    nleft ← k_copy_from_user buffer buf count;
    if negb (nleft =? 0) then retval ← aesd_write_fail buffer (- EFAULT); mret (WDone retval)
    else PDEBUG_s buffer ;;; mret (WCopied count buffer)
  | WCopied count buffer =>
    r ← k_down_write_trylock;
    if negb (r =? 1) then retval ← aesd_write_fail buffer (i64 count); mret (WDone retval)
    else mret (WLocked count buffer)
  | WLocked count buffer =>
    nl ← of_heap (λ h, strstr h buffer [NL]);
    match nl with None => mret (WPartial count buffer) | Some _ => mret (WLine count buffer) end
  | WPartial count buffer =>
    t ← k_temp;
    if t =? NULL then k_set_temp buffer ;;; mret (WStored count)
    else len ← of_heap (λ h, strlen h t);
         concat_buffer ← k_malloc (u64 (count + len + 1));
         mret (WJoin count buffer concat_buffer)
  | WJoin count buffer c =>
    t ← k_temp; on_heap (λ h, strcpy h c t) ;;; mret (WCat count buffer c)
  | WCat count buffer c => on_heap (λ h, strcat h c buffer) ;;; mret (WFree count buffer c)
  | WFree count buffer c => k_free buffer ;;; mret (WSwap count c)
  | WSwap count c => t ← k_temp; k_free t ;;; mret (WSwapped count c)
  | WSwapped count c => k_set_temp c ;;; mret (WStored count)
  | WLine count buffer =>
    old ← k_add (mkEntry buffer count);
    if negb (buffptr old =? NULL) then mret (WOld count (buffptr old)) else mret (WStored count)
  | WOld count old => PDEBUG_s old ;;; mret (WDrop count old)
  | WDrop count old => k_free old ;;; mret (WStored count)
  | WStored count => k_up_write ;;; mret (WDone (i64 count))
  | WDone retval => mret (WDone retval)
  end.

(** The calls that run on the device, and the state of the kernel. *)
Inductive calls_step : list dcall * kstate → list dcall * kstate → Prop :=
| calls_step_one l i c c' s s' :
    l !! i = Some c → call_step c s = Ok (c', s') →
    calls_step (l, s) (<[i:=c']> l, s').

(** A schedule: the calls that make the next steps, in order.  A number that is not that
    of a call makes none. *)
Fixpoint run_schedule (sched : list nat) (l : list dcall) (s : kstate)
    : res (list dcall * kstate) :=
  match sched with
  | [] => Ok (l, s)
  | i :: sched' =>
    match l !! i with
    | Some c =>
      match call_step c s with
      | Ok (c', s') => run_schedule sched' (<[i:=c']> l) s'
      | Fault f => Fault f
      end
    | None => run_schedule sched' l s
    end
  end.

(** The block that a write is about to get has a NUL after the bytes it asks for;
    [run_terminated]: all those of a schedule have. *)
Definition step_terminated (c : dcall) (s : kstate) : bool :=
  match c with
  | WStart _ count =>
    match kmalloc (ktick s) (kheap s) count with
    | Some (_, b) => bool_decide (b !! Z.to_nat count = Some NUL)
    | None => true
    end
  | _ => true
  end.

Fixpoint run_terminated (sched : list nat) (l : list dcall) (s : kstate) : bool :=
  match sched with
  | [] => true
  | i :: sched' =>
    match l !! i with
    | Some c =>
      step_terminated c s &&
      match call_step c s with
      | Ok (c', s') => run_terminated sched' (<[i:=c']> l) s'
      | Fault _ => true
      end
    | None => run_terminated sched' l s
    end
  end.

(** [n] steps of one call. *)
Fixpoint run_call (n : nat) (c : dcall) : st kstate dcall :=
  match n with O => mret c | S n' => c' ← call_step c; run_call n' c' end.

(** How many steps a call can still make. *)
Definition steps_left (c : dcall) : nat :=
  match c with
  | RStart _ _ _ => 10 | RLocked _ _ _ => 9 | RFound _ _ _ _ => 8 | RUnlocked _ _ _ _ => 7
  | RMore _ _ _ _ => 6 | RSized _ _ _ _ => 5 | RPrint _ _ _ _ _ => 4 | RArgs _ _ _ _ => 3
  | RArg _ _ _ _ _ => 2 | RCopy _ _ _ _ _ => 1 | RDone _ _ => 0
  | WStart _ _ => 11 | WAlloc _ _ _ => 10 | WCopied _ _ => 9 | WLocked _ _ => 8
  | WPartial _ _ => 7 | WJoin _ _ _ => 6 | WCat _ _ _ => 5 | WFree _ _ _ => 4 | WSwap _ _ => 3
  | WSwapped _ _ => 2 | WLine _ _ => 4 | WOld _ _ => 3 | WDrop _ _ => 2 | WStored _ => 1
  | WDone _ => 0
  end.

(** The calls that hold the semaphore for reading, and for writing. *)
Definition holds_read (c : dcall) : bool :=
  match c with RLocked _ _ _ | RFound _ _ _ _ => true | _ => false end.
Definition holds_write (c : dcall) : bool :=
  match c with
  | WLocked _ _ | WPartial _ _ | WJoin _ _ _ | WCat _ _ _ | WFree _ _ _ | WSwap _ _
  | WSwapped _ _ | WLine _ _ | WOld _ _ | WDrop _ _ | WStored _ => true
  | _ => false
  end.

Definition started (c : dcall) : bool :=
  match c with RStart _ _ _ | WStart _ _ => true | _ => false end.

Definition count_if (P : dcall → bool) (l : list dcall) : nat :=
  foldr (λ c n, (if P c then 1 else 0) + n)%nat O l.

(** The semaphore says who holds it. *)
Record sem_inv (l : list dcall) (s : kstate) : Prop := {
  sm_readers : readers (dsem s) = count_if holds_read l;
  sm_writer : count_if holds_write l = if writer (dsem s) then 1%nat else O;
  sm_excl : writer (dsem s) = true → readers (dsem s) = O
}.

(** ** Lemmas *)

Lemma count_insert P l i c c' :
  l !! i = Some c →
  (count_if P (<[i:=c']> l) + (if P c then 1 else 0) =
   count_if P l + (if P c' then 1 else 0))%nat.
Proof.
  revert i. induction l as [|x l IH]; intros [|i]; simpl; try done.
  - intros [= ->]. lia.
  - intros Hi. specialize (IH i Hi). lia.
Qed.

Lemma count_pos P l i c : l !! i = Some c → P c = true → (0 < count_if P l)%nat.
Proof.
  revert i. induction l as [|x l IH]; intros [|i]; simpl; try done.
  - intros [= ->] ->. lia.
  - intros Hi HP. specialize (IH i Hi HP). lia.
Qed.

(** Operations that leave the semaphore alone. *)
Definition keeps_sem {A} (f : st kstate A) : Prop :=
  ∀ s a s', f s = Ok (a, s') → dsem s' = dsem s.

Lemma keeps_ret {A} (a : A) : keeps_sem (mret a).
Proof. by intros s b s' [= _ <-]. Qed.

Lemma keeps_bind {A B} (f : st kstate A) (g : A → st kstate B) :
  keeps_sem f → (∀ a, keeps_sem (g a)) → keeps_sem (f ≫= g).
Proof.
  intros Hf Hg s b s' (a & s1 & H1 & H2)%st_bind_ok. by rewrite (Hg _ _ _ _ H2), (Hf _ _ _ H1).
Qed.

Lemma keeps_of_heap {A} (f : heap → res A) : keeps_sem (of_heap f).
Proof. unfold of_heap. intros s a s' H. destruct (f (kheap s)); by simplify_eq. Qed.

Lemma keeps_on_heap f : keeps_sem (on_heap f).
Proof. unfold on_heap. intros s a s' H. destruct (f (kheap s)); by simplify_eq. Qed.

Lemma keeps_malloc n : keeps_sem (k_malloc n).
Proof. unfold k_malloc. intros s a s' H. destruct (kmalloc _ _ _) as [[]|]; by simplify_eq. Qed.

Lemma keeps_from_user p b n : keeps_sem (k_copy_from_user p b n).
Proof.
  unfold k_copy_from_user. intros s a s' H. destruct (copy_from_user _ _ _ _).
  destruct (store_at _ _ _ _); by simplify_eq.
Qed.

Lemma keeps_to_user p b n : keeps_sem (k_copy_to_user p b n).
Proof.
  unfold k_copy_to_user. intros s a s' H. destruct (mbind _ _); [|done].
  destruct (copy_to_user _ _ _ _); by simplify_eq.
Qed.

Lemma keeps_find n : keeps_sem (k_find n).
Proof.
  unfold k_find. intros s a s' H.
  destruct (aesd_circular_buffer_find_entry_offset_for_fpos _ _ _) as [[[]]|]; by simplify_eq.
Qed.

Lemma keeps_add e : keeps_sem (k_add e).
Proof.
  unfold k_add. intros s a s' H.
  destruct (aesd_circular_buffer_add_entry _ _) as [[]|]; by simplify_eq.
Qed.

Lemma keeps_entry n : keeps_sem (k_entry n).
Proof. unfold k_entry. intros s a s' H. destruct (arr_get _ _); by simplify_eq. Qed.

Lemma keeps_temp : keeps_sem k_temp.
Proof. by intros s a s' [= _ <-]. Qed.

Lemma keeps_set_temp p : keeps_sem (k_set_temp p).
Proof. by intros s a s' [= _ <-]. Qed.

Create HintDb keeps discriminated.
#[local] Hint Resolve keeps_ret keeps_of_heap keeps_on_heap keeps_malloc keeps_from_user
  keeps_to_user keeps_find keeps_add keeps_entry keeps_temp keeps_set_temp : keeps.

(** Goes through the calls of a piece of a handler. *)
Ltac keeps :=
  repeat match goal with
  | |- keeps_sem (_ ≫= _) => apply keeps_bind; [|intros ?]
  | |- keeps_sem (if ?b then _ else _) => destruct b
  | |- keeps_sem (match ?x with _ => _ end) => destruct x
  | |- keeps_sem _ => solve [auto with keeps]
  end.

Lemma keeps_free p : keeps_sem (k_free p).
Proof. unfold k_free. keeps. Qed.

#[local] Hint Resolve keeps_free : keeps.

Lemma keeps_write_fail p r : keeps_sem (aesd_write_fail p r).
Proof. unfold aesd_write_fail. keeps. Qed.

Lemma keeps_PDEBUG p : keeps_sem (PDEBUG_s p).
Proof. unfold PDEBUG_s. keeps. Qed.

#[local] Hint Resolve keeps_write_fail keeps_PDEBUG : keeps.

Context `{!KernelOk K} `{!RwSemOk R}.

(** What a step does to the semaphore. *)
Definition sem_change (c c' : dcall) (m m' : rw_semaphore) : Prop :=
  (readers m' = readers m ∧ writer m' = writer m ∧
     holds_read c' = holds_read c ∧ holds_write c' = holds_write c) ∨
  (writer m = false ∧ readers m' = S (readers m) ∧ writer m' = false ∧
     holds_read c = false ∧ holds_write c = false ∧ holds_read c' = true ∧ holds_write c' = false) ∨
  (readers m' = pred (readers m) ∧ writer m' = writer m ∧
     holds_read c = true ∧ holds_write c = false ∧ holds_read c' = false ∧ holds_write c' = false) ∨
  (writer m = false ∧ readers m = O ∧ readers m' = O ∧ writer m' = true ∧
     holds_read c = false ∧ holds_write c = false ∧ holds_read c' = false ∧ holds_write c' = true) ∨
  (readers m' = readers m ∧ writer m' = false ∧
     holds_read c = false ∧ holds_write c = true ∧ holds_read c' = false ∧ holds_write c' = false).

(** A step that makes no call on the semaphore. *)
Lemma sem_change_none c c' s s' :
  dsem s' = dsem s → holds_read c' = holds_read c → holds_write c' = holds_write c →
  sem_change c c' (dsem s) (dsem s').
Proof. intros -> ? ?. by left. Qed.

Lemma keeps_run {A} (f : st kstate A) s a s' : keeps_sem f → f s = Ok (a, s') → dsem s' = dsem s.
Proof. intros Hf. apply Hf. Qed.

Lemma read_lock_change buf count pos c' s s' :
  call_step (RStart buf count pos) s = Ok (c', s') →
  sem_change (RStart buf count pos) c' (dsem s) (dsem s').
Proof.
  simpl. unfold k_down_read_trylock, mbind, st_bind.
  destruct (down_read_trylock (dsem s)) as [r m] eqn:E. destruct (Z.eqb_spec r 1) as [->|Hr]; simpl.
  - intros [= <- <-]. destruct (down_read_held _ _ E) as (? & ? & ?). right. left. by split_and!.
  - intros [= <- <-]. destruct (down_read_contended _ _ _ E Hr) as [? ?]. by left.
Qed.

Lemma write_lock_change n p c' s s' :
  call_step (WCopied n p) s = Ok (c', s') →
  sem_change (WCopied n p) c' (dsem s) (dsem s').
Proof.
  simpl. unfold k_down_write_trylock, mbind, st_bind.
  destruct (down_write_trylock (dsem s)) as [r m] eqn:E. destruct (Z.eqb_spec r 1) as [->|Hr]; simpl.
  - intros [= <- <-]. destruct (down_write_held _ _ E) as (? & ? & ? & ?).
    right. right. right. left. by split_and!.
  - destruct (down_write_contended _ _ _ E Hr) as [H1 H2].
    destruct (aesd_write_fail p (i64 n) (set_sem m s)) as [[v s1]|] eqn:Hf; [|done].
    intros [= <- <-]. pose proof (keeps_write_fail p (i64 n) _ _ _ Hf) as ->. by left.
Qed.

(** The steps that make no call on the semaphore. *)
Definition quiet (c : dcall) : bool :=
  match c with RStart _ _ _ | RFound _ _ _ _ | WCopied _ _ | WStored _ => false | _ => true end.

Lemma quiet_keeps c : quiet c = true → keeps_sem (call_step c).
Proof. destruct c; simpl; intros Hq; try discriminate Hq; keeps. Qed.

Lemma quiet_holds c :
  quiet c = true →
  returns (λ c', holds_read c' = holds_read c ∧ holds_write c' = holds_write c) (call_step c).
Proof.
  destruct c; simpl; intros Hq; try discriminate Hq; returns; done.
Qed.

Lemma call_step_sem c s c' s' :
  call_step c s = Ok (c', s') → sem_change c c' (dsem s) (dsem s').
Proof.
  intros H. destruct (quiet c) eqn:Hq.
  - destruct (quiet_holds c Hq _ _ _ H). apply sem_change_none; [|done..].
    by apply (quiet_keeps c Hq _ _ _ H).
  - destruct c; try discriminate Hq.
    + by apply read_lock_change.
    + injection H as <- <-. destruct (up_read_held (dsem s)). right. right. left. by split_and!.
    + by apply write_lock_change.
    + injection H as <- <-. destruct (up_write_held (dsem s)). do 4 right. by split_and!.
Qed.

Lemma sem_inv_step l s l' s' :
  sem_inv l s → calls_step (l, s) (l', s') → sem_inv l' s'.
Proof.
  intros [H1 H2 H3] Hstep. inversion Hstep as [? i c c' ? ? Hi Hc]; subst.
  pose proof (count_insert holds_read l i c c' Hi) as Hr.
  pose proof (count_insert holds_write l i c c' Hi) as Hw.
  destruct (call_step_sem _ _ _ _ Hc) as
    [(E1 & E2 & E3 & E4)|[(E1 & E2 & E3 & E4 & E5 & E6 & E7)|
     [(E1 & E2 & E3 & E4 & E5 & E6)|[(E1 & E2 & E3 & E4 & E5 & E6 & E7 & E8)|
      (E1 & E2 & E3 & E4 & E5 & E6)]]]];
    repeat match goal with
    | E : holds_read _ = _ |- _ => rewrite E in Hr
    | E : holds_write _ = _ |- _ => rewrite E in Hw
    end; split; rewrite ?E1, ?E2, ?E3, ?E4; try done.
  - lia.
  - lia.
  - lia.
  - rewrite E1 in H2. lia.
  - lia.
  - lia.
  - intros Hwr. rewrite (H3 Hwr). done.
  - lia.
  - rewrite E1 in H2. lia.
  - lia.
  - destruct (writer (dsem s)); lia.
Qed.

Lemma sem_inv_started l s :
  forallb started l = true → idle s → sem_inv l s.
Proof.
  intros Hl [H1 H2].
  assert (count_if holds_read l = O ∧ count_if holds_write l = O) as [Hr Hw].
  { induction l as [|c l IH]; [done|]. simpl in Hl. apply andb_true_iff in Hl as [Hc Hl].
    destruct (IH Hl) as [IH1 IH2]. simpl. rewrite IH1, IH2. by destruct c. }
  split; rewrite ?H1, ?H2, ?Hr, ?Hw; done.
Qed.

Lemma sem_inv_reachable l0 s0 l s :
  forallb started l0 = true → idle s0 → rtc calls_step (l0, s0) (l, s) → sem_inv l s.
Proof.
  intros Hl Hs Hr.
  assert (∀ x y, rtc calls_step x y → sem_inv x.1 x.2 → sem_inv y.1 y.2) as Hgen.
  { induction 1 as [|[l1 s1] [l2 s2] y Hst _ IH]; [done|]. intros HI. by eapply IH, sem_inv_step. }
  apply (Hgen _ _ Hr). by apply sem_inv_started.
Qed.

(** ** The steps of one call are the handler *)

(** Goes through the outcomes of the calls of a handler. *)
Ltac outcomes :=
  repeat (cbn [run_call call_step fst snd];
    unfold mbind, st_bind, mret, st_ret, k_entry, PDEBUG_s, of_heap, k_free, on_heap, k_temp,
      k_malloc, k_set_temp, temp, set_temp, set_heap, set_dev, tick;
    cbn [kdev temp_char_buffer kheap ktick kumem dev_buffer sem]; first
    [ reflexivity
    | match goal with
      | H : ?x = _ |- context [match ?x with _ => _ end] => rewrite H
      end
    | match goal with
      | |- context [match ?x with _ => _ end] =>
        lazymatch x with
        | context [match _ with _ => _ end] => fail
        | call_step _ _ => fail
        | run_call _ _ _ => fail
        | _ => destruct x eqn:?
        end
      end ]).

Lemma read_alone buf count pos s :
  run_call 10 (RStart buf count pos) s =
  match aesd_read buf count pos s with
  | Ok (r, s') => Ok (RDone r.1 r.2, s')
  | Fault f => Fault f
  end.
Proof. unfold aesd_read, aesd_read_lookup, aesd_read_copy. outcomes. Qed.

Lemma write_alone buf count s :
  run_call 11 (WStart buf count) s =
  match aesd_write buf count s with
  | Ok (r, s') => Ok (WDone r, s')
  | Fault f => Fault f
  end.
Proof. unfold aesd_write, write_locked, write_partial, write_line. outcomes. Qed.

Lemma run_schedule_step i sched l s c c' s' :
  l !! i = Some c → call_step c s = Ok (c', s') →
  run_schedule (i :: sched) l s = run_schedule sched (<[i:=c']> l) s'.
Proof. intros Hi Hc. simpl. by rewrite Hi, Hc. Qed.

Lemma run_schedule_fault i sched l s c f :
  l !! i = Some c → call_step c s = Fault f → run_schedule (i :: sched) l s = Fault f.
Proof. intros Hi Hc. simpl. by rewrite Hi, Hc. Qed.

Lemma call_step_left c : returns (λ c', steps_left c' ≤ pred (steps_left c))%nat (call_step c).
Proof. destruct c; simpl; returns; simpl; lia. Qed.

(** A call moves on whenever it is its turn. *)
Lemma run_schedule_left sched l s l' s' i c :
  run_schedule sched l s = Ok (l', s') → l !! i = Some c →
  ∃ c', l' !! i = Some c' ∧ (steps_left c' ≤ steps_left c - count_occ Nat.eq_dec sched i)%nat.
Proof.
  revert l s c. induction sched as [|j sched IH]; intros l s c; simpl.
  { intros [= <- <-] Hi. exists c. split; [done|lia]. }
  destruct (l !! j) as [cj|] eqn:Hj.
  - destruct (call_step cj s) as [[c1 s1]|] eqn:Hc; [|done]. intros Hr Hi.
    destruct (Nat.eq_dec j i) as [->|Hji].
    + assert (cj = c) as -> by congruence.
      destruct (IH (<[i:=c1]> l) s1 c1 Hr) as (c' & Hc' & Hle).
      { by eapply list_lookup_insert_eq, lookup_lt_Some. }
      pose proof (call_step_left c s c1 s1 Hc) as Hs. simpl in Hs. exists c'. split; [done|lia].
    + destruct (IH (<[j:=c1]> l) s1 c Hr) as (c' & Hc' & Hle); [by rewrite list_lookup_insert_ne|].
      exists c'. split; [done|lia].
  - intros Hr Hi. destruct (Nat.eq_dec j i) as [->|Hji]; [congruence|]. by apply (IH l s).
Qed.

Lemma run_schedule_rtc sched l s l' s' :
  run_schedule sched l s = Ok (l', s') → rtc calls_step (l, s) (l', s').
Proof.
  revert l s. induction sched as [|i sched IH]; intros l s; simpl; [by intros [= -> ->]|].
  destruct (l !! i) as [c|] eqn:Hi; [|by apply IH].
  destruct (call_step c s) as [[c1 s1]|] eqn:Hc; [|done]. intros H.
  eapply rtc_l; [by econstructor|by apply IH].
Qed.

Lemma count_two P l i j c c' :
  l !! i = Some c → l !! j = Some c' → i ≠ j → P c = true → P c' = true →
  (2 ≤ count_if P l)%nat.
Proof.
  revert i j. induction l as [|x l IH]; intros [|i] [|j]; simpl; try done.
  - intros [= ->] Hj _ -> Hc'. pose proof (count_pos P l j c' Hj Hc'). lia.
  - intros Hi [= ->] _ Hc ->. pose proof (count_pos P l i c Hi Hc). lia.
  - intros Hi Hj Hne Hc Hc'. assert (i ≠ j) as Hij by congruence. specialize (IH i j Hi Hj Hij Hc Hc'). lia.
Qed.

(** On a full device the four steps of a write up to its unlock free the block of the
    oldest line and put its own entry in that slot. *)
Lemma write_replaces_oldest s p n b str e :
  dev_inv s → fresh_block s p n b → n < 2 ^ 64 → cstr b = Some str → NL ∈ str →
  full (ring s) = true → view (ring s) !! 0%nat = Some e → buffptr e ≠ NULL →
  ∃ s', kheap s' !! buffptr e = None ∧ kheap s' !! p = Some b ∧
    arr_get (entry (ring s')) (out_offs (ring s)) = Ok (mkEntry p n) ∧
    ∀ i l sched, l !! i = Some (WLocked n p) →
      run_schedule (i :: i :: i :: i :: sched) l s = run_schedule sched (<[i:=WStored n]> l) s'.
Proof.
  intros Hi Hf Hn Hstr Hnl Hfull Hv Hnn.
  pose proof (di_ring s Hi) as Hwf. pose proof (wf_out _ Hwf).
  rewrite (view_full _ Hwf Hfull) in Hv.
  destruct (add_entry_full (ring s) (mkEntry p n) Hwf Hfull) as (e0 & He0 & Hadd).
  assert (e0 = e) as -> by congruence.
  assert (entry (ring s) !! Z.to_nat (out_offs (ring s)) = Some e) as He.
  { by rewrite <-(slot_of_0 _ Hwf), <-slots_lookup by (done || lia). }
  destruct (di_slot s Hi _ e He Hnn) as (bo & Hbo & _ & Hno).
  set (b' := overwritten (ring s) (mkEntry p n)) in *. set (s1 := set_buffer b' s).
  exists (set_heap (delete (buffptr e) (kheap s)) s1). split_and!.
  - apply lookup_delete_eq.
  - simpl. rewrite lookup_delete_ne; [apply Hf|]. by apply (fb_slot _ _ _ _ Hf _ _ He).
  - apply arr_get_ok. split; [lia|]. rewrite <-(wf_full _ Hwf Hfull).
    apply list_lookup_insert_eq. pose proof (in_offs_range _ Hwf). lia.
  - intros i l sched Hl. pose proof (lookup_lt_Some _ _ _ Hl) as Hlt.
    apply str_index_single in Hnl as [k Hk].
    assert (call_step (WLocked n p) s = Ok (WLine n p, s)) as H1.
    { cbn [call_step]. kstep (strstr_text s p n b str Hf Hstr). by rewrite Hk. }
    assert (call_step (WLine n p) s = Ok (WOld n (buffptr e), s1)) as H2.
    { cbn [call_step]. kstep (k_add_ok s (mkEntry p n) e b' Hadd).
      by destruct (Z.eqb_spec (buffptr e) NULL). }
    assert (call_step (WOld n (buffptr e)) s1 = Ok (WDrop n (buffptr e), s1)) as H3.
    { cbn [call_step]. by kstep (PDEBUG_s_ok s1 _ bo Hbo Hnn Hno). }
    assert (call_step (WDrop n (buffptr e)) s1 =
      Ok (WStored n, set_heap (delete (buffptr e) (kheap s)) s1)) as H4.
    { cbn [call_step]. by kstep (k_free_ok s1 _ bo Hbo Hnn). }
    rewrite (run_schedule_step _ _ _ _ _ _ _ Hl H1).
    do 3 (erewrite run_schedule_step;
      [|apply list_lookup_insert_eq; by rewrite ?length_insert|eassumption]).
    by rewrite !list_insert_insert_eq.
Qed.

Lemma k_copy_freed buf p n s :
  p ≠ NULL → kheap s !! p = None → k_copy_to_user buf p n s = Fault UseAfterFree.
Proof. intros Hp Hn. unfold k_copy_to_user. by rewrite block_at_freed. Qed.

(** ** Properties *)

(** C21: The semaphore excludes: in every interleaving of any number of reads and
    writes that start on an idle device, while a write is between its lock and its
    unlock no other call holds the semaphore, neither for reading nor for
    writing, and once no call holds it the semaphore is free. *)
Theorem driver_write_excludes l0 s0 l s :
  forallb started l0 = true → idle s0 → rtc calls_step (l0, s0) (l, s) →
  (∀ i j c c', l !! i = Some c → l !! j = Some c' → i ≠ j → holds_write c = true →
     holds_write c' = false ∧ holds_read c' = false) ∧
  (count_if holds_read l = O → count_if holds_write l = O → idle s).
Proof.
  intros Hl Hs Hr. destruct (sem_inv_reachable l0 s0 l s Hl Hs Hr) as [H1 H2 H3]. split.
  - intros i j c c' Hi Hj Hne Hc. split.
    + destruct (holds_write c') eqn:Hc'; [|done].
      pose proof (count_two holds_write l i j c c' Hi Hj Hne Hc Hc').
      destruct (writer (dsem s)); lia.
    + destruct (holds_read c') eqn:Hc'; [|done].
      pose proof (count_pos holds_read l j c' Hj Hc').
      pose proof (count_pos holds_write l i c Hi Hc).
      destruct (writer (dsem s)); [specialize (H3 eq_refl)|]; lia.
  - intros Hr0 Hw0. split; [by rewrite H1|]. by destruct (writer (dsem s)); [lia|].
Qed.

(** C23: A read uses its entry after it has released the semaphore: when a read has
    taken the oldest line of a full device and a write then stores a complete line,
    which it does under the lock, the copy of the read uses the freed buffer.  When the
    write comes between the two accesses for the arguments of the copy, the arguments
    are torn: the new pointer with the old size, which is beyond the new block when
    that is shorter, or the freed pointer with the new size. *)
Theorem read_uses_freed_line s e buf retval pos p n b str :
  dev_inv s → full (ring s) = true → view (ring s) !! 0%nat = Some e → buffptr e ≠ NULL →
  fresh_block s p n b → n < 2 ^ 64 → cstr b = Some str → NL ∈ str →
  run_schedule [1; 1; 1; 1; 0]%nat [RCopy buf retval pos (buffptr e) (size e); WLocked n p] s =
    Fault UseAfterFree ∧
  (Z.of_nat (length b) < size e →
   run_schedule [0; 1; 1; 1; 1; 0; 0]%nat [RArgs buf retval pos (out_offs (ring s)); WLocked n p] s =
     Fault (if size_first then OutOfBounds else UseAfterFree)).
Proof.
  intros Hi Hfull Hv He Hf Hn Hstr Hnl.
  destruct (write_replaces_oldest s p n b str e Hi Hf Hn Hstr Hnl Hfull Hv He)
    as (s' & Hfree & Hp & Hslot & Hsteps).
  assert (arr_get (entry (ring s)) (out_offs (ring s)) = Ok e) as Hold.
  { pose proof (di_ring s Hi) as Hwf. rewrite (view_full _ Hwf Hfull) in Hv.
    destruct (arr_get_slot (ring s) 0 Hwf) as (e0 & Hget & He0 & _); [lia|].
    rewrite slot_of_0 in Hget by done. congruence. }
  assert (∀ t e', arr_get (entry (ring t)) (out_offs (ring s)) = Ok e' →
    k_entry (out_offs (ring s)) t = Ok (e', t)) as Hk by (by intros t e' E; unfold k_entry; rewrite E).
  split.
  - rewrite Hsteps by done. eapply run_schedule_fault; [done|]. simpl.
    by rewrite (st_bind_fault _ _ _ _ (k_copy_freed buf (buffptr e) (size e) s' He Hfree)).
  - intros Hlen. erewrite run_schedule_step; [|done|by cbn [call_step]; kstep (Hk s e Hold)].
    rewrite Hsteps by done.
    erewrite run_schedule_step; [|done|by cbn [call_step]; kstep (Hk s' _ Hslot)].
    eapply run_schedule_fault; [done|]. destruct size_first; simpl; apply st_bind_fault.
    + unfold k_copy_to_user. rewrite (block_at_ok _ p b (fb_ptr _ _ _ _ Hf) Hp). simpl.
      unfold load_bytes. by rewrite bool_decide_eq_false_2 by lia.
    + by apply k_copy_freed.
Qed.

End Concurrency.

(** ** Concrete schedules *)

Lemma driver_write_excludes_witness :
  ∃ l s, run_schedule (K:=demo_kernel [NUL]) (AO:=true) [1; 1; 1; 0]%nat [RStart 100 3 0; WStart 100 3]
      (demo_state demo_text) = Ok (l, s) ∧
    l = [RDone (- ERESTARTSYS) 0; WLocked 3 4096] ∧
    ∀ c, l !! 0%nat = Some c → holds_read c = false.
Proof.
  destruct (run_schedule (K:=demo_kernel [NUL]) (AO:=true) [1; 1; 1; 0]%nat [RStart 100 3 0; WStart 100 3]
      (demo_state demo_text)) as [[l s]|] eqn:E; [|by vm_compute in E].
  assert (l = [RDone (- ERESTARTSYS) 0; WLocked 3 4096]) as Hl by (vm_compute in E; injection E as <- _; reflexivity).
  exists l, s. split; [reflexivity|]. split; [exact Hl|]. intros c Hc.
  destruct (driver_write_excludes (K:=demo_kernel [NUL]) (AO:=true) [RStart 100 3 0; WStart 100 3]
    (demo_state demo_text) l s) as [H _].
  - reflexivity.
  - apply fresh_device_good.
  - by apply (run_schedule_rtc (AO:=true) [1; 1; 1; 0]%nat).
  - apply (H 1%nat 0%nat (WLocked 3 4096) c); [by rewrite Hl|exact Hc|done|reflexivity].
Defined.

(** The device with ten lines, and the block of a write of three bytes. *)
Definition demo_block : list Z := [120; 121; NL; NUL].
Definition demo_writing : kstate := copied demo_full 999983 demo_block.

Lemma demo_writing_block :
  dev_inv demo_writing ∧ fresh_block demo_writing 999983 3 demo_block.
Proof.
  destruct (filled_fresh demo_full 999983 [0; 0; 0; NUL] [120; 121; NL])
    as (H1 & H2 & _); [apply demo_full_good|done|by vm_compute| |simpl; lia| |by split].
  - vm_compute. set_solver.
  - unfold KMALLOC_LIMIT. simpl. lia.
Qed.

Lemma read_uses_freed_line_witness :
  run_schedule (K:=demo_kernel [NUL]) (AO:=true) [1; 1; 1; 1; 0]%nat
    [RCopy 100 2 2 (demo_ptr 1) 2; WLocked 3 999983] demo_writing = Fault UseAfterFree.
Proof.
  refine (proj1 (read_uses_freed_line (K:=demo_kernel [NUL]) (AO:=true) demo_writing
    (mkEntry (demo_ptr 1) 2) 100 2 2 999983 3 demo_block [120; 121; NL] _ _ _ _ _ _ _ _)).
  - apply demo_writing_block.
  - reflexivity.
  - vm_compute. reflexivity.
  - vm_compute. done.
  - apply demo_writing_block.
  - lia.
  - reflexivity.
  - set_solver.
Defined.
