(* ===== verification/DriverTypes.v ===== *)
(** * The types of the character driver

    Every value that the driver keeps stays in the range of its C type: the bytes
    of the kernel and user memory, the pointers, the [size_t] sizes of the entries,
    the [uint8_t] offsets of the ring, the [loff_t] position and the [ssize_t]
    results.  A piece of a handler is typed by what it may be given and what it
    returns ([typed_call]), and the handlers are typed from their calls.  No state
    of the semaphore and no order of the calls is assumed. *)
From Stdlib Require Import ZArith Lia.
From stdpp Require Import base tactics list gmap sets numbers.
From S2P Require Import Prelude CMemory Kernel CircularBuffer CharDriver DriverWrite DriverRead.
From S2P Require Import DriverConcurrency.

(** ** Types *)

(** [loff_t] and [ssize_t]. *)
Definition sword (n : Z) : Prop := - 2 ^ 63 ≤ n < 2 ^ 63.

Definition heap_typed (h : heap) : Prop := map_Forall (λ _ b, Forall byte b) h.
Definition entry_typed (e : aesd_buffer_entry) : Prop := word (buffptr e) ∧ word (size e).
Definition slot_typed (k : Z) : Prop := 0 ≤ k < ENTRY_SIZE.

Definition opt_typed (o : option Z) : Prop := match o with Some k => slot_typed k | None => True end.

Section Types.
Context `{K : Kernel} `{R : RwSem} `{AO : ArgOrder}.
Implicit Types s : kstate.

Record typed (s : kstate) : Prop := {
  ty_heap : heap_typed (kheap s);
  ty_umem : map_Forall (λ _, byte) (kumem s);
  ty_ring : wf (ring s);
  ty_entry : Forall entry_typed (entry (ring s));
  ty_temp : word (temp s)
}.

(** The locals of a call. *)
Definition call_typed (c : dcall) : Prop :=
  match c with
  | RStart buf count pos | RLocked buf count pos => word buf ∧ word count ∧ sword pos
  | RFound buf count pos o | RUnlocked buf count pos o =>
      word buf ∧ word count ∧ sword pos ∧ opt_typed o
  | RMore buf count pos slot => word buf ∧ word count ∧ sword pos ∧ slot_typed slot
  | RSized buf retval pos slot | RArgs buf retval pos slot =>
      word buf ∧ sword retval ∧ sword pos ∧ slot_typed slot
  | RPrint buf retval pos slot a | RArg buf retval pos slot a =>
      word buf ∧ sword retval ∧ sword pos ∧ slot_typed slot ∧ word a
  | RCopy buf retval pos p n => word buf ∧ sword retval ∧ sword pos ∧ word p ∧ word n
  | RDone retval pos => sword retval ∧ sword pos
  | WStart buf count => word buf ∧ word count
  | WAlloc buf count buffer => word buf ∧ word count ∧ word buffer
  | WCopied count buffer | WLocked count buffer | WPartial count buffer | WLine count buffer
  | WSwap count buffer | WSwapped count buffer | WOld count buffer | WDrop count buffer =>
      word count ∧ word buffer
  | WJoin count buffer concat | WCat count buffer concat | WFree count buffer concat =>
      word count ∧ word buffer ∧ word concat
  | WStored count => word count
  | WDone retval => sword retval
  end.

(** From a typed state [c] leaves a typed state and returns a value in [Q]. *)
Definition typed_call {A} (c : st kstate A) (Q : A → Prop) : Prop :=
  ∀ s a s', typed s → c s = Ok (a, s') → typed s' ∧ Q a.

(** ** Rules *)

Lemma tc_ret {A} (a : A) (Q : A → Prop) : Q a → typed_call (mret a) Q.
Proof. by intros HQ s b s' Hs [= <- <-]. Qed.

Lemma tc_bind {A B} (c : st kstate A) (k : A → st kstate B) P Q :
  typed_call c P → (∀ a, P a → typed_call (k a) Q) → typed_call (c ≫= k) Q.
Proof.
  intros Hc Hk s b s' Hs (a & s1 & H1 & H2)%st_bind_ok.
  destruct (Hc _ _ _ Hs H1) as [Hs1 HP]. by apply (Hk a HP s1).
Qed.

Lemma tc_weaken {A} (c : st kstate A) (P Q : A → Prop) :
  typed_call c P → (∀ a, P a → Q a) → typed_call c Q.
Proof. intros Hc HPQ s a s' Hs H. destruct (Hc s a s' Hs H). auto. Qed.

Lemma i64_range x : sword (i64 x).
Proof. unfold sword, i64. pose proof (Z.mod_pos_bound (x + 2 ^ 63) (2 ^ 64)). lia. Qed.

Lemma u64_word x : word (u64 x).
Proof. apply u64_range. Qed.

(** ** The memory *)

Lemma block_typed h p b : heap_typed h → block_at h p = Ok b → Forall byte b.
Proof.
  intros Hh. unfold block_at. destruct (p =? NULL); [done|].
  destruct (h !! p) as [b'|] eqn:Hb; [|done]. intros [= <-]. by apply (Hh p).
Qed.

Lemma cstring_typed h p str : heap_typed h → cstring_at h p = Ok str → Forall byte str.
Proof.
  intros Hh (b & Hb & Hs)%res_bind_ok. pose proof (block_typed _ _ _ Hh Hb) as Hby.
  destruct (cstr b) as [str'|] eqn:E; [|done]. injection Hs as <-.
  apply cstr_Some in E as [_ E]. rewrite E in Hby. by apply Forall_app in Hby as [? _].
Qed.

Lemma store_typed h p off bs h' :
  heap_typed h → Forall byte bs → store_at h p off bs = Ok h' → heap_typed h'.
Proof.
  intros Hh Hbs (b & Hb & (b' & Hs & [= <-])%res_bind_ok)%res_bind_ok.
  pose proof (block_typed _ _ _ Hh Hb) as Hby. unfold store_bytes in Hs. case_bool_decide; [|done].
  injection Hs as <-. apply map_Forall_insert_2; [|done].
  rewrite !Forall_app. auto using Forall_take, Forall_drop.
Qed.

Lemma nul_typed str : Forall byte str → Forall byte (str ++ [NUL]).
Proof. intros H. apply Forall_app. split; [done|]. repeat constructor; unfold NUL; lia. Qed.

Lemma strcpy_typed h d p h' : heap_typed h → strcpy h d p = Ok h' → heap_typed h'.
Proof.
  intros Hh (str & Hs & Ht)%res_bind_ok. eapply store_typed; [done|by eapply nul_typed, cstring_typed|done].
Qed.

Lemma strcat_typed h d p h' : heap_typed h → strcat h d p = Ok h' → heap_typed h'.
Proof.
  intros Hh (dstr & _ & (str & Hs & Ht)%res_bind_ok)%res_bind_ok.
  eapply store_typed; [done|by eapply nul_typed, cstring_typed|done].
Qed.

Lemma free_typed h p h' : heap_typed h → free_block h p = Ok h' → heap_typed h'.
Proof.
  intros Hh. unfold free_block. destruct (p =? NULL); [by intros [= <-]|].
  destruct (h !! p); [|done]. intros [= <-]. by apply map_Forall_delete.
Qed.

(** ** The calls *)

Lemma tc_of_heap {A} (f : heap → res A) (Q : A → Prop) :
  (∀ h a, f h = Ok a → Q a) → typed_call (of_heap f) Q.
Proof.
  intros Hf s a s' Hs. unfold of_heap. destruct (f (kheap s)) eqn:E; [|done].
  intros [= <- <-]. eauto.
Qed.

Lemma tc_on_heap f :
  (∀ h h', heap_typed h → f h = Ok h' → heap_typed h') → typed_call (on_heap f) (λ _, True).
Proof.
  intros Hf s a s' [H1 H2 H3 H4 H5]. unfold on_heap. destruct (f (kheap s)) eqn:E; [|done].
  intros [= <- <-]. split; [|done]. split; try done. by eapply Hf.
Qed.

Lemma tc_free p : typed_call (k_free p) (λ _, True).
Proof. apply tc_on_heap. intros h h'. apply free_typed. Qed.

Lemma tc_PDEBUG p : typed_call (PDEBUG_s p) (λ _, True).
Proof. by apply tc_of_heap. Qed.

Lemma tc_strlen p : typed_call (of_heap (λ h, strlen h p)) (λ _, True).
Proof. by apply tc_of_heap. Qed.

Lemma tc_strstr p t : typed_call (of_heap (λ h, strstr h p t)) (λ _, True).
Proof. by apply tc_of_heap. Qed.

Lemma tc_strcpy d p : typed_call (on_heap (λ h, strcpy h d p)) (λ _, True).
Proof. apply tc_on_heap. intros h h'. apply strcpy_typed. Qed.

Lemma tc_strcat d p : typed_call (on_heap (λ h, strcat h d p)) (λ _, True).
Proof. apply tc_on_heap. intros h h'. apply strcat_typed. Qed.

Lemma tc_temp : typed_call k_temp word.
Proof. intros s a s' Hs [= <- <-]. by split; [|apply Hs]. Qed.

Lemma tc_set_temp p : word p → typed_call (k_set_temp p) (λ _, True).
Proof. intros Hp s a s' [H1 H2 H3 H4 H5] [= <- <-]. by split; [split|]. Qed.

Lemma tc_sem (f : st kstate Z) :
  (∀ s, ∃ r m, f s = Ok (r, set_sem m s)) → typed_call f (λ _, True).
Proof.
  intros Hf s a s' [H1 H2 H3 H4 H5] H. destruct (Hf s) as (r & m & E). rewrite E in H.
  injection H as <- <-. by split; [split|].
Qed.

Lemma tc_down_read : typed_call k_down_read_trylock (λ _, True).
Proof. apply tc_sem. intros s. unfold k_down_read_trylock. destruct (down_read_trylock _); eauto. Qed.

Lemma tc_down_write : typed_call k_down_write_trylock (λ _, True).
Proof. apply tc_sem. intros s. unfold k_down_write_trylock. destruct (down_write_trylock _); eauto. Qed.

Lemma tc_up_read : typed_call k_up_read (λ _, True).
Proof. intros s a s' [H1 H2 H3 H4 H5] [= <- <-]. by split; [split|]. Qed.

Lemma tc_up_write : typed_call k_up_write (λ _, True).
Proof. intros s a s' [H1 H2 H3 H4 H5] [= <- <-]. by split; [split|]. Qed.

Lemma tc_find off : word off → typed_call (k_find off) opt_typed.
Proof.
  intros Hoff s a s' [H1 H2 H3 H4 H5]. unfold k_find. rewrite find_slots by done.
  destruct (locate (slots (ring s)) off) as [[k o]|]; intros [= <- <-]; simpl.
  - split; [by split|apply slot_of_range].
  - split; [|done]. split; try done. by apply reset_wf.
Qed.

Lemma tc_add e : entry_typed e → typed_call (k_add e) entry_typed.
Proof.
  intros [He1 He2] s a s' [H1 H2 H3 H4 H5]. unfold k_add.
  destruct (add_entry_slot (ring s) e H3 He2) as (old & b' & -> & Hwf & Hent & Hi & Hold & _).
  intros [= <- <-]. split.
  - split; try done. unfold ring in *. simpl. rewrite Hent. by apply Forall_insert.
  - destruct Hold as [->|Hold]; [by split; unfold word; simpl; vm_compute|].
    by apply (Forall_lookup_1 _ _ _ _ H4 Hold).
Qed.

Lemma tc_entry k : typed_call (k_entry k) entry_typed.
Proof.
  intros s a s' Hs. unfold k_entry. destruct (arr_get _ k) as [e|] eqn:E; [|done].
  intros [= <- <-]. split; [done|]. apply arr_get_ok in E as [_ E].
  by apply (Forall_lookup_1 _ _ _ _ (ty_entry _ Hs) E).
Qed.

Context `{!KernelTyped K}.

Lemma tc_malloc n : typed_call (k_malloc n) word.
Proof.
  intros s a s' [H1 H2 H3 H4 H5]. unfold k_malloc.
  destruct (kmalloc _ _ _) as [[p b]|] eqn:E; intros [= <- <-].
  - apply kmalloc_typed in E as [Hp Hb]. split; [|done]. split; try done; simpl.
    by apply map_Forall_insert_2.
  - split; [by split|]. unfold word, NULL. lia.
Qed.

Lemma tc_from_user p buf n : typed_call (k_copy_from_user p buf n) (λ _, True).
Proof.
  intros s a s' [H1 H2 H3 H4 H5]. unfold k_copy_from_user.
  destruct (copy_from_user _ _ _ _) as [bs nleft] eqn:E.
  apply copy_from_user_typed in E; [|done].
  destruct (store_at _ _ _ _) eqn:Es; intros [= <- <-]. split; [|done]. split; try done.
  by eapply store_typed.
Qed.

Lemma tc_to_user buf p n : typed_call (k_copy_to_user buf p n) (λ _, True).
Proof.
  intros s a s' [H1 H2 H3 H4 H5]. unfold k_copy_to_user.
  destruct (b ← block_at (kheap s) p; load_bytes b n) as [bs|] eqn:E; [|done].
  apply res_bind_ok in E as (b & Hb & Hl). pose proof (block_typed _ _ _ H1 Hb) as Hby.
  unfold load_bytes in Hl. case_bool_decide; [|done]. injection Hl as <-.
  destruct (copy_to_user _ _ _ _) as [u nleft] eqn:E. intros [= <- <-].
  apply copy_to_user_typed in E; [|done|by apply Forall_take]. split; [by split|done].
Qed.

(** ** The handlers *)

Create HintDb types discriminated.
#[local] Hint Resolve tc_free tc_PDEBUG tc_strlen tc_strstr tc_strcpy tc_strcat tc_temp tc_set_temp tc_down_read tc_down_write tc_up_read tc_up_write
  tc_find tc_add tc_entry tc_malloc tc_from_user tc_to_user u64_word i64_range : types.

(** Goes through the calls of a piece of a handler. *)
Ltac tc :=
  repeat match goal with
  | |- typed_call (_ ≫= _) _ => eapply tc_bind; [solve [eauto with types]|intros ? ?]
  | |- typed_call (if ?b then _ else _) _ => destruct b eqn:?
  | |- typed_call (mret _) _ => apply tc_ret
  end.

Lemma tc_write_fail p r : sword r → typed_call (aesd_write_fail p r) sword.
Proof.
  intros Hr. unfold aesd_write_fail. apply (tc_bind _ _ (λ _, True)); [|by intros; apply tc_ret].
  destruct (negb _); eauto using tc_ret with types.
Qed.

Lemma tc_write_partial p n : word p → typed_call (write_partial p n) (λ _, True).
Proof.
  intros Hp. unfold write_partial. tc; auto with types.
Qed.

Lemma tc_write_line e : entry_typed e → typed_call (write_line e) (λ _, True).
Proof. intros He. unfold write_line. tc; eauto using tc_ret with types. Qed.

Lemma tc_write_locked p n : word p → word n → typed_call (write_locked p n) (λ _, True).
Proof.
  intros Hp Hn. unfold write_locked. eapply tc_bind; [apply tc_strstr|].
  intros [k|] _; [by apply tc_write_line|by apply tc_write_partial].
Qed.

#[local] Hint Resolve tc_write_fail tc_write_locked : types.

Lemma errno_sword : sword (- ENOMEM) ∧ sword (- EFAULT) ∧ sword (- ERESTARTSYS).
Proof. unfold sword, ENOMEM, EFAULT, ERESTARTSYS. lia. Qed.

Lemma tc_write buf count : word count → typed_call (aesd_write buf count) sword.
Proof.
  intros Hc. destruct errno_sword as (? & ? & _). unfold aesd_write. tc; eauto with types.
Qed.

Lemma tc_read buf count pos :
  sword pos → typed_call (aesd_read buf count pos) (λ r, sword r.1 ∧ sword r.2).
Proof.
  intros Hp. destruct errno_sword as (_ & ? & ?). unfold aesd_read, aesd_read_lookup.
  eapply (tc_bind _ _ (λ o, match o with Some e => opt_typed e | None => True end)).
  - tc; simpl; auto.
  - intros [[k|]|] Ho; simpl; tc; simpl; auto using i64_range.
    split; [destruct (count <=? _)|]; apply i64_range.
Qed.

Lemma tc_step c : call_typed c → typed_call (call_step c) call_typed.
Proof.
  destruct errno_sword as (? & ? & ?).
  destruct c as [| | |buf count pos [k|]| | | | | | | | | | | | | | | | | | | | | |]; simpl; intros Hc;
    decompose [and] Hc; tc; unfold entry_typed in *; simpl; try done; eauto with types.
  - tauto.
  - destruct size_first; tauto.
  - destruct size_first; simpl; tauto.
  - by destruct (negb _).
  - eapply tc_bind; [by apply tc_add|intros old [Ho _]]. by destruct (negb _); apply tc_ret.
Qed.

(** Any interleaving of typed calls. *)
Lemma run_schedule_typed sched l s l' s' :
  Forall call_typed l → typed s → run_schedule sched l s = Ok (l', s') →
  Forall call_typed l' ∧ typed s'.
Proof.
  revert l s. induction sched as [|i sched IH]; intros l s Hl Hs; simpl; [by intros [= <- <-]|].
  destruct (l !! i) as [c|] eqn:Hi; [|by apply IH].
  destruct (call_step c s) as [[c' s1]|] eqn:Hc; [|done].
  destruct (tc_step c (Forall_lookup_1 _ _ _ _ Hl Hi) s c' s1 Hs Hc) as [Hs1 Hc'].
  apply IH; [by apply Forall_insert|done].
Qed.

End Types.

(** ** Properties *)

(** C12: The driver keeps the types of its state under every order of its calls and
    on every branch, whatever the semaphore says and even when the file calls run
    interleaved: bytes stay bytes in the heap and in user memory, the entries of the
    ring keep pointers and [size_t] sizes, the [uint8_t] offsets stay in the array,
    positions stay in [loff_t] and results in [ssize_t]. *)
Theorem driver_keeps_types `{K : Kernel} `{R : RwSem} `{AO : ArgOrder} `{!KernelTyped K} (s : kstate) :
  typed s →
  (∀ buf count s' r, word count → aesd_write buf count s = Ok (r, s') → typed s' ∧ sword r) ∧
  (∀ buf count pos s' r pos', sword pos → aesd_read buf count pos s = Ok (r, pos', s') →
     typed s' ∧ sword r ∧ sword pos') ∧
  (∀ sched l l' s', Forall call_typed l → run_schedule sched l s = Ok (l', s') →
     typed s' ∧ Forall call_typed l').
Proof.
  intros Hs. split_and!.
  - intros buf count s' r Hc H. by apply (tc_write buf count Hc s).
  - intros buf count pos s' r pos' Hp H. by apply (tc_read buf count pos Hp s (r, pos')).
  - intros sched l l' s' Hl H. destruct (run_schedule_typed sched l s l' s' Hl Hs H). done.
Qed.

(** The device of the demonstration with a user text of three bytes. *)
Lemma driver_keeps_types_witness :
  ∃ s', aesd_write (K:=demo_kernel [NUL]) 100 3 (demo_state demo_text) = Ok (3, s') ∧
        typed s' ∧ sword 3.
Proof.
  assert (KernelTyped (demo_kernel [NUL])) as HK.
  { apply demo_kernel_typed. repeat constructor; unfold NUL; lia. }
  assert (typed (demo_state demo_text)) as Hs.
  { split; [apply map_Forall_empty| |apply (demo_inv demo_text)| |done].
    - apply umem_write_typed; [apply map_Forall_empty|]. by repeat constructor.
    - by repeat constructor. }
  eexists. split; [vm_compute; reflexivity|].
  apply (proj1 (driver_keeps_types (K:=demo_kernel [NUL]) (AO:=true) (demo_state demo_text) Hs) 100 3);
    [done|vm_compute; reflexivity].
Defined.
