(* ===== verification/DriverSystem.v ===== *)
(** * The character driver in use

    The driver as processes use it, through [aesd_fops]: files are opened, read,
    written and closed in any order and any number at a time, from the load of
    the module to its unload.  [do_call] performs one call of a process, [run] a
    sequence of them.  [contents] is the abstract device, ten lines and where the
    oldest is, which takes into account that a read past the end of the lines
    resets the ring; [a_call] says what each call returns and changes. *)
From Stdlib Require Import ZArith Lia.
From stdpp Require Import base tactics list gmap sets numbers.
From S2P Require Import Prelude CMemory Kernel CircularBuffer CharDriver DriverWrite DriverRead DriverModule.

Definition EBADF : Z := 9.

(** ** The calls of the processes *)

(** Each handler takes the open file, the user's buffer, the count and [*f_pos], and
    returns its result and the new [*f_pos]. *)
Record file_operations `{R : RwSem} : Type := mkFops {
  fop_open : Z → file → Z * file;
  fop_release : Z → file → Z * file;
  fop_read : file → Z → Z → Z → st kstate (Z * Z);
  fop_write : file → Z → Z → Z → st kstate (Z * Z)
}.

(** A process opens and closes files, stores bytes in its memory, and reads and
    writes with a buffer there. *)
Inductive call : Type :=
| UOpen
| UClose (fd : Z)
| UStore (a : Z) (d : list Z)
| URead (fd buf count : Z)
| UWrite (fd buf count : Z).

(** The state of the kernel and the open files. *)
Record sys `{R : RwSem} : Type := mkSys {
  sys_k : kstate;
  sys_files : gmap Z file
}.
Arguments mkSys {_} _ _.

Section Calls.
Context `{K : Kernel} `{R : RwSem} `{V : Vfs}.

(** The address of the global variable [aesd_device]. *)
Variable aesd_device : Z.

(** The device of an open file, which the handlers dereference. *)
Definition file_dev (filp : file) : st kstate unit :=
  if private_data filp =? aesd_device then mret tt else st_fault NullDeref.

Definition aesd_fops : file_operations := {|
  fop_open := aesd_open;
  fop_release := aesd_release;
  fop_read filp buf count pos := file_dev filp ;;; aesd_read buf count pos;
  fop_write filp buf count pos :=
    file_dev filp ;;; ret ← aesd_write buf count; mret (ret, pos)
|}.

Definition rw_call (handler : file → Z → Z → Z → st kstate (Z * Z)) (fd buf count : Z)
    : st sys Z :=
  λ s, match sys_files s !! fd with
       | None => Ok (- EBADF, s)
       | Some f =>
         match handler f buf count (f_pos f) (sys_k s) with
         | Ok (ret, pos', k') =>
           let f' := mkFile (private_data f) (store_pos ret (f_pos f) pos') in
           Ok (ret, mkSys k' (<[fd:=f']> (sys_files s)))
         | Fault e => Fault e
         end
       end.

Definition do_call (c : call) : st sys Z :=
  match c with
  | UOpen => λ s,
    let '(ret, f) := fop_open aesd_fops aesd_device (mkFile NULL 0) in
    if ret <? 0 then Ok (ret, s)
    else let fd := get_unused_fd (dom (sys_files s)) in
         Ok (fd, mkSys (sys_k s) (<[fd:=f]> (sys_files s)))
  | UClose fd => λ s,
    match sys_files s !! fd with
    | None => Ok (- EBADF, s)
    | Some f =>
      let '(_, _) := fop_release aesd_fops aesd_device f in
      Ok (0, mkSys (sys_k s) (delete fd (sys_files s)))
    end
  | UStore a d => λ s,
    Ok (0, mkSys (set_umem (umem_write (kumem (sys_k s)) a d) (sys_k s)) (sys_files s))
  | URead fd buf count => rw_call (fop_read aesd_fops) fd buf count
  | UWrite fd buf count => rw_call (fop_write aesd_fops) fd buf count
  end.

Fixpoint run (cs : list call) : st sys (list Z) :=
  match cs with
  | [] => mret []
  | c :: cs' => r ← do_call c; rs ← run cs'; mret (r :: rs)
  end.

(** Every write of the run that reaches the driver is made in a state in which [P] holds,
    of the state, the user's buffer and the count. *)
Fixpoint writes_all (P : kstate → Z → Z → bool) (cs : list call) (s : sys) : bool :=
  match cs with
  | [] => true
  | c :: cs' =>
    match c with
    | UWrite fd buf count =>
      bool_decide (sys_files s !! fd = None) || P (sys_k s) buf count
    | _ => true
    end &&
    match do_call c s with Ok (_, s') => writes_all P cs' s' | Fault _ => true end
  end.

End Calls.

(** ** The abstract device *)

(** The ten lines in the order of the array, the index of the oldest and the number
    of lines that are live, and the text of the writes that held no newline.  A line
    that is not live is still there. *)
Record contents : Type := mkC {
  c_slots : list (list Z);
  c_oldest : nat;
  c_count : nat;
  c_partial : option (list Z)
}.

(** The abstract device, the user's memory and the position of each open file. *)
Record asys : Type := mkAS {
  as_c : contents;
  as_umem : umem;
  as_pos : gmap Z Z
}.

(** The line that holds the byte [pos] of the lines laid end to end. *)
Fixpoint line_at (ls : list (list Z)) (pos : Z) : option (list Z) :=
  match ls with
  | [] => None
  | l :: ls' =>
    if pos <? Z.of_nat (length l) then Some l else line_at ls' (pos - Z.of_nat (length l))
  end.

(** A new line replaces the one after the live lines, which is the oldest when ten
    are live. *)
Definition c_line (d : list Z) (c : contents) : contents :=
  let slots := <[((c_oldest c + c_count c) mod 10)%nat:=d]> (c_slots c) in
  if bool_decide (c_count c = 10%nat)
  then mkC slots ((c_oldest c + 1) mod 10) 10 (c_partial c)
  else mkC slots (c_oldest c) (S (c_count c)) (c_partial c).

Definition c_text (c : contents) : list Z := default [] (c_partial c).

(** A write of the bytes [d], which hold the text [str] up to a NUL, if there is one. *)
Definition c_put (d str : list Z) (c : contents) : contents :=
  if bool_decide (NL ∈ str) then c_line d c
  else mkC (c_slots c) (c_oldest c) (c_count c) (Some (c_text c ++ str)).

Definition c_write (d : list Z) (c : contents) : contents := c_put d d c.

(** What a read past the end leaves. *)
Definition c_reset (c : contents) : contents := mkC (c_slots c) 0 0 (c_partial c).

(** A read gives the user at most one line, from its first byte whatever the position
    in it, and stores the whole line at [buf] whatever [count]. *)
Definition a_read (fd buf count pos : Z) (a : asys) : option (Z * asys) :=
  match line_at (rotate (c_oldest (as_c a)) (c_slots (as_c a))) pos with
  | None => Some (0, mkAS (c_reset (as_c a)) (as_umem a) (as_pos a))
  | Some l =>
    _ ← umem_read (as_umem a) buf (length l);
    let ret := count `min` Z.of_nat (length l) in
    Some (ret, mkAS (as_c a) (umem_write (as_umem a) buf l) (<[fd:=pos + ret]> (as_pos a)))
  end.

Definition a_write_call (buf count : Z) (a : asys) : option (Z * asys) :=
  match umem_read (as_umem a) buf (Z.to_nat count) with
  | None => Some (- EFAULT, a)
  | Some d =>
    if bool_decide (NUL ∈ d) then None
    else Some (count, mkAS (c_write d (as_c a)) (as_umem a) (as_pos a))
  end.

(** [None] when the specification does not say what the call does: a write of no
    bytes, of a text with a NUL or beyond the sizes of [kmalloc], a read with a
    negative count or into memory that is not mapped. *)
Definition a_call `{V : Vfs} (c : call) (a : asys) : option (Z * asys) :=
  match c with
  | UOpen =>
    let fd := get_unused_fd (dom (as_pos a)) in
    Some (fd, mkAS (as_c a) (as_umem a) (<[fd:=0]> (as_pos a)))
  | UClose fd =>
    match as_pos a !! fd with
    | None => Some (- EBADF, a)
    | Some _ => Some (0, mkAS (as_c a) (as_umem a) (delete fd (as_pos a)))
    end
  | UStore p d => Some (0, mkAS (as_c a) (umem_write (as_umem a) p d) (as_pos a))
  | URead fd buf count =>
    match as_pos a !! fd with
    | None => Some (- EBADF, a)
    | Some pos => if bool_decide (0 ≤ count) then a_read fd buf count pos a else None
    end
  | UWrite fd buf count =>
    match as_pos a !! fd with
    | None => Some (- EBADF, a)
    | Some _ =>
      if bool_decide (0 < count ∧
           count + Z.of_nat (length (c_text (as_c a))) + 1 < KMALLOC_LIMIT)
      then a_write_call buf count a else None
    end
  end.

Fixpoint a_run `{V : Vfs} (cs : list call) (a : asys) : option (list Z * asys) :=
  match cs with
  | [] => Some ([], a)
  | c :: cs' =>
    '(r, a1) ← a_call c a;
    '(rs, a2) ← a_run cs' a1;
    Some (r :: rs, a2)
  end.

(** The device after the load of the module, with no file open. *)
Definition a_init (u : umem) : asys := mkAS (mkC (replicate 10 []) 0 0 None) u ∅.

(** ** The abstraction relation *)

Section Refinement.
Context `{K : Kernel} `{R : RwSem} `{V : Vfs} `{C : Chrdev}.
Context `{!KernelOk K} `{!RwSemOk R} `{!VfsOk V} `{!ChrdevOk C}.
Implicit Types (s : kstate) (c : contents).

Definition slot_holds (h : heap) (e : aesd_buffer_entry) (l : list Z) : Prop :=
  size e = Z.of_nat (length l) ∧ content h e = l.

Record contents_of (s : kstate) (c : contents) : Prop := {
  co_slots : Forall2 (slot_holds (kheap s)) (entry (ring s)) (c_slots c);
  co_oldest : out_offs (ring s) = Z.of_nat (c_oldest c);
  co_count : count (ring s) = c_count c;
  co_partial : partial_holds (kheap s) (temp s) (c_partial c)
}.

(** The largest position a file can have. *)
Definition POS_LIMIT : Z := 12 * KMALLOC_LIMIT.

Record sys_refines (aesd_device : Z) (s : sys) (a : asys) : Prop := {
  sr_inv : dev_inv (sys_k s);
  sr_idle : idle (sys_k s);
  sr_contents : contents_of (sys_k s) (as_c a);
  sr_umem : kumem (sys_k s) = as_umem a;
  sr_files : sys_files s = mkFile aesd_device <$> as_pos a;
  sr_pos : map_Forall (λ _ pos, 0 ≤ pos ≤ POS_LIMIT) (as_pos a)
}.

(** ** Slots *)

Lemma slot_kept s s' i e l :
  dev_inv s' → entry (ring s') !! i = Some e →
  (∀ b, kheap s' !! buffptr e = Some b → kheap s !! buffptr e = Some b) →
  slot_holds (kheap s) e l → slot_holds (kheap s') e l.
Proof.
  intros Hi He Hk [Hsz Hl]. split; [done|]. destruct (decide (buffptr e = NULL)) as [Hn|Hn].
  - rewrite (di_zero s' Hi i e He Hn) in *.
    rewrite content_empty in Hl |- * by done. exact Hl.
  - destruct (di_slot s' Hi i e He Hn) as (b & Hb & _). unfold content in *.
    rewrite (Hk b Hb) in Hl. by rewrite Hb.
Qed.

Lemma slots_kept s s' ls :
  dev_inv s' → ring s' = ring s →
  (∀ i e b, entry (ring s) !! i = Some e →
     kheap s' !! buffptr e = Some b → kheap s !! buffptr e = Some b) →
  Forall2 (slot_holds (kheap s)) (entry (ring s)) ls →
  Forall2 (slot_holds (kheap s')) (entry (ring s')) ls.
Proof.
  intros Hi Hr Hk Hls. rewrite Hr. apply Forall2_same_length_lookup_2; [by eapply Forall2_length|].
  intros i e l He Hl. apply (slot_kept s s' i); [done|by rewrite Hr|eauto|].
  by apply (Forall2_lookup_lr _ _ _ _ _ _ Hls He Hl).
Qed.

Lemma contents_sem s m c : contents_of s c → contents_of (set_sem m s) c.
Proof. intros [H1 H2 H3 H4]. by split. Qed.

Lemma contents_copied s p b c :
  dev_inv s → p ≠ NULL → kheap s !! p = None → Z.of_nat (length b) ≤ KMALLOC_LIMIT →
  contents_of s c → contents_of (copied s p b) c.
Proof.
  intros Hi Hp Hn Hl [H1 H2 H3 H4]. destruct (dev_inv_live s p Hi Hp Hn) as [Ht Hs].
  split; try done; simpl.
  - apply (slots_kept s (copied s p b)); [by apply dev_inv_copied|done| |done].
    intros i e b' He. simpl. rewrite lookup_insert_ne; [done|]. intros ->. by apply (Hs i e He).
  - destruct (c_partial c) as [str|]; [|done]. destruct H4 as (Htn & bt & Hbt & Hst).
    split; [done|]. exists bt. split; [|done]. rewrite lookup_insert_ne; [done|].
    intros E. by apply Ht.
Qed.

(** ** Insertion of a line *)

(** Where an insertion puts its entry, and the offset and the number of live slots
    after it. *)
Lemma add_entry_offsets b e old b' :
  wf b → 0 ≤ size e < 2 ^ 64 → aesd_circular_buffer_add_entry b e = Ok (old, b') →
  entry b' = <[Z.to_nat (slot_of b (count b)):=e]> (entry b) ∧
  if decide (count b = 10%nat) then out_offs b' = slot_of b 1 ∧ count b' = 10%nat
  else out_offs b' = out_offs b ∧ count b' = S (count b).
Proof.
  intros Hwf He Hadd. rewrite <-in_offs_slot by done. destruct (full b) eqn:Hf.
  - destruct (add_entry_full b e Hwf Hf) as (e0 & _ & E). rewrite E in Hadd.
    injection Hadd as <- <-. rewrite decide_True by (by apply count_full). done.
  - rewrite (add_entry_free b e Hwf Hf) in Hadd. injection Hadd as <- <-.
    pose proof (count_not_full b Hf). rewrite decide_False by lia.
    by rewrite appended_count.
Qed.

Lemma slot_of_index b o k :
  out_offs b = Z.of_nat o → slot_of b k = Z.of_nat ((o + k) mod 10).
Proof.
  intros Ho. unfold slot_of. rewrite Ho, Nat2Z.inj_mod, Nat2Z.inj_add. done.
Qed.

Lemma contents_line s c p d b :
  dev_inv s → contents_of s c → fresh_block s p (Z.of_nat (length d)) b →
  take (length d) b = d → Z.of_nat (length d) < 2 ^ 64 →
  let e := mkEntry p (Z.of_nat (length d)) in
  ∃ old b', aesd_circular_buffer_add_entry (ring s) e = Ok (old, b') ∧
    write_line e s = Ok (tt, line_written old b' s) ∧ dev_inv (line_written old b' s) ∧
    contents_of (line_written old b' s) (c_line d c).
Proof.
  intros Hi [H1 H2 H3 H4] Hf Htake Hlen e.
  destruct (write_line_ok s p _ b Hi Hf Hlen) as (old & b' & Hadd & Hw & Hi' & _).
  fold e in Hadd, Hw.
  destruct (add_entry_offsets (ring s) e old b') as [He Hoff]; [apply Hi|simpl; lia|done|].
  rewrite (slot_of_index _ _ _ H2), H3, Nat2Z.id in He.
  exists old, b'. do 3 (split; [done|]).
  assert (Forall2 (slot_holds (kheap (line_written old b' s))) (entry b')
    (<[((c_oldest c + c_count c) mod 10)%nat:=d]> (c_slots c))) as Hslots.
  { rewrite He. apply Forall2_same_length_lookup_2.
    { rewrite !length_insert. by eapply Forall2_length. }
    intros i x l Hx Hl. apply (slot_kept s _ i); [done|simpl; unfold ring; simpl; by rewrite He|..].
    { simpl. by intros b0 [_ ?]%lookup_delete_Some. }
    apply list_lookup_insert_Some in Hx as [(<- & <- & Hlt)|[Hne Hx]].
    - rewrite list_lookup_insert_eq in Hl by (by rewrite <-(Forall2_length H1)).
      injection Hl as <-. split; [done|]. unfold content. simpl.
      by rewrite (fb_heap _ _ _ _ Hf), Nat2Z.id.
    - rewrite list_lookup_insert_ne in Hl by done.
      by apply (Forall2_lookup_lr _ _ _ _ _ _ H1 Hx Hl). }
  unfold c_line. rewrite H3 in Hoff.
  pose proof (partial_line s old b' (c_partial c) Hi' H4) as Hp.
  destruct (decide (c_count c = 10%nat)) as [E|E]; destruct Hoff as [Ho Hc].
  - rewrite bool_decide_eq_true_2 by done. split; try done.
    change (out_offs b' = Z.of_nat ((c_oldest c + 1) mod 10)).
    by rewrite Ho, (slot_of_index _ _ _ H2).
  - rewrite bool_decide_eq_false_2 by done. split; try done.
    change (out_offs b' = Z.of_nat (c_oldest c)). by rewrite Ho.
Qed.

(** ** Writes *)

(** A write that holds no newline. *)
Lemma contents_partial s c p n b str q bq :
  dev_inv s → contents_of s c → fresh_block s p n b → cstr b = Some str →
  cstr bq = Some (c_text c ++ str) → q ≠ NULL → kheap s !! q = None →
  Z.of_nat (length bq) ≤ KMALLOC_LIMIT → temp s ≠ NULL →
  contents_of (joined p q bq s)
    (mkC (c_slots c) (c_oldest c) (c_count c) (Some (c_text c ++ str))).
Proof.
  intros Hi [H1 H2 H3 H4] Hf Hs Hbq Hq Hqn Hlim Ht.
  destruct (dev_inv_joined s p _ b q bq Hi Hf Ht Hq Hqn) as [Hi' _];
    [by apply cstr_is_Some|done|].
  split; try done; [|by apply partial_joined].
  apply (slots_kept s (joined p q bq s)); [done..| |done].
  intros i e be He. simpl. intros [_ [_ Hbe]%lookup_delete_Some]%lookup_delete_Some.
  rewrite lookup_insert_ne in Hbe; [done|]. intros ->.
  destruct (dev_inv_live s _ Hi Hq Hqn) as [_ Hsl]. by apply (Hsl i e He).
Qed.

Lemma partial_text s bt str c :
  partial_holds (kheap s) (temp s) (c_partial c) → kheap s !! NULL = None →
  kheap s !! temp s = Some bt → cstr bt = Some str → c_text c = str.
Proof.
  unfold c_text. destruct (c_partial c); simpl; [|congruence].
  intros (_ & b & Hb & Hs) _. congruence.
Qed.

(** The states that the critical section can leave when the text is [str]. *)
Definition locked_result (s : kstate) (p n : Z) (str : list Z) (s' : kstate) : Prop :=
  (NL ∈ str ∧ ∃ old b', aesd_circular_buffer_add_entry (ring s) (mkEntry p n) = Ok (old, b') ∧
     s' = line_written old b' s) ∨
  (NL ∉ str ∧ temp s = NULL ∧ s' = set_temp p s) ∨
  (NL ∉ str ∧ temp s ≠ NULL ∧ ∃ q bq, q ≠ NULL ∧ kheap s !! q = None ∧ s' = joined p q bq s).

(** What it does to the contents.  The only fault is that of the allocation for the
    joined text, which is not tested. *)
Lemma contents_locked s c p n b str :
  dev_inv s → contents_of s c → fresh_block s p n b → cstr b = Some str →
  Z.of_nat (length str) ≤ n < 2 ^ 64 →
  (∃ s', write_locked p n s = Ok (tt, s') ∧ dev_inv s' ∧
     contents_of s' (c_put (take (Z.to_nat n) b) str c) ∧ locked_result s p n str s') ∨
  (write_locked p n s = Fault NullDeref ∧ temp s ≠ NULL ∧
     ∃ bt tstr, kheap s !! temp s = Some bt ∧ cstr bt = Some tstr ∧
       kmalloc (ktick s) (kheap s) (n + Z.of_nat (length tstr) + 1) = None).
Proof.
  intros Hi Hc Hf Hs Hn. rewrite (write_locked_text s p n b str Hf Hs).
  unfold c_put, locked_result. case_bool_decide as Hnl.
  - left. pose proof (fb_size _ _ _ _ Hf) as Hsz.
    assert (Z.of_nat (length (take (Z.to_nat n) b)) = n) as Hl by (rewrite length_take; lia).
    destruct (contents_line s c p (take (Z.to_nat n) b) b) as
      (old & b' & Hadd & Hw & Hi' & Hc'); rewrite ?Hl; try done; [|lia|].
    { by rewrite length_take, Nat.min_l by lia. }
    rewrite Hl in *. eauto 12.
  - destruct (decide (temp s = NULL)) as [Ht|Ht].
    + left. exists (set_temp p s). split; [by apply write_partial_first|].
      destruct (dev_inv_first s p n b Hi Hf Ht) as [Hi' _]. split; [done|]. split; [|eauto].
      destruct Hc as [H1 H2 H3 H4]. split; try done. unfold c_text.
      destruct (c_partial c) as [t|]; [by destruct H4 as [H4 _]|].
      simpl. split; [apply Hf|]. exists b. split; [apply Hf|done].
    + destruct (di_temp s Hi Ht) as (bt & Hbt & [tstr Hst]%cstr_is_Some).
      pose proof (write_partial_join s p n b bt tstr str Hi Hf Ht Hbt Hst Hs) as Hj.
      destruct (kmalloc (ktick s) (kheap s) _) as [[q bq0]|] eqn:Hm; [left|right].
      * destruct Hj as (bq & Hbq & Hlim & Hq & Hqn & Hw); [lia|].
        rewrite <-(partial_text s bt tstr c (co_partial _ _ Hc) (di_null _ Hi) Hbt Hst) in Hbq.
        exists (joined p q bq s). split; [done|]. split; [|split; [by eapply contents_partial|eauto 10]].
        apply (dev_inv_joined s p n b q bq); try done. by apply cstr_is_Some.
      * split; [apply Hj; lia|eauto 10].
Qed.

Lemma locked_result_same s p n str s' :
  locked_result s p n str s' → dsem s' = dsem s ∧ kumem s' = kumem s.
Proof. intros [(_ & old & b' & _ & ->)|[(_ & _ & ->)|(_ & _ & q & bq & _ & _ & ->)]]; done. Qed.

(** A served write of [d] on any device. *)
Lemma write_contents s c buf d :
  dev_inv s → idle s → contents_of s c → write_served s buf d →
  ∃ s', aesd_write buf (Z.of_nat (length d)) s = Ok (Z.of_nat (length d), s') ∧
    dev_inv s' ∧ idle s' ∧ contents_of s' (c_write d c) ∧ kumem s' = kumem s.
Proof.
  intros Hi Hid Hc Hsv.
  destruct (write_enters s buf d Hi Hid Hsv) as
    (p & b & m & Hp & Hpn & Hlim & Hcd & Hnt & Hi1 & Hf1 & Hid' & _ & Halloc & Hrun).
  assert (contents_of (set_sem m (copied s p b)) c) as Hc1.
  { pose proof (map_Forall_lookup_1 _ _ _ _ (di_limit _ Hi1) (fb_heap _ _ _ _ Hf1)).
    by apply contents_sem, contents_copied. }
  destruct (cstr_Some _ _ Hcd) as [_ Hbd].
  destruct (contents_locked (set_sem m (copied s p b)) c p (Z.of_nat (length d)) b d) as
    [(s' & Hw & Hi' & Hc' & Hres)|(_ & _ & bt & str & Hbt & Hst & Hm)]; try done.
  { unfold KMALLOC_LIMIT in Hlim. lia. }
  2:{ destruct (Halloc bt str Hbt Hst) as [x Hx]. congruence. }
  rewrite Nat2Z.id, Hbd, take_app_length in Hc'.
  destruct (locked_result_same _ _ _ _ _ Hres) as [Hsem Hu].
  exists (set_sem (up_write (dsem s')) s'). split; [by apply Hrun|]. split_and!; try done.
  - by apply dev_inv_sem.
  - by rewrite Hsem.
  - by apply contents_sem.
Qed.

Lemma served_text s buf d :
  umem_read (kumem s) buf (length d) = Some d → NUL ∉ d → d ≠ [] →
  write_ready s buf (Z.of_nat (length d)) = true → write_served s buf d.
Proof.
  intros Hu Hd Hne. unfold write_ready.
  destruct (kmalloc (ktick s) (kheap s) (Z.of_nat (length d))) as [[p b]|] eqn:Hm; [|done].
  rewrite andb_true_iff, bool_decide_eq_true, Nat2Z.id.
  assert (copy_from_user (S (ktick s)) (kumem s) buf (length d) = (d, 0)) as Hcu.
  { destruct (copy_from_user (S (ktick s)) (kumem s) buf (length d)) as [bs nleft] eqn:E.
    pose proof (copy_from_user_mapped (S (ktick s)) (kumem s) buf (length d)) as Hz.
    rewrite E in Hz. simpl in Hz. rewrite Hz in E; [|by eapply umem_read_addresses].
    rewrite Hz by (by eapply umem_read_addresses).
    pose proof (copy_from_user_all _ _ _ _ _ E). f_equal. congruence. }
  rewrite Hcu. intros [Hnul Hj]. split; try done.
  exists p, b. split; [done|]. split; [done|]. intros bt str Hbt Hst.
  rewrite Hbt in Hj. simpl in Hj. rewrite Hst in Hj. by apply bool_decide_eq_true in Hj.
Qed.

(** ** Reads *)

Lemma line_at_locate h es ls pos :
  Forall2 (slot_holds h) es ls →
  match locate es pos with
  | Some (k, o) => ∃ e l, es !! k = Some e ∧ slot_holds h e l ∧ line_at ls pos = Some l
  | None => line_at ls pos = None
  end.
Proof.
  intros Hls. revert pos. induction Hls as [|e l es ls He _ IH]; intros pos; simpl; [done|].
  destruct He as [Hsz Hl] eqn:E. rewrite <-Hsz.
  destruct (Z.ltb_spec pos (size e)); [by exists e, l|].
  specialize (IH (pos - size e)). by destruct (locate es (pos - size e)) as [[k o]|].
Qed.

Lemma slots_hold s c :
  contents_of s c →
  Forall2 (slot_holds (kheap s)) (slots (ring s)) (rotate (c_oldest c) (c_slots c)).
Proof.
  intros [H1 H2 _ _]. unfold slots. rewrite H2, Nat2Z.id. by apply Forall2_rotate.
Qed.

Lemma read_position s pos k o e :
  dev_inv s → 0 ≤ pos → locate (slots (ring s)) pos = Some (k, o) →
  slots (ring s) !! k = Some e → 0 < size e ∧ pos + size e ≤ POS_LIMIT.
Proof.
  intros Hi Hpos Hloc Hk.
  destruct (locate_Some _ _ _ _ Hpos Hloc) as (e' & Hk' & Ho & Heq).
  assert (e' = e) as -> by congruence. split; [lia|].
  destruct (dev_inv_size s e Hi) as (_ & b & _ & _ & _ & Hlim);
    [apply list_elem_of_lookup; eauto|lia|].
  pose proof (dev_inv_total s k Hi). unfold POS_LIMIT. lia.
Qed.

(** A read past the end. *)
Lemma read_contents_eof s c buf count pos :
  dev_inv s → idle s → contents_of s c → 0 ≤ pos ≤ POS_LIMIT →
  line_at (rotate (c_oldest c) (c_slots c)) pos = None →
  ∃ s', aesd_read buf count pos s = Ok (0, pos, s') ∧ dev_inv s' ∧ idle s' ∧
    contents_of s' (c_reset c) ∧ kumem s' = kumem s.
Proof.
  intros Hi Hid Hc Hpos Hl.
  pose proof (line_at_locate _ _ _ pos (slots_hold s c Hc)) as H.
  destruct (locate _ pos) as [[k o]|] eqn:Hloc; [destruct H as (? & ? & _ & _ & ?); congruence|].
  destruct (read_eof s buf count pos Hi Hid) as (m & Hid' & Hr);
    [unfold POS_LIMIT, KMALLOC_LIMIT in *; lia|done|].
  eexists. split; [exact Hr|]. split; [|split; [done|split; [|done]]].
  - by apply (dev_inv_sem (set_buffer (reset (ring s)) s)), dev_inv_reset.
  - destruct Hc as [H1 H2 H3 H4]. by split.
Qed.

(** A read of the line that holds the position. *)
Lemma read_contents_line s c buf count pos l :
  dev_inv s → idle s → contents_of s c → 0 ≤ pos ≤ POS_LIMIT → 0 ≤ count →
  line_at (rotate (c_oldest c) (c_slots c)) pos = Some l →
  is_Some (umem_read (kumem s) buf (length l)) →
  let ret := count `min` Z.of_nat (length l) in
  ∃ s', aesd_read buf count pos s = Ok (ret, pos + ret, s') ∧ dev_inv s' ∧ idle s' ∧
    contents_of s' c ∧ kumem s' = umem_write (kumem s) buf l ∧ 0 ≤ pos + ret ≤ POS_LIMIT.
Proof.
  intros Hi Hid Hc Hpos Hcount Hl [bs0 Hm] ret.
  pose proof (line_at_locate _ _ _ pos (slots_hold s c Hc)) as H.
  destruct (locate _ pos) as [[k o]|] eqn:Hloc; [|congruence].
  destruct H as (e & l' & Hk & [Hsz Hct] & Hl'). assert (l' = l) as -> by congruence.
  destruct (read_position s pos k o e Hi (proj1 Hpos) Hloc Hk) as [Hsz0 Hlim].
  destruct (read_found s buf count pos k o e) as (b & m & Hb & Hlb & Hid' & Hr); try done.
  { unfold POS_LIMIT, KMALLOC_LIMIT in *. lia. }
  unfold content in Hct. rewrite Hb in Hct. rewrite Hct in Hr.
  destruct (copy_to_user (ktick s) (kumem s) buf l) as [u nleft] eqn:Hcu.
  assert (nleft = 0) as ->.
  { change nleft with ((u, nleft).2). rewrite <-Hcu. apply copy_to_user_mapped.
    by eapply umem_read_addresses. }
  apply copy_to_user_all in Hcu. simpl in Hr. rewrite Hsz in Hr.
  eexists. split; [exact Hr|]. split_and!; try done; [| |unfold ret in *; lia..].
  - by apply dev_inv_tick, dev_inv_umem, dev_inv_sem.
  - destruct Hc as [H1 H2 H3 H4]. by split.
Qed.

(** ** Calls *)

Variable aesd_device : Z.
Implicit Types S : sys.

(** The write of the call, if it is one, is made when the services are available. *)
Definition call_ready (cl : call) S : Prop :=
  match cl with
  | UWrite fd buf count => is_Some (sys_files S !! fd) → write_ready (sys_k S) buf count = true
  | _ => True
  end.

Lemma writes_all_step P cl cs S :
  writes_all aesd_device P (cl :: cs) S = true →
  (∀ fd buf count, cl = UWrite fd buf count → is_Some (sys_files S !! fd) → P (sys_k S) buf count = true) ∧
  (∀ r S', do_call aesd_device cl S = Ok (r, S') → writes_all aesd_device P cs S' = true).
Proof.
  cbn [writes_all]. rewrite andb_true_iff. intros [Hw Hrest]. split.
  - intros fd buf count -> [f Hf]. rewrite Hf in Hw. by rewrite bool_decide_eq_false_2 in Hw.
  - intros r S' Hc. by rewrite Hc in Hrest.
Qed.

Lemma file_dev_ok pos s : file_dev aesd_device (mkFile aesd_device pos) s = Ok (tt, s).
Proof. unfold file_dev. simpl. by rewrite Z.eqb_refl. Qed.

Lemma files_lookup S a fd :
  sys_refines aesd_device S a →
  sys_files S !! fd = mkFile aesd_device <$> as_pos a !! fd.
Proof. intros HS. by rewrite (sr_files _ _ _ HS), lookup_fmap. Qed.

(** The state after a handler ran on the file [fd]. *)
Lemma handler_refines S a fd pos pos' ret s' c' u' :
  sys_refines aesd_device S a → store_pos ret pos pos' = pos' →
  0 ≤ pos' ≤ POS_LIMIT → dev_inv s' → idle s' → contents_of s' c' → kumem s' = u' →
  sys_refines aesd_device
    (mkSys s' (<[fd:=mkFile aesd_device (store_pos ret pos pos')]> (sys_files S)))
    (mkAS c' u' (<[fd:=pos']> (as_pos a))).
Proof.
  intros HS -> Hp Hi Hid Hc Hu. split; try done; simpl.
  - by rewrite (sr_files _ _ _ HS), fmap_insert.
  - apply map_Forall_insert_2; [done|apply HS].
Qed.

Lemma read_call_refines S a fd buf count r a' :
  sys_refines aesd_device S a → a_call (URead fd buf count) a = Some (r, a') →
  ∃ S', do_call aesd_device (URead fd buf count) S = Ok (r, S') ∧ sys_refines aesd_device S' a'.
Proof.
  intros HS Ha. pose proof HS as [Hi Hid Hc Hu Hf Hp]. simpl in *.
  unfold rw_call. rewrite (files_lookup S a fd HS).
  destruct (as_pos a !! fd) as [pos|] eqn:Hpos; simpl in *; [|simplify_eq; eauto].
  case_bool_decide as Hcount; [|done]. unfold a_read in Ha.
  pose proof (Hp fd pos Hpos) as Hpp. simpl in Hpp.
  rewrite (st_bind_step _ _ _ _ _ (file_dev_ok pos (sys_k S))).
  destruct (line_at _ pos) as [l|] eqn:Hl.
  - destruct (umem_read (as_umem a) buf (length l)) as [bs|] eqn:Hm; simpl in Ha; [|done].
    injection Ha as <- <-. rewrite <-Hu in Hm.
    destruct (read_contents_line (sys_k S) (as_c a) buf count pos l) as
      (s' & Hr & Hi' & Hid' & Hc' & Hu' & Hp'); try done.
    rewrite Hr. eexists. split; [done|]. apply handler_refines; try done; [|by rewrite Hu', Hu].
    apply store_pos_done. lia.
  - injection Ha as <- <-.
    destruct (read_contents_eof (sys_k S) (as_c a) buf count pos) as
      (s' & Hr & Hi' & Hid' & Hc' & Hu'); try done.
    rewrite Hr. eexists. split; [done|].
    rewrite <-(insert_id (as_pos a) fd pos) by done.
    apply handler_refines; try done; [by apply store_pos_done|congruence].
Qed.

Lemma write_call_refines S a fd buf count r a' :
  sys_refines aesd_device S a → call_ready (UWrite fd buf count) S →
  a_call (UWrite fd buf count) a = Some (r, a') →
  ∃ S', do_call aesd_device (UWrite fd buf count) S = Ok (r, S') ∧ sys_refines aesd_device S' a'.
Proof.
  intros HS Hready Ha. pose proof HS as [Hi Hid Hc Hu Hf Hp]. simpl in *.
  unfold rw_call. rewrite (files_lookup S a fd HS) in Hready |- *.
  destruct (as_pos a !! fd) as [pos|] eqn:Hpos; simpl in *; [|simplify_eq; eauto].
  specialize (Hready (ex_intro _ _ eq_refl)).
  case_bool_decide as Hcount; [|done]. unfold a_write_call in Ha.
  pose proof (Hp fd pos Hpos) as Hpp. simpl in Hpp.
  rewrite (st_bind_step _ _ _ _ _ (file_dev_ok pos (sys_k S))).
  assert (∀ ret, store_pos ret pos pos = pos) as Hst.
  { intros ret. destruct (Z.le_gt_cases 0 ret); [by apply store_pos_done|].
    by apply store_pos_failed. }
  destruct (umem_read (as_umem a) buf (Z.to_nat count)) as [d|] eqn:Hd.
  - case_bool_decide as Hnul; [done|]. injection Ha as <- <-.
    pose proof (umem_read_length _ _ _ _ Hd) as Hl. rewrite <-Hl, <-Hu in Hd.
    assert (Z.of_nat (length d) = count) as Hcl by lia.
    destruct (write_contents (sys_k S) (as_c a) buf d) as (s' & Hw & Hi' & Hid' & Hc' & Hu'); try done.
    { rewrite <-Hcl in Hready. apply served_text; try done. intros ->. simpl in *. lia. }
    rewrite Hcl in Hw. rewrite (st_bind_step _ _ _ _ _ Hw). simpl.
    eexists. split; [done|]. rewrite <-(insert_id (as_pos a) fd pos Hpos) at 1.
    apply handler_refines; try done. congruence.
  - injection Ha as <- <-.
    destruct (copy_from_user (Datatypes.S (ktick (sys_k S))) (kumem (sys_k S)) buf (Z.to_nat count))
      as [bs nleft] eqn:E.
    assert (nleft ≠ 0) as Hn.
    { intros ->. apply copy_from_user_all in E. congruence. }
    unfold write_ready in Hready.
    destruct (kmalloc (ktick (sys_k S)) (kheap (sys_k S)) count) as [[p b]|] eqn:Hm; [|done].
    pose proof (write_efault (sys_k S) buf count p b bs nleft Hi (proj1 Hcount) Hm E Hn) as Hw.
    rewrite (st_bind_step _ _ _ _ _ Hw). simpl. eexists. split; [done|].
    destruct a as [c0 u0 ps0]. simpl in *. rewrite <-(insert_id ps0 fd pos Hpos).
    apply (handler_refines S (mkAS c0 u0 ps0)); try done; [by apply same_device|].
    destruct Hc as [H1 H2 H3 H4]. by split.
Qed.

Lemma call_refines cl S a r a' :
  sys_refines aesd_device S a → call_ready cl S → a_call cl a = Some (r, a') →
  ∃ S', do_call aesd_device cl S = Ok (r, S') ∧ sys_refines aesd_device S' a'.
Proof.
  intros HS Hready Ha. destruct cl as [|fd|p d|fd buf count|fd buf count].
  - pose proof HS as [Hi Hid Hc Hu Hf Hp]. simpl in *.
    injection Ha as <- <-. rewrite Hf, dom_fmap_L. eexists. split; [done|].
    split; try done; simpl; [by rewrite fmap_insert|].
    apply map_Forall_insert_2; [unfold POS_LIMIT, KMALLOC_LIMIT; lia|done].
  - pose proof HS as [Hi Hid Hc Hu Hf Hp]. simpl in *. rewrite (files_lookup S a fd HS).
    destruct (as_pos a !! fd) as [pos|]; simpl in *; injection Ha as <- <-; [|eauto].
    eexists. split; [done|]. split; try done; simpl; [by rewrite Hf, fmap_delete|].
    by apply map_Forall_delete.
  - pose proof HS as [Hi Hid Hc Hu Hf Hp]. simpl in *. injection Ha as <- <-.
    eexists. split; [done|]. split; try done; simpl; [by apply dev_inv_umem| |by rewrite Hu].
    destruct Hc as [H1 H2 H3 H4]. by split.
  - by eapply read_call_refines.
  - by eapply write_call_refines.
Qed.

Lemma run_refines cs S a rs a' :
  sys_refines aesd_device S a → writes_all aesd_device write_ready cs S = true →
  a_run cs a = Some (rs, a') →
  ∃ S', run aesd_device cs S = Ok (rs, S') ∧ sys_refines aesd_device S' a'.
Proof.
  revert S a rs. induction cs as [|cl cs IH]; intros S a rs HS Hw Ha; simpl in Ha.
  { simplify_eq. by exists S. }
  destruct (a_call cl a) as [[r a1]|] eqn:H1; simpl in Ha; [|done].
  destruct (a_run cs a1) as [[rs1 a2]|] eqn:H2; simpl in Ha; [|done]. simplify_eq.
  apply writes_all_step in Hw as [Hready Hw].
  destruct (call_refines cl S a r a1 HS) as (S1 & Hc & HS1); [|done|].
  { destruct cl as [| | | |fd buf n]; try done. exact (Hready fd buf n eq_refl). }
  destruct (IH S1 a1 rs1 HS1 (Hw _ _ Hc) H2) as (S2 & Hr & HS2).
  exists S2. split; [|done]. simpl. rewrite (st_bind_step _ _ _ _ _ Hc).
  by rewrite (st_bind_step _ _ _ _ _ Hr).
Qed.

Lemma fresh_contents t u :
  contents_of (mkK ∅ t u (mkDev init_buffer init_rwsem NULL)) (as_c (a_init u)).
Proof.
  split; try done. repeat (constructor; [split; [done|by apply content_empty]|]). constructor.
Qed.

(** The device after a load that succeeded. *)
Lemma loaded_refines m :
  (aesd_init_module m).1 = 0 → kheap (mkernel m) = ∅ →
  let m1 := (aesd_init_module m).2 in
  sys_refines aesd_device (mkSys (mkernel m1) ∅) (a_init (kumem (mkernel m))) ∧
  ∀ s, mreg (aesd_cleanup_module (with_kernel s m1)) = mreg m.
Proof.
  intros H0 Hh m1. destruct (init_module_loaded m H0) as [Hk Hun].
  split; [|exact Hun]. unfold m1. rewrite Hk. unfold set_dev. rewrite Hh.
  destruct (fresh_device_good (ktick (mkernel m)) (kumem (mkernel m))) as [[Hi _ _ Hid] _].
  split; try done. apply fresh_contents.
Qed.

(** ** Properties *)

(** C1: The driver in use implements the abstract device: take a load that succeeded on
    an empty heap, and any sequence of calls on any number of open files that [a_run]
    covers (no write of 0 bytes or of a text with a NUL, no read into memory that is not
    mapped).  If in this run the kernel served every write, that is, it gave the blocks
    asked for and a NUL came after the bytes of the text, then the calls return what
    [a_run] says and leave the user's memory and the positions as it says.  Each line is
    read from its first byte, a whole line is stored whatever the count, a read past the
    end empties the ring but leaves its lines where searches still find them, and texts
    without a newline only collect.  An unload then restores the registry. *)
Theorem sessions_refine_contents m cs rs a :
  (aesd_init_module m).1 = 0 → kheap (mkernel m) = ∅ →
  a_run cs (a_init (kumem (mkernel m))) = Some (rs, a) →
  let m1 := (aesd_init_module m).2 in
  writes_all aesd_device write_ready cs (mkSys (mkernel m1) ∅) = true →
  ∃ S, run aesd_device cs (mkSys (mkernel m1) ∅) = Ok (rs, S) ∧
    kumem (sys_k S) = as_umem a ∧ f_pos <$> sys_files S = as_pos a ∧
    contents_of (sys_k S) (as_c a) ∧
    mreg (aesd_cleanup_module (with_kernel (sys_k S) m1)) = mreg m.
Proof.
  intros H0 Hh Ha m1 Hw. destruct (loaded_refines m H0 Hh) as [Hr Hun].
  destruct (run_refines cs _ _ rs a Hr Hw Ha) as (S & Hrun & HS).
  exists S. split; [exact Hrun|]. split_and!; [apply HS| |apply HS|apply Hun].
  rewrite (sr_files _ _ _ HS), <-map_fmap_compose. apply map_fmap_id.
Qed.

End Refinement.

(** ** A concrete session *)

(** Two files: the texts [x\n], [ab] and [y\n] are written through the first, and read
    through the second to the end and again; then [z\n] is written, and a read gives
    the whole line although it asks for one byte. *)
Definition demo_session : list call := [
  UOpen; UOpen;
  UStore 100 [120; NL]; UWrite 3 100 2; UStore 100 [97; 98]; UWrite 3 100 2;
  UStore 100 [121; NL]; UWrite 3 100 2;
  URead 4 200 16; URead 4 200 16; URead 4 200 16; UOpen; URead 5 200 16;
  UStore 100 [122; NL]; UWrite 3 100 2; URead 5 202 1; URead 9 200 1; UClose 3; UWrite 3 100 2 ].

Definition demo_loaded : mstate (C:=demo_chrdev) :=
  mkM (C:=demo_chrdev) (false, false) 0 0
    (mkK ∅ 0 (umem_write (umem_write ∅ 100 [0; 0]) 200 [0; 0; 0; 0]) (mkDev init_buffer init_rwsem NULL)).

Definition demo_returns : list Z := [3; 4; 0; 2; 0; 2; 0; 2; 2; 2; 0; 5; 2; 0; 2; 1; -9; 0; -9].

(** What the specification gives for it. *)
Definition demo_spec : list Z * asys :=
  default ([], a_init ∅) (a_run demo_session (a_init (kumem (mkernel demo_loaded)))).

Lemma demo_spec_run :
  a_run demo_session (a_init (kumem (mkernel demo_loaded))) = Some (demo_returns, demo_spec.2).
Proof. by vm_compute. Qed.

Lemma sessions_refine_contents_witness :
  ∃ s, run (K:=roomy_kernel) 512 demo_session (mkSys (mkernel (aesd_init_module demo_loaded).2) ∅)
         = Ok (demo_returns, s) ∧
    umem_read (kumem (sys_k s)) 200 4 = Some [120; NL; 121; NL] ∧
    contents_of (sys_k s)
      (mkC ([[122; NL]; [121; NL]] ++ replicate 8 []) 0 1 (Some [97; 98])).
Proof.
  destruct (sessions_refine_contents (K:=roomy_kernel) 512 demo_loaded demo_session
    demo_returns demo_spec.2) as (s & Hr & Hu & _ & Hc & _).
  - reflexivity.
  - reflexivity.
  - exact demo_spec_run.
  - by vm_compute.
  - exists s. split; [exact Hr|]. split; [rewrite Hu; vm_compute; reflexivity|exact Hc].
Defined.
