(* ===== verification/DriverTraces.v ===== *)
(** * The trace of interleaved calls of the driver

    The reads and writes of [DriverConcurrency] against the abstract contents of
    [DriverSystem].  A schedule has a [trace]: the searches of the reads and the
    critical sections of the writes, each at the step where it takes effect, and what
    the calls take from the users and give them.  [c_run] is what the events of a trace
    do to the contents, run one after the other; [steps_to] says that a step of a call
    does to the device what its events do to the contents, and leaves the blocks of
    the other calls alone. *)
From Stdlib Require Import ZArith Lia.
From stdpp Require Import base tactics list gmap sets numbers.
From S2P Require Import Prelude CMemory Kernel CircularBuffer CharDriver DriverWrite DriverRead DriverModule DriverSystem DriverConcurrency.

(** ** Abstract events *)

(** A search for a position, the bytes that a write took from the user, its critical
    section, the bytes that a read gave to [copy_to_user] for the user, a call that
    was turned away while the semaphore was held. *)
Inductive event : Type :=
| ESearch (pos : Z)
| ETake (buf : Z) (d : list Z)
| EWrite (d : list Z)
| EGive (buf : Z) (d : list Z)
| EHeld.

(** The text of a block of bytes that a NUL follows. *)
Definition text_of (d : list Z) : list Z := default d (cstr d).

(** The index of the line that holds the byte [pos], and its slot in the array. *)
Fixpoint line_index (ls : list (list Z)) (pos : Z) : option nat :=
  match ls with
  | [] => None
  | l :: ls' =>
    if pos <? Z.of_nat (length l) then Some O
    else S <$> line_index ls' (pos - Z.of_nat (length l))
  end.

Definition c_search (pos : Z) (c : contents) : option nat :=
  (λ k, (c_oldest c + k) mod 10)%nat <$> line_index (rotate (c_oldest c) (c_slots c)) pos.

(** The slot that the next line takes. *)
Definition c_next (c : contents) : nat := ((c_oldest c + c_count c) mod 10)%nat.

Definition c_apply (e : event) (c : contents) : contents :=
  match e with
  | ESearch pos => match c_search pos c with None => c_reset c | Some _ => c end
  | EWrite d => c_put d (text_of d) c
  | ETake _ _ | EGive _ _ | EHeld => c
  end.

Abbreviation trace := (list (nat * event)) (only parsing).

Definition c_run (c : contents) (tr : trace) : contents := foldl (λ c x, c_apply x.2 c) c tr.

(** The events of a call. *)
Definition events (i : nat) (tr : trace) : list event := (filter (λ x, x.1 = i) tr).*2.

(** The event puts a line in the slot [k]. *)
Definition overwrites (k : nat) (e : event) (c : contents) : bool :=
  match e with
  | EWrite d => bool_decide (NL ∈ text_of d) && bool_decide (c_next c = k)
  | _ => false
  end.

(** No event of the trace does. *)
Fixpoint kept (k : nat) (tr : trace) (c : contents) : bool :=
  match tr with
  | [] => true
  | x :: tr' => negb (overwrites k x.2 c) && kept k tr' (c_apply x.2 c)
  end.

(** ** The trace of a schedule *)

Section Trace.
Context `{K : Kernel} `{R : RwSem} `{AO : ArgOrder}.
Implicit Types s : kstate.

Definition held (s : kstate) : bool := negb (readers (dsem s) =? 0)%nat || writer (dsem s).

(** The event of a call of the semaphore that returned [r]. *)
Definition lock_event (r : Z) (s : kstate) : list event :=
  if negb (r =? 1) && held s then [EHeld] else [].

Definition event_of (c : dcall) (s : kstate) : list event :=
  match c with
  | RStart _ _ _ => lock_event (down_read_trylock (dsem s)).1 s
  | WCopied _ _ => lock_event (down_write_trylock (dsem s)).1 s
  | RLocked buf count pos => [ESearch (u64 pos)]
  | RCopy buf retval pos p n => [EGive buf (content (kheap s) (mkEntry p n))]
  | WAlloc buf count buffer =>
    match umem_read (kumem s) buf (Z.to_nat count) with Some d => [ETake buf d] | None => [] end
  | WPartial count buffer =>
    if temp s =? NULL then [EWrite (content (kheap s) (mkEntry buffer count))] else []
  | WFree count buffer _ | WLine count buffer =>
    [EWrite (content (kheap s) (mkEntry buffer count))]
  | _ => []
  end.

Fixpoint trace_of (sched : list nat) (l : list dcall) (s : kstate) : trace :=
  match sched with
  | [] => []
  | i :: sched' =>
    match l !! i with
    | Some c =>
      match call_step c s with
      | Ok (c', s') => (pair i <$> event_of c s) ++ trace_of sched' (<[i:=c']> l) s'
      | Fault _ => []
      end
    | None => trace_of sched' l s
    end
  end.

End Trace.

(** ** Lemmas on traces *)

Lemma c_run_app c t1 t2 : c_run c (t1 ++ t2) = c_run (c_run c t1) t2.
Proof. apply foldl_app. Qed.

Lemma events_app i t1 t2 : events i (t1 ++ t2) = events i t1 ++ events i t2.
Proof. unfold events. by rewrite list.filter_app, fmap_app. Qed.

Lemma events_self i es : events i (pair i <$> es) = es.
Proof.
  induction es as [|e es IH]; [done|]. unfold events in *.
  rewrite fmap_cons, filter_cons_True, fmap_cons by done. by rewrite IH.
Qed.

Lemma events_other i j es : i ≠ j → events i (pair j <$> es) = [].
Proof.
  intros Hij. unfold events. induction es as [|e es IH]; [done|].
  by rewrite fmap_cons, filter_cons_False by (simpl; congruence).
Qed.

Lemma kept_app k t1 t2 c : kept k (t1 ++ t2) c = kept k t1 c && kept k t2 (c_run c t1).
Proof.
  revert c. induction t1 as [|x t1 IH]; intros c; simpl; [done|]. by rewrite IH, andb_assoc.
Qed.

Lemma c_apply_slot k e c :
  overwrites k e c = false → c_slots (c_apply e c) !! k = c_slots c !! k.
Proof.
  destruct e as [pos|buf d|d|buf d|]; simpl; try done; [by destruct (c_search pos c)|].
  unfold c_put, c_line. case_bool_decide; simpl; [|done].
  case_bool_decide as Hk; [done|]. intros _.
  case_bool_decide; simpl; by apply list_lookup_insert_ne.
Qed.

Lemma kept_slot k tr c : kept k tr c = true → c_slots (c_run c tr) !! k = c_slots c !! k.
Proof.
  revert c. induction tr as [|x tr IH]; intros c; simpl; [done|].
  rewrite andb_true_iff, negb_true_iff. intros [Hx Htr]. by rewrite (IH _ Htr), c_apply_slot.
Qed.

(** Only the critical section of a write touches the partial text. *)
Definition no_write (e : event) : Prop := match e with EWrite _ => False | _ => True end.

Lemma c_run_partial c i es :
  Forall no_write es → c_partial (c_run c (pair i <$> es)) = c_partial c.
Proof.
  intros Hes. revert c. induction Hes as [|e es He _ IH]; intros c; [done|].
  unfold c_run in *. simpl. rewrite IH. destruct e; simpl; try done. by destruct (c_search pos c).
Qed.

(** ** Steps of the device *)

Section Steps.
Context `{K : Kernel} `{R : RwSem} `{AO : ArgOrder} `{!KernelOk K} `{!RwSemOk R}.
Implicit Types (s : kstate) (c : contents).

(** The device has a pointer to the block at [q]. *)
Definition on_device s (q : Z) : Prop :=
  temp s = q ∨ ∃ i e, entry (ring s) !! i = Some e ∧ buffptr e = q.

(** A step of a call whose own blocks are at [ps] leaves the blocks of the other calls
    to them. *)
Definition frame (ps : list Z) s s' : Prop :=
  ∀ q b, q ≠ NULL → q ∉ ps → kheap s !! q = Some b → ¬ on_device s q →
    kheap s' !! q = Some b ∧ ¬ on_device s' q.

(** A step with the events [es], of a call whose own blocks are at [ps]. *)
Record steps_to (es : list event) (ps : list Z) c s s' : Prop := {
  to_inv : dev_inv s';
  to_contents i : contents_of s' (c_run c (pair i <$> es));
  to_frame : frame ps s s';
  to_slot i k : kept k (pair i <$> es) c = true → entry (ring s') !! k = entry (ring s) !! k
}.

(** Only blocks at [ps], which are not the device's, changed. *)
Record private (ps : list Z) s s' : Prop := {
  pr_ring : ring s' = ring s;
  pr_temp : temp s' = temp s;
  pr_heap q : q ∉ ps → kheap s' !! q = kheap s !! q;
  pr_own q : q ∈ ps → q ≠ NULL ∧ ¬ on_device s q ∧
    ∀ b, kheap s' !! q = Some b → Z.of_nat (length b) ≤ KMALLOC_LIMIT
}.

Lemma private_same s s' :
  kheap s' = kheap s → ring s' = ring s → temp s' = temp s → private [] s s'.
Proof. intros Hh Hr Ht. split; rewrite ?Hh; auto. by intros q ?%not_elem_of_nil. Qed.

Lemma private_lookup ps s s' q :
  private ps s s' → on_device s q → kheap s' !! q = kheap s !! q.
Proof.
  intros [_ _ Hh Ho] Hq. destruct (decide (q ∈ ps)) as [Hin|Hne]; [|by apply Hh].
  by destruct (Ho q Hin) as (_ & Hd & _).
Qed.

Lemma private_null ps s s' : private ps s s' → kheap s' !! NULL = kheap s !! NULL.
Proof. intros [_ _ Hh Ho]. apply Hh. intros Hin. by destruct (Ho _ Hin). Qed.

Lemma private_dev_inv ps s s' : private ps s s' → dev_inv s → dev_inv s'.
Proof.
  intros Hp Hi. pose proof (private_lookup ps s s') as Hq. destruct Hi as [H1 H2 H3 H4 H5 H6 H7 H8].
  pose proof Hp as [Hr Ht Hh Ho]. split; rewrite ?Hr, ?Ht; try done.
  - by rewrite (private_null ps s s').
  - intros q b Hb. simpl. destruct (decide (q ∈ ps)) as [Hin|Hne]; [by apply (Ho q Hin)|].
    rewrite Hh in Hb by done. by apply (H3 q).
  - intros i e He Hn. rewrite Hq by (done || right; eauto). eauto.
  - intros Hn. rewrite Hq by (done || by left). auto.
Qed.

Lemma private_steps ps c s s' :
  dev_inv s → contents_of s c → private ps s s' → steps_to [] ps c s s'.
Proof.
  intros Hi [H1 H2 H3 H4] Hp. pose proof (private_dev_inv ps s s' Hp Hi) as Hi'.
  pose proof (private_lookup ps s s') as Hq. pose proof Hp as [Hr Ht Hh Ho].
  split; simpl; [done| | |by intros _ k; rewrite Hr].
  - intros _. split; rewrite ?Hr, ?Ht; try done.
    + rewrite <-Hr. apply (slots_kept s s'); [done|done| |done].
      intros i e b He Hb. rewrite Hq in Hb by (done || right; eauto). done.
    + destruct (c_partial c); [|done]. simpl in *. by rewrite Hq by (done || by left).
  - intros q b _ Hne Hb Hd. rewrite Hh by done. split; [done|].
    unfold on_device. by rewrite Hr, Ht.
Qed.

(** What is taken from the user and given to the user does not show in the contents. *)
Lemma steps_quiet e ps c s s' :
  match e with ETake _ _ | EGive _ _ | EHeld => True | _ => False end →
  steps_to [] ps c s s' → steps_to [e] ps c s s'.
Proof. intros He [H1 H2 H3 H4]. by split; destruct e. Qed.

Lemma steps_mono es ps ps' c s s' : ps ⊆ ps' → steps_to es ps c s s' → steps_to es ps' c s s'.
Proof.
  intros Hps [H1 H2 H3 H4]. split; try done. intros q b Hq Hin. apply H3; [done|].
  intros Hp. by apply Hin, Hps.
Qed.

Lemma steps_trans es1 es2 ps c s s1 s2 :
  steps_to es1 ps c s s1 → (∀ c', contents_of s1 c' → steps_to es2 ps c' s1 s2) →
  steps_to (es1 ++ es2) ps c s s2.
Proof.
  intros [H1 H2 H3 H4] H. pose proof (λ i, H _ (H2 i)) as H'. split.
  - apply (to_inv _ _ _ _ _ (H' 0%nat)).
  - intros i. rewrite fmap_app, c_run_app. apply (to_contents _ _ _ _ _ (H' i)).
  - intros q b Hq Hps Hb Hd. destruct (H3 q b Hq Hps Hb Hd) as [Hb1 Hd1].
    by apply (to_frame _ _ _ _ _ (H' 0%nat)).
  - intros i k. rewrite fmap_app, kept_app, andb_true_iff. intros [Hk1 Hk2].
    rewrite (to_slot _ _ _ _ _ (H' i) i k Hk2). by apply (H4 i).
Qed.

Lemma line_index_locate h es ls pos :
  Forall2 (slot_holds h) es ls → line_index ls pos = fst <$> locate es pos.
Proof.
  intros Hls. revert pos. induction Hls as [|e l es ls [Hsz _] _ IH]; intros pos; simpl; [done|].
  rewrite <-Hsz. destruct (pos <? size e); [done|]. rewrite IH.
  by destruct (locate es (pos - size e)) as [[k o]|].
Qed.

Lemma c_search_locate s c pos :
  contents_of s c →
  c_search pos c = (λ x, (c_oldest c + x.1) mod 10)%nat <$> locate (slots (ring s)) pos.
Proof.
  intros Hc. unfold c_search. rewrite (line_index_locate _ _ _ pos (slots_hold s c Hc)).
  by destruct (locate (slots (ring s)) pos) as [[k o]|].
Qed.

(** A search gives the slot of the line; one that fails resets the ring. *)
Lemma search_steps c s pos o s' :
  dev_inv s → contents_of s c → 0 ≤ pos < 2 ^ 64 → k_find pos s = Ok (o, s') →
  steps_to [ESearch pos] [] c s s' ∧ o = Z.of_nat <$> c_search pos c.
Proof.
  intros Hi Hc Hpos. unfold k_find. rewrite find_slots by (apply Hi || done).
  pose proof (c_search_locate s c pos Hc) as Hs.
  destruct (locate (slots (ring s)) pos) as [[k q]|]; intros [= <- <-]; simpl in Hs.
  - rewrite Hs. simpl. rewrite (slot_of_index _ _ _ (co_oldest _ _ Hc)). split; [|done].
    destruct (private_steps [] c s (set_buffer (ring s) s) Hi Hc) as [H1 H2 H3 H4];
      [by apply private_same|].
    split; [done| |done|intros i k' _; by apply (H4 i)]. intros i.
    unfold c_run. simpl. rewrite Hs. exact (H2 i).
  - rewrite Hs. split; [|done]. split; simpl; [by apply dev_inv_reset| |by intros q b| ].
    + intros i. unfold c_run. simpl. rewrite Hs. destruct Hc as [H1 H2 H3 H4]. by split.
    + done.
Qed.

(** *** The critical section of a write *)

(** The text joins the partial text: the block at [q] holds both. *)
Lemma temp_steps c s q m b d :
  dev_inv s → contents_of s c → fresh_block s q m b →
  cstr b = Some (c_text c ++ text_of d) → NL ∉ text_of d →
  steps_to [EWrite d] [q] c s (set_temp q s).
Proof.
  intros Hi [H1 H2 H3 H4] Hf Hs Hnl. split.
  - by eapply dev_inv_set_temp.
  - intros i. unfold c_run. simpl. unfold c_put. rewrite bool_decide_eq_false_2 by done.
    split; try done. simpl. split; [apply Hf|]. exists b. split; [apply Hf|done].
  - intros r br Hr Hrq%not_elem_of_cons Hb Hd. split; [done|].
    intros [E|(i & e & He & E)]; [by destruct Hrq|]. apply Hd. right. eauto.
  - done.
Qed.

(** The block of the replaced entry is off the device. *)
Lemma replaced_off_device s old b' q :
  dev_inv (line_written old b' s) → buffptr old = q → q ≠ NULL →
  ¬ on_device (line_written old b' s) q.
Proof.
  intros Hi <- Hn [E|(i & e & He & E)].
  - destruct (di_temp _ Hi) as (b & Hb & _); [by rewrite E|]. rewrite E in Hb.
    simpl in Hb. by rewrite lookup_delete_eq in Hb.
  - destruct (di_slot _ Hi i e He) as (b & Hb & _); [by rewrite E|]. rewrite E in Hb.
    simpl in Hb. by rewrite lookup_delete_eq in Hb.
Qed.

(** The device before the block of the replaced entry is freed. *)
Lemma replaced_private s old b' :
  dev_inv s → dev_inv (line_written old b' s) →
  private (if decide (buffptr old = NULL) then [] else [buffptr old])
    (line_written old b' s) (set_buffer b' s).
Proof.
  intros Hi Hi'. destruct (decide (buffptr old = NULL)) as [E|E].
  - apply private_same; try done. simpl. by rewrite E, delete_id by apply Hi.
  - split; try done.
    + intros q Hq%not_elem_of_cons. simpl. by rewrite lookup_delete_ne by naive_solver.
    + intros q ->%list_elem_of_singleton. split; [done|]. split; [by eapply replaced_off_device|].
      intros b Hb. by apply (di_limit s Hi (buffptr old)).
Qed.

(** The entry goes into the ring; the one it replaces is off the device. *)
Lemma add_steps c s p n b d :
  dev_inv s → contents_of s c → fresh_block s p n b → n < 2 ^ 64 →
  d = take (Z.to_nat n) b → NL ∈ text_of d →
  ∃ old b', k_add (mkEntry p n) s = Ok (old, set_buffer b' s) ∧
    steps_to [EWrite d] [p] c s (set_buffer b' s) ∧
    (buffptr old ≠ NULL → on_device s (buffptr old) ∧
       ∃ bo, fresh_block (set_buffer b' s) (buffptr old) 0 bo).
Proof.
  intros Hi Hc Hf Hn Hd Hnl. pose proof (fb_size _ _ _ _ Hf) as Hsz.
  assert (Z.of_nat (length d) = n) as Hl by (rewrite Hd, length_take; lia).
  destruct (contents_line s c p d b) as (old & b' & Hadd & _ & Hi' & Hc'); rewrite ?Hl; try done.
  { by rewrite Hd, length_take, Nat.min_l by lia. }
  rewrite Hl in Hadd.
  destruct (add_entry_slot (ring s) (mkEntry p n)) as
    (old' & b2 & Hadd' & _ & Hent & _ & Hold & _); [apply Hi|simpl; lia|].
  rewrite Hadd in Hadd'. injection Hadd' as <- <-.
  pose proof (replaced_private s old b' Hi Hi') as Hp.
  pose proof (private_steps _ _ _ _ Hi' Hc' Hp) as Hst.
  exists old, b'. split; [by apply k_add_ok|]. split; [split|].
  - apply Hst.
  - intros i. unfold c_run. simpl. unfold c_put. rewrite bool_decide_eq_true_2 by done.
    apply (to_contents _ _ _ _ _ Hst i).
  - intros q bq Hq Hqp%not_elem_of_cons Hbq Hqd. split; [done|].
    intros [E|(i & e & Hie & E)]; [apply Hqd; by left|].
    change (entry b' !! i = Some e) in Hie. rewrite Hent in Hie.
    apply list_lookup_insert_Some in Hie as [(_ & <- & _)|[_ Hie]]; [by destruct Hqp|].
    apply Hqd. right. eauto.
  - intros i k. simpl. rewrite andb_true_r, negb_true_iff, bool_decide_eq_true_2 by done. simpl.
    intros Hk%bool_decide_eq_false. change (entry b' !! k = entry (ring s) !! k).
    rewrite Hent, (in_offs_slot _ (di_ring s Hi)), (co_count _ _ Hc).
    rewrite (slot_of_index _ _ _ (co_oldest _ _ Hc)), Nat2Z.id. by apply list_lookup_insert_ne.
  - intros Hn'. destruct Hold as [->|Hold]; [done|]. split; [right; eauto|].
    destruct (di_slot s Hi _ _ Hold Hn') as (bo & Hbo & _ & Hno). exists bo.
    pose proof (replaced_off_device s old b' _ Hi' eq_refl Hn') as Hoff.
    split; try done; [lia| |].
    + intros i e He E. apply Hoff. right. eauto.
    + intros E. apply Hoff. by left.
Qed.

End Steps.
