(* ===== verification/DriverCallSteps.v ===== *)
(** * The steps of one call, against the trace of all

    What is known of a read or a write between two of its steps, in a device that other
    calls use too: [call_inv] says which events the call has had, which blocks it owns,
    what it has read of its entry; [explained] is what is left of that when it has
    returned.  A step of the call keeps it ([step_ok]), and so does a step of another
    call ([call_other]).  Before the last step of a write that joins its text to the
    partial text, the device is taken to have the new text already ([settle]). *)
From Stdlib Require Import ZArith Lia.
From stdpp Require Import base tactics list gmap sets numbers.
From S2P Require Import Prelude CMemory Kernel CircularBuffer CharDriver DriverWrite DriverRead DriverModule DriverSystem DriverConcurrency.
From S2P Require Import DriverTraces.

(** ** The part of a call *)

(** The result and the position of a read of [count] bytes at [pos] whose entry has
    [n] bytes. *)
Definition read_size (count pos n retval pos' : Z) : Prop :=
  retval = (if count <=? n then i64 count else i64 n) ∧ pos' = i64 (pos + retval).

(** What a call that has returned did, in a trace from the contents [c0].  A read that
    was turned away does nothing.  Else it searches once: past the lines it
    returns 0, and when it found a line it gives the user one piece of text, which is
    that line, whole, with the result and the position that belong to it, if no write
    put another line in its slot meanwhile.  A write does nothing when its memory or
    its text cannot be had; else it takes its text, and either stores it, once, or was
    turned away and drops it. *)
Definition explained (c0 : contents) (tr : trace) (i : nat) (c c' : dcall) : Prop :=
  match c, c' with
  | RStart buf count pos, RDone ret pos' =>
    (events i tr = [EHeld] ∧ ret = - ERESTARTSYS ∧ pos' = pos) ∨
    ∃ k1 k2, tr = k1 ++ (i, ESearch (u64 pos)) :: k2 ∧
      match c_search (u64 pos) (c_run c0 k1) with
      | None => events i tr = [ESearch (u64 pos)] ∧ ret = 0 ∧ pos' = pos
      | Some k => ∃ d k3 k4, k2 = k3 ++ (i, EGive buf d) :: k4 ∧
          events i tr = [ESearch (u64 pos); EGive buf d] ∧
          (kept k k3 (c_run c0 k1) = true →
             c_slots (c_run c0 k1) !! k = Some d ∧
             ∃ ret0, read_size count pos (Z.of_nat (length d)) ret0 pos' ∧
                     (ret = ret0 ∨ ret = - EFAULT))
      end
  | WStart buf count, WDone ret =>
    (events i tr = [] ∧ (ret = - ENOMEM ∨ ret = - EFAULT)) ∨
    ∃ d, Z.of_nat (length d) = count ∧ ret = i64 count ∧
         (events i tr = [ETake buf d; EHeld] ∨ events i tr = [ETake buf d; EWrite d])
  | _, _ => True
  end.

(** A write put a line in the slot that the read [i] found. *)
Definition disturbed (c0 : contents) (tr : trace) (i : nat) : Prop :=
  ∃ k1 pos k2 k, tr = k1 ++ (i, ESearch pos) :: k2 ∧
    c_search pos (c_run c0 k1) = Some k ∧ kept k k2 (c_run c0 k1) = false.

Section Interleaving.
Context `{K : Kernel} `{R : RwSem} `{AO : ArgOrder} `{!KernelOk K} `{!RwSemOk R}.
Implicit Types (s : kstate) (c : contents).

(** ** What is known of a call between its steps *)

(** A read at [pos] has searched, and the search gave the slot [k]; as long as no line
    was put there, [P] holds of the line. *)
Definition tracks (c0 : contents) (tr : trace) (i : nat) (pos : Z) (k : nat)
    (P : list Z → Prop) : Prop :=
  ∃ k1 k2, tr = k1 ++ (i, ESearch pos) :: k2 ∧ events i tr = [ESearch pos] ∧
    c_search pos (c_run c0 k1) = Some k ∧
    (kept k k2 (c_run c0 k1) = true →
       ∃ l, c_slots (c_run c0 k1) !! k = Some l ∧ l ≠ [] ∧ P l).

(** What a read at [pos] has read of its entry, which is in the slot [k]. *)
Definition stage s (count pos : Z) (k : nat) (c : dcall) (l : list Z) : Prop :=
  let n := Z.of_nat (length l) in
  match c with
  | RMore _ _ _ _ => (count <=? n) = false
  | RSized _ ret pos' _ | RArgs _ ret pos' _ => read_size count pos n ret pos'
  | RPrint _ ret pos' _ p => read_size count pos n ret pos' ∧
      ∃ e, entry (ring s) !! k = Some e ∧ p = buffptr e
  | RArg _ ret pos' _ a => read_size count pos n ret pos' ∧
      ∃ e, entry (ring s) !! k = Some e ∧ a = if size_first then size e else buffptr e
  | RCopy _ ret pos' p m => read_size count pos n ret pos' ∧
      entry (ring s) !! k = Some (mkEntry p m)
  | _ => True
  end.

(** The block of a write: the byte after the text is a NUL. *)
Definition owned s (p n : Z) (b : list Z) : Prop :=
  fresh_block s p n b ∧ b !! Z.to_nat n = Some NUL.

(** A write that has taken its text from the user; [P] holds of the text. *)
Definition taken s (evs : list event) (buf p n : Z) (P : list Z → Prop) : Prop :=
  ∃ b, owned s p n b ∧ evs = [ETake buf (take (Z.to_nat n) b)] ∧ P (take (Z.to_nat n) b).

(** A block that only the call has a pointer to; its bytes may be anything. *)
Record own_block s (q : Z) (b : list Z) : Prop := {
  ob_ptr : q ≠ NULL;
  ob_heap : kheap s !! q = Some b;
  ob_off : ¬ on_device s q
}.

(** The block at [q] has room for the partial text and [n] bytes more. *)
Definition room s c (n p q : Z) (P : list Z → Prop) : Prop :=
  ∃ b, own_block s q b ∧ q ≠ p ∧ Z.of_nat (length (c_text c)) + n < Z.of_nat (length b) ∧ P b.

(** A write that has stored its text. *)
Definition stored (evs : list event) (buf n : Z) : Prop :=
  ∃ d, Z.of_nat (length d) = n ∧ evs = [ETake buf d; EWrite d].

Definition no_newline (d : list Z) : Prop := NL ∉ text_of d.

(** The call that was started as [c] is now at [c']; [t] is the value of
    [temp_char_buffer]. *)
Definition call_inv (c0 : contents) (tr : trace) (t : Z) s (i : nat) (c c' : dcall) : Prop :=
  match c with
  | RStart buf count pos =>
    let found slot := ∃ k, slot = Z.of_nat k ∧
      tracks c0 tr i (u64 pos) k (stage s count pos k c') in
    match c' with
    | RStart _ _ _ => c' = c ∧ events i tr = []
    | RLocked b n p => (b, n, p) = (buf, count, pos) ∧ events i tr = []
    | RFound b n p None | RUnlocked b n p None => (b, n, p) = (buf, count, pos) ∧
        explained c0 tr i c (RDone 0 pos)
    | RFound b n p (Some slot) | RUnlocked b n p (Some slot) | RMore b n p slot =>
        (b, n, p) = (buf, count, pos) ∧ found slot
    | RSized b _ _ slot | RPrint b _ _ slot _ | RArgs b _ _ slot | RArg b _ _ slot _ =>
        b = buf ∧ found slot
    | RCopy b _ _ _ _ => b = buf ∧
        ∃ k, tracks c0 tr i (u64 pos) k (stage s count pos k c')
    | RDone _ _ => explained c0 tr i c c'
    | _ => False
    end
  | WStart buf count =>
    let taken p := taken s (events i tr) buf p count in
    let room := room s (c_run c0 tr) count in
    let text := c_text (c_run c0 tr) in
    let stored := stored (events i tr) buf count in
    0 < count < 2 ^ 64 ∧
    match c' with
    | WStart _ _ => c' = c ∧ events i tr = []
    | WAlloc b n p => (b, n) = (buf, count) ∧ events i tr = [] ∧ ∃ bl, owned s p n bl
    | WCopied n p | WLocked n p => n = count ∧ taken p (λ _, True)
    | WPartial n p => n = count ∧ taken p no_newline
    | WJoin n p q => n = count ∧ is_Some (c_partial (c_run c0 tr)) ∧ taken p no_newline ∧
        (q = NULL ∨ room p q (λ _, True))
    | WCat n p q => n = count ∧ is_Some (c_partial (c_run c0 tr)) ∧ taken p no_newline ∧
        room p q (λ b, cstr b = Some text)
    | WFree n p q => n = count ∧ is_Some (c_partial (c_run c0 tr)) ∧ taken p (λ d, no_newline d ∧
        room p q (λ b, cstr b = Some (text ++ text_of d)))
    | WSwap n q => n = count ∧ stored ∧ temp s = q ∧ ∃ b, fresh_block s t 0 b
    | WSwapped n q => n = count ∧ stored ∧ temp s = q
    | WLine n p => n = count ∧ taken p (λ d, NL ∈ text_of d)
    | WOld n q | WDrop n q => n = count ∧ stored ∧ ∃ b, fresh_block s q 0 b
    | WStored n => n = count ∧ stored
    | WDone _ => explained c0 tr i c c'
    | _ => False
    end
  | _ => False
  end.

(** The blocks that a call owns. *)
Definition own (t : Z) (x : dcall) : list Z :=
  match x with
  | WAlloc _ _ p | WCopied _ p | WLocked _ p | WPartial _ p | WLine _ p => [p]
  | WJoin _ p q | WCat _ p q | WFree _ p q => [p; q]
  | WSwap _ _ => [t]
  | WOld _ q | WDrop _ q => [q]
  | _ => []
  end.

(** The new partial text of a write that is about to set it. *)
Definition swap (x : dcall) : option Z :=
  match x with WSwap _ q | WSwapped _ q => Some q | _ => None end.

Definition settle (x : dcall) s : kstate :=
  match swap x with Some q => set_temp q s | None => s end.

(** *** Steps of other calls *)

Lemma tracks_now c0 i pos k k1 k2 l :
  c_search pos (c_run c0 k1) = Some k → kept k k2 (c_run c0 k1) = true →
  c_slots (c_run c0 k1) !! k = Some l →
  c_slots (c_run c0 (k1 ++ (i, ESearch pos) :: k2)) !! k = Some l.
Proof.
  intros Hs Hk Hl. rewrite c_run_app. unfold c_run at 1. simpl. rewrite Hs.
  change (c_slots (c_run (c_run c0 k1) k2) !! k = Some l). by rewrite kept_slot.
Qed.

Lemma tracks_found c0 tr i pos k P :
  tracks c0 tr i pos k P →
  (∃ l, c_slots (c_run c0 tr) !! k = Some l ∧ l ≠ [] ∧ P l) ∨ disturbed c0 tr i.
Proof.
  intros (k1 & k2 & -> & _ & Hs & Hk). destruct (kept k k2 (c_run c0 k1)) eqn:E.
  - left. destruct (Hk eq_refl) as (l & Hl & Hn & HP). exists l. by rewrite (tracks_now _ _ _ k _ _ l).
  - right. by exists k1, pos, k2, k.
Qed.

Lemma tracks_weaken c0 tr i pos k (P Q : list Z → Prop) :
  (∀ l, c_slots (c_run c0 tr) !! k = Some l → l ≠ [] → P l → Q l) →
  tracks c0 tr i pos k P → tracks c0 tr i pos k Q.
Proof.
  intros HPQ (k1 & k2 & -> & He & Hs & Hk). exists k1, k2. split_and!; try done.
  intros Hkept. destruct (Hk Hkept) as (l & Hl & Hn & HP). exists l. split_and!; try done.
  apply HPQ; [by apply (tracks_now _ _ _ k)|done..].
Qed.

Lemma stage_kept s s' count pos k (x : dcall) l :
  entry (ring s') !! k = entry (ring s) !! k → stage s count pos k x l → stage s' count pos k x l.
Proof. intros He. destruct x; simpl; by rewrite ?He. Qed.

Lemma tracks_other c0 tr s s' es p i j pos k count pos' (x : dcall) :
  steps_to es p (c_run c0 tr) s s' → i ≠ j →
  tracks c0 tr i pos k (stage s count pos' k x) →
  tracks c0 (tr ++ (pair j <$> es)) i pos k (stage s' count pos' k x).
Proof.
  intros Hst Hij (k1 & k2 & -> & He & Hs & Hk). exists k1, (k2 ++ (pair j <$> es)).
  split_and!; try done.
  - by rewrite <-app_assoc.
  - by rewrite events_app, He, events_other.
  - rewrite kept_app, andb_true_iff. intros [Hk1 Hk2].
    destruct (Hk Hk1) as (l & Hl & Hn & HP). exists l. split_and!; try done.
    eapply stage_kept; [|exact HP]. apply (to_slot _ _ _ _ _ Hst j).
    rewrite c_run_app. unfold c_run at 1. simpl. by rewrite Hs.
Qed.

Lemma fresh_own s q n b : fresh_block s q n b → own_block s q b.
Proof.
  intros [H1 H2 H3 H4 H5 H6]. split; try done.
  intros [E|(i & e & He & E)]; [by apply H6|by apply (H5 i e He)].
Qed.

Lemma own_fresh s q n b :
  own_block s q b → 0 ≤ n ≤ Z.of_nat (length b) → NUL ∈ b → fresh_block s q n b.
Proof.
  intros [H1 H2 H3] Hn Hnul. split; try done.
  - intros i e He E. apply H3. right. eauto.
  - intros E. apply H3. by left.
Qed.

Lemma own_other es ps c s s' q b :
  steps_to es ps c s s' → q ∉ ps → own_block s q b → own_block s' q b.
Proof.
  intros Hst Hqp [H1 H2 H3]. destruct (to_frame _ _ _ _ _ Hst q b H1 Hqp H2 H3) as [Hh Hd].
  by split.
Qed.

Lemma fresh_other es ps c s s' q n b :
  steps_to es ps c s s' → q ∉ ps → fresh_block s q n b → fresh_block s' q n b.
Proof.
  intros Hst Hqp Hf. apply own_fresh; [|apply Hf..].
  eapply own_other; [done..|by eapply fresh_own].
Qed.

Lemma taken_other es ps c s s' evs buf p n P :
  steps_to es ps c s s' → (p ≠ NULL → p ∉ ps) → taken s evs buf p n P → taken s' evs buf p n P.
Proof.
  intros Hst Hp (b & [Hf Hb] & H). exists b. split; [|done]. split; [|done].
  eapply fresh_other; [done|apply Hp, Hf|done].
Qed.

Lemma room_other es ps c c1 c2 s s' n p q P :
  steps_to es ps c s s' → (q ≠ NULL → q ∉ ps) → c_partial c2 = c_partial c1 →
  room s c1 n p q P → room s' c2 n p q P.
Proof.
  intros Hst Hq Hc (b & Hf & Hne & Hl & HP). exists b. unfold c_text in *. rewrite Hc.
  split; [|done]. eapply own_other; [done|apply Hq, Hf|done].
Qed.

Lemma explained_other c0 tr es i j (x x' : dcall) :
  i ≠ j → explained c0 tr i x x' → explained c0 (tr ++ (pair j <$> es)) i x x'.
Proof.
  intros Hij. unfold explained.
  rewrite !events_app, (events_other i j es Hij), app_nil_r.
  destruct x as [buf count pos| | | | | | | | | | |buf count| | | | | | | | | | | | | |]; try done;
    destruct x' as [| | | | | | | | | |ret pos'| | | | | | | | | | | | | | |ret]; try done.
  intros [H|(k1 & k2 & -> & H)]; [by left|right]. exists k1, (k2 ++ (pair j <$> es)).
  split; [by rewrite <-app_assoc|]. destruct (c_search _ _) as [k|]; [|done].
  destruct H as (d & k3 & k4 & -> & He & H). exists d, k3, (k4 ++ (pair j <$> es)).
  split; [by rewrite <-app_assoc|done].
Qed.

Lemma read_other c0 tr t t' s s' es ps i j buf count pos (x : dcall) :
  steps_to es ps (c_run c0 tr) s s' → i ≠ j →
  call_inv c0 tr t s i (RStart buf count pos) x →
  call_inv c0 (tr ++ (pair j <$> es)) t' s' i (RStart buf count pos) x.
Proof.
  intros Hst Hij. pose proof (explained_other c0 tr es i j (RStart buf count pos)) as Hex.
  unfold call_inv. rewrite events_app, events_other, app_nil_r by done.
  destruct x as [| |? ? ? [slot|]|? ? ? [slot|]| | | | | | | | | | | | | | | | | | | | | |]; try done;
    try (intros [E (k & Hk & Ht)]; split; [exact E|exists k; split; [exact Hk|];
         by eapply tracks_other]).
  - intros [E H]. split; [done|]. by apply Hex.
  - intros [E H]. split; [done|]. by apply Hex.
  - intros [E (k & Ht)]. split; [done|]. exists k. by eapply tracks_other.
  - by apply Hex.
Qed.

(** A write outside its critical section. *)
Lemma write_other c0 tr t t' s s' es ps i j buf count (x : dcall) :
  steps_to es ps (c_run c0 tr) s s' → i ≠ j →
  (∀ q, q ∈ own t x → q ≠ NULL → q ∉ ps) → holds_write x = false →
  call_inv c0 tr t s i (WStart buf count) x →
  call_inv c0 (tr ++ (pair j <$> es)) t' s' i (WStart buf count) x.
Proof.
  intros Hst Hij Hown Hw. pose proof (explained_other c0 tr es i j (WStart buf count)) as Hex.
  unfold call_inv. rewrite events_app, events_other, app_nil_r by done.
  intros [Hc H]. split; [exact Hc|]. destruct x; try done; simpl in *.
  - destruct H as (E & He & b & Hb & Hnul). do 2 (split; [done|]). exists b. split; [|done].
    eapply fresh_other; [done| |done]. apply Hown; [set_solver|apply Hb].
  - destruct H as (E & H). split; [done|]. eapply taken_other; [done| |done].
    intros Hn. apply Hown; [set_solver|done].
  - exact (Hex (WDone _) Hij H).
Qed.

(** The write that is in its critical section. *)
Lemma writing_other c0 tr t s s' es ps i j buf count (x : dcall) :
  steps_to es ps (c_run c0 tr) s s' → i ≠ j →
  (∀ q, q ∈ own t x → q ≠ NULL → q ∉ ps) → holds_write x = true →
  temp s' = temp s → Forall no_write es →
  call_inv c0 tr t s i (WStart buf count) x →
  call_inv c0 (tr ++ (pair j <$> es)) t s' i (WStart buf count) x.
Proof.
  intros Hst Hij Hown Hw Ht Hes.
  assert (∀ p P, p ∈ own t x → taken s (events i tr) buf p count P →
    taken s' (events i tr) buf p count P) as Htaken.
  { intros p P Hp. eapply taken_other; [done|]. intros Hn. by apply Hown. }
  assert (∀ q n b, q ∈ own t x → fresh_block s q n b → fresh_block s' q n b) as Hfresh.
  { intros q n b Hq Hb. eapply fresh_other; [done| |done]. apply Hown; [done|apply Hb]. }
  assert (c_partial (c_run c0 (tr ++ (pair j <$> es))) = c_partial (c_run c0 tr)) as Hp.
  { by rewrite c_run_app, c_run_partial. }
  assert (∀ p q P, q ∈ own t x → room s (c_run c0 tr) count p q P →
    room s' (c_run c0 (tr ++ (pair j <$> es))) count p q P) as Hroom.
  { intros p q P Hq. eapply room_other; [done| |done]. intros Hn. by apply Hown. }
  assert (c_text (c_run c0 (tr ++ (pair j <$> es))) = c_text (c_run c0 tr)) as Htext.
  { unfold c_text. by rewrite Hp. }
  unfold call_inv. rewrite events_app, events_other, app_nil_r, Hp, Htext, Ht by done.
  intros [Hc H]. split; [exact Hc|]. destruct x; try done; simpl in *; destruct H as (E & H);
    split; try done.
  - apply Htaken; [set_solver|done].
  - apply Htaken; [set_solver|done].
  - destruct H as (Hs & H & Hr). split; [done|]. split; [apply Htaken; [set_solver|done]|].
    destruct Hr as [Hr|Hr]; [by left|right]. apply Hroom; [set_solver|done].
  - destruct H as (Hs & H & Hr). split; [done|]. split; [apply Htaken; [set_solver|done]|].
    apply Hroom; [set_solver|done].
  - destruct H as (Hs & b & Hb & He & Hn & Hr). split; [done|].
    destruct (Htaken buffer (λ d, d = take (Z.to_nat count) b)) as (b' & Hb' & He' & Hd);
      [set_solver|by exists b|].
    exists b'. split; [done|]. split; [done|]. rewrite Hd. split; [done|].
    apply Hroom; [set_solver|done].
  - destruct H as (Hs & Hq & b & Hb). do 2 (split; [done|]). exists b. apply Hfresh; [set_solver|done].
  - apply Htaken; [set_solver|done].
  - destruct H as (Hs & b & Hb). split; [done|]. exists b. apply Hfresh; [set_solver|done].
  - destruct H as (Hs & b & Hb). split; [done|]. exists b. apply Hfresh; [set_solver|done].
Qed.

Lemma call_other c0 tr t t' s s' es ps i j (x x' : dcall) :
  steps_to es ps (c_run c0 tr) s s' → i ≠ j →
  (∀ q, q ∈ own t x' → q ≠ NULL → q ∉ ps) →
  (holds_write x' = true → t' = t ∧ temp s' = temp s ∧ Forall no_write es) →
  call_inv c0 tr t s i x x' → call_inv c0 (tr ++ (pair j <$> es)) t' s' i x x'.
Proof.
  intros Hst Hij Hown Hhold. destruct x; try done.
  - by eapply read_other.
  - destruct (holds_write x') eqn:Hw; [|by eapply write_other].
    destruct (Hhold eq_refl) as (-> & Ht & Hes). by eapply writing_other.
Qed.

(** *** The steps of a read *)

Lemma k_entry_inv k s e s' :
  k_entry (Z.of_nat k) s = Ok (e, s') → s' = s ∧ entry (ring s) !! k = Some e.
Proof.
  unfold k_entry. destruct (arr_get _ _) as [e'|] eqn:E; [|done]. intros [= <- <-].
  apply arr_get_ok in E as [_ E]. by rewrite Nat2Z.id in E.
Qed.

Lemma slot_line s c k e l :
  contents_of s c → entry (ring s) !! k = Some e → c_slots c !! k = Some l →
  size e = Z.of_nat (length l) ∧ content (kheap s) e = l.
Proof. intros Hc He Hl. exact (Forall2_lookup_lr _ _ _ _ _ _ (co_slots _ _ Hc) He Hl). Qed.

(** What the step of the call [i] from [x] to [y] has to establish. *)
Definition step_ok (c0 : contents) (tr : trace) s (i : nat) (c x y : dcall) s' : Prop :=
  let es := event_of x s in
  steps_to es (own (temp s) x) (c_run c0 tr) (settle x s) (settle y s') ∧
  call_inv c0 (tr ++ (pair i <$> es)) (temp s') (settle y s') i c y ∧
  (∀ q, q ∈ own (temp s') y → q ≠ NULL →
     q ∈ own (temp s) x ∨ kheap s !! q = None ∨ on_device (settle x s) q).

(** A step without an event, or with one that does not show in the contents. *)
Lemma silent_step c0 tr s i (c x y : dcall) s' ps :
  dev_inv (settle x s) → contents_of (settle x s) (c_run c0 tr) → event_of x s = [] →
  private ps (settle x s) (settle y s') → ps ⊆ own (temp s) x →
  own (temp s') y ⊆ own (temp s) x → call_inv c0 tr (temp s') (settle y s') i c y →
  step_ok c0 tr s i c x y s'.
Proof.
  intros Hi Hc He Hp Hps Hown Hinv. unfold step_ok. rewrite He. simpl. rewrite app_nil_r.
  split; [|split; [done|intros q Hq _; left; by apply Hown]].
  apply (steps_mono _ ps); [done|by apply private_steps].
Qed.

Lemma quiet_step c0 tr s i (c x y : dcall) s' e ps :
  dev_inv (settle x s) → contents_of (settle x s) (c_run c0 tr) → event_of x s = [e] →
  match e with ETake _ _ | EGive _ _ | EHeld => True | _ => False end →
  private ps (settle x s) (settle y s') → ps ⊆ own (temp s) x →
  own (temp s') y ⊆ own (temp s) x →
  call_inv c0 (tr ++ [(i, e)]) (temp s') (settle y s') i c y →
  step_ok c0 tr s i c x y s'.
Proof.
  intros Hi Hc He Hq Hp Hps Hown Hinv. unfold step_ok. rewrite He.
  split; [|split; [done|intros q Hin _; left; by apply Hown]].
  apply steps_quiet; [done|]. apply (steps_mono _ ps); [done|by apply private_steps].
Qed.

(** A step of a read that leaves the memory and the ring. *)
Lemma plain_step c0 tr s i (c x y : dcall) s' :
  dev_inv s → contents_of s (c_run c0 tr) → event_of x s = [] →
  swap x = None → swap y = None → own (temp s') y = [] →
  kheap s' = kheap s → ring s' = ring s → temp s' = temp s →
  call_inv c0 tr (temp s') s' i c y → step_ok c0 tr s i c x y s'.
Proof.
  intros Hi Hc He Hx Hy Ho Hh Hr Ht Hinv.
  apply (silent_step _ _ _ _ _ _ _ _ []); unfold settle; rewrite ?Hx, ?Hy, ?Ho; try done.
  - by apply private_same.
  - set_solver.
  - set_solver.
Qed.

(** A semaphore that turns a call away is held. *)
Lemma lock_event_cases m r s :
  m = dsem s → (writer m = false → readers m = O → r = 1) →
  lock_event r s = if r =? 1 then [] else [EHeld].
Proof.
  intros -> Hfree. unfold lock_event, held. destruct (Z.eqb_spec r 1) as [|Hr]; [done|]. simpl.
  destruct (Nat.eqb_spec (readers (dsem s)) 0) as [H0|]; [|done]. simpl.
  destruct (writer (dsem s)) eqn:Hw; [done|]. destruct Hr. by apply Hfree.
Qed.

Lemma read_lock_step c0 tr s i buf count pos y s' :
  let c := RStart buf count pos in
  dev_inv s → contents_of s (c_run c0 tr) → call_inv c0 tr (temp s) s i c c →
  call_step c s = Ok (y, s') → step_ok c0 tr s i c c y s'.
Proof.
  intros c Hi Hc [_ He]. simpl. unfold k_down_read_trylock, mbind, st_bind.
  pose proof (lock_event_cases (dsem s) _ s eq_refl (down_read_free (dsem s))) as Hev.
  destruct (down_read_trylock (dsem s)) as [r m] eqn:Hr. simpl in Hev.
  destruct (r =? 1); intros [= <- <-].
  - apply plain_step; try done. simpl. by rewrite Hr.
  - apply (quiet_step _ _ _ _ _ _ _ _ EHeld []); try done; [simpl; by rewrite Hr|by apply private_same|..].
    left. split; [|done]. rewrite events_app, He. apply (events_self i [_]).
Qed.

(** The line that a search finds. *)
Lemma c_search_line s c pos k :
  dev_inv s → contents_of s c → 0 ≤ pos → c_search pos c = Some k →
  ∃ l, c_slots c !! k = Some l ∧ l ≠ [].
Proof.
  intros Hi Hc Hpos. rewrite (c_search_locate s c pos Hc).
  destruct (locate (slots (ring s)) pos) as [[j o]|] eqn:Hloc; [|done]. intros [= <-].
  destruct (locate_Some _ _ _ _ Hpos Hloc) as (e & He & Ho & _).
  rewrite slots_lookup in He; [|apply Hi|].
  2:{ rewrite <-(length_slots (ring s)) by apply Hi. by eapply lookup_lt_Some. }
  rewrite (slot_of_index _ _ _ (co_oldest _ _ Hc)), Nat2Z.id in He.
  destruct (Forall2_lookup_l _ _ _ _ _ (co_slots _ _ Hc) He) as (l & Hl & Hsz & _).
  exists l. split; [exact Hl|]. intros ->. simpl in Hsz. lia.
Qed.

Lemma read_search_step c0 tr s i buf count pos y s' :
  let c := RStart buf count pos in let x := RLocked buf count pos in
  dev_inv s → contents_of s (c_run c0 tr) → events i tr = [] →
  call_step x s = Ok (y, s') → step_ok c0 tr s i c x y s'.
Proof.
  intros c x Hi Hc He. simpl. intros (o & s1 & Hf & [= <- <-])%st_bind_ok.
  destruct (search_steps (c_run c0 tr) s (u64 pos) o s1 Hi Hc (u64_range pos) Hf) as [Hst ->].
  split; [exact Hst|]. split; [|by intros q ?%not_elem_of_nil]. simpl.
  assert (events i (tr ++ [(i, ESearch (u64 pos))]) = [ESearch (u64 pos)]) as Hev.
  { rewrite events_app, He. apply (events_self i [_]). }
  destruct (c_search (u64 pos) (c_run c0 tr)) as [k|] eqn:Hs; simpl.
  - split; [done|]. exists k. split; [done|]. exists tr, []. split_and!; try done.
    intros _. destruct (c_search_line s _ (u64 pos) k Hi Hc) as (l & Hl & Hn);
      [apply u64_range|done|]. by exists l.
  - split; [done|]. right. exists tr, []. split; [done|]. by rewrite Hs.
Qed.

(** An access to the entry, by a call that is at [x] and goes on to [y]. *)
Lemma entry_read c0 tr s i count pos slot (x y : dcall) e s1 :
  contents_of s (c_run c0 tr) →
  (∃ k, slot = Z.of_nat k ∧ tracks c0 tr i (u64 pos) k (stage s count pos k x)) →
  k_entry slot s = Ok (e, s1) →
  (∀ k l, size e = Z.of_nat (length l) → entry (ring s) !! k = Some e →
     stage s count pos k x l → stage s count pos k y l) →
  s1 = s ∧ ∃ k, slot = Z.of_nat k ∧ tracks c0 tr i (u64 pos) k (stage s count pos k y).
Proof.
  intros Hc (k & -> & Ht) [-> He]%k_entry_inv Hxy. split; [done|]. exists k. split; [done|].
  eapply tracks_weaken; [|exact Ht]. intros l Hl _ HP. apply Hxy; try done.
  by apply (slot_line s _ k e l Hc).
Qed.

(** The steps between the search and the copy. *)
Lemma read_entry_step c0 tr s i buf count pos (x y : dcall) s' :
  let c := RStart buf count pos in
  dev_inv s → contents_of s (c_run c0 tr) → call_inv c0 tr (temp s) s i c x →
  match x with
  | RUnlocked _ _ _ (Some _) | RMore _ _ _ _ | RSized _ _ _ _ | RArgs _ _ _ _
  | RArg _ _ _ _ _ => True
  | _ => False
  end →
  call_step x s = Ok (y, s') → step_ok c0 tr s i c x y s'.
Proof.
  intros c Hi Hc Hinv Hx Hstep.
  assert (s' = s ∧ swap x = None ∧ swap y = None ∧ own (temp s) y = [] ∧ event_of x s = [] ∧
    call_inv c0 tr (temp s) s i c y) as (-> & Hsx & Hsy & Hoy & Hev & Hy).
  2:{ by apply plain_step. }
  destruct x as [| | |b n q [slot|]|b n q slot|b r q slot| |b r q slot|b r q slot a0| | | | | | | | | | | | | | | | |];
    try done; destruct Hinv as [E Hf]; simpl in Hstep;
    apply st_bind_ok in Hstep as (e & s1 & Hk & Hy).
  - injection E as -> -> ->. destruct (count <=? size e) eqn:Hn; injection Hy as <- <-;
      (edestruct entry_read as [-> Hf']; [exact Hc|exact Hf|exact Hk| |by split_and!]);
      intros k l Hl _ _; simpl; rewrite <-Hl; [|done]. by split; [rewrite Hn|].
  - injection E as -> -> ->. injection Hy as <- <-.
    edestruct entry_read as [-> Hf']; [exact Hc|exact Hf|exact Hk| |by split_and!].
    intros k l Hl _ Hs. simpl in *. split; [|done]. by rewrite Hs, Hl.
  - injection Hy as <- <-.
    edestruct entry_read as [-> Hf']; [exact Hc|exact Hf|exact Hk| |by split_and!].
    intros k l Hl He Hs. simpl in *. eauto.
  - injection Hy as <- <-.
    edestruct entry_read as [-> Hf']; [exact Hc|exact Hf|exact Hk| |by split_and!].
    intros k l Hl He Hs. simpl in *. eauto.
  - edestruct (entry_read c0 tr s i count pos slot (RArg b r q slot a0) y e s1) as [-> (k & Hs & Hf')];
      [exact Hc|exact Hf|exact Hk| |].
    + intros k l Hl He (Hs & e' & He' & ->). rewrite He in He'. injection He' as <-.
      destruct size_first; injection Hy as <- <-; simpl; rewrite He; by destruct e.
    + destruct size_first; injection Hy as <- <-; (do 5 (split; [done|])); (split; [exact E|]); by exists k.
Qed.

(** The print and the copy. *)
Lemma read_copy_step c0 tr s i buf count pos b r q p n y s' :
  let c := RStart buf count pos in let x := RCopy b r q p n in
  dev_inv s → contents_of s (c_run c0 tr) → call_inv c0 tr (temp s) s i c x →
  call_step x s = Ok (y, s') → step_ok c0 tr s i c x y s'.
Proof.
  intros c x Hi Hc (-> & k & Ht). simpl. intros (nleft & s1 & Hcp & [= <- <-])%st_bind_ok.
  assert (private [] s s1) as Hp.
  { unfold k_copy_to_user in Hcp. destruct (_ ≫= _) as [bs|]; [|done].
    destruct (copy_to_user _ _ _ _) as [u left]. injection Hcp as <- <-. by apply private_same. }
  split; [by apply steps_quiet, private_steps|]. split; [|by intros q' ?%not_elem_of_nil].
  simpl. right. destruct Ht as (k1 & k2 & Htr & Hev & Hs & Hkept).
  exists k1, (k2 ++ [(i, EGive buf (content (kheap s) (mkEntry p n)))]).
  split; [rewrite Htr; by rewrite <-app_assoc|]. rewrite Hs.
  eexists _, k2, []. split; [done|]. split; [rewrite events_app, Hev; f_equal; apply (events_self i [_])|].
  intros Hk. destruct (Hkept Hk) as (l & Hl & _ & Hsz & He).
  assert (c_slots (c_run c0 tr) !! k = Some l) as Hl' by (rewrite Htr; by apply (tracks_now _ _ _ k)).
  destruct (slot_line s _ k _ l Hc He Hl') as [Hn ->]. split; [done|].
  exists r. split; [exact Hsz|]. destruct (negb _); auto.
Qed.

Lemma read_step c0 tr s i buf count pos (x y : dcall) s' :
  let c := RStart buf count pos in
  dev_inv s → contents_of s (c_run c0 tr) → call_inv c0 tr (temp s) s i c x →
  call_step x s = Ok (y, s') → step_ok c0 tr s i c x y s'.
Proof.
  intros c Hi Hc Hinv Hstep.
  destruct x as [| |b n q o|b n q [slot|]| | |b r q slot p| | |b r q p n|r q| | | | | | | | | | | | | | |]; try done;
    try (by eapply read_entry_step).
  - destruct Hinv as [[= -> -> ->] He]. by apply read_lock_step.
  - destruct Hinv as [[= -> -> ->] He]. by apply read_search_step.
  - injection Hstep as <- <-. by apply plain_step.
  - injection Hstep as <- <-. destruct Hinv as [[= -> -> ->] He]. by apply plain_step.
  - simpl in Hstep. apply st_bind_ok in Hstep as (u & s1 & Hp & [= <- <-]).
    assert (s1 = s) as ->.
    { unfold PDEBUG_s, of_heap in Hp. destruct (if AESD_DEBUG then _ else _); [|done]. by injection Hp. }
    destruct Hinv as (-> & k & -> & Ht). apply plain_step; try done.
    split; [done|]. exists k. split; [done|]. eapply tracks_weaken; [|exact Ht]. by intros l _ _ [? _].
  - by eapply read_copy_step.
  - injection Hstep as <- <-. by apply plain_step.
Qed.

(** *** The steps of a write *)

(** The text in a block that is terminated at [n]. *)
Lemma cstr_text b n :
  b !! n = Some NUL →
  cstr b = Some (text_of (take n b)) ∧ (length (text_of (take n b)) ≤ n)%nat.
Proof.
  intros Hb. pose proof (take_drop_middle _ _ _ Hb) as E. unfold text_of.
  assert (length (take n b) ≤ n)%nat by (rewrite length_take; lia).
  destruct (cstr (take n b)) as [str|] eqn:Hs; simpl.
  - pose proof (cstr_length _ _ Hs). split; [|lia]. apply cstr_Some in Hs as [Hn Hs].
    rewrite <-E, Hs, <-app_assoc. simpl. by apply cstr_app_nul.
  - apply cstr_None in Hs. split; [|done]. rewrite <-E at 1. by apply cstr_app_nul.
Qed.

Lemma own_private s s' p b :
  own_block s p b → ring s' = ring s → temp s' = temp s →
  (∀ q, q ≠ p → kheap s' !! q = kheap s !! q) →
  (∀ b', kheap s' !! p = Some b' → Z.of_nat (length b') ≤ KMALLOC_LIMIT) → private [p] s s'.
Proof.
  intros [H1 H2 H3] Hr Ht Hh Hl. split; try done.
  - intros q [Hq _]%not_elem_of_cons. by apply Hh.
  - intros q ->%list_elem_of_singleton. by split_and!.
Qed.

(** The block is freed. *)
Lemma freed_private s s' p n b :
  fresh_block s p n b → ring s' = ring s → temp s' = temp s → kheap s' = delete p (kheap s) →
  private [p] s s'.
Proof.
  intros Hf Hr Ht Hh. eapply own_private; [by eapply fresh_own|done..| |]; rewrite Hh.
  - intros q Hq. by apply lookup_delete_ne.
  - intros b'. by rewrite lookup_delete_eq.
Qed.

(** The block is written. *)
Lemma stored_private s s' p n b b' :
  dev_inv s → own_block s p b → ring s' = ring s → temp s' = temp s →
  kheap s' = <[p:=b']> (kheap s) → length b' = length b → 0 ≤ n ≤ Z.of_nat (length b) → NUL ∈ b' →
  private [p] s s' ∧ fresh_block s' p n b'.
Proof.
  intros Hi Hf Hr Ht Hh Hl Hn Hnul.
  pose proof (map_Forall_lookup_1 _ _ _ _ (di_limit s Hi) (ob_heap _ _ _ Hf)) as Hlim. simpl in Hlim.
  split.
  - eapply own_private; [exact Hf|done..| |]; rewrite Hh.
    + intros q Hq. by apply lookup_insert_ne.
    + intros b2. rewrite lookup_insert_eq. intros [= <-]. by rewrite Hl.
  - apply own_fresh; [|by rewrite Hl|done]. destruct Hf as [H1 H2 H3].
    split; [done|rewrite Hh; apply lookup_insert_eq|]. unfold on_device. by rewrite Hr, Ht.
Qed.

(** An allocation. *)
Lemma malloc_steps c s n r s' :
  dev_inv s → contents_of s c → 0 < n → k_malloc n s = Ok (r, s') →
  steps_to [] [] c s s' ∧ ring s' = ring s ∧ temp s' = temp s ∧
  (r ≠ NULL → kheap s !! r = None ∧ ∃ b, kmalloc (ktick s) (kheap s) n = Some (r, b) ∧
     own_block s' r b ∧ n ≤ Z.of_nat (length b)).
Proof.
  intros Hi Hc Hn. unfold k_malloc.
  destruct (kmalloc (ktick s) (kheap s) n) as [[p b]|] eqn:Hm; intros [= <- <-].
  2:{ split; [by apply private_steps, private_same|done]. }
  pose proof (kmalloc_not_null _ _ _ _ _ Hn Hm) as Hp.
  pose proof (kmalloc_fresh _ _ _ _ _ Hn Hm) as Hf.
  pose proof (kmalloc_size _ _ _ _ _ Hn Hm).
  pose proof (kmalloc_max _ _ _ _ _ Hn Hm) as Hlim.
  destruct (dev_inv_live s p Hi Hp Hf) as [Ht Hs]. set (s1 := tick _).
  assert (private [p] s s1) as Hpr.
  { split; try done; simpl.
    - intros q [Hq _]%not_elem_of_cons. by apply lookup_insert_ne.
    - intros q ->%list_elem_of_singleton. split; [done|]. split.
      + intros [E|(j & e & Hj & E)]; [done|by apply (Hs j e Hj)].
      + intros b'. rewrite lookup_insert_eq. by intros [= <-]. }
  destruct (private_steps [p] c s s1 Hi Hc Hpr) as [H1 H2 H3 H4]. split; [|do 2 (split; [done|])].
  - split; [done|exact H2| |done]. intros q b' Hq _ Hb. apply H3; [done| |done].
    intros ->%list_elem_of_singleton. congruence.
  - intros _. split; [done|]. exists b. split; [done|]. split; [|lia].
    split; [done|apply lookup_insert_eq|]. intros [E|(j & e & Hj & E)]; [done|by apply (Hs j e Hj)].
Qed.

Lemma write_alloc_step c0 tr s i buf count y s' :
  let c := WStart buf count in
  dev_inv s → contents_of s (c_run c0 tr) → call_inv c0 tr (temp s) s i c c →
  step_terminated c s = true →
  call_step c s = Ok (y, s') → step_ok c0 tr s i c c y s'.
Proof.
  intros c Hi Hc [Hcount [_ He]]. simpl. intros Hterm. intros (r & s1 & Hm & Hy)%st_bind_ok.
  destruct (malloc_steps _ s count r s1 Hi Hc (proj1 Hcount) Hm) as (Hst & Hr & Ht & Hown).
  destruct (Z.eqb_spec r NULL) as [->|Hn].
  - injection Hy as <- <-. split; [exact Hst|]. split; [|by intros q ?%not_elem_of_nil].
    split; [done|]. left. simpl. rewrite app_nil_r. auto.
  - injection Hy as <- <-. destruct (Hown Hn) as (Hd & b & Hb).
    split; [exact Hst|]. split; [|intros q ->%list_elem_of_singleton _; by right; left].
    simpl. rewrite app_nil_r. do 3 (split; [done|]). exists b.
    destruct Hb as (Hm' & Hb & Hl). rewrite Hm' in Hterm. apply bool_decide_eq_true in Hterm.
    split; [|done]. apply own_fresh; [done|lia|]. apply list_elem_of_lookup. eauto.
Qed.

(** The copy from the user into the block of a write. *)
Lemma copy_in s p n b buf d nleft :
  owned s p n b → copy_from_user (ktick s) (kumem s) buf (Z.to_nat n) = (d, nleft) →
  let s1 := tick (set_heap (<[p:=filled d b]> (kheap s)) s) in
  k_copy_from_user p buf n s = Ok (nleft, s1) ∧ length (filled d b) = length b ∧
  take (Z.to_nat n) (filled d b) = d ∧ owned s1 p n (filled d b).
Proof.
  intros [Hf Hb] Hcu s1. pose proof (copy_from_user_length _ _ _ _ _ _ Hcu) as Hd.
  destruct Hf as [Hp Hh Hsz _ H5 H6].
  assert (length (filled d b) = length b) as Hlf.
  { unfold filled. rewrite length_app, length_drop. lia. }
  assert (filled d b !! Z.to_nat n = Some NUL) as Hnul.
  { unfold filled. rewrite lookup_app_r, lookup_drop, Hd, Nat.sub_diag, Nat.add_0_r by lia. done. }
  split; [|split; [done|split; [unfold filled; by rewrite <-Hd, take_app_length|]]].
  - unfold k_copy_from_user. rewrite Hcu. unfold store_at. rewrite (block_at_ok _ p b Hp Hh). simpl.
    by rewrite store_bytes_ok by lia.
  - split; [|done]. split; try done; [apply lookup_insert_eq|lia|].
    apply list_elem_of_lookup. eauto.
Qed.

Lemma write_copy_step c0 tr s i buf count p y s' :
  let c := WStart buf count in let x := WAlloc buf count p in
  dev_inv s → contents_of s (c_run c0 tr) → call_inv c0 tr (temp s) s i c x →
  call_step x s = Ok (y, s') → step_ok c0 tr s i c x y s'.
Proof.
  intros c x Hi Hc (Hcount & _ & He & b & Hb). pose proof Hb as [Hf _].
  simpl. destruct (copy_from_user (ktick s) (kumem s) buf (Z.to_nat count)) as [d nleft] eqn:Hcu.
  destruct (copy_in s p count b buf d nleft Hb Hcu) as (Hk & Hlf & Htake & Hb1).
  set (s1 := tick _) in *. pose proof Hb1 as [Hf1 _]. pose proof (fb_ptr _ _ _ _ Hf1) as Hp.
  pose proof (fb_nul _ _ _ _ Hf1) as Hnul.
  rewrite (st_bind_step _ _ _ _ _ Hk). destruct (Z.eqb_spec nleft 0) as [->|Hn]; simpl.
  - rewrite (st_bind_step _ _ _ _ _ (PDEBUG_s_ok s1 p _ (fb_heap _ _ _ _ Hf1) Hp Hnul)).
    intros [= <- <-]. pose proof (copy_from_user_all _ _ _ _ _ Hcu) as Hu.
    apply (quiet_step _ _ _ _ _ _ _ _ (ETake buf d) [p]); try done; [simpl; by rewrite Hu|..].
    + apply (stored_private s s1 p count b (filled d b)); try done; [by eapply fresh_own|apply Hf].
    + do 2 (split; [done|]). exists (filled d b). split; [done|]. split; [|done].
      rewrite events_app, He, Htake. apply (events_self i [_]).
  - assert (umem_read (kumem s) buf (Z.to_nat count) = None) as Hu.
    { destruct (umem_read _ _ _) as [d'|] eqn:Hu; [|done]. destruct Hn.
      change nleft with ((d, nleft).2). rewrite <-Hcu. apply copy_from_user_mapped.
      by eapply umem_read_addresses. }
    rewrite (st_bind_step _ _ _ _ _
      (aesd_write_fail_ok s1 p (filled d b) (- EFAULT) (lookup_insert_eq _ _ _) Hp)).
    intros [= <- <-]. apply (silent_step _ _ _ _ _ _ _ _ [p]); try done; [simpl; by rewrite Hu|..].
    + apply (freed_private _ _ p count b); try done. simpl. by rewrite delete_insert_eq.
    + set_solver.
    + split; [done|]. left. auto.
Qed.

Lemma write_trylock_step c0 tr s i buf count n p y s' :
  let c := WStart buf count in let x := WCopied n p in
  dev_inv s → contents_of s (c_run c0 tr) → call_inv c0 tr (temp s) s i c x →
  call_step x s = Ok (y, s') → step_ok c0 tr s i c x y s'.
Proof.
  intros c x Hi Hc (Hcount & -> & b & [Hf Hb] & He & _). pose proof (fb_size _ _ _ _ Hf) as Hsz.
  simpl. unfold k_down_write_trylock, mbind at 1, st_bind at 1.
  pose proof (lock_event_cases (dsem s) _ s eq_refl (down_write_free (dsem s))) as Hev.
  destruct (down_write_trylock (dsem s)) as [r m] eqn:Hr. simpl in Hev.
  destruct (r =? 1); simpl.
  - intros [= <- <-]. apply (silent_step _ _ _ _ _ _ _ _ []); try done.
    + simpl. by rewrite Hr.
    + by apply private_same.
    + set_solver.
    + do 2 (split; [done|]). exists b. split; [|done]. split; [by apply fresh_block_sem|done].
  - assert (kheap (set_sem m s) !! p = Some b) as Hh by apply Hf.
    rewrite (st_bind_step _ _ _ _ _
      (aesd_write_fail_ok (set_sem m s) p b (i64 count) Hh (fb_ptr _ _ _ _ Hf))).
    intros [= <- <-]. apply (quiet_step _ _ _ _ _ _ _ _ EHeld [p]); try done; [simpl; by rewrite Hr|..].
    + by apply (freed_private _ _ p count b).
    + set_solver.
    + split; [done|]. right. exists (take (Z.to_nat count) b).
      split; [rewrite length_take; lia|]. split; [done|]. left.
      rewrite events_app, He. f_equal. apply (events_self i [_]).
Qed.

(** *** The critical section *)

Lemma taken_text s evs buf p n P :
  taken s evs buf p n P → ∃ b, owned s p n b ∧ fresh_block s p n b ∧
    evs = [ETake buf (take (Z.to_nat n) b)] ∧ P (take (Z.to_nat n) b) ∧
    cstr b = Some (text_of (take (Z.to_nat n) b)) ∧
    Z.of_nat (length (text_of (take (Z.to_nat n) b))) ≤ n ≤ Z.of_nat (length b) ∧
    content (kheap s) (mkEntry p n) = take (Z.to_nat n) b ∧
    Z.of_nat (length (take (Z.to_nat n) b)) = n.
Proof.
  intros (b & [Hf Hb] & He & HP). destruct (cstr_text b _ Hb) as [Hs Hl].
  pose proof (fb_size _ _ _ _ Hf). exists b. split_and!; try done; [lia|lia| |rewrite length_take; lia].
  unfold content. simpl. by rewrite (fb_heap _ _ _ _ Hf).
Qed.

(** The partial text of the device. *)
Lemma partial_block s c :
  dev_inv s → contents_of s c → is_Some (c_partial c) →
  ∃ b, temp s ≠ NULL ∧ kheap s !! temp s = Some b ∧ cstr b = Some (c_text c) ∧ NUL ∈ b ∧
    ∀ i e, entry (ring s) !! i = Some e → buffptr e ≠ temp s.
Proof.
  intros Hi Hc [t Ht]. pose proof (co_partial _ _ Hc) as Hp. unfold c_text.
  rewrite Ht in Hp |- *. destruct Hp as (Hn & b & Hb & Hs). exists b. split_and!; try done.
  - apply cstr_is_Some. eauto.
  - intros i e He E. by apply (di_temp_sep s Hi i e He); [congruence|].
Qed.

Lemma locked_test_step c0 tr s i buf count n p y s' :
  let c := WStart buf count in let x := WLocked n p in
  dev_inv s → contents_of s (c_run c0 tr) → call_inv c0 tr (temp s) s i c x →
  call_step x s = Ok (y, s') → step_ok c0 tr s i c x y s'.
Proof.
  intros c x Hi Hc (Hcount & -> & Ht). simpl.
  destruct (taken_text _ _ _ _ _ _ Ht) as (b & Ho & Hf & He & _ & Hs & _).
  kstep (strstr_text s p count b _ Hf Hs). intros Hy.
  assert (s' = s ∧ (y = WPartial count p ∧ no_newline (take (Z.to_nat count) b) ∨
                    y = WLine count p ∧ NL ∈ text_of (take (Z.to_nat count) b))) as [-> Hcase].
  { destruct (str_index [NL] _) as [k|] eqn:E; injection Hy as <- <-; split; auto.
    - right. split; [done|]. apply str_index_single. eauto.
    - left. split; [done|]. by apply str_index_single_None. }
  destruct Hcase as [[-> Hnl]|[-> Hnl]].
  - apply (silent_step _ _ _ _ _ _ _ _ []); try done; [by apply private_same|set_solver|].
    do 2 (split; [done|]). by exists b.
  - apply (silent_step _ _ _ _ _ _ _ _ []); try done; [by apply private_same|set_solver|].
    do 2 (split; [done|]). by exists b.
Qed.

Lemma partial_step c0 tr s i buf count n p y s' :
  let c := WStart buf count in let x := WPartial n p in
  dev_inv s → contents_of s (c_run c0 tr) → call_inv c0 tr (temp s) s i c x →
  call_step x s = Ok (y, s') → step_ok c0 tr s i c x y s'.
Proof.
  intros c x Hi Hc (Hcount & -> & Ht) Hstep.
  destruct (taken_text _ _ _ _ _ _ Ht) as (b & Ho & Hf & He & Hnl & Hs & Hl & Hd & Hld).
  pose proof (co_partial _ _ Hc) as Hp.
  unfold x in *. cbn [call_step] in Hstep.
  rewrite (st_bind_step _ _ _ _ _ (eq_refl : k_temp s = Ok (temp s, s))) in Hstep.
  unfold step_ok. cbn [event_of]. destruct (Z.eqb_spec (temp s) NULL) as [E|E].
  - injection Hstep as <- <-. destruct (c_partial (c_run c0 tr)) as [t|] eqn:Hpt; [by destruct Hp|].
    rewrite Hd. split; [|split; [|by intros q ?%not_elem_of_nil]].
    + eapply (temp_steps _ s p count b); try done. unfold c_text. by rewrite Hpt.
    + split; [done|]. split; [done|]. exists (take (Z.to_nat count) b). split; [done|].
      rewrite events_app, He. f_equal. apply (events_self i [_]).
  - assert (is_Some (c_partial (c_run c0 tr))) as Hsome.
    { destruct (c_partial (c_run c0 tr)); [by eexists|done]. }
    destruct (partial_block s _ Hi Hc Hsome) as (bt & Htn & Hbt & Hst & _).
    assert (of_heap (λ h, strlen h (temp s)) s =
      Ok (Z.of_nat (length (c_text (c_run c0 tr))), s)) as Hlen.
    { apply of_heap_ok. unfold strlen. by rewrite (cstring_at_ok _ _ bt _ Htn Hbt Hst). }
    rewrite (st_bind_step _ _ _ _ _ Hlen) in Hstep.
    pose proof (map_Forall_lookup_1 _ _ _ _ (di_limit s Hi) Hbt) as Hlt. simpl in Hlt.
    pose proof (map_Forall_lookup_1 _ _ _ _ (di_limit s Hi) (fb_heap _ _ _ _ Hf)) as Hlb. simpl in Hlb.
    pose proof (cstr_length _ _ Hst). unfold KMALLOC_LIMIT in *.
    rewrite u64_small in Hstep by lia. apply st_bind_ok in Hstep as (r & s1 & Hm & [= <- <-]).
    assert (0 < count + Z.of_nat (length (c_text (c_run c0 tr))) + 1) as Hpos by lia.
    destruct (malloc_steps _ s _ r s1 Hi Hc Hpos Hm) as (Hsteps & Hr & Htemp & Hown).
    simpl. rewrite app_nil_r. split; [|split].
    + eapply steps_mono; [|exact Hsteps]. set_solver.
    + do 3 (split; [done|]). split; [eapply taken_other; [exact Hsteps| |exact Ht]; set_solver|].
      destruct (decide (r = NULL)) as [|Hrn]; [by left|right].
      destruct (Hown Hrn) as (Hdead & bc & _ & Hfc & Hlc). exists bc.
      split; [done|split; [|split; [lia|done]]].
      intros ->. rewrite (fb_heap _ _ _ _ Hf) in Hdead. done.
    + intros q [->|[->|?%not_elem_of_nil]%elem_of_cons]%elem_of_cons Hq; [|..|done]; [left; set_solver|].
      right. left. by destruct (Hown Hq).
Qed.

(** A step that writes into the block for the joined text. *)
Lemma concat_step c0 tr s i (c x y : dcall) s' p q b b' :
  dev_inv s → contents_of s (c_run c0 tr) → event_of x s = [] → swap x = None → swap y = None →
  own (temp s) x = [p; q] → own (temp s') y = [p; q] → own_block s q b →
  s' = set_heap (<[q:=b']> (kheap s)) s → length b' = length b → NUL ∈ b' →
  (private [q] s s' → fresh_block s' q 0 b' → call_inv c0 tr (temp s') s' i c y) →
  step_ok c0 tr s i c x y s'.
Proof.
  intros Hi Hc He Hx Hy Hox Hoy Hf -> Hl Hnul Hinv. set (s1 := set_heap _ s) in *.
  destruct (stored_private s s1 q 0 b b' Hi Hf) as [Hp Hf']; try done; [lia|].
  apply (silent_step _ _ _ _ _ _ _ _ [q]); unfold settle; rewrite ?Hx, ?Hy; try done.
  - rewrite Hox. set_solver.
  - by rewrite Hox, Hoy.
  - by apply Hinv.
Qed.

Lemma strcpy_run c0 tr s i buf count n p q :
  dev_inv s → contents_of s (c_run c0 tr) →
  call_inv c0 tr (temp s) s i (WStart buf count) (WJoin n p q) → q ≠ NULL →
  ∃ b b', own_block s q b ∧ q ≠ p ∧
    Z.of_nat (length (c_text (c_run c0 tr))) + n < Z.of_nat (length b) ∧
    call_step (WJoin n p q) s = Ok (WCat n p q, set_heap (<[q:=b']> (kheap s)) s) ∧
    cstr b' = Some (c_text (c_run c0 tr)) ∧ length b' = length b.
Proof.
  intros Hi Hc (Hcount & -> & Hsome & _ & [?|(b & Hf & Hqp & Hroom & _)]) Hq; [done|].
  destruct (partial_block s _ Hi Hc Hsome) as (bt & Htn & Hbt & Hst & _).
  destruct (strcpy_ok (kheap s) q (temp s) b bt _ Hq Htn (ob_heap _ _ _ Hf) Hbt Hst)
    as (b' & Hcp & Hs' & Hl'); [lia|].
  exists b, b'. split_and!; try done. cbn [call_step].
  rewrite (st_bind_step _ _ _ _ _ (eq_refl : k_temp s = Ok (temp s, s))).
  by rewrite (st_bind_step _ _ _ _ _ (on_heap_ok (λ h, strcpy h q (temp s)) s _ Hcp)).
Qed.

Lemma strcat_run c0 tr s i buf count n p q :
  dev_inv s → contents_of s (c_run c0 tr) →
  call_inv c0 tr (temp s) s i (WStart buf count) (WCat n p q) →
  ∃ b b' bl, own_block s q b ∧ q ≠ p ∧ owned s p n bl ∧
    Z.of_nat (length (c_text (c_run c0 tr))) + n < Z.of_nat (length b) ∧
    call_step (WCat n p q) s = Ok (WFree n p q, set_heap (<[q:=b']> (kheap s)) s) ∧
    cstr b' = Some (c_text (c_run c0 tr) ++ text_of (take (Z.to_nat n) bl)) ∧ length b' = length b ∧
    no_newline (take (Z.to_nat n) bl) ∧ events i tr = [ETake buf (take (Z.to_nat n) bl)].
Proof.
  intros Hi Hc (Hcount & -> & Hsome & Ht & (b & Hf & Hqp & Hroom & Hs)).
  destruct (taken_text _ _ _ _ _ _ Ht) as (bl & Ho & Hfl & He & Hnl & Hsl & Hl & _).
  destruct (strcat_ok (kheap s) q p b bl _ _ (ob_ptr _ _ _ Hf) (fb_ptr _ _ _ _ Hfl)
    (ob_heap _ _ _ Hf) (fb_heap _ _ _ _ Hfl) Hs Hsl) as (b' & Hcat & Hs' & Hl'); [lia|].
  exists b, b', bl. split_and!; try done. cbn [call_step].
  by rewrite (st_bind_step _ _ _ _ _ (on_heap_ok (λ h, strcat h q p) s _ Hcat)).
Qed.

Lemma join_step c0 tr s i buf count n p q y s' :
  let c := WStart buf count in let x := WJoin n p q in
  dev_inv s → contents_of s (c_run c0 tr) → call_inv c0 tr (temp s) s i c x → q ≠ NULL →
  call_step x s = Ok (y, s') → step_ok c0 tr s i c x y s'.
Proof.
  intros c x Hi Hc Hinv Hq Hstep.
  destruct (strcpy_run c0 tr s i buf count n p q Hi Hc Hinv Hq)
    as (b & b' & Hf & Hqp & Hroom & Hrun & Hs & Hl).
  unfold x in *. rewrite Hrun in Hstep. injection Hstep as <- <-.
  destruct Hinv as (Hcount & -> & Hsome & Ht & _).
  eapply (concat_step _ _ _ _ _ _ _ _ p q b b'); try done; [apply cstr_is_Some; eauto|].
  intros Hp Hf'. do 3 (split; [done|]).
  split; [eapply (taken_other [] [q]); [by apply (private_steps _ (c_run c0 tr))| |exact Ht]|].
  - intros _ E%list_elem_of_singleton. congruence.
  - exists b'. rewrite Hl. split; [by eapply fresh_own|done].
Qed.

Lemma cat_step c0 tr s i buf count n p q y s' :
  let c := WStart buf count in let x := WCat n p q in
  dev_inv s → contents_of s (c_run c0 tr) → call_inv c0 tr (temp s) s i c x →
  call_step x s = Ok (y, s') → step_ok c0 tr s i c x y s'.
Proof.
  intros c x Hi Hc Hinv Hstep.
  destruct (strcat_run c0 tr s i buf count n p q Hi Hc Hinv)
    as (b & b' & bl & Hf & Hqp & Ho & Hroom & Hrun & Hs & Hl & Hnl & He).
  unfold x in *. rewrite Hrun in Hstep. injection Hstep as <- <-.
  destruct Hinv as (Hcount & -> & Hsome & _).
  eapply (concat_step _ _ _ _ _ _ _ _ p q b b'); try done; [apply cstr_is_Some; eauto|].
  intros Hp Hf'. do 3 (split; [done|]).
  eapply (taken_other [] [q]); [by apply (private_steps _ (c_run c0 tr))| |].
  - intros _ E%list_elem_of_singleton. congruence.
  - exists bl. split; [done|]. split; [done|]. split; [done|]. exists b'. rewrite Hl.
    split; [by eapply fresh_own|done].
Qed.

(** The text takes effect when the block of the write is freed. *)
Lemma free_step c0 tr s i buf count n p q y s' :
  let c := WStart buf count in let x := WFree n p q in
  dev_inv s → contents_of s (c_run c0 tr) → call_inv c0 tr (temp s) s i c x →
  call_step x s = Ok (y, s') → step_ok c0 tr s i c x y s'.
Proof.
  intros c x Hi Hc (Hcount & -> & Hsome & Ht).
  destruct (taken_text _ _ _ _ _ _ Ht) as (b & Ho & Hf & He & (Hnl & bq & Hoq & Hqp & _ & Hsq) & _ & _ & Hd & Hld).
  destruct (partial_block s _ Hi Hc Hsome) as (bt & Htn & Hbt & _ & Hbtn & Hsep).
  assert (fresh_block s q 0 bq) as Hfq.
  { apply own_fresh; [done|lia|]. apply cstr_is_Some. eauto. }
  unfold x. cbn [call_step].
  rewrite (st_bind_step _ _ _ _ _ (k_free_ok s p b (fb_heap _ _ _ _ Hf) (fb_ptr _ _ _ _ Hf))).
  intros [= <- <-]. unfold step_ok. cbn [event_of]. rewrite Hd. split; [|split].
  - apply (steps_trans [EWrite (take (Z.to_nat count) b)] [] _ _ _ (set_temp q s)).
    + apply (steps_mono _ [q]); [set_solver|]. by eapply temp_steps.
    + intros c' Hc'. apply (steps_mono _ [p]); [set_solver|]. apply private_steps; [|done|].
      * by eapply dev_inv_set_temp.
      * apply (freed_private _ _ p count b); try done. destruct Hf as [H1 H2 H3 H4 H5 H6].
        by split.
  - split; [done|]. split; [done|]. split; [|split; [done|]].
    + exists (take (Z.to_nat count) b). split; [done|].
      rewrite events_app, He. f_equal. apply (events_self i [_]).
    + exists bt. pose proof (fb_temp _ _ _ _ Hfq). pose proof (fb_temp _ _ _ _ Hf).
      split; try done; simpl; [|lia].
      by rewrite lookup_delete_ne.
  - intros r ->%list_elem_of_singleton _. right. right. by left.
Qed.

Lemma swap_step c0 tr s i buf count n q y s' :
  let c := WStart buf count in let x := WSwap n q in
  dev_inv (settle x s) → contents_of (settle x s) (c_run c0 tr) →
  call_inv c0 tr (temp s) (settle x s) i c x →
  call_step x s = Ok (y, s') → step_ok c0 tr s i c x y s'.
Proof.
  intros c x Hi Hc (Hcount & -> & Hst & Hq & b & Hf).
  unfold x. cbn [call_step].
  rewrite (st_bind_step _ _ _ _ _ (eq_refl : k_temp s = Ok (temp s, s))).
  assert (kheap s !! temp s = Some b) as Hb by apply Hf.
  rewrite (st_bind_step _ _ _ _ _ (k_free_ok s (temp s) b Hb (fb_ptr _ _ _ _ Hf))).
  intros [= <- <-]. apply (silent_step _ _ _ _ _ _ _ _ [temp s]); try done; [|set_solver].
  by apply (freed_private _ _ (temp s) 0 b).
Qed.

Lemma line_step c0 tr s i buf count n p y s' :
  let c := WStart buf count in let x := WLine n p in
  dev_inv s → contents_of s (c_run c0 tr) → call_inv c0 tr (temp s) s i c x →
  call_step x s = Ok (y, s') → step_ok c0 tr s i c x y s'.
Proof.
  intros c x Hi Hc (Hcount & -> & Ht).
  destruct (taken_text _ _ _ _ _ _ Ht) as (b & Ho & Hf & He & Hnl & _ & Hl & Hd & Hld).
  destruct (add_steps (c_run c0 tr) s p count b (take (Z.to_nat count) b)) as
    (old & b' & Hadd & Hst & Hold); [done..|lia|done|done|].
  unfold x. cbn [call_step]. rewrite (st_bind_step _ _ _ _ _ Hadd). intros Hy.
  assert (stored (events i (tr ++ [(i, EWrite (take (Z.to_nat count) b))])) buf count) as Hstored.
  { exists (take (Z.to_nat count) b). split; [done|].
    rewrite events_app, He. f_equal. apply (events_self i [_]). }
  unfold step_ok. cbn [event_of]. rewrite Hd.
  destruct (Z.eqb_spec (buffptr old) NULL) as [E|E]; injection Hy as <- <-.
  - split; [exact Hst|]. split; [done|]. by intros q ?%not_elem_of_nil.
  - destruct (Hold E) as (Hon & bo & Hfo). split; [exact Hst|]. split.
    + split; [done|]. split; [done|]. split; [done|]. by exists bo.
    + intros q ->%list_elem_of_singleton _. by right; right.
Qed.

Lemma drop_step c0 tr s i buf count n q (x y : dcall) s' :
  let c := WStart buf count in
  dev_inv s → contents_of s (c_run c0 tr) → call_inv c0 tr (temp s) s i c x →
  x = WOld n q ∨ x = WDrop n q →
  call_step x s = Ok (y, s') → step_ok c0 tr s i c x y s'.
Proof.
  intros c Hi Hc Hinv [-> | ->]; destruct Hinv as (Hcount & -> & Hst & b & Hf);
    pose proof (fb_heap _ _ _ _ Hf) as Hb; pose proof (fb_ptr _ _ _ _ Hf) as Hp; cbn [call_step].
  - rewrite (st_bind_step _ _ _ _ _ (PDEBUG_s_ok s q b Hb Hp (fb_nul _ _ _ _ Hf))). intros [= <- <-].
    apply (silent_step _ _ _ _ _ _ _ _ []); try done; [by apply private_same|set_solver|].
    do 3 (split; [done|]). by exists b.
  - rewrite (st_bind_step _ _ _ _ _ (k_free_ok s q b Hb Hp)). intros [= <- <-].
    apply (silent_step _ _ _ _ _ _ _ _ [q]); try done; [|set_solver].
    by apply (freed_private _ _ q 0 b).
Qed.

Lemma write_step c0 tr s i buf count (x y : dcall) s' :
  let c := WStart buf count in
  dev_inv (settle x s) → contents_of (settle x s) (c_run c0 tr) →
  call_inv c0 tr (temp s) (settle x s) i c x →
  step_terminated x s = true → call_step x s = Ok (y, s') → step_ok c0 tr s i c x y s'.
Proof.
  intros c Hi Hc Hinv Hterm Hstep. pose proof Hinv as [Hcount Hx].
  destruct x as [| | | | | | | | | | |b n|b n p|n p|n p|n p|n p q|n p q|n p q|n q|n q|n p|n q|n q|n|r];
    try done.
  - destruct Hx as [[= -> ->] He]. by apply write_alloc_step.
  - destruct Hx as [[= -> ->] He]. by apply write_copy_step.
  - by eapply write_trylock_step.
  - by eapply locked_test_step.
  - by eapply partial_step.
  - destruct (decide (q = NULL)) as [->|Hq]; [|by eapply join_step].
    exfalso. cbn [call_step] in Hstep.
    rewrite (st_bind_step _ _ _ _ _ (eq_refl : k_temp s = Ok (temp s, s))) in Hstep.
    apply st_bind_ok in Hstep as (u & s1 & Hcp & _). unfold on_heap, strcpy, store_at in Hcp.
    by destruct (cstring_at (kheap s) (temp s)).
  - by eapply cat_step.
  - by eapply free_step.
  - by eapply swap_step.
  - injection Hstep as <- <-. destruct Hx as (-> & Hst & Hq).
    apply (silent_step _ _ _ _ _ _ _ _ []); try done; by apply private_same.
  - by eapply line_step.
  - eapply (drop_step c0 tr s i buf count n q); auto.
  - eapply (drop_step c0 tr s i buf count n q); auto.
  - injection Hstep as <- <-. destruct Hx as (-> & d & Hd & He).
    apply plain_step; try done. split; [done|]. right. exists d. auto.
  - injection Hstep as <- <-. by apply plain_step.
Qed.

(** *** Faults *)

(** The entry of a line that is still there can be read. *)
Lemma line_entry s c k l :
  dev_inv s → contents_of s c → c_slots c !! k = Some l → l ≠ [] →
  ∃ e b, entry (ring s) !! k = Some e ∧ buffptr e ≠ NULL ∧ kheap s !! buffptr e = Some b ∧
    0 ≤ size e ≤ Z.of_nat (length b) ∧ NUL ∈ b.
Proof.
  intros Hi Hc Hl Hn. destruct (Forall2_lookup_r _ _ _ _ _ (co_slots _ _ Hc) Hl) as (e & He & Hsz & _).
  assert (buffptr e ≠ NULL) as Hp.
  { intros E. rewrite (di_zero s Hi k e He E) in Hsz. destruct l; [done|]. simpl in Hsz. lia. }
  destruct (di_slot s Hi k e He Hp) as (b & Hb & Hle & Hnul). exists e, b. split_and!; try done. lia.
Qed.

Lemma k_entry_ok k s e : entry (ring s) !! k = Some e → k_entry (Z.of_nat k) s = Ok (e, s).
Proof.
  intros He. unfold k_entry. assert (arr_get (entry (ring s)) (Z.of_nat k) = Ok e) as ->; [|done].
  apply arr_get_ok. rewrite Nat2Z.id. split; [lia|done].
Qed.

Lemma k_copy_no_fault buf p n s b f :
  kheap s !! p = Some b → p ≠ NULL → n ≤ Z.of_nat (length b) →
  k_copy_to_user buf p n s ≠ Fault f.
Proof.
  intros Hb Hp Hn. unfold k_copy_to_user. rewrite (block_at_ok _ p b Hp Hb). simpl.
  unfold load_bytes. rewrite bool_decide_eq_true_2 by done. by destruct (copy_to_user _ _ _ _).
Qed.

Lemma st_bind_fault_inv {A B} (m : st kstate A) (k : A → st kstate B) s f :
  (m ≫= k) s = Fault f → m s = Fault f ∨ ∃ a s1, m s = Ok (a, s1) ∧ k a s1 = Fault f.
Proof. unfold mbind, st_bind. destruct (m s) as [[a s1]|f']; intros H; [right; eauto|left; by simplify_eq]. Qed.

Lemma read_fault c0 tr s i buf count pos (x : dcall) f :
  dev_inv s → contents_of s (c_run c0 tr) → call_inv c0 tr (temp s) s i (RStart buf count pos) x →
  call_step x s = Fault f → disturbed c0 tr i.
Proof.
  intros Hi Hc Hinv Hstep.
  assert (∀ k P, tracks c0 tr i (u64 pos) k P → disturbed c0 tr i ∨
    ∃ l e b, P l ∧ k_entry (Z.of_nat k) s = Ok (e, s) ∧ entry (ring s) !! k = Some e ∧
      buffptr e ≠ NULL ∧ kheap s !! buffptr e = Some b ∧ 0 ≤ size e ≤ Z.of_nat (length b) ∧ NUL ∈ b)
    as Hfound.
  { intros k P [(l & Hl & Hn & HP)|Hd]%tracks_found; [right|by left].
    destruct (line_entry s _ k l Hi Hc Hl Hn) as (e & b & He & H). exists l, e, b.
    split; [done|]. split; [by apply k_entry_ok|done]. }
  destruct x as [b n q|b n q|b n q o|b n q [slot|]|b n q slot|b r q slot|b r q slot p|b r q slot|
    b r q slot a|b r q p n|r q| | | | | | | | | | | | | | |]; try done; simpl in Hstep.
  - unfold k_down_read_trylock, mbind, st_bind in Hstep.
    destruct (down_read_trylock (dsem s)) as [r m]. by destruct (negb (r =? 1)).
  - apply st_bind_fault_inv in Hstep as [Hf|(o & s1 & _ & Hf)]; [|done].
    unfold k_find in Hf. rewrite find_slots in Hf by (apply Hi || apply u64_range).
    by destruct (locate _ _) as [[k o]|].
  - destruct Hinv as [_ (k & -> & [?|(l & e & bl & _ & Hk & _)]%Hfound)]; [done|].
    rewrite (st_bind_step _ _ _ _ _ Hk) in Hstep. by destruct (n <=? size e).
  - destruct Hinv as [_ (k & -> & [?|(l & e & bl & _ & Hk & _)]%Hfound)]; [done|].
    by rewrite (st_bind_step _ _ _ _ _ Hk) in Hstep.
  - destruct Hinv as [_ (k & -> & [?|(l & e & bl & _ & Hk & _)]%Hfound)]; [done|].
    by rewrite (st_bind_step _ _ _ _ _ Hk) in Hstep.
  - destruct Hinv as [_ (k & -> & [?|(l & e & bl & (_ & e' & He' & ->) & _ & He & Hp & Hb & _ & Hnul)]%Hfound)];
      [done|]. rewrite He in He'. injection He' as <-.
    by rewrite (st_bind_step _ _ _ _ _ (PDEBUG_s_ok s _ bl Hb Hp Hnul)) in Hstep.
  - destruct Hinv as [_ (k & -> & [?|(l & e & bl & _ & Hk & _)]%Hfound)]; [done|].
    by rewrite (st_bind_step _ _ _ _ _ Hk) in Hstep.
  - destruct Hinv as [_ (k & -> & [?|(l & e & bl & _ & Hk & _)]%Hfound)]; [done|].
    by rewrite (st_bind_step _ _ _ _ _ Hk) in Hstep.
  - destruct Hinv as [_ (k & [?|(l & e & bl & (_ & He') & _ & He & Hp & Hb & Hn & _)]%Hfound)]; [done|].
    rewrite He in He'. injection He' as ->. simpl in *.
    apply st_bind_fault_inv in Hstep as [Hf|(o & s1 & _ & Hf)]; [|done].
    destruct (k_copy_no_fault b p n s bl f Hb Hp (proj2 Hn) Hf).
Qed.

(** The allocation for the joined text, which is not tested, has failed. *)
Definition join_fails (x : dcall) : Prop := ∃ n p, x = WJoin n p NULL.

Lemma copied_no_fault c0 tr t s i buf count n p f :
  call_inv c0 tr t s i (WStart buf count) (WAlloc buf n p) →
  call_step (WAlloc buf n p) s ≠ Fault f.
Proof.
  intros (Hcount & [= ->] & _ & bl & Hb). cbn [call_step].
  destruct (copy_from_user (ktick s) (kumem s) buf (Z.to_nat count)) as [d nleft] eqn:Hcu.
  destruct (copy_in s p count bl buf d nleft Hb Hcu) as (Hk & _ & _ & [[Hp Hh _ Hnul _ _] _]).
  rewrite (st_bind_step _ _ _ _ _ Hk). destruct (negb _).
  - by rewrite (st_bind_step _ _ _ _ _ (aesd_write_fail_ok _ p _ (- EFAULT) Hh Hp)).
  - by rewrite (st_bind_step _ _ _ _ _ (PDEBUG_s_ok _ p _ Hh Hp Hnul)).
Qed.

Lemma partial_no_fault s n p f : dev_inv s → call_step (WPartial n p) s ≠ Fault f.
Proof.
  intros Hi Hstep. cbn [call_step] in Hstep.
  rewrite (st_bind_step _ _ _ _ _ (eq_refl : k_temp s = Ok (temp s, s))) in Hstep.
  destruct (Z.eqb_spec (temp s) NULL) as [E|E]; [done|].
  destruct (di_temp _ Hi E) as (bt & Hbt & [tstr Hst]%cstr_is_Some).
  assert (of_heap (λ h, strlen h (temp s)) s = Ok (Z.of_nat (length tstr), s)) as Hlen.
  { apply of_heap_ok. unfold strlen. by rewrite (cstring_at_ok _ _ bt tstr E Hbt Hst). }
  rewrite (st_bind_step _ _ _ _ _ Hlen) in Hstep.
  apply st_bind_fault_inv in Hstep as [Hf|(q & s1 & _ & Hf)]; [|done].
  unfold k_malloc in Hf. by destruct (kmalloc _ _ _) as [[]|].
Qed.

Lemma join_null_fault c0 tr s i buf count n p f :
  dev_inv s → contents_of s (c_run c0 tr) →
  call_inv c0 tr (temp s) s i (WStart buf count) (WJoin n p NULL) →
  call_step (WJoin n p NULL) s = Fault f → f = NullDeref.
Proof.
  intros Hi Hc (_ & _ & Hsome & _) Hstep. cbn [call_step] in Hstep.
  destruct (partial_block s _ Hi Hc Hsome) as (bt & Htn & Hbt & Hst & _).
  rewrite (st_bind_step _ _ _ _ _ (eq_refl : k_temp s = Ok (temp s, s))) in Hstep.
  apply st_bind_fault_inv in Hstep as [Hf|(u & s1 & _ & Hf)]; [|done].
  unfold on_heap, strcpy in Hf. rewrite (cstring_at_ok _ _ bt _ Htn Hbt Hst) in Hf.
  simpl in Hf. by injection Hf.
Qed.

Lemma write_fault c0 tr s i buf count (x : dcall) f :
  dev_inv (settle x s) → contents_of (settle x s) (c_run c0 tr) →
  call_inv c0 tr (temp s) (settle x s) i (WStart buf count) x →
  call_step x s = Fault f → f = NullDeref ∧ join_fails x.
Proof.
  intros Hi Hc Hinv Hstep. pose proof Hinv as [Hcount Hx].
  destruct x as [| | | | | | | | | | |b n|b n p|n p|n p|n p|n p q|n p q|n p q|n q|n q|n p|n q|n q|n|r];
    try done; cbn [call_step] in Hstep; unfold settle in Hi, Hc, Hx; cbn [swap] in Hi, Hc, Hx.
  - exfalso. apply st_bind_fault_inv in Hstep as [Hf|(q & s1 & _ & Hf)].
    + unfold k_malloc in Hf. by destruct (kmalloc _ _ _) as [[]|].
    + by destruct (Z.eqb_spec q NULL) as [->|].
  - pose proof Hx as ([= -> ->] & _). by destruct (copied_no_fault c0 tr _ s i buf count count p f Hinv).
  - exfalso. destruct Hx as (-> & bl & [[Hp Hh _ _ _ _] _] & _).
    unfold k_down_write_trylock, mbind at 1, st_bind at 1 in Hstep.
    destruct (down_write_trylock (dsem s)) as [r m]. destruct (negb (r =? 1)); [|done].
    by rewrite (st_bind_step _ _ _ _ _
      (aesd_write_fail_ok (set_sem m s) p bl (i64 count) Hh Hp)) in Hstep.
  - exfalso. destruct Hx as (-> & (bl & _ & Hf & _ & _ & Hs & _)%taken_text).
    rewrite (st_bind_step _ _ _ _ _ (strstr_text s p count bl _ Hf Hs)) in Hstep.
    by destruct (str_index _ _).
  - by destruct (partial_no_fault s n p f Hi).
  - destruct (decide (q = NULL)) as [->|Hq].
    + split; [|by exists n, p]. by apply (join_null_fault c0 tr s i buf count n p).
    + exfalso. destruct (strcpy_run c0 tr s i buf count n p q Hi Hc Hinv Hq)
        as (b & b' & _ & _ & _ & Hrun & _). cbn [call_step] in Hrun. congruence.
  - exfalso. destruct (strcat_run c0 tr s i buf count n p q Hi Hc Hinv)
      as (b & b' & bl & _ & _ & _ & _ & Hrun & _). cbn [call_step] in Hrun. congruence.
  - exfalso. destruct Hx as (-> & _ & (b & _ & Hf & _)%taken_text).
    by rewrite (st_bind_step _ _ _ _ _
      (k_free_ok s p b (fb_heap _ _ _ _ Hf) (fb_ptr _ _ _ _ Hf))) in Hstep.
  - exfalso. destruct Hx as (-> & _ & _ & b & Hf).
    rewrite (st_bind_step _ _ _ _ _ (eq_refl : k_temp s = Ok (temp s, s))) in Hstep.
    assert (kheap s !! temp s = Some b) as Hb by apply Hf.
    by rewrite (st_bind_step _ _ _ _ _ (k_free_ok s (temp s) b Hb (fb_ptr _ _ _ _ Hf))) in Hstep.
  - exfalso. destruct Hx as (-> & (b & _ & Hf & _ & Hnl & _ & _ & _ & _)%taken_text).
    destruct (add_steps (c_run c0 tr) s p count b (take (Z.to_nat count) b)) as
      (old & b' & Hadd & _); [done..|lia|done|done|].
    rewrite (st_bind_step _ _ _ _ _ Hadd) in Hstep. by destruct (negb _).
  - exfalso. destruct Hx as (-> & _ & b & Hf).
    by rewrite (st_bind_step _ _ _ _ _ (PDEBUG_s_ok s q b (fb_heap _ _ _ _ Hf)
      (fb_ptr _ _ _ _ Hf) (fb_nul _ _ _ _ Hf))) in Hstep.
  - exfalso. destruct Hx as (-> & _ & b & Hf).
    by rewrite (st_bind_step _ _ _ _ _ (k_free_ok s q b (fb_heap _ _ _ _ Hf) (fb_ptr _ _ _ _ Hf))) in Hstep.
Qed.

(** *** Any call *)

Lemma call_step_ok c0 tr s i (c x y : dcall) s' :
  dev_inv (settle x s) → contents_of (settle x s) (c_run c0 tr) →
  call_inv c0 tr (temp s) (settle x s) i c x →
  step_terminated x s = true → call_step x s = Ok (y, s') → step_ok c0 tr s i c x y s'.
Proof.
  intros Hi Hc Hinv Hterm Hstep. destruct c; try by destruct Hinv.
  - assert (settle x s = s) as E by (by destruct x). rewrite E in *. by apply read_step.
  - by apply write_step.
Qed.

Lemma call_fault c0 tr s i (c x : dcall) f :
  dev_inv (settle x s) → contents_of (settle x s) (c_run c0 tr) →
  call_inv c0 tr (temp s) (settle x s) i c x →
  call_step x s = Fault f → (f = NullDeref ∧ join_fails x) ∨ disturbed c0 tr i.
Proof.
  intros Hi Hc Hinv Hstep. destruct c; try by destruct Hinv.
  - right. assert (settle x s = s) as E by (by destruct x). rewrite E in *. by eapply read_fault.
  - left. by eapply write_fault.
Qed.

Lemma call_inv_explained c0 tr t s i (c x : dcall) :
  call_inv c0 tr t s i c x → explained c0 tr i c x.
Proof.
  destruct c as [| | | | | | | | | | |buf count| | | | | | | | | | | | | |]; try done; destruct x; try done.
  by intros [_ H].
Qed.

(** Only a write about to set the partial text depends on the old one. *)
Lemma call_inv_temp c0 tr t t' s i (c x : dcall) :
  swap x = None → call_inv c0 tr t s i c x → call_inv c0 tr t' s i c x.
Proof. destruct c; try done; by destruct x. Qed.

Lemma own_temp t t' (x : dcall) : swap x = None → own t x = own t' x.
Proof. by destruct x. Qed.

(** The blocks that a call owns are live, and not the device's. *)
Lemma own_live c0 tr t s i (c x : dcall) q :
  call_inv c0 tr t s i c x → q ∈ own t x → q ≠ NULL → is_Some (kheap s !! q) ∧ ¬ on_device s q.
Proof.
  assert (∀ r b, own_block s r b → q = r → is_Some (kheap s !! q) ∧ ¬ on_device s q) as Hob.
  { intros r b [H1 H2 H3] ->. split; [by eexists|done]. }
  assert (∀ r n b, fresh_block s r n b → q = r → is_Some (kheap s !! q) ∧ ¬ on_device s q) as Hfresh.
  { intros r n b Hf%fresh_own. by apply (Hob r b). }
  intros Hinv Hq Hn. destruct c as [| | | | | | | | | | |buf count| | | | | | | | | | | | | |];
    try by destruct Hinv.
  { destruct x as [| |? ? ? [|]|? ? ? [|]| | | | | | | | | | | | | | | | | | | | | |]; try done;
      by apply not_elem_of_nil in Hq. }
  destruct Hinv as [_ Hx]. destruct x; try done; simpl in *; try by apply not_elem_of_nil in Hq.
  - destruct Hx as (_ & _ & b & [Hf _]). apply list_elem_of_singleton in Hq. by eapply (Hfresh _ _ _ Hf).
  - destruct Hx as (_ & b & [Hf _] & _). apply list_elem_of_singleton in Hq. by eapply (Hfresh _ _ _ Hf).
  - destruct Hx as (_ & b & [Hf _] & _). apply list_elem_of_singleton in Hq. by eapply (Hfresh _ _ _ Hf).
  - destruct Hx as (_ & b & [Hf _] & _). apply list_elem_of_singleton in Hq. by eapply (Hfresh _ _ _ Hf).
  - destruct Hx as (_ & _ & (b & [Hf _] & _) & Hr).
    apply elem_of_cons in Hq as [->|Hq%list_elem_of_singleton]; [by eapply (Hfresh _ _ _ Hf)|].
    destruct Hr as [->|(b' & Hf' & _)]; [congruence|]. by eapply (Hob _ _ Hf').
  - destruct Hx as (_ & _ & (b & [Hf _] & _) & (b' & Hf' & _)).
    apply elem_of_cons in Hq as [->|Hq%list_elem_of_singleton];
      [by eapply (Hfresh _ _ _ Hf)|by eapply (Hob _ _ Hf')].
  - destruct Hx as (_ & _ & (b & [Hf _] & _ & _ & (b' & Hf' & _))).
    apply elem_of_cons in Hq as [->|Hq%list_elem_of_singleton];
      [by eapply (Hfresh _ _ _ Hf)|by eapply (Hob _ _ Hf')].
  - destruct Hx as (_ & _ & _ & b & Hf). apply list_elem_of_singleton in Hq. by eapply (Hfresh _ _ _ Hf).
  - destruct Hx as (_ & b & [Hf _] & _). apply list_elem_of_singleton in Hq. by eapply (Hfresh _ _ _ Hf).
  - destruct Hx as (_ & _ & b & Hf). apply list_elem_of_singleton in Hq. by eapply (Hfresh _ _ _ Hf).
  - destruct Hx as (_ & _ & b & Hf). apply list_elem_of_singleton in Hq. by eapply (Hfresh _ _ _ Hf).
Qed.

End Interleaving.
