(* ===== verification/DriverInterleaving.v ===== *)
(** * What interleaved calls do to the device

    Any number of reads and writes, under any schedule of their steps, against the
    traces of [DriverTraces], by the invariant [calls_inv]: the device holds what the
    trace leaves, each call is where [DriverCallSteps.call_inv] says, and no two calls
    own the same block.  The semaphore is what makes the critical sections of the writes
    one event each: [sem_inv] lets only one call be in one, and a step of any other call
    is [blind] to the partial text. *)
From Stdlib Require Import ZArith Lia.
From stdpp Require Import base tactics list gmap sets numbers.
From S2P Require Import Prelude CMemory Kernel CircularBuffer CharDriver DriverWrite DriverRead DriverModule DriverSystem DriverConcurrency.
From S2P Require Import DriverTraces DriverCallSteps.

(** The calls that the schedules start with: reads, and writes of one byte or more. *)
Definition may_start (c : dcall) : Prop :=
  match c with
  | RStart _ _ _ => True
  | WStart _ count => 0 < count < 2 ^ 64
  | _ => False
  end.

(** The new partial text of the write that is about to set it, if there is one. *)
Fixpoint swap_of (l : list dcall) : option Z :=
  match l with
  | [] => None
  | x :: l' => match swap x with Some q => Some q | None => swap_of l' end
  end.

Section Interleaving.
Context `{K : Kernel} `{R : RwSem} `{AO : ArgOrder} `{!KernelOk K} `{!RwSemOk R}.
Implicit Types (s : kstate) (c : contents).

(** The state with the new partial text. *)
Definition settled (l : list dcall) (s : kstate) : kstate :=
  match swap_of l with Some q => set_temp q s | None => s end.

(** ** Outside the critical section *)

(** Operations that neither read nor set [temp_char_buffer]. *)
Definition blind {A} (f : st kstate A) : Prop :=
  ∀ q s, f (set_temp q s) =
    match f s with Ok (a, s') => Ok (a, set_temp q s') | Fault e => Fault e end.

Lemma blind_ret {A} (a : A) : blind (mret a).
Proof. done. Qed.

Lemma blind_bind {A B} (f : st kstate A) (g : A → st kstate B) :
  blind f → (∀ a, blind (g a)) → blind (f ≫= g).
Proof.
  intros Hf Hg q s. unfold mbind, st_bind. rewrite Hf. destruct (f s) as [[a s1]|]; [apply Hg|done].
Qed.

Lemma blind_of_heap {A} (f : heap → res A) : blind (of_heap f).
Proof. intros q s. unfold of_heap. simpl. by destruct (f (kheap s)). Qed.

Lemma blind_on_heap f : blind (on_heap f).
Proof. intros q s. unfold on_heap. simpl. by destruct (f (kheap s)). Qed.

Lemma blind_malloc n : blind (k_malloc n).
Proof. intros q s. unfold k_malloc. simpl. by destruct (kmalloc _ _ _) as [[]|]. Qed.

Lemma blind_from_user p b n : blind (k_copy_from_user p b n).
Proof.
  intros q s. unfold k_copy_from_user. simpl. destruct (copy_from_user _ _ _ _).
  by destruct (store_at _ _ _ _).
Qed.

Lemma blind_to_user p b n : blind (k_copy_to_user p b n).
Proof.
  intros q s. unfold k_copy_to_user. simpl. destruct (mbind _ _); [|done].
  by destruct (copy_to_user _ _ _ _).
Qed.

Lemma blind_find n : blind (k_find n).
Proof.
  intros q s. unfold k_find. change (ring (set_temp q s)) with (ring s).
  by destruct (aesd_circular_buffer_find_entry_offset_for_fpos _ _ _) as [[[]]|].
Qed.

Lemma blind_entry n : blind (k_entry n).
Proof. intros q s. unfold k_entry. change (ring (set_temp q s)) with (ring s). by destruct (arr_get _ _). Qed.

Lemma blind_read_trylock : blind k_down_read_trylock.
Proof.
  intros q s. unfold k_down_read_trylock. change (dsem (set_temp q s)) with (dsem s).
  by destruct (down_read_trylock (dsem s)).
Qed.

Lemma blind_write_trylock : blind k_down_write_trylock.
Proof.
  intros q s. unfold k_down_write_trylock. change (dsem (set_temp q s)) with (dsem s).
  by destruct (down_write_trylock (dsem s)).
Qed.

Lemma blind_up_read : blind k_up_read.
Proof. done. Qed.

Create HintDb blind discriminated.
#[local] Hint Resolve blind_ret blind_of_heap blind_on_heap blind_malloc blind_from_user
  blind_to_user blind_find blind_entry blind_read_trylock blind_write_trylock blind_up_read : blind.

(** Goes through the calls of a step. *)
Ltac blind :=
  repeat match goal with
  | |- blind (_ ≫= _) => apply blind_bind; [|intros ?]
  | |- blind (if ?b then _ else _) => destruct b
  | |- blind (match ?x with _ => _ end) => destruct x
  | |- blind _ => solve [auto with blind]
  end.

Lemma blind_write_fail p r : blind (aesd_write_fail p r).
Proof. unfold aesd_write_fail, k_free. blind. Qed.

Lemma blind_PDEBUG p : blind (PDEBUG_s p).
Proof. unfold PDEBUG_s. blind. Qed.

#[local] Hint Resolve blind_write_fail blind_PDEBUG : blind.

Lemma call_step_blind (x : dcall) : holds_write x = false → blind (call_step x).
Proof. destruct x; simpl; intros H; try discriminate H; blind. Qed.

Lemma set_temp_same s : set_temp (temp s) s = s.
Proof. by destruct s as [? ? ? []]. Qed.

Lemma blind_temp {A} (f : st kstate A) s a s' : blind f → f s = Ok (a, s') → temp s' = temp s.
Proof.
  intros Hf H. pose proof (Hf (temp s) s) as E. rewrite set_temp_same, H in E.
  injection E as E. by rewrite E.
Qed.

(** A call outside the critical section does not come to the swap in one step. *)
Lemma outside_swap (x : dcall) :
  holds_write x = false → returns (λ y, swap y = None) (call_step x).
Proof. destruct x; simpl; intros H; try discriminate H; returns; done. Qed.

Lemma outside_no_swap (x : dcall) : holds_write x = false → swap x = None.
Proof. by destruct x. Qed.

Lemma outside_event (x : dcall) q s : holds_write x = false → event_of x (set_temp q s) = event_of x s.
Proof. by destruct x. Qed.

Lemma outside_no_write (x : dcall) s : holds_write x = false → Forall no_write (event_of x s).
Proof.
  destruct x; simpl; intros H; try discriminate H; unfold lock_event;
    repeat case_match; by repeat constructor.
Qed.

(** ** The settled state *)

Lemma swap_of_none l : (∀ j (y : dcall), l !! j = Some y → swap y = None) → swap_of l = None.
Proof.
  induction l as [|x l IH]; intros H; [done|]. simpl. rewrite (H 0%nat x eq_refl).
  apply IH. intros j y Hy. by apply (H (S j)).
Qed.

Lemma swap_of_one l i (x : dcall) :
  l !! i = Some x → (∀ j (y : dcall), l !! j = Some y → i ≠ j → swap y = None) → swap_of l = swap x.
Proof.
  revert i. induction l as [|z l IH]; intros [|i]; simpl; try done.
  - intros [= ->] H. rewrite swap_of_none; [by destruct (swap x)|].
    intros j y Hy. by apply (H (S j)).
  - intros Hi H. rewrite (H 0%nat z) by done. apply (IH i Hi). intros j y Hy Hij.
    apply (H (S j)); [done|congruence].
Qed.

Lemma swap_of_insert l i (x y : dcall) :
  l !! i = Some x → swap x = None → swap y = None → swap_of (<[i:=y]> l) = swap_of l.
Proof.
  revert i. induction l as [|z l IH]; intros [|i]; simpl; try done.
  - by intros [= ->] -> ->.
  - intros Hi Hx Hy. by rewrite (IH i).
Qed.

Lemma settled_one l s i (x : dcall) :
  l !! i = Some x → (∀ j (y : dcall), l !! j = Some y → i ≠ j → holds_write y = false) →
  settled l s = settle x s.
Proof.
  intros Hx Hl. unfold settled, settle. rewrite (swap_of_one l i x Hx); [done|].
  intros j y Hy Hij. by eapply outside_no_swap, Hl.
Qed.

Lemma settled_heap l s : kheap (settled l s) = kheap s.
Proof. unfold settled. by destruct (swap_of l). Qed.

(** A call outside the critical section makes the same step in the settled state. *)
Lemma settled_step l s i (x y : dcall) s' :
  l !! i = Some x → holds_write x = false → call_step x s = Ok (y, s') →
  call_step x (settled l s) = Ok (y, settled (<[i:=y]> l) s') ∧
  event_of x (settled l s) = event_of x s ∧ temp s' = temp s ∧
  temp (settled (<[i:=y]> l) s') = temp (settled l s).
Proof.
  intros Hx Hw Hstep. pose proof (call_step_blind x Hw) as Hb.
  pose proof (blind_temp _ _ _ _ Hb Hstep) as Ht.
  unfold settled. rewrite (swap_of_insert l i x y Hx);
    [|by apply outside_no_swap|by apply (outside_swap x Hw _ _ _ Hstep)].
  destruct (swap_of l) as [q|]; [|done]. rewrite Hb, Hstep. by rewrite outside_event.
Qed.

Lemma settled_terminated l s (x : dcall) :
  step_terminated x s = true → step_terminated x (settled l s) = true.
Proof. unfold settled. by destruct (swap_of l), x. Qed.

Lemma settled_fault l s (x : dcall) f :
  holds_write x = false → call_step x s = Fault f → call_step x (settled l s) = Fault f.
Proof.
  intros Hw Hstep. unfold settled. destruct (swap_of l) as [q|]; [|done].
  by rewrite (call_step_blind x Hw), Hstep.
Qed.

(** ** All the calls *)

Record calls_inv (c0 : contents) (l0 : list dcall) (tr : trace) (l : list dcall) s : Prop := {
  ca_inv : dev_inv (settled l s);
  ca_contents : contents_of (settled l s) (c_run c0 tr);
  ca_calls i (x : dcall) : l !! i = Some x →
    ∃ c : dcall, l0 !! i = Some c ∧ call_inv c0 tr (temp s) (settled l s) i c x;
  ca_own i j (x y : dcall) q : l !! i = Some x → l !! j = Some y → i ≠ j →
    q ∈ own (temp s) x → q ≠ NULL → q ∉ own (temp s) y;
  ca_sem : sem_inv l s
}.

Lemma may_start_swap l : Forall may_start l → swap_of l = None.
Proof. induction 1 as [|x l Hx _ IH]; [done|]. simpl. by destruct x. Qed.

Lemma may_start_started l : Forall may_start l → forallb started l = true.
Proof. induction 1 as [|x l Hx _ IH]; [done|]. simpl. rewrite IH. by destruct x. Qed.

Lemma calls_inv_started c0 l0 s :
  Forall may_start l0 → dev_inv s → contents_of s c0 → idle s → calls_inv c0 l0 [] l0 s.
Proof.
  intros Hl Hi Hc Hs. pose proof (may_start_swap l0 Hl) as Hsw.
  pose proof (sem_inv_started l0 s (may_start_started l0 Hl) Hs) as Hsem.
  rewrite Forall_lookup in Hl. split; unfold settled; rewrite ?Hsw; try done.
  - intros i x Hx. exists x. split; [done|]. pose proof (Hl i x Hx) as Hm. by destruct x.
  - intros i j x y q Hx _ _ Hq _. pose proof (Hl i x Hx). destruct x; try done;
      by apply not_elem_of_nil in Hq.
Qed.

(** While a call is in the critical section no other one is. *)
Lemma outside_others l s i (x : dcall) :
  sem_inv l s → l !! i = Some x → holds_write x = true →
  ∀ j (y : dcall), l !! j = Some y → i ≠ j → holds_write y = false.
Proof.
  intros [_ Hw _] Hx Hh j y Hy Hij. destruct (holds_write y) eqn:E; [|done].
  pose proof (count_two holds_write l i j x y Hx Hy Hij Hh E). destruct (writer (dsem s)); lia.
Qed.

(** The call that makes the step, as [DriverCallSteps] wants it: a state in which it
    makes the step, and no new partial text of another call is missing. *)
Lemma calls_inv_step_ok c0 l0 tr l s i (x y : dcall) s' :
  calls_inv c0 l0 tr l s → l !! i = Some x → step_terminated x s = true →
  call_step x s = Ok (y, s') →
  ∃ c : dcall, l0 !! i = Some c ∧
    let es := event_of x s in
    let t := settled l s in let t' := settled (<[i:=y]> l) s' in
    steps_to es (own (temp s) x) (c_run c0 tr) t t' ∧
    call_inv c0 (tr ++ (pair i <$> es)) (temp s') t' i c y ∧
    (∀ q, q ∈ own (temp s') y → q ≠ NULL →
       q ∈ own (temp s) x ∨ kheap s !! q = None ∨ on_device t q) ∧
    (∀ j (z : dcall), l !! j = Some z → i ≠ j →
       if holds_write z then temp s' = temp s ∧ temp t' = temp t ∧ Forall no_write es else True).
Proof.
  intros [Hi Hc Hcalls Hown Hsem] Hx Hterm Hstep. destruct (Hcalls i x Hx) as (c & Hci & Hinv).
  exists c. split; [done|]. destruct (holds_write x) eqn:Hw.
  - pose proof (outside_others l s i x Hsem Hx Hw) as Hout.
    assert (settled l s = settle x s) as Es by (by apply (settled_one _ _ i)).
    assert (settled (<[i:=y]> l) s' = settle y s') as Es'.
    { apply (settled_one _ _ i); [by eapply list_lookup_insert_eq, lookup_lt_Some|].
      intros j z [(? & _)|[_ Hz]]%list_lookup_insert_Some Hij; [done|by apply (Hout j)]. }
    rewrite Es in Hi, Hc, Hinv |- *. rewrite Es'. destruct (call_step_ok c0 tr s i c x y s' Hi Hc Hinv Hterm Hstep) as (H1 & H2 & H3).
    split_and!; try done. intros j z Hz Hij. by rewrite (Hout j z).
  - pose proof (outside_no_swap x Hw) as Hsx.
    pose proof (outside_swap x Hw _ _ _ Hstep) as Hsy. cbn beta in Hsy.
    destruct (settled_step l s i x y s' Hx Hw Hstep) as (Hstep' & He & Ht & Ht').
    assert (∀ u, settle x u = u ∧ settle y u = u) as Hset.
    { intros u. unfold settle. by rewrite Hsx, Hsy. }
    pose proof (call_step_ok c0 tr (settled l s) i c x y (settled (<[i:=y]> l) s')) as Hok.
    unfold step_ok in Hok. rewrite (proj1 (Hset (settled l s))), (proj2 (Hset (settled _ s'))), He,
      (own_temp _ (temp s) x Hsx), (own_temp _ (temp s') y Hsy), settled_heap in Hok.
    destruct Hok as (H1 & H2 & H3); [done|done|by eapply call_inv_temp|by apply settled_terminated|done|].
    split_and!; try done.
    + by eapply call_inv_temp.
    + intros j z _ _. destruct (holds_write z); [|done]. split_and!; try done.
      by apply outside_no_write.
Qed.

Lemma calls_inv_step c0 l0 tr l s i (x y : dcall) s' :
  calls_inv c0 l0 tr l s → l !! i = Some x → step_terminated x s = true →
  call_step x s = Ok (y, s') →
  calls_inv c0 l0 (tr ++ (pair i <$> event_of x s)) (<[i:=y]> l) s'.
Proof.
  intros HI Hx Hterm Hstep.
  destruct (calls_inv_step_ok c0 l0 tr l s i x y s' HI Hx Hterm Hstep) as (c & Hci & Hst & Hy & Hnew & Hoth).
  destruct HI as [Hi Hc Hcalls Hown Hsem].
  assert (∀ j z, l !! j = Some z → i ≠ j → own (temp s') z = own (temp s) z) as Hsame.
  { intros j z Hz Hij. pose proof (Hoth j z Hz Hij) as H. destruct (holds_write z) eqn:Hwz.
    - by destruct H as [-> _].
    - by apply own_temp, outside_no_swap. }
  assert (∀ j z q, l !! j = Some z → i ≠ j → q ∈ own (temp s) z → q ≠ NULL → q ∉ own (temp s') y) as Hdiff.
  { intros j z q Hz Hij Hq Hn Hqy. destruct (Hcalls j z Hz) as (cj & _ & Hj).
    destruct (own_live c0 tr (temp s) _ j cj z q Hj Hq Hn) as [[b Hb] Hoff]. rewrite settled_heap in Hb.
    destruct (Hnew q Hqy Hn) as [Hqx|[Hd|Hd]]; [|congruence|done].
    by apply (Hown j i z x q Hz Hx). }
  split.
  - apply Hst.
  - rewrite c_run_app. apply Hst.
  - intros j z [(<- & <- & _)|[Hij Hz]]%list_lookup_insert_Some; [by exists c|].
    destruct (Hcalls j z Hz) as (cj & Hcj & Hj). exists cj. split; [done|].
    eapply call_other; [exact Hst|by intros ->| | |exact Hj].
    + intros q Hq Hn. by apply (Hown j i z x q).
    + intros Hwz. pose proof (Hoth j z Hz Hij) as H. by rewrite Hwz in H.
  - intros j k z w q [(<- & <- & _)|[Hij Hz]]%list_lookup_insert_Some
                   [(<- & <- & _)|[Hik Hw]]%list_lookup_insert_Some Hjk Hq Hn; try done.
    + rewrite (Hsame k w Hw Hik). intros Hqw. by apply (Hdiff k w q).
    + rewrite (Hsame j z Hz Hij) in Hq. by apply (Hdiff j z).
    + rewrite (Hsame j z Hz Hij) in Hq. rewrite (Hsame k w Hw Hik). by apply (Hown j k z).
  - eapply sem_inv_step; [exact Hsem|by econstructor].
Qed.

Lemma calls_inv_run c0 l0 sched tr l s l' s' :
  calls_inv c0 l0 tr l s → run_terminated sched l s = true →
  run_schedule sched l s = Ok (l', s') → calls_inv c0 l0 (tr ++ trace_of sched l s) l' s'.
Proof.
  revert tr l s. induction sched as [|i sched IH]; intros tr l s HI; simpl.
  { intros _ [= <- <-]. by rewrite app_nil_r. }
  destruct (l !! i) as [x|] eqn:Hx; [|by apply IH]. intros [Ht Hr]%andb_true_iff. revert Hr.
  destruct (call_step x s) as [[y s1]|] eqn:Hstep; [|done].
  rewrite app_assoc. apply IH. by apply calls_inv_step.
Qed.

Lemma run_terminated_app sched1 sched2 l s :
  run_terminated (sched1 ++ sched2) l s = true → run_terminated sched1 l s = true.
Proof.
  revert l s. induction sched1 as [|i sched1 IH]; intros l s; simpl; [done|].
  destruct (l !! i) as [x|]; [|apply IH]. rewrite !andb_true_iff. intros [-> H]. split; [done|].
  destruct (call_step x s) as [[y s1]|]; [by apply IH|done].
Qed.

Lemma calls_inv_fault c0 l0 tr l s i (x : dcall) f :
  calls_inv c0 l0 tr l s → l !! i = Some x → call_step x s = Fault f →
  (f = NullDeref ∧ join_fails x) ∨ disturbed c0 tr i.
Proof.
  intros [Hi Hc Hcalls _ Hsem] Hx Hstep. destruct (Hcalls i x Hx) as (c & _ & Hinv).
  destruct (holds_write x) eqn:Hw.
  - rewrite (settled_one l s i x Hx (outside_others l s i x Hsem Hx Hw)) in *.
    by eapply call_fault.
  - pose proof (outside_no_swap x Hw) as Hsx.
    assert (settle x (settled l s) = settled l s) as E by (unfold settle; by rewrite Hsx).
    eapply (call_fault c0 tr (settled l s)); rewrite ?E; [done|done| |by apply settled_fault].
    by eapply call_inv_temp.
Qed.

(** Where a schedule that faults does so. *)
Lemma run_schedule_fault_inv sched l s f :
  run_schedule sched l s = Fault f →
  ∃ pre i post l' s' x, sched = pre ++ i :: post ∧ run_schedule pre l s = Ok (l', s') ∧
    l' !! i = Some x ∧ call_step x s' = Fault f.
Proof.
  revert l s. induction sched as [|i sched IH]; intros l s; simpl; [done|].
  destruct (l !! i) as [x|] eqn:Hx.
  2:{ intros (pre & j & post & l' & s' & z & -> & Hr & H)%IH.
      exists (i :: pre), j, post, l', s', z. split; [done|]. split; [|done]. simpl. by rewrite Hx. }
  destruct (call_step x s) as [[y s1]|f'] eqn:Hstep.
  - intros (pre & j & post & l' & s' & z & -> & Hr & H)%IH.
    exists (i :: pre), j, post, l', s', z. split; [done|]. split; [|done].
    by rewrite (run_schedule_step _ _ _ _ _ _ _ Hx Hstep).
  - intros [= <-]. by exists [], i, sched, l, s, x.
Qed.

(** ** Properties *)

(** C2: Interleaved calls of the driver implement its abstract contents.  Take any
    reads, and writes of one byte or more, on a device whose semaphore is free, and any
    schedule of their steps, which are single calls of the kernel, of the string
    functions and of the ring, and single reads of an entry.  In the run every block
    that a write gets for its text has a NUL after the bytes it asked for, without which
    it reads past them.  As long as no step faults, the
    device holds what the searches and the critical sections of the trace leave when
    they run one after the other (but for the new value of temp_char_buffer when a write has
    freed the old text and not set the new one).  A call that had its turn eleven times
    has returned, and a call that has returned has its part of the trace: a write that
    reported success took its text from the user and stored it once, or dropped it when
    the semaphore was held; a read gave the user the whole line that its search found,
    even if other calls ran in between, unless a write put another line in the slot of
    that line.  In such a run only such a read, and a write whose allocation for the
    joined text has failed, can make a step that faults. *)
Theorem interleaved_calls_refine_contents l0 s0 c0 sched :
  Forall may_start l0 → idle s0 → dev_inv s0 → contents_of s0 c0 →
  run_terminated sched l0 s0 = true →
  match run_schedule sched l0 s0 with
  | Ok (l, s) =>
    let tr := trace_of sched l0 s0 in
    dev_inv (settled l s) ∧ contents_of (settled l s) (c_run c0 tr) ∧
    ∀ i (c : dcall), l0 !! i = Some c → ∃ x : dcall, l !! i = Some x ∧
      explained c0 tr i c x ∧ (11 ≤ count_occ Nat.eq_dec sched i → steps_left x = 0)%nat
  | Fault f => ∃ pre i post l s x,
    sched = pre ++ i :: post ∧ run_schedule pre l0 s0 = Ok (l, s) ∧ l !! i = Some x ∧
    call_step x s = Fault f ∧
    ((f = NullDeref ∧ join_fails x) ∨ disturbed c0 (trace_of pre l0 s0) i)
  end.
Proof.
  intros Hl Hs Hi Hc Hterm. pose proof (calls_inv_started c0 l0 s0 Hl Hi Hc Hs) as H0.
  destruct (run_schedule sched l0 s0) as [[l s]|f] eqn:Hr.
  - destruct (calls_inv_run _ _ _ _ _ _ _ _ H0 Hterm Hr) as [Hi' Hc' Hcalls _ _]. split_and!; [done..|].
    intros i c Hci. destruct (run_schedule_left _ _ _ _ _ i c Hr Hci) as (x & Hx & Hle).
    exists x. split; [done|]. destruct (Hcalls i x Hx) as (c' & Hc'' & Hinv).
    assert (c' = c) as -> by congruence. split; [by eapply call_inv_explained|].
    intros H11. assert (steps_left c ≤ 11)%nat by (destruct c; simpl; lia). lia.
  - destruct (run_schedule_fault_inv _ _ _ _ Hr) as (pre & i & post & l & s & x & -> & Hp & Hx & Hf).
    exists pre, i, post, l, s, x. do 4 (split; [done|]).
    pose proof (calls_inv_run _ _ _ _ _ _ _ _ H0 (run_terminated_app _ _ _ _ Hterm) Hp) as HI. by eapply calls_inv_fault.
Qed.

End Interleaving.

(** ** A concrete schedule *)

(** A device without lines.  The first write is in its critical section when a read and
    the second write are turned away; the second read searches after the first write
    has stored its line, and the read ends after that. *)
Definition demo_calls : list dcall :=
  [WStart 100 2; RStart 200 16 0; WStart 100 2; RStart 200 16 0].
Definition demo_schedule : list nat :=
  [0; 2; 0; 2; 0; 1; 2; 0; 0; 0; 3; 3; 3; 3; 3; 3; 3; 3; 3; 3]%nat.
Definition demo_idle : kstate :=
  mkK ∅ 0 (umem_write (umem_write ∅ 100 [120; NL]) 200 [0; 0]) (mkDev init_buffer init_rwsem NULL).

Lemma interleaved_calls_refine_contents_witness :
  ∃ s, run_schedule (K:=roomy_kernel) (AO:=true) demo_schedule demo_calls demo_idle =
      Ok ([WDone 2; RDone (- ERESTARTSYS) 0; WDone 2; RDone 2 2], s) ∧
    contents_of s (mkC ([120; NL] :: replicate 9 []) 0 1 None) ∧
    trace_of (K:=roomy_kernel) (AO:=true) demo_schedule demo_calls demo_idle =
      [(0%nat, ETake 100 [120; NL]); (2%nat, ETake 100 [120; NL]); (1%nat, EHeld); (2%nat, EHeld);
       (0%nat, EWrite [120; NL]); (3%nat, ESearch 0); (3%nat, EGive 200 [120; NL])].
Proof.
  assert (trace_of (K:=roomy_kernel) (AO:=true) demo_schedule demo_calls demo_idle =
      [(0%nat, ETake 100 [120; NL]); (2%nat, ETake 100 [120; NL]); (1%nat, EHeld); (2%nat, EHeld);
       (0%nat, EWrite [120; NL]); (3%nat, ESearch 0); (3%nat, EGive 200 [120; NL])]) as Ht by (by vm_compute).
  pose proof (interleaved_calls_refine_contents (K:=roomy_kernel) (AO:=true) demo_calls demo_idle
    (as_c (a_init (kumem demo_idle))) demo_schedule) as H.
  destruct (run_schedule (K:=roomy_kernel) (AO:=true) demo_schedule demo_calls demo_idle)
    as [[l s]|f] eqn:E; [|by vm_compute in E].
  assert (l = [WDone 2; RDone (- ERESTARTSYS) 0; WDone 2; RDone 2 2]) as ->.
  { vm_compute in E. injection E as <- _. reflexivity. }
  destruct H as (_ & Hc & _).
  - repeat constructor; simpl; lia.
  - by split.
  - apply fresh_device_good.
  - apply fresh_contents.
  - by vm_compute.
  - exists s. split; [reflexivity|]. rewrite Ht in Hc. split; [|exact Ht].
    vm_compute c_run in Hc. exact Hc.
Defined.
