(* ===== verification/DriverSafety.v ===== *)
(** * Memory safety of the character driver in use

    Any sequence of the calls of [DriverSystem], whatever the kernel answers to
    each allocation and each copy: buffers that are not mapped, requests that are
    not served, descriptors that are not open.  What the run has to have is a NUL for
    each text in its block ([write_terminated]). *)
From Stdlib Require Import ZArith Lia.
From stdpp Require Import base tactics list gmap sets numbers.
From S2P Require Import Prelude CMemory Kernel CircularBuffer CharDriver DriverWrite DriverRead DriverModule DriverSystem.


Section Safety.
Context `{K : Kernel} `{R : RwSem} `{V : Vfs} `{C : Chrdev}.
Context `{!KernelOk K} `{!RwSemOk R} `{!VfsOk V} `{!ChrdevOk C}.
Variable aesd_device : Z.
Implicit Types (s : kstate) (S : sys).




(** ** One call *)






(** ** Sequences of calls *)




(** ** Properties *)


End Safety.


