(* ===== verification/QueueMemory.v ===== *)
(** * Memory and loops of the queue macros

    The four families of macros of [src/server/src/queue.h] (SLIST, STAILQ, LIST
    and TAILQ) work on heads and on the links kept inside the elements, and their
    FOREACH loops differ only in the macros that read the first and the next
    element.  Here are the memory, for any type of heads and of links, the
    pointers to pointers, and the loops, for any first and next; the lemmas on
    loops are shared by the families. *)
From Stdlib Require Import ZArith Lia.
From stdpp Require Import base tactics list gmap sets numbers.
From S2P Require Import Prelude.

(** ** Memory *)

(** A [struct type **]: the address of the first field of a head or of the next
    field of the links of an element. *)
Inductive link : Type :=
| FirstOf (head : Z)
| NextOf (elm : Z).

#[export] Instance link_eq_dec : EqDecision link.
Proof. solve_decision. Defined.

(** [__containerof(k, type, field.next)]: the element that holds the next field; the
    address of a head is in no element. *)
Definition containerof (k : link) : res Z :=
  match k with NextOf n => Ok n | FirstOf _ => Fault OutOfBounds end.

(** Heads and elements by their addresses. *)
Record links_mem (H E : Type) : Type := mkQ {
  heads : gmap Z H;
  elems : gmap Z E
}.
Arguments mkQ {H E} _ _.
Arguments heads {H E} _.
Arguments elems {H E} _.

Definition lookup_at {A} (m : gmap Z A) (p : Z) : res A :=
  if p =? NULL then Fault NullDeref
  else match m !! p with Some a => Ok a | None => Fault UseAfterFree end.

Section Memory.
Context {H E : Type}.

Definition get_head (h : Z) : st (links_mem H E) H :=
  λ m, match lookup_at (heads m) h with Ok a => Ok (a, m) | Fault f => Fault f end.
Definition get_elem (n : Z) : st (links_mem H E) E :=
  λ m, match lookup_at (elems m) n with Ok a => Ok (a, m) | Fault f => Fault f end.

Definition put_head (h : Z) (a : H) : st (links_mem H E) unit :=
  λ m, Ok (tt, mkQ (<[h:=a]> (heads m)) (elems m)).
Definition put_elem (n : Z) (e : E) : st (links_mem H E) unit :=
  λ m, Ok (tt, mkQ (heads m) (<[n:=e]> (elems m))).

(** [free] of an element. *)
Definition free_elem (n : Z) : st (links_mem H E) unit :=
  λ m, if n =? NULL then Ok (tt, m)
       else match elems m !! n with
            | Some _ => Ok (tt, mkQ (heads m) (delete n (elems m)))
            | None => Fault BadFree
            end.

(** The heads [hs] and the elements [es] are allocated. *)
Record allocated (hs es : gset Z) (m : links_mem H E) : Prop := {
  al_heads h : h ∈ hs → h ≠ NULL ∧ is_Some (heads m !! h);
  al_elems e : e ∈ es → e ≠ NULL ∧ is_Some (elems m !! e)
}.

End Memory.

(** ** Loops *)

(** The loops of the [FOREACH] macros, over a state [S] that holds the queues;
    the body is given the element.  [n] bounds the iterations; the result says
    whether the loop ended. *)
Section Loops.
Context {S M : Type} (queues : S → M).

(** A read of the links from the larger state. *)
Definition q_read {A} (f : st M A) : st S A :=
  λ s, match f (queues s) with Ok (a, _) => Ok (a, s) | Fault e => Fault e end.

Fixpoint foreach_loop (n : nat) (next : Z → st M Z) (body : Z → st S unit)
    (var : Z) : st S bool :=
  match n with
  | O => mret (var =? NULL)
  | Datatypes.S n' =>
    if var =? NULL then mret true
    else body var ;;; var' ← q_read (next var); foreach_loop n' next body var'
  end.

(** The next element is read before the body, which may remove the current
    one. *)
Fixpoint foreach_safe_loop (n : nat) (next : Z → st M Z) (body : Z → st S unit)
    (var : Z) : st S bool :=
  match n with
  | O => mret (var =? NULL)
  | Datatypes.S n' =>
    if var =? NULL then mret true
    else tvar ← q_read (next var); body var ;;; foreach_safe_loop n' next body tvar
  end.

(** [while (NEXT(cur) != target) cur = NEXT(cur)], [None] when [n] steps do not end
    it. *)
Fixpoint walk (n : nat) (next : Z → st M Z) (target cur : Z) : st M (option Z) :=
  match n with
  | O => mret None
  | Datatypes.S n' =>
    nx ← next cur; if nx =? target then mret (Some cur) else walk n' next target nx
  end.

(** [((var) ? (var) : first)], where the [FROM] loops start. *)
Definition start_from (var : Z) (first : st M Z) : st M Z :=
  if negb (var =? NULL) then mret var else first.

End Loops.

(** The walk of a macro: the steps allowed are one more than the allocated
    elements. *)
Definition walk_elems {H E} (next : Z → st (links_mem H E) Z) (target cur : Z) :
    st (links_mem H E) (option Z) :=
  m ← st_get; walk (S (size (elems m))) next target cur.

(** ** Lemmas on the memory *)

Lemma lookup_at_ok {A} (m : gmap Z A) p a : p ≠ NULL → m !! p = Some a → lookup_at m p = Ok a.
Proof. intros Hp Ha. unfold lookup_at. destruct (Z.eqb_spec p NULL); [done|]. by rewrite Ha. Qed.

Section MemoryLemmas.
Context {H E : Type}.
Implicit Types m : links_mem H E.

Lemma get_head_ok m h a : h ≠ NULL → heads m !! h = Some a → get_head h m = Ok (a, m).
Proof. intros Hh Ha. unfold get_head. by rewrite (lookup_at_ok _ _ a). Qed.

Lemma get_elem_ok m n e : n ≠ NULL → elems m !! n = Some e → get_elem n m = Ok (e, m).
Proof. intros Hn He. unfold get_elem. by rewrite (lookup_at_ok _ _ e). Qed.

Lemma get_elem_null m : get_elem NULL m = Fault NullDeref.
Proof. done. Qed.

End MemoryLemmas.

(** Runs the next access of a macro, whose lemma is given. *)
Ltac qstep H := rewrite (st_bind_step _ _ _ _ _ H); simpl.

(** ** Lists of elements *)

(** The element after the list [l], when [q] follows it. *)
Definition first_or (l : list Z) (q : Z) : Z :=
  match l with [] => q | n :: _ => n end.

(** The link that points past the end of [l], when [k] points to its start. *)
Fixpoint end_link (k : link) (l : list Z) : link :=
  match l with [] => k | n :: l' => end_link (NextOf n) l' end.

Lemma first_or_app l1 l2 q : first_or (l1 ++ l2) q = first_or l1 (first_or l2 q).
Proof. by destruct l1. Qed.

Lemma end_link_app k l1 l2 : end_link k (l1 ++ l2) = end_link (end_link k l1) l2.
Proof. revert k. induction l1; simpl; auto. Qed.

Lemma end_link_cases k l :
  end_link k l = match list.last l with Some n => NextOf n | None => k end.
Proof.
  destruct l as [|n l _] using rev_ind; [done|]. by rewrite end_link_app, last_snoc.
Qed.

(** ** Lemmas on the loops *)

Section LoopLemmas.
Context {S M : Type} (queues : S → M).
Implicit Types s : S.

Lemma q_read_ok {A} (f : st M A) s a :
  f (queues s) = Ok (a, queues s) → q_read queues f s = Ok (a, s).
Proof. unfold q_read. by intros ->. Qed.

(** A loop whose body keeps an invariant that, with the elements still to visit,
    gives the next one: it visits them all and ends. *)
Lemma foreach_loop_inv (I : list Z → S → Prop) next body n l s :
  (∀ x l' s, I (x :: l') s → x ≠ NULL ∧ ∃ s', body x s = Ok (tt, s') ∧ I l' s' ∧
     next x (queues s') = Ok (first_or l' NULL, queues s')) →
  (length l ≤ n)%nat → I l s →
  ∃ s', foreach_loop queues n next body (first_or l NULL) s = Ok (true, s') ∧ I [] s'.
Proof.
  intros Hbody. revert l s. induction n as [|n IH]; intros l s Hn HI.
  { destruct l; [|simpl in Hn; lia]. exists s. by split. }
  simpl. destruct l as [|x l]; [exists s; by split|].
  destruct (Hbody x l s HI) as (Hx & s1 & Hb & HI1 & Hnx).
  simpl. destruct (Z.eqb_spec x NULL); [done|]. rewrite (st_bind_step _ _ _ _ _ Hb).
  rewrite (st_bind_step _ _ _ _ _ (q_read_ok _ _ _ Hnx)). apply IH; [simpl in Hn; lia|done].
Qed.

Lemma foreach_safe_loop_inv (I : list Z → S → Prop) next body n l s :
  (∀ x l' s, I (x :: l') s → x ≠ NULL ∧
     next x (queues s) = Ok (first_or l' NULL, queues s) ∧
     ∃ s', body x s = Ok (tt, s') ∧ I l' s') →
  (length l ≤ n)%nat → I l s →
  ∃ s', foreach_safe_loop queues n next body (first_or l NULL) s = Ok (true, s') ∧ I [] s'.
Proof.
  intros Hbody. revert l s. induction n as [|n IH]; intros l s Hn HI.
  { destruct l; [|simpl in Hn; lia]. exists s. by split. }
  simpl. destruct l as [|x l]; [exists s; by split|].
  destruct (Hbody x l s HI) as (Hx & Hnx & s1 & Hb & HI1).
  simpl. destruct (Z.eqb_spec x NULL); [done|].
  rewrite (st_bind_step _ _ _ _ _ (q_read_ok _ _ _ Hnx)). rewrite (st_bind_step _ _ _ _ _ Hb).
  apply IH; [simpl in Hn; lia|done].
Qed.

(** The bodies run one after the other, up to the first fault. *)
Fixpoint run_bodies {A} (body : A → st S unit) (l : list A) : st S unit :=
  match l with [] => mret tt | x :: l' => body x ;;; run_bodies body l' end.

(** A loop whose body leaves the links alone runs it on the elements in order,
    up to the first fault. *)
Lemma foreach_loop_run (next : Z → st M Z) body n l s :
  (∀ x s s', body x s = Ok (tt, s') → queues s' = queues s) →
  NULL ∉ l → (∀ l1 x l2, l = l1 ++ x :: l2 →
    next x (queues s) = Ok (first_or l2 NULL, queues s)) →
  (length l ≤ n)%nat →
  foreach_loop queues n next body (first_or l NULL) s = (run_bodies body l ;;; mret true) s.
Proof.
  intros Hbody. revert l s. induction n as [|n IH]; intros l s Hnull Hnx Hn.
  { by destruct l; [|simpl in Hn; lia]. }
  simpl. destruct l as [|x l]; [done|]. simpl.
  destruct (Z.eqb_spec x NULL) as [->|Hx]; [by destruct Hnull; left|].
  unfold mbind, st_bind. destruct (body x s) as [[[] s']|f] eqn:E; [|done].
  pose proof (Hbody _ _ _ E) as Hq.
  rewrite (q_read_ok _ s' (first_or l NULL)) by (rewrite Hq; by apply (Hnx [])).
  rewrite IH; [done|set_solver| |simpl in Hn; lia].
  intros l1 y l2 ->. rewrite Hq. by apply (Hnx (x :: l1)).
Qed.

End LoopLemmas.
