(* ===== verification/TailQueue.v ===== *)
(** * The tail queue of the socket server

    Models the TAILQ macros of [src/server/src/queue.h] (with
    [QUEUE_MACRO_DEBUG] and [INVARIANTS] off, as the server compiles it).  The
    memory is a map of heads and a map of elements; a [struct type **], which is
    the address of a head's first field or of an element's next field, is a
    [link].  [queue m h l] says that the head [h] links the elements [l]; the
    macros refine the operations of lists.  [repr] relates a memory to several
    lists at once, which no operation on another queue disturbs. *)
From Stdlib Require Import ZArith Lia.
From stdpp Require Import base tactics list gmap sets numbers.
From S2P Require Import Prelude QueueMemory.

(** ** Data *)

Record TAILQ_HEAD : Type := mkHead {
  tqh_first : Z;
  tqh_last : link
}.

Record TAILQ_ENTRY : Type := mkLinks {
  tqe_next : Z;
  tqe_prev : link
}.

Notation qmem := (links_mem TAILQ_HEAD TAILQ_ENTRY).

#[export] Instance TAILQ_HEAD_eq_dec : EqDecision TAILQ_HEAD.
Proof. solve_decision. Defined.
#[export] Instance TAILQ_ENTRY_eq_dec : EqDecision TAILQ_ENTRY.
Proof. solve_decision. Defined.

(** ** Reads and writes of the fields *)

Definition set_first (h p : Z) : st qmem unit :=
  a ← get_head h; put_head h (mkHead p (tqh_last a)).
Definition set_last (h : Z) (k : link) : st qmem unit :=
  a ← get_head h; put_head h (mkHead (tqh_first a) k).
Definition set_next (n p : Z) : st qmem unit :=
  e ← get_elem n; put_elem n (mkLinks p (tqe_prev e)).
Definition set_prev (n : Z) (k : link) : st qmem unit :=
  e ← get_elem n; put_elem n (mkLinks (tqe_next e) k).

Definition get_last (h : Z) : st qmem link := a ← get_head h; mret (tqh_last a).
Definition get_prev (n : Z) : st qmem link := e ← get_elem n; mret (tqe_prev e).

(** ** The macros *)

Definition TAILQ_FIRST (h : Z) : st qmem Z := a ← get_head h; mret (tqh_first a).
Definition TAILQ_NEXT (n : Z) : st qmem Z := e ← get_elem n; mret (tqe_next e).
Definition TAILQ_EMPTY (h : Z) : st qmem bool := p ← TAILQ_FIRST h; mret (p =? NULL).

(** [*k] and [*k = p] for a [struct type **]. *)
Definition load (k : link) : st qmem Z :=
  match k with FirstOf h => TAILQ_FIRST h | NextOf n => TAILQ_NEXT n end.
Definition store (k : link) (p : Z) : st qmem unit :=
  match k with FirstOf h => set_first h p | NextOf n => set_next n p end.

(** [((struct headname * )k)->tqh_last]: a head and the links of an element have
    the same layout, so the second field of either is read. *)
Definition second_field (k : link) : st qmem link :=
  match k with FirstOf h => get_last h | NextOf n => get_prev n end.

Definition TAILQ_LAST (h : Z) : st qmem Z :=
  k ← get_last h; k' ← second_field k; load k'.
Definition TAILQ_PREV (n : Z) : st qmem Z :=
  k ← get_prev n; k' ← second_field k; load k'.

(** The back pointer of what follows: the element [nx], or the head's last link
    when there is none (the conditional that ends several of the macros). *)
Definition set_back (h nx : Z) (k : link) : st qmem unit :=
  if negb (nx =? NULL) then set_prev nx k else set_last h k.

Definition TAILQ_INIT (h : Z) : st qmem unit :=
  set_first h NULL ;;; set_last h (FirstOf h).

(** The head that [TAILQ_HEAD_INITIALIZER(h)] declares. *)
Definition TAILQ_HEAD_INITIALIZER (h : Z) : TAILQ_HEAD := mkHead NULL (FirstOf h).

(** The checks that the macros make in a kernel built with [INVARIANTS]; [false]
    is a panic. *)
Definition QMD_TAILQ_CHECK_HEAD (h : Z) : st qmem bool :=
  b ← TAILQ_EMPTY h;
  if negb b then f ← TAILQ_FIRST h; k ← get_prev f; mret (bool_decide (k = FirstOf h))
  else mret true.

Definition QMD_TAILQ_CHECK_TAIL (h : Z) : st qmem bool :=
  k ← get_last h; p ← load k; mret (p =? NULL).

Definition QMD_TAILQ_CHECK_NEXT (elm : Z) : st qmem bool :=
  nx ← TAILQ_NEXT elm;
  if negb (nx =? NULL) then k ← get_prev nx; mret (bool_decide (k = NextOf elm))
  else mret true.

Definition QMD_TAILQ_CHECK_PREV (elm : Z) : st qmem bool :=
  k ← get_prev elm; p ← load k; mret (p =? elm).

Definition TAILQ_INSERT_TAIL (h elm : Z) : st qmem unit :=
  set_next elm NULL ;;;
  k ← get_last h;
  set_prev elm k ;;;
  k ← get_last h;
  store k elm ;;;
  set_last h (NextOf elm).

Definition TAILQ_INSERT_HEAD (h elm : Z) : st qmem unit :=
  f ← TAILQ_FIRST h;
  set_next elm f ;;;
  set_back h f (NextOf elm) ;;;
  set_first h elm ;;;
  set_prev elm (FirstOf h).

Definition TAILQ_INSERT_AFTER (h listelm elm : Z) : st qmem unit :=
  nx ← TAILQ_NEXT listelm;
  set_next elm nx ;;;
  set_back h nx (NextOf elm) ;;;
  set_next listelm elm ;;;
  set_prev elm (NextOf listelm).

Definition TAILQ_INSERT_BEFORE (listelm elm : Z) : st qmem unit :=
  k ← get_prev listelm;
  set_prev elm k ;;;
  set_next elm listelm ;;;
  k ← get_prev listelm;
  store k elm ;;;
  set_prev listelm (NextOf elm).

Definition TAILQ_REMOVE (h elm : Z) : st qmem unit :=
  nx ← TAILQ_NEXT elm;
  k ← get_prev elm;
  set_back h nx k ;;;
  k ← get_prev elm;
  nx ← TAILQ_NEXT elm;
  store k nx.

Definition TAILQ_CONCAT (h1 h2 : Z) : st qmem unit :=
  b ← TAILQ_EMPTY h2;
  if negb b then
    k1 ← get_last h1;
    f2 ← TAILQ_FIRST h2;
    store k1 f2 ;;;
    k1 ← get_last h1;
    set_prev f2 k1 ;;;
    k2 ← get_last h2;
    set_last h1 k2 ;;;
    TAILQ_INIT h2
  else mret tt.

Definition TAILQ_SWAP (h1 h2 : Z) : st qmem unit :=
  swap_first ← TAILQ_FIRST h1;
  swap_last ← get_last h1;
  f2 ← TAILQ_FIRST h2; set_first h1 f2 ;;;
  k2 ← get_last h2; set_last h1 k2 ;;;
  set_first h2 swap_first ;;;
  set_last h2 swap_last ;;;
  swap_first ← TAILQ_FIRST h1; set_back h1 swap_first (FirstOf h1) ;;;
  swap_first ← TAILQ_FIRST h2; set_back h2 swap_first (FirstOf h2).

(** The loops, over a state [S] that holds the queues. *)
Section Loops.
Context {S : Type} (queues : S → qmem).

Definition TAILQ_FOREACH (n : nat) (h : Z) (body : Z → st S unit) : st S bool :=
  var ← q_read queues (TAILQ_FIRST h); foreach_loop queues n TAILQ_NEXT body var.

Definition TAILQ_FOREACH_REVERSE (n : nat) (h : Z) (body : Z → st S unit) : st S bool :=
  var ← q_read queues (TAILQ_LAST h); foreach_loop queues n TAILQ_PREV body var.

Definition TAILQ_FOREACH_SAFE (n : nat) (h : Z) (body : Z → st S unit) : st S bool :=
  var ← q_read queues (TAILQ_FIRST h); foreach_safe_loop queues n TAILQ_NEXT body var.

Definition TAILQ_FOREACH_REVERSE_SAFE (n : nat) (h : Z) (body : Z → st S unit) : st S bool :=
  var ← q_read queues (TAILQ_LAST h); foreach_safe_loop queues n TAILQ_PREV body var.

(** The variants that start at the element [var] when it is not null. *)
Definition TAILQ_FOREACH_FROM (n : nat) (h var : Z) (body : Z → st S unit) : st S bool :=
  var ← q_read queues (start_from var (TAILQ_FIRST h));
  foreach_loop queues n TAILQ_NEXT body var.

Definition TAILQ_FOREACH_FROM_SAFE (n : nat) (h var : Z) (body : Z → st S unit) : st S bool :=
  var ← q_read queues (start_from var (TAILQ_FIRST h));
  foreach_safe_loop queues n TAILQ_NEXT body var.

Definition TAILQ_FOREACH_REVERSE_FROM (n : nat) (h var : Z) (body : Z → st S unit) : st S bool :=
  var ← q_read queues (start_from var (TAILQ_LAST h));
  foreach_loop queues n TAILQ_PREV body var.

Definition TAILQ_FOREACH_REVERSE_FROM_SAFE (n : nat) (h var : Z) (body : Z → st S unit) : st S bool :=
  var ← q_read queues (start_from var (TAILQ_LAST h));
  foreach_safe_loop queues n TAILQ_PREV body var.

End Loops.

(** ** Representation *)

(** The elements [l] are linked in a row, from the link [k] to the pointer [q]. *)
Fixpoint seg (E : gmap Z TAILQ_ENTRY) (k : link) (l : list Z) (q : Z) : Prop :=
  match l with
  | [] => True
  | n :: l' => E !! n = Some (mkLinks (first_or l' q) k) ∧ seg E (NextOf n) l' q
  end.

Record queue (m : qmem) (h : Z) (l : list Z) : Prop := {
  qu_head : h ≠ NULL;
  qu_links : heads m !! h = Some (mkHead (first_or l NULL) (end_link (FirstOf h) l));
  qu_null : NULL ∉ l;
  qu_nodup : NoDup l;
  qu_seg : seg (elems m) (FirstOf h) l NULL
}.

(** No element is in two of the lists. *)
Definition disjoint_lists (A : gmap Z (list Z)) : Prop :=
  ∀ h1 h2 l1 l2 n, A !! h1 = Some l1 → A !! h2 = Some l2 → n ∈ l1 → n ∈ l2 → h1 = h2.

(** Several queues in one memory. *)
Record repr (m : qmem) (A : gmap Z (list Z)) : Prop := {
  re_queue h l : A !! h = Some l → queue m h l;
  re_disj : disjoint_lists A
}.

(** ** Operations on lists *)

Fixpoint insert_after (x e : Z) (l : list Z) : list Z :=
  match l with
  | [] => []
  | y :: l' => if y =? x then y :: e :: l' else y :: insert_after x e l'
  end.

Fixpoint insert_before (x e : Z) (l : list Z) : list Z :=
  match l with
  | [] => []
  | y :: l' => if y =? x then e :: y :: l' else y :: insert_before x e l'
  end.

Fixpoint remove_elem (x : Z) (l : list Z) : list Z :=
  match l with
  | [] => []
  | y :: l' => if y =? x then l' else y :: remove_elem x l'
  end.

(** The operations of a program on its queues; [h] in [OInsertBefore] says which
    queue [x] is in, and is not an argument of the macro. *)
Inductive tq_op : Type :=
| OInit (h : Z)
| OInsertHead (h e : Z)
| OInsertTail (h e : Z)
| OInsertAfter (h x e : Z)
| OInsertBefore (h x e : Z)
| ORemove (h e : Z)
| OConcat (h1 h2 : Z)
| OSwap (h1 h2 : Z).

Definition run_op (o : tq_op) : st qmem unit :=
  match o with
  | OInit h => TAILQ_INIT h
  | OInsertHead h e => TAILQ_INSERT_HEAD h e
  | OInsertTail h e => TAILQ_INSERT_TAIL h e
  | OInsertAfter h x e => TAILQ_INSERT_AFTER h x e
  | OInsertBefore _ x e => TAILQ_INSERT_BEFORE x e
  | ORemove h e => TAILQ_REMOVE h e
  | OConcat h1 h2 => TAILQ_CONCAT h1 h2
  | OSwap h1 h2 => TAILQ_SWAP h1 h2
  end.

Fixpoint run_ops (os : list tq_op) : st qmem unit :=
  match os with [] => mret tt | o :: os' => run_op o ;;; run_ops os' end.

(** The same operations on the lists, [None] when the caller breaks the contract
    of the macro: the heads [H] and the elements [D] are the allocated ones, an
    inserted element is in no queue, and the elements named are in the queue. *)
Section Abstract.
Context (H D : gset Z).

Definition insertable (A : gmap Z (list Z)) (e : Z) : Prop :=
  e ∈ D ∧ map_Forall (λ _ l, e ∉ l) A.

#[export] Instance insertable_dec A e : Decision (insertable A e).
Proof. unfold insertable. apply _. Defined.

Definition a_op (o : tq_op) (A : gmap Z (list Z)) : option (gmap Z (list Z)) :=
  match o with
  | OInit h => if decide (h ∈ H) then Some (<[h:=[]]> A) else None
  | OInsertHead h e =>
    l ← A !! h; if decide (insertable A e) then Some (<[h:=e :: l]> A) else None
  | OInsertTail h e =>
    l ← A !! h; if decide (insertable A e) then Some (<[h:=l ++ [e]]> A) else None
  | OInsertAfter h x e =>
    l ← A !! h; if decide (x ∈ l ∧ insertable A e)
                then Some (<[h:=insert_after x e l]> A) else None
  | OInsertBefore h x e =>
    l ← A !! h; if decide (x ∈ l ∧ insertable A e)
                then Some (<[h:=insert_before x e l]> A) else None
  | ORemove h e =>
    l ← A !! h; if decide (e ∈ l) then Some (<[h:=remove_elem e l]> A) else None
  | OConcat h1 h2 =>
    l1 ← A !! h1; l2 ← A !! h2;
    if decide (h1 ≠ h2) then Some (<[h1:=l1 ++ l2]> (<[h2:=[]]> A)) else None
  | OSwap h1 h2 =>
    l1 ← A !! h1; l2 ← A !! h2;
    if decide (h1 ≠ h2) then Some (<[h1:=l2]> (<[h2:=l1]> A)) else None
  end.

Fixpoint a_ops (os : list tq_op) (A : gmap Z (list Z)) : option (gmap Z (list Z)) :=
  match os with [] => Some A | o :: os' => A' ← a_op o A; a_ops os' A' end.

End Abstract.

(** What an operation on the queues [hs] with the elements [l] leaves alone: the
    other heads, the other elements, and which elements are allocated. *)
Record frame (hs l : list Z) (m m' : qmem) : Prop := {
  fr_heads h : h ∉ hs → heads m' !! h = heads m !! h;
  fr_elems n : n ∉ l → elems m' !! n = elems m !! n;
  fr_dom n : is_Some (elems m !! n) → is_Some (elems m' !! n);
  fr_hdom h : is_Some (heads m !! h) → is_Some (heads m' !! h)
}.

#[local] Arguments set_first : simpl never.
#[local] Arguments set_last : simpl never.
#[local] Arguments set_next : simpl never.
#[local] Arguments set_prev : simpl never.

(** ** Segments *)

Lemma seg_app E k l1 l2 q :
  seg E k (l1 ++ l2) q ↔ seg E k l1 (first_or l2 q) ∧ seg E (end_link k l1) l2 q.
Proof.
  revert k. induction l1 as [|n l1 IH]; intros k; simpl; [naive_solver|].
  rewrite first_or_app, IH. naive_solver.
Qed.

Lemma seg_ext E E' k l q :
  (∀ n, n ∈ l → E' !! n = E !! n) → seg E k l q → seg E' k l q.
Proof.
  revert k. induction l as [|n l IH]; intros k Hl; simpl; [done|].
  intros [Hn Hs]. split; [rewrite Hl; [done|set_solver]|]. apply IH; [set_solver|done].
Qed.

Lemma seg_insert_ne E k l q n e : n ∉ l → seg E k l q → seg (<[n:=e]> E) k l q.
Proof. intros Hn. apply seg_ext. intros x Hx. apply lookup_insert_ne. by intros ->. Qed.

Lemma seg_frame hs l0 m m' k l q :
  frame hs l0 m m' → (∀ n, n ∈ l → n ∉ l0) → seg (elems m) k l q → seg (elems m') k l q.
Proof. intros Hf Hd. apply seg_ext. intros n Hn. by apply (fr_elems _ _ _ _ Hf), Hd. Qed.

Lemma frame_trans hs l m1 m2 m3 : frame hs l m1 m2 → frame hs l m2 m3 → frame hs l m1 m3.
Proof.
  intros [H1 H2 H3 H4] [H1' H2' H3' H4'].
  split; intros; [rewrite H1', H1|rewrite H2', H2|..]; auto.
Qed.

Lemma frame_weaken hs hs' l l' m m' :
  frame hs l m m' → (∀ h, h ∈ hs → h ∈ hs') → (∀ n, n ∈ l → n ∈ l') → frame hs' l' m m'.
Proof. intros [H1 H2 H3 H4] Hh Hl. split; auto. Qed.

Lemma frame_put_head hs l m h a :
  h ∈ hs → frame hs l m (mkQ (<[h:=a]> (heads m)) (elems m)).
Proof.
  intros Hh. split; simpl; auto.
  - intros h' Hh'. apply lookup_insert_ne. by intros ->.
  - intros x Hx. apply lookup_insert_is_Some'. by right.
Qed.

Lemma frame_put_elem hs l m n e :
  n ∈ l → frame hs l m (mkQ (heads m) (<[n:=e]> (elems m))).
Proof.
  intros Hn. split; simpl; auto.
  - intros x Hx. apply lookup_insert_ne. by intros ->.
  - intros x Hx. apply lookup_insert_is_Some'. by right.
Qed.

#[local] Hint Resolve frame_put_head frame_put_elem : core.

(** ** Steps of the macros *)

Lemma TAILQ_FIRST_ok m h a : h ≠ NULL → heads m !! h = Some a → TAILQ_FIRST h m = Ok (tqh_first a, m).
Proof. intros Hh Ha. unfold TAILQ_FIRST. by rewrite (st_bind_step _ _ _ _ _ (get_head_ok _ _ _ Hh Ha)). Qed.

Lemma get_last_ok m h a : h ≠ NULL → heads m !! h = Some a → get_last h m = Ok (tqh_last a, m).
Proof. intros Hh Ha. unfold get_last. by rewrite (st_bind_step _ _ _ _ _ (get_head_ok _ _ _ Hh Ha)). Qed.

Lemma TAILQ_NEXT_ok m n e : n ≠ NULL → elems m !! n = Some e → TAILQ_NEXT n m = Ok (tqe_next e, m).
Proof. intros Hn He. unfold TAILQ_NEXT. by rewrite (st_bind_step _ _ _ _ _ (get_elem_ok _ _ _ Hn He)). Qed.

Lemma get_prev_ok m n e : n ≠ NULL → elems m !! n = Some e → get_prev n m = Ok (tqe_prev e, m).
Proof. intros Hn He. unfold get_prev. by rewrite (st_bind_step _ _ _ _ _ (get_elem_ok _ _ _ Hn He)). Qed.

Lemma set_first_ok m h a p : h ≠ NULL → heads m !! h = Some a →
  set_first h p m = Ok (tt, mkQ (<[h:=mkHead p (tqh_last a)]> (heads m)) (elems m)).
Proof. intros Hh Ha. unfold set_first. by rewrite (st_bind_step _ _ _ _ _ (get_head_ok _ _ _ Hh Ha)). Qed.

Lemma set_last_ok m h a k : h ≠ NULL → heads m !! h = Some a →
  set_last h k m = Ok (tt, mkQ (<[h:=mkHead (tqh_first a) k]> (heads m)) (elems m)).
Proof. intros Hh Ha. unfold set_last. by rewrite (st_bind_step _ _ _ _ _ (get_head_ok _ _ _ Hh Ha)). Qed.

Lemma set_next_ok m n e p : n ≠ NULL → elems m !! n = Some e →
  set_next n p m = Ok (tt, mkQ (heads m) (<[n:=mkLinks p (tqe_prev e)]> (elems m))).
Proof. intros Hn He. unfold set_next. by rewrite (st_bind_step _ _ _ _ _ (get_elem_ok _ _ _ Hn He)). Qed.

Lemma set_prev_ok m n e k : n ≠ NULL → elems m !! n = Some e →
  set_prev n k m = Ok (tt, mkQ (heads m) (<[n:=mkLinks (tqe_next e) k]> (elems m))).
Proof. intros Hn He. unfold set_prev. by rewrite (st_bind_step _ _ _ _ _ (get_elem_ok _ _ _ Hn He)). Qed.

(** [*k = y] for the link [k] that ends the elements [l] of [h]. *)
Lemma store_spec m h l x y lk :
  h ≠ NULL → NULL ∉ l → NoDup l →
  heads m !! h = Some (mkHead (first_or l x) lk) → seg (elems m) (FirstOf h) l x →
  ∃ m', store (end_link (FirstOf h) l) y m = Ok (tt, m') ∧
    heads m' !! h = Some (mkHead (first_or l y) lk) ∧ seg (elems m') (FirstOf h) l y ∧
    frame [h] l m m'.
Proof.
  intros Hh Hnull Hnd Hhd Hs. destruct l as [|n l0 _] using rev_ind; simpl in *.
  - rewrite (set_first_ok m h _ y Hh Hhd). eexists. split; [done|]. simpl.
    rewrite lookup_insert_eq. split_and!; [done|done|by apply frame_put_head; left].
  - rewrite end_link_app in *. rewrite seg_app in Hs. simpl in *. destruct Hs as (Hs & Hn & _).
    apply list.NoDup_app in Hnd as (Hnd & Hd & _).
    assert (n ≠ NULL) as Hn0 by set_solver. rewrite (set_next_ok m n _ y Hn0 Hn).
    eexists. split; [done|]. simpl. rewrite first_or_app in *. simpl in *. split_and!; [done| |].
    + rewrite seg_app. simpl. rewrite lookup_insert_eq. split_and!; [|done..].
      apply seg_insert_ne; [|done]. intros Hin. apply (Hd n Hin). by left.
    + apply frame_put_elem. set_solver.
Qed.

(** The back pointer of the elements [l] that follow, moved from [k0] to [k]. *)
Lemma set_back_spec m h l a k0 k :
  h ≠ NULL → NULL ∉ l → NoDup l →
  heads m !! h = Some (mkHead a (end_link k0 l)) → seg (elems m) k0 l NULL →
  ∃ m', set_back h (first_or l NULL) k m = Ok (tt, m') ∧
    heads m' !! h = Some (mkHead a (end_link k l)) ∧ seg (elems m') k l NULL ∧
    frame [h] l m m'.
Proof.
  intros Hh Hnull Hnd Hhd Hs. unfold set_back. destruct l as [|n l]; simpl in *.
  - rewrite (set_last_ok m h _ k Hh Hhd). eexists. split; [done|]. simpl.
    rewrite lookup_insert_eq. split_and!; [done|done|by apply frame_put_head; left].
  - destruct Hs as [Hn Hs]. apply list.NoDup_cons in Hnd as [Hnl Hnd].
    destruct (Z.eqb_spec n NULL) as [->|Hn0]; [by destruct Hnull; left|]. simpl.
    rewrite (set_prev_ok m n _ k Hn0 Hn). eexists. split; [done|]. simpl.
    rewrite lookup_insert_eq. split_and!; [done|done|by apply seg_insert_ne|].
    apply frame_put_elem. set_solver.
Qed.

(** ** The macros refine the operations of lists *)

(** An element that can be inserted: allocated and in no queue of interest. *)
Definition spare (m : qmem) (e : Z) : Prop := e ≠ NULL ∧ is_Some (elems m !! e).

Lemma queue_insert m h l1 e l2 :
  h ≠ NULL → e ≠ NULL → e ∉ l1 ++ l2 → NULL ∉ l1 ++ l2 → NoDup (l1 ++ l2) →
  heads m !! h = Some (mkHead (first_or l1 e) (end_link (NextOf e) l2)) →
  seg (elems m) (FirstOf h) l1 e →
  elems m !! e = Some (mkLinks (first_or l2 NULL) (end_link (FirstOf h) l1)) →
  seg (elems m) (NextOf e) l2 NULL →
  queue m h (l1 ++ e :: l2).
Proof.
  intros Hh He Hel Hnull Hnd Hhd H1 Hee H2. split; [done|..].
  - by rewrite first_or_app, end_link_app.
  - rewrite elem_of_app, elem_of_cons in *. intros [?|[?|?]]; [tauto|congruence|tauto].
  - rewrite <-Permutation_middle. by constructor.
  - rewrite seg_app. simpl. auto.
Qed.

Lemma TAILQ_INIT_spec m h :
  h ≠ NULL → is_Some (heads m !! h) →
  ∃ m', TAILQ_INIT h m = Ok (tt, m') ∧ queue m' h [] ∧ frame [h] [] m m'.
Proof.
  intros Hh [a Ha]. unfold TAILQ_INIT. qstep (set_first_ok m h a NULL Hh Ha).
  rewrite (set_last_ok _ h _ (FirstOf h) Hh (lookup_insert_eq _ _ _)). eexists. split; [done|].
  simpl. split.
  - split; simpl; [done|by rewrite lookup_insert_eq|set_solver|constructor|done].
  - eapply frame_trans; [|apply (frame_put_head _ _ (mkQ _ _))]; [apply frame_put_head|]; by left.
Qed.

Lemma TAILQ_INSERT_TAIL_spec m h l e :
  queue m h l → spare m e → e ∉ l →
  ∃ m', TAILQ_INSERT_TAIL h e m = Ok (tt, m') ∧ queue m' h (l ++ [e]) ∧ frame [h] (e :: l) m m'.
Proof.
  intros [Hh Hhd Hnull Hnd Hs] [He [[nx pv] Hee]] Hel. unfold TAILQ_INSERT_TAIL.
  qstep (set_next_ok m e _ NULL He Hee).
  set (m1 := mkQ (heads m) _). qstep (get_last_ok m1 h _ Hh Hhd).
  qstep (set_prev_ok m1 e _ (end_link (FirstOf h) l) He (lookup_insert_eq _ _ _)).
  set (m2 := mkQ (heads m) _). qstep (get_last_ok m2 h _ Hh Hhd).
  destruct (store_spec m2 h l NULL e _ Hh Hnull Hnd Hhd) as (m3 & Hst & Hhd3 & Hs3 & Hf3).
  { by apply seg_insert_ne, seg_insert_ne. }
  qstep Hst. rewrite (set_last_ok m3 h _ _ Hh Hhd3). eexists. split; [done|]. split.
  - apply queue_insert; simpl; rewrite ?app_nil_r; try done; [by rewrite lookup_insert_eq|].
    rewrite (fr_elems _ _ _ _ Hf3) by done. simpl. by rewrite lookup_insert_eq.
  - apply (frame_trans _ _ _ m1); [apply frame_put_elem; by left|].
    apply (frame_trans _ _ _ m2); [apply (frame_put_elem _ _ m1); by left|].
    apply (frame_trans _ _ _ m3); [|by apply frame_put_head; left].
    apply (frame_weaken _ _ _ _ _ _ Hf3); [done|by right].
Qed.

Lemma frame_step_head hs l m H E h a :
  frame hs l m (mkQ H E) → h ∈ hs → frame hs l m (mkQ (<[h:=a]> H) E).
Proof.
  intros Hf Hh. eapply frame_trans; [exact Hf|]. by apply (frame_put_head _ _ (mkQ H E)).
Qed.

Lemma frame_step_elem hs l m H E n e :
  frame hs l m (mkQ H E) → n ∈ l → frame hs l m (mkQ H (<[n:=e]> E)).
Proof.
  intros Hf Hn. eapply frame_trans; [exact Hf|]. by apply (frame_put_elem _ _ (mkQ H E)).
Qed.

Lemma frame_eta hs l m m' : frame hs l m m' → frame hs l m (mkQ (heads m') (elems m')).
Proof. by destruct m'. Qed.

(** Chains the frames of the steps of a macro. *)
Ltac qframe_chain :=
  lazymatch goal with
  | |- frame _ _ ?m ?m => split; auto
  | |- frame _ _ _ (mkQ (<[_:=_]> _) _) => apply frame_step_head; [qframe_chain|set_solver]
  | |- frame _ _ _ (mkQ _ (<[_:=_]> _)) => apply frame_step_elem; [qframe_chain|set_solver]
  | |- frame _ _ _ (mkQ (heads ?m') (elems ?m')) => apply frame_eta; qframe_chain
  | H : frame _ _ ?m1 ?m' |- frame _ _ _ ?m' =>
    apply (frame_trans _ _ _ m1);
      [qframe_chain|apply (frame_weaken _ _ _ _ _ _ H); clear; set_solver]
  end.
Ltac qframe :=
  repeat match goal with x := mkQ _ _ |- _ => unfold x in *; clear x end; simpl;
  qframe_chain.

Lemma TAILQ_INSERT_HEAD_spec m h l e :
  queue m h l → spare m e → e ∉ l →
  ∃ m', TAILQ_INSERT_HEAD h e m = Ok (tt, m') ∧ queue m' h (e :: l) ∧ frame [h] (e :: l) m m'.
Proof.
  intros [Hh Hhd Hnull Hnd Hs] [He [[nx pv] Hee]] Hel. unfold TAILQ_INSERT_HEAD.
  qstep (TAILQ_FIRST_ok m h _ Hh Hhd). qstep (set_next_ok m e _ (first_or l NULL) He Hee).
  set (m1 := mkQ (heads m) _).
  destruct (set_back_spec m1 h l _ _ (NextOf e) Hh Hnull Hnd Hhd) as (m2 & Hst & Hhd2 & Hs2 & Hf2).
  { by apply seg_insert_ne. }
  qstep Hst. qstep (set_first_ok m2 h _ e Hh Hhd2).
  set (m3 := mkQ _ (elems m2)).
  assert (elems m3 !! e = Some (mkLinks (first_or l NULL) pv)) as He3.
  { simpl. rewrite (fr_elems _ _ _ _ Hf2) by done. apply lookup_insert_eq. }
  rewrite (set_prev_ok m3 e _ (FirstOf h) He He3). eexists. split; [done|]. split; [|qframe].
  apply (queue_insert _ h [] e l); simpl; try done.
  - by rewrite lookup_insert_eq.
  - by rewrite lookup_insert_eq.
  - by apply seg_insert_ne.
Qed.

Lemma TAILQ_INSERT_AFTER_spec m h l1 x l2 e :
  queue m h (l1 ++ x :: l2) → spare m e → e ∉ l1 ++ x :: l2 →
  ∃ m', TAILQ_INSERT_AFTER h x e m = Ok (tt, m') ∧ queue m' h (l1 ++ x :: e :: l2) ∧
        frame [h] (e :: l1 ++ x :: l2) m m'.
Proof.
  intros [Hh Hhd Hnull Hnd Hs] [He [[nx pv] Hee]] Hel. unfold TAILQ_INSERT_AFTER.
  rewrite first_or_app, end_link_app in Hhd. simpl in Hhd.
  apply seg_app in Hs as [H1 [Hx H2]]. simpl in *.
  assert (x ≠ NULL) as Hxn by set_solver. assert (x ≠ e) as Hxe by set_solver.
  assert (NULL ∉ l2 ∧ e ∉ l2 ∧ e ∉ l1) as (Hn2 & He2 & He1) by set_solver.
  pose proof Hnd as Hnd'. apply list.NoDup_app in Hnd' as (Hnd1 & Hd & [Hx2 Hnd2]%list.NoDup_cons).
  assert (x ∉ l1) as Hx1 by (intros Hin; apply (Hd x Hin); by left).
  qstep (TAILQ_NEXT_ok m x _ Hxn Hx). qstep (set_next_ok m e _ (first_or l2 NULL) He Hee).
  set (m1 := mkQ (heads m) _).
  destruct (set_back_spec m1 h l2 _ (NextOf x) (NextOf e) Hh Hn2 Hnd2 Hhd)
    as (m2 & Hst & Hhd2 & Hs2 & Hf2).
  { by apply seg_insert_ne. }
  qstep Hst.
  assert (elems m2 !! x = Some (mkLinks (first_or l2 NULL) (end_link (FirstOf h) l1))) as Hx2'.
  { rewrite (fr_elems _ _ _ _ Hf2) by done. simpl. by rewrite lookup_insert_ne. }
  qstep (set_next_ok m2 x _ e Hxn Hx2'). set (m3 := mkQ (heads m2) _).
  assert (elems m3 !! e = Some (mkLinks (first_or l2 NULL) pv)) as He3.
  { simpl. rewrite lookup_insert_ne, (fr_elems _ _ _ _ Hf2) by done. apply lookup_insert_eq. }
  rewrite (set_prev_ok m3 e _ (NextOf x) He He3). eexists. split; [done|]. split; [|qframe].
  change (queue (mkQ (heads m3) (<[e:=mkLinks (first_or l2 NULL) (NextOf x)]> (elems m3))) h
    (l1 ++ [x] ++ e :: l2)).
  rewrite app_assoc. apply queue_insert; rewrite <-?app_assoc; simpl; try done.
  - by rewrite first_or_app.
  - rewrite seg_app. simpl. rewrite lookup_insert_ne, lookup_insert_eq by done.
    split_and!; [|done..]. do 2 (apply seg_insert_ne; [done|]).
    eapply seg_frame; [exact Hf2| |by apply seg_insert_ne]. intros n Hn Hn'.
    apply (Hd n Hn). by right.
  - rewrite lookup_insert_eq, end_link_app. done.
  - by do 2 (apply seg_insert_ne; [done|]).
Qed.

(** A queue cut at one of its elements. *)
Lemma queue_cut m h l1 x l2 :
  queue m h (l1 ++ x :: l2) →
  h ≠ NULL ∧ x ≠ NULL ∧ heads m !! h = Some (mkHead (first_or l1 x) (end_link (NextOf x) l2)) ∧
  seg (elems m) (FirstOf h) l1 x ∧
  elems m !! x = Some (mkLinks (first_or l2 NULL) (end_link (FirstOf h) l1)) ∧
  seg (elems m) (NextOf x) l2 NULL ∧
  (NULL ∉ l1 ∧ NULL ∉ l2) ∧ (NoDup l1 ∧ NoDup l2) ∧ (x ∉ l1 ∧ x ∉ l2) ∧
  ∀ n, n ∈ l1 → n ∉ l2.
Proof.
  intros [Hh Hhd Hnull Hnd Hs]. rewrite first_or_app, end_link_app in Hhd.
  apply seg_app in Hs as [H1 [Hx H2]].
  apply list.NoDup_app in Hnd as (Hnd1 & Hd & [Hx2 Hnd2]%list.NoDup_cons).
  rewrite elem_of_app, elem_of_cons in Hnull. split_and!; try done; try tauto.
  - intros ->. tauto.
  - intros Hin. apply (Hd x Hin). by left.
  - intros n Hn Hn2. apply (Hd n Hn). by right.
Qed.

Lemma TAILQ_INSERT_BEFORE_spec m h l1 x l2 e :
  queue m h (l1 ++ x :: l2) → spare m e → e ∉ l1 ++ x :: l2 →
  ∃ m', TAILQ_INSERT_BEFORE x e m = Ok (tt, m') ∧ queue m' h (l1 ++ e :: x :: l2) ∧
        frame [h] (e :: l1 ++ x :: l2) m m'.
Proof.
  intros Hq [He [[nx pv] Hee]] Hel. unfold TAILQ_INSERT_BEFORE.
  pose proof (queue_cut _ _ _ _ _ Hq) as
    (Hh & Hxn & Hhd & H1 & Hx & H2 & [Hn1 Hn2] & [Hnd1 Hnd2] & [Hx1 Hx2] & Hd).
  assert (x ≠ e ∧ e ∉ l1 ∧ e ∉ l2) as (Hxe & He1 & He2) by set_solver.
  qstep (get_prev_ok m x _ Hxn Hx). set (k := end_link (FirstOf h) l1) in *.
  qstep (set_prev_ok m e _ k He Hee). set (m1 := mkQ (heads m) _).
  qstep (set_next_ok m1 e _ x He (lookup_insert_eq _ _ _)). set (m2 := mkQ (heads m) _).
  assert (elems m2 !! x = Some (mkLinks (first_or l2 NULL) k)) as Hx2'.
  { simpl. by rewrite !lookup_insert_ne. }
  qstep (get_prev_ok m2 x _ Hxn Hx2').
  destruct (store_spec m2 h l1 x e _ Hh Hn1 Hnd1 Hhd) as (m3 & Hst & Hhd3 & Hs3 & Hf3).
  { by do 2 (apply seg_insert_ne; [done|]). }
  qstep Hst.
  assert (elems m3 !! x = Some (mkLinks (first_or l2 NULL) k)) as Hx3.
  { by rewrite (fr_elems _ _ _ _ Hf3). }
  rewrite (set_prev_ok m3 x _ (NextOf e) Hxn Hx3). eexists. split; [done|]. split; [|qframe].
  destruct Hq as [_ _ Hnull Hnd _]. apply queue_insert; simpl; try done.
  - by apply seg_insert_ne.
  - rewrite lookup_insert_ne, (fr_elems _ _ _ _ Hf3) by done. simpl. by rewrite lookup_insert_eq.
  - rewrite lookup_insert_eq. split; [done|]. apply seg_insert_ne; [done|].
    eapply seg_frame; [exact Hf3| |by do 2 (apply seg_insert_ne; [done|])]. intros n Hn Hn'. by apply (Hd n).
Qed.

Lemma TAILQ_REMOVE_spec m h l1 e l2 :
  queue m h (l1 ++ e :: l2) →
  ∃ m', TAILQ_REMOVE h e m = Ok (tt, m') ∧ queue m' h (l1 ++ l2) ∧ frame [h] (l1 ++ l2) m m'.
Proof.
  intros Hq. unfold TAILQ_REMOVE. pose proof (queue_cut _ _ _ _ _ Hq) as
    (Hh & Hen & Hhd & H1 & He & H2 & [Hn1 Hn2] & [Hnd1 Hnd2] & [He1 He2] & Hd).
  qstep (TAILQ_NEXT_ok m e _ Hen He). qstep (get_prev_ok m e _ Hen He).
  destruct (set_back_spec m h l2 _ (NextOf e) (end_link (FirstOf h) l1)
    Hh Hn2 Hnd2 Hhd H2)
    as (m2 & Hst & Hhd2 & Hs2 & Hf2).
  qstep Hst.
  assert (elems m2 !! e = Some (mkLinks (first_or l2 NULL) (end_link (FirstOf h) l1))) as He2'.
  { by rewrite (fr_elems _ _ _ _ Hf2). }
  qstep (get_prev_ok m2 e _ Hen He2'). qstep (TAILQ_NEXT_ok m2 e _ Hen He2').
  destruct (store_spec m2 h l1 e (first_or l2 NULL) _ Hh Hn1 Hnd1 Hhd2)
    as (m3 & -> & Hhd3 & Hs3 & Hf3).
  { eapply seg_frame; [exact Hf2|exact Hd|done]. }
  exists m3. split; [done|]. split.
  - split; [done|..].
    + by rewrite first_or_app, end_link_app.
    + set_solver.
    + apply list.NoDup_app. split_and!; auto.
    + apply seg_app. split; [done|].
      eapply seg_frame; [exact Hf3| |exact Hs2]. intros n Hn Hn'. by apply (Hd n).
  - apply (frame_trans _ _ _ m2).
    + apply (frame_weaken _ _ _ _ _ _ Hf2); set_solver.
    + apply (frame_weaken _ _ _ _ _ _ Hf3); set_solver.
Qed.

Lemma queue_frame m m' h l hs ls :
  frame hs ls m m' → h ∉ hs → (∀ n, n ∈ l → n ∉ ls) → queue m h l → queue m' h l.
Proof.
  intros Hf Hh Hl [H1 H2 H3 H4 H5]. split; try done.
  - by rewrite (fr_heads _ _ _ _ Hf).
  - by eapply seg_frame.
Qed.

Lemma TAILQ_CONCAT_spec m h1 h2 l1 l2 :
  queue m h1 l1 → queue m h2 l2 → h1 ≠ h2 → (∀ n, n ∈ l1 → n ∉ l2) →
  ∃ m', TAILQ_CONCAT h1 h2 m = Ok (tt, m') ∧ queue m' h1 (l1 ++ l2) ∧ queue m' h2 [] ∧
        frame [h1; h2] (l1 ++ l2) m m'.
Proof.
  intros Hq1 Hq2 Hne Hd. unfold TAILQ_CONCAT, TAILQ_EMPTY.
  destruct Hq1 as [Hh1 Hhd1 Hnull1 Hnd1 Hs1] eqn:E1. clear E1.
  destruct Hq2 as [Hh2 Hhd2 Hnull2 Hnd2 Hs2] eqn:E2. clear E2.
  assert ((p ← TAILQ_FIRST h2; mret (p =? NULL)) m = Ok (first_or l2 NULL =? NULL, m)) as Hem.
  { by qstep (TAILQ_FIRST_ok m h2 _ Hh2 Hhd2). }
  qstep Hem. destruct l2 as [|n l2]; simpl in *.
  { exists m. rewrite app_nil_r. by split_and!. }
  destruct (Z.eqb_spec n NULL) as [->|Hn0]; [by destruct Hnull2; left|]. simpl.
  destruct Hs2 as [Hn Hs2]. apply list.NoDup_cons in Hnd2 as [Hnl2 Hnd2].
  assert (n ∉ l1) as Hn1 by (intros Hin; apply (Hd n Hin); by left).
  qstep (get_last_ok m h1 _ Hh1 Hhd1). qstep (TAILQ_FIRST_ok m h2 _ Hh2 Hhd2).
  destruct (store_spec m h1 l1 NULL n _ Hh1 Hnull1 Hnd1 Hhd1 Hs1) as (m1 & Hst & Hhd1' & Hs1' & Hf1).
  qstep Hst. qstep (get_last_ok m1 h1 _ Hh1 Hhd1').
  assert (elems m1 !! n = Some (mkLinks (first_or l2 NULL) (FirstOf h2))) as Hnm1.
  { by rewrite (fr_elems _ _ _ _ Hf1). }
  qstep (set_prev_ok m1 n _ (end_link (FirstOf h1) l1) Hn0 Hnm1). set (m2 := mkQ (heads m1) _).
  assert (heads m2 !! h2 = Some (mkHead n (end_link (NextOf n) l2))) as Hhd2'.
  { simpl. rewrite (fr_heads _ _ _ _ Hf1) by set_solver. done. }
  qstep (get_last_ok m2 h2 _ Hh2 Hhd2'). qstep (set_last_ok m2 h1 _ (end_link (NextOf n) l2) Hh1 Hhd1').
  set (m3 := mkQ (<[h1:=_]> (heads m1)) _).
  destruct (TAILQ_INIT_spec m3 h2 Hh2) as (m4 & Hi & Hq4 & Hf4).
  { simpl. rewrite lookup_insert_ne by done. by eexists. }
  rewrite Hi. exists m4. split; [done|]. split; [|split; [done|]].
  - apply (queue_frame m3 _ _ _ _ _ Hf4); [set_solver|set_solver|].
    apply queue_insert; simpl; try done.
    + set_solver.
    + set_solver.
    + apply list.NoDup_app. split_and!; [done| |done]. intros z Hz Hz2. apply (Hd z Hz). by right.
    + by rewrite lookup_insert_eq.
    + by apply seg_insert_ne.
    + by rewrite lookup_insert_eq.
    + apply seg_insert_ne; [done|]. eapply seg_frame; [exact Hf1| |done].
      intros z Hz Hz1. apply (Hd z Hz1). by right.
  - qframe.
Qed.

Lemma TAILQ_SWAP_spec m h1 h2 l1 l2 :
  queue m h1 l1 → queue m h2 l2 → h1 ≠ h2 → (∀ n, n ∈ l1 → n ∉ l2) →
  ∃ m', TAILQ_SWAP h1 h2 m = Ok (tt, m') ∧ queue m' h1 l2 ∧ queue m' h2 l1 ∧
        frame [h1; h2] (l1 ++ l2) m m'.
Proof.
  intros [Hh1 Hhd1 Hnull1 Hnd1 Hs1] [Hh2 Hhd2 Hnull2 Hnd2 Hs2] Hne Hd. unfold TAILQ_SWAP.
  qstep (TAILQ_FIRST_ok m h1 _ Hh1 Hhd1). qstep (get_last_ok m h1 _ Hh1 Hhd1).
  qstep (TAILQ_FIRST_ok m h2 _ Hh2 Hhd2). qstep (set_first_ok m h1 _ (first_or l2 NULL) Hh1 Hhd1).
  set (m1 := mkQ _ (elems m)).
  assert (heads m1 !! h2 = heads m !! h2) as E2 by (simpl; by rewrite lookup_insert_ne).
  rewrite Hhd2 in E2. qstep (get_last_ok m1 h2 _ Hh2 E2).
  qstep (set_last_ok m1 h1 _ (end_link (FirstOf h2) l2) Hh1 (lookup_insert_eq _ _ _)).
  set (m2 := mkQ _ (elems m)).
  assert (heads m2 !! h2 = heads m !! h2) as E3 by (simpl; by rewrite !lookup_insert_ne).
  rewrite Hhd2 in E3. qstep (set_first_ok m2 h2 _ (first_or l1 NULL) Hh2 E3).
  set (m3 := mkQ _ (elems m)).
  qstep (set_last_ok m3 h2 _ (end_link (FirstOf h1) l1) Hh2 (lookup_insert_eq _ _ _)).
  set (m4 := mkQ _ (elems m)).
  assert (heads m4 !! h1 = Some (mkHead (first_or l2 NULL) (end_link (FirstOf h2) l2))) as E4.
  { simpl. rewrite !(lookup_insert_ne _ h2 h1) by done. by rewrite lookup_insert_eq. }
  qstep (TAILQ_FIRST_ok m4 h1 _ Hh1 E4).
  destruct (set_back_spec m4 h1 l2 _ _ (FirstOf h1) Hh1 Hnull2 Hnd2 E4 Hs2)
    as (m5 & Hst5 & Hhd5 & Hs5 & Hf5). qstep Hst5.
  assert (heads m5 !! h2 = Some (mkHead (first_or l1 NULL) (end_link (FirstOf h1) l1))) as E5.
  { rewrite (fr_heads _ _ _ _ Hf5) by set_solver. simpl. by rewrite lookup_insert_eq. }
  qstep (TAILQ_FIRST_ok m5 h2 _ Hh2 E5).
  destruct (set_back_spec m5 h2 l1 _ _ (FirstOf h2) Hh2 Hnull1 Hnd1 E5)
    as (m6 & -> & Hhd6 & Hs6 & Hf6).
  { by apply (seg_frame _ _ m4 _ _ _ _ Hf5). }
  exists m6. split; [done|]. split_and!; [|by split|qframe].
  apply (queue_frame m5 _ _ _ _ _ Hf6); [set_solver|set_solver|by split].
Qed.

(** ** The reads *)

Lemma TAILQ_FIRST_spec m h l : queue m h l → TAILQ_FIRST h m = Ok (first_or l NULL, m).
Proof. intros [Hh Hhd _ _ _]. by rewrite (TAILQ_FIRST_ok m h _ Hh Hhd). Qed.

Lemma TAILQ_EMPTY_spec m h l :
  queue m h l → TAILQ_EMPTY h m = Ok (bool_decide (l = []), m).
Proof.
  intros Hq. unfold TAILQ_EMPTY. qstep (TAILQ_FIRST_spec m h l Hq).
  destruct l as [|n l]; [done|]. simpl.
  destruct (Z.eqb_spec n NULL) as [->|Hn]; [|done].
  destruct (qu_null _ _ _ Hq). by left.
Qed.

Lemma TAILQ_NEXT_spec m h l1 n l2 :
  queue m h (l1 ++ n :: l2) → TAILQ_NEXT n m = Ok (first_or l2 NULL, m).
Proof.
  intros (_ & Hn & _ & _ & He & _)%queue_cut. by rewrite (TAILQ_NEXT_ok m n _ Hn He).
Qed.

(** The element before a link that ends the prefix [l1] of a queue: its second
    field leads to the link before it. *)
Lemma before_link m h l1 x lk :
  h ≠ NULL → NULL ∉ l1 → heads m !! h = Some (mkHead (first_or l1 x) lk) →
  seg (elems m) (FirstOf h) l1 x → l1 ≠ [] →
  (k' ← second_field (end_link (FirstOf h) l1); load k') m =
  Ok (default NULL (list.last l1), m).
Proof.
  intros Hh Hnull Hhd Hs Hne. destruct l1 as [|n l0 _] using rev_ind; [done|].
  rewrite end_link_app, last_snoc. simpl. apply seg_app in Hs as [Hs [Hn _]]. simpl in *.
  assert (n ≠ NULL) as Hn0 by set_solver. rewrite (st_bind_step _ _ _ _ _ (get_prev_ok m n _ Hn0 Hn)).
  simpl. destruct l0 as [|n' l0 _] using rev_ind; simpl.
  - by rewrite (TAILQ_FIRST_ok m h _ Hh Hhd).
  - rewrite end_link_app. simpl. apply seg_app in Hs as [_ [Hn' _]].
    assert (n' ≠ NULL) as Hn0' by set_solver. by rewrite (TAILQ_NEXT_ok m n' _ Hn0' Hn').
Qed.

Lemma load_end m h l x lk :
  h ≠ NULL → NULL ∉ l → heads m !! h = Some (mkHead (first_or l x) lk) →
  seg (elems m) (FirstOf h) l x → load (end_link (FirstOf h) l) m = Ok (x, m).
Proof.
  intros Hh Hnull Hhd Hs. destruct l as [|n l0 _] using rev_ind; simpl.
  - by rewrite (TAILQ_FIRST_ok m h _ Hh Hhd).
  - rewrite end_link_app. apply seg_app in Hs as [_ [Hn _]]. simpl in *.
    assert (n ≠ NULL) as Hn0 by set_solver. by rewrite (TAILQ_NEXT_ok m n _ Hn0 Hn).
Qed.

Lemma TAILQ_LAST_spec m h l :
  queue m h l → TAILQ_LAST h m = Ok (default NULL (list.last l), m).
Proof.
  intros [Hh Hhd Hnull _ Hs]. unfold TAILQ_LAST. qstep (get_last_ok m h _ Hh Hhd).
  destruct (decide (l = [])) as [->|Hne]; [|by eapply before_link].
  simpl. qstep (get_last_ok m h _ Hh Hhd). by rewrite (TAILQ_FIRST_ok m h _ Hh Hhd).
Qed.

Lemma TAILQ_PREV_spec m h l1 n l2 :
  queue m h (l1 ++ n :: l2) → TAILQ_PREV n m = Ok (default NULL (list.last l1), m).
Proof.
  intros Hq. pose proof (queue_cut _ _ _ _ _ Hq) as
    (Hh & Hn & Hhd & H1 & He & H2 & [Hn1 Hn2] & _).
  unfold TAILQ_PREV. qstep (get_prev_ok m n _ Hn He).
  destruct (decide (l1 = [])) as [->|Hne]; [|by eapply before_link].
  simpl. qstep (get_last_ok m h _ Hh Hhd).
  destruct Hq as [_ Hhd' Hnull _ Hs]. exact (load_end m h (n :: l2) NULL _ Hh Hnull Hhd' Hs).
Qed.

Lemma seg_elems E k l q n : seg E k l q → n ∈ l → is_Some (E !! n).
Proof.
  revert k. induction l as [|x l IH]; intros k; simpl; [by intros _ ?%elem_of_nil|].
  intros [Hx Hs] [->|Hn]%elem_of_cons; [by rewrite Hx|by eapply IH].
Qed.

Lemma set_back_elem h nx k m m' n :
  set_back h nx k m = Ok (tt, m') → n ≠ nx → elems m' !! n = elems m !! n.
Proof.
  intros Hb Hn. unfold set_back in Hb. destruct (negb (nx =? NULL)).
  - apply st_bind_ok in Hb as (e & m1 & He & Hp). unfold get_elem in He.
    destruct (lookup_at _ nx); [|done]. injection He as <- <-. injection Hp as <-.
    simpl. by apply lookup_insert_ne.
  - apply st_bind_ok in Hb as (a & m1 & Ha & Hp). unfold get_head in Ha.
    destruct (lookup_at _ h); [|done]. injection Ha as <- <-. by injection Hp as <-.
Qed.

(** The two writes of a removal. *)
Lemma TAILQ_REMOVE_writes m h l1 e l2 m' :
  queue m h (l1 ++ e :: l2) → TAILQ_REMOVE h e m = Ok (tt, m') →
  ∃ m1, set_back h (first_or l2 NULL) (end_link (FirstOf h) l1) m = Ok (tt, m1) ∧
        store (end_link (FirstOf h) l1) (first_or l2 NULL) m1 = Ok (tt, m') ∧
        elems m1 !! e = elems m !! e.
Proof.
  intros (_ & He & _ & _ & Hel & _ & _ & _ & [_ Hel2] & _)%queue_cut. unfold TAILQ_REMOVE.
  qstep (TAILQ_NEXT_ok m e _ He Hel). qstep (get_prev_ok m e _ He Hel).
  intros ([] & m1 & Hb & Hr)%st_bind_ok. exists m1. split; [done|].
  assert (elems m1 !! e = elems m !! e) as Hel1.
  { apply (set_back_elem _ _ _ _ _ _ Hb). destruct l2; simpl; [done|set_solver]. }
  rewrite Hel in Hel1.
  rewrite (st_bind_step _ _ _ _ _ (get_prev_ok m1 e _ He Hel1)) in Hr.
  rewrite (st_bind_step _ _ _ _ _ (TAILQ_NEXT_ok m1 e _ He Hel1)) in Hr.
  split; [done|congruence].
Qed.

Lemma store_keeps_last k p m m' h :
  store k p m = Ok (tt, m') → tqh_last <$> heads m' !! h = tqh_last <$> heads m !! h.
Proof.
  destruct k as [h0|n0]; simpl.
  - intros (a & m1 & Ha & Hp)%st_bind_ok. unfold get_head, lookup_at in Ha.
    destruct (h0 =? NULL); [done|]. destruct (heads m !! h0) as [a'|] eqn:E; [|done].
    injection Ha as <- <-. injection Hp as <-. simpl.
    destruct (decide (h0 = h)) as [->|]; [|by rewrite lookup_insert_ne].
    by rewrite lookup_insert_eq, E.
  - intros (e & m1 & He & Hp)%st_bind_ok. unfold get_elem in He.
    destruct (lookup_at _ n0); [|done]. injection He as <- <-. by injection Hp as <-.
Qed.

Lemma set_prev_keeps_heads n k m m' : set_prev n k m = Ok (tt, m') → heads m' = heads m.
Proof.
  intros (e & m1 & He & Hp)%st_bind_ok. unfold get_elem in He.
  destruct (lookup_at _ n); [|done]. injection He as <- <-. by injection Hp as <-.
Qed.

Lemma get_last_eq m h k : h ≠ NULL → tqh_last <$> heads m !! h = Some k → get_last h m = Ok (k, m).
Proof.
  intros Hh (a & Ha & ->)%fmap_Some. by rewrite (get_last_ok m h a).
Qed.

(** Reads that the write of another element's links does not change. *)
Lemma FIRST_kept h f m m1 n p m2 :
  TAILQ_FIRST h m = Ok (f, m1) → set_next n p m1 = Ok (tt, m2) → TAILQ_FIRST h m2 = Ok (f, m2).
Proof.
  unfold TAILQ_FIRST, set_next, mbind, st_bind, get_head, get_elem.
  destruct (lookup_at (heads m) h) as [a|] eqn:Ea; [|done]. intros [= <- <-].
  destruct (lookup_at (elems m) n); [|done]. intros [= <-]. simpl. by rewrite Ea.
Qed.

Lemma NEXT_kept x nx m m1 n p m2 :
  TAILQ_NEXT x m = Ok (nx, m1) → set_next n p m1 = Ok (tt, m2) → x ≠ n →
  TAILQ_NEXT x m2 = Ok (nx, m2).
Proof.
  unfold TAILQ_NEXT, set_next, mbind, st_bind, get_elem, lookup_at.
  destruct (x =? NULL); [done|]. destruct (elems m !! x) as [e|] eqn:Ee; [|done].
  intros [= <- <-]. destruct (n =? NULL); [done|]. destruct (elems m !! n); [|done].
  intros [= <-] Hx. simpl. by rewrite lookup_insert_ne, Ee.
Qed.

(** The writes of a concatenation. *)
Lemma TAILQ_CONCAT_writes m h1 h2 l1 l2 m' :
  queue m h1 l1 → queue m h2 l2 → TAILQ_CONCAT h1 h2 m = Ok (tt, m') →
  match l2 with
  | [] => m' = m
  | n :: _ => (store (end_link (FirstOf h1) l1) n ;;;
      set_prev n (end_link (FirstOf h1) l1) ;;;
      set_last h1 (end_link (FirstOf h2) l2) ;;; TAILQ_INIT h2) m = Ok (tt, m')
  end.
Proof.
  intros Hq1 Hq2. unfold TAILQ_CONCAT. qstep (TAILQ_EMPTY_spec m h2 l2 Hq2).
  destruct l2 as [|n l2].
  { rewrite bool_decide_eq_true_2 by done. simpl. by intros [= <-]. }
  rewrite bool_decide_eq_false_2 by done. cbn [negb].
  assert (∀ m0, tqh_last <$> heads m0 !! h1 = tqh_last <$> heads m !! h1 →
    get_last h1 m0 = Ok (end_link (FirstOf h1) l1, m0)) as G1.
  { intros m0 E. apply get_last_eq; [apply Hq1|]. by rewrite E, (qu_links _ _ _ Hq1). }
  assert (∀ m0, tqh_last <$> heads m0 !! h2 = tqh_last <$> heads m !! h2 →
    get_last h2 m0 = Ok (end_link (FirstOf h2) (n :: l2), m0)) as G2.
  { intros m0 E. apply get_last_eq; [apply Hq2|]. by rewrite E, (qu_links _ _ _ Hq2). }
  qstep (G1 m eq_refl). qstep (TAILQ_FIRST_spec m h2 _ Hq2).
  intros ([] & m1 & H1 & H)%st_bind_ok. pose proof (store_keeps_last _ _ _ _ h1 H1) as E1.
  pose proof (store_keeps_last _ _ _ _ h2 H1) as E2.
  rewrite (st_bind_step _ _ _ _ _ (G1 m1 E1)) in H.
  apply st_bind_ok in H as ([] & m2 & H2 & H). pose proof (set_prev_keeps_heads _ _ _ _ H2) as Eh.
  rewrite (st_bind_step _ _ _ _ _ (G2 m2 ltac:(by rewrite Eh))) in H.
  rewrite (st_bind_step _ _ _ _ _ H1), (st_bind_step _ _ _ _ _ H2). exact H.
Qed.

(** The iterations allowed to the loops are enough. *)
Lemma queue_size m h l : queue m h l → (length l ≤ size (elems m))%nat.
Proof.
  intros [_ _ _ Hnd Hs]. rewrite <-(size_list_to_set (C:=gset Z) l) by done.
  rewrite <-size_dom. apply subseteq_size. intros n Hn%elem_of_list_to_set.
  apply elem_of_dom. by eapply seg_elems.
Qed.

(** The part of a queue after some of its elements. *)
Lemma queue_rest m h l1 l2 : queue m h (l1 ++ l2) → NULL ∉ l2 ∧ NoDup l2.
Proof. intros [_ _ Hnull [_ [_ Hnd]]%list.NoDup_app _]. split; [set_solver|done]. Qed.

Lemma queue_first_null m h l : queue m h l → first_or l NULL = NULL → queue m h [].
Proof.
  intros Hq E. destruct l as [|n l]; [done|]. simpl in E. subst.
  by apply (queue_cut _ _ []) in Hq as (_ & ? & _).
Qed.

Lemma queue_first_nonnull m h l x :
  queue m h (l ++ [x]) → (first_or (l ++ [x]) NULL =? NULL) = false.
Proof.
  intros Hq. apply Z.eqb_neq. intros E. apply (queue_first_null _ _ _ Hq), qu_links in E as E'.
  apply qu_links in Hq. rewrite E' in Hq. injection Hq as _ Hq.
  rewrite end_link_app in Hq. done.
Qed.

(** The checks never panic on a queue. *)
Lemma tailq_checks_pass m h l :
  queue m h l →
  QMD_TAILQ_CHECK_HEAD h m = Ok (true, m) ∧ QMD_TAILQ_CHECK_TAIL h m = Ok (true, m) ∧
  ∀ n, n ∈ l → QMD_TAILQ_CHECK_NEXT n m = Ok (true, m) ∧ QMD_TAILQ_CHECK_PREV n m = Ok (true, m).
Proof.
  intros Hq. split_and!.
  - unfold QMD_TAILQ_CHECK_HEAD. qstep (TAILQ_EMPTY_spec m h l Hq). destruct l as [|n l]; [done|].
    rewrite bool_decide_eq_false_2 by done. cbn [negb]. qstep (TAILQ_FIRST_spec m h _ Hq).
    apply (queue_cut _ _ []) in Hq as (_ & Hn & _ & _ & He & _). qstep (get_prev_ok m n _ Hn He).
    by rewrite bool_decide_eq_true_2.
  - unfold QMD_TAILQ_CHECK_TAIL. pose proof (qu_links _ _ _ Hq) as Hhd.
    qstep (get_last_ok m h _ (qu_head _ _ _ Hq) Hhd).
    destruct Hq as [Hh _ Hnull _ Hs]. qstep (load_end m h l NULL _ Hh Hnull Hhd Hs). done.
  - intros n (l1 & l2 & ->)%list_elem_of_split.
    pose proof (queue_cut _ _ _ _ _ Hq) as (Hh & Hn & Hhd & Hs & He & Hs2 & [Hn1 Hn2] & _). split.
    + unfold QMD_TAILQ_CHECK_NEXT. qstep (TAILQ_NEXT_ok m n _ Hn He). destruct l2 as [|y l2]; [done|].
      simpl. destruct (Z.eqb_spec y NULL) as [|Hy]; [done|]. simpl. destruct Hs2 as [Hy2 _].
      qstep (get_prev_ok m y _ Hy Hy2). by rewrite bool_decide_eq_true_2.
    + unfold QMD_TAILQ_CHECK_PREV. qstep (get_prev_ok m n _ Hn He).
      qstep (load_end m h l1 n _ Hh Hn1 Hhd Hs). by rewrite Z.eqb_refl.
Qed.

Lemma head_initializer_empty m h :
  h ≠ NULL → queue (mkQ (<[h:=TAILQ_HEAD_INITIALIZER h]> (heads m)) (elems m)) h [].
Proof. intros Hh. split; simpl; [done|by rewrite lookup_insert_eq|set_solver|by apply list.NoDup_nil|done]. Qed.

(** ** Several queues *)

Lemma disjoint_insert A h l :
  disjoint_lists A → (∀ n h' l', n ∈ l → A !! h' = Some l' → h' ≠ h → n ∉ l') →
  disjoint_lists (<[h:=l]> A).
Proof.
  intros HA Hl h1 h2 l1 l2 n H1 H2 Hn1 Hn2.
  apply lookup_insert_Some in H1 as [[<- <-]|[Hh1 H1]];
    apply lookup_insert_Some in H2 as [[<- <-]|[Hh2 H2]]; try done.
  - by destruct (Hl n h2 l2 Hn1 H2 (not_eq_sym Hh2)).
  - by destruct (Hl n h1 l1 Hn2 H1 (not_eq_sym Hh1)).
  - by eapply HA.
Qed.

Lemma remove_elem_app l1 x l2 : x ∉ l1 → remove_elem x (l1 ++ x :: l2) = l1 ++ l2.
Proof.
  induction l1 as [|y l1 IH]; simpl; intros Hx.
  - by rewrite Z.eqb_refl.
  - apply not_elem_of_cons in Hx as [Hy Hx]. destruct (Z.eqb_spec y x); [congruence|].
    by rewrite IH.
Qed.

Lemma insert_after_app l1 x e l2 :
  x ∉ l1 → insert_after x e (l1 ++ x :: l2) = l1 ++ x :: e :: l2.
Proof.
  induction l1 as [|y l1 IH]; simpl; intros Hx.
  - by rewrite Z.eqb_refl.
  - apply not_elem_of_cons in Hx as [Hy Hx]. destruct (Z.eqb_spec y x); [congruence|].
    by rewrite IH.
Qed.

Lemma insert_before_app l1 x e l2 :
  x ∉ l1 → insert_before x e (l1 ++ x :: l2) = l1 ++ e :: x :: l2.
Proof.
  induction l1 as [|y l1 IH]; simpl; intros Hx.
  - by rewrite Z.eqb_refl.
  - apply not_elem_of_cons in Hx as [Hy Hx]. destruct (Z.eqb_spec y x); [congruence|].
    by rewrite IH.
Qed.

Lemma queue_find m h l x :
  queue m h l → x ∈ l → ∃ l1 l2, l = l1 ++ x :: l2 ∧ x ∉ l1.
Proof.
  intros Hq (l1 & l2 & ->)%list_elem_of_split. exists l1, l2.
  by apply queue_cut in Hq as (_ & _ & _ & _ & _ & _ & _ & _ & [? _] & _).
Qed.

(** ** Elements removed and freed *)

(** A queue without one of its elements, which is freed. *)
Lemma remove_free_spec m h l1 e l2 :
  queue m h (l1 ++ e :: l2) →
  ∃ m', (TAILQ_REMOVE h e ;;; free_elem e) m = Ok (tt, m') ∧ queue m' h (l1 ++ l2) ∧
        elems m' !! e = None.
Proof.
  intros Hq. destruct (TAILQ_REMOVE_spec m h l1 e l2 Hq) as (m1 & Hr & Hq1 & Hf).
  apply queue_cut in Hq as (_ & He & _ & _ & Hel & _ & _ & _ & [He1 He2] & _).
  assert (e ∉ l1 ++ l2) as Hn by set_solver.
  qstep Hr. unfold free_elem. destruct (Z.eqb_spec e NULL); [done|].
  rewrite (fr_elems _ _ _ _ Hf) by done. rewrite Hel. eexists. split; [done|]. simpl.
  split; [|apply lookup_delete_eq].
  destruct Hq1 as [H1 H2 H3 H4 H5]. split; try done. simpl.
  eapply seg_ext; [|exact H5]. intros x Hx. apply lookup_delete_ne. by intros ->.
Qed.

(** A loop body that removes and frees the elements chosen by [P]. *)
Definition drop_if (P : Z → bool) (h x : Z) : st qmem unit :=
  if P x then TAILQ_REMOVE h x ;;; free_elem x else mret tt.

Lemma drop_if_step P m h k x l :
  queue m h (k ++ x :: l) → ∃ m', drop_if P h x m = Ok (tt, m') ∧
    queue m' h ((if P x then k else k ++ [x]) ++ l).
Proof.
  intros Hq. unfold drop_if. destruct (P x).
  - destruct (remove_free_spec m h k x l Hq) as (m' & ? & ? & _). eauto.
  - exists m. by rewrite <-app_assoc.
Qed.

(** The plain loop reads the element that its body has freed. *)
Lemma foreach_drop_faults P n m h k r x :
  queue m h (k ++ r) → (length r ≤ n)%nat → x ∈ r → P x = true →
  foreach_loop id n TAILQ_NEXT (drop_if P h) (first_or r NULL) m = Fault UseAfterFree.
Proof.
  revert k r. induction n as [|n IH]; intros k r Hq Hn Hx HP.
  { destruct r; [by apply elem_of_nil in Hx|simpl in Hn; lia]. }
  destruct r as [|y r]; [by apply elem_of_nil in Hx|]. simpl.
  pose proof (queue_cut _ _ _ _ _ Hq) as (_ & Hy & _).
  destruct (Z.eqb_spec y NULL); [done|]. destruct (P y) eqn:HPy.
  - destruct (remove_free_spec m h k y r Hq) as (m' & Hd & _ & Hfree).
    assert (drop_if P h y m = Ok (tt, m')) as Hd' by (unfold drop_if; by rewrite HPy). clear Hd.
    rename Hd' into Hd. rewrite (st_bind_step _ _ _ _ _ Hd). apply st_bind_fault.
    unfold q_read, TAILQ_NEXT, mbind, st_bind, get_elem, lookup_at. simpl.
    destruct (Z.eqb_spec y NULL); [done|]. by rewrite Hfree.
  - assert (drop_if P h y m = Ok (tt, m)) as Hd by (unfold drop_if; by rewrite HPy).
    rewrite (st_bind_step _ _ _ _ _ Hd).
    rewrite (st_bind_step _ _ _ _ _ (q_read_ok id _ m _ (TAILQ_NEXT_spec _ _ _ _ _ Hq))).
    apply (IH (k ++ [y])); [by rewrite <-app_assoc|simpl in Hn; lia| |done].
    apply elem_of_cons in Hx as [->|]; [congruence|done].
Qed.

Section Refinement.
Context (H D : gset Z).

Lemma allocated_frame hs ls m m' : frame hs ls m m' → allocated H D m → allocated H D m'.
Proof.
  intros Hf [H1 H2]. split.
  - intros h [? ?]%H1. split; [done|]. by apply (fr_hdom _ _ _ _ Hf).
  - intros e [? ?]%H2. split; [done|]. by apply (fr_dom _ _ _ _ Hf).
Qed.

(** The queues that an operation does not name are still there after it. *)
Lemma repr_frame hs ls m m' A A' :
  repr m A → frame hs ls m m' → disjoint_lists A' →
  (∀ h l, A' !! h = Some l → h ∈ hs ∧ queue m' h l ∨
     h ∉ hs ∧ A !! h = Some l ∧ ∀ n, n ∈ l → n ∉ ls) →
  repr m' A'.
Proof.
  intros [HA Hd] Hf Hd' Hq. split; [|done]. intros h l Hl.
  destruct (Hq h l Hl) as [[_ ?]|(Hh & Hl' & Hn)]; [done|].
  eapply queue_frame; eauto.
Qed.

(** An operation on one queue, which may add the elements [k]. *)
Lemma repr_one m m' A h (l l' k ls : list Z) :
  repr m A → A !! h = Some l → (∀ n, n ∈ k → map_Forall (λ _ l, n ∉ l) A) →
  (∀ n, n ∈ l' ∨ n ∈ ls → n ∈ l ∨ n ∈ k) → queue m' h l' → frame [h] ls m m' →
  repr m' (<[h:=l']> A).
Proof.
  intros HA Hl Hk Hsub Hq Hf.
  assert (∀ n h' l0, n ∈ l' ∨ n ∈ ls → A !! h' = Some l0 → h' ≠ h → n ∉ l0) as Hn.
  { intros n h' l0 Hn Hl0 Hh Hin. destruct (Hsub n Hn) as [Hnl|Hnk].
    - by apply Hh, (re_disj _ _ HA h' h l0 l n).
    - by apply (Hk n Hnk h' l0 Hl0). }
  apply (repr_frame _ _ _ _ _ _ HA Hf).
  - apply disjoint_insert; [apply HA|]. intros n h' l0 Hin. apply Hn. by left.
  - intros h' l0 [[<- <-]|[Hh Hl0]]%lookup_insert_Some; [left; set_solver|right].
    split_and!; [set_solver|done|]. intros n Hin Hls. by apply (Hn n h' l0 (or_intror Hls) Hl0 (not_eq_sym Hh)).
Qed.

Lemma repr_two m m' A h1 h2 l1 l2 k1 k2 :
  repr m A → A !! h1 = Some l1 → A !! h2 = Some l2 → h1 ≠ h2 →
  (∀ n : Z, n ∈ k1 ∨ n ∈ k2 → n ∈ l1 ∨ n ∈ l2) → (∀ n, n ∈ k1 → n ∉ k2) →
  queue m' h1 k1 → queue m' h2 k2 → frame [h1; h2] (l1 ++ l2) m m' →
  repr m' (<[h1:=k1]> (<[h2:=k2]> A)).
Proof.
  intros HA Hl1 Hl2 Hne Hsub Hdk Hq1 Hq2 Hf.
  assert (∀ n h' l0, n ∈ l1 ∨ n ∈ l2 → A !! h' = Some l0 → h' ≠ h1 → h' ≠ h2 → n ∉ l0) as Hn.
  { intros n h' l0 [Hin|Hin] Hl0 H1 H2 Hin0.
    - by apply H1, (re_disj _ _ HA h' h1 l0 l1 n).
    - by apply H2, (re_disj _ _ HA h' h2 l0 l2 n). }
  apply (repr_frame _ _ _ _ _ _ HA Hf).
  - intros a b la lb n Ha Hb Hna Hnb. destruct (decide (a = b)) as [|Hab]; [done|exfalso].
    rewrite !lookup_insert_Some in Ha, Hb.
    destruct Ha as [[<- <-]|[? [[<- <-]|[? Ha]]]], Hb as [[<- <-]|[? [[<- <-]|[? Hb]]]];
      try done; try by eapply Hdk.
    + by apply (Hn n b lb); auto.
    + by apply (Hn n b lb); auto.
    + by apply (Hn n a la); auto.
    + by apply (Hn n a la); auto.
    + by apply Hab, (re_disj _ _ HA a b la lb n).
  - intros h' l0 [[<- <-]|[Hh1 Hl0]]%lookup_insert_Some; [left; set_solver|].
    apply lookup_insert_Some in Hl0 as [[<- <-]|[Hh2 Hl0]]; [left; set_solver|right].
    split_and!; [set_solver|done|]. intros n Hin Hin'. apply elem_of_app in Hin'.
    by apply (Hn n h' l0 Hin' Hl0).
Qed.

(** What an operation promises for the next one. *)
Definition refines (c : st qmem unit) (m : qmem) (A : gmap Z (list Z)) : Prop :=
  ∃ m', c m = Ok (tt, m') ∧ repr m' A ∧ allocated H D m'.

Lemma refines_one c m A h (l l' k ls : list Z) :
  repr m A → allocated H D m → A !! h = Some l →
  (∀ n, n ∈ k → map_Forall (λ _ l, n ∉ l) A) → (∀ n, n ∈ l' ∨ n ∈ ls → n ∈ l ∨ n ∈ k) →
  (∃ m', c m = Ok (tt, m') ∧ queue m' h l' ∧ frame [h] ls m m') →
  refines c m (<[h:=l']> A).
Proof.
  intros HA Hal Hl Hk Hsub (m' & Hr & Hq & Hf). exists m'. split; [done|].
  split; [by eapply (repr_one m m' A h l l' k ls)|by eapply allocated_frame].
Qed.

Lemma refines_two c m A h1 h2 l1 l2 k1 k2 :
  repr m A → allocated H D m → A !! h1 = Some l1 → A !! h2 = Some l2 → h1 ≠ h2 →
  (∀ n : Z, n ∈ k1 ∨ n ∈ k2 → n ∈ l1 ∨ n ∈ l2) → (∀ n, n ∈ k1 → n ∉ k2) →
  (∃ m', c m = Ok (tt, m') ∧ queue m' h1 k1 ∧ queue m' h2 k2 ∧ frame [h1; h2] (l1 ++ l2) m m') →
  refines c m (<[h1:=k1]> (<[h2:=k2]> A)).
Proof.
  intros HA Hal Hl1 Hl2 Hne Hsub Hd (m' & Hr & Hq1 & Hq2 & Hf). exists m'. split; [done|].
  split; [by eapply repr_two|by eapply allocated_frame].
Qed.

Lemma refines_init m A h :
  repr m A → allocated H D m → h ∈ H → refines (TAILQ_INIT h) m (<[h:=[]]> A).
Proof.
  intros HA Hal Hh. destruct (al_heads _ _ _ Hal h Hh) as [Hn Ha].
  destruct (TAILQ_INIT_spec m h Hn Ha) as (m' & Hr & Hq & Hf).
  exists m'. split; [done|]. split; [|by eapply allocated_frame].
  apply (repr_frame _ _ _ _ _ _ HA Hf).
  - apply disjoint_insert; [apply HA|set_solver].
  - intros h' l0 [[<- <-]|[Hne Hl0]]%lookup_insert_Some; [left; set_solver|right; set_solver].
Qed.

(** What the contract of an insertion gives. *)
Lemma insertable_spare m A e :
  repr m A → allocated H D m → insertable D A e →
  spare m e ∧ (∀ n, n ∈ [e] → map_Forall (λ _ l, n ∉ l) A) ∧
  ∀ h l, A !! h = Some l → e ∉ l.
Proof.
  intros HA Hal [He Hf]. destruct (al_elems _ _ _ Hal e He). split_and!; [by split| |].
  - intros n Hn. apply list_elem_of_singleton in Hn as ->. done.
  - intros h l Hl. by apply (Hf h l).
Qed.

Lemma tq_step_refines o m A A' :
  repr m A → allocated H D m → a_op H D o A = Some A' → refines (run_op o) m A'.
Proof.
  intros HA Hal Ho.
  destruct o as [h|h e|h e|h x e|h x e|h e|h1 h2|h1 h2]; simpl in Ho;
    repeat match type of Ho with
    | (A !! ?h ≫= _) = _ => let Hl := fresh "Hl" in let k := fresh "k" in
        destruct (A !! h) as [k|] eqn:Hl; [|done]; simpl in Ho
    end; case_decide as Hi; try done; injection Ho as <-; cbn [run_op];
    try match type of Hi with _ ∧ _ => destruct Hi as [Hx Hi] end;
    try (pose proof (re_queue _ _ HA _ _ Hl) as Hq);
    try (destruct (insertable_spare m A e HA Hal Hi) as (Hsp & Hfr & Hnew));
    try (destruct (queue_find m h k x Hq Hx) as (l1 & l2 & -> & Hx1)).
  - by apply refines_init.
  - eapply (refines_one _ m A h k _ [e]); eauto; [|by apply TAILQ_INSERT_HEAD_spec; eauto]; set_solver.
  - eapply (refines_one _ m A h k _ [e]); eauto; [|by apply TAILQ_INSERT_TAIL_spec; eauto]; set_solver.
  - rewrite insert_after_app by done.
    eapply (refines_one _ m A h _ _ [e]); eauto; [|by apply TAILQ_INSERT_AFTER_spec; eauto]; set_solver.
  - rewrite insert_before_app by done.
    eapply (refines_one _ m A h _ _ [e]); eauto; [|by apply TAILQ_INSERT_BEFORE_spec; eauto]; set_solver.
  - destruct (queue_find m h k e Hq Hi) as (l1 & l2 & -> & Hx1). rewrite remove_elem_app by done.
    eapply (refines_one _ m A h _ _ []); eauto; [set_solver| |by apply TAILQ_REMOVE_spec]; set_solver.
  - assert (∀ n, n ∈ k → n ∉ k0) as Hd.
    { intros n H1 H2. by apply Hi, (re_disj _ _ HA h1 h2 k k0 n). }
    eapply (refines_two _ m A h1 h2 k k0); eauto; [set_solver..|].
    apply TAILQ_CONCAT_spec; auto; by apply HA.
  - assert (∀ n, n ∈ k → n ∉ k0) as Hd.
    { intros n H1 H2. by apply Hi, (re_disj _ _ HA h1 h2 k k0 n). }
    eapply (refines_two _ m A h1 h2 k k0); eauto; [set_solver..|].
    apply TAILQ_SWAP_spec; auto; by apply HA.
Qed.

Lemma a_ops_run os m A A' :
  repr m A → allocated H D m → a_ops H D os A = Some A' → refines (run_ops os) m A'.
Proof.
  unfold refines. revert m A. induction os as [|o os IH]; intros m A HA Hal; simpl.
  - intros [= <-]. by exists m.
  - destruct (a_op H D o A) as [A1|] eqn:Ho; simpl; [|done]. intros Hos.
    destruct (tq_step_refines o m A A1 HA Hal Ho) as (m1 & Hr & HA1 & Hal1).
    rewrite (st_bind_step _ _ _ _ _ Hr). by apply (IH m1 A1).
Qed.

End Refinement.

(** ** Loops over a part of a queue *)

Lemma last_first_reverse (l : list Z) : default NULL (list.last l) = first_or (reverse l) NULL.
Proof. rewrite <-(reverse_involutive l) at 1. rewrite last_reverse. by destruct (reverse l). Qed.

Section LoopsRest.
Context {S : Type} (queues : S → qmem).

Lemma forward_rest n h l1 l2 body s :
  (∀ x s s', body x s = Ok (tt, s') → queues s' = queues s) →
  queue (queues s) h (l1 ++ l2) → (length l2 ≤ n)%nat →
  foreach_loop queues n TAILQ_NEXT body (first_or l2 NULL) s =
  (run_bodies body l2 ;;; mret true) s.
Proof.
  intros Hbody Hq Hn. apply foreach_loop_run; [done|by apply (queue_rest _ _ _ _ Hq)| |done].
  intros k x k' ->. apply (TAILQ_NEXT_spec _ h (l1 ++ k)). by rewrite <-app_assoc.
Qed.

Lemma backward_rest n h l1 l2 body s :
  (∀ x s s', body x s = Ok (tt, s') → queues s' = queues s) →
  queue (queues s) h (l1 ++ l2) → (length l1 ≤ n)%nat →
  foreach_loop queues n TAILQ_PREV body (first_or (reverse l1) NULL) s =
  (run_bodies body (reverse l1) ;;; mret true) s.
Proof.
  intros Hbody Hq Hn. pose proof (qu_null _ _ _ Hq) as Hnull.
  apply foreach_loop_run; rewrite ?length_reverse, ?elem_of_reverse; [done|set_solver| |done].
  intros k x k' Hl. assert (l1 = reverse k' ++ x :: reverse k) as ->.
  { rewrite <-(reverse_involutive l1), Hl, reverse_app, reverse_cons. by rewrite <-app_assoc. }
  rewrite <-app_assoc in Hq. rewrite (TAILQ_PREV_spec _ h _ x _ Hq).
  by rewrite last_first_reverse, reverse_involutive.
Qed.

End LoopsRest.

(** ** Properties *)

(** C6: The macros implement lists: whatever sequence of initialisations,
    insertions at either end or next to an element, removals, concatenations and
    swaps a program makes on its queues within their contract, no operation
    faults and each head links exactly the elements of its list, in order and in
    both directions, no element being in two queues. *)
Theorem tailq_ops_refine_lists H D os m A A' :
  repr m A → allocated H D m → a_ops H D os A = Some A' →
  ∃ m', run_ops os m = Ok (tt, m') ∧ repr m' A' ∧ allocated H D m'.
Proof.
  apply a_ops_run.
Qed.

(** C29: [TAILQ_FOREACH] runs its body on the elements of the queue from the first
    to the last, [TAILQ_FOREACH_REVERSE] from the last to the first, each once and
    up to the first fault, and both end: this is so for every body that leaves the
    links alone.  The [FROM] variants do the same from a given element on.  The
    reverse loops rely on a head and an element's links having the same layout. *)
Theorem foreach_visits_in_order {S} (queues : S → qmem) body n h l s :
  queue (queues s) h l → (∀ x s s', body x s = Ok (tt, s') → queues s' = queues s) →
  (length l ≤ n)%nat →
  TAILQ_FOREACH queues n h body s = (run_bodies body l ;;; mret true) s ∧
  TAILQ_FOREACH_REVERSE queues n h body s = (run_bodies body (reverse l) ;;; mret true) s ∧
  ∀ l1 x l2, l = l1 ++ x :: l2 →
    TAILQ_FOREACH_FROM queues n h x body s = (run_bodies body (x :: l2) ;;; mret true) s ∧
    TAILQ_FOREACH_REVERSE_FROM queues n h x body s =
      (run_bodies body (x :: reverse l1) ;;; mret true) s.
Proof.
  intros Hq Hbody Hn. split_and!.
  - unfold TAILQ_FOREACH.
    rewrite (st_bind_step _ _ _ _ _ (q_read_ok _ _ s _ (TAILQ_FIRST_spec _ h l Hq))).
    by apply (forward_rest queues n h []).
  - unfold TAILQ_FOREACH_REVERSE.
    rewrite (st_bind_step _ _ _ _ _ (q_read_ok _ _ s _ (TAILQ_LAST_spec _ h l Hq))).
    rewrite last_first_reverse. apply (backward_rest queues n h l []); [done| |done].
    by rewrite app_nil_r.
  - intros l1 x l2 ->. unfold TAILQ_FOREACH_FROM, TAILQ_FOREACH_REVERSE_FROM, start_from.
    assert (x =? NULL = false) as -> by (apply Z.eqb_neq; by apply (queue_cut _ _ _ _ _ Hq)).
    rewrite length_app in Hn. simpl in Hn. simpl negb. cbv iota.
    rewrite !(st_bind_step _ _ s x s) by by apply q_read_ok. split.
    + apply (forward_rest queues n h l1 (x :: l2)); [done..|simpl; lia].
    + pose proof (backward_rest queues n h (l1 ++ [x]) l2 body s Hbody) as Hb.
      rewrite reverse_snoc, length_app in Hb. apply Hb; [by rewrite <-app_assoc|simpl; lia].
Qed.

(** [TAILQ_FOREACH_SAFE] allows its body to remove and free the current
    element: the loop ends and exactly the elements that were not chosen are left,
    in order.  With [TAILQ_FOREACH] the same body reads the next pointer of the
    element it has just freed. *)
Lemma foreach_safe_may_free (P : Z → bool) n h l m :
  queue m h l → (length l ≤ n)%nat →
  (∃ m', TAILQ_FOREACH_SAFE id n h (drop_if P h) m = Ok (true, m') ∧
         queue m' h (filter (λ x, P x = false) l)) ∧
  (∀ x, x ∈ l → P x = true → TAILQ_FOREACH id n h (drop_if P h) m = Fault UseAfterFree).
Proof.
  intros Hq Hn. split.
  - unfold TAILQ_FOREACH_SAFE.
    rewrite (st_bind_step _ _ _ _ _ (q_read_ok id _ m _ (TAILQ_FIRST_spec _ h l Hq))).
    destruct (foreach_safe_loop_inv id (λ r m', ∃ k, queue m' h (k ++ r) ∧
      k ++ filter (λ x, P x = false) r = filter (λ x, P x = false) l)
      TAILQ_NEXT (drop_if P h) n l m) as (m' & Hr & k & Hk & E); [|done| |].
    + intros x r m0 (k & Hk & E). split; [by eapply queue_cut|].
      split; [by eapply TAILQ_NEXT_spec|].
      destruct (drop_if_step P m0 h k x r Hk) as (m1 & Hd & Hq1). exists m1. split; [done|].
      eexists. split; [exact Hq1|]. rewrite <-E, filter_cons.
      destruct (P x); simpl; [done|by rewrite <-app_assoc].
    + exists []. by split.
    + exists m'. split; [exact Hr|]. rewrite app_nil_r in *. by rewrite <-E.
  - intros x Hx HP. unfold TAILQ_FOREACH.
    rewrite (st_bind_step _ _ _ _ _ (q_read_ok id _ m _ (TAILQ_FIRST_spec _ h l Hq))).
    by apply (foreach_drop_faults P n m h [] l x).
Qed.

(** ** Concrete queues *)

(** Two heads and three elements in memory that was used before. *)
Definition demo_heap : qmem :=
  mkQ (<[1:=mkHead 77 (NextOf 5)]> (<[2:=mkHead 0 (FirstOf 9)]> ∅))
      (<[10:=mkLinks 3 (NextOf 3)]> (<[20:=mkLinks 1 (FirstOf 1)]>
       (<[30:=mkLinks 0 (NextOf 10)]> ∅))).

Definition demo_ops : list tq_op :=
  [OInit 1; OInit 2; OInsertTail 1 10; OInsertHead 1 20; OInsertAfter 1 20 30;
   ORemove 1 10; OInsertBefore 1 30 10; OConcat 2 1; OSwap 1 2].

(** The queue 10, 20, 30 at head 1. *)
Definition demo_queue : qmem :=
  mkQ (<[1:=mkHead 10 (NextOf 30)]> ∅)
      (<[10:=mkLinks 20 (FirstOf 1)]> (<[20:=mkLinks 30 (NextOf 10)]>
       (<[30:=mkLinks 0 (NextOf 20)]> ∅))).

(** A state that records what a loop visits. *)
Definition record_visit (x : Z) : st (qmem * list Z) unit :=
  λ s, Ok (tt, (s.1, s.2 ++ [x])).

Lemma demo_queue_ok : queue demo_queue 1 [10; 20; 30].
Proof.
  split; [done|reflexivity| | |].
  - unfold NULL. set_solver.
  - repeat (apply list.NoDup_cons; split; [set_solver|]). by apply list.NoDup_nil.
  - by vm_compute.
Qed.

Lemma demo_allocated : allocated {[1; 2]} {[10; 20; 30]} demo_heap.
Proof.
  split.
  - intros h Hh. assert (h = 1 ∨ h = 2) as [-> | ->] by set_solver; (split; [done|by eexists]).
  - intros e He. assert (e = 10 ∨ e = 20 ∨ e = 30) as [-> |[-> | ->]] by set_solver;
      (split; [done|by eexists]).
Qed.

Lemma tailq_ops_refine_lists_witness :
  ∃ m', run_ops demo_ops demo_heap = Ok (tt, m') ∧ queue m' 1 [20; 10; 30] ∧ queue m' 2 [].
Proof.
  destruct (tailq_ops_refine_lists {[1; 2]} {[10; 20; 30]} demo_ops demo_heap ∅
    (<[1:=[20; 10; 30]]> (<[2:=[]]> ∅))) as (m' & Hr & HA & _).
  - split; [|intros h1 h2 l1 l2 n Hl]; [intros h l Hl|]; by vm_compute in Hl.
  - apply demo_allocated.
  - vm_compute. reflexivity.
  - exists m'. split; [exact Hr|]. split; apply HA; reflexivity.
Defined.

Lemma foreach_visits_in_order_witness :
  TAILQ_FOREACH fst 3 1 record_visit (demo_queue, []) = Ok (true, (demo_queue, [10; 20; 30])) ∧
  TAILQ_FOREACH_REVERSE_FROM fst 3 1 20 record_visit (demo_queue, []) =
    Ok (true, (demo_queue, [20; 10])).
Proof.
  destruct (foreach_visits_in_order fst record_visit 3 1 [10; 20; 30] (demo_queue, []))
    as (H1 & _ & H2).
  - apply demo_queue_ok.
  - intros x s s' [= <-]. done.
  - simpl. lia.
  - split; [rewrite H1; reflexivity|].
    rewrite (proj2 (H2 [10] 20 [30] eq_refl)). reflexivity.
Defined.

