(* ===== verification/QueueFamily.v ===== *)
(** * The interface of the queue families

    The other families of macros of [src/server/src/queue.h] keep fewer fields
    than TAILQ: a STAILQ has no back pointers, a LIST no last link, an SLIST
    neither.  So the memory of a family is what is left of a memory of tail queues
    when fields are erased.  [QueueFamily] is the interface of a family: which
    fields stay, its operations, and the TAILQ operation that each one stands for;
    [QueueFamilyOk] is its promise, that running an operation on the erased memory
    gives the erasure of what the TAILQ operation gives.  What a family inherits
    from the tail queues is proved here against the interface. *)
From Stdlib Require Import ZArith Lia.
From stdpp Require Import base tactics list gmap sets numbers.
From S2P Require Import Prelude QueueMemory TailQueue.

(** ** Simulation *)

(** [sim er c d m]: whatever [c] does from [m], [d] does from the erasure of
    [m]. *)
Section Simulation.
Context {M1 M2 : Type} (er : M1 → M2).

Definition sim {A} (c : st M1 A) (d : st M2 A) (m : M1) : Prop :=
  ∀ a m', c m = Ok (a, m') → d (er m) = Ok (a, er m').

(** The erasure does not show what [c] does. *)
Definition silent {A} (c : st M1 A) : Prop :=
  ∀ m a m', c m = Ok (a, m') → er m' = er m.

Lemma sim_ret {A} (a : A) m : sim (mret a) (mret a) m.
Proof. by intros a' m' [= <- <-]. Qed.

Lemma sim_bind {A B} (c : st M1 A) d (k : A → st M1 B) k' m :
  sim c d m → (∀ a m', c m = Ok (a, m') → sim (k a) (k' a) m') → sim (c ≫= k) (d ≫= k') m.
Proof.
  intros Hc Hk b m2 (a & m1 & H1 & H2)%st_bind_ok.
  rewrite (st_bind_step _ _ _ _ _ (Hc _ _ H1)). by apply (Hk a m1).
Qed.

(** The other side computes [f] of what is read. *)
Lemma sim_bind_map {A B C} (f : A → C) (c : st M1 A) d (k : A → st M1 B) k' m :
  sim (c ≫= λ a, mret (f a)) d m →
  (∀ a m', c m = Ok (a, m') → sim (k a) (k' (f a)) m') → sim (c ≫= k) (d ≫= k') m.
Proof.
  intros Hc Hk b m2 (a & m1 & H1 & H2)%st_bind_ok.
  rewrite (st_bind_step _ _ _ (f a) (er m1)); [by apply (Hk a m1)|].
  apply Hc, st_bind_ok. eauto.
Qed.

Lemma sim_skip {A B} (c : st M1 A) (k : A → st M1 B) d m :
  silent c → (∀ a m', c m = Ok (a, m') → sim (k a) d m') → sim (c ≫= k) d m.
Proof.
  intros Hc Hk b m2 (a & m1 & H1 & H2)%st_bind_ok.
  rewrite <-(Hc m a m1 H1). by apply (Hk a m1).
Qed.

Lemma sim_last {A} (c : st M1 A) (d : st M2 unit) k m :
  sim (c ≫= λ _, mret tt) d m → (∀ a, silent (k a)) → sim (c ≫= k) d m.
Proof.
  intros Hc Hk b m2 (a & m1 & H1 & H2)%st_bind_ok.
  destruct b. rewrite (Hk _ _ _ _ H2). apply (Hc tt m1). apply st_bind_ok. eauto.
Qed.

Lemma sim_tail (c : st M1 unit) (d : st M2 unit) m : sim c d m → sim (c ≫= λ _, mret tt) d m.
Proof. intros Hc b m2 ([] & m1 & H1 & [= <- <-])%st_bind_ok. by apply Hc. Qed.

Lemma silent_bind {A B} (c : st M1 A) (k : A → st M1 B) :
  silent c → (∀ a, silent (k a)) → silent (c ≫= k).
Proof.
  intros Hc Hk m b m2 (a & m1 & H1 & H2)%st_bind_ok.
  rewrite (Hk _ _ _ _ H2). by apply (Hc m a).
Qed.

(** What a simulation says of an execution that succeeds. *)
Lemma sim_run {A} (c : st M1 A) d m a m' : sim c d m → c m = Ok (a, m') → d (er m) = Ok (a, er m').
Proof. intros H. apply H. Qed.

End Simulation.

Create HintDb sim discriminated.
#[export] Hint Resolve sim_ret sim_tail : sim.
#[export] Hint Extern 1 (silent _ (_ ≫= _)) => apply silent_bind; [|intros] : sim.

(** Runs a macro of tail queues beside the macro of a family: an access that both
    make, or one that the erasure does not show, at the front or at the end. *)
Ltac sim_step :=
  first [ apply sim_bind; [solve [eauto with sim]|intros]
        | apply sim_skip; [solve [eauto with sim]|intros]
        | apply sim_last; [solve [eauto with sim]|intros; solve [eauto with sim]]
        | solve [eauto with sim] ].

(** ** The interface *)

(** What the memory of a family is. *)
Class QueueErasure (HD EN : Type) := {
  (** What is left of a head and of the links of an element. *)
  erase_head : TAILQ_HEAD → HD;
  erase_entry : TAILQ_ENTRY → EN;
  (** Some head and links of a tail queue of which that is left. *)
  fill_head : HD → TAILQ_HEAD;
  fill_entry : EN → TAILQ_ENTRY;
  (** The reads of the loops. *)
  fam_first : Z → st (links_mem HD EN) Z;
  fam_next : Z → st (links_mem HD EN) Z
}.

Definition erase {HD EN} `{QueueErasure HD EN} (m : qmem) : links_mem HD EN :=
  mkQ (erase_head <$> heads m) (erase_entry <$> elems m).

Class QueueErasureOk (HD EN : Type) `{QueueErasure HD EN} := {
  erase_fill_head a : erase_head (fill_head a) = a;
  erase_fill_entry e : erase_entry (fill_entry e) = e;
  sim_fam_first h m : sim erase (TAILQ_FIRST h) (fam_first h) m;
  sim_fam_next n m : sim erase (TAILQ_NEXT n) (fam_next n) m;
  fam_next_null m : fam_next NULL m = Fault NullDeref
}.

(** What its operations are. *)
Class QueueFamily (HD EN Op : Type) := {
  (** An operation; the result says whether its walk ended. *)
  fam_run : Op → st (links_mem HD EN) bool;
  (** The TAILQ operation it stands for, on queues with the elements [A]. *)
  fam_means : gmap Z (list Z) → Op → option tq_op
}.

Class QueueFamilyOk (HD EN Op : Type) `{QueueErasure HD EN, QueueFamily HD EN Op} := {
  fam_run_erase hs es m A o o' A' m' :
    repr m A → fam_means A o = Some o' → a_op hs es o' A = Some A' →
    run_op o' m = Ok (tt, m') → fam_run o (erase m) = Ok (true, erase m')
}.

(** The element after [x] in a list. *)
Fixpoint successor (x : Z) (l : list Z) : option Z :=
  match l with
  | [] => None
  | y :: l' => if y =? x then head l' else successor x l'
  end.

(** ** Simulations of the accesses *)

Section Accesses.
Context {HD EN : Type} `{X : QueueErasure HD EN}.

Lemma sim_head {B} h (k : TAILQ_HEAD → st qmem B) k' m :
  (∀ a, sim erase (k a) (k' (erase_head a)) m) →
  sim erase (a ← get_head h; k a) (a ← get_head h; k' a) m.
Proof.
  intros Hk b m2 (a & m1 & H1 & H2)%st_bind_ok.
  unfold get_head, lookup_at in H1. destruct (h =? NULL) eqn:Hh; [done|].
  destruct (heads m !! h) as [a'|] eqn:Ha; [|done]. injection H1 as <- <-.
  qstep (get_head_ok (erase m) h (erase_head a') ltac:(by apply Z.eqb_neq)
    ltac:(unfold erase; simpl; by rewrite lookup_fmap, Ha)).
  by apply Hk.
Qed.

Lemma sim_elem {B} n (k : TAILQ_ENTRY → st qmem B) k' m :
  (∀ e, sim erase (k e) (k' (erase_entry e)) m) →
  sim erase (e ← get_elem n; k e) (e ← get_elem n; k' e) m.
Proof.
  intros Hk b m2 (e & m1 & H1 & H2)%st_bind_ok.
  unfold get_elem, lookup_at in H1. destruct (n =? NULL) eqn:Hn; [done|].
  destruct (elems m !! n) as [e'|] eqn:He; [|done]. injection H1 as <- <-.
  qstep (get_elem_ok (erase m) n (erase_entry e') ltac:(by apply Z.eqb_neq)
    ltac:(unfold erase; simpl; by rewrite lookup_fmap, He)).
  by apply Hk.
Qed.

Lemma sim_put_head h a b m : b = erase_head a → sim erase (put_head h a) (put_head h b) m.
Proof. intros -> [] m' [= <-]. unfold put_head, erase. simpl. by rewrite fmap_insert. Qed.

Lemma sim_put_elem n e e' m : e' = erase_entry e → sim erase (put_elem n e) (put_elem n e') m.
Proof. intros -> [] m' [= <-]. unfold put_elem, erase. simpl. by rewrite fmap_insert. Qed.

(** An update of an erased field. *)
Lemma silent_head h f :
  (∀ a, erase_head (f a) = erase_head a) → silent erase (a ← get_head h; put_head h (f a)).
Proof.
  intros Hf m [] m2 (a & m1 & H1 & H2)%st_bind_ok.
  unfold get_head, lookup_at in H1. destruct (h =? NULL); [done|].
  destruct (heads m !! h) as [a'|] eqn:Ha; [|done]. injection H1 as <- <-. injection H2 as <-.
  unfold erase. simpl. f_equal. rewrite fmap_insert, Hf. apply insert_id.
  by rewrite lookup_fmap, Ha.
Qed.

Lemma silent_elem n f :
  (∀ e, erase_entry (f e) = erase_entry e) → silent erase (e ← get_elem n; put_elem n (f e)).
Proof.
  intros Hf m [] m2 (e & m1 & H1 & H2)%st_bind_ok.
  unfold get_elem, lookup_at in H1. destruct (n =? NULL); [done|].
  destruct (elems m !! n) as [e'|] eqn:He; [|done]. injection H1 as <- <-. injection H2 as <-.
  unfold erase. simpl. f_equal. rewrite fmap_insert, Hf. apply insert_id.
  by rewrite lookup_fmap, He.
Qed.

Lemma silent_read_head {B} h (f : TAILQ_HEAD → B) : silent erase (a ← get_head h; mret (f a)).
Proof.
  intros m b m2 (a & m1 & H1 & H2)%st_bind_ok. injection H2 as _ <-.
  unfold get_head in H1. by destruct (lookup_at _ h); [injection H1 as _ <-|].
Qed.

Lemma silent_read_elem {B} n (f : TAILQ_ENTRY → B) : silent erase (e ← get_elem n; mret (f e)).
Proof.
  intros m b m2 (a & m1 & H1 & H2)%st_bind_ok. injection H2 as _ <-.
  unfold get_elem in H1. by destruct (lookup_at _ n); [injection H1 as _ <-|].
Qed.

(** The result of an operation that ends. *)
Lemma sim_done (c : st qmem unit) d m m' :
  sim erase c d m → c m = Ok (tt, m') → (d ;;; mret true) (erase m) = Ok (true, erase m').
Proof. intros Hs Hc. by rewrite (st_bind_step _ _ _ _ _ (Hs _ _ Hc)). Qed.

End Accesses.

#[export] Hint Resolve sim_put_head sim_put_elem silent_head silent_elem
  silent_read_head silent_read_elem : sim.

(** ** Loops and walks *)

Section Reads.
Context {HD EN : Type} `{X : QueueErasure HD EN, !QueueErasureOk HD EN}.

Context {S : Type} (queues : S → links_mem HD EN).

Definition fam_foreach (n : nat) (h : Z) (body : Z → st S unit) : st S bool :=
  var ← q_read queues (fam_first h); foreach_loop queues n fam_next body var.

Definition fam_foreach_safe (n : nat) (h : Z) (body : Z → st S unit) : st S bool :=
  var ← q_read queues (fam_first h); foreach_safe_loop queues n fam_next body var.

Definition fam_foreach_from (n : nat) (h var : Z) (body : Z → st S unit) : st S bool :=
  var ← q_read queues (start_from var (fam_first h)); foreach_loop queues n fam_next body var.

Definition fam_foreach_from_safe (n : nat) (h var : Z) (body : Z → st S unit) : st S bool :=
  var ← q_read queues (start_from var (fam_first h)); foreach_safe_loop queues n fam_next body var.

Lemma fam_first_erase q h l :
  queue q h l → fam_first h (erase q) = Ok (first_or l NULL, erase q).
Proof. intros Hq. apply (sim_run _ _ _ _ _ _ (sim_fam_first h q)). by apply TAILQ_FIRST_spec. Qed.

Lemma fam_next_erase q h l1 x l2 :
  queue q h (l1 ++ x :: l2) → fam_next x (erase q) = Ok (first_or l2 NULL, erase q).
Proof.
  intros Hq. apply (sim_run _ _ _ _ _ _ (sim_fam_next x q)). by eapply TAILQ_NEXT_spec.
Qed.

(** The loop over the rest of a queue. *)
Lemma fam_foreach_rest q h l1 l2 n body s :
  queues s = erase q → queue q h (l1 ++ l2) →
  (∀ x s s', body x s = Ok (tt, s') → queues s' = queues s) →
  (length l2 ≤ n)%nat →
  foreach_loop queues n fam_next body (first_or l2 NULL) s = (run_bodies body l2 ;;; mret true) s.
Proof.
  intros Hs Hq Hbody Hn. pose proof (qu_null _ _ _ Hq) as Hnull.
  apply foreach_loop_run; [done|set_solver| |done].
  intros k x k' ->. rewrite Hs. apply (fam_next_erase q h (l1 ++ k)). by rewrite <-app_assoc.
Qed.

Lemma fam_foreach_visits q h l n body s :
  queues s = erase q → queue q h l →
  (∀ x s s', body x s = Ok (tt, s') → queues s' = queues s) →
  (length l ≤ n)%nat →
  fam_foreach n h body s = (run_bodies body l ;;; mret true) s.
Proof.
  intros Hs Hq Hbody Hn. unfold fam_foreach.
  rewrite (st_bind_step _ _ _ (first_or l NULL) s); [by apply (fam_foreach_rest q h [])|].
  apply q_read_ok. rewrite Hs. by apply fam_first_erase.
Qed.

Lemma fam_foreach_from_visits q h l1 x l2 n body s :
  queues s = erase q → queue q h (l1 ++ x :: l2) →
  (∀ x s s', body x s = Ok (tt, s') → queues s' = queues s) →
  (length (x :: l2) ≤ n)%nat →
  fam_foreach_from n h x body s = (run_bodies body (x :: l2) ;;; mret true) s.
Proof.
  intros Hs Hq Hbody Hn. unfold fam_foreach_from, start_from.
  assert (x =? NULL = false) as -> by (apply Z.eqb_neq; by apply (queue_cut _ _ _ _ _ Hq)).
  rewrite (st_bind_step _ _ _ x s); [by apply (fam_foreach_rest q h l1 (x :: l2))|by apply q_read_ok].
Qed.

(** The walk to the element before [target], which follows [x] (or is null when
    [x] is the last). *)
Lemma fam_walk_steps q h l1 x l2 n :
  queue q h (l1 ++ x :: l2) → (length l1 < n)%nat →
  walk n fam_next (first_or l2 NULL) (first_or (l1 ++ [x]) NULL) (erase q) =
  Ok (Some x, erase q).
Proof.
  intros Hq Hn. assert (∀ k r, l1 = k ++ r → (length r < n)%nat →
    walk n fam_next (first_or l2 NULL) (first_or (r ++ [x]) NULL) (erase q) =
    Ok (Some x, erase q)) as Hw; [|by apply (Hw [])].
  clear Hn. induction n as [|n IH]; intros k r -> Hn; [lia|]. cbn [walk].
  destruct r as [|y r]; simpl first_or.
  - rewrite app_nil_r in Hq. rewrite (st_bind_step _ _ _ _ _ (fam_next_erase q h k x l2 Hq)).
    by rewrite Z.eqb_refl.
  - rewrite <-app_assoc in Hq. simpl in Hq.
    rewrite (st_bind_step _ _ _ _ _ (fam_next_erase q h k y _ Hq)).
    rewrite (cons_middle y), app_assoc in Hq.
    pose proof (queue_rest _ _ _ _ Hq) as [Hnull Hnd].
    destruct (Z.eqb_spec (first_or (r ++ x :: l2) NULL) (first_or l2 NULL)) as [E|_].
    + exfalso. destruct r as [|z r]; simpl in E.
      * destruct l2 as [|z l2]; simpl in E; [set_solver|].
        apply list.NoDup_cons in Hnd as [Hz _]. set_solver.
      * destruct l2 as [|z2 l2]; simpl in E; [set_solver|].
        apply list.NoDup_cons in Hnd as [Hz _]. set_solver.
    + assert (first_or (r ++ x :: l2) NULL = first_or (r ++ [x]) NULL) as -> by by destruct r.
      apply (IH (k ++ [y]) r); [by rewrite <-app_assoc|simpl in Hn; lia].
Qed.

(** The steps allowed to the walks are enough. *)
Lemma erase_size q h l : queue q h l → (length l < Datatypes.S (size (elems (erase q))))%nat.
Proof. intros Hq%queue_size. unfold erase. simpl. rewrite map_size_fmap. lia. Qed.

Lemma fam_walk_to q h l1 x l2 :
  queue q h (l1 ++ x :: l2) →
  walk_elems fam_next (first_or l2 NULL) (first_or (l1 ++ [x]) NULL) (erase q) =
  Ok (Some x, erase q).
Proof.
  intros Hq. apply (fam_walk_steps q h l1 x l2); [done|]. apply erase_size in Hq.
  rewrite length_app in Hq. simpl in *. lia.
Qed.

(** The walk to an element that is not in the queue runs into the null pointer
    at its end. *)
Lemma fam_walk_absent_steps q h l1 l2 e n :
  queue q h (l1 ++ l2) → e ∉ l2 → e ≠ NULL → (length l2 < n)%nat →
  walk n fam_next e (first_or l2 NULL) (erase q) = Fault NullDeref.
Proof.
  revert l1 l2. induction n as [|n IH]; intros l1 l2 Hq He He0 Hn; [lia|].
  cbn [walk]. destruct l2 as [|y l2]; [by apply st_bind_fault, fam_next_null|]. simpl first_or.
  rewrite (st_bind_step _ _ _ _ _ (fam_next_erase q h l1 y l2 Hq)).
  destruct (Z.eqb_spec (first_or l2 NULL) e) as [E|_].
  - destruct l2; simpl in E; [done|set_solver].
  - apply (IH (l1 ++ [y])); [by rewrite <-app_assoc|set_solver|done|simpl in Hn; lia].
Qed.

Lemma fam_walk_absent q h l e :
  queue q h l → e ∉ l → e ≠ NULL →
  walk_elems fam_next e (first_or l NULL) (erase q) = Fault NullDeref.
Proof.
  intros Hq He He0. apply (fam_walk_absent_steps q h []); auto. by eapply erase_size.
Qed.

End Reads.

(** ** Representation *)

Section Representation.
Context {HD EN : Type} `{X : QueueErasure HD EN}.

(** The elements [l] are linked in a row from the link [k], in the fields that
    the family keeps. *)
Fixpoint fam_seg (E : gmap Z EN) (k : link) (l : list Z) : Prop :=
  match l with
  | [] => True
  | n :: l' => E !! n = Some (erase_entry (mkLinks (first_or l' NULL) k)) ∧
               fam_seg E (NextOf n) l'
  end.

Record fam_queue (m : links_mem HD EN) (h : Z) (l : list Z) : Prop := {
  fq_head : h ≠ NULL;
  fq_links : heads m !! h = Some (erase_head (mkHead (first_or l NULL) (end_link (FirstOf h) l)));
  fq_null : NULL ∉ l;
  fq_nodup : NoDup l;
  fq_seg : fam_seg (elems m) (FirstOf h) l
}.

(** Several lists of the family in one memory. *)
Record fam_repr (m : links_mem HD EN) (A : gmap Z (list Z)) : Prop := {
  fr_queue h l : A !! h = Some l → fam_queue m h l;
  fr_disj : disjoint_lists A
}.

Lemma erase_seg E k l q : seg E k l q → q = NULL → fam_seg (erase_entry <$> E) k l.
Proof.
  intros H ->. revert k H. induction l as [|n l IH]; intros k; simpl; [done|].
  intros [Hn Hs]. split; [by rewrite lookup_fmap, Hn|by apply IH].
Qed.

Lemma erase_queue q h l : queue q h l → fam_queue (erase q) h l.
Proof.
  intros [H1 H2 H3 H4 H5]. split; try done; unfold erase; simpl.
  - by rewrite lookup_fmap, H2.
  - by eapply erase_seg.
Qed.

Lemma erase_repr q A : repr q A → fam_repr (erase q) A.
Proof. intros [H1 H2]. split; [|done]. intros h l Hl. by apply erase_queue, H1. Qed.

Lemma erase_allocated hs es q : allocated hs es q → allocated hs es (erase q).
Proof.
  intros [H1 H2]. unfold erase. split; simpl; intros x Hx; rewrite lookup_fmap, fmap_is_Some; auto.
Qed.

(** The erased links put back along a list. *)
Fixpoint thread_links (k : link) (l : list Z) (E : gmap Z TAILQ_ENTRY) : gmap Z TAILQ_ENTRY :=
  match l with
  | [] => E
  | n :: l' => <[n:=mkLinks (first_or l' NULL) k]> (thread_links (NextOf n) l' E)
  end.

Lemma thread_ne k l E n : n ∉ l → thread_links k l E !! n = E !! n.
Proof.
  revert k. induction l as [|x l IH]; intros k Hn; simpl; [done|].
  rewrite lookup_insert_ne by set_solver. apply IH. set_solver.
Qed.

Lemma thread_seg k l E : NoDup l → seg (thread_links k l E) k l NULL.
Proof.
  revert k. induction l as [|n l IH]; intros k; simpl; [done|].
  intros [Hn Hnd]%list.NoDup_cons. split; [by rewrite lookup_insert_eq|].
  apply seg_insert_ne; auto.
Qed.

Lemma thread_erase k l E :
  fam_seg (erase_entry <$> E) k l → erase_entry <$> thread_links k l E = erase_entry <$> E.
Proof.
  revert k. induction l as [|n l IH]; intros k; simpl; [done|].
  intros [Hn Hs]. rewrite fmap_insert, IH by done. by apply insert_id.
Qed.

(** A memory of tail queues of which [m] is what is left. *)
Definition fill (m : links_mem HD EN) : qmem := mkQ (fill_head <$> heads m) (fill_entry <$> elems m).

Context `{!QueueErasureOk HD EN}.

Lemma erase_fill m : erase (fill m) = m.
Proof.
  destruct m as [hd el]. unfold erase, fill. simpl. f_equal.
  - rewrite <-map_fmap_compose. rewrite <-(map_fmap_id hd) at 2.
    apply map_fmap_ext. intros h a _. apply erase_fill_head.
  - rewrite <-map_fmap_compose. rewrite <-(map_fmap_id el) at 2.
    apply map_fmap_ext. intros n e _. apply erase_fill_entry.
Qed.

(** Lists of the family are what is left of tail queues. *)
Lemma fam_queue_lift q h l :
  fam_queue (erase q) h l → ∃ q', erase q' = erase q ∧ queue q' h l ∧ frame [h] l q q'.
Proof.
  intros [H1 H2 H3 H4 H5].
  exists (mkQ (<[h:=mkHead (first_or l NULL) (end_link (FirstOf h) l)]> (heads q))
              (thread_links (FirstOf h) l (elems q))).
  split_and!.
  - unfold erase in *. simpl in *. f_equal; [|by apply thread_erase].
    rewrite fmap_insert. by apply insert_id.
  - split; simpl; [done|by rewrite lookup_insert_eq|done|done|by apply thread_seg].
  - split; simpl.
    + intros h' Hh'. apply lookup_insert_ne. set_solver.
    + intros n Hn. by apply thread_ne.
    + intros n Hn. generalize (FirstOf h). clear -Hn.
      induction l as [|x l IH]; intros k; simpl; [done|]. apply lookup_insert_is_Some'. auto.
    + intros h' Hh'. apply lookup_insert_is_Some'. by right.
Qed.

Lemma fam_queue_erased m h l : fam_queue m h l → ∃ q, erase q = m ∧ queue q h l.
Proof.
  intros Hq. rewrite <-(erase_fill m) in Hq. destruct (fam_queue_lift _ _ _ Hq) as (q & He & ? & _).
  exists q. by rewrite He, erase_fill.
Qed.

Lemma fam_repr_lift m A : fam_repr m A → ∃ q, erase q = m ∧ repr q A.
Proof.
  intros [Hq Hd].
  cut (∃ q, erase q = m ∧ ∀ h l, A !! h = Some l → queue q h l); [intros (q & ? & ?); by exists q|].
  revert Hq Hd. induction A as [|h l A Hh IH] using map_ind; intros Hq Hd.
  { exists (fill m). split; [apply erase_fill|]. intros h l Hl. by rewrite lookup_empty in Hl. }
  destruct IH as (q & <- & HA).
  { intros h' l' Hl'. apply Hq. by rewrite lookup_insert_ne by congruence. }
  { intros h1 h2 l1 l2 n H1 H2. apply Hd; by rewrite lookup_insert_ne by congruence. }
  destruct (fam_queue_lift q h l) as (q' & He & Hl & Hf); [apply Hq; by rewrite lookup_insert_eq|].
  exists q'. split; [done|]. intros h' l' [[<- <-]|[Hne Hl']]%lookup_insert_Some; [done|].
  eapply queue_frame; [exact Hf| | |by apply HA]; [set_solver|].
  intros n Hn Hnl. apply Hne. apply (Hd h h' l l' n); try done; [by rewrite lookup_insert_eq|].
  by rewrite lookup_insert_ne.
Qed.

Lemma allocated_lift hs es q : allocated hs es (erase q) → allocated hs es q.
Proof.
  intros [H1 H2]. unfold erase in *. simpl in *. split; intros x Hx.
  - destruct (H1 x Hx) as [? Ha]. by rewrite lookup_fmap, fmap_is_Some in Ha.
  - destruct (H2 x Hx) as [? Ha]. by rewrite lookup_fmap, fmap_is_Some in Ha.
Qed.

End Representation.

(** ** Programs *)

Section Programs.
Context {HD EN Op : Type} `{X : QueueErasure HD EN, F : QueueFamily HD EN Op}.

Fixpoint fam_runs (os : list Op) : st (links_mem HD EN) bool :=
  match os with
  | [] => mret true
  | o :: os' => b ← fam_run o; if b : bool then fam_runs os' else mret false
  end.

(** The same operations on lists, [None] when the caller breaks the contract. *)
Fixpoint fam_ops (hs es : gset Z) (os : list Op) (A : gmap Z (list Z)) :
    option (gmap Z (list Z)) :=
  match os with
  | [] => Some A
  | o :: os' => o' ← fam_means A o; A' ← a_op hs es o' A; fam_ops hs es os' A'
  end.

Context `{!QueueErasureOk HD EN, !QueueFamilyOk HD EN Op}.

(** A program on a family does to its memory what the program it stands for does
    to the tail queues. *)
Lemma fam_runs_erase hs es os m A A' :
  repr m A → allocated hs es m → fam_ops hs es os A = Some A' →
  ∃ m', fam_runs os (erase m) = Ok (true, erase m') ∧ repr m' A' ∧ allocated hs es m'.
Proof.
  revert m A. induction os as [|o os IH]; intros m A HA Hal; simpl.
  - intros [= <-]. by exists m.
  - destruct (fam_means A o) as [o'|] eqn:Ho; simpl; [|done].
    destruct (a_op hs es o' A) as [A1|] eqn:HA1; simpl; [|done]. intros Hos.
    destruct (tq_step_refines hs es o' m A A1 HA Hal HA1) as (m1 & Hr & HA1' & Hal1).
    qstep (fam_run_erase hs es m A o o' A1 m1 HA Ho HA1 Hr). by apply (IH m1 A1).
Qed.

(** Operations that stand for the same operation on any queues. *)
Lemma fam_runs_simulate hs es os os' q A A' q' :
  Forall2 (λ o o', ∀ A, fam_means A o = Some o') os os' →
  repr q A → allocated hs es q → a_ops hs es os' A = Some A' → run_ops os' q = Ok (tt, q') →
  fam_runs os (erase q) = Ok (true, erase q').
Proof.
  intros Hos. revert q A. induction Hos as [|o o' os os' Ho _ IH]; intros q A HA Hal; simpl.
  - by intros _ [= <-].
  - destruct (a_op hs es o' A) as [A1|] eqn:HA1; simpl; [|done]. intros Hos Hr.
    destruct (tq_step_refines hs es o' q A A1 HA Hal HA1) as (q1 & Hr1 & HA1' & Hal1).
    rewrite (st_bind_step _ _ _ _ _ Hr1) in Hr.
    qstep (fam_run_erase hs es q A o o' A1 q1 HA (Ho A) HA1 Hr1). by eapply IH.
Qed.

(** A program implements the same operations on lists. *)
Lemma fam_runs_refine hs es os m A A' :
  fam_repr m A → allocated hs es m → fam_ops hs es os A = Some A' →
  ∃ m', fam_runs os m = Ok (true, m') ∧ fam_repr m' A' ∧ allocated hs es m'.
Proof.
  intros (q & <- & HA)%fam_repr_lift Hal%allocated_lift Hos.
  destruct (fam_runs_erase hs es os q A A' HA Hal Hos) as (q' & Hr & HA' & Hal').
  exists (erase q'). split_and!; [done|by apply erase_repr|by apply erase_allocated].
Qed.

End Programs.

Lemma successor_split x y l : successor x l = Some y → ∃ l1 l2, l = l1 ++ x :: y :: l2.
Proof.
  induction l as [|z l IH]; simpl; [done|]. destruct (Z.eqb_spec z x) as [->|_].
  - destruct l as [|z' l]; simpl; [done|]. intros [= ->]. by exists [], l.
  - intros (l1 & l2 & ->)%IH. by exists (z :: l1), l2.
Qed.

(** The lists of a removal that names an element. *)
Lemma remove_split hs es q A h e A' :
  repr q A → a_op hs es (ORemove h e) A = Some A' →
  ∃ l1 l2, A !! h = Some (l1 ++ e :: l2) ∧ queue q h (l1 ++ e :: l2).
Proof.
  intros HA. simpl. destruct (A !! h) as [l|] eqn:Hl; simpl; [|done].
  case_decide as He; [|done]. intros _. pose proof (re_queue _ _ HA _ _ Hl) as Hq.
  destruct (queue_find q h l e Hq He) as (l1 & l2 & -> & _). eauto.
Qed.

Lemma remove_head_split q A h o :
  repr q A → (l ← A !! h; ORemove h <$> head l) = Some o →
  ∃ e l, o = ORemove h e ∧ queue q h (e :: l).
Proof.
  intros HA Ho. destruct (A !! h) as [[|e l]|] eqn:Hl; simpl in Ho; try done.
  injection Ho as <-. exists e, l. split; [done|]. by apply (re_queue _ _ HA).
Qed.

Lemma remove_after_split q A h x o :
  repr q A → (l ← A !! h; ORemove h <$> successor x l) = Some o →
  ∃ l1 e l2, o = ORemove h e ∧ queue q h (l1 ++ x :: e :: l2).
Proof.
  intros HA Ho. destruct (A !! h) as [l|] eqn:Hl; simpl in Ho; [|done].
  destruct (successor x l) as [e|] eqn:He; [|done]. injection Ho as <-.
  destruct (successor_split x e l He) as (l1 & l2 & ->). exists l1, e, l2.
  split; [done|]. by apply (re_queue _ _ HA).
Qed.

Lemma concat_queues hs es q A h1 h2 A' :
  repr q A → a_op hs es (OConcat h1 h2) A = Some A' →
  ∃ l1 l2, h1 ≠ h2 ∧ queue q h1 l1 ∧ queue q h2 l2.
Proof.
  intros HA. simpl. destruct (A !! h1) as [l1|] eqn:H1; simpl; [|done].
  destruct (A !! h2) as [l2|] eqn:H2; simpl; [|done]. case_decide; [|done]. intros _.
  exists l1, l2. split_and!; [done|by apply (re_queue _ _ HA)..].
Qed.

(** Where the search of a removal starts when the element is not the first. *)
Lemma first_not_removed m h l1 x e l2 :
  queue m h ((l1 ++ [x]) ++ e :: l2) → (first_or ((l1 ++ [x]) ++ e :: l2) NULL =? e) = false.
Proof.
  intros (_ & _ & _ & _ & _ & _ & _ & _ & [He _] & _)%queue_cut. apply Z.eqb_neq.
  destruct l1; simpl; set_solver.
Qed.

Lemma first_or_middle l1 x l2 : first_or (l1 ++ x :: l2) NULL = first_or (l1 ++ [x]) NULL.
Proof. by destruct l1. Qed.

(** An element is not inserted next to itself. *)
Lemma insert_after_fresh hs es A h x A' : a_op hs es (OInsertAfter h x x) A ≠ Some A'.
Proof.
  simpl. destruct (A !! h) as [l|] eqn:Hl; simpl; [|done].
  case_decide as H; [|done]. destruct H as (Hx & _ & Hf). by apply (Hf h l Hl) in Hx.
Qed.
