(* ===== verification/SList.v ===== *)
(** * Singly linked lists

    Models the SLIST macros of [src/server/src/queue.h] (with
    [QUEUE_MACRO_DEBUG] off).  The head keeps the first element and an element the
    next one.  The family is an instance of [QueueFamily]: a memory of SLISTs is a
    memory of tail queues without last links and back pointers. *)
From Stdlib Require Import ZArith Lia.
From stdpp Require Import base tactics list gmap sets numbers.
From S2P Require Import Prelude QueueMemory TailQueue QueueFamily.

(** ** Data *)

Record SLIST_HEAD : Type := mkSLHead { slh_first : Z }.
Record SLIST_ENTRY : Type := mkSLLinks { sle_next : Z }.

Notation slmem := (links_mem SLIST_HEAD SLIST_ENTRY).

(** ** The macros *)

Definition SLIST_FIRST (h : Z) : st slmem Z := a ← get_head h; mret (slh_first a).
Definition SLIST_NEXT (n : Z) : st slmem Z := e ← get_elem n; mret (sle_next e).
Definition SLIST_EMPTY (h : Z) : st slmem bool := p ← SLIST_FIRST h; mret (p =? NULL).

(** [SLIST_FIRST(h) = p] and [SLIST_NEXT(n) = p]. *)
Definition sl_set_first (h p : Z) : st slmem unit := _ ← get_head h; put_head h (mkSLHead p).
Definition sl_set_next (n p : Z) : st slmem unit := _ ← get_elem n; put_elem n (mkSLLinks p).

Definition SLIST_INIT (h : Z) : st slmem unit := sl_set_first h NULL.

(** The head that [SLIST_HEAD_INITIALIZER(h)] declares. *)
Definition SLIST_HEAD_INITIALIZER : SLIST_HEAD := mkSLHead NULL.

Definition SLIST_INSERT_HEAD (h elm : Z) : st slmem unit :=
  f ← SLIST_FIRST h;
  sl_set_next elm f ;;;
  sl_set_first h elm.

Definition SLIST_INSERT_AFTER (slistelm elm : Z) : st slmem unit :=
  nx ← SLIST_NEXT slistelm;
  sl_set_next elm nx ;;;
  sl_set_next slistelm elm.

Definition SLIST_REMOVE_HEAD (h : Z) : st slmem unit :=
  f ← SLIST_FIRST h;
  nx ← SLIST_NEXT f;
  sl_set_first h nx.

Definition SLIST_REMOVE_AFTER (elm : Z) : st slmem unit :=
  nx ← SLIST_NEXT elm;
  nnx ← SLIST_NEXT nx;
  sl_set_next elm nnx.

Definition SLIST_REMOVE (h elm : Z) : st slmem bool :=
  f ← SLIST_FIRST h;
  if f =? elm then SLIST_REMOVE_HEAD h ;;; mret true
  else
    curelm ← SLIST_FIRST h;
    o ← walk_elems SLIST_NEXT elm curelm;
    match o with
    | Some curelm => SLIST_REMOVE_AFTER curelm ;;; mret true
    | None => mret false
    end.

Definition SLIST_CONCAT (h1 h2 : Z) : st slmem bool :=
  curelm ← SLIST_FIRST h1;
  if curelm =? NULL then
    f2 ← SLIST_FIRST h2;
    sl_set_first h1 f2 ;;;
    if negb (f2 =? NULL) then SLIST_INIT h2 ;;; mret true else mret true
  else
    f2 ← SLIST_FIRST h2;
    if negb (f2 =? NULL) then
      o ← walk_elems SLIST_NEXT NULL curelm;
      match o with
      | Some curelm =>
        f2 ← SLIST_FIRST h2; sl_set_next curelm f2 ;;; SLIST_INIT h2 ;;; mret true
      | None => mret false
      end
    else mret true.

Definition SLIST_SWAP (h1 h2 : Z) : st slmem unit :=
  swap_first ← SLIST_FIRST h1;
  f2 ← SLIST_FIRST h2;
  sl_set_first h1 f2 ;;;
  sl_set_first h2 swap_first.

(** The loops, over a state [S] that holds the lists. *)
Section Loops.
Context {S : Type} (lists : S → slmem).

Definition SLIST_FOREACH (n : nat) (h : Z) (body : Z → st S unit) : st S bool :=
  var ← q_read lists (SLIST_FIRST h); foreach_loop lists n SLIST_NEXT body var.

Definition SLIST_FOREACH_FROM (n : nat) (h var : Z) (body : Z → st S unit) : st S bool :=
  var ← q_read lists (start_from var (SLIST_FIRST h)); foreach_loop lists n SLIST_NEXT body var.

Definition SLIST_FOREACH_SAFE (n : nat) (h : Z) (body : Z → st S unit) : st S bool :=
  var ← q_read lists (SLIST_FIRST h); foreach_safe_loop lists n SLIST_NEXT body var.

Definition SLIST_FOREACH_FROM_SAFE (n : nat) (h var : Z) (body : Z → st S unit) : st S bool :=
  var ← q_read lists (start_from var (SLIST_FIRST h)); foreach_safe_loop lists n SLIST_NEXT body var.

(** [*varp]. *)
Definition sl_load (k : link) : st slmem Z :=
  match k with FirstOf h => SLIST_FIRST h | NextOf n => SLIST_NEXT n end.

(** The body is given the element and the pointer to the pointer to it. *)
Fixpoint prevptr_loop (n : nat) (body : Z → link → st S unit) (varp : link) : st S bool :=
  match n with
  | O => mret false
  | Datatypes.S n' =>
    var ← q_read lists (sl_load varp);
    if var =? NULL then mret true
    else body var varp ;;; prevptr_loop n' body (NextOf var)
  end.

Definition SLIST_FOREACH_PREVPTR (n : nat) (h : Z) (body : Z → link → st S unit) : st S bool :=
  prevptr_loop n body (FirstOf h).

End Loops.

(** ** Operations *)

(** The operations of a program; [h] in [SInsertAfter] and [SRemoveAfter] says
    which list [x] is in, and is not an argument of the macro. *)
Inductive sl_op : Type :=
| SInit (h : Z)
| SInsertHead (h e : Z)
| SInsertAfter (h x e : Z)
| SRemove (h e : Z)
| SRemoveHead (h : Z)
| SRemoveAfter (h x : Z)
| SConcat (h1 h2 : Z)
| SSwap (h1 h2 : Z).

(** An operation without a walk always ends. *)
Definition sl_run (o : sl_op) : st slmem bool :=
  match o with
  | SInit h => SLIST_INIT h ;;; mret true
  | SInsertHead h e => SLIST_INSERT_HEAD h e ;;; mret true
  | SInsertAfter _ x e => SLIST_INSERT_AFTER x e ;;; mret true
  | SRemove h e => SLIST_REMOVE h e
  | SRemoveHead h => SLIST_REMOVE_HEAD h ;;; mret true
  | SRemoveAfter _ x => SLIST_REMOVE_AFTER x ;;; mret true
  | SConcat h1 h2 => SLIST_CONCAT h1 h2
  | SSwap h1 h2 => SLIST_SWAP h1 h2 ;;; mret true
  end.

(** What it does to the lists, as an operation of tail queues. *)
Definition sl_means (A : gmap Z (list Z)) (o : sl_op) : option tq_op :=
  match o with
  | SInit h => Some (OInit h)
  | SInsertHead h e => Some (OInsertHead h e)
  | SInsertAfter h x e => Some (OInsertAfter h x e)
  | SRemove h e => Some (ORemove h e)
  | SRemoveHead h => l ← A !! h; ORemove h <$> head l
  | SRemoveAfter h x => l ← A !! h; ORemove h <$> successor x l
  | SConcat h1 h2 => Some (OConcat h1 h2)
  | SSwap h1 h2 => Some (OSwap h1 h2)
  end.

#[export] Instance slist_erasure : QueueErasure SLIST_HEAD SLIST_ENTRY := {
  erase_head a := mkSLHead (tqh_first a);
  erase_entry e := mkSLLinks (tqe_next e);
  fill_head a := mkHead (slh_first a) (FirstOf NULL);
  fill_entry e := mkLinks (sle_next e) (FirstOf NULL);
  fam_first := SLIST_FIRST;
  fam_next := SLIST_NEXT
}.

#[export] Instance slist_family : QueueFamily SLIST_HEAD SLIST_ENTRY sl_op := {
  fam_run := sl_run;
  fam_means := sl_means
}.

(** ** The macros simulate those of tail queues *)

Lemma sim_SLIST_FIRST h m : sim erase (TAILQ_FIRST h) (SLIST_FIRST h) m.
Proof. apply sim_head. intros a. apply sim_ret. Qed.

Lemma sim_SLIST_NEXT n m : sim erase (TAILQ_NEXT n) (SLIST_NEXT n) m.
Proof. apply sim_elem. intros e. apply sim_ret. Qed.

#[export] Instance slist_erasure_ok : QueueErasureOk SLIST_HEAD SLIST_ENTRY.
Proof.
  split; [by intros []|by intros []|apply sim_SLIST_FIRST|apply sim_SLIST_NEXT|done].
Qed.

Lemma sim_sl_set_first h p m : sim erase (set_first h p) (sl_set_first h p) m.
Proof. apply (sim_head h _ (λ _, _)). intros a. by apply sim_put_head. Qed.

Lemma sim_sl_set_next n p m : sim erase (set_next n p) (sl_set_next n p) m.
Proof. apply (sim_elem n _ (λ _, _)). intros e. by apply sim_put_elem. Qed.

Lemma sl_silent_last h k : silent erase (set_last h k).
Proof. by apply silent_head. Qed.

Lemma sl_silent_prev n k : silent erase (set_prev n k).
Proof. by apply silent_elem. Qed.

#[local] Hint Resolve sim_SLIST_FIRST sim_SLIST_NEXT sim_sl_set_first sim_sl_set_next
  sl_silent_last sl_silent_prev : sim.

Lemma sl_silent_back h nx k : silent erase (set_back h nx k).
Proof. unfold set_back. destruct (negb _); eauto with sim. Qed.

Lemma sl_silent_get_last h : silent erase (get_last h).
Proof. apply silent_read_head. Qed.

Lemma sl_silent_FIRST h : silent erase (TAILQ_FIRST h).
Proof. apply silent_read_head. Qed.

#[local] Hint Resolve sl_silent_back sl_silent_get_last sl_silent_FIRST : sim.

Lemma sim_SLIST_INIT h m : sim erase (TAILQ_INIT h) (SLIST_INIT h) m.
Proof. unfold TAILQ_INIT, SLIST_INIT. repeat sim_step. Qed.

Lemma sim_SLIST_INSERT_HEAD h e m :
  sim erase (TAILQ_INSERT_HEAD h e) (SLIST_INSERT_HEAD h e) m.
Proof. unfold TAILQ_INSERT_HEAD, SLIST_INSERT_HEAD. repeat sim_step. Qed.

Lemma sim_SLIST_INSERT_AFTER h x e m :
  sim erase (TAILQ_INSERT_AFTER h x e) (SLIST_INSERT_AFTER x e) m.
Proof. unfold TAILQ_INSERT_AFTER, SLIST_INSERT_AFTER. repeat sim_step. Qed.

Lemma sim_SLIST_SWAP h1 h2 m : sim erase (TAILQ_SWAP h1 h2) (SLIST_SWAP h1 h2) m.
Proof. unfold TAILQ_SWAP, SLIST_SWAP. repeat sim_step. Qed.

(** ** Removals *)

(** [*k = p]. *)
Definition sl_store (k : link) (p : Z) : st slmem unit :=
  match k with FirstOf h => sl_set_first h p | NextOf n => sl_set_next n p end.

Lemma sim_sl_store k p m : sim erase (store k p) (sl_store k p) m.
Proof. destruct k; simpl; eauto with sim. Qed.

Lemma sl_remove_store q h l1 e l2 q' :
  queue q h (l1 ++ e :: l2) → TAILQ_REMOVE h e q = Ok (tt, q') →
  sl_store (end_link (FirstOf h) l1) (first_or l2 NULL) (erase q) = Ok (tt, erase q').
Proof.
  intros Hq (q1 & Hb & Hs & _)%(TAILQ_REMOVE_writes _ _ _ _ _ _ Hq).
  rewrite <-(sl_silent_back _ _ _ _ _ _ Hb). by apply (sim_sl_store _ _ q1).
Qed.

Lemma SLIST_FIRST_erase q h l :
  queue q h l → SLIST_FIRST h (erase q) = Ok (first_or l NULL, erase q).
Proof. intros Hq. apply (sim_SLIST_FIRST h q). by apply TAILQ_FIRST_spec. Qed.

Lemma SLIST_NEXT_erase q h l1 x l2 :
  queue q h (l1 ++ x :: l2) → SLIST_NEXT x (erase q) = Ok (first_or l2 NULL, erase q).
Proof. intros Hq. apply (sim_SLIST_NEXT x q). by eapply TAILQ_NEXT_spec. Qed.

Lemma SLIST_REMOVE_HEAD_erase q h e l q' :
  queue q h (e :: l) → TAILQ_REMOVE h e q = Ok (tt, q') →
  SLIST_REMOVE_HEAD h (erase q) = Ok (tt, erase q').
Proof.
  intros Hq Hr. unfold SLIST_REMOVE_HEAD. qstep (SLIST_FIRST_erase q h _ Hq).
  qstep (SLIST_NEXT_erase q h [] e l Hq). by apply (sl_remove_store q h [] e l q').
Qed.

Lemma SLIST_REMOVE_AFTER_erase q h l1 x e l2 q' :
  queue q h (l1 ++ x :: e :: l2) → TAILQ_REMOVE h e q = Ok (tt, q') →
  SLIST_REMOVE_AFTER x (erase q) = Ok (tt, erase q').
Proof.
  intros Hq Hr. unfold SLIST_REMOVE_AFTER. qstep (SLIST_NEXT_erase q h l1 x _ Hq).
  rewrite (cons_middle x), app_assoc in Hq.
  qstep (SLIST_NEXT_erase q h _ e l2 Hq).
  pose proof (sl_remove_store q h (l1 ++ [x]) e l2 q' Hq Hr) as Hs.
  by rewrite end_link_app in Hs.
Qed.

Lemma SLIST_REMOVE_erase q h l1 e l2 q' :
  queue q h (l1 ++ e :: l2) → TAILQ_REMOVE h e q = Ok (tt, q') →
  SLIST_REMOVE h e (erase q) = Ok (true, erase q').
Proof.
  intros Hq Hr. unfold SLIST_REMOVE. qstep (SLIST_FIRST_erase q h _ Hq).
  destruct l1 as [|x l1 _] using rev_ind; simpl.
  - rewrite Z.eqb_refl. by qstep (SLIST_REMOVE_HEAD_erase q h e l2 q' Hq Hr).
  - rewrite (first_not_removed _ _ _ _ _ _ Hq). simpl.
    qstep (SLIST_FIRST_erase q h _ Hq). rewrite <-app_assoc in *. simpl in *.
    rewrite first_or_middle. qstep (fam_walk_to q h l1 x (e :: l2) Hq).
    by qstep (SLIST_REMOVE_AFTER_erase q h l1 x e l2 q' Hq Hr).
Qed.

(** ** Concatenation *)

Lemma sl_set_first_same q h :
  queue q h [] → sl_set_first h NULL (erase q) = Ok (tt, erase q).
Proof.
  intros [Hh Hhd _ _ _]. unfold sl_set_first.
  assert (heads (erase q) !! h = Some (mkSLHead NULL)) as E.
  { unfold erase. simpl. by rewrite lookup_fmap, Hhd. }
  qstep (get_head_ok (erase q) h _ Hh E). unfold put_head. rewrite insert_id by done.
  by destruct (erase q).
Qed.

(** The writes of a concatenation with a non-empty list. *)
Lemma sl_concat_store q h1 h2 l1 n l2 q' :
  queue q h1 l1 → queue q h2 (n :: l2) → TAILQ_CONCAT h1 h2 q = Ok (tt, q') →
  ∃ m, sl_store (end_link (FirstOf h1) l1) n (erase q) = Ok (tt, m) ∧
       SLIST_INIT h2 m = Ok (tt, erase q').
Proof.
  intros Hq1 Hq2 Hc%(TAILQ_CONCAT_writes _ _ _ _ _ _ Hq1 Hq2).
  assert (sim erase (store (end_link (FirstOf h1) l1) n ;;;
    set_prev n (end_link (FirstOf h1) l1) ;;;
    set_last h1 (end_link (FirstOf h2) (n :: l2)) ;;; TAILQ_INIT h2)
    (sl_store (end_link (FirstOf h1) l1) n ;;; SLIST_INIT h2) q) as Hs.
  { apply sim_bind; [apply sim_sl_store|intros]. sim_step. sim_step. apply sim_SLIST_INIT. }
  apply Hs, st_bind_ok in Hc as ([] & m & H1 & H2). eauto.
Qed.

Lemma SLIST_CONCAT_erase q h1 h2 l1 l2 q' :
  queue q h1 l1 → queue q h2 l2 → TAILQ_CONCAT h1 h2 q = Ok (tt, q') →
  SLIST_CONCAT h1 h2 (erase q) = Ok (true, erase q').
Proof.
  intros Hq1 Hq2 Hc. unfold SLIST_CONCAT. pose proof (SLIST_FIRST_erase q h2 _ Hq2) as Hf2.
  qstep (SLIST_FIRST_erase q h1 _ Hq1). destruct l2 as [|n l2].
  - rewrite (TAILQ_CONCAT_writes _ _ _ _ _ _ Hq1 Hq2 Hc).
    destruct (Z.eqb_spec (first_or l1 NULL) NULL) as [E|_]; qstep Hf2; [|done].
    by qstep (sl_set_first_same q h1 (queue_first_null _ _ _ Hq1 E)).
  - destruct (sl_concat_store _ _ _ _ _ _ _ Hq1 Hq2 Hc) as (m & Hs & Hi).
    assert (n =? NULL = false) as Hn by (apply Z.eqb_neq; by apply (queue_cut _ _ [] _ _ Hq2)).
    destruct l1 as [|x l1 _] using rev_ind.
    + simpl. qstep Hf2. qstep Hs. rewrite Hn. simpl. by qstep Hi.
    + assert (first_or (l1 ++ [x]) NULL =? NULL = false) as -> by (by eapply queue_first_nonnull).
      qstep Hf2. rewrite Hn. simpl. qstep (fam_walk_to q h1 l1 x [] Hq1). qstep Hf2.
      rewrite end_link_app in Hs. qstep Hs. by qstep Hi.
Qed.

(** ** The family *)

#[export] Instance slist_family_ok : QueueFamilyOk SLIST_HEAD SLIST_ENTRY sl_op.
Proof.
  split. intros hs es m A o o' A' m' HA Hm Ha Hr.
  destruct o as [h|h e|h x e|h e|h|h x|h1 h2|h1 h2]; simpl in Hm.
  - injection Hm as <-. eapply sim_done; [apply sim_SLIST_INIT|done].
  - injection Hm as <-. eapply sim_done; [apply sim_SLIST_INSERT_HEAD|done].
  - injection Hm as <-. eapply sim_done; [apply sim_SLIST_INSERT_AFTER|done].
  - injection Hm as <-. destruct (remove_split _ _ _ _ _ _ _ HA Ha) as (l1 & l2 & _ & Hq).
    by apply (SLIST_REMOVE_erase m h l1 e l2).
  - destruct (remove_head_split _ _ _ _ HA Hm) as (e & l & -> & Hq).
    cbn [fam_run slist_family sl_run]. by qstep (SLIST_REMOVE_HEAD_erase m h e l m' Hq Hr).
  - destruct (remove_after_split _ _ _ _ _ HA Hm) as (l1 & e & l2 & -> & Hq).
    cbn [fam_run slist_family sl_run]. by qstep (SLIST_REMOVE_AFTER_erase m h l1 x e l2 m' Hq Hr).
  - injection Hm as <-. destruct (concat_queues _ _ _ _ _ _ _ HA Ha) as (l1 & l2 & _ & Hq1 & Hq2).
    by apply (SLIST_CONCAT_erase m h1 h2 l1 l2).
  - injection Hm as <-. eapply sim_done; [apply sim_SLIST_SWAP|done].
Qed.

(** ** Loops *)

Section LoopLemmas.
Context {S : Type} (lists : S → slmem).

(** The elements with the pointers to them. *)
Fixpoint with_links (k : link) (l : list Z) : list (Z * link) :=
  match l with [] => [] | n :: l' => (n, k) :: with_links (NextOf n) l' end.

Lemma sl_load_erase q h l1 l2 :
  queue q h (l1 ++ l2) →
  sl_load (end_link (FirstOf h) l1) (erase q) = Ok (first_or l2 NULL, erase q).
Proof.
  intros Hq. destruct l1 as [|x l1 _] using rev_ind; simpl.
  - by apply SLIST_FIRST_erase.
  - rewrite end_link_app. simpl. rewrite <-app_assoc in Hq. by apply (SLIST_NEXT_erase q h l1).
Qed.

Lemma prevptr_loop_visits q h l1 l2 n body s :
  lists s = erase q → queue q h (l1 ++ l2) →
  (∀ x k s s', body x k s = Ok (tt, s') → lists s' = lists s) →
  (length l2 < n)%nat →
  prevptr_loop lists n body (end_link (FirstOf h) l1) s =
  (run_bodies (λ p, body p.1 p.2) (with_links (end_link (FirstOf h) l1) l2) ;;; mret true) s.
Proof.
  intros Hs Hq Hbody. revert l1 l2 s Hs Hq. induction n as [|n IH]; intros l1 l2 s Hs Hq Hn; [lia|].
  cbn [prevptr_loop]. pose proof (queue_rest _ _ _ _ Hq) as [Hnull _].
  rewrite (st_bind_step _ _ _ (first_or l2 NULL) s)
    by (apply q_read_ok; rewrite Hs; by apply (sl_load_erase q h)).
  destruct l2 as [|x l2]; [done|]. simpl.
  destruct (Z.eqb_spec x NULL) as [->|_]; [by destruct Hnull; left|].
  unfold mbind, st_bind. destruct (body x _ s) as [[[] s1]|] eqn:Hb; [|done].
  specialize (IH (l1 ++ [x]) l2 s1). rewrite end_link_app in IH. apply IH.
  - by rewrite (Hbody _ _ _ _ Hb).
  - by rewrite <-app_assoc.
  - simpl in Hn. lia.
Qed.

End LoopLemmas.

Lemma slist_initializer_empty (m : slmem) h :
  h ≠ NULL → fam_queue (mkQ (<[h:=SLIST_HEAD_INITIALIZER]> (heads m)) (elems m)) h [].
Proof. intros Hh. split; simpl; [done|by rewrite lookup_insert_eq|set_solver|by apply list.NoDup_nil|done]. Qed.

(** ** Properties *)

(** The SLIST macros implement lists: whatever sequence of initialisations,
    insertions, removals (of a given element, of the first, of the next one),
    concatenations and swaps a program makes on its lists within their contract,
    no operation faults, the walks of [SLIST_REMOVE] and [SLIST_CONCAT] end, and
    each head links exactly the elements of its list in order, no element being in
    two lists. *)
Lemma slist_ops_refine_lists hs es (os : list sl_op) (m : slmem) A A' :
  fam_repr m A → allocated hs es m → fam_ops hs es os A = Some A' →
  ∃ m', fam_runs os m = Ok (true, m') ∧ fam_repr m' A' ∧ allocated hs es m'.
Proof. apply fam_runs_refine. Qed.

(** The loops of the family visit the elements of a list once each in order and
    end, for every body that leaves the links alone: [SLIST_FOREACH] from the
    first, [SLIST_FOREACH_FROM] from a given element, and [SLIST_FOREACH_PREVPTR]
    gives its body each element with the address of the pointer to it. *)
Lemma slist_loops_visit {S} (lists : S → slmem) h l1 x l2 n s :
  fam_queue (lists s) h (l1 ++ x :: l2) → (length (l1 ++ x :: l2) < n)%nat →
  (∀ body, (∀ x s s', body x s = Ok (tt, s') → lists s' = lists s) →
    SLIST_FOREACH lists n h body s = (run_bodies body (l1 ++ x :: l2) ;;; mret true) s ∧
    SLIST_FOREACH_FROM lists n h x body s = (run_bodies body (x :: l2) ;;; mret true) s) ∧
  (∀ body, (∀ x k s s', body x k s = Ok (tt, s') → lists s' = lists s) →
    SLIST_FOREACH_PREVPTR lists n h body s =
    (run_bodies (λ p, body p.1 p.2) (with_links (FirstOf h) (l1 ++ x :: l2)) ;;; mret true) s).
Proof.
  intros (q & Hq & Hqq)%fam_queue_erased Hn. split; intros body Hbody.
  - split; [refine (fam_foreach_visits lists q h _ n body s _ Hqq Hbody _); auto with lia|].
    refine (fam_foreach_from_visits lists q h l1 x l2 n body s _ Hqq Hbody _); [done|].
    rewrite length_app in Hn. lia.
  - by apply (prevptr_loop_visits lists q h []).
Qed.

(** ** Concrete lists *)

Definition sl_demo_heap : slmem :=
  mkQ (<[1:=mkSLHead 77]> (<[2:=mkSLHead 0]> ∅))
      (<[10:=mkSLLinks 3]> (<[20:=mkSLLinks 1]> (<[30:=mkSLLinks 0]> ∅))).

Definition sl_demo_ops : list sl_op :=
  [SInit 1; SInit 2; SInsertHead 1 10; SInsertHead 1 20; SInsertAfter 1 10 30; SRemove 1 30;
   SInsertHead 2 30; SConcat 1 2; SRemoveAfter 1 20; SSwap 1 2; SRemoveHead 2; SInsertHead 2 10].

Lemma sl_demo_allocated : allocated {[1; 2]} {[10; 20; 30]} sl_demo_heap.
Proof.
  split.
  - intros h Hh. assert (h = 1 ∨ h = 2) as [-> | ->] by set_solver; (split; [done|by eexists]).
  - intros e He. assert (e = 10 ∨ e = 20 ∨ e = 30) as [-> |[-> | ->]] by set_solver;
      (split; [done|by eexists]).
Qed.
