(* ===== verification/STailQ.v ===== *)
(** * Singly linked tail queues

    Models the STAILQ macros of [src/server/src/queue.h] (with
    [QUEUE_MACRO_DEBUG] off).  The head keeps the first element and the address of
    the last next field, an element the next one.  The family is an instance of
    [QueueFamily]: a memory of STAILQs is a memory of tail queues without back
    pointers. *)
From Stdlib Require Import ZArith Lia.
From stdpp Require Import base tactics list gmap sets numbers.
From S2P Require Import Prelude QueueMemory TailQueue QueueFamily.

(** ** Data *)

Record STAILQ_HEAD : Type := mkSTHead { stqh_first : Z; stqh_last : link }.
Record STAILQ_ENTRY : Type := mkSTLinks { stqe_next : Z }.

Notation stmem := (links_mem STAILQ_HEAD STAILQ_ENTRY).

(** ** The macros *)

Definition STAILQ_FIRST (h : Z) : st stmem Z := a ← get_head h; mret (stqh_first a).
Definition STAILQ_NEXT (n : Z) : st stmem Z := e ← get_elem n; mret (stqe_next e).
Definition STAILQ_EMPTY (h : Z) : st stmem bool := p ← STAILQ_FIRST h; mret (p =? NULL).
Definition stq_get_last (h : Z) : st stmem link := a ← get_head h; mret (stqh_last a).

(** [STAILQ_FIRST(h) = p], [(h)->stqh_last = k], [STAILQ_NEXT(n) = p] and [*k = p]. *)
Definition stq_set_first (h p : Z) : st stmem unit :=
  a ← get_head h; put_head h (mkSTHead p (stqh_last a)).
Definition stq_set_last (h : Z) (k : link) : st stmem unit :=
  a ← get_head h; put_head h (mkSTHead (stqh_first a) k).
Definition stq_set_next (n p : Z) : st stmem unit := _ ← get_elem n; put_elem n (mkSTLinks p).
Definition stq_store (k : link) (p : Z) : st stmem unit :=
  match k with FirstOf h => stq_set_first h p | NextOf n => stq_set_next n p end.

(** [if (p == NULL) (h)->stqh_last = k]. *)
Definition last_if_null (p h : Z) (k : link) : st stmem unit :=
  if p =? NULL then stq_set_last h k else mret tt.

Definition STAILQ_LAST (h : Z) : st stmem Z :=
  b ← STAILQ_EMPTY h;
  if b : bool then mret NULL else k ← stq_get_last h; st_lift (containerof k).

Definition STAILQ_INIT (h : Z) : st stmem unit :=
  stq_set_first h NULL ;;; stq_set_last h (FirstOf h).

(** The head that [STAILQ_HEAD_INITIALIZER(h)] declares. *)
Definition STAILQ_HEAD_INITIALIZER (h : Z) : STAILQ_HEAD := mkSTHead NULL (FirstOf h).

Definition STAILQ_INSERT_AFTER (h tqelm elm : Z) : st stmem unit :=
  nx ← STAILQ_NEXT tqelm;
  stq_set_next elm nx ;;;
  last_if_null nx h (NextOf elm) ;;;
  stq_set_next tqelm elm.

Definition STAILQ_INSERT_HEAD (h elm : Z) : st stmem unit :=
  f ← STAILQ_FIRST h;
  stq_set_next elm f ;;;
  last_if_null f h (NextOf elm) ;;;
  stq_set_first h elm.

Definition STAILQ_INSERT_TAIL (h elm : Z) : st stmem unit :=
  stq_set_next elm NULL ;;;
  k ← stq_get_last h;
  stq_store k elm ;;;
  stq_set_last h (NextOf elm).

Definition STAILQ_CONCAT (h1 h2 : Z) : st stmem unit :=
  b ← STAILQ_EMPTY h2;
  if negb b then
    k1 ← stq_get_last h1;
    f2 ← STAILQ_FIRST h2;
    stq_store k1 f2 ;;;
    k2 ← stq_get_last h2;
    stq_set_last h1 k2 ;;;
    STAILQ_INIT h2
  else mret tt.

Definition STAILQ_REMOVE_HEAD (h : Z) : st stmem unit :=
  f ← STAILQ_FIRST h;
  nx ← STAILQ_NEXT f;
  stq_set_first h nx ;;;
  last_if_null nx h (FirstOf h).

Definition STAILQ_REMOVE_AFTER (h elm : Z) : st stmem unit :=
  nx ← STAILQ_NEXT elm;
  nnx ← STAILQ_NEXT nx;
  stq_set_next elm nnx ;;;
  last_if_null nnx h (NextOf elm).

Definition STAILQ_REMOVE (h elm : Z) : st stmem bool :=
  f ← STAILQ_FIRST h;
  if f =? elm then STAILQ_REMOVE_HEAD h ;;; mret true
  else
    curelm ← STAILQ_FIRST h;
    o ← walk_elems STAILQ_NEXT elm curelm;
    match o with
    | Some curelm => STAILQ_REMOVE_AFTER h curelm ;;; mret true
    | None => mret false
    end.

Definition STAILQ_SWAP (h1 h2 : Z) : st stmem unit :=
  swap_first ← STAILQ_FIRST h1;
  swap_last ← stq_get_last h1;
  f2 ← STAILQ_FIRST h2; stq_set_first h1 f2 ;;;
  k2 ← stq_get_last h2; stq_set_last h1 k2 ;;;
  stq_set_first h2 swap_first ;;;
  stq_set_last h2 swap_last ;;;
  b ← STAILQ_EMPTY h1;
  (if b : bool then stq_set_last h1 (FirstOf h1) else mret tt) ;;;
  b ← STAILQ_EMPTY h2;
  (if b : bool then stq_set_last h2 (FirstOf h2) else mret tt).

(** The loops, over a state [S] that holds the queues. *)
Section Loops.
Context {S : Type} (queues : S → stmem).

Definition STAILQ_FOREACH (n : nat) (h : Z) (body : Z → st S unit) : st S bool :=
  var ← q_read queues (STAILQ_FIRST h); foreach_loop queues n STAILQ_NEXT body var.

Definition STAILQ_FOREACH_FROM (n : nat) (h var : Z) (body : Z → st S unit) : st S bool :=
  var ← q_read queues (start_from var (STAILQ_FIRST h));
  foreach_loop queues n STAILQ_NEXT body var.

Definition STAILQ_FOREACH_SAFE (n : nat) (h : Z) (body : Z → st S unit) : st S bool :=
  var ← q_read queues (STAILQ_FIRST h); foreach_safe_loop queues n STAILQ_NEXT body var.

Definition STAILQ_FOREACH_FROM_SAFE (n : nat) (h var : Z) (body : Z → st S unit) : st S bool :=
  var ← q_read queues (start_from var (STAILQ_FIRST h));
  foreach_safe_loop queues n STAILQ_NEXT body var.

End Loops.

(** ** Operations *)

(** The operations of a program; [h] in the two [After] operations says which
    queue [x] is in. *)
Inductive stq_op : Type :=
| QInit (h : Z)
| QInsertHead (h e : Z)
| QInsertTail (h e : Z)
| QInsertAfter (h x e : Z)
| QRemove (h e : Z)
| QRemoveHead (h : Z)
| QRemoveAfter (h x : Z)
| QConcat (h1 h2 : Z)
| QSwap (h1 h2 : Z).

(** An operation without a walk always ends. *)
Definition stq_run (o : stq_op) : st stmem bool :=
  match o with
  | QInit h => STAILQ_INIT h ;;; mret true
  | QInsertHead h e => STAILQ_INSERT_HEAD h e ;;; mret true
  | QInsertTail h e => STAILQ_INSERT_TAIL h e ;;; mret true
  | QInsertAfter h x e => STAILQ_INSERT_AFTER h x e ;;; mret true
  | QRemove h e => STAILQ_REMOVE h e
  | QRemoveHead h => STAILQ_REMOVE_HEAD h ;;; mret true
  | QRemoveAfter h x => STAILQ_REMOVE_AFTER h x ;;; mret true
  | QConcat h1 h2 => STAILQ_CONCAT h1 h2 ;;; mret true
  | QSwap h1 h2 => STAILQ_SWAP h1 h2 ;;; mret true
  end.

(** What it does to the lists, as an operation of tail queues. *)
Definition stq_means (A : gmap Z (list Z)) (o : stq_op) : option tq_op :=
  match o with
  | QInit h => Some (OInit h)
  | QInsertHead h e => Some (OInsertHead h e)
  | QInsertTail h e => Some (OInsertTail h e)
  | QInsertAfter h x e => Some (OInsertAfter h x e)
  | QRemove h e => Some (ORemove h e)
  | QRemoveHead h => l ← A !! h; ORemove h <$> head l
  | QRemoveAfter h x => l ← A !! h; ORemove h <$> successor x l
  | QConcat h1 h2 => Some (OConcat h1 h2)
  | QSwap h1 h2 => Some (OSwap h1 h2)
  end.

#[export] Instance stailq_erasure : QueueErasure STAILQ_HEAD STAILQ_ENTRY := {
  erase_head a := mkSTHead (tqh_first a) (tqh_last a);
  erase_entry e := mkSTLinks (tqe_next e);
  fill_head a := mkHead (stqh_first a) (stqh_last a);
  fill_entry e := mkLinks (stqe_next e) (FirstOf NULL);
  fam_first := STAILQ_FIRST;
  fam_next := STAILQ_NEXT
}.

#[export] Instance stailq_family : QueueFamily STAILQ_HEAD STAILQ_ENTRY stq_op := {
  fam_run := stq_run;
  fam_means := stq_means
}.

(** ** The macros simulate those of tail queues *)

Lemma sim_STAILQ_FIRST h m : sim erase (TAILQ_FIRST h) (STAILQ_FIRST h) m.
Proof. apply sim_head. intros a. apply sim_ret. Qed.

Lemma sim_STAILQ_NEXT n m : sim erase (TAILQ_NEXT n) (STAILQ_NEXT n) m.
Proof. apply sim_elem. intros e. apply sim_ret. Qed.

#[export] Instance stailq_erasure_ok : QueueErasureOk STAILQ_HEAD STAILQ_ENTRY.
Proof.
  split; [by intros []|by intros []|apply sim_STAILQ_FIRST|apply sim_STAILQ_NEXT|done].
Qed.

Lemma sim_stq_get_last h m : sim erase (get_last h) (stq_get_last h) m.
Proof. apply sim_head. intros a. apply sim_ret. Qed.

Lemma sim_stq_set_first h p m : sim erase (set_first h p) (stq_set_first h p) m.
Proof. apply (sim_head h _ (λ a, put_head h (mkSTHead p (stqh_last a)))). intros a. by apply sim_put_head. Qed.

Lemma sim_stq_set_last h k m : sim erase (set_last h k) (stq_set_last h k) m.
Proof. apply (sim_head h _ (λ a, put_head h (mkSTHead (stqh_first a) k))). intros a. by apply sim_put_head. Qed.

Lemma sim_stq_set_next n p m : sim erase (set_next n p) (stq_set_next n p) m.
Proof. apply (sim_elem n _ (λ _, _)). intros e. by apply sim_put_elem. Qed.

Lemma stq_silent_prev n k : silent erase (set_prev n k).
Proof. by apply silent_elem. Qed.

#[local] Hint Resolve sim_STAILQ_FIRST sim_STAILQ_NEXT sim_stq_get_last sim_stq_set_first
  sim_stq_set_last sim_stq_set_next stq_silent_prev : sim.

Lemma sim_stq_store k p m : sim erase (store k p) (stq_store k p) m.
Proof. destruct k; simpl; eauto with sim. Qed.

Lemma sim_last_if_null h nx k m : sim erase (set_back h nx k) (last_if_null nx h k) m.
Proof.
  unfold set_back, last_if_null. destruct (nx =? NULL); simpl; [eauto with sim|].
  intros [] m' Hp. unfold mret, st_ret. by rewrite (stq_silent_prev _ _ _ _ _ Hp).
Qed.

#[local] Hint Resolve sim_stq_store sim_last_if_null : sim.

Lemma sim_STAILQ_INIT h m : sim erase (TAILQ_INIT h) (STAILQ_INIT h) m.
Proof. unfold TAILQ_INIT, STAILQ_INIT. repeat sim_step. Qed.

#[local] Hint Resolve sim_STAILQ_INIT : sim.

Lemma sim_STAILQ_INSERT_HEAD h e m :
  sim erase (TAILQ_INSERT_HEAD h e) (STAILQ_INSERT_HEAD h e) m.
Proof. unfold TAILQ_INSERT_HEAD, STAILQ_INSERT_HEAD. repeat sim_step. Qed.

Lemma sim_STAILQ_INSERT_AFTER h x e m :
  sim erase (TAILQ_INSERT_AFTER h x e) (STAILQ_INSERT_AFTER h x e) m.
Proof. unfold TAILQ_INSERT_AFTER, STAILQ_INSERT_AFTER. repeat sim_step. Qed.

Lemma stq_silent_get_last h : silent erase (get_last h).
Proof. apply silent_read_head. Qed.

Lemma sim_STAILQ_INSERT_TAIL h e m :
  sim erase (TAILQ_INSERT_TAIL h e) (STAILQ_INSERT_TAIL h e) m.
Proof.
  unfold TAILQ_INSERT_TAIL, STAILQ_INSERT_TAIL. sim_step.
  apply sim_skip; [apply stq_silent_get_last|intros]. repeat sim_step.
Qed.

Lemma sim_STAILQ_EMPTY h m : sim erase (TAILQ_EMPTY h) (STAILQ_EMPTY h) m.
Proof. unfold TAILQ_EMPTY, STAILQ_EMPTY. repeat sim_step. Qed.

Lemma sim_STAILQ_CONCAT h1 h2 m : sim erase (TAILQ_CONCAT h1 h2) (STAILQ_CONCAT h1 h2) m.
Proof.
  unfold TAILQ_CONCAT, STAILQ_CONCAT. apply sim_bind; [apply sim_STAILQ_EMPTY|].
  intros [] m1 _; simpl; [apply sim_ret|]. do 3 sim_step.
  apply sim_skip; [apply stq_silent_get_last|intros]. repeat sim_step.
Qed.

Lemma sim_STAILQ_SWAP h1 h2 m : sim erase (TAILQ_SWAP h1 h2) (STAILQ_SWAP h1 h2) m.
Proof.
  unfold TAILQ_SWAP, STAILQ_SWAP. do 8 sim_step.
  apply (sim_bind_map _ (λ p, p =? NULL)); [by apply sim_STAILQ_EMPTY|intros].
  apply sim_bind; [apply sim_last_if_null|intros].
  apply (sim_bind_map _ (λ p, p =? NULL)); [by apply sim_STAILQ_EMPTY|intros].
  apply sim_last_if_null.
Qed.

(** ** Removals *)

Lemma STAILQ_FIRST_erase q h l :
  queue q h l → STAILQ_FIRST h (erase q) = Ok (first_or l NULL, erase q).
Proof. intros Hq. apply (sim_STAILQ_FIRST h q). by apply TAILQ_FIRST_spec. Qed.

Lemma STAILQ_NEXT_erase q h l1 x l2 :
  queue q h (l1 ++ x :: l2) → STAILQ_NEXT x (erase q) = Ok (first_or l2 NULL, erase q).
Proof. intros Hq. apply (sim_STAILQ_NEXT x q). by eapply TAILQ_NEXT_spec. Qed.

Lemma stq_set_first_ok m h a p : h ≠ NULL → heads m !! h = Some a →
  stq_set_first h p m = Ok (tt, mkQ (<[h:=mkSTHead p (stqh_last a)]> (heads m)) (elems m)).
Proof. intros Hh Ha. unfold stq_set_first. by qstep (get_head_ok m h a Hh Ha). Qed.

Lemma stq_set_last_ok m h a k : h ≠ NULL → heads m !! h = Some a →
  stq_set_last h k m = Ok (tt, mkQ (<[h:=mkSTHead (stqh_first a) k]> (heads m)) (elems m)).
Proof. intros Hh Ha. unfold stq_set_last. by qstep (get_head_ok m h a Hh Ha). Qed.

(** The write of a next field and that of the last link of a head commute. *)
Lemma stq_writes_commute m h k nx k' r :
  (∀ h', k = FirstOf h' → h' = h) → h ≠ NULL → is_Some (heads m !! h) →
  (last_if_null nx h k' ;;; stq_store k nx) m = Ok r →
  (stq_store k nx ;;; last_if_null nx h k') m = Ok r.
Proof.
  intros Hk Hh [a Ha]. unfold last_if_null. destruct (nx =? NULL); [|destruct k; simpl].
  - qstep (stq_set_last_ok m h a k' Hh Ha). destruct k as [h'|n]; simpl.
    + rewrite (Hk h' eq_refl). qstep (stq_set_first_ok m h a nx Hh Ha).
      rewrite (stq_set_first_ok _ h _ nx Hh (lookup_insert_eq _ _ _)).
      rewrite (stq_set_last_ok _ h _ k' Hh (lookup_insert_eq _ _ _)). simpl.
      by rewrite !insert_insert_eq.
    + unfold stq_set_next, mbind, st_bind, get_elem. simpl.
      destruct (lookup_at (elems m) n); [|done]. intros <-. unfold put_elem. simpl.
      by rewrite (stq_set_last_ok (mkQ (heads m) (<[n:=_]> (elems m))) h a k' Hh Ha).
  - intros H. rewrite <-H. simpl. unfold mbind, st_bind. simpl.
    by destruct (stq_set_first head nx m) as [[[] ?]|].
  - intros H. rewrite <-H. unfold mbind, st_bind. simpl.
    by destruct (stq_set_next elm nx m) as [[[] ?]|].
Qed.

Lemma stq_remove_store q h l1 e l2 q' :
  queue q h (l1 ++ e :: l2) → TAILQ_REMOVE h e q = Ok (tt, q') →
  (stq_store (end_link (FirstOf h) l1) (first_or l2 NULL) ;;;
   last_if_null (first_or l2 NULL) h (end_link (FirstOf h) l1)) (erase q) = Ok (tt, erase q').
Proof.
  intros Hq (q1 & Hb & Hs & _)%(TAILQ_REMOVE_writes _ _ _ _ _ _ Hq).
  apply stq_writes_commute.
  - intros h' E. rewrite end_link_cases in E. destruct (list.last l1); [done|by injection E].
  - by destruct Hq.
  - unfold erase. simpl. by rewrite lookup_fmap, (qu_links _ _ _ Hq).
  - rewrite (st_bind_step _ _ _ _ _ (sim_last_if_null _ _ _ _ _ _ Hb)).
    by apply (sim_stq_store _ _ q1).
Qed.

Lemma STAILQ_REMOVE_HEAD_erase q h e l q' :
  queue q h (e :: l) → TAILQ_REMOVE h e q = Ok (tt, q') →
  STAILQ_REMOVE_HEAD h (erase q) = Ok (tt, erase q').
Proof.
  intros Hq Hr. unfold STAILQ_REMOVE_HEAD. qstep (STAILQ_FIRST_erase q h _ Hq).
  qstep (STAILQ_NEXT_erase q h [] e l Hq). by apply (stq_remove_store q h [] e l q').
Qed.

Lemma STAILQ_REMOVE_AFTER_erase q h l1 x e l2 q' :
  queue q h (l1 ++ x :: e :: l2) → TAILQ_REMOVE h e q = Ok (tt, q') →
  STAILQ_REMOVE_AFTER h x (erase q) = Ok (tt, erase q').
Proof.
  intros Hq Hr. unfold STAILQ_REMOVE_AFTER. qstep (STAILQ_NEXT_erase q h l1 x _ Hq).
  rewrite (cons_middle x), app_assoc in Hq. qstep (STAILQ_NEXT_erase q h _ e l2 Hq).
  pose proof (stq_remove_store q h (l1 ++ [x]) e l2 q' Hq Hr) as Hs.
  by rewrite end_link_app in Hs.
Qed.

Lemma STAILQ_REMOVE_erase q h l1 e l2 q' :
  queue q h (l1 ++ e :: l2) → TAILQ_REMOVE h e q = Ok (tt, q') →
  STAILQ_REMOVE h e (erase q) = Ok (true, erase q').
Proof.
  intros Hq Hr. unfold STAILQ_REMOVE. qstep (STAILQ_FIRST_erase q h _ Hq).
  destruct l1 as [|x l1 _] using rev_ind; simpl.
  - rewrite Z.eqb_refl. by qstep (STAILQ_REMOVE_HEAD_erase q h e l2 q' Hq Hr).
  - rewrite (first_not_removed _ _ _ _ _ _ Hq). simpl.
    qstep (STAILQ_FIRST_erase q h _ Hq). rewrite <-app_assoc in *. simpl in *.
    rewrite first_or_middle. qstep (fam_walk_to q h l1 x (e :: l2) Hq).
    by qstep (STAILQ_REMOVE_AFTER_erase q h l1 x e l2 q' Hq Hr).
Qed.

(** The last element. *)
Lemma STAILQ_LAST_erase q h l :
  queue q h l → STAILQ_LAST h (erase q) = Ok (default NULL (list.last l), erase q).
Proof.
  intros Hq. unfold STAILQ_LAST.
  qstep (sim_run _ _ _ _ _ _ (sim_STAILQ_EMPTY h q) (TAILQ_EMPTY_spec q h l Hq)).
  pose proof (sim_run _ _ _ _ _ _ (sim_stq_get_last h q)
    (get_last_ok q h _ (qu_head _ _ _ Hq) (qu_links _ _ _ Hq))) as Hl. simpl in Hl.
  destruct l as [|n l _] using rev_ind; [by rewrite bool_decide_eq_true_2|].
  rewrite bool_decide_eq_false_2 by by destruct l. qstep Hl.
  rewrite end_link_app, last_snoc. done.
Qed.

(** ** The family *)

#[export] Instance stailq_family_ok : QueueFamilyOk STAILQ_HEAD STAILQ_ENTRY stq_op.
Proof.
  split. intros hs es m A o o' A' m' HA Hm Ha Hr.
  destruct o as [h|h e|h e|h x e|h e|h|h x|h1 h2|h1 h2]; simpl in Hm; try injection Hm as <-.
  - eapply sim_done; [apply sim_STAILQ_INIT|done].
  - eapply sim_done; [apply sim_STAILQ_INSERT_HEAD|done].
  - eapply sim_done; [apply sim_STAILQ_INSERT_TAIL|done].
  - eapply sim_done; [apply sim_STAILQ_INSERT_AFTER|done].
  - destruct (remove_split _ _ _ _ _ _ _ HA Ha) as (l1 & l2 & _ & Hq).
    by apply (STAILQ_REMOVE_erase m h l1 e l2).
  - destruct (remove_head_split _ _ _ _ HA Hm) as (e & l & -> & Hq).
    cbn [fam_run stailq_family stq_run]. by qstep (STAILQ_REMOVE_HEAD_erase m h e l m' Hq Hr).
  - destruct (remove_after_split _ _ _ _ _ HA Hm) as (l1 & e & l2 & -> & Hq).
    cbn [fam_run stailq_family stq_run].
    by qstep (STAILQ_REMOVE_AFTER_erase m h l1 x e l2 m' Hq Hr).
  - eapply sim_done; [apply sim_STAILQ_CONCAT|done].
  - eapply sim_done; [apply sim_STAILQ_SWAP|done].
Qed.

Lemma stailq_initializer_empty (m : stmem) h :
  h ≠ NULL → fam_queue (mkQ (<[h:=STAILQ_HEAD_INITIALIZER h]> (heads m)) (elems m)) h [].
Proof. intros Hh. split; simpl; [done|by rewrite lookup_insert_eq|set_solver|by apply list.NoDup_nil|done]. Qed.

(** ** Properties *)

(** The STAILQ macros implement lists: whatever sequence of initialisations,
    insertions at either end or after an element, removals, concatenations and
    swaps a program makes on its queues within their contract, no operation
    faults, the walk of [STAILQ_REMOVE] ends, each head links exactly the elements
    of its list in order, and [STAILQ_LAST] is the last element of it. *)
Lemma stailq_ops_refine_lists hs es (os : list stq_op) (m : stmem) A A' :
  fam_repr m A → allocated hs es m → fam_ops hs es os A = Some A' →
  ∃ m', fam_runs os m = Ok (true, m') ∧ fam_repr m' A' ∧ allocated hs es m' ∧
        ∀ h l, A' !! h = Some l → STAILQ_LAST h m' = Ok (default NULL (list.last l), m').
Proof.
  intros HA Hal Hos. destruct (fam_runs_refine hs es os m A A' HA Hal Hos) as (m' & Hr & HA' & Hal').
  exists m'. split_and!; try done. intros h l Hl.
  destruct (fam_queue_erased m' h l) as (q & <- & Hq); [by apply HA'|].
  by apply STAILQ_LAST_erase.
Qed.

(** ** Concrete queues *)

Definition stq_demo_heap : stmem :=
  mkQ (<[1:=mkSTHead 77 (NextOf 5)]> (<[2:=mkSTHead 0 (FirstOf 9)]> ∅))
      (<[10:=mkSTLinks 3]> (<[20:=mkSTLinks 1]> (<[30:=mkSTLinks 0]> ∅))).

Definition stq_demo_ops : list stq_op :=
  [QInit 1; QInit 2; QInsertTail 1 10; QInsertHead 1 20; QInsertAfter 1 10 30; QRemove 1 30;
   QInsertTail 2 30; QConcat 1 2; QRemoveAfter 1 20; QSwap 1 2; QRemoveHead 2; QInsertTail 2 10].

Lemma stq_demo_allocated : allocated {[1; 2]} {[10; 20; 30]} stq_demo_heap.
Proof.
  split.
  - intros h Hh. assert (h = 1 ∨ h = 2) as [-> | ->] by set_solver; (split; [done|by eexists]).
  - intros e He. assert (e = 10 ∨ e = 20 ∨ e = 30) as [-> |[-> | ->]] by set_solver;
      (split; [done|by eexists]).
Qed.
