(* ===== verification/LList.v ===== *)
(** * Doubly linked lists

    Models the LIST macros of [src/server/src/queue.h] (with [QUEUE_MACRO_DEBUG] and
    [INVARIANTS] off).  The head keeps the first element, an element the next one
    and the address of the pointer to itself.  The family is an instance of
    [QueueFamily]: a memory of LISTs is a memory of tail queues without the last
    links. *)
From Stdlib Require Import ZArith Lia.
From stdpp Require Import base tactics list gmap sets numbers.
From S2P Require Import Prelude QueueMemory TailQueue QueueFamily.

(** ** Data *)

Record LIST_HEAD : Type := mkLHead { lh_first : Z }.
Record LIST_ENTRY : Type := mkLLinks { le_next : Z; le_prev : link }.

Notation lmem := (links_mem LIST_HEAD LIST_ENTRY).

(** ** The macros *)

Definition LIST_FIRST (h : Z) : st lmem Z := a ← get_head h; mret (lh_first a).
Definition LIST_NEXT (n : Z) : st lmem Z := e ← get_elem n; mret (le_next e).
Definition LIST_EMPTY (h : Z) : st lmem bool := p ← LIST_FIRST h; mret (p =? NULL).
Definition lst_get_prev (n : Z) : st lmem link := e ← get_elem n; mret (le_prev e).

(** [LIST_FIRST(h) = p], [LIST_NEXT(n) = p], [(n)->field.le_prev = k] and [*k = p]. *)
Definition lst_set_first (h p : Z) : st lmem unit := _ ← get_head h; put_head h (mkLHead p).
Definition lst_set_next (n p : Z) : st lmem unit :=
  e ← get_elem n; put_elem n (mkLLinks p (le_prev e)).
Definition lst_set_prev (n : Z) (k : link) : st lmem unit :=
  e ← get_elem n; put_elem n (mkLLinks (le_next e) k).
Definition lst_store (k : link) (p : Z) : st lmem unit :=
  match k with FirstOf h => lst_set_first h p | NextOf n => lst_set_next n p end.

(** [if (p != NULL) stmt]. *)
Definition if_nonnull (p : Z) (c : st lmem unit) : st lmem unit :=
  if negb (p =? NULL) then c else mret tt.

Definition LIST_PREV (elm h : Z) : st lmem Z :=
  k ← lst_get_prev elm;
  if bool_decide (k = FirstOf h) then mret NULL else st_lift (containerof k).

Definition LIST_INIT (h : Z) : st lmem unit := lst_set_first h NULL.

(** The head that [LIST_HEAD_INITIALIZER(h)] declares. *)
Definition LIST_HEAD_INITIALIZER : LIST_HEAD := mkLHead NULL.

(** [*k]. *)
Definition lst_load (k : link) : st lmem Z :=
  match k with FirstOf h => LIST_FIRST h | NextOf n => LIST_NEXT n end.

(** The checks that the macros make in a kernel built with [INVARIANTS]; [false]
    is a panic. *)
Definition QMD_LIST_CHECK_HEAD (h : Z) : st lmem bool :=
  f ← LIST_FIRST h;
  if negb (f =? NULL) then k ← lst_get_prev f; mret (bool_decide (k = FirstOf h))
  else mret true.

Definition QMD_LIST_CHECK_NEXT (elm : Z) : st lmem bool :=
  nx ← LIST_NEXT elm;
  if negb (nx =? NULL) then k ← lst_get_prev nx; mret (bool_decide (k = NextOf elm))
  else mret true.

Definition QMD_LIST_CHECK_PREV (elm : Z) : st lmem bool :=
  k ← lst_get_prev elm; p ← lst_load k; mret (p =? elm).

Definition LIST_INSERT_AFTER (listelm elm : Z) : st lmem unit :=
  nx ← LIST_NEXT listelm;
  lst_set_next elm nx ;;;
  if_nonnull nx (nx ← LIST_NEXT listelm; lst_set_prev nx (NextOf elm)) ;;;
  lst_set_next listelm elm ;;;
  lst_set_prev elm (NextOf listelm).

Definition LIST_INSERT_BEFORE (listelm elm : Z) : st lmem unit :=
  k ← lst_get_prev listelm;
  lst_set_prev elm k ;;;
  lst_set_next elm listelm ;;;
  k ← lst_get_prev listelm;
  lst_store k elm ;;;
  lst_set_prev listelm (NextOf elm).

Definition LIST_INSERT_HEAD (h elm : Z) : st lmem unit :=
  f ← LIST_FIRST h;
  lst_set_next elm f ;;;
  if_nonnull f (f ← LIST_FIRST h; lst_set_prev f (NextOf elm)) ;;;
  lst_set_first h elm ;;;
  lst_set_prev elm (FirstOf h).

Definition LIST_REMOVE (elm : Z) : st lmem unit :=
  nx ← LIST_NEXT elm;
  if_nonnull nx (nx ← LIST_NEXT elm; k ← lst_get_prev elm; lst_set_prev nx k) ;;;
  k ← lst_get_prev elm;
  nx ← LIST_NEXT elm;
  lst_store k nx.

(** The result says whether the walk ended. *)
Definition LIST_CONCAT (h1 h2 : Z) : st lmem bool :=
  curelm ← LIST_FIRST h1;
  if curelm =? NULL then
    f2 ← LIST_FIRST h2;
    lst_set_first h1 f2 ;;;
    if_nonnull f2 (f2 ← LIST_FIRST h2; lst_set_prev f2 (FirstOf h1) ;;; LIST_INIT h2) ;;;
    mret true
  else
    f2 ← LIST_FIRST h2;
    if negb (f2 =? NULL) then
      o ← walk_elems LIST_NEXT NULL curelm;
      match o with
      | Some curelm =>
        f2 ← LIST_FIRST h2; lst_set_next curelm f2 ;;;
        f2 ← LIST_FIRST h2; lst_set_prev f2 (NextOf curelm) ;;;
        LIST_INIT h2 ;;; mret true
      | None => mret false
      end
    else mret true.

Definition LIST_SWAP (h1 h2 : Z) : st lmem unit :=
  swap_tmp ← LIST_FIRST h1;
  f2 ← LIST_FIRST h2; lst_set_first h1 f2 ;;;
  lst_set_first h2 swap_tmp ;;;
  swap_tmp ← LIST_FIRST h1; if_nonnull swap_tmp (lst_set_prev swap_tmp (FirstOf h1)) ;;;
  swap_tmp ← LIST_FIRST h2; if_nonnull swap_tmp (lst_set_prev swap_tmp (FirstOf h2)).

(** The loops, over a state [S] that holds the lists. *)
Section Loops.
Context {S : Type} (lists : S → lmem).

Definition LIST_FOREACH (n : nat) (h : Z) (body : Z → st S unit) : st S bool :=
  var ← q_read lists (LIST_FIRST h); foreach_loop lists n LIST_NEXT body var.

Definition LIST_FOREACH_FROM (n : nat) (h var : Z) (body : Z → st S unit) : st S bool :=
  var ← q_read lists (start_from var (LIST_FIRST h)); foreach_loop lists n LIST_NEXT body var.

Definition LIST_FOREACH_SAFE (n : nat) (h : Z) (body : Z → st S unit) : st S bool :=
  var ← q_read lists (LIST_FIRST h); foreach_safe_loop lists n LIST_NEXT body var.

Definition LIST_FOREACH_FROM_SAFE (n : nat) (h var : Z) (body : Z → st S unit) : st S bool :=
  var ← q_read lists (start_from var (LIST_FIRST h)); foreach_safe_loop lists n LIST_NEXT body var.

End Loops.

(** ** Operations *)

(** The operations of a program; [h] in the operations next to an element and in
    [LRemove] says which list the element is in. *)
Inductive lst_op : Type :=
| LInit (h : Z)
| LInsertHead (h e : Z)
| LInsertAfter (h x e : Z)
| LInsertBefore (h x e : Z)
| LRemove (h e : Z)
| LConcat (h1 h2 : Z)
| LSwap (h1 h2 : Z).

(** An operation without a walk always ends. *)
Definition lst_run (o : lst_op) : st lmem bool :=
  match o with
  | LInit h => LIST_INIT h ;;; mret true
  | LInsertHead h e => LIST_INSERT_HEAD h e ;;; mret true
  | LInsertAfter _ x e => LIST_INSERT_AFTER x e ;;; mret true
  | LInsertBefore _ x e => LIST_INSERT_BEFORE x e ;;; mret true
  | LRemove _ e => LIST_REMOVE e ;;; mret true
  | LConcat h1 h2 => LIST_CONCAT h1 h2
  | LSwap h1 h2 => LIST_SWAP h1 h2 ;;; mret true
  end.

(** What it does to the lists, as an operation of tail queues. *)
Definition lst_means (A : gmap Z (list Z)) (o : lst_op) : option tq_op :=
  match o with
  | LInit h => Some (OInit h)
  | LInsertHead h e => Some (OInsertHead h e)
  | LInsertAfter h x e => Some (OInsertAfter h x e)
  | LInsertBefore h x e => Some (OInsertBefore h x e)
  | LRemove h e => Some (ORemove h e)
  | LConcat h1 h2 => Some (OConcat h1 h2)
  | LSwap h1 h2 => Some (OSwap h1 h2)
  end.

#[export] Instance list_erasure : QueueErasure LIST_HEAD LIST_ENTRY := {
  erase_head a := mkLHead (tqh_first a);
  erase_entry e := mkLLinks (tqe_next e) (tqe_prev e);
  fill_head a := mkHead (lh_first a) (FirstOf NULL);
  fill_entry e := mkLinks (le_next e) (le_prev e);
  fam_first := LIST_FIRST;
  fam_next := LIST_NEXT
}.

#[export] Instance list_family : QueueFamily LIST_HEAD LIST_ENTRY lst_op := {
  fam_run := lst_run;
  fam_means := lst_means
}.

(** ** The macros simulate those of tail queues *)

Lemma sim_LIST_FIRST h m : sim erase (TAILQ_FIRST h) (LIST_FIRST h) m.
Proof. apply sim_head. intros a. apply sim_ret. Qed.

Lemma sim_LIST_NEXT n m : sim erase (TAILQ_NEXT n) (LIST_NEXT n) m.
Proof. apply sim_elem. intros e. apply sim_ret. Qed.

#[export] Instance list_erasure_ok : QueueErasureOk LIST_HEAD LIST_ENTRY.
Proof.
  split; [by intros []|by intros []|apply sim_LIST_FIRST|apply sim_LIST_NEXT|done].
Qed.

Lemma sim_lst_get_prev n m : sim erase (get_prev n) (lst_get_prev n) m.
Proof. apply sim_elem. intros e. apply sim_ret. Qed.

Lemma sim_lst_set_first h p m : sim erase (set_first h p) (lst_set_first h p) m.
Proof. apply (sim_head h _ (λ _, _)). intros a. by apply sim_put_head. Qed.

Lemma sim_lst_set_next n p m : sim erase (set_next n p) (lst_set_next n p) m.
Proof. apply (sim_elem n _ (λ e, put_elem n (mkLLinks p (le_prev e)))). intros e. by apply sim_put_elem. Qed.

Lemma sim_lst_set_prev n k m : sim erase (set_prev n k) (lst_set_prev n k) m.
Proof. apply (sim_elem n _ (λ e, put_elem n (mkLLinks (le_next e) k))). intros e. by apply sim_put_elem. Qed.

Lemma lst_silent_last h k : silent erase (set_last h k).
Proof. by apply silent_head. Qed.

Lemma lst_silent_get_last h : silent erase (get_last h).
Proof. apply silent_read_head. Qed.

#[local] Hint Resolve sim_LIST_FIRST sim_LIST_NEXT sim_lst_get_prev sim_lst_set_first
  sim_lst_set_next sim_lst_set_prev lst_silent_last lst_silent_get_last : sim.

Lemma sim_lst_store k p m : sim erase (store k p) (lst_store k p) m.
Proof. destruct k; simpl; eauto with sim. Qed.

#[local] Hint Resolve sim_lst_store : sim.

(** The back pointer of the element that follows, if there is one. *)
Lemma sim_if_nonnull h nx k c m :
  (nx ≠ NULL → sim erase (set_prev nx k) c m) → sim erase (set_back h nx k) (if_nonnull nx c) m.
Proof.
  intros Hc. unfold set_back, if_nonnull. destruct (Z.eqb_spec nx NULL); simpl; [|by apply Hc].
  intros [] m' Hp. unfold mret, st_ret. by rewrite (lst_silent_last _ _ _ _ _ Hp).
Qed.

(** An element is read again before the write. *)
Lemma sim_reread n k d m :
  d (erase m) = Ok (n, erase m) → sim erase (set_prev n k) (n ← d; lst_set_prev n k) m.
Proof. intros Hd [] m' Hp. qstep Hd. by apply sim_lst_set_prev. Qed.

Lemma sim_LIST_INIT h m : sim erase (TAILQ_INIT h) (LIST_INIT h) m.
Proof. unfold TAILQ_INIT, LIST_INIT. repeat sim_step. Qed.

Lemma sim_LIST_INSERT_BEFORE x e m :
  sim erase (TAILQ_INSERT_BEFORE x e) (LIST_INSERT_BEFORE x e) m.
Proof. unfold TAILQ_INSERT_BEFORE, LIST_INSERT_BEFORE. repeat sim_step. Qed.

Lemma sim_LIST_INSERT_HEAD h e m :
  sim erase (TAILQ_INSERT_HEAD h e) (LIST_INSERT_HEAD h e) m.
Proof.
  unfold TAILQ_INSERT_HEAD, LIST_INSERT_HEAD.
  apply sim_bind; [apply sim_LIST_FIRST|intros f m1 Hf].
  apply sim_bind; [apply sim_lst_set_next|intros [] m2 Hn].
  apply sim_bind; [|intros; repeat sim_step].
  apply sim_if_nonnull. intros _. apply sim_reread, (sim_LIST_FIRST h m2).
  by apply (FIRST_kept h f m m1 e f).
Qed.

Lemma sim_LIST_INSERT_AFTER h x e m :
  x ≠ e → sim erase (TAILQ_INSERT_AFTER h x e) (LIST_INSERT_AFTER x e) m.
Proof.
  intros Hx. unfold TAILQ_INSERT_AFTER, LIST_INSERT_AFTER.
  apply sim_bind; [apply sim_LIST_NEXT|intros nx m1 Hnx].
  apply sim_bind; [apply sim_lst_set_next|intros [] m2 Hn].
  apply sim_bind; [|intros; repeat sim_step].
  apply sim_if_nonnull. intros _. apply sim_reread, (sim_LIST_NEXT x m2).
  by apply (NEXT_kept x nx m m1 e nx).
Qed.

Lemma sim_LIST_SWAP h1 h2 m : sim erase (TAILQ_SWAP h1 h2) (LIST_SWAP h1 h2) m.
Proof.
  unfold TAILQ_SWAP, LIST_SWAP. do 9 sim_step.
  apply sim_bind; [apply sim_if_nonnull; eauto with sim|intros]. sim_step.
  apply sim_if_nonnull; eauto with sim.
Qed.

(** ** Removal *)

Lemma LIST_FIRST_erase q h l :
  queue q h l → LIST_FIRST h (erase q) = Ok (first_or l NULL, erase q).
Proof. intros Hq. apply (sim_LIST_FIRST h q). by apply TAILQ_FIRST_spec. Qed.

Lemma lst_elem_reads q n e :
  n ≠ NULL → elems q !! n = Some e →
  LIST_NEXT n (erase q) = Ok (tqe_next e, erase q) ∧
  lst_get_prev n (erase q) = Ok (tqe_prev e, erase q).
Proof.
  intros Hn He. split.
  - apply (sim_LIST_NEXT n q). by apply TAILQ_NEXT_ok.
  - apply (sim_lst_get_prev n q). by apply get_prev_ok.
Qed.

Lemma LIST_REMOVE_erase q h l1 e l2 q' :
  queue q h (l1 ++ e :: l2) → TAILQ_REMOVE h e q = Ok (tt, q') →
  LIST_REMOVE e (erase q) = Ok (tt, erase q').
Proof.
  intros Hq (q1 & Hb & Hs & He)%(TAILQ_REMOVE_writes _ _ _ _ _ _ Hq).
  apply queue_cut in Hq as (_ & He0 & _ & _ & Hel & _). rewrite Hel in He.
  destruct (lst_elem_reads q e _ He0 Hel) as [Hn Hp].
  destruct (lst_elem_reads q1 e _ He0 He) as [Hn1 Hp1]. simpl in *.
  unfold LIST_REMOVE. qstep Hn.
  rewrite (st_bind_step _ _ _ tt (erase q1)).
  - qstep Hp1. qstep Hn1. by apply (sim_lst_store _ _ q1).
  - apply (sim_if_nonnull h _ (end_link (FirstOf h) l1)); [|done].
    intros _ [] m' Hset. qstep Hn. qstep Hp. by apply sim_lst_set_prev.
Qed.

(** The previous element. *)
Lemma LIST_PREV_erase q h l1 n l2 :
  queue q h (l1 ++ n :: l2) → LIST_PREV n h (erase q) = Ok (default NULL (list.last l1), erase q).
Proof.
  intros (_ & Hn0 & _ & _ & Hn & _)%queue_cut. unfold LIST_PREV.
  destruct (lst_elem_reads q n _ Hn0 Hn) as [_ Hp]. qstep Hp. rewrite end_link_cases.
  destruct (list.last l1) as [p|].
  - by rewrite bool_decide_eq_false_2.
  - by rewrite bool_decide_eq_true_2.
Qed.

(** ** Concatenation *)

Lemma lst_set_first_same q h :
  queue q h [] → lst_set_first h NULL (erase q) = Ok (tt, erase q).
Proof.
  intros [Hh Hhd _ _ _]. unfold lst_set_first.
  assert (heads (erase q) !! h = Some (mkLHead NULL)) as E.
  { unfold erase. simpl. by rewrite lookup_fmap, Hhd. }
  qstep (get_head_ok (erase q) h _ Hh E). unfold put_head. rewrite insert_id by done.
  by destruct (erase q).
Qed.

(** The first element of another list is read again after a write. *)
Lemma lst_first_kept k n m m1 h2 f :
  k ≠ FirstOf h2 → lst_store k n m = Ok (tt, m1) → LIST_FIRST h2 m = Ok (f, m) →
  LIST_FIRST h2 m1 = Ok (f, m1).
Proof.
  intros Hk. destruct k as [h1|e]; simpl.
  - intros (a & m0 & Ha & Hp)%st_bind_ok. unfold get_head in Ha.
    destruct (lookup_at (heads m) h1); [|done]. injection Ha as <- <-. injection Hp as <-.
    unfold LIST_FIRST, mbind, st_bind, get_head, lookup_at. simpl.
    rewrite lookup_insert_ne by congruence. destruct (h2 =? NULL); [done|].
    destruct (heads m !! h2); [|done]. by intros [= <-].
  - intros (a & m0 & Ha & Hp)%st_bind_ok. unfold get_elem in Ha.
    destruct (lookup_at (elems m) e); [|done]. injection Ha as <- <-. injection Hp as <-.
    unfold LIST_FIRST, mbind, st_bind, get_head. simpl.
    destruct (lookup_at (heads m) h2); [|done]. by intros [= <-].
Qed.

(** The writes of a concatenation with a non-empty list. *)
Lemma lst_concat_writes q h1 h2 l1 n l2 q' :
  queue q h1 l1 → queue q h2 (n :: l2) → h1 ≠ h2 → TAILQ_CONCAT h1 h2 q = Ok (tt, q') →
  ∃ m m1, lst_store (end_link (FirstOf h1) l1) n (erase q) = Ok (tt, m) ∧
    LIST_FIRST h2 m = Ok (n, m) ∧
    lst_set_prev n (end_link (FirstOf h1) l1) m = Ok (tt, m1) ∧
    LIST_INIT h2 m1 = Ok (tt, erase q').
Proof.
  intros Hq1 Hq2 Hh Hc%(TAILQ_CONCAT_writes _ _ _ _ _ _ Hq1 Hq2).
  assert (sim erase (store (end_link (FirstOf h1) l1) n ;;;
    set_prev n (end_link (FirstOf h1) l1) ;;;
    set_last h1 (end_link (FirstOf h2) (n :: l2)) ;;; TAILQ_INIT h2)
    (lst_store (end_link (FirstOf h1) l1) n ;;;
     lst_set_prev n (end_link (FirstOf h1) l1) ;;; LIST_INIT h2) q) as Hs.
  { do 3 sim_step. apply sim_LIST_INIT. }
  apply Hs, st_bind_ok in Hc as ([] & m & H1 & ([] & m1 & H2 & H3)%st_bind_ok).
  exists m, m1. split_and!; try done. eapply lst_first_kept; [|exact H1|].
  - rewrite end_link_cases. destruct (list.last l1); congruence.
  - apply (LIST_FIRST_erase q h2 _ Hq2).
Qed.

Lemma LIST_CONCAT_erase q h1 h2 l1 l2 q' :
  queue q h1 l1 → queue q h2 l2 → h1 ≠ h2 → TAILQ_CONCAT h1 h2 q = Ok (tt, q') →
  LIST_CONCAT h1 h2 (erase q) = Ok (true, erase q').
Proof.
  intros Hq1 Hq2 Hh Hc. unfold LIST_CONCAT, if_nonnull.
  pose proof (LIST_FIRST_erase q h2 _ Hq2) as Hf2.
  qstep (LIST_FIRST_erase q h1 _ Hq1). destruct l2 as [|n l2].
  - rewrite (TAILQ_CONCAT_writes _ _ _ _ _ _ Hq1 Hq2 Hc).
    destruct (Z.eqb_spec (first_or l1 NULL) NULL) as [E|_]; qstep Hf2; [|done].
    by qstep (lst_set_first_same q h1 (queue_first_null _ _ _ Hq1 E)).
  - destruct (lst_concat_writes _ _ _ _ _ _ _ Hq1 Hq2 Hh Hc) as (m & m1 & Hs & Hf & Hp & Hi).
    assert (n =? NULL = false) as Hn by (apply Z.eqb_neq; by apply (queue_cut _ _ [] _ _ Hq2)).
    destruct l1 as [|x l1 _] using rev_ind.
    + simpl. qstep Hf2. qstep Hs. rewrite Hn. simpl.
      rewrite (st_bind_step _ _ _ tt (erase q')); [done|]. qstep Hf. by qstep Hp.
    + rewrite (queue_first_nonnull _ _ _ _ Hq1). qstep Hf2. rewrite Hn. simpl.
      qstep (fam_walk_to q h1 l1 x [] Hq1). qstep Hf2. rewrite end_link_app in *. simpl in *.
      qstep Hs. qstep Hf. qstep Hp. by qstep Hi.
Qed.

(** ** The family *)

#[export] Instance list_family_ok : QueueFamilyOk LIST_HEAD LIST_ENTRY lst_op.
Proof.
  split. intros hs es m A o o' A' m' HA Hm Ha Hr.
  destruct o as [h|h e|h x e|h x e|h e|h1 h2|h1 h2]; simpl in Hm; injection Hm as <-.
  - eapply sim_done; [apply sim_LIST_INIT|done].
  - eapply sim_done; [apply sim_LIST_INSERT_HEAD|done].
  - eapply sim_done; [apply sim_LIST_INSERT_AFTER|done].
    intros ->. by apply insert_after_fresh in Ha.
  - eapply sim_done; [apply sim_LIST_INSERT_BEFORE|done].
  - destruct (remove_split _ _ _ _ _ _ _ HA Ha) as (l1 & l2 & _ & Hq).
    eapply sim_done; [|done]. intros [] q' Hq'. by apply (LIST_REMOVE_erase m h l1 e l2).
  - destruct (concat_queues _ _ _ _ _ _ _ HA Ha) as (l1 & l2 & Hh & Hq1 & Hq2).
    by apply (LIST_CONCAT_erase m h1 h2 l1 l2).
  - eapply sim_done; [apply sim_LIST_SWAP|done].
Qed.

(** ** The checks *)

Lemma sim_lst_load k m : sim erase (load k) (lst_load k) m.
Proof. destruct k; simpl; eauto with sim. Qed.

Lemma sim_LIST_CHECK_NEXT n m : sim erase (QMD_TAILQ_CHECK_NEXT n) (QMD_LIST_CHECK_NEXT n) m.
Proof.
  unfold QMD_TAILQ_CHECK_NEXT, QMD_LIST_CHECK_NEXT. sim_step.
  destruct (negb _); [sim_step; apply sim_ret|apply sim_ret].
Qed.

Lemma sim_LIST_CHECK_PREV n m : sim erase (QMD_TAILQ_CHECK_PREV n) (QMD_LIST_CHECK_PREV n) m.
Proof.
  unfold QMD_TAILQ_CHECK_PREV, QMD_LIST_CHECK_PREV. sim_step.
  apply sim_bind; [apply sim_lst_load|intros; apply sim_ret].
Qed.

(** The checks never panic on a list. *)
Lemma list_checks_pass (m : lmem) h l :
  fam_queue m h l →
  QMD_LIST_CHECK_HEAD h m = Ok (true, m) ∧
  ∀ n, n ∈ l → QMD_LIST_CHECK_NEXT n m = Ok (true, m) ∧ QMD_LIST_CHECK_PREV n m = Ok (true, m).
Proof.
  intros (q & <- & Hq)%fam_queue_erased.
  destruct (tailq_checks_pass q h l Hq) as (_ & _ & Hn). split.
  - unfold QMD_LIST_CHECK_HEAD. qstep (LIST_FIRST_erase q h l Hq). destruct l as [|n l]; [done|].
    apply (queue_cut _ _ []) in Hq as (_ & Hn0 & _ & _ & He & _). cbn [first_or].
    rewrite (proj2 (Z.eqb_neq n NULL) Hn0). cbn [negb].
    qstep (proj2 (lst_elem_reads q n _ Hn0 He)). by rewrite bool_decide_eq_true_2.
  - intros n [H1 H2]%Hn. split.
    + by apply (sim_LIST_CHECK_NEXT n q).
    + by apply (sim_LIST_CHECK_PREV n q).
Qed.

Lemma list_initializer_empty (m : lmem) h :
  h ≠ NULL → fam_queue (mkQ (<[h:=LIST_HEAD_INITIALIZER]> (heads m)) (elems m)) h [].
Proof. intros Hh. split; simpl; [done|by rewrite lookup_insert_eq|set_solver|by apply list.NoDup_nil|done]. Qed.

(** ** Properties *)

(** The LIST macros implement lists: whatever sequence of initialisations,
    insertions at the head or next to an element, removals, concatenations and
    swaps a program makes on its lists within their contract, no operation faults,
    the walk of [LIST_CONCAT] ends, each head links exactly the elements of its
    list in order, and [LIST_PREV] of an element is the one before it. *)
Lemma list_ops_refine_lists hs es (os : list lst_op) (m : lmem) A A' :
  fam_repr m A → allocated hs es m → fam_ops hs es os A = Some A' →
  ∃ m', fam_runs os m = Ok (true, m') ∧ fam_repr m' A' ∧ allocated hs es m' ∧
        ∀ h l1 n l2, A' !! h = Some (l1 ++ n :: l2) →
          LIST_PREV n h m' = Ok (default NULL (list.last l1), m').
Proof.
  intros HA Hal Hos. destruct (fam_runs_refine hs es os m A A' HA Hal Hos) as (m' & Hr & HA' & Hal').
  exists m'. split_and!; try done. intros h l1 n l2 Hl.
  destruct (fam_queue_erased m' h (l1 ++ n :: l2)) as (q & <- & Hq); [by apply HA'|].
  by apply (LIST_PREV_erase q h l1 n l2).
Qed.

(** ** Concrete lists *)

Definition lst_demo_heap : lmem :=
  mkQ (<[1:=mkLHead 77]> (<[2:=mkLHead 0]> ∅))
      (<[10:=mkLLinks 3 (NextOf 3)]> (<[20:=mkLLinks 1 (FirstOf 1)]>
       (<[30:=mkLLinks 0 (NextOf 10)]> ∅))).

Definition lst_demo_ops : list lst_op :=
  [LInit 1; LInit 2; LInsertHead 1 10; LInsertHead 1 20; LInsertAfter 1 10 30; LRemove 1 30;
   LInsertBefore 1 20 30; LConcat 2 1; LSwap 1 2; LInit 2].

