(* ===== verification/QueueFamilies.v ===== *)
(** * The families of queue macros compared

    The four families of [src/server/src/queue.h] offer some operations in common.
    Here the same program is run on each of them, from memories that keep fewer and
    fewer fields of the same tail queues; and what the families with a walk do with
    an element that is not in the list. *)
From Stdlib Require Import ZArith Lia.
From stdpp Require Import base tactics list gmap sets numbers.
From S2P Require Import Prelude QueueMemory TailQueue QueueFamily SList STailQ LList.

(** ** Common operations *)

(** The rows of the table at the top of [queue.h] that have no gap. *)
Inductive common_op : Type :=
| CInit (h : Z)
| CInsertHead (h e : Z)
| CInsertAfter (h x e : Z)
| CRemove (h e : Z)
| CConcat (h1 h2 : Z)
| CSwap (h1 h2 : Z).

Definition to_tailq (o : common_op) : tq_op :=
  match o with
  | CInit h => OInit h
  | CInsertHead h e => OInsertHead h e
  | CInsertAfter h x e => OInsertAfter h x e
  | CRemove h e => ORemove h e
  | CConcat h1 h2 => OConcat h1 h2
  | CSwap h1 h2 => OSwap h1 h2
  end.

Definition to_slist (o : common_op) : sl_op :=
  match o with
  | CInit h => SInit h
  | CInsertHead h e => SInsertHead h e
  | CInsertAfter h x e => SInsertAfter h x e
  | CRemove h e => SRemove h e
  | CConcat h1 h2 => SConcat h1 h2
  | CSwap h1 h2 => SSwap h1 h2
  end.

Definition to_stailq (o : common_op) : stq_op :=
  match o with
  | CInit h => QInit h
  | CInsertHead h e => QInsertHead h e
  | CInsertAfter h x e => QInsertAfter h x e
  | CRemove h e => QRemove h e
  | CConcat h1 h2 => QConcat h1 h2
  | CSwap h1 h2 => QSwap h1 h2
  end.

Definition to_list (o : common_op) : lst_op :=
  match o with
  | CInit h => LInit h
  | CInsertHead h e => LInsertHead h e
  | CInsertAfter h x e => LInsertAfter h x e
  | CRemove h e => LRemove h e
  | CConcat h1 h2 => LConcat h1 h2
  | CSwap h1 h2 => LSwap h1 h2
  end.

(** ** Lemmas *)

Lemma common_means {HD EN Op} `{QueueFamily HD EN Op} (f : common_op → Op) os :
  (∀ A o, fam_means A (f o) = Some (to_tailq o)) →
  Forall2 (λ o o', ∀ A, fam_means A o = Some o') (f <$> os) (to_tailq <$> os).
Proof. intros Hf. apply Forall2_fmap_2, Forall_Forall2_diag, Forall_true. auto. Qed.

Lemma repr_fam_queue {HD EN} `{QueueErasure HD EN} q A h l :
  repr q A → A !! h = Some l → fam_queue (erase q) h l.
Proof. intros HA Hl. by apply erase_queue, (re_queue _ _ HA). Qed.

(** ** Properties *)

(** C25: The four families are interchangeable for the operations they share: a
    program of such operations within their contract, run on tail queues and on
    the same queues with fields erased, gives on each family what is left of the
    result on the tail queues, so that the heads link the same elements in the same
    order. *)
Theorem queue_families_agree hs es (os : list common_op) q A A' :
  repr q A → allocated hs es q → a_ops hs es (to_tailq <$> os) A = Some A' →
  ∃ q', run_ops (to_tailq <$> os) q = Ok (tt, q') ∧ repr q' A' ∧
    fam_runs (to_slist <$> os) (erase q : slmem) = Ok (true, erase q') ∧
    fam_runs (to_stailq <$> os) (erase q : stmem) = Ok (true, erase q') ∧
    fam_runs (to_list <$> os) (erase q : lmem) = Ok (true, erase q').
Proof.
  intros HA Hal Hos. destruct (a_ops_run hs es _ q A A' HA Hal Hos) as (q' & Hr & HA' & _).
  exists q'. split_and!; try done; (eapply fam_runs_simulate; [apply common_means; by intros ? []|..]);
    eauto.
Qed.

(** [SLIST_REMOVE] and [STAILQ_REMOVE] of an element that is not in the list
    have no result: the walk to the element before it goes past the end of the list
    and dereferences the null pointer. *)
Lemma remove_absent_faults h l e :
  e ∉ l → e ≠ NULL →
  (∀ m : slmem, fam_queue m h l → SLIST_REMOVE h e m = Fault NullDeref) ∧
  (∀ m : stmem, fam_queue m h l → STAILQ_REMOVE h e m = Fault NullDeref).
Proof.
  intros He He0. assert (first_or l NULL =? e = false) as Hf.
  { apply Z.eqb_neq. destruct l; simpl; set_solver. }
  split; intros m (q & <- & Hq)%fam_queue_erased.
  - unfold SLIST_REMOVE. qstep (SLIST_FIRST_erase q h l Hq). rewrite Hf.
    qstep (SLIST_FIRST_erase q h l Hq). apply st_bind_fault. exact (fam_walk_absent (HD:=SLIST_HEAD) q h l e Hq He He0).
  - unfold STAILQ_REMOVE. qstep (STAILQ_FIRST_erase q h l Hq). rewrite Hf.
    qstep (STAILQ_FIRST_erase q h l Hq). apply st_bind_fault. exact (fam_walk_absent (HD:=STAILQ_HEAD) q h l e Hq He He0).
Qed.

(** ** Concrete queues *)

Definition common_demo : list common_op :=
  [CInit 1; CInit 2; CInsertHead 1 10; CInsertAfter 1 10 20; CInsertHead 2 30; CConcat 1 2;
   CRemove 1 20; CSwap 2 1].

Lemma queue_families_agree_witness :
  ∃ q', run_ops (to_tailq <$> common_demo) demo_heap = Ok (tt, q') ∧ queue q' 2 [10; 30] ∧
    fam_runs (to_slist <$> common_demo) (erase demo_heap : slmem) = Ok (true, erase q').
Proof.
  destruct (queue_families_agree {[1; 2]} {[10; 20; 30]} common_demo demo_heap ∅
    (<[2:=[10; 30]]> (<[1:=[]]> ∅))) as (q' & Hr & HA & Hs & _).
  - split; [|intros h1 h2 l1 l2 n Hl]; [intros h l Hl|]; by vm_compute in Hl.
  - apply demo_allocated.
  - vm_compute. reflexivity.
  - exists q'. split; [exact Hr|]. split; [apply HA; reflexivity|exact Hs].
Defined.

