(* ===== verification/QueueDebug.v ===== *)
(** * The queues in a build with QUEUE_MACRO_DEBUG

    With [QUEUE_MACRO_DEBUG] the macros of [src/server/src/queue.h] keep, for each
    head and each element of a tail queue, the last two places that altered it, and
    the removals of a given element overwrite its links with [(void * )-1].  The
    repository does not define it.  Here are the macros with the parameter [debug]
    that says whether it is defined: the tail queues with their traces ([dmem] is
    the memory of [TailQueue] and the traces), and the removals of the other
    families.  The first part of the theorems is that neither build changes what
    the queues hold; the second is what each build makes of a loop that removes the
    element it visits. *)
From Stdlib Require Import ZArith Lia.
From stdpp Require Import base tactics list gmap sets numbers.
From S2P Require Import Prelude QueueMemory TailQueue QueueFamily SList STailQ LList.

(** ** Traces *)

Record qm_trace : Type := mkTrace {
  lastline : Z;
  prevline : Z;
  lastfile : Z;
  prevfile : Z
}.

(** The place of a macro in the source: [__LINE__] and [__FILE__]. *)
Record place : Type := mkPlace {
  LINE : Z;
  FILE : Z
}.

(** The queues, and what the trace of each head and of each element holds. *)
Record dmem : Type := mkD {
  dq : qmem;
  htrace : Z → qm_trace;
  etrace : Z → qm_trace
}.

(** [(void * )-1], as the pointer to an element and as the address of a pointer. *)
Definition TRASH : Z := -1.
Definition TRASH_LINK : link := FirstOf TRASH.

Definition TRACEBUF_INITIALIZER (p : place) : qm_trace := mkTrace (LINE p) 0 (FILE p) NULL.

(** The four assignments of a trace. *)
Definition traced (p : place) (t : qm_trace) : qm_trace :=
  let t := mkTrace (lastline t) (lastline t) (lastfile t) (prevfile t) in
  let t := mkTrace (lastline t) (prevline t) (lastfile t) (lastfile t) in
  let t := mkTrace (LINE p) (prevline t) (lastfile t) (prevfile t) in
  mkTrace (lastline t) (prevline t) (FILE p) (prevfile t).

Definition set_at (f : Z → qm_trace) (x : Z) (t : qm_trace) : Z → qm_trace :=
  λ y, if y =? x then t else f y.

Definition d_lift {A} (c : st qmem A) : st dmem A :=
  λ d, match c (dq d) with
       | Ok (a, m) => Ok (a, mkD m (htrace d) (etrace d))
       | Fault f => Fault f
       end.

Section Debug.
(** Whether [QUEUE_MACRO_DEBUG] is defined. *)
Context (debug : bool).

(** The macros trace a head or an element that they have accessed before. *)
Definition QMD_TRACE_HEAD (p : place) (h : Z) : st dmem unit :=
  if debug then λ d, Ok (tt, mkD (dq d) (set_at (htrace d) h (traced p (htrace d h))) (etrace d))
  else mret tt.

Definition QMD_TRACE_ELEM (p : place) (n : Z) : st dmem unit :=
  if debug then λ d, Ok (tt, mkD (dq d) (htrace d) (set_at (etrace d) n (traced p (etrace d n))))
  else mret tt.

(** [TRASHIT] of the two links of an element, whose addresses [QMD_SAVELINK] has
    saved. *)
Definition trash_next (n : Z) : st qmem unit := if debug then set_next n TRASH else mret tt.
Definition trash_prev (n : Z) : st qmem unit := if debug then set_prev n TRASH_LINK else mret tt.
Definition trash (n : Z) : st qmem unit := trash_next n ;;; trash_prev n.

(** ** The macros of the tail queues *)

Definition TAILQ_INIT_debug (p : place) (h : Z) : st dmem unit :=
  d_lift (set_first h NULL) ;;;
  d_lift (set_last h (FirstOf h)) ;;;
  QMD_TRACE_HEAD p h.

(** The conditional of a macro that changes the last link of the head. *)
Definition set_back_debug (p : place) (h nx : Z) (k : link) : st dmem unit :=
  if negb (nx =? NULL) then d_lift (set_prev nx k)
  else d_lift (set_last h k) ;;; QMD_TRACE_HEAD p h.

Definition TAILQ_INSERT_TAIL_debug (p : place) (h elm : Z) : st dmem unit :=
  d_lift (set_next elm NULL) ;;;
  k ← d_lift (get_last h);
  d_lift (set_prev elm k) ;;;
  k ← d_lift (get_last h);
  d_lift (store k elm) ;;;
  d_lift (set_last h (NextOf elm)) ;;;
  QMD_TRACE_HEAD p h ;;;
  QMD_TRACE_ELEM p elm.

Definition TAILQ_INSERT_HEAD_debug (p : place) (h elm : Z) : st dmem unit :=
  f ← d_lift (TAILQ_FIRST h);
  d_lift (set_next elm f) ;;;
  d_lift (set_back h f (NextOf elm)) ;;;
  d_lift (set_first h elm) ;;;
  d_lift (set_prev elm (FirstOf h)) ;;;
  QMD_TRACE_HEAD p h ;;;
  QMD_TRACE_ELEM p elm.

Definition TAILQ_INSERT_AFTER_debug (p : place) (h listelm elm : Z) : st dmem unit :=
  nx ← d_lift (TAILQ_NEXT listelm);
  d_lift (set_next elm nx) ;;;
  set_back_debug p h nx (NextOf elm) ;;;
  d_lift (set_next listelm elm) ;;;
  d_lift (set_prev elm (NextOf listelm)) ;;;
  QMD_TRACE_ELEM p elm ;;;
  QMD_TRACE_ELEM p listelm.

Definition TAILQ_INSERT_BEFORE_debug (p : place) (listelm elm : Z) : st dmem unit :=
  k ← d_lift (get_prev listelm);
  d_lift (set_prev elm k) ;;;
  d_lift (set_next elm listelm) ;;;
  k ← d_lift (get_prev listelm);
  d_lift (store k elm) ;;;
  d_lift (set_prev listelm (NextOf elm)) ;;;
  QMD_TRACE_ELEM p elm ;;;
  QMD_TRACE_ELEM p listelm.

(** [TAILQ_REMOVE] up to the two [TRASHIT]. *)
Definition remove_links_debug (p : place) (h elm : Z) : st dmem unit :=
  nx ← d_lift (TAILQ_NEXT elm);
  k ← d_lift (get_prev elm);
  set_back_debug p h nx k ;;;
  k ← d_lift (get_prev elm);
  nx ← d_lift (TAILQ_NEXT elm);
  d_lift (store k nx).

Definition TAILQ_REMOVE_debug (p : place) (h elm : Z) : st dmem unit :=
  remove_links_debug p h elm ;;;
  d_lift (trash_next elm) ;;;
  d_lift (trash_prev elm) ;;;
  QMD_TRACE_ELEM p elm.

(** The nested [TAILQ_INIT] is at the place of the outer macro. *)
Definition TAILQ_CONCAT_debug (p : place) (h1 h2 : Z) : st dmem unit :=
  b ← d_lift (TAILQ_EMPTY h2);
  if negb b then
    k1 ← d_lift (get_last h1);
    f2 ← d_lift (TAILQ_FIRST h2);
    d_lift (store k1 f2) ;;;
    k1 ← d_lift (get_last h1);
    d_lift (set_prev f2 k1) ;;;
    k2 ← d_lift (get_last h2);
    d_lift (set_last h1 k2) ;;;
    TAILQ_INIT_debug p h2 ;;;
    QMD_TRACE_HEAD p h1 ;;;
    QMD_TRACE_HEAD p h2
  else mret tt.

(** An operation of a program, at its place; [TAILQ_SWAP] traces nothing. *)
Definition run_op_debug (p : place) (o : tq_op) : st dmem unit :=
  match o with
  | OInit h => TAILQ_INIT_debug p h
  | OInsertHead h e => TAILQ_INSERT_HEAD_debug p h e
  | OInsertTail h e => TAILQ_INSERT_TAIL_debug p h e
  | OInsertAfter h x e => TAILQ_INSERT_AFTER_debug p h x e
  | OInsertBefore _ x e => TAILQ_INSERT_BEFORE_debug p x e
  | ORemove h e => TAILQ_REMOVE_debug p h e
  | OConcat h1 h2 => TAILQ_CONCAT_debug p h1 h2
  | OSwap h1 h2 => d_lift (TAILQ_SWAP h1 h2)
  end.

Fixpoint run_ops_debug (os : list (place * tq_op)) : st dmem unit :=
  match os with [] => mret tt | o :: os' => run_op_debug o.1 o.2 ;;; run_ops_debug os' end.

(** ** The removals of the other families *)

Definition SLIST_REMOVE_debug (h elm : Z) : st slmem bool :=
  r ← SLIST_REMOVE h elm;
  (if debug then sl_set_next elm TRASH else mret tt) ;;; mret r.

Definition STAILQ_REMOVE_debug (h elm : Z) : st stmem bool :=
  r ← STAILQ_REMOVE h elm;
  (if debug then stq_set_next elm TRASH else mret tt) ;;; mret r.

Definition LIST_REMOVE_debug (elm : Z) : st lmem unit :=
  LIST_REMOVE elm ;;;
  (if debug then lst_set_next elm TRASH ;;; lst_set_prev elm TRASH_LINK else mret tt).

Definition sl_run_debug (o : sl_op) : st slmem bool :=
  match o with SRemove h e => SLIST_REMOVE_debug h e | _ => sl_run o end.
Definition stq_run_debug (o : stq_op) : st stmem bool :=
  match o with QRemove h e => STAILQ_REMOVE_debug h e | _ => stq_run o end.
Definition lst_run_debug (o : lst_op) : st lmem bool :=
  match o with LRemove _ e => LIST_REMOVE_debug e ;;; mret true | _ => lst_run o end.

(** ** What the traces record *)

(** The heads and the elements that an operation traces, in order, on queues with
    the elements [A]. *)
Definition op_traces (A : gmap Z (list Z)) (o : tq_op) : list Z * list Z :=
  let last_in h x := bool_decide (list.last (default [] (A !! h)) = Some x) in
  match o with
  | OInit h => ([h], [])
  | OInsertHead h e => ([h], [e])
  | OInsertTail h e => ([h], [e])
  | OInsertAfter h x e => (if last_in h x then [h] else [], [e; x])
  | OInsertBefore _ x e => ([], [e; x])
  | ORemove h e => (if last_in h e then [h] else [], [e])
  | OConcat h1 h2 => (match default [] (A !! h2) with [] => [] | _ => [h2; h1; h2] end, [])
  | OSwap _ _ => ([], [])
  end.

Definition trace_all (p : place) (xs : list Z) (f : Z → qm_trace) : Z → qm_trace :=
  if debug then fold_left (λ f x, set_at f x (traced p (f x))) xs f else f.

(** The traces after a program, from those before. *)
Fixpoint a_traces (hs es : gset Z) (os : list (place * tq_op)) (A : gmap Z (list Z))
    (t : (Z → qm_trace) * (Z → qm_trace)) : (Z → qm_trace) * (Z → qm_trace) :=
  match os with
  | [] => t
  | (p, o) :: os' =>
    let (th, te) := op_traces A o in
    a_traces hs es os' (default A (a_op hs es o A)) (trace_all p th t.1, trace_all p te t.2)
  end.

(** [c'] does on a debug memory what [c] does on its queues, and traces the heads
    [th] and the elements [te]. *)
Definition tracks {A} (p : place) (th te : list Z) (c : st qmem A) (c' : st dmem A) (d : dmem) : Prop :=
  c' d = match c (dq d) with
         | Ok (a, m) => Ok (a, mkD m (trace_all p th (htrace d)) (trace_all p te (etrace d)))
         | Fault f => Fault f
         end.

Lemma trace_all_nil p f : trace_all p [] f = f.
Proof. unfold trace_all. by destruct debug. Qed.

Lemma trace_all_app p k1 k2 f : trace_all p (k1 ++ k2) f = trace_all p k2 (trace_all p k1 f).
Proof. unfold trace_all. destruct debug; [apply fold_left_app|done]. Qed.

Section Tracks.
Context (p : place).

Lemma tracks_lift {A} (c : st qmem A) d : tracks p [] [] c (d_lift c) d.
Proof. unfold tracks, d_lift. rewrite !trace_all_nil. by destruct (c (dq d)) as [[a m]|f]. Qed.

Lemma tracks_ret {A} (a : A) d : tracks p [] [] (mret a) (mret a) d.
Proof. unfold tracks. simpl. rewrite !trace_all_nil. by destruct d. Qed.

Lemma tracks_bind {A B} th te th' te' (c : st qmem A) c' (k : A → st qmem B) k' d :
  tracks p th te c c' d →
  (∀ a m d', c (dq d) = Ok (a, m) → dq d' = m → tracks p th' te' (k a) (k' a) d') →
  tracks p (th ++ th') (te ++ te') (c ≫= k) (c' ≫= k') d.
Proof.
  unfold tracks, mbind, st_bind. intros -> Hk.
  destruct (c (dq d)) as [[a m]|f] eqn:E; [|done].
  rewrite (Hk a m (mkD m (trace_all p th (htrace d)) (trace_all p te (etrace d)))) by done.
  simpl. destruct (k a m) as [[b m']|f]; [|done]. by rewrite !trace_all_app.
Qed.

(** An access that both make, then the rest. *)
Lemma tracks_step {A B} th te (c : st qmem A) (k : A → st qmem B) k' d :
  (∀ a m d', c (dq d) = Ok (a, m) → dq d' = m → tracks p th te (k a) (k' a) d') →
  tracks p th te (c ≫= k) (d_lift c ≫= k') d.
Proof. intros Hk. apply (tracks_bind [] []); [apply tracks_lift|done]. Qed.

(** The traces at the end of a macro. *)
Definition marks (th te : list Z) (t : st dmem unit) : Prop :=
  ∀ d, t d = Ok (tt, mkD (dq d) (trace_all p th (htrace d)) (trace_all p te (etrace d))).

Lemma marks_head h : marks [h] [] (QMD_TRACE_HEAD p h).
Proof. intros d. unfold QMD_TRACE_HEAD, trace_all. destruct debug; [done|by destruct d]. Qed.

Lemma marks_elem n : marks [] [n] (QMD_TRACE_ELEM p n).
Proof. intros d. unfold QMD_TRACE_ELEM, trace_all. destruct debug; [done|by destruct d]. Qed.

Lemma marks_seq th te th' te' t t' :
  marks th te t → marks th' te' t' → marks (th ++ th') (te ++ te') (t ;;; t').
Proof.
  intros Ht Ht' d. rewrite (st_bind_step _ _ _ _ _ (Ht d)), Ht'. simpl. by rewrite !trace_all_app.
Qed.

Lemma tracks_marks th te th' te' c c' t d :
  tracks p th te c c' d → marks th' te' t → tracks p (th ++ th') (te ++ te') c (c' ;;; t) d.
Proof.
  unfold tracks. intros Hc Ht. unfold mbind, st_bind. rewrite Hc.
  destruct (c (dq d)) as [[[] m]|f]; [|done]. by rewrite Ht, !trace_all_app.
Qed.

Lemma tracks_set_back h nx k d :
  tracks p (if nx =? NULL then [h] else []) [] (set_back h nx k) (set_back_debug p h nx k) d.
Proof.
  unfold set_back, set_back_debug. destruct (nx =? NULL); simpl; [|apply tracks_lift].
  apply (tracks_marks [] [] [h] []); [apply tracks_lift|apply marks_head].
Qed.

(** Runs the next access of a macro beside its debug variant, or the last one and
    the traces after it. *)
Ltac track :=
  match goal with
  | |- tracks _ _ _ (_ ≫= _) (d_lift _ ≫= _) _ => apply tracks_step; intros ? ? ? _ <-; track
  | |- tracks _ ?th ?te _ (d_lift _ ≫= _) _ =>
      apply (tracks_marks [] [] th te); [apply tracks_lift|]; mark
  | _ => idtac
  end
with mark :=
  match goal with
  | |- marks [?h] [] _ => apply marks_head
  | |- marks [] [?n] _ => apply marks_elem
  | |- marks [?h] [?n] _ => apply (marks_seq [h] [] [] [n]); mark
  | |- marks [] [?n; ?x] _ => apply (marks_seq [] [n] [] [x]); mark
  | |- marks [?h; ?g] [] _ => apply (marks_seq [h] [] [g] []); mark
  end.

Lemma TAILQ_INIT_tracks h d : tracks p [h] [] (TAILQ_INIT h) (TAILQ_INIT_debug p h) d.
Proof. unfold TAILQ_INIT, TAILQ_INIT_debug. track. Qed.

Lemma INSERT_TAIL_tracks h e d :
  tracks p [h] [e] (TAILQ_INSERT_TAIL h e) (TAILQ_INSERT_TAIL_debug p h e) d.
Proof. unfold TAILQ_INSERT_TAIL, TAILQ_INSERT_TAIL_debug. track. Qed.

Lemma INSERT_HEAD_tracks h e d :
  tracks p [h] [e] (TAILQ_INSERT_HEAD h e) (TAILQ_INSERT_HEAD_debug p h e) d.
Proof. unfold TAILQ_INSERT_HEAD, TAILQ_INSERT_HEAD_debug. track. Qed.

Lemma INSERT_BEFORE_tracks x e d :
  tracks p [] [e; x] (TAILQ_INSERT_BEFORE x e) (TAILQ_INSERT_BEFORE_debug p x e) d.
Proof. unfold TAILQ_INSERT_BEFORE, TAILQ_INSERT_BEFORE_debug. track. Qed.

Lemma INSERT_AFTER_tracks h x e nx d :
  TAILQ_NEXT x (dq d) = Ok (nx, dq d) →
  tracks p (if nx =? NULL then [h] else []) [e; x] (TAILQ_INSERT_AFTER h x e)
    (TAILQ_INSERT_AFTER_debug p h x e) d.
Proof.
  intros Hnx. unfold TAILQ_INSERT_AFTER, TAILQ_INSERT_AFTER_debug.
  apply tracks_step. intros a m d1 Ha <-. rewrite Hnx in Ha. injection Ha as <- _.
  apply tracks_step. intros [] _ d2 _ _. rewrite <-(app_nil_r (if nx =? NULL then _ else _)).
  apply (tracks_bind _ [] [] [e; x]); [apply tracks_set_back|]. intros [] _ d3 _ _. track.
Qed.

Lemma remove_links_tracks h e nx d :
  TAILQ_NEXT e (dq d) = Ok (nx, dq d) →
  tracks p (if nx =? NULL then [h] else []) [] (TAILQ_REMOVE h e) (remove_links_debug p h e) d.
Proof.
  intros Hnx. unfold TAILQ_REMOVE, remove_links_debug.
  apply tracks_step. intros a m d1 Ha <-. rewrite Hnx in Ha. injection Ha as <- _.
  apply tracks_step. intros k _ d2 _ _. rewrite <-(app_nil_r (if nx =? NULL then _ else _)).
  apply (tracks_bind _ [] [] []); [apply tracks_set_back|]. intros [] _ d3 _ _.
  track. apply tracks_lift.
Qed.

Lemma CONCAT_tracks h1 h2 b d :
  TAILQ_EMPTY h2 (dq d) = Ok (b, dq d) →
  tracks p (if b then [] else [h2; h1; h2]) [] (TAILQ_CONCAT h1 h2) (TAILQ_CONCAT_debug p h1 h2) d.
Proof.
  intros Hb. unfold TAILQ_CONCAT, TAILQ_CONCAT_debug.
  apply tracks_step. intros a m d1 Ha <-. rewrite Hb in Ha. injection Ha as <- _.
  destruct b; simpl; [apply tracks_ret|]. track.
  apply (tracks_marks [h2] [] [h1; h2] []); [apply TAILQ_INIT_tracks|mark].
Qed.

End Tracks.

(** ** The tail queues of both builds *)

(** What a trashed element leaves alone. *)
Lemma trash_spec m e :
  e ≠ NULL → is_Some (elems m !! e) →
  ∃ m', trash e m = Ok (tt, m') ∧ frame [] [e] m m' ∧
    elems m' !! e = (if debug then Some (mkLinks TRASH TRASH_LINK) else elems m !! e).
Proof.
  intros He [[nx pv] Hee]. unfold trash, trash_next, trash_prev. destruct debug; [|by exists m].
  rewrite (st_bind_step _ _ _ _ _ (set_next_ok m e _ TRASH He Hee)). simpl.
  rewrite (set_prev_ok _ e _ _ He (lookup_insert_eq _ _ _)). eexists. split; [done|]. simpl.
  rewrite lookup_insert_eq. split; [|done].
  apply (frame_trans _ _ _ (mkQ (heads m) (<[e:=mkLinks TRASH pv]> (elems m))));
    [|apply (frame_put_elem [] [e] (mkQ _ _))]; [apply frame_put_elem|]; set_solver.
Qed.

Lemma trash_lift e d m (t : st dmem unit) :
  trash e (dq d) = Ok (tt, m) →
  (d_lift (trash_next e) ;;; d_lift (trash_prev e) ;;; t) d = t (mkD m (htrace d) (etrace d)).
Proof.
  intros ([] & m1 & H1 & H2)%st_bind_ok. unfold mbind, st_bind, d_lift. rewrite H1. simpl.
  by rewrite H2.
Qed.

(** An element removed from its queue and trashed. *)
Lemma remove_trash_spec m h l1 e l2 :
  queue m h (l1 ++ e :: l2) →
  ∃ m1 m2, TAILQ_REMOVE h e m = Ok (tt, m1) ∧ trash e m1 = Ok (tt, m2) ∧
    queue m2 h (l1 ++ l2) ∧ frame [h] (l1 ++ e :: l2) m m2 ∧
    elems m2 !! e = (if debug then Some (mkLinks TRASH TRASH_LINK) else elems m !! e).
Proof.
  intros Hq. destruct (TAILQ_REMOVE_spec _ h l1 e l2 Hq) as (m1 & Hr & Hq1 & Hf1).
  pose proof (queue_cut _ _ _ _ _ Hq) as (_ & He & _ & _ & Hel & _ & _ & _ & [He1 He2] & _).
  assert (elems m1 !! e = elems m !! e) as Hel1 by (apply (fr_elems _ _ _ _ Hf1); set_solver).
  destruct (trash_spec m1 e He ltac:(by rewrite Hel1, Hel)) as (m2 & Ht & Hf2 & Hel2).
  exists m1, m2. split_and!; [done..| | |by rewrite Hel2, <-Hel1].
  - eapply queue_frame; [exact Hf2|set_solver| |exact Hq1]. set_solver.
  - apply (frame_trans _ _ _ m1); eapply frame_weaken; try eassumption; set_solver.
Qed.

Lemma TAILQ_REMOVE_debug_spec p h l1 e l2 d :
  queue (dq d) h (l1 ++ e :: l2) →
  ∃ d', TAILQ_REMOVE_debug p h e d = Ok (tt, d') ∧ queue (dq d') h (l1 ++ l2) ∧
    frame [h] (l1 ++ e :: l2) (dq d) (dq d') ∧
    elems (dq d') !! e = (if debug then Some (mkLinks TRASH TRASH_LINK) else elems (dq d) !! e) ∧
    htrace d' = trace_all p (if first_or l2 NULL =? NULL then [h] else []) (htrace d) ∧
    etrace d' = trace_all p [e] (etrace d).
Proof.
  intros Hq. destruct (remove_trash_spec _ h l1 e l2 Hq) as (m1 & m2 & Hr & Ht & Hq2 & Hf & Hel).
  pose proof (remove_links_tracks p h e _ d (TAILQ_NEXT_spec _ _ _ _ _ Hq)) as Hl.
  unfold tracks in Hl. rewrite Hr in Hl. unfold TAILQ_REMOVE_debug.
  rewrite (st_bind_step _ _ _ _ _ Hl), (trash_lift _ _ m2), (marks_elem p e) by done.
  eexists. split; [done|]. simpl. by rewrite !trace_all_nil.
Qed.

(** A removal from the queues of [A]. *)
Lemma remove_refines hs es m m' (A A' : gmap Z (list Z)) h l1 e l2 :
  repr m A → A !! h = Some (l1 ++ e :: l2) → a_op hs es (ORemove h e) A = Some A' →
  queue m' h (l1 ++ l2) → frame [h] (l1 ++ e :: l2) m m' → repr m' A'.
Proof.
  intros HA Hl Ho Hq Hf. simpl in Ho. rewrite Hl in Ho. simpl in Ho.
  case_decide; [|done]. injection Ho as <-.
  rewrite remove_elem_app by apply (queue_cut _ _ _ _ _ (re_queue _ _ HA _ _ Hl)).
  eapply (repr_one _ _ A h _ _ []); eauto; set_solver.
Qed.

Section Refinement.
Context (H D : gset Z).

(** What an operation promises for the next one, and the traces it leaves. *)
Definition refines_debug (c : st dmem unit) (d : dmem) (A : gmap Z (list Z))
    (t : (Z → qm_trace) * (Z → qm_trace)) : Prop :=
  ∃ d', c d = Ok (tt, d') ∧ repr (dq d') A ∧ allocated H D (dq d') ∧ (htrace d', etrace d') = t.

Lemma refines_tracks p th te c c' d A :
  refines H D c (dq d) A → tracks p th te c c' d →
  refines_debug c' d A (trace_all p th (htrace d), trace_all p te (etrace d)).
Proof.
  intros (m & Hr & HA & Hal) Ht. unfold tracks in Ht. rewrite Hr in Ht. by eexists.
Qed.

(** Whether an element is the last of its queue, as the macros find out. *)
Lemma last_found h (A : gmap Z (list Z)) l1 x l2 :
  A !! h = Some (l1 ++ x :: l2) → NULL ∉ l1 ++ x :: l2 → NoDup (l1 ++ x :: l2) →
  (if first_or l2 NULL =? NULL then [h] else []) =
  if bool_decide (list.last (default [] (A !! h)) = Some x) then [h] else [].
Proof.
  intros -> Hnull Hnd. simpl. rewrite last_app_cons.
  destruct l2 as [|y l2]; simpl; [by rewrite bool_decide_eq_true_2|].
  rewrite bool_decide_eq_false_2.
  - destruct (Z.eqb_spec y NULL) as [->|]; [set_solver|done].
  - intros Hl. apply list.NoDup_app in Hnd as (_ & _ & [Hx _]%list.NoDup_cons).
    apply Hx. eapply last_Some_elem_of. exact Hl.
Qed.

Lemma next_found m (A : gmap Z (list Z)) h l x :
  repr m A → A !! h = Some l → x ∈ l →
  ∃ nx, TAILQ_NEXT x m = Ok (nx, m) ∧
    (if nx =? NULL then [h] else []) =
    if bool_decide (list.last (default [] (A !! h)) = Some x) then [h] else [].
Proof.
  intros HA Hl Hx. pose proof (re_queue _ _ HA _ _ Hl) as Hq.
  destruct (queue_find m h l x Hq Hx) as (l1 & l2 & -> & _).
  exists (first_or l2 NULL). split; [by eapply TAILQ_NEXT_spec|].
  apply (last_found h A l1); [done|by destruct Hq..].
Qed.

Lemma debug_step_refines o p d A A' :
  repr (dq d) A → allocated H D (dq d) → a_op H D o A = Some A' →
  refines_debug (run_op_debug p o) d A'
    (trace_all p (op_traces A o).1 (htrace d), trace_all p (op_traces A o).2 (etrace d)).
Proof.
  intros HA Hal Ho. pose proof (tq_step_refines H D o (dq d) A A' HA Hal Ho) as Hr.
  destruct o as [h|h e|h e|h x e|h x e|h e|h1 h2|h1 h2]; cbn [op_traces fst snd run_op_debug];
    simpl in Ho;
    lazymatch goal with
    | |- refines_debug (TAILQ_REMOVE_debug _ _ _) _ _ _ => idtac
    | _ => eapply refines_tracks; [exact Hr|]
    end.
  - apply TAILQ_INIT_tracks.
  - apply INSERT_HEAD_tracks.
  - apply INSERT_TAIL_tracks.
  - destruct (A !! h) as [l|] eqn:Hl; [|done]. simpl in Ho.
    case_decide as Hi; [|done]. destruct (next_found _ _ h l x HA Hl (proj1 Hi)) as (nx & Hnx & E).
    rewrite Hl in E. rewrite <-E. by apply INSERT_AFTER_tracks.
  - apply INSERT_BEFORE_tracks.
  - destruct (remove_split H D _ A h e A' HA Ho) as (l1 & l2 & Hl & Hq).
    destruct (TAILQ_REMOVE_debug_spec p h l1 e l2 d Hq) as (d' & Hd & Hq' & Hf & _ & Hth & Hte).
    exists d'. split; [exact Hd|]. split; [|split; [by eapply allocated_frame|]].
    + by eapply (remove_refines H D).
    + rewrite Hth, Hte. f_equal. by rewrite (last_found h A l1 e l2) by (try done; by destruct Hq).
  - destruct (A !! h1) as [l1|]; [|done]. simpl in Ho.
    destruct (A !! h2) as [l2|] eqn:Hl2; [|done]. simpl.
    pose proof (re_queue _ _ HA _ _ Hl2) as Hq2.
    pose proof (CONCAT_tracks p h1 h2 _ d (TAILQ_EMPTY_spec _ _ _ Hq2)) as Ht.
    by destruct l2.
  - apply tracks_lift.
Qed.

Lemma run_ops_debug_refines os d A A' :
  repr (dq d) A → allocated H D (dq d) → a_ops H D (os.*2) A = Some A' →
  refines_debug (run_ops_debug os) d A' (a_traces H D os A (htrace d, etrace d)).
Proof.
  revert d A. induction os as [|[p o] os IH]; intros d A HA Hal; simpl.
  - intros [= <-]. by exists d.
  - destruct (a_op H D o A) as [A1|] eqn:Ho; simpl; [|done]. intros Hos.
    destruct (debug_step_refines o p d A A1 HA Hal Ho) as (d1 & Hr & HA1 & Hal1 & Ht).
    destruct (IH d1 A1 HA1 Hal1 Hos) as (d2 & Hr2 & HA2 & Hal2 & Ht2).
    exists d2. rewrite (st_bind_step _ _ _ _ _ Hr). split_and!; try done.
    destruct (op_traces A o) as [th te]. rewrite Ht2, Ht. done.
Qed.

End Refinement.

End Debug.

(** ** The other families of both builds *)

(** A family whose removals of a given element trash its links: the operations, and
    the head and the element of such a removal. *)
Class QueueTrash (HD EN Op : Type) := {
  fam_run_debug : bool → Op → st (links_mem HD EN) bool;
  fam_removes : Op → option (Z * Z)
}.

(** The trashing is what is left of the one of the tail queues. *)
Class QueueTrashOk (HD EN Op : Type)
    `{QueueErasure HD EN, QueueFamily HD EN Op, QueueTrash HD EN Op} := {
  fam_removes_means A o h e : fam_removes o = Some (h, e) → fam_means A o = Some (ORemove h e);
  fam_run_trashes debug o h e (q q1 q2 : qmem) :
    fam_removes o = Some (h, e) → fam_run o (erase q) = Ok (true, erase q1) →
    trash debug e q1 = Ok (tt, q2) → fam_run_debug debug o (erase q) = Ok (true, erase q2);
  fam_run_same debug o m : fam_removes o = None → fam_run_debug debug o m = fam_run o m
}.

#[export] Instance slist_trash : QueueTrash SLIST_HEAD SLIST_ENTRY sl_op := {
  fam_run_debug := sl_run_debug;
  fam_removes o := match o with SRemove h e => Some (h, e) | _ => None end
}.

#[export] Instance stailq_trash : QueueTrash STAILQ_HEAD STAILQ_ENTRY stq_op := {
  fam_run_debug := stq_run_debug;
  fam_removes o := match o with QRemove h e => Some (h, e) | _ => None end
}.

#[export] Instance list_trash : QueueTrash LIST_HEAD LIST_ENTRY lst_op := {
  fam_run_debug := lst_run_debug;
  fam_removes o := match o with LRemove h e => Some (h, e) | _ => None end
}.

(** A family whose elements keep no link back trashes the next one. *)
Lemma sim_trash_next {HD EN} `{QueueErasure HD EN} debug n (set : Z → Z → st (links_mem HD EN) unit) m :
  (∀ n p m, sim erase (set_next n p) (set n p) m) → (∀ n k, silent erase (set_prev n k)) →
  sim erase (trash debug n) (if debug then set n TRASH else mret tt) m.
Proof.
  intros Hn Hp. unfold trash, trash_next, trash_prev. destruct debug; [|by intros [] m' [= <-]].
  apply sim_last; [apply sim_tail, Hn|intros []; apply Hp].
Qed.

#[export] Instance slist_trash_ok : QueueTrashOk SLIST_HEAD SLIST_ENTRY sl_op.
Proof.
  split; [by intros ? [] ? ? [= <- <-]| |by intros ? []].
  intros debug o h e q q1 q2 Ho Hr Ht. destruct o; try done. injection Ho as -> ->.
  cbn [fam_run_debug slist_trash sl_run_debug] in *. unfold SLIST_REMOVE_debug.
  cbn [fam_run slist_family sl_run] in Hr. qstep Hr.
  by qstep (sim_trash_next debug e sl_set_next q1 sim_sl_set_next sl_silent_prev _ _ Ht).
Qed.

#[export] Instance stailq_trash_ok : QueueTrashOk STAILQ_HEAD STAILQ_ENTRY stq_op.
Proof.
  split; [by intros ? [] ? ? [= <- <-]| |by intros ? []].
  intros debug o h e q q1 q2 Ho Hr Ht. destruct o; try done. injection Ho as -> ->.
  cbn [fam_run_debug stailq_trash stq_run_debug] in *. unfold STAILQ_REMOVE_debug.
  cbn [fam_run stailq_family stq_run] in Hr. qstep Hr.
  by qstep (sim_trash_next debug e stq_set_next q1 sim_stq_set_next stq_silent_prev _ _ Ht).
Qed.

Lemma sim_lst_trash debug n m :
  sim erase (trash debug n)
    (if debug then lst_set_next n TRASH ;;; lst_set_prev n TRASH_LINK else mret tt) m.
Proof.
  unfold trash, trash_next, trash_prev. destruct debug; [|by intros [] m' [= <-]].
  apply sim_bind; [apply sim_lst_set_next|intros [] m1 _; apply sim_lst_set_prev].
Qed.

#[export] Instance list_trash_ok : QueueTrashOk LIST_HEAD LIST_ENTRY lst_op.
Proof.
  split; [by intros ? [] ? ? [= <- <-]| |by intros ? []].
  intros debug o h e q q1 q2 Ho Hr Ht. destruct o; try done. injection Ho as -> ->.
  cbn [fam_run_debug list_trash lst_run_debug] in *.
  cbn [fam_run list_family lst_run] in Hr.
  apply st_bind_ok in Hr as ([] & m1 & Hr & [= ->]).
  assert (LIST_REMOVE_debug debug e (erase q) = Ok (tt, erase q2)) as Hd.
  { unfold LIST_REMOVE_debug. qstep Hr. exact (sim_lst_trash debug e q1 _ _ Ht). }
  by qstep Hd.
Qed.

Section Families.
Context {HD EN Op : Type} `{X : QueueErasure HD EN, F : QueueFamily HD EN Op, T : QueueTrash HD EN Op}.
Context `{!QueueErasureOk HD EN, !QueueFamilyOk HD EN Op, !QueueTrashOk HD EN Op}.
Context (debug : bool).

Fixpoint fam_runs_debug (os : list Op) : st (links_mem HD EN) bool :=
  match os with
  | [] => mret true
  | o :: os' => b ← fam_run_debug debug o; if b : bool then fam_runs_debug os' else mret false
  end.

Lemma fam_step_debug hs es q A o o' A' :
  repr q A → allocated hs es q → fam_means A o = Some o' → a_op hs es o' A = Some A' →
  ∃ q', fam_run_debug debug o (erase q) = Ok (true, erase q') ∧ repr q' A' ∧ allocated hs es q'.
Proof.
  intros HA Hal Ho HA'. destruct (fam_removes o) as [[h e]|] eqn:Hd.
  - rewrite (fam_removes_means A o h e Hd) in Ho. injection Ho as <-.
    destruct (remove_split _ _ _ _ _ _ _ HA HA') as (l1 & l2 & Hl & Hq).
    destruct (remove_trash_spec debug q h l1 e l2 Hq) as (q1 & q2 & Hr & Ht & Hq2 & Hf & _).
    exists q2. split_and!.
    + eapply fam_run_trashes; [exact Hd| |exact Ht].
      by apply (fam_run_erase hs es q A o (ORemove h e) A'); [|apply fam_removes_means| |].
    + by eapply (remove_refines hs es).
    + by eapply allocated_frame.
  - destruct (tq_step_refines hs es o' q A A' HA Hal HA') as (q' & Hr & HA1 & Hal1).
    exists q'. rewrite fam_run_same by done. split; [|done].
    by apply (fam_run_erase hs es q A o o' A').
Qed.

Lemma fam_runs_debug_refine hs es os m A A' :
  fam_repr m A → allocated hs es m → fam_ops hs es os A = Some A' →
  ∃ m', fam_runs_debug os m = Ok (true, m') ∧ fam_repr m' A' ∧ allocated hs es m'.
Proof.
  intros (q & <- & HA)%fam_repr_lift Hal%allocated_lift. revert q A HA Hal.
  induction os as [|o os IH]; intros q A HA Hal; simpl.
  - intros [= <-]. eexists. split_and!; [done|by apply erase_repr|by apply erase_allocated].
  - destruct (fam_means A o) as [o'|] eqn:Ho; simpl; [|done].
    destruct (a_op hs es o' A) as [A1|] eqn:HA1; simpl; [|done]. intros Hos.
    destruct (fam_step_debug hs es q A o o' A1 HA Hal Ho HA1) as (q1 & Hr & HA1' & Hal1).
    rewrite (st_bind_step _ _ _ _ _ Hr). simpl. by apply (IH q1 A1).
Qed.

End Families.

(** ** Loops that remove the element they visit *)

Section RemovingLoops.
Context (debug : bool) (p : place).

(** The element after the one removed, as the plain loop reads it. *)
Lemma next_after_remove h x l d :
  queue (dq d) h (x :: l) →
  ∃ d', TAILQ_REMOVE_debug debug p h x d = Ok (tt, d') ∧ queue (dq d') h l ∧
    frame [h] (x :: l) (dq d) (dq d') ∧
    TAILQ_NEXT x (dq d') = Ok (if debug then TRASH else first_or l NULL, dq d').
Proof.
  intros Hq. destruct (TAILQ_REMOVE_debug_spec debug p h [] x l d Hq) as (d' & Hr & Hq' & Hf & Hel & _).
  apply (queue_cut _ _ [] x l) in Hq as (_ & Hx & _ & _ & Hxe & _).
  exists d'. split_and!; try done. rewrite Hxe in Hel.
  destruct debug; by rewrite (TAILQ_NEXT_ok _ _ _ Hx Hel).
Qed.

Lemma foreach_safe_empties h n l d :
  queue (dq d) h l → (length l ≤ n)%nat →
  ∃ d', TAILQ_FOREACH_SAFE dq n h (TAILQ_REMOVE_debug debug p h) d = Ok (true, d') ∧
        queue (dq d') h [].
Proof.
  intros Hq Hn. unfold TAILQ_FOREACH_SAFE.
  rewrite (st_bind_step _ _ _ _ _ (q_read_ok dq _ d _ (TAILQ_FIRST_spec _ h l Hq))).
  apply (foreach_safe_loop_inv dq (λ r d, queue (dq d) h r)); [|done..].
  intros x r d1 Hq1. pose proof (queue_cut _ _ [] x r Hq1) as (_ & Hx & _).
  destruct (next_after_remove h x r d1 Hq1) as (d2 & Hr & Hq2 & _).
  split_and!; [done|by apply (TAILQ_NEXT_spec _ h [])|eauto].
Qed.

(** Without the traces, the links of a removed element still lead to the next one. *)
Lemma foreach_empties h n l d :
  debug = false → queue (dq d) h l → (length l ≤ n)%nat →
  ∃ d', TAILQ_FOREACH dq n h (TAILQ_REMOVE_debug debug p h) d = Ok (true, d') ∧ queue (dq d') h [].
Proof.
  intros Hdbg Hq Hn. unfold TAILQ_FOREACH.
  rewrite (st_bind_step _ _ _ _ _ (q_read_ok dq _ d _ (TAILQ_FIRST_spec _ h l Hq))).
  apply (foreach_loop_inv dq (λ r d, queue (dq d) h r)); [|done..].
  intros x r d1 Hq1. pose proof (queue_cut _ _ [] x r Hq1) as (_ & Hx & _).
  destruct (next_after_remove h x r d1 Hq1) as (d2 & Hr & Hq2 & _ & Hnx). rewrite Hdbg in Hnx.
  split; [done|eauto].
Qed.

Lemma foreach_meets_trash h n x l d :
  debug = true → queue (dq d) h (x :: l) → (1 < n)%nat → elems (dq d) !! TRASH = None →
  TAILQ_FOREACH dq n h (TAILQ_REMOVE_debug debug p h) d = Fault UseAfterFree.
Proof.
  intros Hdbg Hq Hn Htr. unfold TAILQ_FOREACH.
  rewrite (st_bind_step _ _ _ _ _ (q_read_ok dq _ d _ (TAILQ_FIRST_spec _ h _ Hq))).
  destruct n as [|[|n]]; [lia..|]. simpl. pose proof (queue_cut _ _ [] x l Hq) as (_ & Hx & _).
  destruct (Z.eqb_spec x NULL); [done|].
  destruct (next_after_remove h x l d Hq) as (d1 & Hr & _ & Hf & Hnx). rewrite Hdbg in Hnx.
  rewrite (st_bind_step _ _ _ _ _ Hr), (st_bind_step _ _ _ _ _ (q_read_ok dq _ d1 _ Hnx)). simpl.
  assert (elems (dq d1) !! TRASH = None) as Htr1.
  { rewrite (fr_elems _ _ _ _ Hf); [done|]. intros Hin.
    destruct (seg_elems _ _ _ _ _ (qu_seg _ _ _ Hq) Hin) as [? He]. by rewrite Htr in He. }
  assert (TAILQ_NEXT TRASH (dq d1) = Fault UseAfterFree) as Hfault.
  { apply st_bind_fault. unfold get_elem, lookup_at. simpl. by rewrite Htr1. }
  apply st_bind_fault. unfold TAILQ_REMOVE_debug, remove_links_debug.
  do 2 apply st_bind_fault. unfold d_lift. by rewrite Hfault.
Qed.

End RemovingLoops.

(** ** Properties *)

(** C26: Building with [QUEUE_MACRO_DEBUG] changes nothing that a program can see of
    its tail queues: with or without it, a program within the contract of the macros
    does not fault and leaves each head with exactly the elements of its list, in
    order.  The traces are exactly those of the heads and elements that
    [op_traces] lists, each time with the places of the last two of them. *)
Theorem debug_ops_refine_lists debug H D os d A A' :
  repr (dq d) A → allocated H D (dq d) → a_ops H D (os.*2) A = Some A' →
  ∃ d', run_ops_debug debug os d = Ok (tt, d') ∧ repr (dq d') A' ∧ allocated H D (dq d') ∧
        (htrace d', etrace d') = a_traces debug H D os A (htrace d, etrace d).
Proof. apply run_ops_debug_refines. Qed.

(** C27: The other families keep their lists in both builds: their removals of a
    given element trash its links after the walk and the unlinking, and no program
    within the contract reads them.  [STAILQ_LAST] is then the last element. *)
Theorem debug_families_refine_lists debug hs es A A' :
  (∀ os (m : slmem), fam_repr m A → allocated hs es m → fam_ops hs es os A = Some A' →
    ∃ m', fam_runs_debug debug os m = Ok (true, m') ∧ fam_repr m' A') ∧
  (∀ os (m : stmem), fam_repr m A → allocated hs es m → fam_ops hs es os A = Some A' →
    ∃ m', fam_runs_debug debug os m = Ok (true, m') ∧ fam_repr m' A' ∧
      ∀ h l, A' !! h = Some l → STAILQ_LAST h m' = Ok (default NULL (list.last l), m')) ∧
  (∀ os (m : lmem), fam_repr m A → allocated hs es m → fam_ops hs es os A = Some A' →
    ∃ m', fam_runs_debug debug os m = Ok (true, m') ∧ fam_repr m' A').
Proof.
  split_and!; intros os m HA Hal Hos;
    destruct (fam_runs_debug_refine debug hs es os m A A' HA Hal Hos) as (m' & ? & HA' & _);
    [by eauto| |by eauto].
  exists m'. split_and!; [done..|]. intros h l Hl.
  destruct (fam_queue_erased m' h l) as (q & <- & Hq); [by apply HA'|]. by apply STAILQ_LAST_erase.
Qed.

(** C28: Where the builds differ: a [TAILQ_FOREACH] whose body removes the element it
    visits empties the queue when the macros are built without
    [QUEUE_MACRO_DEBUG], since the links of a removed element still lead to the
    next one, and dereferences [(void * )-1] after the first element in a debug
    build.  [TAILQ_FOREACH_SAFE] empties the queue in both. *)
Theorem removing_loops debug p h n l d :
  queue (dq d) h l → (length l < n)%nat → elems (dq d) !! TRASH = None →
  (∃ d', TAILQ_FOREACH_SAFE dq n h (TAILQ_REMOVE_debug debug p h) d = Ok (true, d') ∧
         queue (dq d') h []) ∧
  if debug && negb (bool_decide (l = []))
  then TAILQ_FOREACH dq n h (TAILQ_REMOVE_debug debug p h) d = Fault UseAfterFree
  else ∃ d', TAILQ_FOREACH dq n h (TAILQ_REMOVE_debug debug p h) d = Ok (true, d') ∧
             queue (dq d') h [].
Proof.
  intros Hq Hn Htr. split; [apply (foreach_safe_empties debug p h n l d Hq); lia|].
  destruct debug; simpl; [|apply (foreach_empties false p h n l d eq_refl Hq); lia].
  case_bool_decide as Hl; simpl.
  - subst l. exists d. split; [|done]. unfold TAILQ_FOREACH.
    rewrite (st_bind_step _ _ _ _ _ (q_read_ok dq _ d _ (TAILQ_FIRST_spec _ h _ Hq))).
    by destruct n.
  - destruct l as [|x l]; [done|].
    apply (foreach_meets_trash true p h n x l d eq_refl Hq); [simpl in Hn; lia|done].
Qed.

(** ** Concrete queues *)

Definition no_traces : Z → qm_trace := λ _, mkTrace 0 0 NULL NULL.

(** The program of [TailQueue], an operation to a line. *)
Definition demo_places : list place := (λ n, mkPlace (Z.of_nat n) 7) <$> seq 100 (length demo_ops).

(** [TAILQ_CONCAT] traces the head that it empties twice at the same place. *)
Lemma debug_ops_refine_lists_witness :
  ∃ d', run_ops_debug true (zip demo_places demo_ops) (mkD demo_heap no_traces no_traces) = Ok (tt, d') ∧
    queue (dq d') 1 [20; 10; 30] ∧
    htrace d' 1 = mkTrace 107 107 7 7 ∧ etrace d' 10 = mkTrace 106 105 7 7.
Proof.
  destruct (debug_ops_refine_lists true {[1; 2]} {[10; 20; 30]} (zip demo_places demo_ops)
    (mkD demo_heap no_traces no_traces) ∅ (<[1:=[20; 10; 30]]> (<[2:=[]]> ∅)))
    as (d' & Hr & HA & _ & Ht).
  - split; [|intros h1 h2 l1 l2 n Hl]; [intros h l Hl|]; by vm_compute in Hl.
  - apply demo_allocated.
  - vm_compute. reflexivity.
  - exists d'. split; [exact Hr|]. split; [apply HA; reflexivity|]. split.
    + eapply eq_trans; [exact (f_equal (λ t, t.1 1) Ht)|vm_compute; reflexivity].
    + eapply eq_trans; [exact (f_equal (λ t, t.2 10) Ht)|vm_compute; reflexivity].
Defined.

Lemma debug_families_refine_lists_witness :
  (∃ m', fam_runs_debug true sl_demo_ops sl_demo_heap = Ok (true, m') ∧
         fam_queue m' 1 [] ∧ fam_queue m' 2 [10; 30]) ∧
  (∃ m', fam_runs_debug true stq_demo_ops stq_demo_heap = Ok (true, m') ∧
         STAILQ_LAST 2 m' = Ok (10, m')).
Proof.
  split.
  - destruct (debug_families_refine_lists true {[1; 2]} {[10; 20; 30]} ∅
      (<[1:=[]]> (<[2:=[10; 30]]> ∅))) as (Hs & _).
    destruct (Hs sl_demo_ops sl_demo_heap) as (m' & Hr & HA).
    + split; [|intros h1 h2 l1 l2 n Hl]; [intros h l Hl|]; by vm_compute in Hl.
    + apply sl_demo_allocated.
    + vm_compute. reflexivity.
    + exists m'. split; [exact Hr|]. split; apply HA; reflexivity.
  - destruct (debug_families_refine_lists true {[1; 2]} {[10; 20; 30]} ∅
      (<[1:=[]]> (<[2:=[30; 10]]> ∅))) as (_ & Hs & _).
    destruct (Hs stq_demo_ops stq_demo_heap) as (m' & Hr & _ & Hlast).
    + split; [|intros h1 h2 l1 l2 n Hl]; [intros h l Hl|]; by vm_compute in Hl.
    + apply stq_demo_allocated.
    + vm_compute. reflexivity.
    + exists m'. split; [exact Hr|]. exact (Hlast 2 [30; 10] eq_refl).
Defined.

Lemma removing_loops_witness :
  let d := mkD demo_queue no_traces no_traces in
  TAILQ_FOREACH dq 4 1 (TAILQ_REMOVE_debug true (mkPlace 12 7) 1) d = Fault UseAfterFree ∧
  ∃ d', TAILQ_FOREACH dq 4 1 (TAILQ_REMOVE_debug false (mkPlace 12 7) 1) d = Ok (true, d') ∧
        queue (dq d') 1 [].
Proof.
  split.
  - apply (removing_loops true (mkPlace 12 7) 1 4 [10; 20; 30]); [apply demo_queue_ok|simpl; lia|done].
  - apply (removing_loops false (mkPlace 12 7) 1 4 [10; 20; 30] (mkD demo_queue no_traces no_traces));
      [apply demo_queue_ok|simpl; lia|done].
Defined.
