(* ===== verification/ClientAddress.v ===== *)
(** * The address of a client

    Models [get_client_info] of [src/server/src/aesdsocket_thread.c] and what
    [main] and the connection thread do with its result: the text of the address is
    written into a block of [INET_ADDRSTRLEN] bytes, copied by [strncpy] into the
    data of the thread, and printed.  The address is the bytes of a [struct
    sockaddr_storage].  [inet_ntop] writes an IPv4 address as four decimal numbers;
    how it writes an IPv6 address is the parameter [ntop6]. *)
From Stdlib Require Import ZArith Lia.
From stdpp Require Import base tactics list gmap sets numbers strings.
From S2P Require Import Prelude CMemory.

(** ** The library calls *)

Definition AF_INET : Z := 2.
Definition AF_INET6 : Z := 10.
Definition INET_ADDRSTRLEN : Z := 16.
Definition DOT : Z := 46.

(** [printf("%u")] of a byte. *)
Definition dec (n : Z) : list Z :=
  if n <? 10 then [48 + n]
  else if n <? 100 then [48 + n / 10; 48 + n mod 10]
  else [48 + n / 100; 48 + n / 10 mod 10; 48 + n mod 10].

(** The text of an IPv4 address. *)
Fixpoint ntop4 (bs : list Z) : list Z :=
  match bs with
  | [] => []
  | [b] => dec b
  | b :: bs' => dec b ++ DOT :: ntop4 bs'
  end.

(** The numbers of a text with dots, [None] when it has another character; [n] is
    the number read so far. *)
Fixpoint pton4 (n : Z) (s : list Z) : option (list Z) :=
  match s with
  | [] => Some [n]
  | c :: s' =>
    if c =? DOT then cons n <$> pton4 0 s'
    else if bool_decide (48 ≤ c < 58) then pton4 (10 * n + (c - 48)) s' else None
  end.

(** The bytes [a] to [a + n - 1] of an object. *)
Definition field (m : list Z) (a n : nat) : res (list Z) := load_bytes (drop a m) (Z.of_nat n).

(** The copy of at most [n] characters by [strncpy], filled with NULs. *)
Fixpoint strncpy_bytes (src : list Z) (n : nat) : res (list Z) :=
  match n with
  | O => Ok []
  | S n' =>
    match src with
    | [] => Fault OutOfBounds
    | c :: src' => if c =? NUL then Ok (replicate n NUL) else r ← strncpy_bytes src' n'; Ok (c :: r)
    end
  end.

Definition strncpy (dst src : list Z) (n : nat) : res (list Z) :=
  bs ← strncpy_bytes src n; store_bytes dst 0 bs.

Section ClientAddress.
Context (ntop6 : list Z → list Z).

(** [inet_ntop]: a text that does not fit in [size] bytes with its NUL is not
    written. *)
Definition inet_ntop (af : Z) (src dst : list Z) (size : Z) : res (list Z) :=
  let s := if af =? AF_INET then ntop4 src else ntop6 src in
  if bool_decide (Z.of_nat (length s) < size) then store_bytes dst 0 (s ++ [NUL]) else Ok dst.

(** ** The program *)

(** [sa_family], a 16-bit little-endian number, [sin_addr] and [sin6_addr] of the
    address. *)
Definition sa_family (m : list Z) : res Z :=
  bs ← field m 0 2;
  match bs with [lo; hi] => Ok (lo + 256 * hi) | _ => Fault OutOfBounds end.
Definition sin_addr (m : list Z) : res (list Z) := field m 4 4.
Definition sin6_addr (m : list Z) : res (list Z) := field m 8 16.

Definition get_client_info (p_sockaddr : list Z) (size : Z) (client_address : list Z) : res (list Z) :=
  family ← sa_family p_sockaddr;
  if family =? AF_INET
  then a ← sin_addr p_sockaddr; inet_ntop AF_INET a client_address size
  else a ← sin6_addr p_sockaddr; inet_ntop AF_INET6 a client_address size.

(** What [main] stores for the thread: [array] is the array of the loop body,
    [stored] the one of the thread. *)
Definition record_client (client_addr : list Z) (client_num : Z) (array stored : list Z) : res (list Z) :=
  client_address ← get_client_info client_addr client_num array;
  strncpy stored client_address (Z.to_nat INET_ADDRSTRLEN).

(** The line that the thread logs: the string of its array. *)
Definition accepted_message (stored : list Z) : res (list Z) :=
  match cstr stored with
  | Some s => Ok (text "Accepted connection from " ++ s ++ [NL])
  | None => Fault OutOfBounds
  end.

(** ** Lemmas *)

Lemma dec_props n : 0 ≤ n < 256 → (1 ≤ length (dec n) ≤ 3)%nat ∧ NUL ∉ dec n ∧
  ∀ s, pton4 0 (dec n ++ s) = pton4 n s.
Proof.
  intros Hn. unfold dec, NUL.
  pose proof (Z.mod_pos_bound n 10 ltac:(lia)). pose proof (Z.div_mod n 10 ltac:(lia)).
  pose proof (Z.mod_pos_bound (n / 10) 10 ltac:(lia)). pose proof (Z.div_mod (n / 10) 10 ltac:(lia)).
  assert (n / 10 / 10 = n / 100) as H100 by (rewrite Z.div_div by lia; done).
  assert (∀ d s k, 0 ≤ d < 10 → pton4 k ((48 + d) :: s) = pton4 (10 * k + d) s) as Hd.
  { intros d s k H'. cbn [pton4]. destruct (Z.eqb_spec (48 + d) DOT); [unfold DOT in *; lia|].
    rewrite bool_decide_eq_true_2 by lia. f_equal. lia. }
  destruct (Z.ltb_spec n 10); [|destruct (Z.ltb_spec n 100)];
    (split; [simpl; lia|]); split;
    try (intros s; cbn [app]; rewrite !Hd by lia; f_equal; lia); set_unfold; lia.
Qed.

Definition is_byte (b : Z) : Prop := 0 ≤ b < 256.

Lemma ntop4_props bs : bs ≠ [] → Forall is_byte bs →
  (length (ntop4 bs) < 4 * length bs)%nat ∧ NUL ∉ ntop4 bs ∧ pton4 0 (ntop4 bs) = Some bs.
Proof.
  intros Hne Hbs. induction Hbs as [|b bs Hb _ IH]; [done|].
  destruct (dec_props b Hb) as (Hl & Hn & Hp). destruct bs as [|b' bs].
  - simpl. split; [lia|]. split; [done|]. specialize (Hp []). by rewrite app_nil_r in Hp.
  - destruct IH as (IH1 & IH2 & IH3); [done|].
    change (ntop4 (b :: b' :: bs)) with (dec b ++ DOT :: ntop4 (b' :: bs)).
    rewrite length_app, Hp. cbn [length pton4] in *. split; [lia|]. split.
    + rewrite not_elem_of_app, not_elem_of_cons. done.
    + by rewrite Z.eqb_refl, IH3.
Qed.

Lemma strncpy_bytes_string s r n :
  NUL ∉ s → (length s < n)%nat →
  strncpy_bytes (s ++ NUL :: r) n = Ok (s ++ replicate (n - length s) NUL).
Proof.
  revert n. induction s as [|c s IH]; intros [|n] Hs Hn; simpl in *; try lia; [done|].
  apply not_elem_of_cons in Hs as [Hc Hs]. destruct (Z.eqb_spec c NUL); [congruence|].
  by rewrite IH by (done || lia).
Qed.

Lemma strncpy_bytes_full s n : NUL ∉ s → length s = n → strncpy_bytes s n = Ok s.
Proof.
  intros Hs <-. induction s as [|c s IH]; [done|]. apply not_elem_of_cons in Hs as [Hc Hs].
  simpl. destruct (Z.eqb_spec c NUL); [congruence|]. by rewrite (IH Hs).
Qed.

Lemma store_whole b bs : length bs = length b → store_bytes b 0 bs = Ok bs.
Proof.
  intros Hl. rewrite store_bytes_ok by lia. rewrite take_0, drop_ge by lia. by rewrite app_nil_r.
Qed.

Lemma inet_ntop_fits af src dst size :
  let s := if af =? AF_INET then ntop4 src else ntop6 src in
  Z.of_nat (length s) < size → (length s < length dst)%nat →
  inet_ntop af src dst size = Ok (s ++ NUL :: drop (S (length s)) dst).
Proof.
  intros s Hs Hd. unfold inet_ntop. fold s. rewrite bool_decide_eq_true_2 by done.
  rewrite store_bytes_ok by (rewrite length_app; simpl; lia).
  rewrite length_app, Nat.add_1_r, <-app_assoc. done.
Qed.

(** ** Properties *)

(** C40: The address of an IPv4 client is recorded exactly: its text fits the array
    of [INET_ADDRSTRLEN] bytes with its NUL, whatever the arrays held, the copy of
    the thread is that string, the log line shows it, and reading the numbers back
    gives the four bytes of the address. *)
Theorem client_address_round_trip m bs array stored :
  sa_family m = Ok AF_INET → sin_addr m = Ok bs → length bs = 4%nat → Forall is_byte bs →
  length array = Z.to_nat INET_ADDRSTRLEN → length stored = Z.to_nat INET_ADDRSTRLEN →
  ∃ stored', record_client m INET_ADDRSTRLEN array stored = Ok stored' ∧
    length stored' = Z.to_nat INET_ADDRSTRLEN ∧ cstr stored' = Some (ntop4 bs) ∧
    accepted_message stored' = Ok (text "Accepted connection from " ++ ntop4 bs ++ [NL]) ∧
    pton4 0 (ntop4 bs) = Some bs.
Proof.
  unfold INET_ADDRSTRLEN. intros Hf Ha Hl Hbs Harr Hst.
  destruct (ntop4_props bs) as (Hlen & Hn & Hp); [by destruct bs|done|].
  assert (Z.of_nat (length (ntop4 bs)) < 16) as Hs by lia.
  unfold record_client, get_client_info, INET_ADDRSTRLEN. rewrite Hf. simpl. rewrite Ha. simpl.
  rewrite (inet_ntop_fits AF_INET bs array 16) by (simpl; lia). simpl.
  unfold strncpy. rewrite strncpy_bytes_string by (done || lia). simpl.
  assert (length (ntop4 bs ++ replicate (Z.to_nat 16 - length (ntop4 bs)) NUL) = Z.to_nat 16) as Hfull.
  { rewrite length_app, length_replicate. lia. }
  rewrite store_whole by congruence.
  assert (cstr (ntop4 bs ++ replicate (Z.to_nat 16 - length (ntop4 bs)) NUL) = Some (ntop4 bs)) as Hc.
  { destruct (Z.to_nat 16 - length (ntop4 bs))%nat eqn:E; [lia|]. simpl. by apply cstr_app_nul. }
  eexists. split; [reflexivity|]. split_and!; [done|done| |done]. unfold accepted_message. by rewrite Hc.
Qed.

(** For a client of another family the array is too small: a text of 16
    characters or more that fits the size of the socket address runs past its end,
    and a text that does not fit leaves the array as it was, so that a thread logs
    what the array held, past its end when that has no NUL. *)
Lemma other_families_overflow m family a size array stored :
  sa_family m = Ok family → family ≠ AF_INET → sin6_addr m = Ok a →
  length array = Z.to_nat INET_ADDRSTRLEN → length stored = Z.to_nat INET_ADDRSTRLEN →
  (INET_ADDRSTRLEN ≤ Z.of_nat (length (ntop6 a)) < size →
     record_client m size array stored = Fault OutOfBounds) ∧
  (size ≤ Z.of_nat (length (ntop6 a)) →
     (∀ s r, array = s ++ NUL :: r → NUL ∉ s → ∃ stored',
        record_client m size array stored = Ok stored' ∧ cstr stored' = Some s) ∧
     (NUL ∉ array → ∃ stored',
        record_client m size array stored = Ok stored' ∧ accepted_message stored' = Fault OutOfBounds)).
Proof.
  unfold INET_ADDRSTRLEN. intros Hf Hne Ha Harr Hst. unfold record_client, get_client_info, INET_ADDRSTRLEN.
  rewrite Hf. simpl. destruct (Z.eqb_spec family AF_INET); [done|]. rewrite Ha. simpl.
  unfold inet_ntop. change (AF_INET6 =? AF_INET) with false. cbv iota. split.
  - intros [H1 H2]. rewrite bool_decide_eq_true_2 by done. unfold store_bytes.
    rewrite bool_decide_eq_false_2; [done|]. rewrite length_app. simpl. lia.
  - intros Hs. rewrite bool_decide_eq_false_2 by lia. simpl. unfold strncpy. split.
    + intros s r -> Hn. rewrite length_app in Harr. simpl in Harr.
      rewrite strncpy_bytes_string by (done || lia). simpl. rewrite store_whole.
      * eexists. split; [reflexivity|]. destruct (Z.to_nat 16 - length s)%nat eqn:E; [lia|].
        simpl. by apply cstr_app_nul.
      * rewrite length_app, length_replicate, Hst. lia.
    + intros Hn. rewrite strncpy_bytes_full by (done || lia). simpl. rewrite store_whole by congruence.
      eexists. split; [reflexivity|]. unfold accepted_message. by apply cstr_None in Hn as ->.
Qed.

End ClientAddress.

(** ** Concrete executions *)

(** The eight groups of an IPv6 address in full. *)
Definition hex (n : Z) : Z := if n <? 10 then 48 + n else 87 + n.

Fixpoint demo_ntop6 (bs : list Z) : list Z :=
  match bs with
  | hi :: lo :: bs' =>
    [hex (hi / 16); hex (hi mod 16); hex (lo / 16); hex (lo mod 16)] ++
    match bs' with [] => [] | _ => 58 :: demo_ntop6 bs' end
  | _ => []
  end.

(** The address 127.0.0.1 with a port, and 2001:db8::1, in a [sockaddr_storage]. *)
Definition demo_inet : list Z := [2; 0; 162; 14; 127; 0; 0; 1] ++ replicate 120 0.
Definition demo_inet6 : list Z :=
  [10; 0; 162; 14; 0; 0; 0; 0; 32; 1; 13; 184] ++ replicate 11 0 ++ [1] ++ replicate 104 0.

Lemma client_address_round_trip_witness :
  ∃ stored', record_client demo_ntop6 demo_inet 16 (replicate 16 65) (replicate 16 66) = Ok stored' ∧
    accepted_message stored' = Ok (text "Accepted connection from 127.0.0.1" ++ [NL]).
Proof.
  destruct (client_address_round_trip demo_ntop6 demo_inet [127; 0; 0; 1] (replicate 16 65)
    (replicate 16 66)) as (stored' & H & _ & _ & Hm & _).
  - reflexivity.
  - reflexivity.
  - reflexivity.
  - unfold is_byte. repeat (apply list.Forall_cons; split; [lia|]). by apply list.Forall_nil.
  - reflexivity.
  - reflexivity.
  - exists stored'. split; [exact H|]. rewrite Hm. reflexivity.
Defined.

