(* ===== verification/Server.v ===== *)
(** * The threads of the socket server

    Models [src/server/src/aesdsocket_thread.c] ([thread_socket_receive],
    [send_file_to_client]) and [timer_thread.c].  A thread is a program counter
    and its local variables; a step is the code between two calls that depend on
    the outside ([recv], [send], [fopen], the mutex, the signal flag), whose
    outcome is the event of the step.  [sys_step] interleaves the threads in any
    order.  The stack frame of a thread is its [buf] and the bytes that follow
    it, as both functions write one byte past the array.  The output file is a
    [FILE] with its buffer; how much of it the C library writes out on its own is
    the parameter [spill]. *)
From Stdlib Require Import ZArith Lia.
From stdpp Require Import base tactics list gmap sets numbers.
From S2P Require Import Prelude CMemory.

(** ** Data *)

Definition BUFLEN : Z := 128.

(** What [fp] has written to the file and what is still in its buffer. *)
Record FILE : Type := mkFILE {
  disk : list Z;
  pending : list Z
}.

(** The state the threads share: the output file, the owner of the mutex, the
    flag set by the signal handler, what each socket has been sent, and the open
    sockets. *)
Record shared : Type := mkSh {
  fp : FILE;
  mutex : option Z;
  EXIT_SIGNAL : bool;
  net : gmap Z (list Z);
  fds : gset Z
}.

(** Where a connection thread is: the numbers in [SSend] count the characters read
    from the file. *)
Inductive spc : Type :=
| SStart | SLock | SWhile | SRecv | SFopen | SSend (i : nat) | SClose | SUnlock | SExit
| SErrUnlock | SDone.

Record thread_data : Type := mkTD {
  thread_exit : bool;
  fd_accept : Z
}.

Record sthread : Type := mkST {
  s_pc : spc;
  s_data : thread_data;
  s_frame : list Z;
  byte_written : Z
}.

Inductive tpc : Type := TStart | TLock | TWrite | TUnlock | TDone.

Record tthread : Type := mkTT {
  t_pc : tpc;
  t_frame : list Z
}.

(** What the outside answers to the step of a thread. *)
Inductive event : Type :=
| Tau
| RecvErr
| RecvData (bs : list Z)
| FopenFail
| SendOk
| SendFail
| Timestamp (ts : list Z).

#[export] Instance spc_eq_dec : EqDecision spc.
Proof. solve_decision. Defined.
#[export] Instance tpc_eq_dec : EqDecision tpc.
Proof. solve_decision. Defined.

(** ** The library calls *)

(** [strchr] in a block: the offset of the character before the first NUL. *)
Fixpoint strchr (b : list Z) (c : Z) : res (option nat) :=
  match b with
  | [] => Fault OutOfBounds
  | x :: b' =>
    if x =? c then Ok (Some O)
    else if x =? NUL then Ok None
    else r ← strchr b' c; Ok (option_map S r)
  end.

Section Server.
(** How many bytes of the buffered output a [fwrite] writes to the file. *)
Context (spill : list Z → nat).

Definition fwrite (bs : list Z) (f : FILE) : FILE :=
  let all := pending f ++ bs in
  mkFILE (disk f ++ take (spill all) all) (drop (spill all) all).

Definition fflush (f : FILE) : FILE := mkFILE (disk f ++ pending f) [].

(** All that was written through the stream. *)
Definition contents (f : FILE) : list Z := disk f ++ pending f.

Definition set_fp (f : FILE) (sh : shared) : shared :=
  mkSh f (mutex sh) (EXIT_SIGNAL sh) (net sh) (fds sh).
Definition set_mutex (o : option Z) (sh : shared) : shared :=
  mkSh (fp sh) o (EXIT_SIGNAL sh) (net sh) (fds sh).
Definition send_byte (fd c : Z) (sh : shared) : shared :=
  mkSh (fp sh) (mutex sh) (EXIT_SIGNAL sh)
    (<[fd:=default [] (net sh !! fd) ++ [c]]> (net sh)) (fds sh).
Definition close_fd (fd : Z) (sh : shared) : shared :=
  mkSh (fp sh) (mutex sh) (EXIT_SIGNAL sh) (net sh) (fds sh ∖ {[fd]}).
(** The socket that [accept] returned, if it did not fail. *)
Definition open_fd (fd : Z) (sh : shared) : shared :=
  mkSh (fp sh) (mutex sh) (EXIT_SIGNAL sh) (net sh)
    (if fd =? -1 then fds sh else {[fd]} ∪ fds sh).
Definition raise_signal (v : bool) (sh : shared) : shared :=
  mkSh (fp sh) (mutex sh) v (net sh) (fds sh).
Definition set_pc (p : spc) (t : sthread) : sthread :=
  mkST p (s_data t) (s_frame t) (byte_written t).
Definition set_exit (t : sthread) : sthread :=
  mkST (s_pc t) (mkTD true (fd_accept (s_data t))) (s_frame t) (byte_written t).

(** ** The connection thread *)

(** The outcome of a step: [None] when the thread is blocked, or the event is not
    one it can get. *)
Abbreviation outcome := (res (option (sthread * shared))) (only parsing).

(** [buf[BUFLEN] = '\0'], which is one past the end of [buf]. *)
Definition terminate_buf (frame : list Z) : res (list Z) := arr_set frame BUFLEN NUL.

(** The loop body after a [recv] of [bs]: [fwrite], the search for the newline, and
    [fflush] with the exit from the loop when it is found. *)
Definition received (bs : list Z) (t : sthread) (sh : shared) : outcome :=
  frame ← store_bytes (s_frame t) 0 bs;
  let ret := Z.of_nat (length bs) in
  out ← load_bytes frame ret;
  let f := fwrite out (fp sh) in
  let n := i32 (byte_written t + ret) in
  nl ← strchr frame NL;
  match nl with
  | Some _ => Ok (Some (mkST SFopen (s_data t) frame n, set_fp (fflush f) sh))
  | None => Ok (Some (mkST SWhile (s_data t) frame n, set_fp f sh))
  end.

(** [fgetc] and [send] of [send_file_to_client], or the end of the file. *)
Definition send_step (i : nat) (ev : event) (t : sthread) (sh : shared) : outcome :=
  match disk (fp sh) !! i, ev with
  | Some ch, SendOk => Ok (Some (set_pc (SSend (S i)) t, send_byte (fd_accept (s_data t)) ch sh))
  | Some _, SendFail => Ok (Some (set_pc (SSend (S i)) t, sh))
  | None, Tau => Ok (Some (set_pc SClose t, sh))
  | _, _ => Ok None
  end.

(** One step of [thread_socket_receive] run by thread [tid]. *)
Definition thread_socket_receive (tid : Z) (ev : event) (t : sthread) (sh : shared)
    : outcome :=
  match s_pc t, ev with
  | SStart, Tau =>
    frame ← terminate_buf (s_frame t);
    Ok (Some (mkST SLock (s_data t) frame 0, sh))
  | SLock, Tau =>
    match mutex sh with
    | None => Ok (Some (set_pc SWhile t, set_mutex (Some tid) sh))
    | Some _ => Ok None
    end
  | SWhile, Tau => Ok (Some (set_pc (if EXIT_SIGNAL sh then SFopen else SRecv) t, sh))
  | SRecv, RecvErr => Ok (Some (set_pc SErrUnlock (set_exit t), sh))
  | SRecv, RecvData bs =>
    if bool_decide (Z.of_nat (length bs) ≤ BUFLEN - 1) then received bs t sh else Ok None
  | SErrUnlock, Tau => Ok (Some (set_pc SDone t, set_mutex None sh))
  | SFopen, Tau => Ok (Some (set_pc (SSend 0) t, sh))
  | SFopen, FopenFail => Fault NullDeref
  | SSend i, _ => send_step i ev t sh
  | SClose, Tau => Ok (Some (set_pc SUnlock t, close_fd (fd_accept (s_data t)) sh))
  | SUnlock, Tau => Ok (Some (set_pc SExit t, set_mutex None sh))
  | SExit, Tau => Ok (Some (set_pc SDone (set_exit t), sh))
  | _, _ => Ok None
  end.

(** ** The timer thread *)

(** [strftime] into [buf] of a text [ts], with its result: 0 when the text and its
    NUL do not fit (the buffer is then unspecified, and left as it is here). *)
Definition strftime (frame ts : list Z) : res (list Z * Z) :=
  if bool_decide (Z.of_nat (length ts) < BUFLEN)
  then frame' ← store_bytes frame 0 (ts ++ [NUL]); Ok (frame', Z.of_nat (length ts))
  else Ok (frame, 0).

Definition timer_thread (tid : Z) (ev : event) (t : tthread) (sh : shared)
    : res (option (tthread * shared)) :=
  match t_pc t, ev with
  | TStart, Tau => Ok (Some (mkTT TLock (t_frame t), sh))
  | TLock, Tau =>
    match mutex sh with
    | None =>
      frame ← terminate_buf (t_frame t);
      Ok (Some (mkTT TWrite frame, set_mutex (Some tid) sh))
    | Some _ => Ok None
    end
  | TWrite, Timestamp ts =>
    r ← strftime (t_frame t) ts;
    out ← load_bytes r.1 r.2;
    Ok (Some (mkTT TUnlock r.1, set_fp (fwrite out (fp sh)) sh))
  | TUnlock, Tau => Ok (Some (mkTT TDone (t_frame t), set_mutex None sh))
  | _, _ => Ok None
  end.

(** ** The threads together *)

Inductive thread : Type :=
| Sock (t : sthread)
| Timer (t : tthread).

(** The threads, what they share, and what each has written to the file so far,
    in order. *)
Record sys : Type := mkSys {
  threads : gmap Z thread;
  shm : shared;
  history : list (Z * list Z)
}.

(** The bytes that the next step of a thread passes to [fwrite]. *)
Definition writes_of (th : thread) (ev : event) : option (list Z) :=
  match th, ev with
  | Sock t, RecvData bs => if decide (s_pc t = SRecv) then Some bs else None
  | Timer t, Timestamp ts =>
    if decide (t_pc t = TWrite)
    then Some (if bool_decide (Z.of_nat (length ts) < BUFLEN) then ts else [])
    else None
  | _, _ => None
  end.

Definition thread_step (tid : Z) (ev : event) (th : thread) (sh : shared)
    : res (option (thread * shared)) :=
  match th with
  | Sock t =>
    match thread_socket_receive tid ev t sh with
    | Ok (Some (t', sh')) => Ok (Some (Sock t', sh'))
    | Ok None => Ok None
    | Fault f => Fault f
    end
  | Timer t =>
    match timer_thread tid ev t sh with
    | Ok (Some (t', sh')) => Ok (Some (Timer t', sh'))
    | Ok None => Ok None
    | Fault f => Fault f
    end
  end.

Inductive sys_step : sys → sys → Prop :=
| step_thread S tid ev th th' sh' :
    threads S !! tid = Some th →
    thread_step tid ev th (shm S) = Ok (Some (th', sh')) →
    sys_step S (mkSys (<[tid:=th']> (threads S)) sh'
      (history S ++ match writes_of th ev with Some bs => [(tid, bs)] | None => [] end))
| step_accept S tid fd frame flag :
    threads S !! tid = None →
    sys_step S (mkSys (<[tid:=Sock (mkST SStart (mkTD flag fd) frame 0)]> (threads S))
      (open_fd fd (shm S)) (history S))
| step_timer S tid frame :
    threads S !! tid = None →
    sys_step S (mkSys (<[tid:=Timer (mkTT TStart frame)]> (threads S)) (shm S) (history S))
| step_signal S :
    sys_step S (mkSys (threads S) (raise_signal true (shm S)) (history S)).

(** The server when its main loop starts: the file is empty. *)
Definition sys_init : sys := mkSys ∅ (mkSh (mkFILE [] []) None false ∅ ∅) [].

Definition reachable (S : sys) : Prop := rtc sys_step sys_init S.

(** The thread is between the lock and the unlock of the mutex. *)
Definition in_critical (th : thread) : bool :=
  match th with
  | Sock t => match s_pc t with
    | SWhile | SRecv | SFopen | SSend _ | SClose | SUnlock | SErrUnlock => true
    | _ => false end
  | Timer t => match t_pc t with TWrite | TUnlock => true | _ => false end
  end.

(** The thread is before the lock. *)
Definition before_lock (th : thread) : bool :=
  match th with
  | Sock t => match s_pc t with SStart | SLock => true | _ => false end
  | Timer t => match t_pc t with TStart | TLock => true | _ => false end
  end.

(** ** Abstract server *)

(** The text of the file, and what each socket has been sent. *)
Record aserver : Type := mkAS {
  a_log : list Z;
  a_replies : gmap Z (list Z)
}.

(** One packet, which comes in the chunks [cs] and then [c], from the socket [fd],
    or one timestamp; [frame] is the stack of the thread that serves it, and [os i]
    says whether the [send] of byte [i] of the reply succeeds. *)
Inductive job : Type :=
| JPacket (tid fd : Z) (frame : list Z) (cs : list (list Z)) (c : list Z) (os : nat → bool)
| JStamp (tid : Z) (frame ts : list Z).

(** The bytes of [l] whose [send] succeeds, the first of them being byte [i]. *)
Fixpoint delivered (os : nat → bool) (i : nat) (l : list Z) : list Z :=
  match l with
  | [] => []
  | c :: l' => if os i then c :: delivered os (S i) l' else delivered os (S i) l'
  end.

(** A socket is sent the bytes [bs]. *)
Definition reply (fd : Z) (bs : list Z) (m : gmap Z (list Z)) : gmap Z (list Z) :=
  match bs with [] => m | _ => <[fd:=default [] (m !! fd) ++ bs]> m end.

(** A packet is added to the log and answered with the whole log, of which the
    client gets what can be sent. *)
Definition a_job (j : job) (a : aserver) : aserver :=
  match j with
  | JPacket _ fd _ cs c os =>
    let log := a_log a ++ concat cs ++ c in
    mkAS log (reply fd (delivered os 0 log) (a_replies a))
  | JStamp _ _ ts => mkAS (a_log a ++ ts) (a_replies a)
  end.

(** ** Invariants *)

(** What thread [tid] has written. *)
Definition own (tid : Z) (h : list (Z * list Z)) : list (Z * list Z) :=
  filter (λ p, p.1 = tid) h.

Record sys_inv (S : sys) : Prop := {
  si_critical tid th : threads S !! tid = Some th →
    in_critical th = true ↔ mutex (shm S) = Some tid;
  si_owner tid : mutex (shm S) = Some tid → is_Some (threads S !! tid);
  si_file : contents (fp (shm S)) = concat (history S).*2;
  si_before tid th : threads S !! tid = Some th → before_lock th = true → own tid (history S) = [];
  si_new tid : threads S !! tid = None → own tid (history S) = [];
  si_last tid : mutex (shm S) = Some tid → ∃ h, history S = h ++ own tid (history S);
  si_own tid : ∃ h1 h2, history S = h1 ++ own tid (history S) ++ h2
}.

(** What a step does to the mutex. *)
Definition mutex_change (tid : Z) (th th' : thread) (o o' : option Z) : Prop :=
  (o' = o ∧ in_critical th' = in_critical th) ∨
  (o = None ∧ o' = Some tid ∧ before_lock th = true ∧ in_critical th' = true) ∨
  (o' = None ∧ in_critical th = true ∧ in_critical th' = false).

(** ** Lemmas on the steps *)

Lemma contents_fwrite bs f : contents (fwrite bs f) = contents f ++ bs.
Proof. unfold contents, fwrite. simpl. by rewrite <-app_assoc, take_drop, app_assoc. Qed.

Lemma contents_fflush f : contents (fflush f) = contents f.
Proof. unfold contents, fflush. simpl. by rewrite app_nil_r. Qed.

Lemma received_inv bs t sh r :
  received bs t sh = Ok r → ∃ t' sh', r = Some (t', sh') ∧
    mutex sh' = mutex sh ∧ EXIT_SIGNAL sh' = EXIT_SIGNAL sh ∧
    contents (fp sh') = contents (fp sh) ++ bs ∧ (s_pc t' = SFopen ∨ s_pc t' = SWhile).
Proof.
  unfold received. intros (frame & Hs & H)%res_bind_ok.
  apply res_bind_ok in H as (out & Hl & H). simpl in H.
  assert (out = bs) as ->.
  { unfold store_bytes in Hs. case_bool_decide; [|discriminate Hs]. injection Hs as <-.
    unfold load_bytes in Hl. case_bool_decide; [|discriminate Hl]. injection Hl as <-.
    simpl. by rewrite Nat2Z.id, take_app_length. }
  apply res_bind_ok in H as (nl & _ & H).
  destruct nl; injection H as <-; eexists _, _; split; try done; simpl;
    rewrite ?contents_fflush, contents_fwrite; auto.
Qed.

Lemma send_step_inv i ev t sh r :
  send_step i ev t sh = Ok (Some r) →
  mutex r.2 = mutex sh ∧ fp r.2 = fp sh ∧ ∃ p, r.1 = set_pc p t ∧ (p = SSend (S i) ∨ p = SClose).
Proof.
  unfold send_step. intros H. destruct (disk (fp sh) !! i), ev; simplify_eq/=; eauto 10.
Qed.

Lemma receive_step_spec tid ev t sh t' sh' :
  thread_socket_receive tid ev t sh = Ok (Some (t', sh')) →
  mutex_change tid (Sock t) (Sock t') (mutex sh) (mutex sh') ∧
  (before_lock (Sock t') = true → before_lock (Sock t) = true) ∧
  contents (fp sh') = contents (fp sh) ++ default [] (writes_of (Sock t) ev) ∧
  (writes_of (Sock t) ev = None ∨ in_critical (Sock t) = true ∧ in_critical (Sock t') = true).
Proof.
  unfold thread_socket_receive, mutex_change. intros H. simpl.
  destruct (s_pc t) eqn:Hpc; [..|destruct ev; discriminate H].
  6:{ apply send_step_inv in H as (Hm & Hf & p & Ht & Hp). simpl in *. subst t'.
      rewrite Hm, Hf. unfold set_pc. simpl.
      destruct ev; simpl; rewrite app_nil_r; destruct Hp as [-> | ->]; auto 10. }
  all: destruct ev; try discriminate H.
  - apply res_bind_ok in H as (fr & _ & H). injection H as <- <-.
    simpl. rewrite app_nil_r. auto 10.
  - destruct (mutex sh) eqn:Hm; [discriminate H|]. injection H as <- <-. simpl.
    rewrite app_nil_r. auto 10.
  - injection H as <- <-. simpl. rewrite app_nil_r. destruct (EXIT_SIGNAL sh); auto 10.
  - injection H as <- <-. simpl. rewrite app_nil_r. auto 10.
  - case_bool_decide; [|discriminate H]. apply received_inv in H as (t1 & sh1 & Hr & Hm & _ & Hc & Hp).
    injection Hr as <- <-. rewrite Hm, Hc. simpl. destruct Hp as [-> | ->]; auto 10.
  - injection H as <- <-. simpl. rewrite app_nil_r. auto 10.
  - injection H as <- <-. simpl. rewrite app_nil_r. auto 10.
  - injection H as <- <-. simpl. rewrite app_nil_r. auto 10.
  - injection H as <- <-. simpl. rewrite app_nil_r. auto 10.
  - injection H as <- <-. simpl. rewrite app_nil_r. auto 10.
Qed.

Lemma strftime_out frame ts r out :
  strftime frame ts = Ok r → load_bytes r.1 r.2 = Ok out →
  out = if bool_decide (Z.of_nat (length ts) < BUFLEN) then ts else [].
Proof.
  unfold strftime. case_bool_decide; intros Hr Hl.
  - apply res_bind_ok in Hr as (fr & Hs & Hr). injection Hr as <-.
    unfold store_bytes in Hs. case_bool_decide; [|discriminate Hs]. injection Hs as <-.
    unfold load_bytes in Hl. case_bool_decide; [|discriminate Hl]. injection Hl as <-.
    simpl. rewrite Nat2Z.id, <-app_assoc, take_app_length. done.
  - injection Hr as <-. unfold load_bytes in Hl. case_bool_decide; [|discriminate Hl].
    injection Hl as <-. done.
Qed.

Lemma timer_step_spec tid ev t sh t' sh' :
  timer_thread tid ev t sh = Ok (Some (t', sh')) →
  mutex_change tid (Timer t) (Timer t') (mutex sh) (mutex sh') ∧
  (before_lock (Timer t') = true → before_lock (Timer t) = true) ∧
  contents (fp sh') = contents (fp sh) ++ default [] (writes_of (Timer t) ev) ∧
  (writes_of (Timer t) ev = None ∨ in_critical (Timer t) = true ∧ in_critical (Timer t') = true).
Proof.
  unfold timer_thread, mutex_change. intros H. simpl.
  destruct (t_pc t) eqn:Hpc; destruct ev; try discriminate H.
  - injection H as <- <-. simpl. rewrite app_nil_r. auto 10.
  - destruct (mutex sh) eqn:Hm; [discriminate H|].
    apply res_bind_ok in H as (fr & _ & H). injection H as <- <-. simpl. rewrite app_nil_r. auto 10.
  - apply res_bind_ok in H as (r & Hs & H). apply res_bind_ok in H as (out & Hl & H).
    injection H as <- <-. simpl. rewrite contents_fwrite, (strftime_out _ _ _ _ Hs Hl). auto 10.
  - injection H as <- <-. simpl. rewrite app_nil_r. auto 10.
Qed.

Lemma thread_step_spec tid ev th sh th' sh' :
  thread_step tid ev th sh = Ok (Some (th', sh')) →
  mutex_change tid th th' (mutex sh) (mutex sh') ∧
  (before_lock th' = true → before_lock th = true) ∧
  contents (fp sh') = contents (fp sh) ++ default [] (writes_of th ev) ∧
  (writes_of th ev = None ∨ in_critical th = true ∧ in_critical th' = true).
Proof.
  destruct th as [t|t]; simpl; intros H.
  - destruct (thread_socket_receive tid ev t sh) as [[[t1 sh1]|]|] eqn:E; simplify_eq.
    by apply receive_step_spec in E.
  - destruct (timer_thread tid ev t sh) as [[[t1 sh1]|]|] eqn:E; simplify_eq.
    by apply timer_step_spec in E.
Qed.

(** A thread before the lock is not in the critical section. *)
Lemma before_not_critical th : before_lock th = true → in_critical th = false.
Proof. destruct th as [t|t]; simpl; [by destruct (s_pc t)|by destruct (t_pc t)]. Qed.

Lemma own_app tid h k : own tid (h ++ k) = own tid h ++ own tid k.
Proof. apply list.filter_app. Qed.

Lemma own_one tid tid' bs :
  own tid [(tid', bs)] = if decide (tid' = tid) then [(tid', bs)] else [].
Proof. unfold own. rewrite filter_cons, filter_nil. simpl. by destruct (decide (tid' = tid)). Qed.

Lemma own_mem tid h : (∀ p, p ∈ h → p.1 ≠ tid) → own tid h = [].
Proof.
  induction h as [|p h IH]; [done|]. intros Hp. unfold own. rewrite filter_cons.
  destruct (decide (p.1 = tid)) as [E|]; [by destruct (Hp p (list_elem_of_here _ _))|].
  apply IH. intros q Hq. apply Hp. by right.
Qed.

Lemma fmap_snd_app {A B} (h k : list (A * list B)) :
  concat (h ++ k).*2 = concat h.*2 ++ concat k.*2.
Proof. by rewrite fmap_app, concat_app. Qed.

(** The history entry of a step. *)
Definition entry_of (tid : Z) (o : option (list Z)) : list (Z * list Z) :=
  match o with Some bs => [(tid, bs)] | None => [] end.

Lemma concat_entry tid o : concat (entry_of tid o).*2 = default [] o.
Proof. destruct o; [apply app_nil_r|done]. Qed.

Lemma own_entry_ne tid tid' o : tid' ≠ tid → own tid (entry_of tid' o) = [].
Proof. intros Hne. destruct o; [|done]. simpl. rewrite own_one. by destruct (decide (tid' = tid)). Qed.

Lemma own_entry_eq tid o : own tid (entry_of tid o) = entry_of tid o.
Proof. destruct o; [|done]. simpl. rewrite own_one. by destruct (decide (tid = tid)). Qed.

(** What a step of thread [tid] adds to the history of the owner of the mutex. *)
Lemma history_step S tid o h :
  (o = None ∨ mutex (shm S) = Some tid) → sys_inv S →
  (∀ t, mutex (shm S) = Some t → ∃ h0, history S ++ entry_of tid o = h0 ++ own t (history S ++ entry_of tid o)) ∧
  (∃ h1 h2, history S ++ entry_of tid o =
     h1 ++ own h (history S ++ entry_of tid o) ++ h2).
Proof.
  intros Ho HI. destruct (si_own S HI h) as (h1 & h2 & Hh). split.
  - intros t Ht. destruct (si_last S HI t Ht) as (h0 & H0). exists h0.
    rewrite own_app, app_assoc, <-H0. f_equal.
    destruct Ho as [->|Ho]; [done|]. assert (t = tid) as -> by congruence.
    by rewrite own_entry_eq.
  - rewrite own_app. destruct (decide (tid = h)) as [->|Hne].
    + rewrite own_entry_eq. destruct Ho as [->|Ho].
      * exists h1, h2. simpl. by rewrite !app_nil_r.
      * destruct (si_last S HI h Ho) as (h0 & H0). exists h0, [].
        by rewrite app_nil_r, app_assoc, <-H0.
    + rewrite own_entry_ne, app_nil_r by done. exists h1, (h2 ++ entry_of tid o).
      by rewrite !app_assoc, <-(app_assoc h1), <-Hh.
Qed.

Lemma sys_inv_thread S tid ev th th' sh' :
  sys_inv S → threads S !! tid = Some th →
  thread_step tid ev th (shm S) = Ok (Some (th', sh')) →
  sys_inv (mkSys (<[tid:=th']> (threads S)) sh' (history S ++ entry_of tid (writes_of th ev))).
Proof.
  intros HI Hth Hstep. pose proof (si_critical S HI tid th Hth) as Hc.
  destruct (thread_step_spec _ _ _ _ _ _ Hstep) as (Hm & Hb & Hf & Hw).
  assert (writes_of th ev = None ∨ mutex (shm S) = Some tid) as Hw'.
  { destruct Hw as [?|[? _]]; [by left|right; by apply Hc]. }
  assert (before_lock th' = true → writes_of th ev = None) as Hbw.
  { intros H'. destruct Hw as [?|[H1 _]]; [done|]. by rewrite (before_not_critical th (Hb H')) in H1. }
  pose proof (λ h, history_step S tid (writes_of th ev) h Hw' HI) as Hhist.
  split; simpl.
  - intros tid1 th1. destruct (decide (tid1 = tid)) as [->|Hne].
    + rewrite lookup_insert_eq. intros [= <-].
      destruct Hm as [[-> ->]|[(_ & -> & _ & ->)|(-> & _ & ->)]]; [done|naive_solver|naive_solver].
    + rewrite lookup_insert_ne by done. intros H1. rewrite (si_critical S HI tid1 th1 H1).
      destruct Hm as [[-> _]|[(-> & -> & _)|(-> & Hcr & _)]]; [done|naive_solver|].
      apply Hc in Hcr. rewrite Hcr. naive_solver.
  - intros tid1 H1. destruct (decide (tid1 = tid)) as [->|Hne].
    + rewrite lookup_insert_eq. eauto.
    + rewrite lookup_insert_ne by done. apply (si_owner S HI).
      destruct Hm as [[E _]|[(_ & E & _)|(E & _)]]; congruence.
  - by rewrite Hf, (si_file S HI), fmap_snd_app, concat_entry.
  - intros tid1 th1. rewrite own_app. destruct (decide (tid1 = tid)) as [->|Hne].
    + rewrite lookup_insert_eq. intros [= <-] H1. rewrite (Hbw H1). simpl.
      by rewrite (si_before S HI tid th Hth (Hb H1)).
    + rewrite lookup_insert_ne by done. intros H1 H2.
      by rewrite (si_before S HI tid1 th1 H1 H2), own_entry_ne.
  - intros tid1. rewrite own_app. destruct (decide (tid1 = tid)) as [->|Hne].
    + by rewrite lookup_insert_eq.
    + rewrite lookup_insert_ne by done. intros H1. by rewrite (si_new S HI tid1 H1), own_entry_ne.
  - intros t Ht. destruct Hm as [[E _]|[(En & E & H1 & _)|(E & _)]]; [| |congruence].
    + apply (proj1 (Hhist t)). congruence.
    + assert (t = tid) as -> by congruence.
      destruct Hw' as [->|?]; [|congruence]. simpl. rewrite app_nil_r.
      rewrite (si_before S HI tid th Hth H1). exists (history S). by rewrite app_nil_r.
  - intros t. apply (proj2 (Hhist t)).
Qed.

Lemma sys_inv_new S tid th sh :
  sys_inv S → threads S !! tid = None → before_lock th = true →
  fp sh = fp (shm S) → mutex sh = mutex (shm S) →
  sys_inv (mkSys (<[tid:=th]> (threads S)) sh (history S)).
Proof.
  intros HI Hn Hb Hf Hm. assert (mutex (shm S) ≠ Some tid) as Hne.
  { intros E. apply (si_owner S HI) in E. rewrite Hn in E. by destruct E. }
  split; simpl; rewrite ?Hf, ?Hm.
  - intros tid1 th1. destruct (decide (tid1 = tid)) as [->|Hne1].
    + rewrite lookup_insert_eq. intros [= <-]. rewrite before_not_critical by done. naive_solver.
    + rewrite lookup_insert_ne by done. apply (si_critical S HI).
  - intros tid1 E. rewrite lookup_insert_ne by congruence. by apply (si_owner S HI).
  - apply (si_file S HI).
  - intros tid1 th1. destruct (decide (tid1 = tid)) as [->|Hne1].
    + intros _ _. by apply (si_new S HI).
    + rewrite lookup_insert_ne by done. apply (si_before S HI).
  - intros tid1. destruct (decide (tid1 = tid)) as [->|Hne1]; [by rewrite lookup_insert_eq|].
    rewrite lookup_insert_ne by done. apply (si_new S HI).
  - apply (si_last S HI).
  - apply (si_own S HI).
Qed.

Lemma sys_inv_init : sys_inv sys_init.
Proof. split; try done; simpl; eauto. intros tid. by exists [], []. Qed.

Lemma sys_inv_step S S' : sys_inv S → sys_step S S' → sys_inv S'.
Proof.
  intros HI Hstep. destruct Hstep as [S tid ev th th' sh' Hth Hs|S tid fd frame flag Hn|S tid frame Hn|S].
  - by eapply sys_inv_thread.
  - by apply sys_inv_new.
  - by apply sys_inv_new.
  - destruct HI as [H1 H2 H3 H4 H5 H6 H7]. by split.
Qed.

Lemma reachable_inv S : reachable S → sys_inv S.
Proof.
  intros Hr. assert (∀ S0 S1, rtc sys_step S0 S1 → sys_inv S0 → sys_inv S1) as Hgen.
  { induction 1 as [|S0 S1 S2 Hs _ IH]; [done|]. intros HI. by apply IH, (sys_inv_step S0). }
  by apply (Hgen sys_init S Hr), sys_inv_init.
Qed.

(** ** One connection *)

(** The steps of one thread with the given events. *)
Fixpoint run_thread (tid : Z) (evs : list event) (t : sthread) (sh : shared)
    : res (option (sthread * shared)) :=
  match evs with
  | [] => Ok (Some (t, sh))
  | ev :: evs' =>
    match thread_socket_receive tid ev t sh with
    | Ok (Some (t', sh')) => run_thread tid evs' t' sh'
    | r => r
    end
  end.

Lemma run_thread_step tid ev evs t sh t' sh' :
  thread_socket_receive tid ev t sh = Ok (Some (t', sh')) →
  run_thread tid (ev :: evs) t sh = run_thread tid evs t' sh'.
Proof. simpl. by intros ->. Qed.

Lemma run_thread_app tid evs1 evs2 t sh t' sh' :
  run_thread tid evs1 t sh = Ok (Some (t', sh')) →
  run_thread tid (evs1 ++ evs2) t sh = run_thread tid evs2 t' sh'.
Proof.
  revert t sh. induction evs1 as [|ev evs1 IH]; intros t sh; simpl; [by intros [= <- <-]|].
  destruct (thread_socket_receive tid ev t sh) as [[[t1 sh1]|]|]; [apply IH|done|done].
Qed.

(** The stack holds no newline in the place of [buf], and more bytes after it. *)
Definition stack_ok (frame : list Z) : Prop :=
  (Z.to_nat BUFLEN < length frame)%nat ∧ NL ∉ take (Z.to_nat BUFLEN) frame.

Definition terminated (frame : list Z) : Prop :=
  stack_ok frame ∧ frame !! Z.to_nat BUFLEN = Some NUL.

Definition chunk_ok (c : list Z) : Prop := Z.of_nat (length c) ≤ BUFLEN - 1.

Lemma strchr_none b c n :
  c ≠ NUL → c ∉ take n b → b !! n = Some NUL → strchr b c = Ok None.
Proof.
  intros Hc. revert b. induction n as [|n IH]; intros [|x b]; simpl; try done.
  - intros _ [= ->]. destruct (Z.eqb_spec NUL c); [congruence|done].
  - rewrite not_elem_of_cons. intros [Hx Hb] Hn. destruct (Z.eqb_spec x c); [congruence|].
    destruct (Z.eqb_spec x NUL); [done|]. by rewrite (IH b).
Qed.

Lemma strchr_found a b c : c ∈ a → NUL ∉ a → ∃ k, strchr (a ++ b) c = Ok (Some k).
Proof.
  induction a as [|x a IH]; [by intros ?%elem_of_nil|].
  rewrite elem_of_cons, not_elem_of_cons. intros Hc [Hx Ha]. simpl.
  destruct (Z.eqb_spec x c); [eauto|]. destruct (Z.eqb_spec x NUL); [congruence|].
  destruct Hc as [|Hc]; [congruence|]. destruct (IH Hc Ha) as [k ->]. simpl. eauto.
Qed.

Lemma terminate_buf_ok frame : stack_ok frame → ∃ frame',
  terminate_buf frame = Ok frame' ∧ terminated frame'.
Proof.
  intros [Hl Hn]. unfold terminate_buf. rewrite arr_set_ok by (unfold BUFLEN in *; lia).
  eexists. split; [done|]. split; [split|].
  - by rewrite length_insert.
  - by rewrite take_insert_ge.
  - by apply list_lookup_insert_eq.
Qed.

Lemma terminated_length frame : terminated frame → (Z.to_nat BUFLEN < length frame)%nat.
Proof. intros [[Hl _] _]. exact Hl. Qed.

#[local] Hint Resolve terminated_length : core.

(** The frame after a [recv]. *)
Definition overlay (c frame : list Z) : list Z := c ++ drop (length c) frame.

Lemma received_run c t sh :
  chunk_ok c → (Z.to_nat BUFLEN < length (s_frame t))%nat →
  received c t sh =
  match strchr (overlay c (s_frame t)) NL with
  | Ok (Some _) => Ok (Some (mkST SFopen (s_data t) (overlay c (s_frame t))
      (i32 (byte_written t + Z.of_nat (length c))), set_fp (fflush (fwrite c (fp sh))) sh))
  | Ok None => Ok (Some (mkST SWhile (s_data t) (overlay c (s_frame t))
      (i32 (byte_written t + Z.of_nat (length c))), set_fp (fwrite c (fp sh)) sh))
  | Fault f => Fault f
  end.
Proof.
  intros Hc Hl. unfold received, chunk_ok, BUFLEN in *.
  rewrite store_bytes_ok by lia. simpl. change (c ++ drop (length c) (s_frame t)) with (overlay c (s_frame t)).
  rewrite load_bytes_ok by (unfold overlay; rewrite length_app; lia). simpl.
  replace (take (Z.to_nat (Z.of_nat (length c))) (overlay c (s_frame t))) with c.
  2:{ unfold overlay. by rewrite Nat2Z.id, take_app_length. }
  by destruct (strchr _ _) as [[]|].
Qed.

Lemma overlay_terminated c frame :
  chunk_ok c → terminated frame → NL ∉ c → terminated (overlay c frame).
Proof.
  intros Hc [[Hl Hn] Ht] Hnl. unfold chunk_ok, overlay, terminated, stack_ok, BUFLEN in *. split; [split|].
  - rewrite length_app, length_drop. lia.
  - rewrite take_app, take_drop_commute. intros [Hin|Hin]%elem_of_app.
    + by apply Hnl, (subseteq_take _ _ _ Hin).
    + apply Hn. replace (length c + (Z.to_nat 128 - length c))%nat with (Z.to_nat 128) in Hin by lia.
      by apply (subseteq_drop _ _ _ Hin).
  - rewrite lookup_app_r by lia. rewrite lookup_drop.
    by replace (length c + (Z.to_nat 128 - length c))%nat with (Z.to_nat 128) by lia.
Qed.

Lemma step_start tid t sh frame :
  s_pc t = SStart → terminate_buf (s_frame t) = Ok frame →
  thread_socket_receive tid Tau t sh = Ok (Some (mkST SLock (s_data t) frame 0, sh)).
Proof. unfold thread_socket_receive. by intros -> ->. Qed.

Lemma step_lock tid t sh :
  s_pc t = SLock → mutex sh = None →
  thread_socket_receive tid Tau t sh = Ok (Some (set_pc SWhile t, set_mutex (Some tid) sh)).
Proof. unfold thread_socket_receive. by intros -> ->. Qed.

Lemma step_while tid t sh :
  s_pc t = SWhile → EXIT_SIGNAL sh = false →
  thread_socket_receive tid Tau t sh = Ok (Some (set_pc SRecv t, sh)).
Proof. unfold thread_socket_receive. by intros -> ->. Qed.

Lemma step_recv tid c t sh :
  s_pc t = SRecv → chunk_ok c → thread_socket_receive tid (RecvData c) t sh = received c t sh.
Proof. unfold thread_socket_receive. intros -> Hc. by rewrite bool_decide_eq_true_2. Qed.

Lemma run_chunk tid c t sh :
  s_pc t = SWhile → EXIT_SIGNAL sh = false → chunk_ok c → NL ∉ c → terminated (s_frame t) →
  run_thread tid [Tau; RecvData c] t sh =
  Ok (Some (mkST SWhile (s_data t) (overlay c (s_frame t))
              (i32 (byte_written t + Z.of_nat (length c))), set_fp (fwrite c (fp sh)) sh)).
Proof.
  intros Hpc Hsig Hc Hnl Ht. rewrite (run_thread_step _ _ _ _ _ _ _ (step_while tid t sh Hpc Hsig)).
  cbn [run_thread]. rewrite step_recv, received_run by auto. cbn [s_frame set_pc].
  destruct (overlay_terminated c (s_frame t) Hc Ht Hnl) as [[_ Hn] H128].
  by rewrite (strchr_none _ _ _ NL_NUL Hn H128).
Qed.

Lemma run_chunks tid cs t sh :
  s_pc t = SWhile → EXIT_SIGNAL sh = false → Forall (λ c, chunk_ok c ∧ NL ∉ c) cs →
  terminated (s_frame t) →
  ∃ frame n f, run_thread tid (mjoin ((λ c, [Tau; RecvData c]) <$> cs)) t sh =
      Ok (Some (mkST SWhile (s_data t) frame n, set_fp f sh)) ∧
    terminated frame ∧ contents f = contents (fp sh) ++ concat cs.
Proof.
  intros Hpc Hsig Hcs. revert t sh Hpc Hsig. induction Hcs as [|c cs [Hc Hnl] _ IH];
    intros t sh Hpc Hsig Ht.
  - exists (s_frame t), (byte_written t), (fp sh). simpl. rewrite app_nil_r.
    split_and!; [|done..]. by destruct t, sh; simplify_eq/=.
  - change (mjoin ((λ c, [Tau; RecvData c]) <$> c :: cs)) with
      ([Tau; RecvData c] ++ mjoin ((λ c, [Tau; RecvData c]) <$> cs)).
    rewrite (run_thread_app _ _ _ _ _ _ _ (run_chunk tid c t sh Hpc Hsig Hc Hnl Ht)).
    destruct (IH (mkST SWhile (s_data t) (overlay c (s_frame t))
      (i32 (byte_written t + Z.of_nat (length c)))) (set_fp (fwrite c (fp sh)) sh))
      as (frame & n & f & -> & Hfr & Hf); [done|done|by apply overlay_terminated|].
    exists frame, n, f. split_and!; [done..|].
    rewrite Hf. simpl. by rewrite contents_fwrite, <-app_assoc.
Qed.

Lemma run_last tid c t sh :
  s_pc t = SWhile → EXIT_SIGNAL sh = false → chunk_ok c → NL ∈ c → NUL ∉ c →
  terminated (s_frame t) → ∃ frame n,
  run_thread tid [Tau; RecvData c; Tau] t sh =
  Ok (Some (mkST (SSend 0) (s_data t) frame n, set_fp (mkFILE (contents (fp sh) ++ c) []) sh)).
Proof.
  intros Hpc Hsig Hc Hnl Hnul Ht.
  rewrite (run_thread_step _ _ _ _ _ _ _ (step_while tid t sh Hpc Hsig)).
  cbn [run_thread]. rewrite step_recv, received_run by auto. cbn [s_frame set_pc].
  destruct (strchr_found c (drop (length c) (s_frame t)) NL Hnl Hnul) as [k Hk].
  unfold overlay. rewrite Hk. simpl. eexists _, _. do 4 f_equal. unfold fflush. f_equal.
  change (contents (fwrite c (fp sh)) = contents (fp sh) ++ c). apply contents_fwrite.
Qed.

(** The client gets every character of the file. *)
Definition send_all (fd : Z) (bs : list Z) (sh : shared) : shared :=
  foldl (λ s c, send_byte fd c s) sh bs.

Lemma send_all_eq fd bs sh :
  send_all fd bs sh =
  mkSh (fp sh) (mutex sh) (EXIT_SIGNAL sh) (reply fd bs (net sh)) (fds sh).
Proof.
  revert sh. induction bs as [|c bs IH]; intros sh; simpl; [by destruct sh|].
  rewrite IH. unfold send_byte. simpl. f_equal. destruct bs as [|c' bs]; [done|]. simpl.
  rewrite lookup_insert_eq, insert_insert_eq. simpl. by rewrite <-app_assoc.
Qed.

Lemma reply_lookup fd bs m : bs ≠ [] → reply fd bs m !! fd = Some (default [] (m !! fd) ++ bs).
Proof. destruct bs; [done|]. intros _. apply lookup_insert_eq. Qed.

Lemma delivered_all i l : delivered (λ _, true) i l = l.
Proof. revert i. induction l as [|c l IH]; intros i; simpl; [done|]. by rewrite IH. Qed.

(** The events of the [send] calls of the bytes [i] to [i + k - 1]. *)
Definition send_events (os : nat → bool) (i k : nat) : list event :=
  (λ j, if os j then SendOk else SendFail) <$> seq i k.

Lemma run_send tid os k i t sh :
  s_pc t = SSend i → length (disk (fp sh)) = (i + k)%nat →
  run_thread tid (send_events os i k) t sh =
  Ok (Some (set_pc (SSend (i + k)) t,
            send_all (fd_accept (s_data t)) (delivered os i (drop i (disk (fp sh)))) sh)).
Proof.
  revert i t sh. induction k as [|k IH]; intros i t sh Hpc Hl.
  - rewrite drop_ge by lia. rewrite Nat.add_0_r. simpl. by destruct t; simplify_eq/=.
  - destruct (lookup_lt_is_Some_2 (disk (fp sh)) i) as [ch Hch]; [lia|].
    rewrite (drop_S _ _ _ Hch), Nat.add_succ_r.
    change (send_events os i (S k)) with ((if os i then SendOk else SendFail) :: send_events os (S i) k).
    cbn [run_thread delivered]. unfold thread_socket_receive at 1. rewrite Hpc. unfold send_step. rewrite Hch.
    destruct (os i); by rewrite (IH (S i)) by (simpl; lia || done).
Qed.

Lemma run_close tid i t sh :
  s_pc t = SSend i → (length (disk (fp sh)) ≤ i)%nat →
  run_thread tid [Tau; Tau; Tau; Tau] t sh =
  Ok (Some (mkST SDone (mkTD true (fd_accept (s_data t))) (s_frame t) (byte_written t),
            set_mutex None (close_fd (fd_accept (s_data t)) sh))).
Proof.
  intros Hpc Hl.
  assert (thread_socket_receive tid Tau t sh = Ok (Some (set_pc SClose t, sh))) as Heof.
  { unfold thread_socket_receive, send_step. by rewrite Hpc, lookup_ge_None_2. }
  by rewrite (run_thread_step _ _ _ _ _ _ _ Heof).
Qed.

(** The events of a connection whose packet comes in the chunks [cs] and [c], and
    whose reply has [n] bytes. *)
Definition connection_events (cs : list (list Z)) (c : list Z) (os : nat → bool) (n : nat)
    : list event :=
  [Tau; Tau] ++ mjoin ((λ c, [Tau; RecvData c]) <$> cs) ++ [Tau; RecvData c; Tau] ++
  send_events os 0 n ++ [Tau; Tau; Tau; Tau].

Lemma run_connection tid cs c os t sh :
  mutex sh = None → EXIT_SIGNAL sh = false → s_pc t = SStart → stack_ok (s_frame t) →
  Forall (λ c, chunk_ok c ∧ NL ∉ c) cs → chunk_ok c → NL ∈ c → NUL ∉ c →
  let file := contents (fp sh) ++ concat cs ++ c in
  let fd := fd_accept (s_data t) in
  ∃ frame n, run_thread tid (connection_events cs c os (length file)) t sh =
    Ok (Some (mkST SDone (mkTD true fd) frame n,
              mkSh (mkFILE file []) None false
                (reply fd (delivered os 0 file) (net sh)) (fds sh ∖ {[fd]}))).
Proof.
  intros Hm Hsig Hpc Hst Hcs Hc Hnl Hnul file fd. unfold connection_events.
  destruct (terminate_buf_ok _ Hst) as (fr0 & Hfr0 & Ht0).
  rewrite (run_thread_app tid [Tau; Tau] _ t sh (mkST SWhile (s_data t) fr0 0) (set_mutex (Some tid) sh)).
  2:{ rewrite (run_thread_step _ _ _ _ _ _ _ (step_start tid t sh fr0 Hpc Hfr0)).
      by rewrite (run_thread_step _ _ _ _ _ _ _ (step_lock tid (mkST SLock _ _ _) sh eq_refl Hm)). }
  destruct (run_chunks tid cs (mkST SWhile (s_data t) fr0 0) (set_mutex (Some tid) sh))
    as (fr1 & n1 & f1 & Hr1 & Ht1 & Hf1); [done..|].
  rewrite (run_thread_app _ _ _ _ _ _ _ Hr1).
  destruct (run_last tid c (mkST SWhile (s_data t) fr1 n1) (set_fp f1 (set_mutex (Some tid) sh)))
    as (fr2 & n2 & Hr2); [done..|].
  rewrite (run_thread_app _ _ _ _ _ _ _ Hr2).
  assert (contents f1 ++ c = file) as Hfile by (rewrite Hf1; simpl; by rewrite <-app_assoc).
  simpl. rewrite Hfile.
  set (sh2 := set_fp (mkFILE file []) _). set (t2 := mkST (SSend 0) _ _ _).
  rewrite (run_thread_app _ _ _ _ _ _ _ (run_send tid os (length file) 0 t2 sh2 eq_refl eq_refl)).
  rewrite drop_0, send_all_eq. rewrite (run_close tid (length file)) by done.
  exists fr2, n2. unfold close_fd, set_mutex. simpl. by rewrite Hsig.
Qed.

(** ** Sequences of connections *)

Definition job_ok (j : job) : Prop :=
  match j with
  | JPacket _ _ frame cs c _ =>
    stack_ok frame ∧ Forall (λ c, chunk_ok c ∧ NL ∉ c) cs ∧ chunk_ok c ∧ NL ∈ c ∧ NUL ∉ c
  | JStamp _ frame ts =>
    (Z.to_nat BUFLEN < length frame)%nat ∧ Z.of_nat (length ts) < BUFLEN
  end.

(** A timer thread from its start to its end. *)
Definition run_timer (tid : Z) (frame ts : list Z) (sh : shared)
    : res (option (tthread * shared)) :=
  foldl (λ r ev, match r with
                 | Ok (Some (t, sh)) => timer_thread tid ev t sh
                 | _ => r
                 end) (Ok (Some (mkTT TStart frame, sh))) [Tau; Tau; Timestamp ts; Tau].

(** A job from its start to its end, with the shared state it leaves. *)
Definition run_job (j : job) (sh : shared) : option shared :=
  match j with
  | JPacket tid fd frame cs c os =>
    match run_thread tid (connection_events cs c os (length (contents (fp sh) ++ concat cs ++ c)))
            (mkST SStart (mkTD false fd) frame 0) sh with
    | Ok (Some (t, sh')) => if decide (s_pc t = SDone) then Some sh' else None
    | _ => None
    end
  | JStamp tid frame ts =>
    match run_timer tid frame ts sh with
    | Ok (Some (t, sh')) => if decide (t_pc t = TDone) then Some sh' else None
    | _ => None
    end
  end.

Fixpoint run_jobs (js : list job) (sh : shared) : option shared :=
  match js with [] => Some sh | j :: js' => sh' ← run_job j sh; run_jobs js' sh' end.

(** Nobody holds the mutex, the server runs, and the state is the abstract one. *)
Record serves (sh : shared) (a : aserver) : Prop := {
  sv_mutex : mutex sh = None;
  sv_signal : EXIT_SIGNAL sh = false;
  sv_log : contents (fp sh) = a_log a;
  sv_net : net sh = a_replies a
}.

Lemma run_timer_ok tid frame ts sh :
  mutex sh = None → (Z.to_nat BUFLEN < length frame)%nat → Z.of_nat (length ts) < BUFLEN →
  ∃ frame', run_timer tid frame ts sh =
    Ok (Some (mkTT TDone frame', set_mutex None (set_fp (fwrite ts (fp sh)) sh))).
Proof.
  intros Hm Hl Hts. unfold BUFLEN in *.
  set (fr1 := <[Z.to_nat 128:=NUL]> frame).
  assert (timer_thread tid Tau (mkTT TLock frame) sh =
    Ok (Some (mkTT TWrite fr1, set_mutex (Some tid) sh))) as H2.
  { unfold timer_thread. cbn [t_pc]. rewrite Hm. cbn [t_frame].
    unfold terminate_buf, BUFLEN. rewrite arr_set_ok by lia. done. }
  assert (∃ fr2, timer_thread tid (Timestamp ts) (mkTT TWrite fr1) (set_mutex (Some tid) sh) =
    Ok (Some (mkTT TUnlock fr2, set_fp (fwrite ts (fp sh)) (set_mutex (Some tid) sh)))) as [fr2 H3].
  { unfold timer_thread. cbn [t_pc t_frame]. unfold strftime, BUFLEN.
    rewrite bool_decide_eq_true_2 by done.
    rewrite store_bytes_ok by (rewrite length_app; unfold fr1; rewrite length_insert; simpl; lia). simpl.
    rewrite load_bytes_ok by (rewrite !length_app; simpl; lia). simpl.
    rewrite Nat2Z.id, <-app_assoc, take_app_length. by eexists. }
  exists fr2. unfold run_timer. cbn [foldl].
  change (timer_thread tid Tau (mkTT TStart frame) sh) with (Ok (Some (mkTT TLock frame, sh))).
  cbv iota. rewrite H2. cbv iota. rewrite H3. done.
Qed.

Lemma run_job_refines j sh a :
  serves sh a → job_ok j → ∃ sh', run_job j sh = Some sh' ∧ serves sh' (a_job j a).
Proof.
  intros [Hm Hs Hl Hn] Hj.
  destruct j as [tid fd frame cs c os|tid frame ts]; cbn [job_ok a_job run_job] in *.
  - destruct Hj as (Hst & Hcs & Hc & Hnl & Hnul).
    destruct (run_connection tid cs c os (mkST SStart (mkTD false fd) frame 0) sh)
      as (fr & n & Hr); [done..|].
    rewrite Hr. simpl. eexists. split; [done|]. split; simpl; try done.
    + unfold contents at 1. simpl. by rewrite app_nil_r, <-Hl.
    + by rewrite Hn, Hl.
  - destruct Hj as [Hfr Hts]. destruct (run_timer_ok tid frame ts sh Hm Hfr Hts) as [fr' ->].
    simpl. eexists. split; [done|]. split; simpl; try done. by rewrite contents_fwrite, Hl.
Qed.

(** ** Properties *)

(** C17: Mutual exclusion: in every state that the server reaches, under any
    interleaving of its connection and timer threads, the threads between the
    lock and the unlock of the mutex are exactly its owner, so there is at most
    one. *)
Theorem server_mutual_exclusion S tid th :
  reachable S → threads S !! tid = Some th →
  in_critical th = true ↔ mutex (shm S) = Some tid.
Proof. intros HS. apply si_critical, reachable_inv, HS. Qed.

(** C8: What a thread writes is never interleaved with the rest: in every state
    that the server reaches the text of the output file, buffered bytes included,
    is what the threads wrote in the order they wrote it, and for each thread it
    splits into a text before, everything that thread has received or formatted
    so far, and a text after.  Packets and timestamps are kept whole. *)
Theorem records_are_contiguous S tid :
  reachable S →
  contents (fp (shm S)) = concat (history S).*2 ∧
  ∃ before after, contents (fp (shm S)) =
    before ++ concat (own tid (history S)).*2 ++ after.
Proof.
  intros HS%reachable_inv. split; [apply HS|].
  destruct (si_own S HS tid) as (h1 & h2 & Hh). exists (concat h1.*2), (concat h2.*2).
  rewrite (si_file S HS). rewrite Hh at 1. by rewrite !fmap_snd_app.
Qed.

(** The owner of the mutex can wait for nothing but the network: in every
    reachable state the thread that holds the mutex is in [recv], or it has a step
    that succeeds. *)
Lemma owner_waits_only_in_recv S tid :
  reachable S → mutex (shm S) = Some tid →
  ∃ th, threads S !! tid = Some th ∧
    ((∃ t, th = Sock t ∧ s_pc t = SRecv) ∨
     ∃ ev th' sh', thread_step tid ev th (shm S) = Ok (Some (th', sh'))).
Proof.
  intros HS%reachable_inv Hm. destruct (si_owner S HS tid Hm) as [th Hth]. exists th.
  split; [done|]. pose proof (si_critical S HS tid th Hth) as [_ Hc]. specialize (Hc Hm).
  destruct th as [t|t]; simpl in *.
  - unfold thread_socket_receive. destruct (s_pc t) eqn:Hpc; try discriminate Hc;
      try (right; exists Tau; by eexists _, _); [left; eauto|right].
    unfold send_step. destruct (disk _ !! i); [exists SendOk|exists Tau]; by eexists _, _.
  - right. unfold timer_thread. destruct (t_pc t); try discriminate Hc; [|exists Tau; by eexists _, _].
    exists (Timestamp (replicate 128 0)). unfold strftime.
    rewrite bool_decide_eq_false_2 by (unfold BUFLEN; rewrite length_replicate; lia). simpl.
    rewrite load_bytes_ok by lia. simpl. by eexists _, _.
Qed.

(** C5: Served one after the other, packets and timestamps are a log: each thread runs
    alone from its start to its end, while the flag is not set, and every thread's run is
    as [job_ok] says.  A packet comes in chunks of at most 127 bytes, with a newline in the
    last chunk only and no NUL in the last chunk; the thread's stack frame goes on after
    [buf], and what [buf] held before has no newline.  A timestamp fits in [buf] and
    its frame goes on after it.  Then every thread ends, each packet is added to the file
    whole, and its sender gets the file up to and including it, timestamps included, less
    the bytes whose [send] fails. *)
Theorem server_session_refines_log js sh a :
  serves sh a → Forall job_ok js →
  ∃ sh', run_jobs js sh = Some sh' ∧ serves sh' (foldl (λ a j, a_job j a) a js).
Proof.
  intros Ha Hjs. revert sh a Ha. induction Hjs as [|j js Hj _ IH]; intros sh a Ha; simpl; [eauto|].
  destruct (run_job_refines j sh a Ha Hj) as (sh1 & -> & Ha1). simpl. by apply IH.
Qed.

(** C32: A peer that closes its connection before a newline stops the server: [recv]
    then returns 0, which is not tested, and after any number of them the thread
    is in [recv] again with the mutex held and nothing written, so that neither
    another connection nor the timer can take the mutex. *)
Theorem closed_peer_blocks_server tid t sh n :
  s_pc t = SRecv → EXIT_SIGNAL sh = false → mutex sh = Some tid → terminated (s_frame t) →
  ∃ t' sh', run_thread tid (mjoin (replicate n [RecvData []; Tau])) t sh = Ok (Some (t', sh')) ∧
    s_pc t' = SRecv ∧ s_frame t' = s_frame t ∧ mutex sh' = Some tid ∧
    contents (fp sh') = contents (fp sh) ∧
    (∀ tid' u, s_pc u = SLock → thread_socket_receive tid' Tau u sh' = Ok None) ∧
    (∀ tid' u, t_pc u = TLock → timer_thread tid' Tau u sh' = Ok None).
Proof.
  revert t sh. induction n as [|n IH]; intros t sh Hpc Hs Hm Ht.
  - exists t, sh. split_and!; try done; intros tid' u Hu;
      [unfold thread_socket_receive|unfold timer_thread]; by rewrite Hu, Hm.
  - change (mjoin (replicate (S n) [RecvData []; Tau])) with
      ([RecvData []; Tau] ++ mjoin (replicate n [RecvData []; Tau])).
    assert (chunk_ok []) as Hc by (unfold chunk_ok, BUFLEN; simpl; lia).
    rewrite (run_thread_app tid [RecvData []; Tau] _ t sh
      (mkST SRecv (s_data t) (s_frame t) (i32 (byte_written t + 0)))
      (set_fp (fwrite [] (fp sh)) sh)).
    2:{ cbn [run_thread]. rewrite step_recv, received_run by auto. change (overlay [] (s_frame t)) with (s_frame t).
        destruct Ht as [[_ Hn] H128]. rewrite (strchr_none _ _ _ NL_NUL Hn H128).
        unfold thread_socket_receive. simpl. by rewrite Hs. }
    destruct (IH (mkST SRecv (s_data t) (s_frame t) (i32 (byte_written t + 0)))
      (set_fp (fwrite [] (fp sh)) sh)) as (t' & sh' & Hr & H1 & H2 & H3 & H4 & H5 & H6);
      [done..|].
    exists t', sh'. split; [done|]. simpl in H4. rewrite contents_fwrite, app_nil_r in H4. by split_and!.
Qed.

(** C33: [buf[BUFLEN] = 0] is out of bounds in both kinds of thread: it is a fault
    when nothing follows the array, and otherwise it sets the byte that follows
    it and leaves the array as it was. *)
Theorem buf_terminator_out_of_bounds tid frame t u sh :
  s_pc t = SStart → t_pc u = TLock → mutex sh = None → s_frame t = frame → t_frame u = frame →
  (Z.of_nat (length frame) = BUFLEN →
     thread_socket_receive tid Tau t sh = Fault OutOfBounds ∧
     timer_thread tid Tau u sh = Fault OutOfBounds) ∧
  (BUFLEN < Z.of_nat (length frame) → ∃ t' u' sh',
     thread_socket_receive tid Tau t sh = Ok (Some (t', sh)) ∧
     timer_thread tid Tau u sh = Ok (Some (u', sh')) ∧
     s_frame t' = t_frame u' ∧
     take (Z.to_nat BUFLEN) (s_frame t') = take (Z.to_nat BUFLEN) frame ∧
     s_frame t' !! Z.to_nat BUFLEN = Some NUL ∧
     drop (S (Z.to_nat BUFLEN)) (s_frame t') = drop (S (Z.to_nat BUFLEN)) frame).
Proof.
  intros Ht Hu Hm Hf1 Hf2. unfold thread_socket_receive, timer_thread.
  rewrite Ht, Hu, Hm, Hf1, Hf2. unfold terminate_buf, BUFLEN. split; intros Hl.
  - by rewrite arr_set_out by lia.
  - rewrite arr_set_ok by lia. eexists _, _, _. do 3 (split; [done|]). cbn [s_frame].
    rewrite take_insert_ge, list_lookup_insert_eq, drop_insert_lt by lia. done.
Qed.

(** The end of a packet is searched in the whole stack frame up to a NUL, not in
    the bytes that [recv] returned: a chunk without a newline ends the packet when
    the stack holds one after it, and a newline that comes after a NUL of the chunk
    does not end it. *)
Lemma newline_search_ignores_length tid t sh c a b :
  s_pc t = SRecv → (Z.to_nat BUFLEN < length (s_frame t))%nat → NUL ∉ c → NL ∉ c →
  (chunk_ok c → overlay c (s_frame t) = c ++ a ++ NL :: b → NUL ∉ a →
     ∃ t' sh', thread_socket_receive tid (RecvData c) t sh = Ok (Some (t', sh')) ∧
       s_pc t' = SFopen ∧ fp sh' = mkFILE (contents (fp sh) ++ c) []) ∧
  (chunk_ok (c ++ NUL :: b) → NL ∈ b →
     ∃ t' sh', thread_socket_receive tid (RecvData (c ++ NUL :: b)) t sh = Ok (Some (t', sh')) ∧
       s_pc t' = SWhile ∧ contents (fp sh') = contents (fp sh) ++ c ++ NUL :: b).
Proof.
  intros Hpc Hl Hnul Hnl. split.
  - intros Hc Ho Ha. rewrite step_recv, received_run by done.
    destruct (strchr_found (c ++ a ++ [NL]) b NL) as [k Hk]; [set_solver|set_solver|].
    rewrite Ho. rewrite <-!app_assoc in Hk. simpl in Hk. rewrite Hk.
    eexists _, _. split; [done|]. split; [done|]. cbn. unfold fflush. f_equal.
    apply (contents_fwrite c (fp sh)).
  - intros Hc Hb. rewrite step_recv, received_run by done.
    rewrite (strchr_none _ NL (length c) NL_NUL).
    + eexists _, _. split; [done|]. split; [done|]. cbn. apply contents_fwrite.
    + unfold overlay. rewrite <-app_assoc, take_app_length. done.
    + unfold overlay. rewrite <-app_assoc, lookup_app_r, Nat.sub_diag by lia. done.
Qed.

(** The signal ends a connection thread at its next test of the flag: it sends what
    is in the file, without the bytes that are still in the buffer of the stream (no
    [fflush] comes before), closes its socket and releases the mutex. *)
Lemma signalled_thread_ends tid os t sh :
  s_pc t = SWhile → EXIT_SIGNAL sh = true →
  let fd := fd_accept (s_data t) in
  run_thread tid ([Tau; Tau] ++ send_events os 0 (length (disk (fp sh))) ++ [Tau; Tau; Tau; Tau]) t sh =
  Ok (Some (mkST SDone (mkTD true fd) (s_frame t) (byte_written t),
            mkSh (fp sh) None true (reply fd (delivered os 0 (disk (fp sh))) (net sh)) (fds sh ∖ {[fd]}))).
Proof.
  intros Hpc Hsig fd. rewrite (run_thread_app tid [Tau; Tau] _ t sh (set_pc (SSend 0) t) sh).
  2:{ cbn [run_thread]. unfold thread_socket_receive at 1. by rewrite Hpc, Hsig. }
  rewrite (run_thread_app _ _ _ _ _ _ _ (run_send tid os _ 0 (set_pc (SSend 0) t) sh eq_refl eq_refl)).
  rewrite drop_0, send_all_eq. rewrite (run_close tid (length (disk (fp sh)))) by done.
  unfold close_fd, set_mutex. simpl. by rewrite Hsig.
Qed.

(** A failed [recv] ends the thread: the mutex is released, the thread is
    marked as ended, nothing is written, and the socket stays open. *)
Lemma recv_error_leaves_socket_open tid t sh :
  s_pc t = SRecv → mutex sh = Some tid →
  ∃ t' sh', run_thread tid [RecvErr; Tau] t sh = Ok (Some (t', sh')) ∧
    s_pc t' = SDone ∧ thread_exit (s_data t') = true ∧ mutex sh' = None ∧
    fp sh' = fp sh ∧ net sh' = net sh ∧ fds sh' = fds sh.
Proof.
  intros Hpc Hm. cbn [run_thread]. unfold thread_socket_receive at 1. rewrite Hpc.
  eexists _, _. by split_and!.
Qed.

End Server.

(** ** Concrete executions *)

(** Runs the given thread steps. *)
Definition exec_thread (spill : list Z → nat) (S : sys) (te : Z * event) : option sys :=
  th ← threads S !! te.1;
  match thread_step spill te.1 te.2 th (shm S) with
  | Ok (Some (th', sh')) =>
    Some (mkSys (<[te.1:=th']> (threads S)) sh'
      (history S ++ match writes_of th te.2 with Some bs => [(te.1, bs)] | None => [] end))
  | _ => None
  end.

Fixpoint exec_threads (spill : list Z → nat) (S : sys) (l : list (Z * event)) : option sys :=
  match l with [] => Some S | te :: l' => S' ← exec_thread spill S te; exec_threads spill S' l' end.

Lemma exec_threads_reachable spill S l S' :
  reachable spill S → exec_threads spill S l = Some S' → reachable spill S'.
Proof.
  revert S. induction l as [|[tid ev] l IH]; intros S HS; simpl; [by intros [= <-]|].
  unfold exec_thread. simpl. destruct (threads S !! tid) as [th|] eqn:Hth; simpl; [|done].
  destruct (thread_step spill tid ev th (shm S)) as [[[th' sh']|]|] eqn:Hs; simpl; try done.
  apply IH. eapply rtc_r; [exact HS|]. by eapply step_thread.
Qed.

(** The stack of a thread that has held no newline, and one whose 4th byte is
    one. *)
Definition demo_frame : list Z := replicate 130 65.
Definition stale_frame : list Z := <[3%nat:=NL]> (replicate 130 65).

(** A connection and a timer thread; nothing is written before a flush. *)
Definition demo_spill : list Z → nat := λ _, O.
Definition demo_sys : sys :=
  mkSys (<[2:=Timer (mkTT TStart demo_frame)]>
          (<[1:=Sock (mkST SStart (mkTD false 5) demo_frame 0)]> ∅))
    (mkSh (mkFILE [] []) None false ∅ ({[5]} ∪ ∅)) [].

(** The connection has received two bytes while the timer waits for the mutex. *)
Definition demo_sys' : sys :=
  default demo_sys (exec_threads demo_spill demo_sys
    [(2, Tau); (1, Tau); (1, Tau); (1, Tau); (1, RecvData [66; 67])]).

Lemma demo_reachable : reachable demo_spill demo_sys'.
Proof.
  apply (exec_threads_reachable _ demo_sys [(2, Tau); (1, Tau); (1, Tau); (1, Tau); (1, RecvData [66; 67])]).
  - eapply rtc_l; [by apply (step_accept _ _ 1 5 demo_frame false)|].
    eapply rtc_l; [by apply (step_timer _ _ 2 demo_frame)|]. done.
  - vm_compute. reflexivity.
Qed.

Lemma demo_stack_ok : stack_ok demo_frame.
Proof.
  split; [vm_compute; lia|]. rewrite elem_of_take. intros (i & Hi & _).
  apply lookup_replicate in Hi as [Hi _]. discriminate Hi.
Qed.

Lemma demo_terminated : terminated (<[Z.to_nat BUFLEN:=NUL]> demo_frame).
Proof.
  destruct demo_stack_ok as [Hl Hn]. split; [split|].
  - by rewrite length_insert.
  - by rewrite take_insert_ge.
  - by apply list_lookup_insert_eq.
Qed.

Lemma server_mutual_exclusion_witness :
  ∃ th, threads demo_sys' !! 1 = Some th ∧ in_critical th = true ∧
        mutex (shm demo_sys') = Some 1.
Proof.
  destruct (threads demo_sys' !! 1) as [th|] eqn:Hth; [|by vm_compute in Hth].
  exists th. split; [reflexivity|].
  assert (mutex (shm demo_sys') = Some 1) as Hm by (vm_compute; reflexivity).
  split; [|exact Hm].
  apply (server_mutual_exclusion demo_spill demo_sys' 1 th demo_reachable Hth). exact Hm.
Defined.

Lemma records_are_contiguous_witness :
  contents (fp (shm demo_sys')) = [66; 67] ∧
  ∃ before after, contents (fp (shm demo_sys')) = before ++ [66; 67] ++ after.
Proof.
  destruct (records_are_contiguous demo_spill demo_sys' 1 demo_reachable) as [H1 H2].
  split; [rewrite H1; vm_compute; reflexivity|].
  destruct H2 as (a & b & H2). exists a, b. rewrite H2. vm_compute. reflexivity.
Defined.

(** Two clients with a timestamp between them; the first packet comes in two
    chunks, and the second client gets five bytes of its reply. *)
Definition demo_jobs : list job :=
  [JPacket 1 5 demo_frame [[66; 67]] [68; NL] (λ _, true); JStamp 2 demo_frame [84; NL];
   JPacket 3 6 demo_frame [] [69; NL] (λ i, Nat.ltb i 5)].

Lemma server_session_refines_log_witness :
  ∃ sh', run_jobs demo_spill demo_jobs (shm sys_init) = Some sh' ∧
    net sh' !! 5 = Some [66; 67; 68; NL] ∧
    net sh' !! 6 = Some [66; 67; 68; NL; 84].
Proof.
  destruct (server_session_refines_log demo_spill demo_jobs (shm sys_init) (mkAS [] ∅))
    as (sh' & Hr & Hsv).
  - split; reflexivity.
  - unfold demo_jobs, job_ok, chunk_ok, BUFLEN, NL, NUL.
    repeat (apply list.Forall_cons; split); [..|by apply list.Forall_nil].
    + split_and!; [apply demo_stack_ok| |simpl; lia|set_solver|set_solver].
      apply list.Forall_singleton. split; [simpl; lia|set_solver].
    + split; [apply demo_stack_ok|simpl; lia].
    + split_and!; [apply demo_stack_ok|by apply list.Forall_nil|simpl; lia|set_solver|set_solver].
  - exists sh'. split; [exact Hr|]. rewrite (sv_net _ _ Hsv). split; vm_compute; reflexivity.
Defined.

Lemma closed_peer_blocks_server_witness :
  ∃ t' sh', run_thread demo_spill 1 (mjoin (replicate 1000 [RecvData []; Tau]))
      (mkST SRecv (mkTD false 5) (<[Z.to_nat BUFLEN:=NUL]> demo_frame) 0)
      (mkSh (mkFILE [] []) (Some 1) false ∅ {[5]}) = Ok (Some (t', sh')) ∧ s_pc t' = SRecv.
Proof.
  destruct (closed_peer_blocks_server demo_spill 1
    (mkST SRecv (mkTD false 5) (<[Z.to_nat BUFLEN:=NUL]> demo_frame) 0)
    (mkSh (mkFILE [] []) (Some 1) false ∅ {[5]}) 1000) as (t' & sh' & H & Hpc & _).
  - reflexivity.
  - reflexivity.
  - reflexivity.
  - apply demo_terminated.
  - exists t', sh'. split; [exact H|exact Hpc].
Defined.

Lemma buf_terminator_out_of_bounds_witness :
  thread_socket_receive demo_spill 1 Tau (mkST SStart (mkTD false 5) (replicate 128 65) 0)
    (mkSh (mkFILE [] []) None false ∅ {[5]}) = Fault OutOfBounds.
Proof.
  apply (buf_terminator_out_of_bounds demo_spill 1 (replicate 128 65)
    (mkST SStart (mkTD false 5) (replicate 128 65) 0) (mkTT TLock (replicate 128 65))
    (mkSh (mkFILE [] []) None false ∅ {[5]})); reflexivity.
Defined.

