(* ===== verification/ServerMain.v ===== *)
(** * The main thread of the socket server

    Models [src/server/src/aesdsocket.c] ([main] and the signal handler), the
    thread list functions of [aesdsocket_thread.c] ([check_thread_exit] and
    [release_all_thread]) and [timespec_add] of [aesdsocket.h].  The list of
    threads is a queue of [TailQueue]; a node is freed from both maps.  A join
    waits, so its model gives the state after the wait: the thread has ended. *)
From Stdlib Require Import ZArith Lia.
From stdpp Require Import base tactics list gmap sets numbers.
From S2P Require Import Prelude Server QueueMemory TailQueue.

(** ** Time *)

Record timespec : Type := mkTime {
  tv_sec : Z;
  tv_nsec : Z
}.

Definition timespec_add (ts_1 ts_2 : timespec) : timespec :=
  let sec := i64 (tv_sec ts_1 + tv_sec ts_2) in
  let nsec := i64 (tv_nsec ts_1 + tv_nsec ts_2) in
  if 1000000000 <? nsec
  then mkTime (i64 (sec + 1)) (i64 (nsec - 1000000000))
  else mkTime sec nsec.

Definition nanoseconds (t : timespec) : Z := tv_sec t * 1000000000 + tv_nsec t.

(** What [timer_settime] accepts. *)
Definition valid_time (t : timespec) : Prop := 0 ≤ tv_nsec t < 1000000000.

(** ** Signals *)

Definition SIGINT : Z := 2.
Definition SIGTERM : Z := 15.
Definition EXIT_FAILURE : Z := 1.

(** The new value of [EXIT_SIGNAL], or the exit code of the process. *)
Definition sigint_handler (signo : Z) : bool + Z :=
  if (signo =? SIGINT) || (signo =? SIGTERM) then inl true else inr EXIT_FAILURE.

(** ** The list of threads *)

Record node : Type := mkNode {
  n_thread : Z;
  n_thread_exit : bool
}.

(** The state of the main thread: the queue, the contents of its nodes, the
    [thread_data] blocks, the threads that have ended and those that have been
    joined. *)
Record mainst : Type := mkMain {
  queues : qmem;
  nodes : gmap Z node;
  tdata : gmap Z thread_data;
  finished : gset Z;
  joined : gset Z
}.

Definition set_queues (q : qmem) (s : mainst) : mainst :=
  mkMain q (nodes s) (tdata s) (finished s) (joined s).
Definition set_nodes (n : gmap Z node) (s : mainst) : mainst :=
  mkMain (queues s) n (tdata s) (finished s) (joined s).

Definition q_lift {A} (f : st qmem A) : st mainst A :=
  λ s, match f (queues s) with Ok (a, q) => Ok (a, set_queues q s) | Fault e => Fault e end.

Definition node_at (p : Z) : st mainst node :=
  λ s, match lookup_at (nodes s) p with Ok n => Ok (n, s) | Fault e => Fault e end.

(** A thread may be joined once.  [joined] are the threads that have been, by the
    [pthread_t] of [pthread_create], which may give a joined one to a new thread. *)
Definition pthread_join (t : Z) : st mainst unit :=
  λ s, if decide (t ∈ joined s) then Fault BadJoin
       else Ok (tt, mkMain (queues s) (nodes s) (tdata s)
                      ({[t]} ∪ finished s) ({[t]} ∪ joined s)).

Definition new_thread (t : Z) : st mainst unit :=
  λ s, Ok (tt, mkMain (queues s) (nodes s) (tdata s) (finished s ∖ {[t]}) (joined s ∖ {[t]})).

Definition drop_node (p : Z) : st mainst unit :=
  λ s, Ok (tt, set_nodes (delete p (nodes s)) s).

(** [free] of a node. *)
Definition free_node (p : Z) : st mainst unit := q_lift (free_elem p) ;;; drop_node p.

Definition check_thread_exit_body (p_node : Z) : st mainst unit :=
  n ← node_at p_node;
  if n_thread_exit n then pthread_join (n_thread n) else mret tt.

(** The queue has at most as many elements as are allocated. *)
Definition check_thread_exit (head : Z) : st mainst bool :=
  λ s, TAILQ_FOREACH queues (size (elems (queues s))) head check_thread_exit_body s.

(** The body of the [while] loop after the read of the node. *)
Definition release_node (head p_node : Z) (nd : node) : st mainst unit :=
  pthread_join (n_thread nd) ;;;
  q_lift (TAILQ_REMOVE head p_node) ;;;
  free_node p_node.

(** The [while] loop, with [n] iterations at most; says whether it ended. *)
Fixpoint release_loop (n : nat) (head : Z) : st mainst bool :=
  e ← q_lift (TAILQ_EMPTY head);
  if (e : bool) then mret true
  else match n with
       | O => mret false
       | S n' =>
         p_node ← q_lift (TAILQ_FIRST head);
         nd ← node_at p_node;
         release_node head p_node nd ;;;
         release_loop n' head
       end.

Definition release_all_thread (head : Z) : st mainst bool :=
  λ s, release_loop (size (elems (queues s))) head s.

(** ** The accept loop *)

Definition RETCODE_SUCCESS : Z := 0.
Definition RETCODE_FAILURE : Z := 1.

(** What the outside answers in one iteration: the signal flag when the loop tests
    it, the result of [accept], the block of the first [malloc] and what its flag
    held, the result of [pthread_create] and the thread, and the block of the
    second [malloc]. *)
Record accept_event : Type := mkEvent {
  ev_exit : bool;
  ev_fd : Z;
  ev_data : Z;
  ev_flag : bool;
  ev_create : Z;
  ev_thread : Z;
  ev_node : Z
}.

(** A [malloc] of a node gives it links that hold anything. *)
Definition malloc_node (p : Z) : st mainst unit :=
  λ s, Ok (tt, if p =? NULL then s
               else set_queues (mkQ (heads (queues s))
                                  (<[p:=mkLinks 0 (NextOf 0)]> (elems (queues s)))) s).

(** [p_node->thread_exit = &p_thread_data->thread_exit] stores the address of the
    flag, the first member of the structure, in a [bool]. *)
Definition bool_of_pointer (p : Z) : bool := negb (p =? NULL).

Definition store_node (p : Z) (n : node) : st mainst unit :=
  λ s, if p =? NULL then Fault NullDeref
       else Ok (tt, set_nodes (<[p:=n]> (nodes s)) s).

Definition store_data (p : Z) (d : thread_data) : st mainst unit :=
  λ s, Ok (tt, mkMain (queues s) (nodes s) (<[p:=d]> (tdata s)) (finished s) (joined s)).

(** One iteration after the test of the flag, up to the insertion of the node;
    [ret] is the variable of [main].  The result is its new value with the code
    that [main] returns, if it does. *)
Definition start_connection (head ret : Z) (ev : accept_event) : st mainst (Z * option Z) :=
  if ret =? -1 then mret (ret, Some ret)
  else if ev_data ev =? NULL then mret (ret, Some RETCODE_FAILURE)
  else
    store_data (ev_data ev) (mkTD (ev_flag ev) (ev_fd ev)) ;;;
    let ret := ev_create ev in
    if negb (ret =? 0) then mret (ret, Some RETCODE_FAILURE)
    else
      new_thread (ev_thread ev) ;;;
      malloc_node (ev_node ev) ;;;
      store_node (ev_node ev) (mkNode (ev_thread ev) (bool_of_pointer (ev_data ev))) ;;;
      q_lift (TAILQ_INSERT_TAIL head (ev_node ev)) ;;;
      mret (ret, None).

Definition accept_iteration (head ret : Z) (ev : accept_event) : st mainst (Z * option Z) :=
  r ← start_connection head ret ev;
  match (r : Z * option Z).2 with
  | Some _ => mret r
  | None => check_thread_exit head ;;; mret r
  end.

(** The loop and what follows it.  [None]: the server still runs when the events
    end. *)
Fixpoint accept_loop (head ret : Z) (evs : list accept_event) : st mainst (option Z) :=
  match evs with
  | [] => mret None
  | ev :: evs' =>
    if ev_exit ev then release_all_thread head ;;; mret (Some RETCODE_SUCCESS)
    else r ← accept_iteration head ret ev;
         match (r : Z * option Z) with
         | (_, Some code) => mret (Some code)
         | (ret', None) => accept_loop head ret' evs'
         end
  end.

(** ** The start *)

(** What the outside answers during the start. *)
Record startup_env : Type := mkEnv {
  en_sigterm : bool;
  en_sigint : bool;
  en_options : list Z;
  en_fopen : bool;
  en_malloc : bool;
  en_getaddrinfo : Z;
  en_fork : Z;
  en_timer_create : bool;
  en_clock : option timespec;
  en_timer_settime : timespec → bool;
  en_socket : Z;
  en_setsockopt : bool;
  en_bind : Z;
  en_listen : Z
}.

(** The process ends with a code, or enters the accept loop with the socket, the
    value of [ret] and the time of the first timestamp. *)
Inductive startup_result : Type :=
| Stopped (code : Z)
| Listening (socket_fd ret : Z) (first : timespec).

(** The [getopt] loop: [None] for an unknown option. *)
Fixpoint get_options (cs : list Z) (enable_daemon : bool) : option bool :=
  match cs with
  | [] => Some enable_daemon
  | c :: cs' => if c =? 100 then get_options cs' true else None
  end.

(** From [timer_create] to [timer_settime]: the time of the first timestamp. *)
Definition start_timer (en : startup_env) : option timespec :=
  if en_timer_create en then
    start_time ← en_clock en;
    let it_value := timespec_add start_time (mkTime 10 0) in
    if en_timer_settime en it_value then Some it_value else None
  else None.

(** From [socket] to [listen]. *)
Definition start_socket (en : startup_env) (first : timespec) : startup_result :=
  if en_socket en =? -1 then Stopped (en_socket en)
  else if negb (en_setsockopt en) then Stopped 1
  else if en_bind en =? -1 then Stopped (en_bind en)
  else if en_listen en =? -1 then Stopped (en_listen en)
  else Listening (en_socket en) (en_listen en) first.

Definition main_start (en : startup_env) : res startup_result :=
  if negb (en_sigterm en) then Ok (Stopped EXIT_FAILURE)
  else if negb (en_sigint en) then Ok (Stopped EXIT_FAILURE)
  else match get_options (en_options en) false with
  | None => Ok (Stopped 1)
  | Some enable_daemon =>
    if negb (en_fopen en) then Ok (Stopped 1)
    else if negb (en_malloc en) then Fault NullDeref
    else if negb (en_getaddrinfo en =? 0) then Ok (Stopped (en_getaddrinfo en))
    else if enable_daemon && (en_fork en =? -1) then Ok (Stopped RETCODE_FAILURE)
    else if enable_daemon && negb (en_fork en =? 0) then Ok (Stopped RETCODE_SUCCESS)
    else match start_timer en with
         | None => Ok (Stopped RETCODE_FAILURE)
         | Some first => Ok (start_socket en first)
         end
  end.

(** The life of a server whose start succeeded: the list is initialised and the
    loop runs. *)
Definition main_run (head ret : Z) (evs : list accept_event) : st mainst (option Z) :=
  q_lift (TAILQ_INIT head) ;;; accept_loop head ret evs.

(** ** Lemmas *)

Lemma q_lift_ok {A} (f : st qmem A) s a q :
  f (queues s) = Ok (a, q) → q_lift f s = Ok (a, set_queues q s).
Proof. unfold q_lift. by intros ->. Qed.

Lemma set_queues_same s : set_queues (queues s) s = s.
Proof. by destruct s. Qed.

(** The nodes [l] of the list carry the threads [ts], and their flags are set. *)
Definition flagged (s : mainst) (l ts : list Z) : Prop :=
  Forall2 (λ p t, p ≠ NULL ∧ nodes s !! p = Some (mkNode t true)) l ts.

(** The state after the threads [ts] have been joined. *)
Definition after_join (ts : list Z) (s : mainst) : mainst :=
  mkMain (queues s) (nodes s) (tdata s) (list_to_set ts ∪ finished s) (list_to_set ts ∪ joined s).

Lemma node_at_ok s p n : p ≠ NULL → nodes s !! p = Some n → node_at p s = Ok (n, s).
Proof. intros Hp Hn. unfold node_at. by rewrite (lookup_at_ok _ _ n). Qed.

Lemma pthread_join_ok s t : t ∉ joined s → pthread_join t s = Ok (tt, after_join [t] s).
Proof.
  intros Ht. unfold pthread_join. rewrite decide_False by done. unfold after_join. simpl.
  by rewrite !(right_id_L ∅ _).
Qed.

Lemma check_body_ok s p t :
  p ≠ NULL → nodes s !! p = Some (mkNode t true) →
  check_thread_exit_body p s = pthread_join t s.
Proof. intros Hp Hn. unfold check_thread_exit_body. by qstep (node_at_ok s p _ Hp Hn). Qed.

Lemma after_join_app ts t s : after_join ts (after_join [t] s) = after_join (t :: ts) s.
Proof. unfold after_join. simpl. f_equal; set_solver. Qed.

(** The joins of [check_thread_exit]: all succeed when no thread is joined twice,
    and otherwise the second join of a thread is a fault. *)
Lemma run_check_ok s l ts :
  flagged s l ts → NoDup ts → (∀ t, t ∈ ts → t ∉ joined s) →
  run_bodies check_thread_exit_body l s = Ok (tt, after_join ts s).
Proof.
  revert s ts. induction l as [|p l IH]; intros s ts Hf Hnd Hj; inversion Hf as [|? t ? ts' [Hp Hn] Hf']; subst.
  - simpl. unfold after_join. simpl. rewrite !(left_id_L ∅ _). by destruct s.
  - apply list.NoDup_cons in Hnd as [Ht Hnd]. cbn [run_bodies].
    assert (check_thread_exit_body p s = Ok (tt, after_join [t] s)) as Hb.
    { rewrite (check_body_ok s p t) by done. apply pthread_join_ok, Hj. by left. }
    rewrite (st_bind_step _ _ _ _ _ Hb), (IH _ ts'); [by rewrite after_join_app| |done|].
    + exact Hf'.
    + intros t' Ht'. simpl. specialize (Hj t' (list_elem_of_further _ _ _ Ht')). set_solver.
Qed.

(** The threads can be joined one after the other. *)
Definition joinable (s : mainst) (ts : list Z) : bool :=
  bool_decide (NoDup ts ∧ Forall (λ t, t ∉ joined s) ts).

Lemma joinable_cons s t ts :
  joinable s (t :: ts) = bool_decide (t ∉ joined s) && joinable (after_join [t] s) ts.
Proof.
  unfold joinable. apply eq_true_iff_eq.
  rewrite andb_true_iff, !bool_decide_eq_true, list.NoDup_cons, list.Forall_cons.
  rewrite !list.Forall_forall. simpl. set_solver.
Qed.

Lemma joinable_true s ts :
  joinable s ts = true ↔ NoDup ts ∧ ∀ t, t ∈ ts → t ∉ joined s.
Proof. unfold joinable. by rewrite bool_decide_eq_true, list.Forall_forall. Qed.

Lemma run_check_twice s l ts :
  flagged s l ts → joinable s ts = false → run_bodies check_thread_exit_body l s = Fault BadJoin.
Proof.
  revert s ts. induction l as [|p l IH]; intros s ts Hf Hj;
    inversion Hf as [|? t ? ts' [Hp Hn] Hf']; subst; [done|]. cbn [run_bodies].
  rewrite joinable_cons in Hj. destruct (decide (t ∈ joined s)) as [Ht|Ht].
  - apply st_bind_fault. rewrite (check_body_ok s p t) by done. unfold pthread_join.
    by rewrite decide_True.
  - rewrite bool_decide_eq_true_2 in Hj by done.
    assert (check_thread_exit_body p s = Ok (tt, after_join [t] s)) as Hb.
    { rewrite (check_body_ok s p t) by done. by apply pthread_join_ok. }
    rewrite (st_bind_step _ _ _ _ _ Hb). by apply (IH _ ts').
Qed.

Lemma check_thread_exit_run s head l :
  queue (queues s) head l →
  check_thread_exit head s = (run_bodies check_thread_exit_body l ;;; mret true) s.
Proof.
  intros Hq. unfold check_thread_exit, TAILQ_FOREACH.
  rewrite (st_bind_step _ _ _ _ _ (q_read_ok _ _ s _ (TAILQ_FIRST_spec _ head l Hq))).
  apply foreach_loop_run.
  - intros x s1 s2. unfold check_thread_exit_body, node_at, mbind, st_bind.
    destruct (lookup_at (nodes s1) x) as [n|]; [|done].
    destruct (n_thread_exit n); [|by intros [= <-]]. unfold pthread_join.
    case_decide; [done|]. by intros [= <-].
  - apply Hq.
  - intros l1 x l2 ->. by apply (TAILQ_NEXT_spec _ head l1).
  - by eapply queue_size.
Qed.

(** An iteration whose calls succeed. *)
Record accepted (ret : Z) (ev : accept_event) : Prop := {
  ac_ret : ret ≠ -1;
  ac_data : ev_data ev ≠ NULL;
  ac_create : ev_create ev = 0;
  ac_node : ev_node ev ≠ NULL
}.

(** The state when the new node has been inserted. *)
Definition inserted (ev : accept_event) (q : qmem) (s : mainst) : mainst :=
  mkMain q (<[ev_node ev:=mkNode (ev_thread ev) true]> (nodes s))
    (<[ev_data ev:=mkTD (ev_flag ev) (ev_fd ev)]> (tdata s))
    (finished s ∖ {[ev_thread ev]}) (joined s ∖ {[ev_thread ev]}).

Lemma queue_malloc m h l p e :
  queue m h l → p ∉ l → queue (mkQ (heads m) (<[p:=e]> (elems m))) h l.
Proof. intros [H1 H2 H3 H4 H5] Hp. split; try done. simpl. by apply seg_insert_ne. Qed.

Lemma start_connection_run s head ret ev l :
  accepted ret ev → queue (queues s) head l → ev_node ev ∉ l →
  ∃ q, queue q head (l ++ [ev_node ev]) ∧
    start_connection head ret ev s = Ok (0, None, inserted ev q s).
Proof.
  intros [Hret Hd Hc Hn] Hq Hl. unfold start_connection.
  destruct (Z.eqb_spec ret (-1)); [done|]. destruct (Z.eqb_spec (ev_data ev) NULL); [done|].
  rewrite (st_bind_step (store_data (ev_data ev) (mkTD (ev_flag ev) (ev_fd ev))) _ s tt _ eq_refl).
  rewrite Hc. change (negb (0 =? 0)) with false. cbv iota.
  rewrite (st_bind_step (new_thread (ev_thread ev)) _ _ tt _ eq_refl). cbn [queues nodes tdata finished joined].
  set (s1 := mkMain _ _ _ _ _).
  assert (malloc_node (ev_node ev) s1 = Ok (tt, set_queues (mkQ (heads (queues s))
    (<[ev_node ev:=mkLinks 0 (NextOf 0)]> (elems (queues s)))) s1)) as Hm.
  { unfold malloc_node. by destruct (Z.eqb_spec (ev_node ev) NULL). }
  rewrite (st_bind_step _ _ _ _ _ Hm). set (s2 := set_queues _ s1).
  assert (store_node (ev_node ev) (mkNode (ev_thread ev) (bool_of_pointer (ev_data ev))) s2 =
    Ok (tt, set_nodes (<[ev_node ev:=mkNode (ev_thread ev) true]> (nodes s)) s2)) as Hs.
  { unfold store_node, bool_of_pointer. destruct (Z.eqb_spec (ev_node ev) NULL); [done|].
    by destruct (Z.eqb_spec (ev_data ev) NULL). }
  rewrite (st_bind_step _ _ _ _ _ Hs). set (s3 := set_nodes _ s2).
  destruct (TAILQ_INSERT_TAIL_spec (queues s3) head l (ev_node ev)) as (q & Hi & Hq' & _).
  { by apply queue_malloc. }
  { split; [done|]. simpl. rewrite lookup_insert_eq. by eexists. }
  { done. }
  rewrite (st_bind_step _ _ _ _ _ (q_lift_ok _ s3 _ _ Hi)). by exists q.
Qed.

Lemma accept_iteration_run s head ret ev l :
  accepted ret ev → queue (queues s) head l → ev_node ev ∉ l →
  ∃ q, queue q head (l ++ [ev_node ev]) ∧
    accept_iteration head ret ev s =
    (run_bodies check_thread_exit_body (l ++ [ev_node ev]) ;;; mret (0, None)) (inserted ev q s).
Proof.
  intros Ha Hq Hl. destruct (start_connection_run s head ret ev l Ha Hq Hl) as (q & Hq' & Hs).
  exists q. split; [done|]. unfold accept_iteration. rewrite (st_bind_step _ _ _ _ _ Hs). cbn [snd].
  unfold mbind, st_bind. rewrite (check_thread_exit_run (inserted ev q s) head _ Hq').
  unfold mbind, st_bind. by destruct (run_bodies _ _ _) as [[]|].
Qed.

Lemma flagged_ext s s' l ts :
  flagged s l ts → (∀ p, p ∈ l → nodes s' !! p = nodes s !! p) → flagged s' l ts.
Proof.
  intros Hf Hs. induction Hf as [|p t l ts [Hp Ht] _ IH]; constructor.
  - split; [done|]. rewrite Hs; [done|by left].
  - apply IH. intros p' Hp'. apply Hs. by right.
Qed.

Lemma flagged_inserted s ev q l ts :
  flagged s l ts → ev_node ev ≠ NULL → ev_node ev ∉ l →
  flagged (inserted ev q s) (l ++ [ev_node ev]) (ts ++ [ev_thread ev]).
Proof.
  intros Hf Hn Hl. apply Forall2_app.
  - eapply flagged_ext; [exact Hf|]. intros p Hp. apply lookup_insert_ne. by intros <-.
  - constructor; [|constructor]. split; [done|]. simpl. by rewrite lookup_insert_eq.
Qed.

(** The state when the node [p] of the thread [t] has been released. *)
Definition released (p t : Z) (q : qmem) (s : mainst) : mainst :=
  mkMain q (delete p (nodes s)) (tdata s) ({[t]} ∪ finished s) ({[t]} ∪ joined s).

Lemma release_node_run s head p l t :
  queue (queues s) head (p :: l) → nodes s !! p = Some (mkNode t true) → t ∉ joined s →
  ∃ q, queue q head l ∧ elems q !! p = None ∧
    release_node head p (mkNode t true) s = Ok (tt, released p t q s).
Proof.
  intros Hq Hn Ht.
  destruct (TAILQ_REMOVE_spec (queues s) head [] p l Hq) as (q1 & Hr & Hq1 & _).
  destruct (remove_free_spec (queues s) head [] p l Hq) as (q & Hrf & Hq' & Hfree).
  rewrite (st_bind_step _ _ _ _ _ Hr) in Hrf. exists q. split; [done|]. split; [done|].
  unfold release_node. qstep (pthread_join_ok s t Ht).
  rewrite (st_bind_step _ _ _ _ _ (q_lift_ok _ (after_join [t] s) _ _ Hr)).
  unfold free_node.
  rewrite (st_bind_step _ _ _ _ _ (q_lift_ok _ (set_queues q1 (after_join [t] s)) _ _ Hrf)).
  unfold drop_node, released, set_nodes, set_queues, after_join. simpl.
  by rewrite !(right_id_L ∅ _).
Qed.

Lemma release_step s head p l t n :
  queue (queues s) head (p :: l) → nodes s !! p = Some (mkNode t true) → t ∉ joined s →
  ∃ q, queue q head l ∧ elems q !! p = None ∧
    release_loop (S n) head s = release_loop n head (released p t q s).
Proof.
  intros Hq Hn Ht. pose proof (queue_cut _ _ [] _ _ Hq) as (_ & Hp & _).
  destruct (release_node_run s head p l t Hq Hn Ht) as (q & Hq' & Hfree & Hr).
  exists q. split; [done|]. split; [done|]. cbn [release_loop].
  rewrite (st_bind_step _ _ _ _ _ (q_lift_ok _ s _ _ (TAILQ_EMPTY_spec _ _ _ Hq))).
  rewrite bool_decide_eq_false_2 by done. rewrite set_queues_same.
  rewrite (st_bind_step _ _ _ _ _ (q_lift_ok _ s _ _ (TAILQ_FIRST_spec _ _ _ Hq))).
  rewrite set_queues_same. cbn [first_or].
  qstep (node_at_ok s p _ Hp Hn). by rewrite (st_bind_step _ _ _ _ _ Hr).
Qed.

Lemma release_empty s head n :
  queue (queues s) head [] → release_loop n head s = Ok (true, s).
Proof.
  intros Hq. assert (q_lift (TAILQ_EMPTY head) s = Ok (true, s)) as He.
  { rewrite (q_lift_ok _ s _ _ (TAILQ_EMPTY_spec _ _ _ Hq)). by rewrite set_queues_same. }
  destruct n; cbn [release_loop]; by rewrite (st_bind_step _ _ _ _ _ He).
Qed.

Lemma release_all n s head l ts :
  queue (queues s) head l → flagged s l ts → NoDup ts → (∀ t, t ∈ ts → t ∉ joined s) →
  (length l ≤ n)%nat →
  ∃ s', release_loop n head s = Ok (true, s') ∧ queue (queues s') head [] ∧
    finished s' = list_to_set ts ∪ finished s ∧ joined s' = list_to_set ts ∪ joined s ∧
    tdata s' = tdata s ∧
    (∀ p, p ∈ l → nodes s' !! p = None) ∧ (∀ p, p ∉ l → nodes s' !! p = nodes s !! p).
Proof.
  revert s l ts. induction n as [|n IH]; intros s l ts Hq Hf Hnd Hj Hn.
  - destruct l; [|simpl in Hn; lia]. inversion Hf; subst. exists s.
    rewrite release_empty by done. simpl. rewrite !(left_id_L ∅ _).
    split_and!; try done. by intros p ?%elem_of_nil.
  - destruct l as [|p l]; inversion Hf as [|? t ? ts' [Hp Hnode] Hf']; subst.
    + exists s. rewrite release_empty by done. simpl. rewrite !(left_id_L ∅ _).
      split_and!; try done. by intros p ?%elem_of_nil.
    + apply list.NoDup_cons in Hnd as [Ht Hnd].
      destruct (release_step s head p l t n Hq Hnode) as (q & Hq' & _ & ->).
      { apply Hj. by left. }
      pose proof (qu_nodup _ _ _ Hq) as [Hpl _]%list.NoDup_cons.
      destruct (IH (released p t q s) l ts') as (s' & Hr & Hqs & H1 & H2 & H3 & H4 & H5);
        [done| |done| |simpl in Hn; lia|].
      * apply (flagged_ext s); [exact Hf'|]. intros x Hx. apply lookup_delete_ne. by intros <-.
      * intros t' Ht'. simpl. specialize (Hj t' (list_elem_of_further _ _ _ Ht')). set_solver.
      * exists s'. split_and!; [done|done|rewrite H1; simpl; set_solver|rewrite H2; simpl; set_solver|done| |].
        -- intros p' [->|Hin]%elem_of_cons; [|by apply H4]. rewrite H5 by done. simpl. apply lookup_delete_eq.
        -- intros p' Hp'. apply not_elem_of_cons in Hp' as [Hne Hp']. rewrite H5 by done. simpl.
           by rewrite lookup_delete_ne.
Qed.

(** The first iteration joins the thread it has started. *)
Lemma accept_iteration_first s head ret ev :
  queue (queues s) head [] → accepted ret ev →
  ∃ q, accept_iteration head ret ev s =
      Ok (0, None, after_join [ev_thread ev] (inserted ev q s)) ∧
    queue q head [ev_node ev] ∧ flagged (inserted ev q s) [ev_node ev] [ev_thread ev].
Proof.
  intros Hq H1.
  destruct (accept_iteration_run s head ret ev [] H1 Hq) as (q & Hq1 & Hr); [set_solver|].
  assert (flagged (inserted ev q s) [ev_node ev] [ev_thread ev]) as Hf.
  { apply (flagged_inserted s ev q [] []); [constructor|apply H1|set_solver]. }
  exists q. split; [|done]. rewrite Hr. simpl.
  assert (∀ t, t ∈ [ev_thread ev] → t ∉ joined (inserted ev q s)) as Ht.
  { intros t ->%list_elem_of_singleton. simpl. set_solver. }
  by rewrite (st_bind_step _ _ _ _ _ (run_check_ok _ _ _ Hf (NoDup_singleton _) Ht)).
Qed.

(** Releasing a list in which a thread was joined before, or is listed twice. *)
Lemma release_twice n s head l ts :
  queue (queues s) head l → flagged s l ts → joinable s ts = false → (length l ≤ n)%nat →
  release_loop n head s = Fault BadJoin.
Proof.
  revert s l ts. induction n as [|n IH]; intros s l ts Hq Hf Hj Hn.
  { destruct l; [|simpl in Hn; lia]. by inversion Hf; subst. }
  destruct l as [|p l]; inversion Hf as [|? t ? ts' [Hp Hnode] Hf']; subst; [done|].
  rewrite joinable_cons in Hj. destruct (decide (t ∈ joined s)) as [Ht|Ht].
  - cbn [release_loop].
    rewrite (st_bind_step _ _ _ _ _ (q_lift_ok _ s _ _ (TAILQ_EMPTY_spec _ _ _ Hq))).
    rewrite bool_decide_eq_false_2 by done. rewrite set_queues_same.
    rewrite (st_bind_step _ _ _ _ _ (q_lift_ok _ s _ _ (TAILQ_FIRST_spec _ _ _ Hq))).
    rewrite set_queues_same. cbn [first_or]. qstep (node_at_ok s p _ Hp Hnode).
    apply st_bind_fault, st_bind_fault. unfold pthread_join. by rewrite decide_True.
  - rewrite bool_decide_eq_true_2 in Hj by done.
    destruct (release_step s head p l t n Hq Hnode Ht) as (q & Hq' & _ & ->).
    apply (IH _ l ts'); [done| | |simpl in Hn; lia].
    + apply (flagged_ext s); [exact Hf'|]. intros x Hx. apply lookup_delete_ne. intros <-.
      by pose proof (qu_nodup _ _ _ Hq) as [? _]%list.NoDup_cons.
    + revert Hj. unfold joinable. simpl. by rewrite (right_id_L ∅ _).
Qed.

Lemma release_all_twice s head l ts :
  queue (queues s) head l → flagged s l ts → joinable s ts = false →
  release_all_thread head s = Fault BadJoin.
Proof. intros Hq Hf Hj. apply (release_twice _ s head l ts); try done. by eapply queue_size. Qed.

(** The answers before the fork: [None] stops the start, else whether it is to fork. *)
Definition start_forks (en : startup_env) : option bool :=
  if en_sigterm en && en_sigint en && en_fopen en && en_malloc en && (en_getaddrinfo en =? 0)
  then get_options (en_options en) false else None.

(** Every call of the start succeeded, in the process that goes on. *)
Record start_succeeds (en : startup_env) (first : timespec) : Prop := {
  ok_sigterm : en_sigterm en = true;
  ok_sigint : en_sigint en = true;
  ok_options : ∃ daemon, get_options (en_options en) false = Some daemon ∧
    (daemon = true → en_fork en = 0);
  ok_fopen : en_fopen en = true;
  ok_malloc : en_malloc en = true;
  ok_getaddrinfo : en_getaddrinfo en = 0;
  ok_timer_create : en_timer_create en = true;
  ok_clock : ∃ now, en_clock en = Some now ∧ first = timespec_add now (mkTime 10 0);
  ok_timer_settime : en_timer_settime en first = true;
  ok_socket : en_socket en ≠ -1;
  ok_setsockopt : en_setsockopt en = true;
  ok_bind : en_bind en ≠ -1;
  ok_listen : en_listen en ≠ -1
}.

Lemma start_timer_Some en first :
  start_timer en = Some first ↔ en_timer_create en = true ∧
    (∃ now, en_clock en = Some now ∧ first = timespec_add now (mkTime 10 0)) ∧
    en_timer_settime en first = true.
Proof.
  unfold start_timer. destruct (en_timer_create en); [|by split; [|intros []]].
  destruct (en_clock en) as [now|]; simpl; [|split; [done|by intros (_ & (? & ? & _) & _)]].
  destruct (en_timer_settime en _) eqn:E; split; try done.
  - intros [= <-]. eauto.
  - by intros (_ & (? & [= <-] & ->) & _).
  - intros (_ & (? & [= <-] & ->) & ?). congruence.
Qed.

Lemma start_socket_listening en first r :
  start_socket en first = r →
  match r with
  | Listening sfd ret first' => first' = first ∧ sfd = en_socket en ∧ ret = en_listen en ∧
      en_socket en ≠ -1 ∧ en_setsockopt en = true ∧ en_bind en ≠ -1 ∧ en_listen en ≠ -1
  | Stopped code => code ≠ 0 ∧
      ¬ (en_socket en ≠ -1 ∧ en_setsockopt en = true ∧ en_bind en ≠ -1 ∧ en_listen en ≠ -1)
  end.
Proof.
  unfold start_socket. intros <-. destruct (Z.eqb_spec (en_socket en) (-1)); [split; [lia|naive_solver]|].
  destruct (en_setsockopt en); simpl; [|split; [lia|naive_solver]].
  destruct (Z.eqb_spec (en_bind en) (-1)); [split; [lia|naive_solver]|].
  destruct (Z.eqb_spec (en_listen en) (-1)); [split; [lia|naive_solver]|done].
Qed.

(** What a start that reached the accept loop has been answered. *)
Lemma main_start_listening en sfd ret first :
  main_start en = Ok (Listening sfd ret first) ↔
  start_succeeds en first ∧ sfd = en_socket en ∧ ret = en_listen en.
Proof.
  split.
  - unfold main_start. destruct (en_sigterm en) eqn:?; [|done]. destruct (en_sigint en) eqn:?; [|done].
    destruct (get_options _ _) as [d|] eqn:Hd; [|done].
    destruct (en_fopen en) eqn:?; [|done]. destruct (en_malloc en) eqn:?; [|done]. simpl.
    destruct (Z.eqb_spec (en_getaddrinfo en) 0); [|done]. simpl.
    destruct (d && (en_fork en =? -1)); [done|].
    destruct (d && negb (en_fork en =? 0)) eqn:Hfork; [done|].
    destruct (start_timer en) as [first'|] eqn:Ht; [|done]. intros [= Hs].
    apply start_socket_listening in Hs as (-> & -> & -> & ? & ? & ? & ?).
    apply start_timer_Some in Ht as (? & ? & ?). split; [|done]. split; try done.
    exists d. split; [done|]. intros ->. simpl in Hfork. by destruct (Z.eqb_spec (en_fork en) 0).
  - intros ([H1 H2 (d & Hd & Hf) H4 H5 H6 H7 H8 H9 H10 H11 H12 H13] & -> & ->).
    unfold main_start. rewrite H1, H2, Hd, H4, H5, H6. simpl.
    rewrite (proj2 (start_timer_Some en first)) by done.
    assert ((d && (en_fork en =? -1)) = false ∧ (d && negb (en_fork en =? 0)) = false) as [-> ->].
    { destruct d; [|done]. by rewrite Hf by done. }
    unfold start_socket. rewrite H11.
    by rewrite !(proj2 (Z.eqb_neq _ _)) by done.
Qed.

(** The start ends with code 0 in the parent of the daemon only, and with a fault where
    the block for the timer's thread is not there. *)
Lemma main_start_parent en :
  main_start en = Ok (Stopped RETCODE_SUCCESS) ↔
  start_forks en = Some true ∧ en_fork en ≠ -1 ∧ en_fork en ≠ 0.
Proof.
  unfold main_start, start_forks.
  destruct (en_sigterm en); [|naive_solver]. destruct (en_sigint en); [|naive_solver]. simpl.
  destruct (get_options _ _) as [d|]; [|destruct (_ && _); naive_solver].
  destruct (en_fopen en); simpl; [|naive_solver]. destruct (en_malloc en); simpl; [|naive_solver].
  destruct (Z.eqb_spec (en_getaddrinfo en) 0); simpl.
  2:{ split; [intros [= E]; unfold RETCODE_SUCCESS in E; lia|naive_solver]. }
  destruct d; simpl.
  - destruct (Z.eqb_spec (en_fork en) (-1)); simpl; [naive_solver|].
    destruct (Z.eqb_spec (en_fork en) 0); simpl; [|naive_solver]. split; [|naive_solver].
    destruct (start_timer en) as [first|]; [|done].
    intros [= [Hs _]%start_socket_listening]. done.
  - split; [|naive_solver]. destruct (start_timer en) as [first|]; [|done].
    intros [= [Hs _]%start_socket_listening]. done.
Qed.

Lemma main_start_fault en f :
  main_start en = Fault f ↔
  f = NullDeref ∧ en_sigterm en = true ∧ en_sigint en = true ∧
  is_Some (get_options (en_options en) false) ∧ en_fopen en = true ∧ en_malloc en = false.
Proof.
  unfold main_start. destruct (en_sigterm en); [|naive_solver]. destruct (en_sigint en); [|naive_solver].
  simpl. destruct (get_options _ _) as [d|]; [|by split; [|intros (_ & _ & _ & [? ?] & _)]].
  destruct (en_fopen en); simpl; [|naive_solver]. destruct (en_malloc en); simpl.
  - split; [|naive_solver]. repeat case_match; done.
  - split; [intros [= <-]; by split_and!|naive_solver].
Qed.

(** ** Properties *)

(** C35: [timespec_add] adds times exactly: on two valid times whose seconds do not
    overflow the result is the sum in nanoseconds, and it is a valid time except
    when the nanoseconds add up to one second exactly, which the code does not
    carry. *)
Theorem timespec_add_exact ts_1 ts_2 :
  valid_time ts_1 → valid_time ts_2 →
  0 ≤ tv_sec ts_1 < 2 ^ 62 → 0 ≤ tv_sec ts_2 < 2 ^ 62 - 1 →
  nanoseconds (timespec_add ts_1 ts_2) = nanoseconds ts_1 + nanoseconds ts_2 ∧
  (valid_time (timespec_add ts_1 ts_2) ↔ tv_nsec ts_1 + tv_nsec ts_2 ≠ 1000000000).
Proof.
  unfold valid_time, nanoseconds, timespec_add. intros H1 H2 H3 H4.
  rewrite (i64_small (tv_sec ts_1 + tv_sec ts_2)) by lia.
  rewrite (i64_small (tv_nsec ts_1 + tv_nsec ts_2)) by lia.
  destruct (Z.ltb_spec 1000000000 (tv_nsec ts_1 + tv_nsec ts_2)); simpl; [|lia].
  rewrite !i64_small by lia. lia.
Qed.

(** C20: [release_all_thread] frees a list of threads that can be joined one after the
    other: it ends, joins each once, removes and frees every node and nothing else.
    If a thread of the list was joined before, or is listed twice, it ends in a second
    join of that thread.  The lists of the program are of the second kind:
    [check_thread_exit] has joined all their threads, and releasing the list then faults
    unless it is empty. *)
Theorem release_all_thread_outcomes s head l ts :
  queue (queues s) head l → flagged s l ts →
  (if joinable s ts then
     ∃ s', release_all_thread head s = Ok (true, s') ∧ queue (queues s') head [] ∧
       finished s' = list_to_set ts ∪ finished s ∧ joined s' = list_to_set ts ∪ joined s ∧
       tdata s' = tdata s ∧
       (∀ p, p ∈ l → nodes s' !! p = None) ∧ (∀ p, p ∉ l → nodes s' !! p = nodes s !! p)
   else release_all_thread head s = Fault BadJoin) ∧
  match check_thread_exit head s with
  | Ok (_, s1) => release_all_thread head s1 = if bool_decide (l = []) then Ok (true, s1) else Fault BadJoin
  | Fault f => f = BadJoin ∧ joinable s ts = false
  end.
Proof.
  intros Hq Hf. split.
  - destruct (joinable s ts) eqn:Hj; [|by eapply release_all_twice].
    apply joinable_true in Hj as [Hnd Hj]. apply (release_all _ s head l ts); try done.
    by eapply queue_size.
  - rewrite (check_thread_exit_run s head l Hq). destruct (joinable s ts) eqn:Hj.
    + apply joinable_true in Hj as [Hnd Hj].
      rewrite (st_bind_step _ _ _ _ _ (run_check_ok s l ts Hf Hnd Hj)). cbn [mret st_ret].
      case_bool_decide as Hl.
      * subst l. by apply release_empty.
      * apply (release_all_twice _ head l ts); [done|by apply (flagged_ext s)|].
        destruct Hf as [|p t l ts _ _]; [done|]. apply not_true_iff_false.
        intros [_ H]%joinable_true. apply (H t); [by left|]. simpl. set_solver.
    + by rewrite (st_bind_fault _ _ _ _ (run_check_twice s l ts Hf Hj)).
Qed.

(** The flag of a node is the address of the thread's flag and not its value, so
    it is true from the start: the loop waits for the first connection to end
    before it accepts another, and with the second one it joins the first thread
    again, which is a fault. *)
Lemma second_connection_joins_twice s head ret ev1 ev2 evs :
  queue (queues s) head [] → accepted ret ev1 → accepted 0 ev2 →
  ev_exit ev1 = false → ev_exit ev2 = false → ev_node ev1 ≠ ev_node ev2 →
  (∃ s1, accept_iteration head ret ev1 s = Ok ((0, None), s1) ∧ ev_thread ev1 ∈ finished s1) ∧
  accept_loop head ret (ev1 :: ev2 :: evs) s = Fault BadJoin.
Proof.
  intros Hq H1 H2 He1 He2 Hn.
  destruct (accept_iteration_first s head ret ev1 Hq H1) as (q1 & Hi1 & Hq1 & Hf1).
  set (s1 := inserted ev1 q1 s) in *.
  split; [eexists; split; [exact Hi1|simpl; set_solver]|].
  cbn [accept_loop]. rewrite He1. rewrite (st_bind_step _ _ _ _ _ Hi1). cbv beta iota.
  cbn [accept_loop]. rewrite He2.
  destruct (accept_iteration_run (after_join [ev_thread ev1] s1) head 0 ev2 [ev_node ev1] H2 Hq1)
    as (q2 & Hq2 & Hr2); [set_solver|].
  apply st_bind_fault. rewrite Hr2. apply st_bind_fault.
  eapply (run_check_twice _ _ ([ev_thread ev1] ++ [ev_thread ev2])).
  - apply flagged_inserted; [|apply H2|set_solver]. by apply (flagged_ext s1).
  - apply not_true_iff_false. intros [Hnd Hj]%joinable_true.
    apply list.NoDup_cons in Hnd as [Hne _]. apply (Hj (ev_thread ev1)); [by left|].
    simpl. set_solver.
Qed.

(** A server that is stopped before any connection releases its empty list and
    returns success; stopped after a first connection, it joins the thread of that
    connection, which the loop has joined, once more. *)
Lemma shutdown_joins_again s head ret ev1 evx :
  head ≠ NULL → is_Some (heads (queues s) !! head) → ev_exit evx = true →
  ev_exit ev1 = false → accepted ret ev1 →
  (∃ s', main_run head ret [evx] s = Ok (Some RETCODE_SUCCESS, s') ∧ joined s' = joined s) ∧
  main_run head ret [ev1; evx] s = Fault BadJoin.
Proof.
  intros Hh Ha Hx He1 H1. destruct (TAILQ_INIT_spec (queues s) head Hh Ha) as (q & Hi & Hq & _).
  unfold main_run. rewrite !(st_bind_step _ _ _ _ _ (q_lift_ok _ s _ _ Hi)).
  set (s0 := set_queues q s). cbn [accept_loop]. rewrite Hx, He1. split.
  - assert (release_all_thread head s0 = Ok (true, s0)) as Hr by by apply release_empty.
    rewrite (st_bind_step _ _ _ _ _ Hr). eexists. split; [reflexivity|done].
  - destruct (accept_iteration_first s0 head ret ev1 Hq H1) as (q1 & Hi1 & Hq1 & Hf1).
    rewrite (st_bind_step _ _ _ _ _ Hi1). cbv beta iota. apply st_bind_fault.
    apply (release_all_twice _ _ [ev_node ev1] [ev_thread ev1]);
      [done|by apply (flagged_ext (inserted ev1 q1 s0))|].
    apply not_true_iff_false. intros [_ Hj]%joinable_true. apply (Hj (ev_thread ev1)); [by left|].
    simpl. set_solver.
Qed.

(** The result of [accept] is never tested: the loop tests [ret], which is not
    -1 after a start that succeeded and is 0 afterwards, and an [accept] that
    failed starts a thread on the descriptor -1 as a successful one does. *)
Lemma accept_failure_starts_thread en sfd ret first s head l ts ev :
  main_start en = Ok (Listening sfd ret first) →
  queue (queues s) head l → flagged s l ts → NoDup (ts ++ [ev_thread ev]) →
  (∀ t, t ∈ ts ++ [ev_thread ev] → t ∉ joined s) → ev_node ev ∉ l →
  ev_data ev ≠ NULL → ev_create ev = 0 → ev_node ev ≠ NULL →
  ev_fd ev = -1 →
  ∃ s1, accept_iteration head ret ev s = Ok ((0, None), s1) ∧
    tdata s1 !! ev_data ev = Some (mkTD (ev_flag ev) (-1)) ∧
    queue (queues s1) head (l ++ [ev_node ev]).
Proof.
  intros (Hen & _ & ->)%main_start_listening Hq Hf Hnd Hj Hl Hd Hc Hn Hfd.
  destruct (accept_iteration_run s head (en_listen en) ev l) as (q & Hq' & ->);
    [split; [apply Hen|done..]|done..|].
  assert (∀ t, t ∈ ts ++ [ev_thread ev] → t ∉ joined (inserted ev q s)) as Hj'.
  { intros t Ht. specialize (Hj t Ht). simpl. set_solver. }
  rewrite (st_bind_step _ _ _ _ _ (run_check_ok (inserted ev q s) _ _
    (flagged_inserted s ev q l ts Hf Hn Hl) Hnd Hj')).
  eexists. split; [reflexivity|]. split; [|done]. simpl. by rewrite lookup_insert_eq, Hfd.
Qed.

(** C34: What the start reports.  The accept loop is entered exactly when every call of
    the start succeeded, the two [signal], [fopen], [malloc], [getaddrinfo], the fork of
    a daemon in its child, the three calls for the timer, [socket], [setsockopt], [bind]
    and [listen], with the first timestamp ten seconds from now.  The start returns
    success exactly in the parent of a daemon, as soon as it has forked, whatever the
    child then meets (a port in use included).  It faults exactly when the one [malloc]
    fails. *)
Theorem start_outcomes en :
  (∀ sfd ret first, main_start en = Ok (Listening sfd ret first) ↔
     start_succeeds en first ∧ sfd = en_socket en ∧ ret = en_listen en) ∧
  (main_start en = Ok (Stopped RETCODE_SUCCESS) ↔
     start_forks en = Some true ∧ en_fork en ≠ -1 ∧ en_fork en ≠ 0) ∧
  (∀ f, main_start en = Fault f ↔
     f = NullDeref ∧ en_sigterm en = true ∧ en_sigint en = true ∧
     is_Some (get_options (en_options en) false) ∧ en_fopen en = true ∧ en_malloc en = false).
Proof.
  split_and!; [intros sfd ret first|..|intros f].
  - apply main_start_listening.
  - apply main_start_parent.
  - apply main_start_fault.
Qed.

(** ** Concrete executions *)

(** A start in which everything succeeds, and a list whose head is at 1. *)
Definition demo_env : startup_env :=
  mkEnv true true [] true true 0 0 true (Some (mkTime 5 7)) (λ _, true) 3 true 0 0.

Definition demo_daemon : startup_env :=
  mkEnv true true [100] true true 0 4711 true (Some (mkTime 5 7)) (λ _, true) 3 true (-1) 0.

Definition demo_main : mainst :=
  mkMain (mkQ (<[1:=mkHead 0 (FirstOf 1)]> ∅) ∅) ∅ ∅ ∅ ∅.

Definition demo_event (fd data thread node : Z) : accept_event :=
  mkEvent false fd data false 0 thread node.

Lemma demo_main_queue : queue (queues demo_main) 1 [].
Proof. split; [done|reflexivity|set_solver|apply list.NoDup_nil; done|done]. Qed.

Lemma timespec_add_exact_witness :
  timespec_add (mkTime 1 600000000) (mkTime 2 400000000) = mkTime 3 1000000000 ∧
  ¬ valid_time (timespec_add (mkTime 1 600000000) (mkTime 2 400000000)).
Proof.
  destruct (timespec_add_exact (mkTime 1 600000000) (mkTime 2 400000000)) as [_ H];
    [unfold valid_time; simpl; lia|unfold valid_time; simpl; lia|simpl; lia|simpl; lia|].
  split; [reflexivity|]. intros Hv. apply H in Hv. by apply Hv.
Defined.

(** The list 10, 20 of the threads 7, 8. *)
Definition demo_two : mainst :=
  mkMain (mkQ (<[1:=mkHead 10 (NextOf 20)]> ∅)
    (<[10:=mkLinks 20 (FirstOf 1)]> (<[20:=mkLinks 0 (NextOf 10)]> ∅)))
    (<[10:=mkNode 7 true]> (<[20:=mkNode 8 true]> ∅)) ∅ ∅ ∅.

Lemma release_all_thread_outcomes_witness :
  (∃ s', release_all_thread 1 demo_two = Ok (true, s') ∧ queue (queues s') 1 [] ∧
         nodes s' !! 10 = None ∧ joined s' = {[7; 8]} ∪ ∅) ∧
  ∃ s1, check_thread_exit 1 demo_two = Ok (true, s1) ∧ release_all_thread 1 s1 = Fault BadJoin.
Proof.
  destruct (release_all_thread_outcomes demo_two 1 [10; 20] [7; 8]) as [H1 H2].
  - split; [done|reflexivity|unfold NULL; set_solver| |by vm_compute].
    repeat (apply list.NoDup_cons; split; [set_solver|]). by apply list.NoDup_nil.
  - repeat (apply list.Forall2_cons; split; [by split|]). by apply list.Forall2_nil.
  - split.
    + destruct H1 as (s' & H & Hq & _ & Hj & _ & Hn & _). exists s'. split; [exact H|].
      split; [exact Hq|]. split; [apply Hn; set_solver|]. rewrite Hj. simpl. set_solver.
    + destruct (check_thread_exit 1 demo_two) as [[b s1]|f] eqn:E; [|by vm_compute in E].
      exists s1. split; [|exact H2]. assert (b = true) as -> by (vm_compute in E; by injection E).
      reflexivity.
Defined.

Lemma start_outcomes_witness : main_start demo_daemon = Ok (Stopped RETCODE_SUCCESS).
Proof. apply (start_outcomes demo_daemon). by split_and!. Defined.
