(* ===== verification/ServerSystem.v ===== *)
(** * The whole socket server

    Puts the main thread of [src/server/src/aesdsocket.c] beside the threads it
    starts.  The main thread has a program counter over the accept loop, the walk of
    [check_thread_exit], the loop of [release_all_thread] and the closing calls; an
    [action] is a step of one thread, a signal, a timer notification or a connection,
    and [exec] performs it.  [pthread_join] blocks the main thread until the thread
    has ended; the [pthread_t] of a thread that has been joined may be that of a later
    thread.  A signal calls its handler the first time and ends the process the second.
    After [fclose] the stream may not be written, and after
    [pthread_mutex_destroy] the mutex may not be used.  The actions may come in any
    order; [server_reachable] is every state they lead to from a start that succeeded. *)
From Stdlib Require Import ZArith Lia.
From stdpp Require Import base tactics list gmap sets numbers.
From S2P Require Import Prelude CMemory Server QueueMemory TailQueue ServerMain.

(** ** The state *)

(** Where the main thread is: at the test of the flag, in [accept], in the walk of
    [check_thread_exit] with its variable, at the test of [release_all_thread], or
    at one of the calls that follow. *)
Inductive mpc : Type :=
| MTest
| MAccept
| MWalk (p_node : Z)
| MRelease
| MFclose
| MShutdown
| MDestroy
| MRemove
| MDone (code : Z).

#[export] Instance mpc_eq_dec : EqDecision mpc.
Proof. solve_decision. Defined.

(** The threads and what they share, the main thread with its variable [ret], the
    connection thread that each [pthread_t] stands for, whether the stream is open, the
    socket listens, the mutex exists and the output file exists, and the signals that
    still have a handler.  [threads] and [m_ids] have different keys: a [pthread_t] may
    come again once its thread has been joined. *)
Record server : Type := mkServer {
  m_sys : sys;
  m_main : mainst;
  m_ids : gmap Z Z;
  m_pc : mpc;
  m_ret : Z;
  m_stream : bool;
  m_socket : bool;
  m_mutex : bool;
  m_file : bool;
  m_handled : gset Z
}.

Definition set_mpc (pc : mpc) (M : server) : server :=
  mkServer (m_sys M) (m_main M) (m_ids M) pc (m_ret M) (m_stream M) (m_socket M) (m_mutex M)
    (m_file M) (m_handled M).
Definition set_sys (S : sys) (M : server) : server :=
  mkServer S (m_main M) (m_ids M) (m_pc M) (m_ret M) (m_stream M) (m_socket M) (m_mutex M)
    (m_file M) (m_handled M).
Definition set_main (s : mainst) (M : server) : server :=
  mkServer (m_sys M) s (m_ids M) (m_pc M) (m_ret M) (m_stream M) (m_socket M) (m_mutex M)
    (m_file M) (m_handled M).
Definition set_ids (ids : gmap Z Z) (M : server) : server :=
  mkServer (m_sys M) (m_main M) ids (m_pc M) (m_ret M) (m_stream M) (m_socket M) (m_mutex M)
    (m_file M) (m_handled M).
Definition set_ret (ret : Z) (M : server) : server :=
  mkServer (m_sys M) (m_main M) (m_ids M) (m_pc M) ret (m_stream M) (m_socket M) (m_mutex M)
    (m_file M) (m_handled M).
Definition set_closed (stream socket mutex file : bool) (M : server) : server :=
  mkServer (m_sys M) (m_main M) (m_ids M) (m_pc M) (m_ret M) stream socket mutex file (m_handled M).
Definition set_handled (X : gset Z) (M : server) : server :=
  mkServer (m_sys M) (m_main M) (m_ids M) (m_pc M) (m_ret M) (m_stream M) (m_socket M) (m_mutex M)
    (m_file M) X.
Definition set_shared (f : shared → shared) (M : server) : server :=
  set_sys (mkSys (threads (m_sys M)) (f (shm (m_sys M))) (history (m_sys M))) M.

Inductive action : Type :=
| AThread (tid : Z) (ev : event)
| ATick (tid : Z) (frame : list Z)
| ASignal (signo : Z)
| ABroken (tid : Z)
| AMain
| AAccepted (ev : accept_event) (tid : Z) (frame : list Z).

(** The signal of a broken connection. *)
Definition SIGPIPE : Z := 13.

(** ** The main thread *)

Section System.
Context (spill : list Z → nat) (head : Z).

(** [fflush] of the stream, as [fclose] and the exit of the process do. *)
Definition flush_stream (sh : shared) : shared := set_fp (fflush (fp sh)) sh.

(** The process ends: the C library flushes the streams that are open. *)
Definition exit_process (code : Z) (M : server) : server :=
  set_mpc (MDone code) (if m_stream M then set_shared flush_stream M else M).

Definition thread_ended (S : sys) (tid : Z) : bool :=
  match threads S !! tid with
  | Some (Sock u) => bool_decide (s_pc u = SDone)
  | Some (Timer u) => bool_decide (t_pc u = TDone)
  | None => true
  end.

(** The thread that the [pthread_t] stands for has ended. *)
Definition ended (M : server) (t : Z) : bool :=
  match m_ids M !! t with Some tid => thread_ended (m_sys M) tid | None => true end.

(** [pthread_join] blocks for as long as the thread runs; [ended] says which have ended. *)
Definition join_waits (ended : Z → bool) (t : Z) (s : mainst) : bool :=
  bool_decide (t ∉ joined s) && negb (ended t).

(** One iteration of the loop of [check_thread_exit]; [None] when the main thread is
    blocked. *)
Definition walk_step (ended : Z → bool) (p_node : Z) : st mainst (option mpc) :=
  if p_node =? NULL then mret (Some MTest)
  else
    n ← node_at p_node;
    s ← st_get;
    if n_thread_exit n && join_waits ended (n_thread n) s then mret None
    else check_thread_exit_body p_node ;;;
         p ← q_read queues (TAILQ_NEXT p_node);
         mret (Some (MWalk p)).

(** One iteration of the loop of [release_all_thread]. *)
Definition release_iteration (ended : Z → bool) : st mainst (option mpc) :=
  e ← q_lift (TAILQ_EMPTY head);
  if (e : bool) then mret (Some MFclose)
  else
    p_node ← q_lift (TAILQ_FIRST head);
    nd ← node_at p_node;
    s ← st_get;
    if join_waits ended (n_thread nd) s then mret None
    else release_node head p_node nd ;;; mret (Some MRelease).

Definition from_main (f : st mainst (option mpc)) (M : server) : res (option server) :=
  match f (m_main M) with
  | Ok (Some pc, s) => Ok (Some (set_mpc pc (set_main s M)))
  | Ok (None, _) => Ok None
  | Fault e => Fault e
  end.

(** [pthread_mutex_destroy] of a mutex that is held is undefined. *)
Definition main_step (M : server) : res (option server) :=
  let next pc := set_mpc pc M in
  match m_pc M with
  | MTest => Ok (Some (next (if EXIT_SIGNAL (shm (m_sys M)) then MRelease else MAccept)))
  | MWalk p_node => from_main (walk_step (ended M) p_node) M
  | MRelease => from_main (release_iteration (ended M)) M
  | MFclose =>
    Ok (Some (set_closed false (m_socket M) (m_mutex M) (m_file M)
                (set_shared flush_stream (next MShutdown))))
  | MShutdown => Ok (Some (set_closed (m_stream M) false (m_mutex M) (m_file M) (next MDestroy)))
  | MDestroy =>
    match mutex (shm (m_sys M)) with
    | Some _ => Fault BadMutex
    | None => Ok (Some (set_closed (m_stream M) (m_socket M) false (m_file M) (next MRemove)))
    end
  | MRemove =>
    Ok (Some (set_closed (m_stream M) (m_socket M) (m_mutex M) false (next (MDone RETCODE_SUCCESS))))
  | MAccept | MDone _ => Ok None
  end.

(** [pthread_create] may give a [pthread_t] that no thread has, or one whose thread has
    been joined. *)
Definition id_free (t : Z) (M : server) : bool :=
  bool_decide (m_ids M !! t = None) || bool_decide (t ∈ joined (m_main M)).

(** The return of [accept] and the iteration up to the walk: the new thread, and
    the variable of the walk at the first node.  [pthread_create] starts the thread
    [tid], and [malloc] gives a block that is not in use.  An [accept] that failed, or
    that a signal interrupted, has the descriptor -1, which is not tested. *)
Definition accepted_action (ev : accept_event) (tid : Z) (frame : list Z) (M : server)
    : res (option server) :=
  let S := m_sys M in
  if bool_decide (m_pc M = MAccept) && bool_decide (threads S !! tid = None) &&
     id_free (ev_thread ev) M && bool_decide (elems (queues (m_main M)) !! ev_node ev = None)
  then
    match start_connection head (m_ret M) ev (m_main M) with
    | Fault e => Fault e
    | Ok ((ret, Some code), s) =>
      Ok (Some (exit_process code (set_shared (open_fd (ev_fd ev)) (set_main s M))))
    | Ok ((ret, None), s) =>
      match q_read queues (TAILQ_FIRST head) s with
      | Fault e => Fault e
      | Ok (p, s') =>
        let th := Sock (mkST SStart (mkTD (ev_flag ev) (ev_fd ev)) frame 0) in
        let S' := mkSys (<[tid:=th]> (threads S)) (open_fd (ev_fd ev) (shm S)) (history S) in
        Ok (Some (set_mpc (MWalk p) (set_ret ret (set_ids (<[ev_thread ev:=tid]> (m_ids M))
              (set_sys S' (set_main s' M))))))
      end
    end
  else Ok None.

(** ** The other threads *)

(** The step writes to the stream, or locks or unlocks the mutex. *)
Definition uses_stream (th : thread) (ev : event) : bool :=
  bool_decide (is_Some (writes_of th ev)).

Definition uses_mutex (th : thread) : bool :=
  match th with
  | Sock t => match s_pc t with SLock | SUnlock | SErrUnlock => true | _ => false end
  | Timer t => match t_pc t with TLock | TUnlock => true | _ => false end
  end.

Definition thread_action (tid : Z) (ev : event) (M : server) : res (option server) :=
  let S := m_sys M in
  match threads S !! tid with
  | None => Ok None
  | Some th =>
    match thread_step spill tid ev th (shm S) with
    | Ok (Some (th', sh')) =>
      if uses_stream th ev && negb (m_stream M) then Fault BadStream
      else if uses_mutex th && negb (m_mutex M) then Fault BadMutex
      else Ok (Some (set_sys (mkSys (<[tid:=th']> (threads S)) sh'
             (history S ++ entry_of tid (writes_of th ev))) M))
    | Ok None => Ok None
    | Fault f => Fault f
    end
  end.

(** A notification of the timer starts a thread. *)
Definition tick_action (tid : Z) (frame : list Z) (M : server) : option server :=
  let S := m_sys M in
  if bool_decide (threads S !! tid = None)
  then Some (set_sys (mkSys (<[tid:=Timer (mkTT TStart frame)]> (threads S)) (shm S) (history S)) M)
  else None.

(** [signal] under the feature macro of [aesdsocket.c] is that of System V: a handler is
    called once, and then the signal has its default action again, which ends the
    process without a flush of its streams. *)
Definition signal_action (signo : Z) (M : server) : option server :=
  if bool_decide (signo ∈ m_handled M)
  then match sigint_handler signo with
       | inl v => Some (set_handled (m_handled M ∖ {[signo]}) (set_shared (raise_signal v) M))
       | inr code => Some (exit_process code M)
       end
  else if (signo =? SIGTERM) || (signo =? SIGINT)
  then Some (set_mpc (MDone (128 + signo)) M)
  else None.

(** A [send] to a peer that has closed its connection raises SIGPIPE, for which
    nothing is registered: the process ends and its streams are not flushed. *)
Definition broken_action (tid : Z) (M : server) : option server :=
  match threads (m_sys M) !! tid with
  | Some (Sock t) =>
    match s_pc t with
    | SSend i =>
      match disk (fp (shm (m_sys M))) !! i with
      | Some _ => Some (set_mpc (MDone (128 + SIGPIPE)) M)
      | None => None
      end
    | _ => None
    end
  | _ => None
  end.

(** [None]: the action is not possible in the state. *)
Definition perform (a : action) (M : server) : res (option server) :=
  match a with
  | AThread tid ev => thread_action tid ev M
  | ATick tid frame => Ok (tick_action tid frame M)
  | ASignal signo => Ok (signal_action signo M)
  | ABroken tid => Ok (broken_action tid M)
  | AMain => main_step M
  | AAccepted ev tid frame => accepted_action ev tid frame M
  end.

(** Nothing runs after the process has ended. *)
Definition exec (a : action) (M : server) : res (option server) :=
  match m_pc M with MDone _ => Ok None | _ => perform a M end.

Fixpoint run (l : list action) (M : server) : res (option server) :=
  match l with
  | [] => Ok (Some M)
  | a :: l' => match exec a M with Ok (Some M') => run l' M' | r => r end
  end.

Definition server_step (M M' : server) : Prop := ∃ a, exec a M = Ok (Some M').

(** The server after a start that reached the accept loop. *)
Definition server_init (q : qmem) (ret : Z) : server :=
  mkServer sys_init (mkMain q ∅ ∅ ∅ ∅) ∅ MTest ret true true true true {[SIGTERM; SIGINT]}.

Definition started (M : server) : Prop :=
  ∃ en sfd ret first q0 q, main_start en = Ok (Listening sfd ret first) ∧
    head ≠ NULL ∧ is_Some (heads q0 !! head) ∧ TAILQ_INIT head q0 = Ok (tt, q) ∧
    M = server_init q ret.

Definition server_reachable (M : server) : Prop := ∃ M0, started M0 ∧ rtc server_step M0 M.

(** ** The invariant *)

(** Thread [t] is a connection thread. *)
Definition connection (S : sys) (t : Z) : Prop := ∃ u, threads S !! t = Some (Sock u).

(** Where the list may be empty, and where its only thread has been joined. *)
Definition no_connection (pc : mpc) : bool :=
  match pc with MWalk _ => false | MDone code => code =? 0 | _ => true end.
Definition between (pc : mpc) : bool :=
  match pc with MWalk p => p =? NULL | MTest | MAccept | MRelease => true | _ => false end.

(** The connections [l], nodes with their [pthread_t], and those of them that have been
    joined, at each point of the main thread.  A second connection may have been given
    the [pthread_t] of the first ([sh_reused], [sh_again]). *)
Inductive shape : mpc → list (Z * Z) → gset Z → Prop :=
| sh_none pc : no_connection pc = true → shape pc [] ∅
| sh_walk p t : shape (MWalk p) [(p, t)] ∅
| sh_joined pc p t : between pc = true → shape pc [(p, t)] {[t]}
| sh_second p t p' t' : shape (MWalk p) [(p, t); (p', t')] {[t]}
| sh_reused p t p' : shape (MWalk p) [(p, t); (p', t)] ∅
| sh_again p t p' : shape (MWalk p') [(p, t); (p', t)] {[t]}
| sh_failed code l J : code ≠ 0 → (length l ≤ 2)%nat → shape (MDone code) l J.

(** [cs] are the connection threads; one that has not ended is that of a [pthread_t] that
    has not been joined. *)
Record conns_inv (M : server) (l : list (Z * Z)) (cs : list Z) : Prop := {
  ci_queue : queue (queues (m_main M)) head l.*1;
  ci_flagged : flagged (m_main M) l.*1 l.*2;
  ci_shape : shape (m_pc M) l (joined (m_main M));
  ci_conns tid : tid ∈ cs ↔ connection (m_sys M) tid;
  ci_length : length cs = length l;
  ci_ids t : t ∈ l.*2 ↔ is_Some (m_ids M !! t);
  ci_thread t tid : m_ids M !! t = Some tid → connection (m_sys M) tid;
  ci_running tid u : threads (m_sys M) !! tid = Some (Sock u) → s_pc u ≠ SDone →
    ∃ t, m_ids M !! t = Some tid ∧ t ∉ joined (m_main M)
}.

(** What the closing calls have left at each point. *)
Definition stream_open (pc : mpc) : bool :=
  match pc with MShutdown | MDestroy | MRemove | MDone 0 => false | _ => true end.
Definition socket_open (pc : mpc) : bool :=
  match pc with MDestroy | MRemove | MDone 0 => false | _ => true end.
Definition mutex_exists (pc : mpc) : bool :=
  match pc with MRemove | MDone 0 => false | _ => true end.
Definition file_exists (pc : mpc) : bool := match pc with MDone 0 => false | _ => true end.

(** The process was ended by a signal or by a call that failed. *)
Definition killed (pc : mpc) : bool := match pc with MDone code => negb (code =? 0) | _ => false end.

Record closing_inv (M : server) : Prop := {
  cl_ret : m_ret M ≠ -1;
  cl_stream : killed (m_pc M) = false → m_stream M = stream_open (m_pc M);
  cl_socket : killed (m_pc M) = false → m_socket M = socket_open (m_pc M);
  cl_mutex : killed (m_pc M) = false → m_mutex M = mutex_exists (m_pc M);
  cl_file : killed (m_pc M) = false → m_file M = file_exists (m_pc M)
}.

Record server_inv (M : server) : Prop := {
  v_sys : sys_inv (m_sys M);
  v_conns : ∃ l cs, conns_inv M l cs;
  v_closing : closing_inv M
}.

(** ** Lemmas *)

(** The shared state may change in what the invariant of the threads does not
    mention. *)
Lemma sys_inv_shared S sh' :
  sys_inv S → contents (fp sh') = contents (fp (shm S)) → mutex sh' = mutex (shm S) →
  sys_inv (mkSys (threads S) sh' (history S)).
Proof.
  intros [H1 H2 H3 H4 H5 H6 H7] Hc Hm. split; simpl; rewrite ?Hc, ?Hm; done.
Qed.

Lemma sys_inv_flush S : sys_inv S → sys_inv (mkSys (threads S) (flush_stream (shm S)) (history S)).
Proof. intros H. apply sys_inv_shared; [done|apply contents_fflush|done]. Qed.

(** The main thread sees of the other threads which are connections and which of
    those run. *)
Lemma conns_inv_threads M l cs S :
  conns_inv M l cs →
  (∀ t, connection S t ↔ connection (m_sys M) t) →
  (∀ t u, threads S !! t = Some (Sock u) → s_pc u ≠ SDone →
     ∃ v, threads (m_sys M) !! t = Some (Sock v) ∧ s_pc v ≠ SDone) →
  conns_inv (set_sys S M) l cs.
Proof.
  intros [H1 H2 H3 H4 H5 H6 H7 H8] Hc Hd. split; simpl; try done.
  - intros t. by rewrite Hc.
  - intros t tid. rewrite Hc. apply H7.
  - intros tid u Hu Hp. destruct (Hd tid u Hu Hp) as (v & Hv & Hvp). by eapply H8.
Qed.

Lemma conns_inv_shared M l cs f : conns_inv M l cs → conns_inv (set_shared f M) l cs.
Proof. intros H. apply conns_inv_threads; [done..|]. intros t u Hu Hp. by exists u. Qed.

(** A thread that has ended has no step. *)
Lemma done_no_step tid ev u sh : s_pc u = SDone → thread_socket_receive spill tid ev u sh = Ok None.
Proof. intros Hp. unfold thread_socket_receive. by rewrite Hp. Qed.

Lemma thread_step_kind tid ev th sh th' sh' :
  thread_step spill tid ev th sh = Ok (Some (th', sh')) →
  (∃ u u', th = Sock u ∧ th' = Sock u' ∧ s_pc u ≠ SDone) ∨ (∃ u u', th = Timer u ∧ th' = Timer u').
Proof.
  destruct th as [u|u]; simpl; intros H.
  - destruct (thread_socket_receive spill tid ev u sh) as [[[u' sh1]|]|] eqn:E; simplify_eq.
    left. exists u, u'. split_and!; [done..|]. intros Hp. by rewrite done_no_step in E.
  - destruct (timer_thread spill tid ev u sh) as [[[u' sh1]|]|] eqn:E; simplify_eq. eauto.
Qed.

Lemma conns_inv_step M l cs tid ev th th' sh sh' h :
  conns_inv M l cs → threads (m_sys M) !! tid = Some th →
  thread_step spill tid ev th sh = Ok (Some (th', sh')) →
  conns_inv (set_sys (mkSys (<[tid:=th']> (threads (m_sys M))) sh' h) M) l cs.
Proof.
  intros HI Hth Hs. apply thread_step_kind in Hs.
  apply conns_inv_threads; [done| |]; unfold connection; simpl.
  - intros t. destruct (decide (tid = t)) as [<-|Hne]; [|by rewrite lookup_insert_ne].
    rewrite lookup_insert_eq, Hth. destruct Hs as [(u & u' & -> & -> & _)|(u & u' & -> & ->)]; naive_solver.
  - intros t u. destruct (decide (tid = t)) as [<-|Hne].
    + rewrite lookup_insert_eq. destruct Hs as [(v & v' & -> & -> & Hv)|(v & v' & -> & ->)]; [|done].
      intros _ _. by exists v.
    + rewrite lookup_insert_ne by done. intros Hu Hp. by exists u.
Qed.

Lemma conns_inv_new M l cs tid th sh h :
  conns_inv M l cs → threads (m_sys M) !! tid = None → (∀ u, th ≠ Sock u) →
  conns_inv (set_sys (mkSys (<[tid:=th]> (threads (m_sys M))) sh h) M) l cs.
Proof.
  intros HI Hn Hk. apply conns_inv_threads; [done| |]; unfold connection; simpl.
  - intros t. destruct (decide (tid = t)) as [<-|Hne]; [|by rewrite lookup_insert_ne].
    rewrite lookup_insert_eq, Hn. split; intros [u Hu]; [|done]. injection Hu as Hu. by apply Hk in Hu.
  - intros t u. destruct (decide (tid = t)) as [<-|Hne].
    + rewrite lookup_insert_eq. intros [= Hu]. by apply Hk in Hu.
    + rewrite lookup_insert_ne by done. intros Hu Hp. by exists u.
Qed.

(** The cases of [start_connection]. *)
Lemma start_connection_cases s ret ev l :
  ret ≠ -1 → queue (queues s) head l → elems (queues s) !! ev_node ev = None →
  (∃ ret' d, start_connection head ret ev s =
     Ok (ret', Some RETCODE_FAILURE, mkMain (queues s) (nodes s) d (finished s) (joined s)) ∧
     (ret' = ret ∨ ret' = ev_create ev)) ∨
  start_connection head ret ev s = Fault NullDeref ∨
  (accepted ret ev ∧ ev_node ev ∉ l ∧ ∃ q, queue q head (l ++ [ev_node ev]) ∧
     start_connection head ret ev s = Ok (0, None, inserted ev q s)).
Proof.
  intros Hret Hq Hn.
  destruct (decide (ev_data ev = NULL)) as [Hd|Hd].
  { left. exists ret, (tdata s). unfold start_connection.
    destruct (Z.eqb_spec ret (-1)); [done|]. rewrite Hd. split; [by destruct s|by left]. }
  destruct (decide (ev_create ev = 0)) as [Hc|Hc].
  2:{ left. exists (ev_create ev), (<[ev_data ev:=mkTD (ev_flag ev) (ev_fd ev)]> (tdata s)).
      unfold start_connection. destruct (Z.eqb_spec ret (-1)); [done|].
      destruct (Z.eqb_spec (ev_data ev) NULL); [done|].
      unfold store_data, mbind, st_bind. destruct (Z.eqb_spec (ev_create ev) 0); [done|].
      split; [done|by right]. }
  destruct (decide (ev_node ev = NULL)) as [Hp|Hp].
  { right. left. unfold start_connection. destruct (Z.eqb_spec ret (-1)); [done|].
    destruct (Z.eqb_spec (ev_data ev) NULL); [done|]. rewrite Hc, Hp. done. }
  assert (ev_node ev ∉ l) as Hl.
  { intros Hin%(seg_elems _ _ _ _ _ (qu_seg _ _ _ Hq)). rewrite Hn in Hin. by destruct Hin. }
  right. right. split; [by split|]. split; [done|]. by apply start_connection_run.
Qed.

(** The walk at a node of the list. *)
Lemma walk_at M cs l1 p t l2 :
  conns_inv M (l1 ++ (p, t) :: l2) cs →
  walk_step (ended M) p (m_main M) =
    if join_waits (ended M) t (m_main M) then Ok (None, m_main M)
    else if decide (t ∈ joined (m_main M)) then Fault BadJoin
    else Ok (Some (MWalk (first_or l2.*1 NULL)), after_join [t] (m_main M)).
Proof.
  intros HI. pose proof (ci_queue _ _ _ HI) as Hq. pose proof (ci_flagged _ _ _ HI) as Hf.
  rewrite fmap_app in Hq, Hf. rewrite fmap_app in Hf. simpl in Hq, Hf.
  assert (p ≠ NULL ∧ nodes (m_main M) !! p = Some (mkNode t true)) as [Hp Hn].
  { apply (Forall2_lookup_lr _ _ _ (length l1) p t Hf);
      rewrite lookup_app_r, length_fmap, Nat.sub_diag by (rewrite length_fmap; lia); done. }
  unfold walk_step. destruct (Z.eqb_spec p NULL); [done|]. qstep (node_at_ok _ p _ Hp Hn).
  unfold mbind at 1, st_bind at 1, st_get. cbn [n_thread n_thread_exit andb].
  destruct (join_waits _ t _); [done|].
  destruct (decide (t ∈ joined (m_main M))) as [Hj|Hj].
  - apply st_bind_fault. rewrite (check_body_ok _ p t) by done. unfold pthread_join.
    by rewrite decide_True.
  - assert (check_thread_exit_body p (m_main M) = Ok (tt, after_join [t] (m_main M))) as Hb.
    { rewrite (check_body_ok _ p t) by done. by apply pthread_join_ok. }
    rewrite (st_bind_step _ _ _ _ _ Hb).
    by rewrite (st_bind_step _ _ _ _ _ (q_read_ok queues _ (after_join [t] (m_main M)) _
      (TAILQ_NEXT_spec _ head l1.*1 p l2.*1 Hq))).
Qed.

(** A node whose [pthread_t] has been joined. *)
Lemma walk_again M cs l1 p t l2 :
  conns_inv M (l1 ++ (p, t) :: l2) cs → t ∈ joined (m_main M) →
  walk_step (ended M) p (m_main M) = Fault BadJoin.
Proof.
  intros HI Hj. rewrite (walk_at M cs l1 p t l2 HI). unfold join_waits.
  by rewrite bool_decide_eq_false_2, decide_True by (done || by intros []).
Qed.

(** The loop of [release_all_thread] at the first node. *)
Lemma release_first M cs p t l :
  conns_inv M ((p, t) :: l) cs → t ∈ joined (m_main M) →
  release_iteration (ended M) (m_main M) = Fault BadJoin.
Proof.
  intros HI Hj. pose proof (ci_queue _ _ _ HI) as Hq. pose proof (ci_flagged _ _ _ HI) as Hf.
  simpl in Hq, Hf. inversion Hf as [|? ? ? ? [Hp Hn] _]; subst.
  unfold release_iteration.
  rewrite (st_bind_step _ _ _ _ _ (q_lift_ok _ _ _ _ (TAILQ_EMPTY_spec _ _ _ Hq))).
  rewrite bool_decide_eq_false_2 by done. rewrite set_queues_same.
  rewrite (st_bind_step _ _ _ _ _ (q_lift_ok _ _ _ _ (TAILQ_FIRST_spec _ _ _ Hq))).
  rewrite set_queues_same. cbn [first_or]. qstep (node_at_ok _ p _ Hp Hn).
  unfold mbind at 1, st_bind at 1, st_get. unfold join_waits.
  rewrite bool_decide_eq_false_2 by (by intros []). simpl.
  apply st_bind_fault. unfold release_node. apply st_bind_fault. unfold pthread_join.
  by rewrite decide_True.
Qed.

Lemma release_none M cs :
  conns_inv M [] cs → release_iteration (ended M) (m_main M) = Ok (Some MFclose, m_main M).
Proof.
  intros HI. pose proof (ci_queue _ _ _ HI) as Hq. unfold release_iteration.
  rewrite (st_bind_step _ _ _ _ _ (q_lift_ok _ _ _ _ (TAILQ_EMPTY_spec _ _ _ Hq))).
  by rewrite set_queues_same.
Qed.

(** A join that does not block finds that the thread has ended, and one that does finds
    it running. *)
Lemma join_waits_thread M l cs t :
  conns_inv M l cs → t ∈ l.*2 → t ∉ joined (m_main M) →
  ∃ tid u, m_ids M !! t = Some tid ∧ threads (m_sys M) !! tid = Some (Sock u) ∧
    (join_waits (ended M) t (m_main M) = false ↔ s_pc u = SDone).
Proof.
  intros HI [tid Hid]%(ci_ids _ _ _ HI) Hj. destruct (ci_thread _ _ _ HI t tid Hid) as [u Hu].
  exists tid, u. split_and!; [done..|]. unfold join_waits, ended, thread_ended. rewrite Hid, Hu.
  rewrite bool_decide_eq_true_2 by done. simpl. by rewrite negb_false_iff, bool_decide_eq_true.
Qed.

(** When all have been joined no connection runs. *)
Lemma joined_ended M l cs tid u :
  conns_inv M l cs → (∀ t, t ∈ l.*2 → t ∈ joined (m_main M)) →
  threads (m_sys M) !! tid = Some (Sock u) → s_pc u = SDone.
Proof.
  intros HI Hj Hu. destruct (decide (s_pc u = SDone)) as [|Hp]; [done|].
  destruct (ci_running _ _ _ HI tid u Hu Hp) as (t & Ht & Hn). destruct Hn. apply Hj.
  apply (ci_ids _ _ _ HI). by eexists.
Qed.

Lemma conns_inv_main M l cs M' :
  conns_inv M l cs → queues (m_main M') = queues (m_main M) → nodes (m_main M') = nodes (m_main M) →
  joined (m_main M') = joined (m_main M) → threads (m_sys M') = threads (m_sys M) →
  m_ids M' = m_ids M → shape (m_pc M') l (joined (m_main M)) → conns_inv M' l cs.
Proof.
  intros [H1 H2 H3 H4 H5 H6 H7 H8] Hq Hn Hj Ht Hi Hs.
  split; unfold connection; rewrite ?Hq, ?Hj, ?Ht, ?Hi; try done.
  apply (flagged_ext (m_main M)); [done|]. by rewrite Hn.
Qed.

(** The state after the join of [t]. *)
Lemma conns_inv_joined M l cs t pc :
  conns_inv M l cs → t ∈ l.*2 → t ∉ joined (m_main M) →
  join_waits (ended M) t (m_main M) = false → shape pc l ({[t]} ∪ joined (m_main M)) →
  conns_inv (set_mpc pc (set_main (after_join [t] (m_main M)) M)) l cs.
Proof.
  intros HI Ht Hj Hw Hs. destruct (join_waits_thread M l cs t HI Ht Hj) as (tid & u & Hid & Hu & Hdone).
  apply Hdone in Hw. destruct HI as [H1 H2 H3 H4 H5 H6 H7 H8]. split; simpl; try done.
  - by rewrite (right_id_L ∅ _).
  - intros tid' u' Hu' Hp. destruct (H8 tid' u' Hu' Hp) as (t' & Ht' & Hn').
    exists t'. split; [done|]. rewrite (right_id_L ∅ _).
    assert (t' ≠ t) by (intros ->; congruence). set_solver.
Qed.

Lemma closing_inv_main M pc s :
  closing_inv M → killed (m_pc M) = false →
  stream_open pc = stream_open (m_pc M) → socket_open pc = socket_open (m_pc M) →
  mutex_exists pc = mutex_exists (m_pc M) → file_exists pc = file_exists (m_pc M) →
  closing_inv (set_mpc pc (set_main s M)).
Proof.
  intros [C1 C2 C3 C4 C5] Hk H1 H2 H3 H4. split; simpl; [done|intros _..].
  - by rewrite H1, C2.
  - by rewrite H2, C3.
  - by rewrite H3, C4.
  - by rewrite H4, C5.
Qed.

Lemma closing_inv_killed M M' code :
  closing_inv M → m_pc M' = MDone code → code ≠ 0 → m_ret M' = m_ret M → closing_inv M'.
Proof.
  intros [C1 _ _ _ _] Hpc Hc Hr. assert (killed (m_pc M') = true) as Hk.
  { rewrite Hpc. simpl. by destruct (Z.eqb_spec code 0). }
  split; [congruence|by rewrite Hk..].
Qed.

Lemma walk_inv M p l cs M' :
  m_pc M = MWalk p → conns_inv M l cs → closing_inv M →
  from_main (walk_step (ended M) p) M = Ok (Some M') →
  conns_inv M' l cs ∧ closing_inv M' ∧ m_sys M' = m_sys M.
Proof.
  intros Hpc HI HC. pose proof (ci_shape _ _ _ HI) as Hs. rewrite Hpc in Hs. unfold from_main.
  assert (∀ t p', t ∈ l.*2 → t ∉ joined (m_main M) → join_waits (ended M) t (m_main M) = false →
    shape (MWalk p') l ({[t]} ∪ joined (m_main M)) →
    let M1 := set_mpc (MWalk p') (set_main (after_join [t] (m_main M)) M) in
    conns_inv M1 l cs ∧ closing_inv M1 ∧ m_sys M1 = m_sys M) as Hjoin.
  { intros t p' Ht Hn Hw Hsh. split; [by apply conns_inv_joined|].
    split; [by apply closing_inv_main; rewrite ?Hpc|done]. }
  inversion Hs as [? E|? t HE1 HE2 HJ|? p0 t Hb HE1 HE2 HJ|? t p' t' HE1 HE2 HJ|? t p' HE1 HE2 HJ|p0 t ? HE1 HE2 HJ|];
    subst; [discriminate E|..]; rewrite <-HJ in Hjoin.
  - rewrite (walk_at M cs [] p t [] HI). destruct (join_waits _ _ _) eqn:Hw; [done|].
    rewrite <-HJ, decide_False by set_solver. intros [= <-]. apply Hjoin; [set_solver..|done|].
    rewrite (right_id_L ∅ _). by apply sh_joined.
  - simpl in Hb. apply Z.eqb_eq in Hb as ->. unfold walk_step. simpl. intros [= <-].
    split_and!; [|by apply (closing_inv_main M); rewrite ?Hpc|done].
    apply (conns_inv_main M); try done. cbn [m_pc set_mpc]. rewrite <-HJ. by apply sh_joined.
  - by rewrite (walk_again M cs [] p t [(p', t')] HI) by (rewrite <-HJ; set_solver).
  - rewrite (walk_at M cs [] p t [(p', t)] HI). destruct (join_waits _ _ _) eqn:Hw; [done|].
    rewrite <-HJ, decide_False by set_solver. intros [= <-]. apply Hjoin; [set_solver..|done|].
    rewrite (right_id_L ∅ _). by apply sh_again.
  - by rewrite (walk_again M cs [(p0, t)] p t [] HI) by (rewrite <-HJ; set_solver).
Qed.

Lemma release_inv M l cs M' :
  m_pc M = MRelease → conns_inv M l cs → closing_inv M →
  from_main (release_iteration (ended M)) M = Ok (Some M') →
  conns_inv M' l cs ∧ closing_inv M' ∧ m_sys M' = m_sys M.
Proof.
  intros Hpc HI HC. pose proof (ci_shape _ _ _ HI) as Hs. rewrite Hpc in Hs. unfold from_main.
  inversion Hs as [? Hb HE1 HE2 E|? t HE1 HE2 HJ|? p0 t Hb HE1 HE2 HJ| | | |]; subst.
  - rewrite (release_none M cs) by done. intros [= <-].
    split_and!; [|by apply (closing_inv_main M); rewrite ?Hpc|done].
    apply (conns_inv_main M); try done. cbn [m_pc set_mpc]. rewrite <-E. by apply sh_none.
  - by rewrite (release_first M cs p0 t []) by (done || rewrite <-HJ; set_solver).
Qed.

Lemma shape_closing pc pc' l J :
  between pc = false → no_connection pc = true → no_connection pc' = true →
  shape pc l J → shape pc' l J.
Proof.
  intros Hb Hn Hn' Hs. inversion Hs; subst; [by apply sh_none|done|congruence|done..|].
  simpl in Hn. by apply Z.eqb_eq in Hn.
Qed.

Lemma shape_length pc l J : shape pc l J → (length l ≤ 2)%nat.
Proof. intros Hs. inversion Hs; subst; simpl; lia || done. Qed.

Lemma main_step_inv M l cs M' :
  conns_inv M l cs → closing_inv M → main_step M = Ok (Some M') →
  conns_inv M' l cs ∧ closing_inv M' ∧
  (m_sys M' = m_sys M ∨
   m_sys M' = mkSys (threads (m_sys M)) (flush_stream (shm (m_sys M))) (history (m_sys M))).
Proof.
  intros HI HC. pose proof (ci_shape _ _ _ HI) as Hs. unfold main_step.
  pose proof HC as [H1 H2 H3 H4 H5].
  destruct (m_pc M) eqn:Hpc; try discriminate; simpl in H2, H3, H4, H5;
    try rewrite H2 by done; try rewrite H3 by done; try rewrite H4 by done; intros H.
  - injection H as <-. split_and!; [|by destruct (EXIT_SIGNAL _); split|by left].
    apply (conns_inv_main M); try done.
    inversion Hs; subst; [|by destruct (EXIT_SIGNAL _); apply sh_joined].
    destruct (EXIT_SIGNAL _); by apply sh_none.
  - eapply walk_inv in H as (Ha & Hb & Hc); [|done..]. by split_and!; [| |left].
  - eapply release_inv in H as (Ha & Hb & Hc); [|done..]. by split_and!; [| |left].
  - injection H as <-. split_and!; [|by split|by right].
    apply (conns_inv_main M); try done. eapply shape_closing; [..|exact Hs]; done.
  - injection H as <-. split_and!; [|by split|by left].
    apply (conns_inv_main M); try done. eapply shape_closing; [..|exact Hs]; done.
  - destruct (mutex _); [discriminate H|]. injection H as <-. split_and!; [|by split|by left].
    apply (conns_inv_main M); try done. eapply shape_closing; [..|exact Hs]; done.
  - injection H as <-. split_and!; [|by split|by left].
    apply (conns_inv_main M); try done. eapply shape_closing; [..|exact Hs]; done.
Qed.

(** In [accept] the threads of the list have been joined. *)
Lemma shape_accept_joined l J t : shape MAccept l J → t ∈ l.*2 → t ∈ J.
Proof. intros Hs. inversion Hs; subst; simpl; set_solver. Qed.

(** A new node, for a thread with a [pthread_t] of its own or with that of the other. *)
Lemma shape_accept l J p t :
  shape MAccept l J → shape (MWalk (first_or (l.*1 ++ [p]) NULL)) (l ++ [(p, t)]) (J ∖ {[t]}).
Proof.
  intros Hs. inversion Hs as [| |? p0 t0 Hb HE1 HE2 HJ| | | |]; subst; simpl.
  - assert ((∅ ∖ {[t]} : gset Z) = ∅) as -> by set_solver. apply sh_walk.
  - destruct (decide (t = t0)) as [->|Hne].
    + rewrite difference_diag_L. apply sh_reused.
    + rewrite difference_disjoint_L by set_solver. apply sh_second.
Qed.

(** The server after [accept], when the calls that follow it have succeeded. *)
Definition with_client (ev : accept_event) (tid : Z) (frame : list Z) (q : qmem) (p : Z)
    (M : server) : server :=
  set_mpc (MWalk p) (set_ret 0 (set_ids (<[ev_thread ev:=tid]> (m_ids M))
    (set_sys (mkSys (<[tid:=Sock (mkST SStart (mkTD (ev_flag ev) (ev_fd ev)) frame 0)]>
                       (threads (m_sys M))) (open_fd (ev_fd ev) (shm (m_sys M))) (history (m_sys M)))
       (set_main (inserted ev q (m_main M)) M)))).

Lemma conns_inv_accept M l cs ev tid q frame :
  conns_inv M l cs → m_pc M = MAccept → threads (m_sys M) !! tid = None →
  accepted (m_ret M) ev → ev_node ev ∉ l.*1 → queue q head (l.*1 ++ [ev_node ev]) →
  conns_inv (with_client ev tid frame q (first_or (l.*1 ++ [ev_node ev]) NULL) M)
    (l ++ [(ev_node ev, ev_thread ev)]) (cs ++ [tid]).
Proof.
  intros HI Hpc Ht Ha Hn Hq. pose proof HI as [H1 H2 H3 H4 H5 H6 H7 H8]. rewrite Hpc in H3.
  assert (∀ t, connection (m_sys M) t → t ≠ tid) as Hne by (intros t [u Hu] ->; congruence).
  split; unfold with_client, connection; cbn; rewrite ?fmap_app.
  - exact Hq.
  - by apply flagged_inserted; [|apply Ha|].
  - by apply shape_accept.
  - intros t. rewrite elem_of_app, list_elem_of_singleton.
    destruct (decide (t = tid)) as [->|Hd]; [rewrite lookup_insert_eq; naive_solver|].
    rewrite lookup_insert_ne, H4 by done. unfold connection. naive_solver.
  - rewrite !length_app. simpl. lia.
  - intros t. rewrite elem_of_app. cbn. rewrite list_elem_of_singleton, H6.
    destruct (decide (t = ev_thread ev)) as [->|Hd]; [rewrite lookup_insert_eq; naive_solver|].
    rewrite lookup_insert_ne by done. naive_solver.
  - intros t a. destruct (decide (t = ev_thread ev)) as [->|Hd].
    + rewrite lookup_insert_eq. intros [= <-]. rewrite lookup_insert_eq. by eexists.
    + rewrite lookup_insert_ne by done. intros Hta%H7. rewrite lookup_insert_ne; [exact Hta|].
      by apply not_eq_sym, Hne.
  - intros a u. destruct (decide (a = tid)) as [->|Hd].
    + intros _ _. exists (ev_thread ev). rewrite lookup_insert_eq. split; [done|set_solver].
    + rewrite lookup_insert_ne by done. intros Hu []. eapply joined_ended; [done| |done].
      intros t. by apply shape_accept_joined.
Qed.

(** What comes of a return of [accept]. *)
Lemma accepted_action_cases M l cs ev tid frame M' :
  conns_inv M l cs → m_ret M ≠ -1 → accepted_action ev tid frame M = Ok (Some M') →
  m_pc M = MAccept ∧ threads (m_sys M) !! tid = None ∧
  ((∃ d, M' = exit_process RETCODE_FAILURE (set_shared (open_fd (ev_fd ev)) (set_main
      (mkMain (queues (m_main M)) (nodes (m_main M)) d (finished (m_main M)) (joined (m_main M))) M))) ∨
   (∃ q, accepted (m_ret M) ev ∧ ev_node ev ∉ l.*1 ∧ queue q head (l.*1 ++ [ev_node ev]) ∧
      M' = with_client ev tid frame q (first_or (l.*1 ++ [ev_node ev]) NULL) M)).
Proof.
  intros HI Hret. unfold accepted_action.
  destruct (bool_decide_reflect (m_pc M = MAccept)) as [Hpc|]; [|done].
  destruct (bool_decide_reflect (threads (m_sys M) !! tid = None)) as [Ht|]; [|done].
  destruct (id_free _ M); [|done].
  destruct (bool_decide_reflect (elems (queues (m_main M)) !! ev_node ev = None)) as [Hn|]; [|done].
  simpl. intros H. split_and!; [done..|].
  destruct (start_connection_cases (m_main M) (m_ret M) ev l.*1 Hret (ci_queue _ _ _ HI) Hn)
    as [(ret' & d & E & _)|[E|(Ha & Hl & q & Hq & E)]]; rewrite E in H; [|done|].
  - left. exists d. by injection H as <-.
  - right. exists q. split_and!; [done..|]. unfold q_read in H. cbn [queues inserted] in H.
    rewrite (TAILQ_FIRST_spec _ _ _ Hq) in H. by injection H as <-.
Qed.

Lemma thread_action_ok tid ev M M' :
  thread_action tid ev M = Ok (Some M') → ∃ th th' sh',
    threads (m_sys M) !! tid = Some th ∧ thread_step spill tid ev th (shm (m_sys M)) = Ok (Some (th', sh')) ∧
    M' = set_sys (mkSys (<[tid:=th']> (threads (m_sys M))) sh'
           (history (m_sys M) ++ entry_of tid (writes_of th ev))) M.
Proof.
  unfold thread_action. destruct (threads (m_sys M) !! tid) as [th|]; [|done].
  destruct (thread_step spill tid ev th _) as [[[th' sh']|]|] eqn:E; [|done..].
  destruct (uses_stream th ev && _); [done|]. destruct (uses_mutex th && _); [done|].
  intros [= <-]. by exists th, th', sh'.
Qed.

Lemma exec_perform a M M' : exec a M = Ok (Some M') → perform a M = Ok (Some M').
Proof. unfold exec. by destruct (m_pc M). Qed.

Lemma exec_main M : (∀ code, m_pc M ≠ MDone code) → exec AMain M = main_step M.
Proof. intros Hd. unfold exec. destruct (m_pc M) eqn:Hpc; try done. by destruct (Hd code). Qed.

(** The first signal sets the flag; a second of the same kind ends the process. *)
Lemma signal_action_ok signo M M' :
  signal_action signo M = Some M' →
  M' = set_handled (m_handled M ∖ {[signo]}) (set_shared (raise_signal true) M) ∨
  ∃ code, code ≠ 0 ∧ (M' = exit_process code M ∨ M' = set_mpc (MDone code) M).
Proof.
  unfold signal_action, sigint_handler. case_bool_decide as Hin.
  - destruct (_ || _); intros [= <-]; [by left|]. right. exists EXIT_FAILURE. by split; [|left].
  - destruct (Z.eqb_spec signo SIGTERM) as [->|]; [|destruct (Z.eqb_spec signo SIGINT) as [->|]; [|done]];
      intros [= <-]; right; [exists (128 + SIGTERM)|exists (128 + SIGINT)]; (split; [done|by right]).
Qed.

(** The process may be ended at any point. *)
Lemma killed_inv code M : server_inv M → code ≠ 0 → server_inv (set_mpc (MDone code) M).
Proof.
  intros [HS (l & cs & HI) HC] Hc. split; [done| |by apply (closing_inv_killed M _ code)].
  exists l, cs. apply (conns_inv_main M); try done. apply sh_failed; [done|]. eapply shape_length, HI.
Qed.

Lemma set_shared_inv f M :
  server_inv M → (∀ sh, contents (fp (f sh)) = contents (fp sh)) → (∀ sh, mutex (f sh) = mutex sh) →
  server_inv (set_shared f M).
Proof.
  intros [HS (l & cs & HI) HC] H1 H2. split; [by apply sys_inv_shared| |by destruct HC].
  exists l, cs. by apply conns_inv_shared.
Qed.

Lemma exit_process_inv code M : server_inv M → code ≠ 0 → server_inv (exit_process code M).
Proof.
  intros HM Hc. apply killed_inv; [|done]. destruct (m_stream M); [|done].
  apply set_shared_inv; [done| |done]. intros sh. apply contents_fflush.
Qed.

Lemma accepted_inv M l cs ev tid frame M' :
  sys_inv (m_sys M) → conns_inv M l cs → closing_inv M →
  accepted_action ev tid frame M = Ok (Some M') → server_inv M' ∧
  ((∃ code, m_pc M' = MDone code ∧ code ≠ 0) ∨ connection (m_sys M') tid).
Proof.
  intros HS HI HC H. pose proof HC as [Hret H2 H3 H4 H5].
  destruct (accepted_action_cases M l cs ev tid frame M' HI Hret H)
    as (Hpc & Ht & [[d ->]|(q & Ha & Hl & Hq & ->)]); rewrite Hpc in H2, H3, H4, H5; simpl in H2, H3, H4, H5.
  - split; [|left; by exists RETCODE_FAILURE]. apply exit_process_inv; [|done].
    apply set_shared_inv; [|done..]. split; [done| |by destruct HC; split].
    exists l, cs. apply (conns_inv_main M); try done. apply HI.
  - split; [split|].
    + by apply sys_inv_new.
    + exists (l ++ [(ev_node ev, ev_thread ev)]), (cs ++ [tid]). by apply conns_inv_accept.
    + by split.
    + right. eexists. apply lookup_insert_eq.
Qed.

Lemma tick_action_ok tid frame M M' :
  tick_action tid frame M = Some M' → threads (m_sys M) !! tid = None ∧
  M' = set_sys (mkSys (<[tid:=Timer (mkTT TStart frame)]> (threads (m_sys M))) (shm (m_sys M))
         (history (m_sys M))) M.
Proof. unfold tick_action. case_bool_decide; [|done]. by intros [= <-]. Qed.

Lemma broken_action_ok tid M M' :
  broken_action tid M = Some M' → M' = set_mpc (MDone (128 + SIGPIPE)) M ∧
  ∃ t, threads (m_sys M) !! tid = Some (Sock t) ∧ s_pc t ≠ SDone.
Proof.
  unfold broken_action. destruct (threads (m_sys M) !! tid) as [[t|t]|]; [|done..].
  destruct (s_pc t) eqn:Hp; try done. destruct (disk _ !! i); [|done]. intros [= <-].
  split; [done|]. exists t. by rewrite Hp.
Qed.

(** While a connection thread runs the main thread is in the walk. *)
Lemma running_in_walk M l cs tid t :
  conns_inv M l cs → (∀ code, m_pc M ≠ MDone code) →
  threads (m_sys M) !! tid = Some (Sock t) → s_pc t ≠ SDone → ∃ p, m_pc M = MWalk p.
Proof.
  intros HI Hd Ht Hp. destruct (ci_running _ _ _ HI tid t Ht Hp) as (b & Hb & Hj).
  assert (b ∈ l.*2) as Hl by (apply (ci_ids _ _ _ HI); by eexists).
  pose proof (ci_shape _ _ _ HI) as Hs.
  inversion Hs as [? Hn Hpc HE HJ|p ? Hpc|? p0 t0 Hb0 Hpc HE HJ|p ? ? ? Hpc|p ? ? Hpc|? ? p Hpc|? ? ? ? ? Hpc];
    subst; try (by exists p); [by apply elem_of_nil in Hl| |by edestruct Hd].
  destruct Hj. rewrite <-HJ. simpl in Hl. set_solver.
Qed.

Lemma exec_running a M M' : exec a M = Ok (Some M') → ∀ code, m_pc M ≠ MDone code.
Proof. unfold exec. intros H code E. by rewrite E in H. Qed.

(** Every action keeps the invariant. *)
Lemma exec_inv a M M' : server_inv M → exec a M = Ok (Some M') → server_inv M'.
Proof.
  intros HM He. pose proof HM as [HS (l & cs & HI) HC]. apply exec_perform in He as H.
  destruct a as [tid ev|tid frame|signo|tid| |ev tid frame]; simpl in H.
  - apply thread_action_ok in H as (th & th' & sh' & Hth & Hst & ->). split.
    + by apply sys_inv_thread with (spill:=spill).
    + exists l, cs. by eapply conns_inv_step.
    + destruct HC; by split.
  - injection H as H. apply tick_action_ok in H as [Ht ->]. split.
    + by apply sys_inv_new.
    + exists l, cs. by apply conns_inv_new.
    + destruct HC; by split.
  - injection H as H. apply signal_action_ok in H as [->|(code & Hc & [->| ->])].
    + apply (set_shared_inv (raise_signal true)) in HM as [HS' (l' & cs' & HI') HC']; [|done..].
      split; [done| |by destruct HC'; split]. exists l', cs'. apply (conns_inv_main _ _ _ _ HI'); try done.
      apply HI'.
    + by apply exit_process_inv.
    + by apply killed_inv.
  - injection H as H. apply broken_action_ok in H as [-> _]. by apply killed_inv.
  - destruct (main_step_inv M l cs M' HI HC H) as (HI' & HC' & HS'). split; [|by exists l, cs|done].
    destruct HS' as [-> | ->]; [done|by apply sys_inv_flush].
  - by eapply accepted_inv.
Qed.

Lemma started_inv M : started M → server_inv M.
Proof.
  intros (en & sfd & ret & first & q0 & q & Hen & Hh & Hq0 & Hi & ->).
  destruct (TAILQ_INIT_spec q0 head Hh Hq0) as (q' & Hi' & Hq & _). rewrite Hi' in Hi. injection Hi as ->.
  apply main_start_listening in Hen as (Hen & _ & ->).
  split; [apply sys_inv_init| |by split; [apply Hen|..]].
  exists [], []. split; simpl; try done; [by apply list.Forall2_nil|by apply sh_none|..].
  - intros t. unfold connection. simpl. split; [by intros ?%elem_of_nil|]. by intros [u Hu].
  - intros t. rewrite elem_of_nil, lookup_empty. split; [done|by intros []].
Qed.

Lemma server_reachable_inv M : server_reachable M → server_inv M.
Proof.
  intros (M0 & H0 & Hr). apply started_inv in H0. induction Hr as [|M0 M1 M2 [a Ha] _ IH]; [done|].
  by eapply IH, exec_inv.
Qed.

Lemma from_main_ids f M M' :
  from_main f M = Ok (Some M') → m_sys M' = m_sys M ∧ m_ids M' = m_ids M.
Proof. unfold from_main. destruct (f (m_main M)) as [[[pc|] s]|]; [|done..]. by intros [= <-]. Qed.

Lemma main_step_threads M M' :
  main_step M = Ok (Some M') → threads (m_sys M') = threads (m_sys M).
Proof.
  unfold main_step. destruct (m_pc M); try (by intros [= <-]); try (by intros [-> _]%from_main_ids).
  destruct (mutex _); [done|]. by intros [= <-].
Qed.

(** With two connections the main thread is in the walk, or the process was ended. *)
Lemma two_connections_shape M l cs t1 t2 :
  conns_inv M l cs → connection (m_sys M) t1 → connection (m_sys M) t2 → t1 ≠ t2 →
  ((∃ p, m_pc M = MWalk p) ∨ ∃ code, m_pc M = MDone code ∧ code ≠ 0) ∧ (2 ≤ length l)%nat.
Proof.
  intros HI H1%(ci_conns _ _ _ HI) H2%(ci_conns _ _ _ HI) Hne.
  assert (2 ≤ length l)%nat as Hl.
  { rewrite <-(ci_length _ _ _ HI). destruct cs as [|a [|b cs]]; simpl; [set_solver..|lia]. }
  split; [|done]. pose proof (ci_shape _ _ _ HI) as Hs.
  inversion Hs; subst; simpl in Hl; try lia; [left; by eexists..|right; by eexists].
Qed.

Lemma exec_walk_again M cs l1 p t l2 :
  conns_inv M (l1 ++ (p, t) :: l2) cs → m_pc M = MWalk p → t ∈ joined (m_main M) →
  exec AMain M = Fault BadJoin.
Proof.
  intros HI Hpc Hj. unfold exec, perform, main_step, from_main. rewrite Hpc.
  by rewrite (walk_again M cs l1 p t l2).
Qed.

(** What the main thread does with two connections. *)
Lemma two_connections_stop M l cs :
  conns_inv M l cs → (2 ≤ length l)%nat → (∀ code, m_pc M ≠ MDone code) →
  exec AMain M = Fault BadJoin ∨ ∃ t b u, (∀ t' a, m_ids M !! t' = Some a → t' = t ∧ a = b) ∧
    threads (m_sys M) !! b = Some (Sock u) ∧
    ((exec AMain M = Ok None ∧ s_pc u ≠ SDone) ∨
     (s_pc u = SDone ∧ ∃ M1, exec AMain M = Ok (Some M1) ∧ exec AMain M1 = Fault BadJoin)).
Proof.
  intros HI Hl Hd. pose proof (ci_shape _ _ _ HI) as Hs.
  inversion Hs as [| | |p t p' t' Hpc HE HJ|p t p' Hpc HE HJ|p t p' Hpc HE HJ|? ? ? ? ? Hpc];
    subst; try (simpl in Hl; lia); [left|right|left|by edestruct Hd].
  - apply (exec_walk_again M cs [] p t [(p', t')]); [done..|rewrite <-HJ; set_solver].
  - rewrite exec_main by done. unfold main_step. rewrite <-Hpc. destruct (join_waits_thread M _ cs t HI) as (b & u & Hb & Hu & Hw); [set_solver|rewrite <-HJ; set_solver|].
    exists t, b, u. split_and!; [|done|].
    { intros t' a Ha. assert (t' ∈ [(p, t); (p', t)].*2) as Ht by (apply (ci_ids _ _ _ HI); by eexists).
      simpl in Ht. assert (t' = t) as -> by set_solver. split; congruence. }
    unfold from_main. rewrite (walk_at M cs [] p t [(p', t)] HI).
    destruct (join_waits _ _ _) eqn:Hj.
    { left. split; [done|]. intros Hp. apply Hw in Hp. congruence. }
    right. split; [by apply Hw|]. rewrite <-HJ, decide_False by set_solver. eexists. split; [done|].
    apply (exec_walk_again _ cs [(p, t)] p' t []); [|done|simpl; set_solver].
    apply (conns_inv_joined M); try done; [set_solver|rewrite <-HJ; set_solver|].
    rewrite <-HJ, (right_id_L ∅ _). apply sh_again.
  - apply (exec_walk_again M cs [(p, t)] p' t []); [done..|rewrite <-HJ; set_solver].
Qed.

(** A connection thread remains in the table. *)
Lemma connection_stays a M M' t :
  server_inv M → exec a M = Ok (Some M') → connection (m_sys M) t → connection (m_sys M') t.
Proof.
  intros [_ (l & cs & HI) HC] H%exec_perform [u Hu]. unfold connection.
  destruct a as [tid ev|tid frame|signo|tid| |ev tid frame]; simpl in H.
  - apply thread_action_ok in H as (th & th' & sh' & Hth & Hst%thread_step_kind & ->). simpl.
    destruct (decide (tid = t)) as [<-|Hne]; [|rewrite lookup_insert_ne; eauto].
    rewrite lookup_insert_eq. destruct Hst as [(v & v' & _ & -> & _)|(v & v' & -> & _)]; [eauto|congruence].
  - injection H as H. apply tick_action_ok in H as [Ht ->]. simpl.
    rewrite lookup_insert_ne by congruence. eauto.
  - injection H as H. apply signal_action_ok in H as [->|(code & _ & [->| ->])]; [eauto| |eauto].
    unfold exit_process. destruct (m_stream M); eauto.
  - injection H as H. apply broken_action_ok in H as [-> _]. eauto.
  - apply main_step_threads in H as ->. eauto.
  - destruct (accepted_action_cases M l cs ev tid frame M' HI (cl_ret _ HC) H)
      as (_ & Ht & [[d ->]|(q & _ & _ & _ & ->)]).
    + unfold exit_process. simpl. destruct (m_stream M); eauto.
    + simpl. rewrite lookup_insert_ne by congruence. eauto.
Qed.

Lemma connection_remains M M' t :
  server_inv M → rtc server_step M M' → connection (m_sys M) t → server_inv M' ∧ connection (m_sys M') t.
Proof.
  intros HM Hr. revert HM. induction Hr as [|M M1 M2 [a Ha] _ IH]; intros HM Ht; [done|].
  apply IH; [by eapply exec_inv|by eapply connection_stays].
Qed.

(** Once a connection has been accepted, or the main thread waits for one, the
    server does not exit with success. *)
Lemma accept_never_succeeds M M' :
  server_inv M → (m_pc M = MAccept ∨ (∃ t, connection (m_sys M) t) ∨ ∃ code, m_pc M = MDone code ∧ code ≠ 0) →
  rtc server_step M M' → m_pc M' ≠ MDone RETCODE_SUCCESS.
Proof.
  intros HI Hc Hr. revert HI Hc. induction Hr as [M|M M1 M2 [a Ha] _ IH]; intros HI Hc.
  - destruct HI as [_ (l & cs & HI) _]. intros Hpc. destruct Hc as [|[[t Ht]|(code & Hpc' & Hne)]];
      [congruence| |unfold RETCODE_SUCCESS in *; congruence].
    apply (ci_conns _ _ _ HI) in Ht. pose proof (ci_shape _ _ _ HI) as Hs. rewrite Hpc in Hs.
    pose proof (ci_length _ _ _ HI) as Hl.
    inversion Hs; subst; [by apply length_zero_iff_nil in Hl as ->; apply elem_of_nil in Ht|done..].
  - apply IH; [by eapply exec_inv|]. destruct Hc as [Hpc|[[t Ht]|(code & Hpc & Hne)]].
    + apply exec_perform in Ha. destruct a as [tid ev|tid frame|signo|tid| |ev tid frame]; simpl in Ha.
      * apply thread_action_ok in Ha as (th & th' & sh' & _ & _ & ->). by left.
      * injection Ha as Ha. apply tick_action_ok in Ha as [_ ->]. by left.
      * injection Ha as Ha. apply signal_action_ok in Ha as [->|(code & Hc & [->| ->])]; [by left|..];
          right; right; exists code; done.
      * injection Ha as Ha. apply broken_action_ok in Ha as [-> _]. right. right.
        by exists (128 + SIGPIPE).
      * unfold main_step in Ha. by rewrite Hpc in Ha.
      * destruct HI as [HS (l & cs & HI) HC]. right.
        destruct (accepted_inv M l cs ev tid frame M1 HS HI HC Ha) as [_ [?|?]]; eauto.
    + right. left. exists t. by eapply connection_stays.
    + unfold exec in Ha. by rewrite Hpc in Ha.
Qed.

(** The actions of one connection thread. *)
Lemma run_thread_actions tid evs t sh M t' sh' :
  (∀ code, m_pc M ≠ MDone code) → m_stream M = true → m_mutex M = true →
  threads (m_sys M) !! tid = Some (Sock t) → shm (m_sys M) = sh →
  run_thread spill tid evs t sh = Ok (Some (t', sh')) →
  ∃ h, run (AThread tid <$> evs) M =
    Ok (Some (set_sys (mkSys (<[tid:=Sock t']> (threads (m_sys M))) sh' h) M)).
Proof.
  intros Hd Hst Hmu. revert t sh M Hd Hst Hmu. induction evs as [|ev evs IH]; intros t sh M Hd Hst Hmu Hth Hsh.
  - simpl. intros [= <- <-]. exists (history (m_sys M)). rewrite insert_id by done. subst sh.
    by destruct M as [[]].
  - cbn [run_thread]. destruct (thread_socket_receive spill tid ev t sh) as [[[t1 sh1]|]|] eqn:E; [|done..].
    intros Hr. assert (exec (AThread tid ev) M = Ok (Some (set_sys (mkSys (<[tid:=Sock t1]> (threads (m_sys M))) sh1
      (history (m_sys M) ++ entry_of tid (writes_of (Sock t) ev))) M))) as He.
    { transitivity (perform (AThread tid ev) M).
      { unfold exec. destruct (m_pc M) eqn:Hpc; try done. by destruct (Hd code). }
      unfold perform, thread_action. rewrite Hth. simpl. rewrite Hsh, E, Hst, Hmu, !andb_false_r. done. }
    cbn [fmap list_fmap run]. rewrite He.
    match goal with |- context [run _ ?M1] => destruct (IH t1 sh1 M1) as [h Hh] end; [done..| |done|exact Hr|].
    + simpl. apply lookup_insert_eq.
    + exists h. change (list_fmap event action (AThread tid) evs) with (AThread tid <$> evs).
      rewrite Hh. simpl. by rewrite insert_insert_eq.
Qed.

Lemma run_app l1 l2 M M1 : run l1 M = Ok (Some M1) → run (l1 ++ l2) M = run l2 M1.
Proof.
  revert M. induction l1 as [|a l1 IH]; intros M; simpl; [by intros [= ->]|].
  destruct (exec a M) as [[M2|]|]; [apply IH|done|done].
Qed.

Lemma run_steps l M M' : run l M = Ok (Some M') → rtc server_step M M'.
Proof.
  revert M. induction l as [|a l IH]; intros M; simpl; [by intros [= ->]|].
  destruct (exec a M) as [[M2|]|] eqn:E; [|done..]. intros H. eapply rtc_l; [by exists a|by apply IH].
Qed.

(** ** The loop of the main thread

    When every thread has ended, the steps of the main thread are the loop of
    [check_thread_exit]; an iteration of [release_all_thread] shares its body with
    [release_loop]. *)

Fixpoint walk_run (n : nat) (ended : Z → bool) (p_node : Z) (s : mainst) : res (bool * mainst) :=
  match n with
  | O => Ok (p_node =? NULL, s)
  | S n' =>
    match walk_step ended p_node s with
    | Ok (Some (MWalk p), s') => walk_run n' ended p s'
    | Ok (Some _, s') => Ok (true, s')
    | Ok (None, s') => Ok (false, s')
    | Fault f => Fault f
    end
  end.

Lemma walk_step_ended ended p s :
  (∀ t, ended t = true) → p ≠ NULL →
  walk_step ended p s = (check_thread_exit_body p ;;;
    p' ← q_read queues (TAILQ_NEXT p); mret (Some (MWalk p'))) s.
Proof.
  intros He Hp. unfold walk_step, check_thread_exit_body. destruct (Z.eqb_spec p NULL); [done|].
  unfold mbind, st_bind, st_get, join_waits, node_at. destruct (lookup_at (nodes s) p) as [nd|] eqn:E; [|done].
  rewrite He, !andb_false_r. by rewrite E.
Qed.

Lemma walk_run_foreach n ended p s :
  (∀ t, ended t = true) →
  walk_run n ended p s = foreach_loop queues n TAILQ_NEXT check_thread_exit_body p s.
Proof.
  intros He. revert p s. induction n as [|n IH]; intros p s; [done|]. simpl.
  destruct (Z.eqb_spec p NULL) as [->|Hp]; [done|]. rewrite walk_step_ended by done.
  unfold mbind, st_bind. destruct (check_thread_exit_body p s) as [[[] s1]|]; [|done].
  destruct (q_read queues (TAILQ_NEXT p) s1) as [[p1 s2]|]; [|done]. apply IH.
Qed.

(** A server that has had no connection. *)
Lemma no_connection_list M l cs :
  conns_inv M l cs → (∀ t, ¬ connection (m_sys M) t) → l = [] ∧ cs = [].
Proof.
  intros HI Hno. destruct cs as [|t cs].
  - split; [|done]. apply length_zero_iff_nil. by rewrite <-(ci_length _ _ _ HI).
  - destruct (Hno t). apply (ci_conns _ _ _ HI). by left.
Qed.

Lemma accept_run M ev tid frame :
  conns_inv M [] [] → closing_inv M → m_pc M = MAccept →
  threads (m_sys M) !! tid = None → elems (queues (m_main M)) !! ev_node ev = None →
  accepted (m_ret M) ev → ∃ q, queue q head [ev_node ev] ∧
  exec (AAccepted ev tid frame) M = Ok (Some (with_client ev tid frame q (ev_node ev) M)).
Proof.
  intros HI HC Hpc Ht Hn Ha.
  destruct (start_connection_run (m_main M) head (m_ret M) ev [] Ha (ci_queue _ _ _ HI)) as (q & Hq & Hs); [set_solver|].
  assert (m_ids M !! ev_thread ev = None) as Hid.
  { apply eq_None_not_Some. intros Hin%(ci_ids _ _ _ HI). by apply elem_of_nil in Hin. }
  exists q. split; [done|]. unfold exec, perform, accepted_action, id_free. rewrite Hpc, Ht, Hn, Hid.
  rewrite !bool_decide_eq_true_2 by done. simpl. rewrite Hs. unfold q_read. cbn [queues inserted].
  by rewrite (TAILQ_FIRST_spec _ _ _ Hq).
Qed.

(** The join of the only thread, once it has ended, and the return to [accept]. *)
Lemma join_steps M cs p t :
  conns_inv M [(p, t)] cs → m_pc M = MWalk p → t ∉ joined (m_main M) → ended M t = true →
  EXIT_SIGNAL (shm (m_sys M)) = false →
  run [AMain; AMain; AMain] M = Ok (Some (set_mpc MAccept (set_main (after_join [t] (m_main M)) M))).
Proof.
  intros HI Hpc Hj He Hsig. cbn [run]. unfold exec at 1, perform, main_step, from_main. rewrite Hpc.
  rewrite (walk_at M cs [] p t [] HI). unfold join_waits. rewrite He, andb_false_r, decide_False by done.
  unfold exec, perform, main_step. simpl. by rewrite Hsig.
Qed.

(** ** Properties *)

(** C11: The server handles one client, then stops: in every reachable state, under
    any interleaving of the main thread, its threads, signals and notifications,
    the main thread is in [accept] only when every connection thread has ended, and at
    most two connections have been accepted.  Once there are two, the main thread never
    leaves the walk of [check_thread_exit] unless the process is ended with a failure,
    and, while it has not ended, the main thread's next step joins a [pthread_t] that
    has been joined; or, when the second thread was given the [pthread_t] of the
    first, the main thread waits for the second thread, joins it, and its step after
    that joins the same [pthread_t] again, for the second node. *)
Theorem one_client_then_double_join M :
  server_reachable M →
  (m_pc M = MAccept → ∀ t u, threads (m_sys M) !! t = Some (Sock u) → s_pc u = SDone) ∧
  (∃ ts, (length ts ≤ 2)%nat ∧ ∀ t, t ∈ ts ↔ connection (m_sys M) t) ∧
  (∀ t1 t2, connection (m_sys M) t1 → connection (m_sys M) t2 → t1 ≠ t2 →
     (∀ M', rtc server_step M M' →
        (∃ p, m_pc M' = MWalk p) ∨ ∃ code, m_pc M' = MDone code ∧ code ≠ 0) ∧
     ((∀ code, m_pc M ≠ MDone code) →
        exec AMain M = Fault BadJoin ∨
        ∃ t b u, (∀ t' a, m_ids M !! t' = Some a → t' = t ∧ a = b) ∧
          threads (m_sys M) !! b = Some (Sock u) ∧
          ((exec AMain M = Ok None ∧ s_pc u ≠ SDone) ∨
           (s_pc u = SDone ∧ ∃ M1, exec AMain M = Ok (Some M1) ∧ exec AMain M1 = Fault BadJoin)))).
Proof.
  intros HM%server_reachable_inv. pose proof HM as [HS (l & cs & HI) HC].
  pose proof (ci_shape _ _ _ HI) as Hs. split_and!.
  - intros Hpc t u Ht. rewrite Hpc in Hs. eapply joined_ended; [done| |done].
    intros b. by apply shape_accept_joined.
  - exists cs. split; [|apply (ci_conns _ _ _ HI)]. rewrite (ci_length _ _ _ HI).
    by eapply shape_length.
  - intros t1 t2 H1 H2 Hne. split.
    + intros M' Hr. destruct (connection_remains M M' t1 HM Hr H1) as [[_ (l' & cs' & HI') _] H1'].
      destruct (connection_remains M M' t2 HM Hr H2) as [_ H2'].
      apply (two_connections_shape M' l' cs' t1 t2 HI' H1' H2' Hne).
    + apply (two_connections_stop M l cs HI), (two_connections_shape M l cs t1 t2 HI H1 H2 Hne).
Qed.

(** C24: A clean exit serves nobody: the server returns success only when it has
    accepted no connection, and everything is then closed and removed; a main
    thread that waits in [accept] never returns success, whatever signal comes; a
    server stopped before its first [accept] closes everything in six steps when no
    timer thread holds the mutex; with a connection in the list the first step of
    [release_all_thread] joins it again; and a client that closes its connection
    before it has read its reply ends the process, with the file left behind. *)
Theorem clean_exit_serves_nobody M :
  server_reachable M →
  (m_pc M = MDone RETCODE_SUCCESS → (∀ t, ¬ connection (m_sys M) t) ∧
     m_stream M = false ∧ m_socket M = false ∧ m_mutex M = false ∧ m_file M = false) ∧
  (m_pc M = MAccept → ∀ M', rtc server_step M M' → m_pc M' ≠ MDone RETCODE_SUCCESS) ∧
  (m_pc M = MTest → EXIT_SIGNAL (shm (m_sys M)) = true → mutex (shm (m_sys M)) = None →
     (∀ t, ¬ connection (m_sys M) t) →
     ∃ M', run (replicate 6 AMain) M = Ok (Some M') ∧ m_pc M' = MDone RETCODE_SUCCESS ∧
       disk (fp (shm (m_sys M'))) = contents (fp (shm (m_sys M)))) ∧
  (∀ t, m_pc M = MRelease → connection (m_sys M) t → exec AMain M = Fault BadJoin) ∧
  (∀ t M', exec (ABroken t) M = Ok (Some M') → m_pc M' = MDone (128 + SIGPIPE) ∧
     m_file M' = true ∧ fp (shm (m_sys M')) = fp (shm (m_sys M))).
Proof.
  intros HM%server_reachable_inv. pose proof HM as [HS (l & cs & HI) [Hr H1 H2 H3 H4]].
  pose proof (ci_shape _ _ _ HI) as Hs. split_and!.
  - intros Hpc. rewrite Hpc in H1, H2, H3, H4, Hs. split_and!; [|by auto..].
    intros t Ht%(ci_conns _ _ _ HI). pose proof (ci_length _ _ _ HI) as Hl.
    inversion Hs; subst; [by apply length_zero_iff_nil in Hl as ->; apply elem_of_nil in Ht|done..].
  - intros Hpc M'. apply accept_never_succeeds; [done|by left].
  - intros Hpc Hsig Hm Hno. destruct (no_connection_list M l cs HI Hno) as [-> ->].
    pose proof (release_none M [] HI) as Hrel. destruct M as [S s ids pc r b1 b2 b3 b4 h]. simpl in *. subst pc.
    cbn [replicate run]. unfold exec at 1, perform, main_step. simpl. rewrite Hsig.
    unfold exec at 1, perform, main_step, from_main. cbn [m_pc set_mpc m_main].
    change (ended _) with (ended (mkServer S s ids MTest r b1 b2 b3 b4 h)) at 1. rewrite Hrel.
    unfold exec, perform, main_step. simpl. rewrite Hm. simpl.
    eexists. split; [reflexivity|]. by split.
  - intros t Hpc Ht%(ci_conns _ _ _ HI). rewrite Hpc in Hs. pose proof (ci_length _ _ _ HI) as Hl.
    unfold exec, perform, main_step, from_main. rewrite Hpc.
    inversion Hs as [pc Hb Hpc' HE1 HJ| |pc p0 t0 Hb Hpc' HE1 HJ| | | |]; subst;
      [by apply length_zero_iff_nil in Hl as ->; apply elem_of_nil in Ht|].
    by rewrite (release_first M cs p0 t0 []) by (done || rewrite <-HJ; set_solver).
  - intros t M' He. pose proof (exec_running _ _ _ He) as Hrun. apply exec_perform in He.
    injection He as He. apply broken_action_ok in He as (-> & u & Hu & Hp).
    destruct (running_in_walk M l cs t u HI Hrun Hu Hp) as [p Hpc]. simpl. by rewrite H4, Hpc by (by rewrite Hpc).
Qed.

(** C39: The timer outlives the stream and the mutex, as nothing deletes it: a timer
    thread that has the mutex writes to the closed stream, and the main thread
    destroys the mutex while such a thread holds it. *)
Theorem timer_outlives_stream M tid u ts :
  server_reachable M → threads (m_sys M) !! tid = Some (Timer u) → in_critical (Timer u) = true →
  (m_pc M ∈ [MShutdown; MDestroy; MRemove] → t_pc u = TWrite → Z.of_nat (length ts) < BUFLEN →
     (Z.to_nat BUFLEN < length (t_frame u))%nat →
     exec (AThread tid (Timestamp ts)) M = Fault BadStream) ∧
  (m_pc M = MDestroy → exec AMain M = Fault BadMutex).
Proof.
  intros HM%server_reachable_inv Hth Hcr. destruct HM as [HS _ HC]. split.
  - intros Hpc Hu Hts Hfr. unfold BUFLEN in *. transitivity (perform (AThread tid (Timestamp ts)) M).
    { unfold exec. destruct (m_pc M); try done. set_solver. }
    unfold perform, thread_action. rewrite Hth. simpl. unfold timer_thread. rewrite Hu.
    unfold strftime, BUFLEN. rewrite bool_decide_eq_true_2 by done.
    rewrite store_bytes_ok by (rewrite length_app; simpl; lia). simpl.
    rewrite load_bytes_ok by (rewrite !length_app; simpl; lia). simpl.
    unfold uses_stream. simpl. rewrite Hu. simpl. rewrite (cl_stream _ HC);
      destruct (m_pc M); try done; set_solver.
  - intros Hpc. unfold exec, perform, main_step. rewrite Hpc.
    apply (si_critical _ HS tid _ Hth) in Hcr. by rewrite Hcr.
Qed.

(** C13: There is a run that serves the first client from [accept] to [accept].  It is
    the schedule in which, once the client is accepted, its thread runs alone to its end
    and then the main thread; each [send] succeeds or fails as [os] says.  It starts in
    any reachable state in which the server waits in [accept], has had no connection, no
    thread holds the mutex and the flag is not set, with the calls after [accept]
    successful.  The packet comes in chunks of at most 127 bytes, with a newline in the
    last chunk only and no NUL in it; and the thread's stack frame goes on after [buf] and
    has no stale newline in [buf].  At the end of the run the packet is in the file, which
    is flushed; the client has got the file and its packet, less the bytes whose [send]
    failed; its socket is closed, and the main thread has joined the thread and waits in
    [accept] again. *)
Theorem first_client_served M ev tid frame cs c os :
  server_reachable M → m_pc M = MAccept → (∀ t, ¬ connection (m_sys M) t) →
  mutex (shm (m_sys M)) = None → EXIT_SIGNAL (shm (m_sys M)) = false →
  threads (m_sys M) !! tid = None → elems (queues (m_main M)) !! ev_node ev = None →
  accepted (m_ret M) ev → stack_ok frame →
  Forall (λ c, chunk_ok c ∧ NL ∉ c) cs → chunk_ok c → NL ∈ c → NUL ∉ c →
  let text := contents (fp (shm (m_sys M))) ++ concat cs ++ c in
  ∃ M', run (AAccepted ev tid frame ::
             (AThread tid <$> connection_events cs c os (length text)) ++
             [AMain; AMain; AMain]) M = Ok (Some M') ∧
    m_pc M' = MAccept ∧ joined (m_main M') = {[ev_thread ev]} ∧
    fp (shm (m_sys M')) = mkFILE text [] ∧
    net (shm (m_sys M')) = reply (ev_fd ev) (delivered os 0 text) (net (shm (m_sys M))) ∧
    ev_fd ev ∉ fds (shm (m_sys M')) ∧ mutex (shm (m_sys M')) = None.
Proof.
  intros [HS (l & conns & HI) HC]%server_reachable_inv Hpc Hno Hm Hsig Ht Hn Ha Hst Hcs Hc Hnl Hnul text.
  destruct (no_connection_list M l conns HI Hno) as [-> ->].
  assert (joined (m_main M) = ∅) as Hj.
  { pose proof (ci_shape _ _ _ HI) as Hs. rewrite Hpc in Hs. by inversion Hs. }
  destruct (accept_run M ev tid frame HI HC Hpc Ht Hn Ha) as (q & Hq & He).
  cbn [run]. rewrite He. set (M1 := with_client _ _ _ _ _ _).
  assert (conns_inv M1 [(ev_node ev, ev_thread ev)] [tid]) as HI1.
  { apply (conns_inv_accept M [] [] ev tid q); try done. set_solver. }
  destruct (run_connection spill tid cs c os (mkST SStart (mkTD (ev_flag ev) (ev_fd ev)) frame 0)
    (open_fd (ev_fd ev) (shm (m_sys M)))) as (fr & n & Hrun); [done..|].
  destruct HC as [_ H2 _ H4 _]. rewrite Hpc in H2, H4.
  eapply (run_thread_actions _ _ _ _ M1) in Hrun as [h Hrun];
    [|done|by apply H2|by apply H4|apply lookup_insert_eq|done].
  rewrite (run_app _ _ _ _ Hrun). set (M2 := set_sys _ M1).
  assert (conns_inv M2 [(ev_node ev, ev_thread ev)] [tid]) as HI2.
  { apply conns_inv_threads; [done| |]; unfold connection; simpl.
    - intros t. destruct (decide (tid = t)) as [<-|]; [|by rewrite !lookup_insert_ne].
      rewrite !lookup_insert_eq. naive_solver.
    - intros t u. destruct (decide (tid = t)) as [<-|].
      + rewrite lookup_insert_eq. by intros [= <-].
      + rewrite !lookup_insert_ne by done. intros Hu Hp. by exists u. }
  rewrite (join_steps M2 [tid] (ev_node ev) (ev_thread ev)); try done.
  - eexists. split; [reflexivity|]. split_and!; try done; simpl; [rewrite Hj; set_solver|set_solver].
  - simpl. rewrite Hj. set_solver.
  - unfold ended, thread_ended, M2, M1. simpl. by rewrite !lookup_insert_eq.
Qed.

End System.

(** ** Concrete executions *)

(** A server whose list has its head at 1, at the loop, and the state that a run
    from there leads to. *)
Definition demo_start : server := server_init (mkQ (<[1:=mkHead 0 (FirstOf 1)]> ∅) ∅) 0.

Definition demo_run (l : list action) : server :=
  match run demo_spill 1 l demo_start with Ok (Some M) => M | _ => demo_start end.

Lemma demo_started : started 1 demo_start.
Proof.
  exists demo_env, 3, 0, (mkTime 15 7), (mkQ (<[1:=mkHead 5 (NextOf 5)]> ∅) ∅).
  eexists. split; [reflexivity|]. split; [done|]. split; [by eexists|]. by split.
Qed.

Lemma demo_server_reachable l :
  run demo_spill 1 l demo_start = Ok (Some (demo_run l)) → server_reachable demo_spill 1 (demo_run l).
Proof. intros H. exists demo_start. split; [exact demo_started|]. by eapply run_steps. Qed.

(** A client of thread 7 that sends two bytes, and what the server is after it and one
    more client, thread 8, with the [pthread_t] of its own or that of the first. *)
Definition demo_client : list action :=
  AAccepted (demo_event 4 100 7 10) 7 demo_frame ::
  (AThread 7 <$> connection_events [] [66; NL] (λ _, true) 2) ++ [AMain; AMain; AMain].

Definition demo_second (t : Z) : server :=
  demo_run (AMain :: demo_client ++ [AAccepted (demo_event 5 200 t 20) 8 demo_frame]).

Lemma one_client_then_double_join_witness :
  exec demo_spill 1 AMain (demo_second 8) = Fault BadJoin ∧
  exec demo_spill 1 AMain (demo_second 7) = Ok None ∧
  m_ids (demo_second 7) !! 7 = Some 8.
Proof.
  assert (∀ t, t = 7 ∨ t = 8 → server_reachable demo_spill 1 (demo_second t)) as Hr.
  { intros t [-> | ->]; apply demo_server_reachable; vm_compute; reflexivity. }
  destruct (one_client_then_double_join demo_spill 1 (demo_second 8)) as (_ & _ & H8); [apply Hr; by right|].
  destruct (one_client_then_double_join demo_spill 1 (demo_second 7)) as (_ & _ & H7); [apply Hr; by left|].
  split; [|split; [|vm_compute; reflexivity]].
  - destruct (H8 7 8) as [_ H]; [by eexists; vm_compute|by eexists; vm_compute|done|].
    destruct H as [H|(t & b & u & H & _)]; [intros code E; vm_compute in E; discriminate E|exact H|].
    destruct (H 7 7) as [_ <-]; [vm_compute; reflexivity|].
    destruct (H 8 8) as [_ E]; [vm_compute; reflexivity|discriminate E].
  - destruct (H7 7 8) as [_ H]; [by eexists; vm_compute|by eexists; vm_compute|done|].
    destruct H as [H|(t & b & u & H & Hu & Hx)]; [intros code E; vm_compute in E; discriminate E| |].
    + vm_compute in H. discriminate H.
    + destruct (H 7 8) as [_ <-]; [vm_compute; reflexivity|]. vm_compute in Hu. injection Hu as <-.
      destruct Hx as [[Hx _]|[Hx _]]; [exact Hx|discriminate Hx].
Defined.

Lemma clean_exit_serves_nobody_witness :
  let M := demo_run (ASignal SIGTERM :: replicate 6 AMain) in
  m_pc M = MDone RETCODE_SUCCESS ∧ (∀ t, ¬ connection (m_sys M) t) ∧ m_file M = false.
Proof.
  intros M. assert (m_pc M = MDone RETCODE_SUCCESS) as Hpc by (vm_compute; reflexivity).
  destruct (clean_exit_serves_nobody demo_spill 1 M) as (H & _).
  - apply demo_server_reachable. vm_compute. reflexivity.
  - destruct (H Hpc) as (H1 & _ & _ & _ & H2). split; [exact Hpc|]. split; [exact H1|exact H2].
Defined.

(** A notification comes before the signal, and its thread is between [time] and
    [fwrite] while the main thread closes the stream. *)
Lemma timer_outlives_stream_witness :
  let M := demo_run [ATick 2 demo_frame; AThread 2 Tau; AThread 2 Tau; ASignal SIGINT;
                     AMain; AMain; AMain; AMain] in
  exec demo_spill 1 (AThread 2 (Timestamp [84; NL])) M = Fault BadStream ∧
  exec demo_spill 1 AMain M = Fault BadMutex.
Proof.
  intros M. destruct (timer_outlives_stream demo_spill 1 M 2
    (mkTT TWrite (<[Z.to_nat BUFLEN:=NUL]> demo_frame)) [84; NL]) as [H1 H2].
  - apply demo_server_reachable. vm_compute. reflexivity.
  - vm_compute. reflexivity.
  - reflexivity.
  - split.
    + apply H1; [|reflexivity|vm_compute; reflexivity|vm_compute; lia].
      right. left.
    + apply H2. vm_compute. reflexivity.
Defined.

Lemma first_client_served_witness :
  ∃ M', run demo_spill 1 demo_client (demo_run [AMain]) = Ok (Some M') ∧
    m_pc M' = MAccept ∧ net (shm (m_sys M')) !! 4 = Some [66; NL].
Proof.
  destruct (first_client_served demo_spill 1 (demo_run [AMain]) (demo_event 4 100 7 10) 7 demo_frame
    [] [66; NL] (λ _, true)) as (M' & Hr & Hpc & _ & _ & Hnet & _).
  - apply demo_server_reachable. vm_compute. reflexivity.
  - reflexivity.
  - intros t [u Hu]. discriminate Hu.
  - reflexivity.
  - reflexivity.
  - reflexivity.
  - reflexivity.
  - by split.
  - apply demo_stack_ok.
  - by apply list.Forall_nil.
  - unfold chunk_ok, BUFLEN. simpl. lia.
  - unfold NL. set_solver.
  - unfold NUL, NL. set_solver.
  - exists M'. split; [exact Hr|]. split; [exact Hpc|]. rewrite Hnet. reflexivity.
Defined.
