(* ===== verification/ServerProgress.v ===== *)
(** * Progress and termination of the whole server

    What the server of [ServerSystem] can wait for, and that after the signal its
    threads stop.  [internal] are the steps of the main thread and of the threads
    that have started, with any answers of the outside; [budget] is how many of them
    can still come once the flag is set, if no client and no notification comes any
    more. *)
From Stdlib Require Import ZArith Lia.
From stdpp Require Import base tactics list gmap sets numbers.
From S2P Require Import Prelude CMemory Server QueueMemory TailQueue ServerMain ServerSystem.

(** ** Measures *)

(** The sum of a measure of the threads. *)
Definition thread_sum (f : thread → nat) (m : gmap Z thread) : nat :=
  sum_list_with (λ p, f p.2) (map_to_list m).

(** How many bytes a thread can still add to the file once the flag is set. *)
Definition may_write (th : thread) : nat :=
  match th with
  | Sock t => match s_pc t with SRecv => 127 | _ => 0 end
  | Timer t => match t_pc t with TStart | TLock | TWrite => 127 | _ => 0 end
  end.

(** How many steps a thread can still take once the flag is set, when the file never
    has more than [B] bytes. *)
Definition steps_left (B : nat) (th : thread) : nat :=
  match th with
  | Sock t => match s_pc t with
    | SStart => B + 8 | SLock | SRecv => B + 7 | SWhile => B + 6 | SFopen => B + 5
    | SSend i => (B - i) + 4 | SClose => 3 | SUnlock => 2 | SExit | SErrUnlock => 1 | SDone => 0
    end
  | Timer t => match t_pc t with
    | TStart => 4 | TLock => 3 | TWrite => 2 | TUnlock => 1 | TDone => 0
    end
  end.

(** The walk joins at most one thread and then is at the end of the list, or at a second
    node whose join fails. *)
Definition main_left (pc : mpc) (joined : gset Z) : nat :=
  match pc with
  | MWalk p => if p =? NULL then 7 else 8 + (if decide (joined = ∅) then 1 else 0)
  | MTest => 6 | MRelease => 5 | MFclose => 4 | MShutdown => 3 | MDestroy => 2 | MRemove => 1
  | MAccept | MDone _ => 0
  end.

(** The most bytes that the file will have. *)
Definition file_bound (S : sys) : nat :=
  length (contents (fp (shm S))) + thread_sum may_write (threads S).

Definition budget (M : server) : nat :=
  thread_sum (steps_left (file_bound (m_sys M))) (threads (m_sys M)) +
  main_left (m_pc M) (joined (m_main M)).

(** The steps of the main thread and of the threads that have started. *)
Definition internal (a : action) : Prop :=
  match a with AThread _ _ | AMain => True | _ => False end.

(** ** Sums over the threads *)

Lemma thread_sum_insert f m i th th' :
  m !! i = Some th → (thread_sum f (<[i:=th']> m) + f th = thread_sum f m + f th')%nat.
Proof.
  intros Hi. unfold thread_sum. rewrite <-insert_delete_eq.
  rewrite map_to_list_insert by apply lookup_delete_eq.
  rewrite <-(map_to_list_delete m i th Hi). simpl. lia.
Qed.

Lemma thread_sum_mono f g m : (∀ th, (f th ≤ g th)%nat) → (thread_sum f m ≤ thread_sum g m)%nat.
Proof.
  intros H. unfold thread_sum. induction (map_to_list m) as [|p l IH]; simpl; [done|].
  specialize (H p.2). lia.
Qed.

Lemma steps_left_mono B B' th : (B ≤ B')%nat → (steps_left B th ≤ steps_left B' th)%nat.
Proof. destruct th as [t|t]; simpl; [destruct (s_pc t)|destruct (t_pc t)]; lia. Qed.

Section Progress.
Context (spill : list Z → nat) (head : Z).

(** ** Steps of the threads *)

(** A thread that has not ended can take a step unless it waits for the mutex. *)
Lemma step_possible tid th sh :
  (match th with Sock t => s_pc t ≠ SDone | Timer t => t_pc t ≠ TDone end) →
  (match th with Sock t => s_pc t = SLock | Timer t => t_pc t = TLock end → mutex sh = None) →
  ∃ ev, thread_step spill tid ev th sh ≠ Ok None.
Proof.
  destruct th as [t|t]; simpl; intros Hd Hl.
  - unfold thread_socket_receive. destruct (s_pc t) eqn:Hpc; try done;
      try (exists Tau; done); [| | |].
    + exists Tau. by destruct (terminate_buf (s_frame t)).
    + exists Tau. by rewrite Hl.
    + by exists RecvErr.
    + unfold send_step. destruct (disk (fp sh) !! i); [by exists SendOk|by exists Tau].
  - unfold timer_thread. destruct (t_pc t) eqn:Hpc; try done; try (exists Tau; done); [|].
    + exists Tau. rewrite Hl by done. by destruct (terminate_buf (t_frame t)).
    + exists (Timestamp (replicate 128 0)). unfold strftime. rewrite bool_decide_eq_false_2.
      2:{ unfold BUFLEN. rewrite length_replicate. lia. }
      simpl. rewrite load_bytes_ok by lia. done.
Qed.

(** What a step does to the flag, to the bytes that may come and to the steps that
    are left. *)
Definition measured (th th' : thread) (sh sh' : shared) (bs : list Z) : Prop :=
  EXIT_SIGNAL sh' = EXIT_SIGNAL sh ∧
  (EXIT_SIGNAL sh = true → (length bs + may_write th' ≤ may_write th)%nat ∧
   ∀ B, (length (contents (fp sh)) ≤ B)%nat → (steps_left B th' < steps_left B th)%nat).

Lemma receive_measured tid ev t sh t' sh' :
  thread_socket_receive spill tid ev t sh = Ok (Some (t', sh')) →
  measured (Sock t) (Sock t') sh sh' (default [] (writes_of (Sock t) ev)).
Proof.
  unfold thread_socket_receive, measured. simpl. intros E.
  destruct (s_pc t) eqn:Hpc; [..|destruct ev; discriminate E].
  6:{ unfold send_step in E. destruct (disk (fp sh) !! i) eqn:Hi, ev; simplify_eq/=;
        (split; [done|intros _; split; [lia|intros B HB]]); try lia.
      all: apply lookup_lt_Some in Hi; unfold contents in HB; rewrite length_app in HB; lia. }
  all: destruct ev; try discriminate E.
  5:{ case_bool_decide as Hbs; [|discriminate E].
      apply received_inv in E as (t2 & sh2 & Hr & _ & Hs & _ & Hp). simplify_eq/=.
      split; [done|]. intros _. unfold BUFLEN in Hbs. destruct Hp as [-> | ->]; split; lia. }
  2:{ destruct (mutex sh); [discriminate E|]. injection E as <- <-. simpl. split; [done|]. split; lia. }
  1:{ apply res_bind_ok in E as (fr & _ & E). injection E as <- <-. simpl. split; [done|]. split; lia. }
  all: injection E as <- <-; simpl; split; [done|]; intros Hsig; rewrite ?Hsig; split; lia.
Qed.

Lemma timer_measured tid ev t sh t' sh' :
  timer_thread spill tid ev t sh = Ok (Some (t', sh')) →
  measured (Timer t) (Timer t') sh sh' (default [] (writes_of (Timer t) ev)).
Proof.
  unfold timer_thread, measured. simpl. intros E.
  destruct (t_pc t) eqn:Hpc, ev; try discriminate E.
  - injection E as <- <-. simpl. split; [done|]. split; lia.
  - destruct (mutex sh); [discriminate E|].
    apply res_bind_ok in E as (fr & _ & E). injection E as <- <-. simpl. split; [done|]. split; lia.
  - apply res_bind_ok in E as (r & _ & E). apply res_bind_ok in E as (out & _ & E).
    injection E as <- <-. simpl. split; [done|]. intros _.
    case_bool_decide as Hts; unfold BUFLEN in Hts; simpl; split; lia.
  - injection E as <- <-. simpl. split; [done|]. split; lia.
Qed.

Lemma step_measured tid ev th sh th' sh' :
  thread_step spill tid ev th sh = Ok (Some (th', sh')) →
  measured th th' sh sh' (default [] (writes_of th ev)).
Proof.
  destruct th as [t|t]; simpl; intros H.
  - destruct (thread_socket_receive spill tid ev t sh) as [[[t1 sh1]|]|] eqn:E; simplify_eq.
    by eapply receive_measured.
  - destruct (timer_thread spill tid ev t sh) as [[[t1 sh1]|]|] eqn:E; simplify_eq.
    by eapply timer_measured.
Qed.

(** ** Steps of the server *)

Lemma thread_action_budget tid ev M M' :
  EXIT_SIGNAL (shm (m_sys M)) = true → thread_action spill tid ev M = Ok (Some M') →
  EXIT_SIGNAL (shm (m_sys M')) = true ∧ (budget M' < budget M)%nat.
Proof.
  intros Hsig (th & th' & sh' & Hth & Hst & ->)%thread_action_ok.
  pose proof (thread_step_spec _ _ _ _ _ _ _ Hst) as (_ & _ & Hc & _).
  destruct (step_measured _ _ _ _ _ _ Hst) as [Hf Hm]. destruct (Hm Hsig) as [Hw Hs].
  split; [simpl; congruence|]. unfold budget. simpl.
  set (S' := mkSys _ sh' _).
  assert (file_bound S' ≤ file_bound (m_sys M))%nat as Hb.
  { unfold file_bound, S'. simpl. rewrite Hc, length_app.
    pose proof (thread_sum_insert may_write _ tid th th' Hth). lia. }
  pose proof (thread_sum_mono _ (steps_left (file_bound (m_sys M))) (<[tid:=th']> (threads (m_sys M)))
    (λ u, steps_left_mono _ _ u Hb)).
  pose proof (thread_sum_insert (steps_left (file_bound (m_sys M))) _ tid th th' Hth).
  assert (steps_left (file_bound (m_sys M)) th' < steps_left (file_bound (m_sys M)) th)%nat.
  { apply Hs. unfold file_bound. lia. }
  lia.
Qed.

(** The steps of the walk and of the release, by the connections there are. *)
Lemma walk_step_left M l cs p pc s :
  conns_inv head M l cs → m_pc M = MWalk p → walk_step (ended M) p (m_main M) = Ok (Some pc, s) →
  (main_left pc (joined s) < main_left (MWalk p) (joined (m_main M)))%nat.
Proof.
  intros HI Hpc. pose proof (ci_shape _ _ _ _ HI) as Hs. rewrite Hpc in Hs.
  destruct (Z.eqb_spec p NULL) as [->|Hp]; [unfold walk_step; simpl; intros [= <- _]; simpl; lia|].
  assert (∀ t p', joined (m_main M) = ∅ → pc = MWalk p' → s = after_join [t] (m_main M) →
    (main_left pc (joined s) < main_left (MWalk p) (joined (m_main M)))%nat) as Hjoin.
  { intros t p' Hj -> ->. simpl. rewrite Hj. destruct (Z.eqb_spec p NULL); [done|].
    rewrite (decide_True (P := ∅ = ∅)), decide_False by set_solver. destruct (p' =? NULL); lia. }
  inversion Hs as [? E|? t HE1 HE2 HJ|? p0 t Hb HE1 HE2 HJ|? t p' t' HE1 HE2 HJ|? t p' HE1 HE2 HJ|p0 t ? HE1 HE2 HJ|];
    subst; [discriminate E|..].
  - rewrite (walk_at head M cs [] p t [] HI). destruct (join_waits _ _ _); [done|].
    destruct (decide _); [done|]. intros [= <- <-]. rewrite ?HJ. by eapply Hjoin.
  - simpl in Hb. by apply Z.eqb_eq in Hb.
  - by rewrite (walk_again head M cs [] p t [(p', t')] HI) by (rewrite <-HJ; set_solver).
  - rewrite (walk_at head M cs [] p t [(p', t)] HI). destruct (join_waits _ _ _); [done|].
    destruct (decide _); [done|]. intros [= <- <-]. rewrite ?HJ. by eapply Hjoin.
  - by rewrite (walk_again head M cs [(p0, t)] p t [] HI) by (rewrite <-HJ; set_solver).
Qed.

Lemma release_step_left M l cs pc s :
  conns_inv head M l cs → m_pc M = MRelease →
  release_iteration head (ended M) (m_main M) = Ok (Some pc, s) → pc = MFclose.
Proof.
  intros HI Hpc. pose proof (ci_shape _ _ _ _ HI) as Hs. rewrite Hpc in Hs.
  inversion Hs as [? Hb HE1 HE2 E| |? p0 t Hb HE1 HE2 HJ| | | |]; subst.
  - rewrite (release_none head M cs) by done. by intros [= <- _].
  - by rewrite (release_first head M cs p0 t []) by (set_solver || done).
Qed.

Lemma main_step_budget M l cs M' :
  conns_inv head M l cs → closing_inv M → EXIT_SIGNAL (shm (m_sys M)) = true →
  main_step head M = Ok (Some M') →
  EXIT_SIGNAL (shm (m_sys M')) = true ∧ (budget M' < budget M)%nat.
Proof.
  intros HI HC Hsig Hm.
  assert (main_left (m_pc M') (joined (m_main M')) < main_left (m_pc M) (joined (m_main M)))%nat as Hl.
  { unfold main_step in Hm. destruct (m_pc M) eqn:Hpc; try discriminate Hm.
    - injection Hm as <-. rewrite Hsig. simpl. lia.
    - unfold from_main in Hm. destruct (walk_step _ _ _) as [[[pc|] s]|] eqn:E; try discriminate Hm.
      injection Hm as <-. by eapply walk_step_left.
    - unfold from_main in Hm. destruct (release_iteration _ _ _) as [[[pc|] s]|] eqn:E; try discriminate Hm.
      injection Hm as <-. apply (release_step_left M l cs) in E as ->; [simpl; lia|done..].
    - injection Hm as <-. simpl. lia.
    - injection Hm as <-. simpl. lia.
    - destruct (mutex _); [discriminate Hm|]. injection Hm as <-. simpl. lia.
    - injection Hm as <-. simpl. lia. }
  destruct (main_step_inv spill head M l cs M' HI HC Hm) as (_ & _ & HS). unfold budget.
  destruct HS as [-> | ->]; [split; [done|lia]|]. split; [done|].
  assert (file_bound (mkSys (threads (m_sys M)) (flush_stream (shm (m_sys M))) (history (m_sys M))) =
          file_bound (m_sys M)) as ->.
  { unfold file_bound. simpl. by rewrite contents_fflush. }
  simpl. lia.
Qed.

Lemma exec_budget a M M' :
  server_inv head M → EXIT_SIGNAL (shm (m_sys M)) = true → internal a →
  exec spill head a M = Ok (Some M') →
  EXIT_SIGNAL (shm (m_sys M')) = true ∧ (budget M' < budget M)%nat.
Proof.
  intros [_ (l & cs & HI) HC] Hsig Ha H%exec_perform. destruct a as [tid ev| | | | |]; try done; simpl in H.
  - by eapply thread_action_budget.
  - by eapply main_step_budget.
Qed.

Lemma run_budget l M M' :
  server_inv head M → EXIT_SIGNAL (shm (m_sys M)) = true → Forall internal l →
  run spill head l M = Ok (Some M') →
  server_inv head M' ∧ EXIT_SIGNAL (shm (m_sys M')) = true ∧ (length l + budget M' ≤ budget M)%nat.
Proof.
  intros HM Hsig Hl. revert M HM Hsig. induction Hl as [|a l Ha _ IH]; intros M HM Hsig; simpl.
  { intros [= <-]. by split_and!. }
  destruct (exec spill head a M) as [[M1|]|] eqn:E; [|done..]. intros Hr.
  destruct (exec_budget a M M1 HM Hsig Ha E) as [Hsig1 Hb].
  destruct (IH M1) as (H1 & H2 & H3); [by eapply exec_inv|done..|]. split_and!; [done..|lia].
Qed.

(** ** What the server waits for *)

(** A join of a node of the walk that blocks is of the one [pthread_t] there is. *)
Lemma walk_blocked M cs l1 p t l2 :
  conns_inv head M (l1 ++ (p, t) :: l2) cs → (∀ t', t' ∈ (l1 ++ (p, t) :: l2).*2 → t' = t) →
  t ∉ joined (m_main M) → walk_step (ended M) p (m_main M) = Ok (None, m_main M) →
  ∃ a u, m_ids M !! t = Some a ∧ threads (m_sys M) !! a = Some (Sock u) ∧ s_pc u ≠ SDone ∧
    (∀ b v, threads (m_sys M) !! b = Some (Sock v) → b ≠ a → s_pc v = SDone).
Proof.
  intros HI Hone Hj Hw. destruct (join_waits_thread head M _ cs t HI) as (a & u & Ha & Hu & Hdone); [|done|].
  { rewrite fmap_app. set_solver. }
  exists a, u. split_and!; [done..| |].
  - intros Hp. apply Hdone in Hp. rewrite (walk_at head M cs l1 p t l2 HI), Hp, decide_False in Hw by done.
    discriminate Hw.
  - intros b v Hv Hne. destruct (decide (s_pc v = SDone)) as [|Hp]; [done|].
    destruct (ci_running _ _ _ _ HI b v Hv Hp) as (t' & Hb & _).
    assert (t' = t) as -> by (apply Hone, (ci_ids _ _ _ _ HI); by eexists). congruence.
Qed.

(** The main thread is blocked in a join only. *)
Lemma main_blocked M l cs :
  conns_inv head M l cs → (∀ code, m_pc M ≠ MDone code) → m_pc M ≠ MAccept →
  main_step head M = Ok None →
  ∃ p t a u, m_pc M = MWalk p ∧ m_ids M !! t = Some a ∧ threads (m_sys M) !! a = Some (Sock u) ∧
    s_pc u ≠ SDone ∧ (∀ b v, threads (m_sys M) !! b = Some (Sock v) → b ≠ a → s_pc v = SDone).
Proof.
  intros HI Hd Hacc Hm. pose proof (ci_shape _ _ _ _ HI) as Hs. unfold main_step, from_main in Hm.
  destruct (m_pc M) as [| |p| | | | | |code] eqn:Hpc; try discriminate Hm; try done.
  - assert (∀ s, walk_step (ended M) p (m_main M) = Ok (None, s) → s = m_main M) as Hsame.
    { intros s. unfold walk_step, mbind, st_bind, st_get. destruct (p =? NULL); [done|].
      destruct (node_at p (m_main M)) as [[nd s1]|] eqn:En; [|done].
      assert (s1 = m_main M) as -> by (revert En; unfold node_at; by destruct (lookup_at _ _) as [?|]; intros [= <-]).
      destruct (_ && _); [by intros [= <-]|].
      destruct (check_thread_exit_body _ _) as [[[] s2]|]; [|done]. by destruct (q_read _ _ _) as [[]|]. }
    destruct (walk_step _ _ _) as [[[pc|] s]|] eqn:Hw; try discriminate Hm. specialize (Hsame s eq_refl) as ->.
    inversion Hs as [? E|? t HE1 HE2 HJ|? p0 t Hb HE1 HE2 HJ|? t p' t' HE1 HE2 HJ|? t p' HE1 HE2 HJ|p0 t ? HE1 HE2 HJ|];
      subst; [discriminate E|..].
    + destruct (walk_blocked M cs [] p t [] HI) as (a & u & H); [simpl; set_solver..|done|].
      by exists p, t, a, u.
    + simpl in Hb. apply Z.eqb_eq in Hb as ->. discriminate Hw.
    + by rewrite (walk_again head M cs [] p t [(p', t')] HI) in Hw by (rewrite <-HJ; set_solver).
    + destruct (walk_blocked M cs [] p t [(p', t)] HI) as (a & u & H); [simpl; set_solver..|done|].
      by exists p, t, a, u.
    + by rewrite (walk_again head M cs [(p0, t)] p t [] HI) in Hw by (rewrite <-HJ; set_solver).
  - inversion Hs as [? Hb HE1 HE2 E| |? p0 t Hb HE1 HE2 HJ| | | |]; subst.
    + by rewrite (release_none head M cs) in Hm by done.
    + by rewrite (release_first head M cs p0 t []) in Hm by (set_solver || done).
  - by destruct (mutex _).
  - by destruct (Hd code).
Qed.

Lemma thread_can_step M tid th :
  (∀ code, m_pc M ≠ MDone code) → threads (m_sys M) !! tid = Some th →
  (match th with Sock t => s_pc t ≠ SDone | Timer t => t_pc t ≠ TDone end) →
  (match th with Sock t => s_pc t = SLock | Timer t => t_pc t = TLock end → mutex (shm (m_sys M)) = None) →
  ∃ ev, exec spill head (AThread tid ev) M ≠ Ok None.
Proof.
  intros Hd Hth Hdone Hlock. destruct (step_possible tid th (shm (m_sys M)) Hdone Hlock) as [ev Hev].
  exists ev. unfold exec. destruct (m_pc M) eqn:Hpc; try (by destruct (Hd code)).
  all: simpl; unfold thread_action; rewrite Hth;
    destruct (thread_step spill tid ev th _) as [[[th' sh']|]|]; try done;
    destruct (uses_stream th ev && _); try done; by destruct (uses_mutex th && _).
Qed.

(** The connection thread [t] that the main thread waits for is in [recv], or can take
    a step, or waits for the mutex and its owner, a timer thread, can take a step. *)
Definition client_or_step (M : server) (t : Z) (u : sthread) : Prop :=
  match s_pc u with
  | SRecv => True
  | SLock =>
    match mutex (shm (m_sys M)) with
    | None => ∃ ev, exec spill head (AThread t ev) M ≠ Ok None
    | Some o => ∃ v ev, threads (m_sys M) !! o = Some (Timer v) ∧
        exec spill head (AThread o ev) M ≠ Ok None
    end
  | _ => ∃ ev, exec spill head (AThread t ev) M ≠ Ok None
  end.

Lemma blocked_waits M :
  server_inv head M → (∀ code, m_pc M ≠ MDone code) → m_pc M ≠ MAccept →
  exec spill head AMain M = Ok None →
  ∃ p t a u, m_pc M = MWalk p ∧ m_ids M !! t = Some a ∧ threads (m_sys M) !! a = Some (Sock u) ∧
    s_pc u ≠ SDone ∧ (∀ b v, threads (m_sys M) !! b = Some (Sock v) → b ≠ a → s_pc v = SDone) ∧
    client_or_step M a u.
Proof.
  intros [HS (l & cs & HI) HC] Hd Hacc Hm. rewrite exec_main in Hm by done.
  destruct (main_blocked M l cs HI Hd Hacc Hm) as (p & t & a & u & Hpc & Hid & Hu & Hdone & Honly).
  exists p, t, a, u. split_and!; [done..|]. unfold client_or_step.
  destruct (s_pc u) eqn:Hup; try done;
    try (apply (thread_can_step M a (Sock u) Hd Hu); congruence).
  destruct (mutex (shm (m_sys M))) as [o|] eqn:Ho.
  - destruct (si_owner _ HS o Ho) as [th Hth].
    pose proof (proj2 (si_critical _ HS o th Hth) Ho) as Hcr. destruct th as [v|v].
    + destruct (decide (o = a)) as [->|Hne].
      * rewrite Hu in Hth. injection Hth as <-. simpl in Hcr. by rewrite Hup in Hcr.
      * simpl in Hcr. by rewrite (Honly o v Hth Hne) in Hcr.
    + exists v. simpl in Hcr.
      destruct (thread_can_step M o (Timer v) Hd Hth) as [ev Hev]; [|..|by exists ev];
        intros E; by rewrite E in Hcr.
  - by apply (thread_can_step M a (Sock u) Hd Hu); congruence.
Qed.

(** ** Properties *)

(** C14: The server waits for nothing but its clients: in every reachable state, under
    any interleaving, the main thread is in [accept], or has a step (which may be a
    fault), or is blocked in the join of the only connection thread that has not ended,
    and that thread is in [recv], or has a step, or waits for the mutex while a timer
    thread that has a step holds it.  So the locks and the joins never form a deadlock,
    and a client that sends nothing keeps the main thread from the next [accept]. *)
Theorem server_waits_only_for_clients M :
  server_reachable spill head M → (∀ code, m_pc M ≠ MDone code) →
  m_pc M = MAccept ∨ exec spill head AMain M ≠ Ok None ∨
  ∃ p t a u, m_pc M = MWalk p ∧ m_ids M !! t = Some a ∧ threads (m_sys M) !! a = Some (Sock u) ∧
    s_pc u ≠ SDone ∧ (∀ b v, threads (m_sys M) !! b = Some (Sock v) → b ≠ a → s_pc v = SDone) ∧
    client_or_step M a u.
Proof.
  intros HM Hd. destruct (decide (m_pc M = MAccept)) as [|Hacc]; [by left|right].
  destruct (exec spill head AMain M) as [[M'|]|] eqn:E; [by left| |by left].
  right. apply blocked_waits; try done. by apply (server_reachable_inv spill).
Qed.

(** C15: The signal stops the server: once the flag is set, and when no client and no
    notification comes any more, the main thread and the threads that have started
    take at most [budget] steps, whatever the clients send and however the steps
    interleave; and when none of them can take a step the process has ended or the
    main thread is in [accept]. *)
Theorem signal_stops_server M l M' :
  server_reachable spill head M → EXIT_SIGNAL (shm (m_sys M)) = true → Forall internal l →
  run spill head l M = Ok (Some M') →
  (length l ≤ budget M)%nat ∧
  ((∀ a, internal a → exec spill head a M' = Ok None) →
     (∃ code, m_pc M' = MDone code) ∨ m_pc M' = MAccept).
Proof.
  intros HM%(server_reachable_inv spill) Hsig Hl Hr.
  destruct (run_budget l M M' HM Hsig Hl Hr) as (HM' & _ & Hb). split; [lia|]. intros Hno.
  destruct (m_pc M') eqn:Hpc; eauto.
  all: destruct (blocked_waits M') as (q & t0 & t & u & Hpc' & _ & Hu & Hdone & _ & Hw);
    [done|intros code; by rewrite Hpc|by rewrite Hpc|by apply Hno|]; try congruence.
  exfalso. unfold client_or_step in Hw.
  assert (∀ o ev, exec spill head (AThread o ev) M' ≠ Ok None → False) as Hno'.
  { intros o ev Hev. by apply Hev, Hno. }
  destruct (decide (s_pc u = SRecv)) as [Hup|Hup].
  { destruct (thread_can_step M' t (Sock u)) as [ev Hev]; [intros code; by rewrite Hpc|done..| |].
    - by rewrite Hup.
    - by apply (Hno' t ev). }
  destruct (s_pc u); try done; try (destruct Hw as [ev Hev]; by apply (Hno' t ev)).
  destruct (mutex (shm (m_sys M'))) as [o|]; [destruct Hw as (v & ev & _ & Hev)|destruct Hw as [ev Hev]];
    by eapply Hno'.
Qed.

End Progress.

(** ** Concrete executions *)

(** A client is in [recv] when the signal comes: it still sends a byte, is answered with
    what the file holds, its thread ends and is joined, and the main thread goes on to
    the release of its list. *)
Definition demo_receiving : server :=
  demo_run (AMain :: AAccepted (demo_event 4 100 7 10) 7 demo_frame ::
    replicate 3 (AThread 7 Tau) ++ [ASignal SIGTERM]).

Definition demo_stopping : list action :=
  [AThread 7 (RecvData [66])] ++ replicate 6 (AThread 7 Tau) ++ [AMain; AMain; AMain].

Definition demo_stopped : server :=
  match run demo_spill 1 demo_stopping demo_receiving with Ok (Some M) => M | _ => demo_receiving end.

Lemma server_waits_only_for_clients_witness :
  ∃ p t u, m_pc demo_receiving = MWalk p ∧ t = 7 ∧
    threads (m_sys demo_receiving) !! t = Some (Sock u) ∧ s_pc u = SRecv.
Proof.
  destruct (server_waits_only_for_clients demo_spill 1 demo_receiving)
    as [H|[H|(p & t & a & u & Hpc & _ & Hu & _ & Honly & _)]].
  - apply demo_server_reachable. vm_compute. reflexivity.
  - intros code E. vm_compute in E. discriminate E.
  - vm_compute in H. discriminate H.
  - exfalso. apply H. vm_compute. reflexivity.
  - assert (a = 7) as ->.
    { destruct (decide (7 = a)) as [|Hne]; [done|].
      specialize (Honly 7 _ ltac:(vm_compute; reflexivity) Hne). discriminate Honly. }
    exists p, 7, u. split_and!; [exact Hpc|reflexivity|exact Hu|].
    vm_compute in Hu. injection Hu as <-. reflexivity.
Defined.

Lemma signal_stops_server_witness :
  run demo_spill 1 demo_stopping demo_receiving = Ok (Some demo_stopped) ∧
  (length demo_stopping ≤ budget demo_receiving)%nat ∧ m_pc demo_stopped = MRelease.
Proof.
  assert (run demo_spill 1 demo_stopping demo_receiving = Ok (Some demo_stopped)) as Hr
    by (vm_compute; reflexivity).
  destruct (signal_stops_server demo_spill 1 demo_receiving demo_stopping demo_stopped) as [Hb _].
  - apply demo_server_reachable. vm_compute. reflexivity.
  - reflexivity.
  - repeat (apply list.Forall_cons; split; [exact I|]). constructor.
  - exact Hr.
  - split; [exact Hr|]. split; [exact Hb|reflexivity].
Defined.
