(* ===== verification/SystemCalls.v ===== *)
(** * The system call examples

    Models [src/examples/systemcalls/systemcalls.c]: [do_system], [do_exec] and
    [do_exec_redirect].  The calls of the operating system are parameters; how a
    process ended is encoded in a wait status as the Linux ABI does, and
    [WEXITSTATUS] decodes it.  The children that have ended and have not been
    waited for are a list, which [wait] takes from the front. *)
From Stdlib Require Import ZArith Lia.
From stdpp Require Import base tactics list gmap sets numbers.
From S2P Require Import Prelude.

(** ** Wait statuses *)

Inductive termination : Type :=
| Exited (code : Z)
| Killed (sig : Z).

Definition status_of (t : termination) : Z :=
  match t with
  | Exited code => Z.shiftl (Z.land code 255) 8
  | Killed sig => Z.land sig 127
  end.

Definition WEXITSTATUS (status : Z) : Z := Z.shiftr (Z.land status 65280) 8.

(** ** do_system *)

(** [system] returns a status, or -1, and may set [errno]. *)
Definition do_system (system : list Z → Z * option Z) (cmd : option (list Z)) (errno : Z)
    : bool * Z :=
  match cmd with
  | None => (false, errno)
  | Some cmd =>
    let '(ret, e) := system cmd in
    let errno_local := default errno e in
    (if (ret =? -1) || (ret =? 127) || negb (errno_local =? 0) then false else true,
     errno_local)
  end.

(** ** do_exec *)

(** The state of the calling process: its descriptors (each with the file it is
    open on) and its ended children with their statuses. *)
Record process : Type := mkProc {
  fds : gmap Z Z;
  zombies : list (Z * Z)
}.

(** The answers of the operating system: the descriptor of [open] (with the file it
    is on), the pid of [fork], and what becomes of an [execv]: the program runs
    with the given standard output and ends, or the call returns with an
    [errno]. *)
Record os : Type := mkOs {
  os_open : list Z → Z * Z;
  os_fork : Z;
  os_execv : list (option (list Z)) → option Z → termination + Z
}.

(** The array [command] of [count + 1] pointers, the last one null. *)
Definition command_array (count : nat) (args : list (list Z)) : list (option (list Z)) :=
  (Some <$> take count args) ++ [None].

(** The child after the [fork]: an [execv] that returns has failed. *)
Definition child (o : os) (command : list (option (list Z))) (stdout : option Z) : termination :=
  match os_execv o command stdout with
  | inl t => t
  | inr errno =>
    let execv_ret := -1 in
    if (execv_ret =? -1) || negb (errno =? 0) then Exited 1 else Exited 0
  end.

(** The parent: [wait] takes the status of a child that has ended; of several it may take
    any, here the one that ended first. *)
Definition wait (p : process) : option Z * process :=
  match zombies p with
  | [] => (None, p)
  | (_, status) :: zs => (Some status, mkProc (fds p) zs)
  end.

(** The fork, the child, and the wait, which is the same in both functions; the
    status is unset when [wait] fails. *)
Definition fork_and_wait (o : os) (unset : Z) (command : list (option (list Z)))
    (p : process) : bool * process :=
  let fork_ret := os_fork o in
  if fork_ret =? -1 then (false, p)
  else
    let t := child o command (fds p !! 1) in
    let p := mkProc (fds p) (zombies p ++ [(fork_ret, status_of t)]) in
    let '(r, p) := wait p in
    let status := default unset r in
    if WEXITSTATUS status =? 0 then (true, p) else (false, p).

Definition do_exec (o : os) (unset : Z) (count : nat) (args : list (list Z))
    (p : process) : bool * process :=
  fork_and_wait o unset (command_array count args) p.

(** [dup2(fd, 1)] in the process that calls the function. *)
Definition dup2_stdout (fd : Z) (p : process) : process :=
  match fds p !! fd with
  | Some f => mkProc (<[1:=f]> (fds p)) (zombies p)
  | None => p
  end.

Definition do_exec_redirect (o : os) (unset : Z) (outputfile : list Z) (count : nat)
    (args : list (list Z)) (p : process) : bool * process :=
  let command := command_array count args in
  let '(fd, f) := os_open o outputfile in
  let p := if fd =? -1 then p else mkProc (<[fd:=f]> (fds p)) (zombies p) in
  let p := dup2_stdout fd p in
  fork_and_wait o unset command p.

(** ** Lemmas *)

Lemma WEXITSTATUS_exited code : WEXITSTATUS (status_of (Exited code)) = Z.land code 255.
Proof.
  unfold WEXITSTATUS, status_of. apply Z.bits_inj'. intros n Hn.
  rewrite Z.shiftr_spec, Z.land_spec, Z.shiftl_spec, !Z.land_spec by lia.
  change 65280 with (Z.shiftl 255 8). rewrite Z.shiftl_spec by lia.
  rewrite Z.add_simpl_r. by destruct (Z.testbit code n), (Z.testbit 255 n).
Qed.

Lemma WEXITSTATUS_killed sig : WEXITSTATUS (status_of (Killed sig)) = 0.
Proof.
  unfold WEXITSTATUS, status_of. rewrite <-Z.land_assoc.
  change (Z.land 127 65280) with 0. by rewrite Z.land_0_r.
Qed.

Lemma status_exited_small code :
  0 ≤ code < 256 → status_of (Exited code) = code * 256.
Proof.
  intros Hc. unfold status_of. change 255 with (Z.ones 8).
  rewrite Z.land_ones, Z.mod_small, Z.shiftl_mul_pow2 by lia. done.
Qed.

(** What the parent sees of its own child. *)
Definition reported (t : termination) : bool :=
  match t with Exited code => Z.land code 255 =? 0 | Killed _ => true end.

Lemma fork_and_wait_own o unset command p :
  os_fork o ≠ -1 → zombies p = [] →
  fork_and_wait o unset command p = (reported (child o command (fds p !! 1)), p).
Proof.
  intros Hf Hz. unfold fork_and_wait, wait. destruct (Z.eqb_spec (os_fork o) (-1)); [done|].
  simpl. rewrite Hz. simpl. destruct p as [f z]; simpl in *; subst z.
  destruct (child o command (f !! 1)) as [code|sig].
  - rewrite WEXITSTATUS_exited. simpl. by destruct (Z.land code 255 =? 0).
  - by rewrite WEXITSTATUS_killed.
Qed.

(** ** Properties *)

(** [do_system] does not look at how the command ended: with [errno] 0 before
    the call it returns true for every exit code of the command, and with a stale
    [errno] it returns false even when the command succeeds.  It is false for the
    null command and when [system] itself fails. *)
Lemma do_system_ignores_exit_code system cmd code errno :
  0 ≤ code < 256 → system cmd = (status_of (Exited code), None) →
  do_system system None errno = (false, errno) ∧
  (do_system system (Some cmd) 0).1 = true ∧
  (errno ≠ 0 → (do_system system (Some cmd) errno).1 = false).
Proof.
  intros Hc Hs. unfold do_system. rewrite Hs, status_exited_small by done. simpl.
  destruct (Z.eqb_spec (code * 256) (-1)); [lia|].
  destruct (Z.eqb_spec (code * 256) 127); [lia|]. simpl. split_and!; [done|done|].
  intros He. by destruct (Z.eqb_spec errno 0).
Qed.

(** C30: [do_exec] reports how its child ended when it has no other child to wait for:
    true for exit code 0, false for another code and when [execv] or [fork] fails,
    but true also for a child killed by a signal.  When another child has ended
    before and [wait] returns that one, as it does here, the result is about it. *)
Theorem do_exec_reports_child o unset count args p :
  (os_fork o = -1 → do_exec o unset count args p = (false, p)) ∧
  (os_fork o ≠ -1 → zombies p = [] →
     do_exec o unset count args p =
       (match os_execv o (command_array count args) (fds p !! 1) with
        | inl (Exited code) => Z.land code 255 =? 0
        | inl (Killed _) => true
        | inr _ => false
        end, p)) ∧
  (∀ pid t zs, os_fork o ≠ -1 → zombies p = (pid, status_of t) :: zs →
     (do_exec o unset count args p).1 = reported t).
Proof.
  unfold do_exec. split_and!.
  - unfold fork_and_wait. by intros ->.
  - intros Hf Hz. rewrite fork_and_wait_own by done. unfold child.
    by destruct (os_execv o _ _) as [[]|].
  - intros pid t zs Hf Hz. unfold fork_and_wait, wait.
    destruct (Z.eqb_spec (os_fork o) (-1)); [done|]. simpl. rewrite Hz. simpl.
    destruct t as [code|sig]; [|by rewrite WEXITSTATUS_killed].
    rewrite WEXITSTATUS_exited. simpl. by destruct (Z.land code 255 =? 0).
Qed.

(** C36: [do_exec_redirect] redirects the caller: the program runs with its standard
    output on the output file, and after the call, whether or not the fork
    succeeded, the standard output of the calling process is that file too and
    the descriptor of the file is still open. *)
Theorem do_exec_redirect_redirects_caller o unset outputfile count args p fd f :
  os_open o outputfile = (fd, f) → fd ≠ -1 →
  let r := do_exec_redirect o unset outputfile count args p in
  fds r.2 !! 1 = Some f ∧ fds r.2 !! fd = Some f ∧
  (os_fork o ≠ -1 → zombies p = [] →
     r.1 = reported (child o (command_array count args) (Some f))).
Proof.
  intros Ho Hfd. unfold do_exec_redirect. rewrite Ho.
  destruct (Z.eqb_spec fd (-1)); [done|]. unfold dup2_stdout. simpl. rewrite lookup_insert_eq.
  set (p1 := mkProc _ _). assert (fds p1 !! 1 = Some f) as H1 by apply lookup_insert_eq.
  assert (fds p1 !! fd = Some f) as H2.
  { simpl. destruct (decide (fd = 1)) as [->|]; [apply lookup_insert_eq|].
    by rewrite lookup_insert_ne, lookup_insert_eq. }
  assert (fds (fork_and_wait o unset (command_array count args) p1).2 = fds p1) as Hk.
  { unfold fork_and_wait, wait. destruct (os_fork o =? -1); [done|]. simpl.
    destruct (zombies p) as [|[? ?] ?]; simpl; by destruct (WEXITSTATUS _ =? 0). }
  rewrite Hk. split_and!; [done|done|]. intros Hf Hz.
  rewrite fork_and_wait_own, H1 by done. done.
Qed.

(** ** Concrete calls *)

(** A program that is killed by signal 11. *)
Definition demo_os : os := mkOs (λ _, (5, 900)) 77 (λ _ _, inl (Killed 11)).
Definition demo_process : process := mkProc (<[1:=100]> ∅) [].

Lemma do_exec_reports_child_witness : do_exec demo_os 0 1 [[47]] demo_process = (true, demo_process).
Proof. apply (do_exec_reports_child demo_os 0 1 [[47]] demo_process); [done|reflexivity]. Defined.

Lemma do_exec_redirect_redirects_caller_witness :
  fds (do_exec_redirect demo_os 0 [111] 1 [[47]] demo_process).2 !! 1 = Some 900 ∧
  fds demo_process !! 1 = Some 100.
Proof.
  split; [|reflexivity].
  apply (do_exec_redirect_redirects_caller demo_os 0 [111] 1 [[47]] demo_process 5 900);
    [reflexivity|done].
Defined.
