(* ===== verification/Threading.v ===== *)
(** * The threading example

    Models [src/examples/threading/threading.c] and [.h]: the thread function as
    the sequence of its blocking calls, and the function that starts it.  The
    header's contract is [documented_calls]. *)
From Stdlib Require Import ZArith Lia.
From stdpp Require Import base tactics list gmap sets numbers.
From S2P Require Import Prelude.

(** ** Data *)

Record thread_data : Type := mkThreadData {
  mutex : Z;
  sleep_ms : Z;
  wait_ms : Z;
  thread_complete_success : bool
}.

(** The calls of a thread that take time or a lock; [usleep] takes
    microseconds. *)
Inductive call : Type :=
| Usleep (usec : Z)
| Lock (m : Z)
| Unlock (m : Z).

#[export] Instance call_eq_dec : EqDecision call.
Proof. solve_decision. Defined.

(** ** Operations *)

(** The calls, and the structure that is returned; the factor is computed in
    [int]. *)
Definition threadfunc (d : thread_data) : list call * thread_data :=
  ([Usleep (i32 (1000 * sleep_ms d)); Lock (mutex d);
    Usleep (i32 (1000 * wait_ms d)); Unlock (mutex d)],
   mkThreadData (mutex d) (sleep_ms d) (wait_ms d) true).

(** The structure that is filled in, over what [malloc] returned ([None] when it
    fails), and the result, from that of [pthread_create]. *)
Definition start_thread_obtaining_mutex (block : option thread_data) (create m : Z)
    (wait_to_obtain_ms wait_to_release_ms : Z) : res (bool * thread_data) :=
  match block with
  | None => Fault NullDeref
  | Some d =>
    let d := mkThreadData m (sleep_ms d) (wait_ms d) (thread_complete_success d) in
    let d := mkThreadData (mutex d) (sleep_ms d) wait_to_obtain_ms (thread_complete_success d) in
    let d := mkThreadData (mutex d) wait_to_release_ms (wait_ms d) (thread_complete_success d) in
    Ok (create =? 0, d)
  end.

(** What the header says the thread does. *)
Definition documented_calls (m wait_to_obtain_ms wait_to_release_ms : Z) : list call :=
  [Usleep (1000 * wait_to_obtain_ms); Lock m; Usleep (1000 * wait_to_release_ms); Unlock m].

(** ** Properties *)

(** C37: The two delays are exchanged: the started thread sleeps
    [wait_to_release_ms] before it takes the mutex and holds it for
    [wait_to_obtain_ms], so that it does what the header says only when they are
    equal.  The result is true exactly when the thread was created, and the
    thread returns its structure marked as complete. *)
Theorem thread_delays_are_exchanged d create m obtain release :
  0 ≤ obtain ≤ 2147483 → 0 ≤ release ≤ 2147483 →
  ∃ d', start_thread_obtaining_mutex (Some d) create m obtain release =
      Ok (bool_decide (create = 0), d') ∧
    (threadfunc d').1 = documented_calls m release obtain ∧
    ((threadfunc d').1 = documented_calls m obtain release ↔ obtain = release) ∧
    thread_complete_success (threadfunc d').2 = true.
Proof.
  intros Ho Hr. eexists. split.
  { simpl. do 2 f_equal. destruct (Z.eqb_spec create 0);
      [by rewrite bool_decide_eq_true_2|by rewrite bool_decide_eq_false_2]. }
  unfold documented_calls. simpl. rewrite !i32_small by lia. split_and!; [done| |done].
  split; [|by intros ->]. intros [= E _]. lia.
Qed.

Lemma thread_delays_are_exchanged_witness :
  ∃ d', start_thread_obtaining_mutex (Some (mkThreadData 0 0 0 false)) 0 5 100 700 = Ok (true, d') ∧
        (threadfunc d').1 = [Usleep 700000; Lock 5; Usleep 100000; Unlock 5].
Proof.
  destruct (thread_delays_are_exchanged (mkThreadData 0 0 0 false) 0 5 100 700)
    as (d' & H1 & H2 & _); [lia|lia|].
  exists d'. split; [exact H1|exact H2].
Defined.
