(* ===== verification/Writer.v ===== *)
(** * The writer utility

    Models [src/finder-app/writer.c]: the arguments, the file, and the [fprintf]
    that is given the text as its format with one null pointer as its argument.
    [%%] and one plain [%p] have a defined result with that argument; any other
    conversion is a fault (a [%p] with flags or a width, which is defined as well, too).
    The file is not closed, the process ends and the text is flushed. *)
From Stdlib Require Import ZArith Lia.
From stdpp Require Import base tactics list gmap sets numbers.
From S2P Require Import Prelude CMemory.

(** ** The library calls *)

Definition PERCENT : Z := 37.

(** What the C library writes for [%p] and the null pointer: [(nil)]. *)
Definition nil_text : list Z := [40; 110; 105; 108; 41].

(** The text that [fprintf(file, format, NULL)] writes; [arg]: the argument has not been
    used by a conversion. *)
Fixpoint fprintf_null (arg : bool) (format : list Z) : res (list Z) :=
  match format with
  | [] => Ok []
  | c :: format' =>
    if c =? PERCENT then
      match format' with
      | c' :: format'' =>
        if c' =? PERCENT then out ← fprintf_null arg format''; Ok (PERCENT :: out)
        else if (c' =? 112) && arg then out ← fprintf_null false format''; Ok (nil_text ++ out)
        else Fault BadFormat
      | [] => Fault BadFormat
      end
    else out ← fprintf_null arg format'; Ok (c :: out)
  end.

(** ** The program *)

(** [error_checking] formats the message into a block of its own: [message] is the
    formatted text, [block] what [malloc] gave for its size and a NUL ([None]: no
    memory). *)
Definition error_checking (message : list Z) (block : option (list Z)) : res (list Z) :=
  match block with
  | None => Fault NullDeref
  | Some b => store_bytes b 0 (message ++ [NUL])
  end.

(** The answers of the outside: whether the file is opened, whether the text is
    written, and the message and block of an error. *)
Record writer_env : Type := mkWriterEnv {
  wr_fopen : bool;
  wr_write : bool;
  wr_message : list Z;
  wr_block : option (list Z)
}.

(** The exit code, and what the file holds, [None] when it was not created. *)
Definition main (env : writer_env) (argv : list (list Z)) : res (Z * option (list Z)) :=
  match argv with
  | [_; _; text_string] =>
    _ ← (if negb (wr_fopen env) then error_checking (wr_message env) (wr_block env) else Ok []);
    if negb (wr_fopen env) then Fault NullDeref
    else
      out ← fprintf_null true text_string;
      if wr_write env then Ok (0, Some out)
      else _ ← error_checking (wr_message env) (wr_block env); Ok (0, Some [])
  | _ => Ok (1, None)
  end.

(** ** Lemmas *)

Lemma percents_cons k l : replicate k PERCENT ++ PERCENT :: l = replicate (S k) PERCENT ++ l.
Proof. induction k as [|k IH]; simpl; [done|]. by rewrite IH. Qed.

(** What is written is never the format after [k] more percent signs, unless there is no
    percent sign at all: each [%%] gives one sign less, and [%p] gives none. *)
Lemma fprintf_null_percents arg k format n :
  (length format ≤ n)%nat → fprintf_null arg format = Ok (replicate k PERCENT ++ format) →
  k = 0%nat ∧ PERCENT ∉ format.
Proof.
  revert arg k format. induction n as [|n IH]; intros arg k [|c format] Hn H; simpl in Hn; try lia.
  1, 2: split; [by destruct k|by apply not_elem_of_nil].
  simpl in H. destruct (Z.eqb_spec c PERCENT) as [->|Hc].
  - destruct format as [|c' format]; [done|]. destruct (Z.eqb_spec c' PERCENT) as [->|].
    + apply res_bind_ok in H as (out & Ho & [= H]). simpl in Hn.
      rewrite !percents_cons in H. injection H as ->.
      by destruct (IH arg (S k) format) as [Hk _]; [lia|done|].
    + destruct ((c' =? 112) && arg); [|done]. apply res_bind_ok in H as (out & _ & [= H]). by destruct k.
  - apply res_bind_ok in H as (out & Ho & [= H]). destruct k as [|k]; [|by injection H].
    injection H as ->. destruct (IH arg 0%nat format) as [_ Hf]; [lia|done|]. set_solver.
Qed.

Lemma fprintf_null_literal arg format : PERCENT ∉ format → fprintf_null arg format = Ok format.
Proof.
  induction format as [|c format IH]; [done|]. rewrite not_elem_of_cons. intros [Hc Hf]. simpl.
  destruct (Z.eqb_spec c PERCENT); [congruence|]. by rewrite IH.
Qed.

(** ** Properties *)

(** C38: The file gets the text given to the program exactly when the text holds no
    percent sign, as it is used as a format; the exit code is 0, also when the
    write fails, and a file that cannot be opened is reported and then written to
    through the null pointer. *)
Theorem writer_writes_text_without_percent env prog path text :
  (wr_fopen env = true → wr_write env = true →
     main env [prog; path; text] = Ok (0, Some text) ↔ PERCENT ∉ text) ∧
  (wr_fopen env = false → ∀ b, wr_block env = Some b →
     (length (wr_message env) < length b)%nat →
     main env [prog; path; text] = Fault NullDeref) ∧
  (wr_fopen env = true → wr_write env = false → PERCENT ∉ text →
     ∀ b, wr_block env = Some b → (length (wr_message env) < length b)%nat →
     main env [prog; path; text] = Ok (0, Some [])).
Proof.
  unfold main. split_and!.
  - intros -> ->. cbn [negb]. split.
    + intros H. apply res_bind_ok in H as (? & _ & (out & Ho & H)%res_bind_ok). injection H as ->.
      by destruct (fprintf_null_percents true 0 text _ (le_n _) Ho).
    + intros Hin. rewrite fprintf_null_literal by done. done.
  - intros -> b Hb Hl. cbn [negb]. rewrite Hb. unfold error_checking.
    by rewrite store_bytes_ok by (rewrite length_app; simpl; lia).
  - intros -> -> Hin b Hb Hl. cbn [negb]. rewrite Hb, fprintf_null_literal by done.
    unfold error_checking. by rewrite store_bytes_ok by (rewrite length_app; simpl; lia).
Qed.

Lemma writer_writes_text_without_percent_witness :
  main (mkWriterEnv true true [] None) [[119]; [102]; [104; 105]] = Ok (0, Some [104; 105]) ∧
  main (mkWriterEnv true true [] None) [[119]; [102]; [53; 37; 37]] ≠ Ok (0, Some [53; 37; 37]) ∧
  main (mkWriterEnv false true [101] (Some [0; 0])) [[119]; [102]; [104; 105]] = Fault NullDeref.
Proof.
  split; [|split].
  - apply (writer_writes_text_without_percent (mkWriterEnv true true [] None)); [done|done|].
    unfold PERCENT. set_solver.
  - intros H. apply (writer_writes_text_without_percent (mkWriterEnv true true [] None)) in H;
      [|done|done]. apply H. unfold PERCENT. set_solver.
  - apply (writer_writes_text_without_percent (mkWriterEnv false true [101] (Some [0; 0]))) with [0; 0];
      [done|done|simpl; lia].
Defined.
