(* ===== verification/Validate.v ===== *)
(** * The validation example

    Models [src/examples/autotest-validate/autotest-validate.c] and the test
    [src/student-test/assignment1/Test_validate_username.c].  The function that
    reads [conf/username.txt] belongs to a git submodule: it is the parameter
    [malloc_username_from_conf_file], of which the test relies on the first line of
    the file. *)
From Stdlib Require Import ZArith Lia.
From stdpp Require Import base tactics list gmap sets numbers strings.
From S2P Require Import Prelude CMemory.

Definition this_function_returns_true : bool := true.
Definition this_function_returns_false : bool := false.
Definition my_username : list Z := text "hangon1234".

(** [git_username] of [autotest-validate-main.c], and what its [main] prints. *)
Definition git_username : list Z := text "akshita-bhasin".

Definition main : list (list Z) :=
  let word (b : bool) := if b then text "true" else text "false" in
  [text "this_function_returns_true returned " ++ word this_function_returns_true ++ [NL];
   text "this_function_returns_false returned " ++ word this_function_returns_false ++ [NL]].

(** The file [conf/username.txt]. *)
Definition username_txt : list Z := text "hangon1234" ++ [NL].

Section Test.
Context (malloc_username_from_conf_file : list Z → list Z).

(** Whether the assertion of the test holds. *)
Definition test_validate_my_username (file : list Z) : bool :=
  bool_decide (malloc_username_from_conf_file file = my_username).

(** The reader gives the first line of the file. *)
Definition reads_first_line : Prop :=
  ∀ line rest, NL ∉ line → malloc_username_from_conf_file (line ++ NL :: rest) = line.

Lemma test_passes : reads_first_line → test_validate_my_username username_txt = true.
Proof.
  intros H. unfold test_validate_my_username. apply bool_decide_eq_true, H.
  by apply (bool_decide_eq_true_1 (NL ∉ text "hangon1234")); vm_compute.
Qed.

End Test.

(** The name that [autotest-validate-main.c] defines is another one. *)
Lemma git_username_differs : git_username ≠ my_username.
Proof. by vm_compute. Qed.

Lemma main_reports : main =
  [text "this_function_returns_true returned true" ++ [NL];
   text "this_function_returns_false returned false" ++ [NL]].
Proof. reflexivity. Qed.
